(* ===== verification/_CoqProject ===== *)
-Q . S2P
Prelude.v
CountedRuns.v
SimpleLRUMap.v
LRUCorrect.v
TLStatsLockTraits.v
TimeSeriesExact.v
TimeSeriesSeqlock.v
SeqlockCorrect.v
RegexUtil.v
CallbackValuesMap.v
CallbackMerge.v
CallbackRegistry.v
CallbackCorrect.v
ExportType.v
Timeseries.v
CounterNames.v
NamedCallbacks.v
TimeseriesExporter.v
ExporterNames.v
HistogramExporter.v
HistogramNames.v
ExportedStatMap.v
StatMapCorrect.v
StatMapTheorems.v
ThreadLocalStats.v
TLStatsRegistry.v
TLStatsTheorems.v
ExportedHistogramMap.v
HistogramMapCorrect.v
HistogramMapTheorems.v
HistogramMapReports.v
QuantileStat.v
QuantileStatMap.v
QuantileCorrect.v
QuantileReads.v
QuantileTheorems.v
FlatCounters.v
FlatCountersCorrect.v
ServiceOptions.v
ServiceOptionsCorrect.v
ServiceOptionsTheorems.v
ServiceData.v
ServiceReads.v
ServiceCorrect.v
ServiceTheorems.v
TLStatNames.v
TLStatNamesCorrect.v
FunctionStats.v
FunctionStatsCorrect.v
FunctionStatsTheorems.v
TLStats.v
TLStatsLedger.v
TLStatsConserve.v
TLStatsCounts.v
TLStatsSeries.v
TLStatsRegistered.v
StatPtr.v
TLStatsMap.v
TLStatsMapCorrect.v
TLStatsMapTidy.v
TLStatsMapSteps.v
TLStatsMapTheorems.v
FormattedKey.v
FormattedKeyCorrect.v
ThreadCached.v
ThreadCachedCorrect.v
ThreadCachedTheorems.v
HistogramWrappers.v
Publisher.v
DynamicStats.v
DynamicCorrect.v
BaseService.v
ClientReads.v
FollyLogging.v
QuantileStatWrappers.v
StatLink.v
StatLinkTyping.v
StatLinkCorrect.v
StatLinkTheorems.v
Overloads.v
