(* ===== verification/Prelude.v ===== *)
(** * fb303: a verification library for the statistics core of the repository

    fb303 is the library through which a service publishes what it counts: flat
    counters, time series over sliding levels, histograms, quantiles, exported
    strings and options.  Threads record into structures of their own, which are
    aggregated into shared maps; the maps export each statistic as a set of named
    counters; readers ask for counters by name, by prefix lists or by regular
    expression.  All paths below are under src/fb303/.

    ** Parts and files

    Shared: this file (fixed-width integers, outcomes, the state-and-exception
    monad [SE], lists and sorted merges); [CountedRuns] (runs that add up what
    their operations count; sums over maps); [RegexUtil] (detail/RegexUtil.h: a map
    kept in step with a regex match cache, used by four components);
    [CounterNames] (C strings and decimal numbers inside names);
    [NamedCallbacks] (the interface between exporters and the callback map).

    - SimpleLRUMap.h: [SimpleLRUMap] (operations over list nodes with
      identities), [LRUCorrect] (refinement of a bounded recency list; every
      operation ends and is defined; any eviction callback).
    - TLStatsLockTraits.h: [TLStatsLockTraits] (both policies, sequentially),
      [TimeSeriesExact] (two-word totals are exact and clamp), [TimeSeriesSeqlock]
      (one step per atomic access, one adder, any number of drainers) and
      [SeqlockCorrect] (every schedule).
    - CallbackValuesMap.h and -inl.h, DynamicCounters.h: [CallbackValuesMap] (128
      shards, shared entries, callbacks that may do anything), [CallbackMerge]
      (the k-way merge over a heap), [CallbackRegistry] (invariant and effects),
      [CallbackCorrect] (refinement of a registry, order of [getValues]).
    - ExportType.h, Timeseries.h/.cpp, TimeseriesHistogram.h: [ExportType],
      [Timeseries].  TimeseriesExporter.h/.cpp, LegacyClock.cpp:
      [TimeseriesExporter], [ExporterNames].  HistogramExporter.h/.cpp:
      [HistogramExporter], [HistogramNames].
    - ExportedStatMap.h/.cpp and ExportedStatMapImpl.h/.cpp: [ExportedStatMap]
      (stats shared through a store; other threads act in the gap between the two
      lock regions of a lookup), [StatMapCorrect], [StatMapTheorems].
    - ExportedHistogramMap.h/.cpp and ExportedHistogramMapImpl.h/.cpp:
      [ExportedHistogramMap], [HistogramMapCorrect], [HistogramMapTheorems],
      [HistogramMapReports].
    - QuantileStat.h and -inl.h: [QuantileStat]; detail/QuantileStatMap.h and
      -inl.h: [QuantileStatMap], [QuantileCorrect] (whose counter a name is; counters
      are those of the bases), [QuantileReads] (three read paths),
      [QuantileTheorems].
    - ThreadLocalStats.h and -inl.h: [ThreadLocalStats] (registration as steps of
      concurrent threads), [TLStatsRegistry] (invariant of every reachable state),
      [TLStatsTheorems]; [TLStats] (time series, histograms and counters of one
      thread after the other, over [ServiceData]), [TLStatsLedger] (the interface of
      what is counted in stats and [ServiceData] together, kept by every operation
      but recording), [TLStatsConserve] and [TLStatsCounts] (its instance for the
      counters, name by name), [TLStatsSeries] (its instance for one global time
      series), [TLStatsRegistered] (one aggregation drains a container); [StatLink]
      (the reference-counted link between a container and its stats, one step per
      atomic access), [StatLinkTyping] (which accesses a call may have left), [StatLinkCorrect]
      (invariant of every schedule), [StatLinkTheorems].
      TLStatsAsyncAggregator.h/.cpp: module [AsyncAggregator] of [TLStatsRegistered].
    - ThreadLocalStats.cpp: [TLStatNames] (the interned names: strings under weak
      pointers, the deleter of the last owner, lock regions of any threads),
      [TLStatNamesCorrect].
    - ThreadLocalStatsMap.h and -inl.h: [StatPtr] (a shared pointer with export
      types in its spare bits, and its plain reference), [TLStatsMap] (maps from
      names to stats, owners counted), [TLStatsMapCorrect] (invariant and the
      effect of making, owning and letting go), [TLStatsMapTidy], [TLStatsMapSteps]
      (every operation), [TLStatsMapTheorems].
    - ThreadCachedServiceData.h/.cpp: [FormattedKey] (keys with subkeys, cached per
      thread; sequentially and as steps of threads), [FormattedKeyCorrect];
      [ThreadCached] (the maps of all threads, the publisher, the wrappers of
      counters, series and histograms), [ThreadCachedCorrect] (its invariant; what
      a wrapper caches), [ThreadCachedTheorems] (runs of any threads),
      [HistogramWrappers] (a wrapper without a histogram), [Publisher] (the
      publisher against its specification; shapes of wrappers), [DynamicStats] and
      [DynamicCorrect] (wrappers with subkeys), [Overloads] (the members that only
      forward).
    - detail/QuantileStatWrappers.h, -inl.h and .cpp: [QuantileStatWrappers].
    - TFunctionStatHandler.h/.cpp: [FunctionStats] (request contexts, per-thread
      sums, consolidation), [FunctionStatsCorrect], [FunctionStatsTheorems];
      in the first, a handler's life and the scope in which thrift has it.
    - Overloads of several headers: [Overloads].
    - ServiceData.h/.cpp: [FlatCounters], [FlatCountersCorrect] (interleaved
      calls); [ServiceOptions], [ServiceOptionsCorrect], [ServiceOptionsTheorems];
      [ServiceData] (the object that owns one of each), [ServiceReads] (the
      getters), [ServiceCorrect], [ServiceTheorems].
    - BaseService.h/.cpp and LimitUtils.h: [BaseService]; [ClientReads] (from a
      thread's increment to a client's read).  FollyLoggingHandler.cpp:
      [FollyLogging].

    The parts stack up: [ThreadCached] holds a [TLStatsMap] per thread, whose
    entries own stats of [TLStats], which aggregate into [ServiceData], which owns
    the stat, histogram and quantile maps and the callback maps their exporters
    fill; [BaseService] and the wrappers are its clients.

    ** How code is represented

    An operation is a function of type [SE S A]: it takes the state and returns an
    [outcome] (a result or an exception, [undefined_behaviour] and failed [CHECK]s
    included) with the state left behind.  Objects behind shared pointers live in
    stores and are named by addresses, so aliasing is visible.  Integers keep
    their width: [wraps] and [wrapu] write the wrap-around out, signed overflow is
    [undefined_behaviour].  Where a lock is given up between two lookups, a [gap]
    parameter stands for what other threads do; where interleaving is the point
    ([TimeSeriesSeqlock], [ThreadLocalStats], [StatLink], [FlatCountersCorrect],
    [TLStatNames], [FormattedKey]) the program is a step function over schedules.
    Shared memory is sequentially consistent; weaker orderings are not modelled.

    Code outside the repository is a class whose laws are its documented
    behaviour, with an instance that satisfies them next to it:
    [RegexMatchCache] (folly; [PrefixCache]), [FollyTimeseries] ([EventSeries]),
    [FollyHistogram] ([CoarseHistogram]), [SimpleHistogram], [QuantileEstimator]
    ([SampleEstimator]), [NumberFormat] (fmt), [TextParsers] (folly::to, boost
    regex), [GoogleFlags] and [FollySplit], [HeapOps] (the standard heap
    algorithms; [SortedHeap]), [LoggerDB], [AsyncTimeout],
    [FunctionScheduler] and [ProcessorHandlers] (thrift).  [LockTraits] is the
    interface between the stats and the two lock policies, which discharge it in
    [TLStatsCounts], and [SeriesLaws], what it says of time series, in
    [TLStatsSeries]; [TypedPtr] is the one between the per-thread maps and their
    pointers, which both representations of [StatPtr] discharge.

    ** What the theorems show

    - Refinement: the LRU map, the callback map, the stat map, the histogram map
      and the quantile map each behave as a finite map (or recency list) under any
      sequence of operations, other threads included; interleaved flat-counter
      calls are linearizable; the publisher does what was asked of it last.
    - Conservation: resets of the seqlocked series partition its updates; no
      increment of a flat counter is lost; what thread-local counters count is in
      [ServiceData] when they are gone, and what any thread counts by name or
      through a wrapper is there after a round of the publisher, where a client reads
      it; the calls a global time series receives add up to what the thread-local
      series over it recorded, each with a sample at least (a sum without one is
      dropped); no request is lost by a consolidation.
    - Safety: registration never fails a [CHECK] and cannot deadlock, the destructor
      of the container running beside the [unlink] of its elements; the link of a
      stat outlives every pointer to it, whoever is destroyed first, and is freed
      with the last of them; LRU operations never use a dangling iterator; a name in the interning table is
      never a freed string, and two live names are never equal; a dynamic wrapper
      never updates a series that is gone or of another name; a formatted key is
      prepared once.
    - Equivalence: packed pointers and plain ones, as long as no pointer is stored
      after a type; a wrapper with and without its caches; three quantile read paths.
    - Reading: a counter reports its own stat, sources have a fixed precedence; a
      limited reply is the first counters by name; the names exporters build
      determine stat, kind and level, and unexporting undoes exporting.
    - Errors: the result of setting an option on every branch, the histogram that
      [addStatExports] refuses, a histogram wrapper that has lost its histogram.
    - Where the code departs from its comments: [aggregate_skips_pending_stat],
      [blacklist_bypassed_by_nul], the clause of
      [reset_forgets_all_but_dynamic_options] on dynamic options,
      [cpu_time_reported_again], [multi_level_shapes], [histogram_wrapper_lost] and
      [move_reaches_destroyed_container].

    ** Bounds and fuel

    Loops are structural, on lists or on the entries they consume; fuel appears in
    [evict_while_full] and the heap merge, where the size of the map and the
    number of entries are proved to be enough.  Counters are 64-bit; the lock
    policies are generic in the width.  There are fewer than 2^64 pointers to
    links at once.  Durations and names are bounded where a
    buffer is ([counterNameSize]); the theorems state the bound.

    ** Not modelled

    Thread scheduling inside operations that hold one lock throughout (they are
    one step), and inside the operations of [ThreadCached] and [TLStatsMap] (their
    interleavings are those of [ThreadLocalStats] and [FlatCountersCorrect] one
    level down); weak memory orderings; allocation failure other than where the
    code handles it; logging.  In [ThreadLocalStats], [link] and [aggregate] beside
    the destructor of the container, which would use it after its end
    ([move_reaches_destroyed_container]).  In [CallbackValuesMap], the lock of an
    entry that a reader holds while the callback runs: a callback that clears its
    own entry does not wait for itself.  In [ExportedHistogramMap], other threads
    between a creating lookup and the values added next.  Of the publishing thread, the timing: a round is
    [publishStats].  Of [BaseService], the thread pool and the thrift callbacks: a
    request is a function from the clock and the headers to a reply.  The thrift
    interface, its Rust client crates, tests, benchmarks and build scripts hold no
    logic of the library. *)
From Stdlib Require Import ZArith Lia Ascii String OrdersEx SpecFloat.
From stdpp Require Import base list gmap strings sorting.

#[global] Set Default Goal Selector "!".
#[global] Open Scope Z_scope.

(** ** Fixed-width integers

    A [w]-bit integer is a [Z] in range; the wrap-around of each operation is
    written out with these functions. *)
Definition wrapu (w x : Z) : Z := x mod 2 ^ w.
Definition smin (w : Z) : Z := - 2 ^ (w - 1).
Definition smax (w : Z) : Z := 2 ^ (w - 1) - 1.
Definition wraps (w x : Z) : Z := (x + 2 ^ (w - 1)) mod 2 ^ w - 2 ^ (w - 1).
Definition clamps (w x : Z) : Z := Z.max (smin w) (Z.min (smax w) x).
Definition in_u (w x : Z) : Prop := 0 <= x < 2 ^ w.
Definition in_s (w x : Z) : Prop := smin w <= x <= smax w.

Lemma pow2_pos w : 0 <= w -> 0 < 2 ^ w.
Proof. intros; apply Z.pow_pos_nonneg; lia. Qed.

Lemma pow2_double w : 1 <= w -> 2 ^ w = 2 * 2 ^ (w - 1).
Proof. intros. rewrite <- Z.pow_succ_r by lia. f_equal; lia. Qed.

Lemma wrapu_range w x : 0 <= w -> in_u w (wrapu w x).
Proof. intros; apply Z.mod_pos_bound, pow2_pos; lia. Qed.

Lemma wrapu_small w x : in_u w x -> wrapu w x = x.
Proof. intros; now apply Z.mod_small. Qed.

Lemma wraps_range w x : 1 <= w -> in_s w (wraps w x).
Proof.
  intros. unfold in_s, wraps, smin, smax.
  pose proof (Z.mod_pos_bound (x + 2 ^ (w - 1)) (2 ^ w) (pow2_pos w ltac:(lia))).
  pose proof (pow2_double w). lia.
Qed.

Lemma wraps_small w x : 1 <= w -> in_s w x -> wraps w x = x.
Proof.
  intros Hw [? ?]. unfold wraps, smin, smax in *. pose proof (pow2_double w).
  rewrite Z.mod_small; lia.
Qed.

(** [x] and [wraps w x] stand for the same residue. *)
Lemma wraps_eqm w x : 1 <= w -> exists k, wraps w x = x + k * 2 ^ w.
Proof.
  intros. exists (- ((x + 2 ^ (w - 1)) / 2 ^ w)). unfold wraps.
  rewrite Z.mod_eq; [lia|]. pose proof (pow2_pos w); lia.
Qed.

Lemma wrapu_eqm w x : 0 <= w -> exists k, wrapu w x = x + k * 2 ^ w.
Proof.
  intros. exists (- (x / 2 ^ w)). unfold wrapu.
  rewrite Z.mod_eq; [lia|]. pose proof (pow2_pos w); lia.
Qed.

(** Two values of the range that agree modulo the width are equal. *)
Lemma eqm_in_s w x y k : 1 <= w -> in_s w x -> in_s w y -> x = y + k * 2 ^ w -> x = y.
Proof.
  intros Hw [] [] Heq. unfold smin, smax in *. pose proof (pow2_double w Hw).
  pose proof (pow2_pos (w - 1)). assert (k = 0) by nia. lia.
Qed.

Lemma wraps_idemp_add w x y : 1 <= w -> wraps w (wraps w x + y) = wraps w (x + y).
Proof.
  intros Hw. destruct (wraps_eqm w x Hw) as [k ->]. unfold wraps. f_equal.
  replace (x + k * 2 ^ w + y + 2 ^ (w - 1)) with (x + y + 2 ^ (w - 1) + k * 2 ^ w) by lia.
  apply Z.mod_add. pose proof (pow2_pos w); lia.
Qed.

(** [wrapu] and [wraps] see a residue only. *)
Lemma wraps_cong w x y k : 0 <= w -> x = y + k * 2 ^ w -> wraps w x = wraps w y.
Proof.
  intros Hw ->. unfold wraps. f_equal.
  replace (y + k * 2 ^ w + 2 ^ (w - 1)) with (y + 2 ^ (w - 1) + k * 2 ^ w) by lia.
  apply Z.mod_add. pose proof (pow2_pos w); lia.
Qed.

Lemma wrapu_cong w x y k : 0 <= w -> x = y + k * 2 ^ w -> wrapu w x = wrapu w y.
Proof. intros Hw ->. apply Z.mod_add. pose proof (pow2_pos w); lia. Qed.

(** The rewrite base [width] pushes every inner wrap-around out of an argument:
    only the residue matters. *)
Section WrapNormal.
Context (w : Z) (Hw : 1 <= w).

Lemma wraps_wrapu x : wraps w (wrapu w x) = wraps w x.
Proof. destruct (wrapu_eqm w x ltac:(lia)) as [k E]. by apply (wraps_cong _ _ _ k); lia. Qed.
Lemma wrapu_wraps x : wrapu w (wraps w x) = wrapu w x.
Proof. destruct (wraps_eqm w x Hw) as [k E]. by apply (wrapu_cong _ _ _ k); lia. Qed.
Lemma wrapu_wrapu x : wrapu w (wrapu w x) = wrapu w x.
Proof. destruct (wrapu_eqm w x ltac:(lia)) as [k E]. by apply (wrapu_cong _ _ _ k); lia. Qed.
Lemma wraps_wrapu_l x y : wraps w (wrapu w x + y) = wraps w (x + y).
Proof. destruct (wrapu_eqm w x ltac:(lia)) as [k E]. by apply (wraps_cong _ _ _ k); lia. Qed.
Lemma wrapu_wrapu_l x y : wrapu w (wrapu w x + y) = wrapu w (x + y).
Proof. destruct (wrapu_eqm w x ltac:(lia)) as [k E]. by apply (wrapu_cong _ _ _ k); lia. Qed.
Lemma wrapu_wrapu_r x y : wrapu w (x + wrapu w y) = wrapu w (x + y).
Proof. destruct (wrapu_eqm w y ltac:(lia)) as [k E]. by apply (wrapu_cong _ _ _ k); lia. Qed.
Lemma wrapu_sub_wrapu_l x y : wrapu w (wrapu w x - y) = wrapu w (x - y).
Proof. destruct (wrapu_eqm w x ltac:(lia)) as [k E]. by apply (wrapu_cong _ _ _ k); lia. Qed.
Lemma wrapu_sub_wrapu_r x y : wrapu w (x - wrapu w y) = wrapu w (x - y).
Proof. destruct (wrapu_eqm w y ltac:(lia)) as [k E]. by apply (wrapu_cong _ _ _ (- k)); lia. Qed.
Lemma wraps_sub_wrapu_l x y : wraps w (wrapu w x - y) = wraps w (x - y).
Proof. destruct (wrapu_eqm w x ltac:(lia)) as [k E]. by apply (wraps_cong _ _ _ k); lia. Qed.
Lemma wraps_sub_sub_wrapu x y z : wraps w (wrapu w x - wrapu w y - z) = wraps w (x - y - z).
Proof.
  destruct (wrapu_eqm w x ltac:(lia)) as [k ->], (wrapu_eqm w y ltac:(lia)) as [k' ->].
  by apply (wraps_cong _ _ _ (k - k')); lia.
Qed.
Lemma wraps_add_mod x : wraps w (x + (2 ^ w - 1)) = wraps w (x - 1).
Proof. by apply (wraps_cong _ _ _ 1); lia. Qed.
Lemma wraps_wraps_sub x y z : wraps w (wraps w x - wraps w y - z) = wraps w (x - y - z).
Proof.
  destruct (wraps_eqm w x Hw) as [k ->], (wraps_eqm w y Hw) as [k' ->].
  by apply (wraps_cong _ _ _ (k - k')); lia.
Qed.
End WrapNormal.

Create Rewrite HintDb width.
#[export] Hint Rewrite wraps_wrapu wrapu_wraps wrapu_wrapu wraps_wrapu_l wrapu_wrapu_l
  wrapu_wrapu_r wrapu_sub_wrapu_l wrapu_sub_wrapu_r wraps_sub_wrapu_l wraps_sub_sub_wrapu
  wraps_add_mod wraps_wraps_sub wraps_idemp_add using lia : width.

Lemma clamps_range w x : 1 <= w -> in_s w (clamps w x).
Proof.
  intros. unfold in_s, clamps, smin, smax. pose proof (pow2_pos (w - 1)). lia.
Qed.

Lemma clamps_small w x : in_s w x -> clamps w x = x.
Proof. unfold in_s, clamps. lia. Qed.

(** ** [double]: IEEE binary64 *)
Abbreviation double := spec_float.
Definition double_of_Z (z : Z) : double := binary_normalize 53 1024 z 0 false.
Definition double_mul (a b : double) : double := SFmul 53 1024 a b.

(** [static_cast<int64_t>] truncates; out of range it is undefined ([None]). *)
Definition double_to_int64 (x : double) : option Z :=
  match x with
  | S754_zero _ => Some 0
  | S754_finite s m e =>
      let a := if 0 <=? e then Zpos m * 2 ^ e else Z.quot (Zpos m) (2 ^ (- e)) in
      let v := if s then - a else a in
      if (smin 64 <=? v) && (v <=? smax 64) then Some v else None
  | _ => None
  end.

(** ** Exceptions and a state monad that keeps its state when it throws *)
Inductive exn :=
  | out_of_range (msg : string)
  | length_error (msg : string)
  | invalid_argument (msg : string)
  | runtime_error (msg : string)
  | check_failed                  (** a [CHECK]/[LOG(FATAL)] that aborts *)
  | undefined_behaviour           (** a dangling iterator, [back()] of an empty list, ... *)
  | out_of_fuel.                  (** the model's own loop bound; proved unreachable *)

Inductive outcome (A : Type) :=
  | Ret (a : A)
  | Throw (e : exn).
Arguments Ret {A} a.
Arguments Throw {A} e.

Definition SE (S A : Type) : Type := S -> outcome A * S.

Definition se_ret {S A} (a : A) : SE S A := fun s => (Ret a, s).
Definition se_throw {S A} (e : exn) : SE S A := fun s => (Throw e, s).
Definition se_bind {S A B} (m : SE S A) (k : A -> SE S B) : SE S B :=
  fun s => match m s with
           | (Ret a, s') => k a s'
           | (Throw e, s') => (Throw e, s')
           end.
Definition se_get {S} : SE S S := fun s => (Ret s, s).
Definition se_put {S} (s' : S) : SE S unit := fun _ => (Ret tt, s').

Declare Scope fb303_scope.
Delimit Scope fb303_scope with fb303.
Notation "'let*' x ':=' m 'in' k" := (se_bind m (fun x => k))
  (at level 100, x pattern, m at level 200, k at level 200, right associativity) : fb303_scope.
Notation "m '>>>' k" := (se_bind m (fun _ => k))
  (at level 99, k at level 200, right associativity) : fb303_scope.

Lemma se_bind_ret {S A B} (m : SE S A) (k : A -> SE S B) s a s' :
  m s = (Ret a, s') -> se_bind m k s = k a s'.
Proof. unfold se_bind. intros ->. reflexivity. Qed.

Lemma se_bind_throw {S A B} (m : SE S A) (k : A -> SE S B) s e s' :
  m s = (Throw e, s') -> se_bind m k s = (Throw e, s').
Proof. unfold se_bind. intros ->. reflexivity. Qed.

Lemma se_bind_assoc {S A B C} (m : SE S A) (f : A -> SE S B) (g : B -> SE S C) s :
  se_bind (se_bind m f) g s = se_bind m (fun a => se_bind (f a) g) s.
Proof. unfold se_bind. now destruct (m s) as [[a|e] s']. Qed.

(** A bind that returns. *)
Lemma se_bind_inv {S A B} (m : SE S A) (k : A -> SE S B) s b s' :
  se_bind m k s = (Ret b, s') -> exists a s1, m s = (Ret a, s1) /\ k a s1 = (Ret b, s').
Proof. unfold se_bind. destruct (m s) as [[a|e] s1]; [|discriminate]. intros Hk. by exists a, s1. Qed.

(** ** Tactics *)

(** [deex] opens existentials and conjunctions, leaving interval bounds to [lia]. *)
Ltac deex :=
  repeat match goal with
         | H : exists x, _ |- _ => let x' := fresh x in destruct H as [x' H]
         | H : ?A /\ _ |- _ => lazymatch A with (_ <= _)%Z => fail | _ => destruct H end
         end.

(** [case_if] splits on the scrutinee of the first [if] or [match] of the goal. *)
Ltac case_if :=
  match goal with
  | |- context [if ?b then _ else _] => destruct b eqn:?
  | |- context [match ?x with _ => _ end] => destruct x eqn:?
  end.

Ltac zify_pow := unfold in_u, in_s, smin, smax in *.

(** ** Lists *)
Lemma list_snoc_inv {A} (xs : list A) :
  (0 < length xs)%nat -> exists ys y, xs = ys ++ [y].
Proof. destruct xs using rev_ind; simpl; [lia|eauto]. Qed.

(** ** The byte-wise order of [std::string]

    [operator<] of [std::string] is the lexicographic order of unsigned bytes,
    which is [String.compare]. *)
Definition str_lt (a b : string) : Prop := String.compare a b = Lt.
Definition str_le (a b : string) : Prop := a = b \/ str_lt a b.

#[export] Instance str_lt_dec : RelDecision str_lt.
Proof. intros a b. unfold str_lt. apply _. Defined.
#[export] Instance str_le_dec : RelDecision str_le.
Proof. intros a b. unfold str_le. apply _. Defined.

#[export] Instance str_lt_trans : Transitive str_lt.
Proof. intros a b c. apply (StrictOrder_Transitive (R := OrdersEx.String_as_OT.lt)). Qed.
#[export] Instance str_lt_irrefl : Irreflexive str_lt.
Proof. intros a. apply (StrictOrder_Irreflexive (R := OrdersEx.String_as_OT.lt)). Qed.

#[export] Instance str_le_trans : Transitive str_le.
Proof. intros a b c [->|?] [->|?]; unfold str_le; auto. right. by etrans. Qed.
#[export] Instance str_le_refl : Reflexive str_le.
Proof. intros a. by left. Qed.
#[export] Instance str_le_antisymm : AntiSymm (=) str_le.
Proof. intros a b [->|H1] [E|H2]; auto. destruct (irreflexivity str_lt a). by etrans. Qed.
#[export] Instance str_le_total : Total str_le.
Proof.
  intros a b. unfold str_le, str_lt. destruct (String.compare a b) eqn:E.
  - apply String.compare_eq_iff in E. auto.
  - auto.
  - rewrite String.compare_antisym in E. right. right. by destruct (String.compare b a).
Qed.

Lemma str_le_lt a b : a <> b -> str_le a b -> str_lt a b.
Proof. intros Hne [->|]; done. Qed.

Lemma str_not_lt a b : ~ str_lt a b <-> str_le b a.
Proof.
  split.
  - intros Hn. destruct (total str_le b a) as [?|[->|?]]; [done|by left|done].
  - intros Hle Hlt. destruct Hle as [->|Hle].
    + by apply (irreflexivity str_lt a).
    + apply (irreflexivity str_lt a). by etrans.
Qed.

(** A strictly sorted list of keyed entries is determined by its elements. *)
Section Keyed.
Context {A : Type}.

Definition key_lt (a b : string * A) : Prop := str_lt a.1 b.1.
Definition key_le (a b : string * A) : Prop := str_le a.1 b.1.
#[export] Instance key_le_dec : RelDecision key_le.
Proof. intros a b. unfold key_le. apply _. Defined.
#[export] Instance key_le_trans : Transitive key_le.
Proof. intros a b c. unfold key_le. apply transitivity. Qed.
#[export] Instance key_le_total : Total key_le.
Proof. intros a b. apply (total str_le). Qed.
#[export] Instance key_lt_trans : Transitive key_lt.
Proof. intros a b c. unfold key_lt. apply transitivity. Qed.

Definition sort_by_key (l : list (string * A)) : list (string * A) := merge_sort key_le l.

Lemma sort_by_key_Permutation l : sort_by_key l ≡ₚ l.
Proof. apply merge_sort_Permutation. Qed.

Lemma StronglySorted_key_lt l :
  StronglySorted key_le l -> NoDup l.*1 -> StronglySorted key_lt l.
Proof.
  induction 1 as [|a l Hs IH Hall]; intros Hnd; constructor.
  - apply IH. by inversion Hnd.
  - apply NoDup_cons in Hnd as [Hn _]. rewrite Forall_forall in *. intros b Hb.
    apply str_le_lt; [|by apply Hall]. intros E. apply Hn. rewrite E. by apply list_elem_of_fmap_2.
Qed.

Lemma sort_by_key_sorted l : NoDup l.*1 -> StronglySorted key_lt (sort_by_key l).
Proof.
  intros Hn. apply StronglySorted_key_lt.
  - apply (StronglySorted_merge_sort key_le).
  - by rewrite sort_by_key_Permutation.
Qed.

Lemma key_lt_unique l1 l2 :
  StronglySorted key_lt l1 -> StronglySorted key_lt l2 -> l1 ≡ₚ l2 -> l1 = l2.
Proof.
  intros H1. revert l2. induction H1 as [|a l1 Hs IH Hall]; intros l2 H2 Hp.
  { by apply Permutation_nil_l in Hp. }
  destruct H2 as [|b l2 Hs2 Hall2]; [by apply Permutation_nil_r in Hp|].
  rewrite Forall_forall in Hall, Hall2.
  assert (a = b) as ->.
  { assert (Ha : a ∈ b :: l2) by (rewrite <- Hp; left).
    assert (Hb : b ∈ a :: l1) by (rewrite Hp; left).
    apply elem_of_cons in Ha as [->|Ha]; [done|].
    apply elem_of_cons in Hb as [->|Hb]; [done|].
    destruct (irreflexivity str_lt a.1). etrans; [by apply Hall|by apply Hall2]. }
  f_equal. apply IH; [done|]. by apply Permutation_cons_inv in Hp.
Qed.
End Keyed.
