(* ===== verification/CountedRuns.v ===== *)
(** * CountedRuns: runs of operations that return, and what they count

    For theorems that add up what was asked for over a run and compare it with
    what the state holds: sums over finite maps, and runs of any set of operations
    with a count per operation. *)
From S2P Require Import Prelude.
From Stdlib Require Import ZArith Lia.
From stdpp Require Import base gmap list.

Open Scope Z_scope.
Open Scope fb303_scope.

(** ** Sums over a finite map *)
Section Sums.
Context {K A : Type} `{Countable K} (f : A -> Z).
Definition map_sum (m : gmap K A) : Z := map_fold (fun _ x acc => f x + acc) 0 m.

Lemma map_sum_empty : map_sum ∅ = 0.
Proof. apply map_fold_empty. Qed.
Lemma map_sum_insert m i x : m !! i = None -> map_sum (<[i := x]> m) = f x + map_sum m.
Proof. intros Hi. unfold map_sum. rewrite (map_fold_insert_L (fun _ x acc => f x + acc) 0 i x m); [done| |done]. intros. lia. Qed.
Lemma map_sum_delete m i x : m !! i = Some x -> map_sum (delete i m) = map_sum m - f x.
Proof.
  intros Hi. rewrite <- (insert_delete_id m i x Hi) at 2.
  rewrite map_sum_insert by apply lookup_delete_eq. lia.
Qed.
Lemma map_sum_update m i x y : m !! i = Some x -> map_sum (<[i := y]> m) = map_sum m - f x + f y.
Proof.
  intros Hi. rewrite <- insert_delete_eq, map_sum_insert by apply lookup_delete_eq.
  rewrite (map_sum_delete m i x Hi). lia.
Qed.
Lemma map_sum_nonneg m : (forall i x, m !! i = Some x -> 0 <= f x) -> 0 <= map_sum m.
Proof.
  induction m as [|i x m Hi IH] using map_ind; intros Hf; [by rewrite map_sum_empty|].
  rewrite map_sum_insert by done. pose proof (Hf i x (lookup_insert_eq _ _ _)) as Hx.
  assert (0 <= map_sum m); [|lia]. apply IH. intros j y Hj. apply (Hf j y). rewrite lookup_insert_ne; [done|congruence].
Qed.
Lemma map_sum_at_least m i x : m !! i = Some x -> (forall i x, m !! i = Some x -> 0 <= f x) -> f x <= map_sum m.
Proof.
  intros Hi Hf. pose proof (map_sum_delete m i x Hi) as Hd.
  assert (0 <= map_sum (delete i m)); [|lia]. apply map_sum_nonneg. intros j y [_ Hj]%lookup_delete_Some. by apply (Hf j y).
Qed.
End Sums.
Lemma map_sum_ext `{Countable K} {A} (f g : A -> Z) (m : gmap K A) :
  (forall i x, m !! i = Some x -> f x = g x) -> map_sum f m = map_sum g m.
Proof.
  induction m as [|i x m Hi IH] using map_ind; intros Hf; [by rewrite !map_sum_empty|].
  rewrite !map_sum_insert by done. rewrite (Hf i x) by apply lookup_insert_eq. f_equal. apply IH.
  intros j y Hj. apply (Hf j y). rewrite lookup_insert_ne; [done|congruence].
Qed.

(** ** Runs

    [exec] is an operation, [good] what its caller must respect, [count] what it
    is asked to count. *)
Section Runs.
Context {S Op : Type} (exec : Op -> SE S unit) (good : Op -> S -> bool) (count : Op -> S -> Z).

(** Every operation returns. *)
Inductive runs : S -> list Op -> Z -> S -> Prop :=
  | runs_nil s : runs s [] 0 s
  | runs_cons s o s1 l n s' : good o s = true -> exec o s = (Ret tt, s1) -> runs s1 l n s' -> runs s (o :: l) (count o s + n) s'.

Fixpoint run_counted (l : list Op) (s : S) : option (Z * S) :=
  match l with
  | [] => Some (0, s)
  | o :: l' =>
      if good o s then
        match exec o s with
        | (Ret _, s1) => '(n, s') ← run_counted l' s1; Some (count o s + n, s')
        | (Throw _, _) => None
        end
      else None
  end.
Lemma run_counted_runs l s n s' : run_counted l s = Some (n, s') -> runs s l n s'.
Proof.
  revert s n. induction l as [|o l IH]; intros s n; cbn; [intros [= <- <-]; constructor|].
  destruct (good o s) eqn:Hg; [|done]. destruct (exec o s) as [[[]|e] s1] eqn:He; [|done].
  destruct (run_counted l s1) as [[m s2]|] eqn:Hr; [|done]. intros [= <- <-]. by apply (runs_cons s o s1); [| |apply IH].
Qed.
End Runs.

(** What is counted has no part in where a run ends. *)
Lemma run_counted_state {S Op : Type} (exec : Op -> SE S unit) (good : Op -> S -> bool) (count1 count2 : Op -> S -> Z) l s :
  snd <$> run_counted exec good count1 l s = snd <$> run_counted exec good count2 l s.
Proof.
  revert s. induction l as [|o l IH]; intros s; [done|]. cbn. destruct (good o s); [|done].
  destruct (exec o s) as [[[]|e] s1]; [|done]. specialize (IH s1).
  by destruct (run_counted exec good count1 l s1) as [[]|], (run_counted exec good count2 l s1) as [[]|].
Qed.
Lemma run_counted_ends {S Op : Type} (exec : Op -> SE S unit) (good : Op -> S -> bool) (count1 count2 : Op -> S -> Z) l s n :
  fst <$> run_counted exec good count1 l s = Some n ->
  runs exec good count1 s l n (match run_counted exec good count2 l s with Some r => r.2 | None => s end).
Proof.
  intros Hn. apply run_counted_runs. pose proof (run_counted_state exec good count1 count2 l s) as He.
  destruct (run_counted exec good count1 l s) as [[n1 s1]|]; [|done]. injection Hn as ->.
  destruct (run_counted exec good count2 l s) as [[n2 s2]|]; [|done]. cbn in *. by injection He as <-.
Qed.
