(* ===== verification/SimpleLRUMap.v ===== *)
(** * SimpleLRUMap: the least-recently-used map of [src/fb303/SimpleLRUMap.h]

    [list_] is a [std::list] of key/value nodes in recency order, [map_] an
    [unordered_map] from keys to iterators of that list.  An iterator is a node
    identity: [splice] moves a node and keeps its identity, [erase] ends it, so
    using a dangling one is [undefined_behaviour] of the model. *)
From S2P Require Import Prelude.
From Stdlib Require Import ZArith Lia String.
From stdpp Require Import base list gmap strings.

Open Scope Z_scope.
Open Scope fb303_scope.

Module SimpleLRUMap.
Section SimpleLRUMap.
Context {K V : Type} `{Countable K}.

(** [TStats]: an unsigned type of [stats_bits] bits ([uint_fast32_t] by default). *)
Context (stats_bits : Z).

(** [iterator] is a node identity (a [nat]), [value_type] a pair [K * V] and a
    node of the list an identity with its pair. *)
Local Abbreviation iterator := nat.
Local Abbreviation value_type := (K * V)%type.
Local Abbreviation node := (nat * (K * V))%type.

Record lru := Lru {
  capacity_ : nat;
  list_ : list node;
  listSize_ : nat;
  map_ : gmap K iterator;
  hits_ : Z;
  misses_ : Z;
  next_node : iterator   (** node identities handed out so far *)
}.

(** ** [std::list] operations on nodes *)
Fixpoint get_node (i : iterator) (l : list node) : option value_type :=
  match l with
  | [] => None
  | (j, kv) :: l' => if Nat.eqb i j then Some kv else get_node i l'
  end.

Fixpoint remove_node (i : iterator) (l : list node) : list node :=
  match l with
  | [] => []
  | (j, kv) :: l' => if Nat.eqb i j then l' else (j, kv) :: remove_node i l'
  end.

Fixpoint set_node (i : iterator) (v : V) (l : list node) : list node :=
  match l with
  | [] => []
  | (j, kv) :: l' => if Nat.eqb i j then (j, (kv.1, v)) :: l' else (j, kv) :: set_node i v l'
  end.

(** The iterator after [i]; [None] is [end()]. *)
Fixpoint next_of (i : iterator) (l : list node) : option iterator :=
  match l with
  | [] => None
  | (j, _) :: l' => if Nat.eqb i j then fst <$> head l' else next_of i l'
  end.

Definition with_list (l : list node) (s : lru) : lru :=
  Lru (capacity_ s) l (listSize_ s) (map_ s) (hits_ s) (misses_ s) (next_node s).
Definition with_map (m : gmap K iterator) (s : lru) : lru :=
  Lru (capacity_ s) (list_ s) (listSize_ s) m (hits_ s) (misses_ s) (next_node s).
Definition with_size (n : nat) (s : lru) : lru :=
  Lru (capacity_ s) (list_ s) n (map_ s) (hits_ s) (misses_ s) (next_node s).
Definition with_stats (h m : Z) (s : lru) : lru :=
  Lru (capacity_ s) (list_ s) (listSize_ s) (map_ s) h m (next_node s).
Definition with_capacity (c : nat) (s : lru) : lru :=
  Lru c (list_ s) (listSize_ s) (map_ s) (hits_ s) (misses_ s) (next_node s).

Definition modify (f : lru -> lru) : SE lru unit := fun s => (Ret tt, f s).

(** ** Private operations *)

(** [evict]: drops the last node; the callback receives the returned pair. *)
Definition evict : SE lru value_type :=
  let* s := se_get in
  match last (list_ s) with
  | None => se_throw undefined_behaviour
  | Some (_, (k, v)) =>
      modify (with_map (delete k (map_ s))) >>>
      modify (with_list (removelast (list_ s))) >>>
      modify (with_size (pred (listSize_ s))) >>>
      se_ret (k, v)
  end.

(** The loop [while (size() >= capacity_) evict(evictCallback)]; the result is
    the list of the entries the callback received, in call order. *)
Fixpoint evict_while_full (fuel : nat) : SE lru (list value_type) :=
  match fuel with
  | O => se_throw out_of_fuel
  | S fuel' =>
      let* s := se_get in
      if Nat.leb (capacity_ s) (listSize_ s) then
        let* e := evict in
        let* es := evict_while_full fuel' in
        se_ret (e :: es)
      else se_ret []
  end.

Definition ensure_room : SE lru (bool * list value_type) :=
  let* s := se_get in
  if Nat.ltb (capacity_ s) 1 then se_ret (false, [])
  else
    let* es := evict_while_full (S (listSize_ s)) in
    se_ret (true, es).

(** [splay]: [list_.splice(list_.begin(), list_, i)]. *)
Definition splay (i : iterator) : SE lru iterator :=
  let* s := se_get in
  match get_node i (list_ s) with
  | None => se_throw undefined_behaviour
  | Some kv => modify (with_list ((i, kv) :: remove_node i (list_ s))) >>> se_ret i
  end.

(** [try_add]: [None] is [list_.end()]. *)
Definition try_add (k : K) (v : V) : SE lru (option iterator * list value_type) :=
  let* r := ensure_room in
  let '(ok, es) := r in
  if negb ok then se_ret (None, es)
  else
    let* s := se_get in
    let i := next_node s in
    modify (fun s => Lru (capacity_ s) ((i, (k, v)) :: list_ s) (S (listSize_ s))
      (match map_ s !! k with Some _ => map_ s | None => <[k := i]> (map_ s) end)
      (hits_ s) (misses_ s) (S i)) >>>
    se_ret (Some i, es).

(** ** Public operations *)
Definition make (capacity : nat) : lru := Lru capacity [] 0 ∅ 0 0 O.

Definition bump_hit : SE lru unit :=
  modify (fun s => with_stats (wrapu stats_bits (hits_ s + 1)) (misses_ s) s).
Definition bump_miss : SE lru unit :=
  modify (fun s => with_stats (hits_ s) (wrapu stats_bits (misses_ s + 1)) s).

(** [find(key) const]: does not move to front; counts the hit or the miss. *)
Definition find_const (k : K) : SE lru (option iterator) :=
  let* s := se_get in
  match map_ s !! k with
  | None => bump_miss >>> se_ret None
  | Some i => bump_hit >>> se_ret (Some i)
  end.

(** [find(key, moveToFront)] *)
Definition find (k : K) (moveToFront : bool) : SE lru (option iterator) :=
  let* s := se_get in
  match map_ s !! k with
  | None => bump_miss >>> se_ret None
  | Some i =>
      let* i' := (if moveToFront then
                    let* j := splay i in
                    modify (fun s => with_map (<[k := j]> (map_ s)) s) >>> se_ret j
                  else se_ret i) in
      bump_hit >>> se_ret (Some i')
  end.

(** [*i], the pair an iterator designates. *)
Definition deref (i : iterator) : SE lru value_type :=
  let* s := se_get in
  match get_node i (list_ s) with
  | None => se_throw undefined_behaviour
  | Some kv => se_ret kv
  end.

(** [i->second = v] *)
Definition assign (i : iterator) (v : V) : SE lru unit :=
  let* s := se_get in
  match get_node i (list_ s) with
  | None => se_throw undefined_behaviour
  | Some _ => modify (with_list (set_node i v (list_ s)))
  end.

Definition peek (k : K) : SE lru V :=
  let* i := find_const k in
  match i with
  | None => se_throw (out_of_range "key not found")
  | Some i => let* kv := deref i in se_ret kv.2
  end.

(** [touch] returns a reference; the iterator is that reference. *)
Definition touch (k : K) : SE lru iterator :=
  let* i := find k true in
  match i with
  | None => se_throw (out_of_range "key not found")
  | Some i => se_ret i
  end.

(** the non-const [operator[]] *)
Definition index (k : K) : SE lru iterator :=
  let* i := find k false in
  match i with
  | None => se_throw (out_of_range "key not found")
  | Some i => se_ret i
  end.

(** The factory runs before the room is made; [None] is [nullptr]. *)
Definition try_get_or_create (k : K) (factory : K -> V) (moveToFront : bool)
  : SE lru (option iterator * list value_type) :=
  let* i := find k moveToFront in
  match i with
  | Some i => se_ret (Some i, [])
  | None => try_add k (factory k)
  end.

Definition get_or_create (k : K) (factory : K -> V) (moveToFront : bool)
  : SE lru (iterator * list value_type) :=
  let* r := try_get_or_create k factory moveToFront in
  match r with
  | (Some i, es) => se_ret (i, es)
  | (None, _) => se_throw (length_error "no capacity")
  end.

(** [try_set]: 1 created, -1 replaced, 0 no capacity. *)
Definition try_set (k : K) (v : V) (moveToFront : bool) : SE lru (Z * list value_type) :=
  let* s := se_get in
  match map_ s !! k with
  | None =>
      let* r := try_add k v in
      match r with
      | (None, es) => se_ret (0, es)
      | (Some _, es) => se_ret (1, es)
      end
  | Some i =>
      let* i' := (if moveToFront then
                    let* j := splay i in
                    modify (fun s => with_map (<[k := j]> (map_ s)) s) >>> se_ret j
                  else se_ret i) in
      assign i' v >>> se_ret (-1, [])
  end.

Definition set (k : K) (v : V) (moveToFront : bool) : SE lru (bool * list value_type) :=
  let* r := try_set k v moveToFront in
  match r with
  | (1, es) => se_ret (true, es)
  | (-1, es) => se_ret (false, es)
  | _ => se_throw (length_error "no capacity")
  end.

Definition erase_key (k : K) : SE lru bool :=
  let* s := se_get in
  match map_ s !! k with
  | None => se_ret false
  | Some i =>
      match get_node i (list_ s) with
      | None => se_throw undefined_behaviour
      | Some _ =>
          modify (with_list (remove_node i (list_ s))) >>>
          modify (with_size (pred (listSize_ s))) >>>
          modify (with_map (delete k (map_ s))) >>>
          se_ret true
      end
  end.

(** [erase(const_iterator)]: the iterator after the erased node. *)
Definition erase_pos (pos : iterator) : SE lru (option iterator) :=
  let* kv := deref pos in
  let* s := se_get in
  match map_ s !! kv.1 with
  | None => se_ret None
  | Some i =>
      match get_node i (list_ s) with
      | None => se_throw undefined_behaviour
      | Some _ =>
          let next := next_of i (list_ s) in
          modify (with_list (remove_node i (list_ s))) >>>
          modify (with_size (pred (listSize_ s))) >>>
          modify (with_map (delete kv.1 (map_ s))) >>>
          se_ret next
      end
  end.

Definition clear_stats : SE lru unit := modify (with_stats 0 0).

Definition clear (clearStats : bool) : SE lru unit :=
  modify (with_map ∅) >>> modify (with_list []) >>> modify (with_size 0) >>>
  (if clearStats then clear_stats else se_ret tt).

Definition empty (s : lru) : bool := match list_ s with [] => true | _ => false end.
Definition size (s : lru) : nat := listSize_ s.
Definition capacity (s : lru) : nat := capacity_ s.

(** The loop [for (auto i = size(); newCapacity < i; --i) evict(...)], run
    [size() - newCapacity] times. *)
Fixpoint evict_n (n : nat) : SE lru (list value_type) :=
  match n with
  | O => se_ret []
  | S n' => let* e := evict in let* es := evict_n n' in se_ret (e :: es)
  end.

(** [capacity(newCapacity)]: the old capacity and the evicted entries. *)
Definition set_capacity (newCapacity : nat) : SE lru (nat * list value_type) :=
  let* s := se_get in
  let* es := evict_n (listSize_ s - newCapacity) in
  modify (with_capacity newCapacity) >>> se_ret (capacity_ s, es).

(** [hit_ratio]: the numerator and denominator of the division; [None] is 0. *)
Definition hit_ratio (s : lru) : option (Z * Z) :=
  let total := wrapu stats_bits (hits_ s + misses_ s) in
  if total =? 0 then None else Some (hits_ s, total).


(** ** Observed operations

    One constructor per public operation that changes state.  A returned
    reference or iterator is observed by reading the pair it designates. *)
Inductive op :=
  | OPeek (k : K) | OTouch (k : K) | OIndex (k : K)
  | OFindConst (k : K) | OFind (k : K) (moveToFront : bool)
  | OTryGetOrCreate (k : K) (factory : K -> V) (moveToFront : bool)
  | OGetOrCreate (k : K) (factory : K -> V) (moveToFront : bool)
  | OTrySet (k : K) (v : V) (moveToFront : bool)
  | OSet (k : K) (v : V) (moveToFront : bool)
  | OEraseKey (k : K)
  | OEraseFound (k : K)   (** [erase(find(key, false))], the iterator overload *)
  | OClear (clearStats : bool)
  | OClearStats
  | OSetCapacity (n : nat).

Inductive res :=
  | REntry (e : option value_type) (evicted : list value_type)
  | RCode (z : Z) (evicted : list value_type)
  | RBool (b : bool) (evicted : list value_type)
  | RNat (n : nat) (evicted : list value_type)
  | RUnit.

Definition observe (i : option iterator) (es : list value_type) : SE lru res :=
  match i with
  | None => se_ret (REntry None es)
  | Some i => let* kv := deref i in se_ret (REntry (Some kv) es)
  end.

Definition run (o : op) : SE lru res :=
  match o with
  | OPeek k => let* v := peek k in se_ret (REntry (Some (k, v)) [])
  | OTouch k => let* i := touch k in observe (Some i) []
  | OIndex k => let* i := index k in observe (Some i) []
  | OFindConst k => let* i := find_const k in observe i []
  | OFind k m => let* i := find k m in observe i []
  | OTryGetOrCreate k f m => let* r := try_get_or_create k f m in observe r.1 r.2
  | OGetOrCreate k f m => let* r := get_or_create k f m in observe (Some r.1) r.2
  | OTrySet k v m => let* r := try_set k v m in se_ret (RCode r.1 r.2)
  | OSet k v m => let* r := set k v m in se_ret (RBool r.1 r.2)
  | OEraseKey k => let* b := erase_key k in se_ret (RBool b [])
  | OEraseFound k =>
      let* i := find k false in
      match i with
      | None => se_ret (REntry None [])
      | Some i => let* j := erase_pos i in observe j []
      end
  | OClear b => clear b >>> se_ret RUnit
  | OClearStats => clear_stats >>> se_ret RUnit
  | OSetCapacity n => let* r := set_capacity n in se_ret (RNat r.1 r.2)
  end.

(** ** Abstract specification

    A bounded list of distinct keys, most recently used first. *)
Record cache := Cache {
  cap : nat;
  items : list value_type;
  chits : Z;
  cmisses : Z
}.

Definition key_is (k : K) (e : value_type) : bool := bool_decide (e.1 = k).
Definition spec_get (k : K) (l : list value_type) : option value_type :=
  head (List.filter (key_is k) l).
Definition spec_remove (k : K) (l : list value_type) : list value_type :=
  List.filter (fun e => negb (key_is k e)) l.
(** The list after a hit on [e], an entry of [l]. *)
Definition spec_use (m : bool) (e : value_type) (l : list value_type) : list value_type :=
  if m then e :: spec_remove e.1 l else l.
Definition spec_write (k : K) (v : V) (l : list value_type) : list value_type :=
  map (fun e => if key_is k e then (e.1, v) else e) l.

Definition with_items (l : list value_type) (c : cache) : cache :=
  Cache (cap c) l (chits c) (cmisses c).
Definition hit (c : cache) : cache :=
  Cache (cap c) (items c) (wrapu stats_bits (chits c + 1)) (cmisses c).
Definition miss (c : cache) : cache :=
  Cache (cap c) (items c) (chits c) (wrapu stats_bits (cmisses c + 1)).

(** Adding an absent key drops the oldest entries, oldest first. *)
Definition spec_add (e : value_type) (c : cache) : option cache * list value_type :=
  match cap c with
  | O => (None, [])
  | S n => (Some (with_items (e :: take n (items c)) c), reverse (drop n (items c)))
  end.

Definition no_capacity : exn := length_error "no capacity".
Definition no_key : exn := out_of_range "key not found".

Definition spec_find (k : K) (m : bool) (miss_res : outcome res) : cache -> outcome res * cache :=
  fun c => match spec_get k (items c) with
           | None => (miss_res, miss c)
           | Some e => (Ret (REntry (Some e) []), hit (with_items (spec_use m e (items c)) c))
           end.

Definition spec_create (k : K) (f : K -> V) (m : bool) (full : list value_type -> outcome res)
  : cache -> outcome res * cache :=
  fun c => match spec_get k (items c) with
           | Some e => (Ret (REntry (Some e) []), hit (with_items (spec_use m e (items c)) c))
           | None =>
               match spec_add (k, f k) (miss c) with
               | (Some c', es) => (Ret (REntry (Some (k, f k)) es), c')
               | (None, es) => (full es, miss c)
               end
           end.

(** [code] maps the 1 / -1 / 0 of [try_set] to the caller's result. *)
Definition spec_set (k : K) (v : V) (m : bool) (code : Z -> list value_type -> outcome res)
  : cache -> outcome res * cache :=
  fun c => match spec_get k (items c) with
           | Some e => (code (-1) [],
                        with_items (spec_write k v (spec_use m e (items c))) c)
           | None =>
               match spec_add (k, v) c with
               | (Some c', es) => (code 1 es, c')
               | (None, es) => (code 0 es, c)
               end
           end.

Definition set_code (z : Z) (es : list value_type) : outcome res :=
  match z with
  | 1 => Ret (RBool true es)
  | -1 => Ret (RBool false es)
  | _ => Throw no_capacity
  end.

(** The entry that follows the one of key [k]. *)
Fixpoint spec_after (k : K) (l : list value_type) : option value_type :=
  match l with
  | [] => None
  | e :: l' => if key_is k e then head l' else spec_after k l'
  end.

Definition spec_run (o : op) : cache -> outcome res * cache :=
  match o with
  | OPeek k => spec_find k false (Throw no_key)
  | OTouch k => spec_find k true (Throw no_key)
  | OIndex k => spec_find k false (Throw no_key)
  | OFindConst k => spec_find k false (Ret (REntry None []))
  | OFind k m => spec_find k m (Ret (REntry None []))
  | OTryGetOrCreate k f m => spec_create k f m (fun es => Ret (REntry None es))
  | OGetOrCreate k f m => spec_create k f m (fun _ => Throw no_capacity)
  | OTrySet k v m => spec_set k v m (fun z es => Ret (RCode z es))
  | OSet k v m => spec_set k v m set_code
  | OEraseKey k => fun c =>
      match spec_get k (items c) with
      | None => (Ret (RBool false []), c)
      | Some _ => (Ret (RBool true []), with_items (spec_remove k (items c)) c)
      end
  | OEraseFound k => fun c =>
      match spec_get k (items c) with
      | None => (Ret (REntry None []), miss c)
      | Some _ => (Ret (REntry (spec_after k (items c)) []),
                   hit (with_items (spec_remove k (items c)) c))
      end
  | OClear b => fun c =>
      (Ret RUnit, Cache (cap c) [] (if b then 0 else chits c) (if b then 0 else cmisses c))
  | OClearStats => fun c => (Ret RUnit, Cache (cap c) (items c) 0 0)
  | OSetCapacity n => fun c =>
      (Ret (RNat (cap c) (reverse (drop n (items c)))),
       Cache n (take n (items c)) (chits c) (cmisses c))
  end.

(** ** Well-formedness and abstraction *)
Record wf (s : lru) : Prop := {
  wf_ids : NoDup (list_ s).*1;
  wf_keys : NoDup (list_ s).*2.*1;
  wf_map : forall k i, map_ s !! k = Some i <-> exists v, (i, (k, v)) ∈ list_ s;
  wf_size : listSize_ s = length (list_ s);
  wf_fresh : Forall (fun n => (n.1 < next_node s)%nat) (list_ s);
  wf_cap : (length (list_ s) <= capacity_ s)%nat
}.

Definition abs (s : lru) : cache :=
  Cache (capacity_ s) (list_ s).*2 (hits_ s) (misses_ s).

End SimpleLRUMap.
End SimpleLRUMap.
