(* ===== verification/LRUCorrect.v ===== *)
(** * SimpleLRUMap refines a bounded recency list

    Every operation keeps [wf] and agrees with [spec_run] on the result, the
    entries handed to the eviction callback and the statistics. *)
From S2P Require Import Prelude SimpleLRUMap.
From Stdlib Require Import ZArith Lia String.
From stdpp Require Import base list gmap strings.
Import SimpleLRUMap.

Open Scope Z_scope.
Open Scope fb303_scope.

Section Lists.
Context {K V : Type} `{Countable K}.
Implicit Types (l : list (nat * (K * V))) (e : K * V) (k : K) (v w : V).

Lemma get_node_mid i l1 l2 e :
  i ∉ l1.*1 -> get_node i (l1 ++ (i, e) :: l2) = Some e.
Proof.
  induction l1 as [|[j e'] l1 IH]; simpl; intros Hi.
  - now rewrite Nat.eqb_refl.
  - rewrite not_elem_of_cons in Hi. destruct (Nat.eqb_spec i j); [tauto|]. now apply IH.
Qed.

Lemma remove_node_mid i l1 l2 e :
  i ∉ l1.*1 -> remove_node i (l1 ++ (i, e) :: l2) = l1 ++ l2.
Proof.
  induction l1 as [|[j e'] l1 IH]; simpl; intros Hi.
  - now rewrite Nat.eqb_refl.
  - rewrite not_elem_of_cons in Hi. destruct (Nat.eqb_spec i j); [tauto|].
    f_equal. now apply IH.
Qed.

Lemma set_node_mid i l1 l2 e v :
  i ∉ l1.*1 -> set_node i v (l1 ++ (i, e) :: l2) = l1 ++ (i, (e.1, v)) :: l2.
Proof.
  induction l1 as [|[j e'] l1 IH]; simpl; intros Hi.
  - now rewrite Nat.eqb_refl.
  - rewrite not_elem_of_cons in Hi. destruct (Nat.eqb_spec i j); [tauto|].
    f_equal. now apply IH.
Qed.

Lemma next_of_mid i l1 l2 e :
  i ∉ l1.*1 -> next_of i (l1 ++ (i, e) :: l2) = fst <$> head l2.
Proof.
  induction l1 as [|[j e'] l1 IH]; simpl; intros Hi.
  - now rewrite Nat.eqb_refl.
  - rewrite not_elem_of_cons in Hi. destruct (Nat.eqb_spec i j); [tauto|]. now apply IH.
Qed.

Lemma key_is_true k e : key_is k e = true <-> e.1 = k.
Proof. apply bool_decide_eq_true. Qed.

Lemma key_is_false k e : key_is k e = false <-> e.1 <> k.
Proof. apply bool_decide_eq_false. Qed.

Lemma key_is_refl k v : key_is k ((k, v) : K * V) = true.
Proof. now apply key_is_true. Qed.

Lemma filter_absent k (es : list (K * V)) :
  k ∉ es.*1 -> List.filter (key_is k) es = [] /\ spec_remove k es = es.
Proof.
  unfold spec_remove. induction es as [|e es IH]; simpl; [done|].
  rewrite not_elem_of_cons. intros [Hne Hin].
  assert (key_is k e = false) as -> by (apply key_is_false; congruence). simpl.
  destruct (IH Hin) as [-> ->]. done.
Qed.

Lemma spec_get_mid k v (es1 es2 : list (K * V)) :
  k ∉ es1.*1 -> spec_get k (es1 ++ (k, v) :: es2) = Some (k, v).
Proof.
  intros Hk. unfold spec_get. rewrite List.filter_app, (proj1 (filter_absent _ _ Hk)).
  cbn [List.filter app]. now rewrite key_is_refl.
Qed.

Lemma spec_remove_mid k v (es1 es2 : list (K * V)) :
  k ∉ es1.*1 -> k ∉ es2.*1 -> spec_remove k (es1 ++ (k, v) :: es2) = es1 ++ es2.
Proof.
  intros H1 H2. unfold spec_remove. rewrite List.filter_app.
  fold (spec_remove k es1). rewrite (proj2 (filter_absent _ _ H1)).
  cbn [List.filter]. rewrite key_is_refl. cbn [negb].
  fold (spec_remove k es2). now rewrite (proj2 (filter_absent _ _ H2)).
Qed.

Lemma spec_write_absent k v (es : list (K * V)) :
  k ∉ es.*1 -> spec_write k v es = es.
Proof.
  unfold spec_write. induction es as [|e es IH]; simpl; [done|].
  rewrite not_elem_of_cons. intros [Hne Hin].
  assert (key_is k e = false) as -> by (apply key_is_false; congruence).
  f_equal. now apply IH.
Qed.

Lemma spec_write_mid k v w (es1 es2 : list (K * V)) :
  k ∉ es1.*1 -> k ∉ es2.*1 ->
  spec_write k v (es1 ++ (k, w) :: es2) = es1 ++ (k, v) :: es2.
Proof.
  intros H1 H2. unfold spec_write. rewrite map_app. fold (spec_write k v es1).
  rewrite spec_write_absent by done. cbn [map]. rewrite key_is_refl.
  fold (spec_write k v es2). now rewrite spec_write_absent.
Qed.

Lemma spec_after_mid k v (es1 es2 : list (K * V)) :
  k ∉ es1.*1 -> spec_after k (es1 ++ (k, v) :: es2) = head es2.
Proof.
  induction es1 as [|e es1 IH]; simpl; intros Hk.
  - now rewrite key_is_refl.
  - apply not_elem_of_cons in Hk as [Hne Hin].
    destruct (key_is k e) eqn:E; [apply key_is_true in E; congruence|]. now apply IH.
Qed.
End Lists.

Section Invariant.
Context {K V : Type} `{Countable K}.
Implicit Types (s : @lru K V _ _) (l : list (nat * (K * V))) (k : K) (v w : V).

Lemma wf_none s k : wf s -> map_ s !! k = None -> k ∉ (list_ s).*2.*1.
Proof.
  intros Hwf Hk Hin. apply list_elem_of_fmap in Hin as ([k' v] & Heq & Hin).
  apply list_elem_of_fmap in Hin as ([i e] & He & Hin). simpl in *. subst.
  assert (map_ s !! k' = Some i) by (apply (wf_map s Hwf); eauto). congruence.
Qed.

(** Where the node of a mapped key sits in the list. *)
Lemma wf_split s k i :
  wf s -> map_ s !! k = Some i ->
  exists l1 l2 v, list_ s = l1 ++ (i, (k, v)) :: l2 /\
    (i ∉ l1.*1) /\ (k ∉ l1.*2.*1) /\ (k ∉ l2.*2.*1).
Proof.
  intros Hwf Hk. destruct (proj1 (wf_map s Hwf k i) Hk) as [v Hin].
  apply list_elem_of_split in Hin as (l1 & l2 & Heq).
  exists l1, l2, v. split; [done|].
  pose proof (wf_ids s Hwf) as Hi. pose proof (wf_keys s Hwf) as Hks.
  rewrite Heq in Hi, Hks. rewrite !fmap_app in Hi. rewrite !fmap_app in Hks.
  apply NoDup_app in Hi as (_ & Hi & _).
  apply NoDup_app in Hks as (_ & Hks1 & Hks2). simpl in *.
  apply NoDup_cons in Hks2 as [Hks2 _].
  repeat split.
  - intros Hx. apply (Hi i Hx). constructor.
  - intros Hx. apply (Hks1 k Hx). constructor.
  - done.
Qed.

(** [wf] only depends on the nodes as a set. *)
Lemma wf_perm s l' : wf s -> Permutation l' (list_ s) -> wf (with_list l' s).
Proof.
  intros [] Hp. split; simpl; try done.
  - now rewrite Hp.
  - now rewrite Hp.
  - intros k i. rewrite wf_map0. now setoid_rewrite Hp.
  - now rewrite Hp.
  - now rewrite Hp.
  - now rewrite Hp.
Qed.

Lemma wf_stats s h m : wf s -> wf (with_stats h m s).
Proof. intros []. by split. Qed.

Lemma wf_capacity s n : wf s -> (length (list_ s) <= n)%nat -> wf (with_capacity n s).
Proof. intros []. by split. Qed.

Lemma wf_make c : wf (make c : @lru K V _ _).
Proof.
  split; simpl; [constructor|constructor| |done|constructor|lia].
  intros k i. rewrite lookup_empty. split; [done|]. intros [v Hv%elem_of_nil]. done.
Qed.

Lemma wf_drop s l1 l2 i k v n :
  wf s -> list_ s = l1 ++ (i, (k, v)) :: l2 -> n = length (l1 ++ l2) ->
  wf (Lru (capacity_ s) (l1 ++ l2) n (delete k (map_ s)) (hits_ s) (misses_ s) (next_node s)).
Proof.
  intros Hwf Hl ->. assert (Hp : list_ s ≡ₚ (i, (k, v)) :: l1 ++ l2).
  { rewrite Hl. symmetry. apply Permutation_middle. }
  destruct Hwf. rewrite Hp in wf_ids0, wf_keys0, wf_fresh0, wf_cap0. simpl in *.
  apply NoDup_cons in wf_ids0 as [Hi ?]. apply NoDup_cons in wf_keys0 as [Hk ?].
  apply Forall_cons in wf_fresh0 as []. split; simpl; try done; [|lia].
  intros k' i'. rewrite lookup_delete_Some, wf_map0. setoid_rewrite Hp.
  setoid_rewrite elem_of_cons. split.
  - intros [Hne [v' [Heq|Hin]]]; [congruence|eauto].
  - intros [v' Hin]. split; [|eauto]. intros ->. apply Hk.
    apply list_elem_of_fmap. exists (k', v'). split; [done|].
    apply list_elem_of_fmap. now exists (i', (k', v')).
Qed.

Lemma wf_push s k v :
  wf s -> map_ s !! k = None -> (length (list_ s) < capacity_ s)%nat ->
  wf (Lru (capacity_ s) ((next_node s, (k, v)) :: list_ s) (S (listSize_ s))
        (<[k := next_node s]> (map_ s)) (hits_ s) (misses_ s) (S (next_node s))).
Proof.
  intros Hwf Hk Hc. pose proof (wf_none s k Hwf Hk) as Hnk. destruct Hwf.
  assert (Hfresh : next_node s ∉ (list_ s).*1).
  { intros ([j e] & Hj & Hin)%list_elem_of_fmap. rewrite Forall_forall in wf_fresh0.
    specialize (wf_fresh0 _ Hin). simpl in *. lia. }
  split; simpl; [by constructor|by constructor| |lia| |lia].
  - intros k' i'. setoid_rewrite elem_of_cons. rewrite lookup_insert_Some, wf_map0.
    split; [intros [[-> ->]|[? [v' ?]]]; eauto|].
    intros [v' [Heq|Hin]]; [left; by simplify_eq|]. right. split; [|eauto].
    intros ->. apply Hnk. apply list_elem_of_fmap. exists (k', v'). split; [done|].
    apply list_elem_of_fmap. now exists (i', (k', v')).
  - constructor; [simpl; lia|]. eapply Forall_impl; [done|]. simpl. lia.
Qed.

Lemma wf_write s l1 l2 i k v w :
  wf s -> list_ s = l1 ++ (i, (k, v)) :: l2 ->
  wf (with_list (l1 ++ (i, (k, w)) :: l2) s).
Proof.
  intros [] Hl. rewrite Hl in *. rewrite !fmap_app, !fmap_cons in *. simpl in *.
  split; simpl; rewrite ?fmap_app; try done.
  - intros k' i'. rewrite wf_map0. setoid_rewrite elem_of_app. setoid_rewrite elem_of_cons.
    split; intros [u [?|[?|?]]]; simplify_eq; eauto.
  - by rewrite length_app in *.
  - rewrite !Forall_app, !Forall_cons in *. done.
  - by rewrite length_app in *.
Qed.
End Invariant.

Section Operations.
Context {K V : Type} `{Countable K} (stats_bits : Z).
Implicit Types (s : @lru K V _ _) (l : list (nat * (K * V))) (k : K) (v w : V).

(** [s'] has the capacity, the statistics and the allocator of [s]. *)
Definition same_env s s' : Prop :=
  capacity_ s' = capacity_ s /\ hits_ s' = hits_ s /\ misses_ s' = misses_ s.

Lemma evict_run s l n :
  wf s -> list_ s = l ++ [n] ->
  exists s', evict s = (Ret n.2, s') /\ wf s' /\ list_ s' = l /\ same_env s s'.
Proof.
  intros Hwf Hl. destruct n as [i [k v]]. unfold evict, se_bind, se_get, modify.
  rewrite Hl, last_snoc, removelast_last. cbn.
  eexists. split; [reflexivity|]. rewrite (wf_size s Hwf), Hl, length_app, Nat.add_1_r. simpl.
  split; [|by repeat split].
  pose proof (wf_drop s l [] i k v (length l) Hwf Hl) as Hd. rewrite app_nil_r in Hd.
  by apply Hd.
Qed.

(** [n] evictions keep the [length - n] most recent nodes. *)
Lemma evict_n_run n s :
  wf s -> (n <= length (list_ s))%nat ->
  exists s', evict_n n s
      = (Ret (reverse (drop (length (list_ s) - n) (list_ s).*2)), s') /\
    wf s' /\ list_ s' = take (length (list_ s) - n) (list_ s) /\ same_env s s'.
Proof.
  revert s. induction n as [|n IH]; intros s Hwf Hn.
  - exists s. rewrite Nat.sub_0_r, drop_ge, take_ge by (rewrite ?length_fmap; lia). done.
  - destruct (list_snoc_inv (list_ s)) as (l & x & Hl); [lia|].
    destruct (evict_run s l x Hwf Hl) as (s1 & He & Hwf1 & Hl1 & Henv1).
    destruct (IH s1 Hwf1) as (s2 & He2 & Hwf2 & Hl2 & Henv2).
    { rewrite Hl1. rewrite Hl, length_app in Hn. simpl in Hn. lia. }
    exists s2. cbn [evict_n]. erewrite se_bind_ret by exact He.
    erewrite se_bind_ret by exact He2. unfold se_ret. rewrite Hl1 in *.
    assert (Hlen : (length (list_ s) - S n = length l - n)%nat) by (rewrite Hl, length_app; cbn [length]; lia).
    rewrite Hlen, Hl, fmap_app. rewrite Hl, length_app in Hn. simpl in Hn.
    rewrite drop_app_le, take_app_le by (rewrite ?length_fmap; lia).
    rewrite reverse_app. split; [done|]. split; [done|]. split; [done|].
    unfold same_env in *. intuition congruence.
Qed.

Lemma wf_absent s k : wf s -> k ∉ (list_ s).*2.*1 -> map_ s !! k = None.
Proof.
  intros Hwf Hk. destruct (map_ s !! k) as [i|] eqn:E; [|done].
  destruct (wf_split s k i Hwf E) as (l1 & l2 & v & Hl & _). exfalso. apply Hk.
  rewrite Hl, !fmap_app. simpl. set_solver.
Qed.

(** The eviction loop stops with at most [capacity_ - 1] entries, whatever
    fuel above the number of entries it is given. *)
Lemma evict_while_full_run fuel s n :
  wf s -> capacity_ s = S n -> (length (list_ s) < fuel)%nat ->
  exists s', evict_while_full fuel s = (Ret (reverse (drop n (list_ s).*2)), s') /\
    wf s' /\ list_ s' = take n (list_ s) /\ same_env s s'.
Proof.
  revert s. induction fuel as [|fuel IH]; intros s Hwf Hc Hf; [lia|].
  cbn [evict_while_full]. erewrite se_bind_ret by reflexivity.
  rewrite Hc, (wf_size s Hwf).
  destruct (Nat.leb_spec (S n) (length (list_ s))) as [Hfull|Hroom].
  - destruct (list_snoc_inv (list_ s)) as (l & x & Hl); [lia|].
    assert (Hlen : length (list_ s) = S (length l)) by (rewrite Hl, length_app; simpl; lia).
    destruct (evict_run s l x Hwf Hl) as (s1 & He & Hwf1 & Hl1 & Henv1).
    destruct (IH s1 Hwf1) as (s2 & He2 & Hwf2 & Hl2 & Henv2); [by rewrite (proj1 Henv1)|rewrite Hl1; lia|].
    exists s2. erewrite se_bind_ret by exact He. erewrite se_bind_ret by exact He2.
    rewrite Hl1 in *. rewrite Hl, fmap_app.
    rewrite drop_app_le, take_app_le by (rewrite ?length_fmap; lia).
    rewrite reverse_app. unfold same_env in *. intuition congruence.
  - exists s. rewrite drop_ge, take_ge by (rewrite ?length_fmap; lia). done.
Qed.

Lemma ensure_room_run s n :
  wf s -> capacity_ s = S n ->
  exists s', ensure_room s = (Ret (true, reverse (drop n (list_ s).*2)), s') /\
    wf s' /\ list_ s' = take n (list_ s) /\ same_env s s'.
Proof.
  intros Hwf Hc.
  destruct (evict_while_full_run (S (listSize_ s)) s n Hwf Hc) as (s' & He & Hs').
  { rewrite (wf_size s Hwf). lia. }
  exists s'. split; [|done]. unfold ensure_room. erewrite se_bind_ret by reflexivity.
  rewrite Hc. cbn [Nat.ltb Nat.leb]. now erewrite se_bind_ret by exact He.
Qed.

Lemma try_add_full s k v :
  capacity_ s = O -> try_add k v s = (Ret (None, []), s).
Proof. intros Hc. unfold try_add, ensure_room, se_bind, se_get. now rewrite Hc. Qed.

Lemma try_add_run s k v n :
  wf s -> map_ s !! k = None -> capacity_ s = S n ->
  exists s' i, try_add k v s = (Ret (Some i, reverse (drop n (list_ s).*2)), s') /\
    wf s' /\ list_ s' = (i, (k, v)) :: take n (list_ s) /\ same_env s s'.
Proof.
  intros Hwf Hk Hc. destruct (ensure_room_run s n Hwf Hc) as (s1 & He & Hwf1 & Hl1 & Henv).
  assert (Hk1 : map_ s1 !! k = None).
  { apply wf_absent; [done|]. rewrite Hl1, !fmap_take. intros Hin.
    apply (wf_none s k Hwf Hk). by eapply subseteq_take. }
  unfold try_add. erewrite se_bind_ret by exact He. cbn [negb].
  erewrite se_bind_ret by reflexivity. erewrite se_bind_ret by reflexivity.
  eexists _, _. split; [reflexivity|]. rewrite Hk1. simpl. split; [|split; [by rewrite Hl1|done]].
  apply wf_push; [done..|]. rewrite Hl1, length_take, (proj1 Henv), Hc. lia.
Qed.

Lemma splay_run s i l1 l2 e :
  wf s -> list_ s = l1 ++ (i, e) :: l2 -> i ∉ l1.*1 ->
  splay i s = (Ret i, with_list ((i, e) :: l1 ++ l2) s) /\
  wf (with_list ((i, e) :: l1 ++ l2) s).
Proof.
  intros Hwf Hl Hi. unfold splay, se_bind, se_get, modify, se_ret.
  rewrite Hl, get_node_mid, remove_node_mid by done. split; [done|].
  apply wf_perm; [done|]. rewrite Hl. apply Permutation_middle.
Qed.

(** The node list after an existing node is used. *)
Definition used (m : bool) (i : nat) (e : K * V) (l1 l2 : list (nat * (K * V))) :=
  if m then (i, e) :: l1 ++ l2 else l1 ++ (i, e) :: l2.

(** The common move-to-front prefix of [find] and [try_set]. *)
Lemma use_run s k i l1 l2 v (m : bool) :
  wf s -> map_ s !! k = Some i -> list_ s = l1 ++ (i, (k, v)) :: l2 -> i ∉ l1.*1 ->
  (if m then let* j := splay i in
             modify (fun s => with_map (<[k := j]> (map_ s)) s) >>> se_ret j
   else se_ret i) s = (Ret i, with_list (used m i (k, v) l1 l2) s)
  /\ wf (with_list (used m i (k, v) l1 l2) s).
Proof.
  intros Hwf Hk Hl Hi. destruct m; simpl.
  - destruct (splay_run s i l1 l2 (k, v) Hwf Hl Hi) as [Hs Hw]. split; [|done].
    erewrite se_bind_ret by exact Hs. unfold se_bind, modify, se_ret, with_map, with_list.
    simpl. now rewrite insert_id.
  - rewrite <- Hl. destruct s; simpl in *. done.
Qed.

Lemma find_hit s k i l1 l2 v m :
  wf s -> map_ s !! k = Some i -> list_ s = l1 ++ (i, (k, v)) :: l2 -> i ∉ l1.*1 ->
  find stats_bits k m s = (Ret (Some i),
    with_stats (wrapu stats_bits (hits_ s + 1)) (misses_ s)
      (with_list (used m i (k, v) l1 l2) s)) /\
  wf (with_list (used m i (k, v) l1 l2) s).
Proof.
  intros Hwf Hk Hl Hi. destruct (use_run s k i l1 l2 v m Hwf Hk Hl Hi) as [Hu Hw].
  split; [|done]. unfold find. erewrite se_bind_ret by reflexivity. rewrite Hk.
  erewrite se_bind_ret by exact Hu. reflexivity.
Qed.

Lemma find_miss s k m :
  map_ s !! k = None ->
  find stats_bits k m s = (Ret None, with_stats (hits_ s) (wrapu stats_bits (misses_ s + 1)) s).
Proof. intros Hk. unfold find, se_bind, se_get. now rewrite Hk. Qed.

Lemma find_const_find s k : find_const stats_bits k s = find stats_bits k false s.
Proof. unfold find_const, find, se_bind, se_get. by destruct (map_ s !! k). Qed.

Lemma deref_used s m i e l1 l2 :
  i ∉ l1.*1 -> list_ s = used m i e l1 l2 -> deref i s = (Ret e, s).
Proof.
  intros Hi Hl. unfold deref, se_bind, se_get. rewrite Hl.
  destruct m; simpl; [now rewrite Nat.eqb_refl|]. now rewrite get_node_mid.
Qed.

Lemma assign_used s m i k v w l1 l2 :
  i ∉ l1.*1 -> list_ s = used m i (k, v) l1 l2 ->
  assign i w s = (Ret tt, with_list (used m i (k, w) l1 l2) s).
Proof.
  intros Hi Hl. unfold assign, se_bind, se_get, modify. rewrite Hl.
  destruct m; simpl; [now rewrite Nat.eqb_refl|].
  rewrite get_node_mid, set_node_mid by done. done.
Qed.
End Operations.

Section Refinement.
Context {K V : Type} `{Countable K} (stats_bits : Z).
Implicit Types (s : @lru K V _ _) (k : K) (v w : V) (c : @cache K V).

(** [p], started in [s], ends well-formed and does what [spec] does. *)
Definition agrees (spec : @cache K V -> outcome (@res K V) * @cache K V)
    (p : SE (@lru K V _ _) (@res K V)) s : Prop :=
  wf (p s).2 /\ spec (abs s) = ((p s).1, abs (p s).2).

Lemma abs_spec_get_none s k : wf s -> map_ s !! k = None -> spec_get k (items (abs s)) = None.
Proof.
  intros Hwf Hk. unfold spec_get. simpl.
  now rewrite (proj1 (filter_absent k _ (wf_none s k Hwf Hk))).
Qed.

(** A mapped key, seen at both levels. *)
Lemma mapped_inv s k i :
  wf s -> map_ s !! k = Some i ->
  exists l1 l2 v, list_ s = l1 ++ (i, (k, v)) :: l2 /\ (i ∉ l1.*1) /\
    spec_get k (items (abs s)) = Some (k, v) /\
    spec_remove k (items (abs s)) = (l1 ++ l2).*2 /\
    spec_after k (items (abs s)) = head l2.*2 /\
    (forall m, spec_use m (k, v) (items (abs s)) = (used m i (k, v) l1 l2).*2) /\
    (forall m w, spec_write k w (used m i (k, v) l1 l2).*2 = (used m i (k, w) l1 l2).*2).
Proof.
  intros Hwf Hk. destruct (wf_split s k i Hwf Hk) as (l1 & l2 & v & Hl & Hi & H1 & H2).
  exists l1, l2, v. unfold abs. cbn [items]. rewrite Hl, !fmap_app, fmap_cons. cbn [snd].
  pose proof (spec_remove_mid k v l1.*2 l2.*2 H1 H2) as Hrm.
  split_and!; [done|done|by apply spec_get_mid|done|by apply spec_after_mid| |].
  - intros [|]; simpl; rewrite ?fmap_app; simpl; [|done]. now rewrite <- Hrm.
  - intros [|] w; simpl; rewrite ?fmap_app; simpl; [|by apply spec_write_mid].
    rewrite key_is_refl. f_equal. unfold spec_write. rewrite map_app.
    fold (spec_write k w l1.*2) (spec_write k w l2.*2). now rewrite !spec_write_absent.
Qed.

Lemma find_agrees s k m (cont : option nat -> SE lru res) r0 :
  wf s ->
  (forall s', cont None s' = (r0, s')) ->
  (forall s' i v, deref i s' = (Ret (k, v), s') ->
     cont (Some i) s' = (Ret (REntry (Some (k, v)) []), s')) ->
  agrees (spec_find stats_bits k m r0) (let* i := find stats_bits k m in cont i) s.
Proof.
  intros Hwf Hnone Hsome. unfold agrees, spec_find. destruct (map_ s !! k) as [i|] eqn:Hk.
  - destruct (mapped_inv s k i Hwf Hk) as (l1 & l2 & v & Hl & Hi & Hg & _ & _ & Hu & _).
    destruct (find_hit stats_bits s k i l1 l2 v m Hwf Hk Hl Hi) as [Hf Hw].
    erewrite se_bind_ret by exact Hf. rewrite Hg.
    erewrite Hsome by (now apply (deref_used _ m i _ l1 l2)). simpl.
    split; [by apply wf_stats|]. f_equal. unfold hit, with_items, abs. simpl.
    f_equal. apply Hu.
  - rewrite (abs_spec_get_none s k Hwf Hk).
    erewrite se_bind_ret by (now apply find_miss). rewrite Hnone. simpl.
    split; [by apply wf_stats|done].
Qed.

Lemma create_agrees s k f m (cont : option nat * list (K * V) -> SE lru res) full :
  wf s ->
  (forall s' es, cont (None, es) s' = (full es, s')) ->
  (forall s' i e es, deref i s' = (Ret e, s') ->
     cont (Some i, es) s' = (Ret (REntry (Some e) es), s')) ->
  agrees (spec_create stats_bits k f m full)
    (let* r := try_get_or_create stats_bits k f m in cont r) s.
Proof.
  intros Hwf Hnone Hsome. unfold agrees, spec_create, try_get_or_create.
  rewrite se_bind_assoc. destruct (map_ s !! k) as [i|] eqn:Hk.
  - destruct (mapped_inv s k i Hwf Hk) as (l1 & l2 & v & Hl & Hi & Hg & _ & _ & Hu & _).
    destruct (find_hit stats_bits s k i l1 l2 v m Hwf Hk Hl Hi) as [Hf Hw].
    erewrite se_bind_ret by exact Hf. rewrite Hg. erewrite se_bind_ret by reflexivity.
    erewrite Hsome by (now apply (deref_used _ m i (k, v) l1 l2)). simpl.
    split; [by apply wf_stats|]. f_equal. unfold hit, with_items, abs. simpl.
    f_equal. apply Hu.
  - rewrite (abs_spec_get_none s k Hwf Hk). erewrite se_bind_ret by (now apply find_miss).
    set (s0 := with_stats _ _ s). assert (Hw0 : wf s0) by now apply wf_stats.
    unfold spec_add. simpl (cap _). destruct (capacity_ s) as [|n] eqn:Hc.
    + erewrite se_bind_ret by (now apply try_add_full). rewrite Hnone. simpl. done.
    + destruct (try_add_run s0 k (f k) n Hw0 Hk Hc) as (s1 & i & Ht & Hw1 & Hl1 & He1).
      erewrite se_bind_ret by exact Ht.
      erewrite Hsome by (now apply (deref_used _ true i (k, f k) [] (take n (list_ s0)))).
      simpl. split; [done|]. f_equal. unfold with_items, miss, abs. simpl.
      rewrite Hl1, (proj1 He1), (proj1 (proj2 He1)), (proj2 (proj2 He1)). simpl.
      rewrite Hc. by rewrite fmap_take.
Qed.

Lemma set_agrees s k v m (cont : Z * list (K * V) -> SE lru res) code :
  wf s ->
  (forall s' z es, cont (z, es) s' = (code z es, s')) ->
  agrees (spec_set k v m code) (let* r := try_set k v m in cont r) s.
Proof.
  intros Hwf Hcont. unfold agrees, spec_set, try_set.
  rewrite se_bind_assoc. erewrite se_bind_ret by reflexivity.
  destruct (map_ s !! k) as [i|] eqn:Hk; rewrite se_bind_assoc.
  - destruct (mapped_inv s k i Hwf Hk) as (l1 & l2 & w & Hl & Hi & Hg & _ & _ & Hu & Hwr).
    destruct (use_run s k i l1 l2 w m Hwf Hk Hl Hi) as [Hr Hw].
    erewrite se_bind_ret by exact Hr. rewrite se_bind_assoc.
    erewrite se_bind_ret by (now apply (assign_used _ m i k w v l1 l2)).
    erewrite se_bind_ret by reflexivity. rewrite Hcont, Hg. simpl. split.
    + destruct m; [by apply (wf_write _ [] (l1 ++ l2) i k w v Hw)|].
      by apply (wf_write _ l1 l2 i k w v Hw).
    + f_equal. unfold with_items, abs. simpl. f_equal.
      pose proof (Hu m) as Hu'. simpl in Hu'. rewrite Hu'. apply Hwr.
  - rewrite (abs_spec_get_none s k Hwf Hk). unfold spec_add. simpl (cap _).
    destruct (capacity_ s) as [|n] eqn:Hc.
    + erewrite se_bind_ret by (now apply try_add_full).
      erewrite se_bind_ret by reflexivity. rewrite Hcont. done.
    + destruct (try_add_run s k v n Hwf Hk Hc) as (s1 & i & Ht & Hw1 & Hl1 & He1).
      erewrite se_bind_ret by exact Ht. erewrite se_bind_ret by reflexivity. rewrite Hcont.
      simpl. split; [done|]. f_equal. unfold with_items, abs. simpl.
      rewrite Hl1, (proj1 He1), (proj1 (proj2 He1)), (proj2 (proj2 He1)), Hc. simpl.
      by rewrite fmap_take.
Qed.

Lemma deref_mid s l1 l2 i e :
  list_ s = l1 ++ (i, e) :: l2 -> i ∉ l1.*1 -> deref i s = (Ret e, s).
Proof. intros Hl Hi. now apply (deref_used s false i e l1 l2). Qed.

(** Both [erase] overloads, once the node is located. *)
Lemma wf_erase s k i l1 l2 v :
  wf s -> list_ s = l1 ++ (i, (k, v)) :: l2 ->
  wf (Lru (capacity_ s) (l1 ++ l2) (pred (listSize_ s)) (delete k (map_ s))
        (hits_ s) (misses_ s) (next_node s)).
Proof.
  intros Hwf Hl. apply (wf_drop s l1 l2 i k v); [done|done|].
  rewrite (wf_size s Hwf), Hl, !length_app. simpl. lia.
Qed.

Lemma erase_key_agrees s k : wf s -> agrees (spec_run stats_bits (OEraseKey k)) (run stats_bits (OEraseKey k)) s.
Proof.
  intros Hwf. unfold agrees. simpl. unfold erase_key. rewrite se_bind_assoc.
  erewrite se_bind_ret by reflexivity. destruct (map_ s !! k) as [i|] eqn:Hk.
  - destruct (mapped_inv s k i Hwf Hk) as (l1 & l2 & v & Hl & Hi & Hg & Hrm & _).
    simpl in Hg, Hrm. rewrite Hg, Hrm, Hl, get_node_mid, remove_node_mid by done.
    split; [by apply (wf_erase s k i l1 l2 v)|done].
  - pose proof (abs_spec_get_none s k Hwf Hk) as Hg. simpl in Hg. by rewrite Hg.
Qed.

Lemma erase_pos_run s k i l1 l2 v :
  map_ s !! k = Some i -> list_ s = l1 ++ (i, (k, v)) :: l2 -> i ∉ l1.*1 ->
  erase_pos i s = (Ret (fst <$> head l2),
    Lru (capacity_ s) (l1 ++ l2) (pred (listSize_ s)) (delete k (map_ s))
      (hits_ s) (misses_ s) (next_node s)).
Proof.
  intros Hk Hl Hi. unfold erase_pos. rewrite (se_bind_ret _ _ _ _ _ (deref_mid s l1 l2 i (k, v) Hl Hi)).
  erewrite se_bind_ret by reflexivity. cbn [fst]. rewrite Hk, Hl.
  by rewrite get_node_mid, remove_node_mid, next_of_mid.
Qed.

Lemma erase_found_agrees s k :
  wf s -> agrees (spec_run stats_bits (OEraseFound k)) (run stats_bits (OEraseFound k)) s.
Proof.
  intros Hwf. unfold agrees. simpl. destruct (map_ s !! k) as [i|] eqn:Hk.
  - destruct (mapped_inv s k i Hwf Hk) as (l1 & l2 & v & Hl & Hi & Hg & Hrm & Haf & _).
    destruct (find_hit stats_bits s k i l1 l2 v false Hwf Hk Hl Hi) as [Hf Hw].
    erewrite se_bind_ret by exact Hf. simpl in Hg, Hrm, Haf. rewrite Hg, Hrm, Haf.
    erewrite se_bind_ret by (now apply (erase_pos_run _ k i l1 l2 v)).
    pose proof (wf_stats _ (wrapu stats_bits (hits_ s + 1)) (misses_ s)
                  (wf_erase s k i l1 l2 v Hwf Hl)) as Hwe.
    destruct l2 as [|[j e] l2]; [done|]. simpl in Hwe |- *.
    assert (Hj : j ∉ l1.*1).
    { pose proof (wf_ids _ Hwe) as Hn. simpl in Hn. rewrite fmap_app in Hn.
      apply NoDup_app in Hn as (_ & Hd & _). intros Hj. apply (Hd j Hj). constructor. }
    erewrite se_bind_ret by (now apply (deref_mid _ l1 l2 j e)). done.
  - pose proof (abs_spec_get_none s k Hwf Hk) as Hg. simpl in Hg. rewrite Hg.
    erewrite se_bind_ret by (now apply find_miss). split; [by apply wf_stats|done].
Qed.

Lemma set_capacity_agrees s n :
  wf s -> agrees (spec_run stats_bits (OSetCapacity n)) (run stats_bits (OSetCapacity n)) s.
Proof.
  intros Hwf. unfold agrees. simpl. unfold set_capacity. rewrite se_bind_assoc.
  erewrite se_bind_ret by reflexivity. rewrite (wf_size s Hwf).
  destruct (evict_n_run (length (list_ s) - n) s Hwf) as (s1 & He & Hw1 & Hl1 & He1); [lia|].
  rewrite se_bind_assoc. erewrite se_bind_ret by exact He. simpl.
  assert (Hmin : forall A (l : list A) (N : nat), length l = N ->
    take (N - (N - n)) l = take n l /\ drop (N - (N - n)) l = drop n l).
  { intros A l N HN. destruct (le_lt_dec n N).
    - replace (N - (N - n))%nat with n by lia. done.
    - rewrite !take_ge, !drop_ge by lia. done. }
  split.
  - apply wf_capacity; [done|]. rewrite Hl1, length_take. lia.
  - unfold abs. simpl. rewrite Hl1, (proj1 (proj2 He1)), (proj2 (proj2 He1)), fmap_take.
    destruct (Hmin _ (list_ s).*2 (length (list_ s))) as [-> ->]; [by rewrite length_fmap|done].
Qed.

(** Every operation, from a well-formed map. *)
Lemma run_agrees o s : wf s -> agrees (spec_run stats_bits o) (run stats_bits o) s.
Proof.
  intros Hwf. destruct o as [k|k|k|k|k m|k f m|k f m|k v m|k v m|k|k|b| |n].
  - unfold agrees. cbn [run spec_run]. unfold peek. rewrite se_bind_assoc.
    apply (find_agrees s k false _ (Throw no_key)); [done|done|].
    intros s' i v Hd. rewrite se_bind_assoc. by erewrite se_bind_ret by exact Hd.
  - unfold agrees. cbn [run spec_run]. unfold touch. rewrite se_bind_assoc.
    apply (find_agrees s k true _ (Throw no_key)); [done|done|].
    intros s' i v Hd. erewrite se_bind_ret by reflexivity.
    unfold observe. by erewrite se_bind_ret by exact Hd.
  - unfold agrees. cbn [run spec_run]. unfold index. rewrite se_bind_assoc.
    apply (find_agrees s k false _ (Throw no_key)); [done|done|].
    intros s' i v Hd. erewrite se_bind_ret by reflexivity.
    unfold observe. by erewrite se_bind_ret by exact Hd.
  - unfold agrees. cbn [run spec_run]. unfold se_bind. rewrite find_const_find.
    apply (find_agrees s k false (fun i => observe i []) (Ret (REntry None []))); [done|done|].
    intros s' i v Hd. unfold observe. by erewrite se_bind_ret by exact Hd.
  - apply (find_agrees s k m (fun i => observe i []) (Ret (REntry None []))); [done|done|].
    intros s' i v Hd. unfold observe. by erewrite se_bind_ret by exact Hd.
  - apply (create_agrees s k f m (fun r => observe r.1 r.2)); [done|done|].
    intros s' i e es Hd. unfold observe. simpl. by erewrite se_bind_ret by exact Hd.
  - unfold agrees. cbn [run spec_run]. unfold get_or_create. rewrite se_bind_assoc.
    apply (create_agrees s k f m); [done|done|].
    intros s' i e es Hd. erewrite se_bind_ret by reflexivity. simpl.
    by erewrite se_bind_ret by exact Hd.
  - by apply (set_agrees s k v m).
  - unfold agrees. cbn [run spec_run]. unfold set. rewrite se_bind_assoc.
    apply (set_agrees s k v m _ set_code); [done|]. intros s' z es.
    unfold set_code. destruct z as [|p|p]; [done|destruct p; done|destruct p; done].
  - by apply erase_key_agrees.
  - by apply erase_found_agrees.
  - unfold agrees. destruct b; (split; [|done]); simpl;
      (split; simpl; [constructor|constructor| |done|constructor|lia]);
      intros k i; rewrite lookup_empty; (split; [done|]); intros [v Hv%elem_of_nil]; done.
  - split; [by apply wf_stats|done].
  - by apply set_capacity_agrees.
Qed.

(** A sequence of operations, each result kept in order. *)
Fixpoint run_all (os : list op) s : list (outcome (@res K V)) * @lru K V _ _ :=
  match os with
  | [] => ([], s)
  | o :: os' => let '(r, s1) := run stats_bits o s in
                let '(rs, s2) := run_all os' s1 in (r :: rs, s2)
  end.

Fixpoint spec_run_all (os : list op) c : list (outcome (@res K V)) * @cache K V :=
  match os with
  | [] => ([], c)
  | o :: os' => let '(r, c1) := spec_run stats_bits o c in
                let '(rs, c2) := spec_run_all os' c1 in (r :: rs, c2)
  end.

Lemma run_all_agrees os s :
  wf s -> wf (run_all os s).2 /\
  spec_run_all os (abs s) = ((run_all os s).1, abs (run_all os s).2).
Proof.
  revert s. induction os as [|o os IH]; intros s Hwf; [done|]. simpl.
  destruct (run_agrees o s Hwf) as [Hw Hs]. destruct (run stats_bits o s) as [r s1].
  simpl in *. rewrite Hs. destruct (IH s1 Hw) as [Hw2 Hs2].
  destruct (run_all os s1) as [rs s2]. simpl in *. by rewrite Hs2.
Qed.
End Refinement.

(** ** Recency order *)
Section Recency.
Context {K V : Type} `{Countable K} (stats_bits : Z).
Implicit Types (k : K) (v w : V) (es : list (K * V)).

(** The entries of a sequence of writes, last written first, one per key. *)
Definition push_recent es (e : K * V) : list (K * V) := e :: spec_remove e.1 es.
Definition recency (kvs : list (K * V)) : list (K * V) := foldl push_recent [] kvs.

Definition set_op (e : K * V) : @op K V := OSet e.1 e.2 true.

Lemma spec_remove_notin k es : k ∉ (spec_remove k es).*1.
Proof.
  intros ([k' v] & -> & Hin)%list_elem_of_fmap. unfold spec_remove in Hin.
  apply list_elem_of_In, filter_In in Hin as [_ Hin]. by rewrite key_is_refl in Hin.
Qed.

Lemma spec_remove_NoDup k es : NoDup es.*1 -> NoDup (spec_remove k es).*1.
Proof.
  unfold spec_remove. induction es as [|e es IH]; simpl; [done|].
  intros [He Hn]%NoDup_cons. destruct (key_is k e); simpl; [by apply IH|].
  constructor; [|by apply IH]. intros Hin. apply He.
  apply list_elem_of_fmap in Hin as (e' & Heq & Hin). apply list_elem_of_fmap.
  exists e'. split; [done|]. by apply list_elem_of_In, filter_In in Hin as [Hin%list_elem_of_In _].
Qed.

Lemma push_recent_NoDup es e : NoDup es.*1 -> NoDup (push_recent es e).*1.
Proof.
  intros Hn. simpl. constructor; [apply spec_remove_notin|by apply spec_remove_NoDup].
Qed.

Lemma recency_NoDup kvs : NoDup (recency kvs).*1.
Proof.
  unfold recency. assert (Hg : forall acc : list (K * V), NoDup acc.*1 -> NoDup (foldl push_recent acc kvs).*1).
  { induction kvs as [|e kvs IH]; [done|]. intros acc Hacc. simpl. apply IH.
    by apply push_recent_NoDup. }
  apply Hg. constructor.
Qed.

Lemma spec_remove_take_in k n es :
  NoDup es.*1 -> k ∈ (take (S n) es).*1 ->
  spec_remove k (take (S n) es) = take n (spec_remove k es).
Proof.
  unfold spec_remove. revert n. induction es as [|[k' v] es IH]; intros n; simpl; [by intros; destruct n|].
  intros [Hk Hn]%NoDup_cons Hin. destruct (key_is k (k', v)) eqn:E; simpl.
  - apply key_is_true in E. simpl in E. subst k'.
    assert (Ht : k ∉ (take n es).*1) by (rewrite fmap_take; intros ?; apply Hk; by eapply subseteq_take).
    pose proof (proj2 (filter_absent k _ Ht)) as Hx. unfold spec_remove in Hx. rewrite Hx.
    pose proof (proj2 (filter_absent k _ Hk)) as Hy. unfold spec_remove in Hy. by rewrite Hy.
  - apply key_is_false in E. apply elem_of_cons in Hin as [->|Hin]; [done|].
    destruct n as [|n]; [by apply elem_of_nil in Hin|]. simpl. f_equal. by apply IH.
Qed.

Lemma spec_remove_take_out k n es :
  k ∉ (take (S n) es).*1 -> take n (take (S n) es) = take n (spec_remove k es).
Proof.
  unfold spec_remove. revert n. induction es as [|[k' v] es IH]; intros n; [by intros; destruct n|].
  rewrite firstn_cons, fmap_cons. cbn [List.filter]. intros [Hne Hout]%not_elem_of_cons.
  assert (key_is k (k', v) = false) as -> by (apply key_is_false; congruence). simpl.
  destruct n as [|n]; [done|]. cbn [take]. f_equal. by apply IH.
Qed.

(** One write on the first [S n] entries keeps the first [S n] of the new order. *)
Lemma set_take_recent n k v es h m :
  NoDup es.*1 ->
  exists r, spec_run stats_bits (set_op (k, v)) (Cache (S n) (take (S n) es) h m)
    = (r, Cache (S n) (take (S n) (push_recent es (k, v))) h m).
Proof.
  intros Hn. unfold set_op. cbn [spec_run fst snd]. unfold spec_set, spec_add. cbn [items cap].
  unfold push_recent. cbn [take fst].
  destruct (decide (k ∈ (take (S n) es).*1)) as [Hin|Hout].
  - rewrite <- (spec_remove_take_in k n es Hn Hin).
    apply list_elem_of_fmap in Hin as ([k' w] & Hk & Hin). simpl in Hk. subst k'.
    assert (Hnt : NoDup (take (S n) es).*1).
    { rewrite fmap_take. eapply sublist_NoDup; [exact Hn|apply sublist_take]. }
    apply list_elem_of_split in Hin as (e1 & e2 & He). rewrite He in *.
    rewrite fmap_app in Hnt. apply NoDup_app in Hnt as (_ & Hd & Hn2). simpl in Hn2.
    apply NoDup_cons in Hn2 as [Hk2 _].
    assert (Hk1 : k ∉ e1.*1) by (intros Hx; apply (Hd k Hx); constructor).
    rewrite spec_get_mid by done. eexists. unfold with_items, spec_use. simpl.
    rewrite key_is_refl, spec_remove_mid by done.
    rewrite spec_write_absent by (rewrite fmap_app, elem_of_app; tauto). done.
  - unfold spec_get. rewrite (proj1 (filter_absent k _ Hout)). cbn [head]. eexists.
    unfold with_items. simpl. by rewrite <- spec_remove_take_out.
Qed.

Lemma sets_take_recency n kvs :
  (spec_run_all stats_bits (set_op <$> kvs) (Cache (S n) [] 0 0)).2
  = Cache (S n) (take (S n) (recency kvs)) 0 0.
Proof.
  assert (Hg : forall es, NoDup es.*1 ->
    (spec_run_all stats_bits (set_op <$> kvs) (Cache (S n) (take (S n) es) 0 0)).2
    = Cache (S n) (take (S n) (foldl push_recent es kvs)) 0 0).
  { induction kvs as [|[k v] kvs IH]; intros es Hn; [done|].
    rewrite fmap_cons. cbn [spec_run_all foldl].
    destruct (set_take_recent n k v es 0 0 Hn) as [r ->].
    specialize (IH (push_recent es (k, v)) (push_recent_NoDup es (k, v) Hn)).
    by destruct (spec_run_all _ _ _) as [rs c2]. }
  apply (Hg []). constructor.
Qed.
End Recency.

(** ** Properties *)

(** C4: SimpleLRUMap refines a bounded recency list.  Any sequence of public
    operations on a new map returns, operation by operation, the results of the
    abstract list (values, return codes, exceptions, the entries handed to the
    eviction callback in call order), ends in the state of the abstract list
    (entries in recency order, hits, misses, capacity), and keeps the list, the
    index and the stored size consistent. *)
Theorem lru_refines_recency_list {K V} `{Countable K} (stats_bits : Z) (capacity : nat)
    (os : list (@op K V)) :
  let '(rs, s) := run_all stats_bits os (make capacity) in
  wf s /\ spec_run_all stats_bits os (Cache capacity [] 0 0) = (rs, abs s).
Proof.
  destruct (run_all_agrees stats_bits os (make capacity) (wf_make capacity)) as [Hw Hs].
  change (abs (make capacity)) with (Cache capacity ([] : list (K * V)) 0 0) in Hs.
  by destruct (run_all stats_bits os (make capacity)).
Qed.

(** No operation of SimpleLRUMap dereferences a dangling iterator, takes
    [back()] of an empty list, or loops: whatever the history, every operation
    ends with a result or with one of the documented exceptions
    ([out_of_range], [length_error]). *)
Theorem lru_operations_are_defined {K V} `{Countable K} (stats_bits : Z) (capacity : nat)
    (os : list (@op K V)) (o : @op K V) :
  match (run stats_bits o (run_all stats_bits os (make capacity)).2).1 with
  | Ret _ => True
  | Throw e => e = out_of_range "key not found" \/ e = length_error "no capacity"
  end.
Proof.
  destruct (run_all_agrees stats_bits os (make capacity) (wf_make capacity)) as [Hw _].
  destruct (run_agrees stats_bits o _ Hw) as [_ Hs].
  set (s := (run_all _ _ _).2) in *. set (r := (run _ _ s).1) in *.
  replace r with (spec_run stats_bits o (abs s)).1 by (rewrite Hs; done).
  destruct o as [k|k|k|k|k m|k f m|k f m|k v m|k v m|k|k|b| |n]; cbn [spec_run];
    unfold spec_find, spec_create, spec_set, spec_add;
    try (destruct (spec_get k _); [|simpl (cap _); destruct (capacity_ s)]); simpl; auto.
Qed.

(** Eviction is least-recently-used.  After writing any sequence of
    entries with [set(key, value)] into a new map of capacity at least 1, the
    map holds exactly the last [capacity] distinct keys written, most recent
    first, each with its last value. *)
Theorem lru_keeps_most_recent {K V} `{Countable K} (stats_bits : Z) (n : nat)
    (kvs : list (K * V)) :
  (list_ (run_all stats_bits (set_op <$> kvs) (make (S n))).2).*2 = take (S n) (recency kvs).
Proof.
  destruct (run_all_agrees stats_bits (set_op <$> kvs) (make (S n)) (wf_make (S n))) as [_ Hs].
  pose proof (sets_take_recency stats_bits n kvs) as Hr.
  change (abs (make (S n))) with (Cache (S n) ([] : list (K * V)) 0 0) in Hs.
  rewrite Hs in Hr. simpl in Hr. by injection Hr.
Qed.
