(* ===== verification/TLStatsLockTraits.v ===== *)
(** * TLStatsLockTraits: the per-thread value types of [src/fb303/TLStatsLockTraits.h]

    [T] is a signed integer of [w] bits, [Raw] its unsigned type and [Carry] a
    signed 64-bit integer.  This file holds the single-threaded meaning of each
    member function; [TimeSeriesSeqlock] splits [addValue] and [reset] into
    their atomic accesses. *)
From S2P Require Import Prelude.
From Stdlib Require Import ZArith Lia.
From stdpp Require Import base list.

Open Scope Z_scope.
Open Scope fb303_scope.

(** ** Locks used by [TLStatsNoLocking] *)
Module UniqueNoLock.
Definition lock : SE unit unit := se_ret tt.
Definition try_lock : SE unit bool := se_ret true.
Definition unlock : SE unit unit := se_ret tt.
End UniqueNoLock.

Module DebugCheckedLock.
(** [owner_]: the id of the owning thread; [None] is [std::thread::id{}]. *)
Definition owner : Type := option nat.

(** [exchange] stores the caller, then the assertion looks at the old owner. *)
Definition lock (me : nat) : SE owner unit :=
  let* old := se_get in
  se_put (Some me) >>>
  match old with None => se_ret tt | Some _ => se_throw check_failed end.

Definition try_lock (me : nat) : SE owner bool :=
  let* old := se_get in
  match old with None => se_put (Some me) >>> se_ret true | Some _ => se_ret false end.

Definition unlock : SE owner unit := se_put None.
End DebugCheckedLock.

(** ** [TLStatsNoLocking] *)
Module TLStatsNoLocking.
Section NoLocking.
Context (w : Z).

(** [CounterType]: [value_ += n] is a signed addition, undefined on overflow. *)
Definition increment (n : Z) : SE Z unit :=
  let* value := se_get in
  if Z.leb (smin w) (value + n) && Z.leb (value + n) (smax w) then se_put (value + n)
  else se_throw undefined_behaviour.
Definition counter_reset : SE Z Z := let* tmp := se_get in se_put 0 >>> se_ret tmp.
Definition counter_value (value : Z) : Z := value.

(** [folly::constexpr_add_overflow_clamped] is not part of the repository. *)
Context (constexpr_add_overflow_clamped : Z -> Z -> Z).

Record series := Series { count_ : Z; sum_ : Z }.
Definition new_series : series := Series 0 0.

Definition addValue (value count : Z) (t : series) : series :=
  Series (constexpr_add_overflow_clamped (count_ t) count)
         (constexpr_add_overflow_clamped (sum_ t) value).

Definition reset (t : series) : (Z * Z) * series := ((count_ t, sum_ t), Series 0 0).
End NoLocking.
End TLStatsNoLocking.

(** ** [TLStatsThreadSafe] *)
Module TLStatsThreadSafe.
Section ThreadSafe.
Context (w : Z).

(** [CounterType]: [fetch_add] wraps. *)
Definition increment (n value : Z) : Z := wraps w (value + n).
Definition counter_reset (value : Z) : Z * Z := (value, 0).
Definition counter_value (value : Z) : Z := value.

(** *** [TimeSeriesType] *)
Definition kInFlight : Z := 1.

Record Snapshot := Snap { lo : Z; hi : Z }.
Definition Snapshot_eqb (a b : Snapshot) : bool := Z.eqb (lo a) (lo b) && Z.eqb (hi a) (hi b).

Record Surplus := MkSurplus { s_lo : Z; s_hi : Z; s_baseLo : Z; s_baseHi : Z }.
Definition new_surplus : Surplus := MkSurplus 0 0 0 0.

Record series := Series {
  sumLo_ : Z; seq_ : Z; sumHi_ : Z;
  lastSeq_ : Z; baseSumLo_ : Z; baseSumHi_ : Z;
  surplus_ : option Surplus
}.
Definition new_series : series := Series 0 0 0 0 0 0 None.

(** [addRaw]: the two words after the addition. *)
Definition addRaw (s : Snapshot) (addend : Z) (negative : bool) : Snapshot :=
  let before := lo s in
  let after := wrapu w (before + addend) in
  if (if negative then before <? after else after <? before) then
    let curr := wrapu 64 (hi s) in
    let step := if negative then 2 ^ 64 - 1 else 1 in
    Snap after (wraps 64 (wrapu 64 (curr + step)))
  else Snap after (hi s).

Definition add (s : Snapshot) (addend : Z) : Snapshot :=
  addRaw s (wrapu w addend) (addend <? 0).

Definition difference (now base : Snapshot) : Snapshot :=
  let borrow := if lo now <? lo base then 1 else 0 in
  Snap (wrapu w (lo now - lo base))
       (wraps 64 (wrapu 64 (wrapu 64 (hi now) - wrapu 64 (hi base) - borrow))).

Definition addCalls (delta : Snapshot) (calls : Z) : Snapshot :=
  let '(lo', carry) :=
    if w <? 64 then
      let sum := wrapu 64 (lo delta + calls) in
      (wrapu w sum, Z.shiftr sum w)
    else
      let lo' := wrapu w (lo delta + calls) in
      (lo', if lo' <? lo delta then 1 else 0) in
  Snap lo' (wraps 64 (wrapu 64 (wrapu 64 (hi delta) + carry))).

Definition clamp (delta : Snapshot) : Z :=
  let kMaxAsRaw := smax w in
  if 0 <? hi delta then smax w
  else if hi delta =? 0 then
    if kMaxAsRaw <? lo delta then smax w else wraps w (lo delta)
  else if hi delta =? -1 then
    if kMaxAsRaw <? lo delta then wraps w (lo delta) else smin w
  else smin w.

Definition sum_snap (t : series) : Snapshot := Snap (sumLo_ t) (sumHi_ t).
Definition baseSum_snap (t : series) : Snapshot := Snap (baseSumLo_ t) (baseSumHi_ t).
(** A null block reads as [Snapshot{}] on both sides. *)
Definition surplus_snap (t : series) : Snapshot :=
  match surplus_ t with None => Snap 0 0 | Some b => Snap (s_lo b) (s_hi b) end.
Definition baseSurplus_snap (t : series) : Snapshot :=
  match surplus_ t with None => Snap 0 0 | Some b => Snap (s_baseLo b) (s_baseHi b) end.

(** [makeSurplus]: [alloc] says whether the [nothrow] allocation succeeds. *)
Definition makeSurplus (alloc : bool) (t : series) : option Surplus :=
  if alloc then Some new_surplus else None.

Definition block_for (alloc : bool) (count : Z) (t : series) : option Surplus :=
  if count =? 1 then None
  else match surplus_ t with Some b => Some b | None => makeSurplus alloc t end.

(** [addValue]: [seq_] goes up by two, through an odd value. *)
Definition addValue (alloc : bool) (value count : Z) (t : series) : series :=
  let seq := seq_ t in
  let surplus' :=
    match block_for alloc count t with
    | None => surplus_ t
    | Some b =>
        let s := addRaw (Snap (s_lo b) (s_hi b)) (wrapu w (wrapu w count - 1)) (count <? 1) in
        Some (MkSurplus (lo s) (hi s) (s_baseLo b) (s_baseHi b))
    end in
  let sum := add (sum_snap t) value in
  Series (lo sum) (wrapu 64 (seq + 2)) (hi sum)
         (lastSeq_ t) (baseSumLo_ t) (baseSumHi_ t) surplus'.

(** [lastSeq_ & ~kInFlight] *)
Definition unclaimed (last : Z) : Z := Z.land last (Z.lnot kInFlight).

(** [count]: the window so far. *)
Definition count (t : series) : Z :=
  let calls := Z.div (wrapu 64 (seq_ t - unclaimed (lastSeq_ t))) 2 in
  clamp (addCalls (difference (surplus_snap t) (baseSurplus_snap t)) calls).

Definition sum (t : series) : Z := clamp (difference (sum_snap t) (baseSum_snap t)).

(** The writes of [drain]: new baselines and [lastSeq_]. *)
Definition rebase (t : series) : series :=
  Series (sumLo_ t) (seq_ t) (sumHi_ t) (seq_ t) (sumLo_ t) (sumHi_ t)
    (match surplus_ t with
     | None => None
     | Some b => Some (MkSurplus (s_lo b) (s_hi b) (s_lo b) (s_hi b))
     end).

Definition drain (t : series) : (Z * Z) * series :=
  let calls := Z.div (wrapu 64 (seq_ t - lastSeq_ t)) 2 in
  ((clamp (addCalls (difference (surplus_snap t) (baseSurplus_snap t)) calls),
    clamp (difference (sum_snap t) (baseSum_snap t))), rebase t).

(** [reset]: (count, sum) of the window; nothing to drain when no call was made. *)
Definition reset (t : series) : (Z * Z) * series :=
  if seq_ t =? unclaimed (lastSeq_ t) then ((0, 0), t) else drain t.

End ThreadSafe.
End TLStatsThreadSafe.
