(* ===== verification/TimeSeriesExact.v ===== *)
(** * TimeSeriesExact: [TimeSeriesType] between two resets is exact

    The two words [(hi, lo)] of [TLStatsThreadSafe::TimeSeriesType] encode an
    unbounded integer modulo [2^(w + 64)].  The lemmas follow that encoding
    through [addRaw], [difference], [addCalls] and [clamp]; the theorems state
    what [count], [sum] and [reset] report of a window of [addValue] calls. *)
From S2P Require Import Prelude TLStatsLockTraits.
From Stdlib Require Import ZArith Lia.
From stdpp Require Import base list.
Import TLStatsThreadSafe.

Open Scope Z_scope.
Open Scope fb303_scope.

(** ** The encoding *)
Section Encoding.
Context (w : Z) (Hw : 2 <= w <= 64).
Local Abbreviation W := (2 ^ w).

(** The words that stand for [x]. *)
Definition enc (x : Z) : Snapshot := Snap (x mod W) (wraps 64 (x / W)).

Lemma W_pos : 4 <= W.
Proof. change 4 with (2 ^ 2). apply Z.pow_le_mono_r; lia. Qed.

Lemma enc_zero : enc 0 = Snap 0 0.
Proof. unfold enc. rewrite Z.mod_0_l, Z.div_0_l by (pose proof W_pos; lia). reflexivity. Qed.

(** An encoding is determined by its low word and a carry, up to [2^64]. *)
Lemma enc_intro x r q h :
  x = W * q + r -> 0 <= r < W -> wraps 64 h = wraps 64 q -> Snap r (wraps 64 h) = enc x.
Proof.
  intros Hx Hr Hh. unfold enc. f_equal.
  - apply (Z.mod_unique x W q r); lia.
  - rewrite Hh. f_equal. apply (Z.div_unique x W q r); lia.
Qed.

Lemma addRaw_enc x a :
  - W < a < W -> addRaw w (enc x) (wrapu w a) (a <? 0) = enc (x + a).
Proof.
  intros Ha. pose proof W_pos as HW. unfold addRaw. cbn [lo hi enc].
  set (r := x mod W). set (q := x / W).
  assert (Hx : x = W * q + r) by (apply Z.div_mod; lia).
  assert (Hr : 0 <= r < W) by (apply Z.mod_pos_bound; lia).
  assert (Hafter : exists c, r + a = W * c + wrapu w (r + wrapu w a)
                             /\ 0 <= wrapu w (r + wrapu w a) < W).
  { pose proof (wrapu_range w (r + wrapu w a) ltac:(lia)) as Hrange.
    destruct (wrapu_eqm w (r + wrapu w a) ltac:(lia)) as [k1 E1].
    destruct (wrapu_eqm w a ltac:(lia)) as [k2 E2].
    exists (- (k1 + k2)). split; [nia|exact Hrange]. }
  destruct Hafter as [c [Hc Hrange]]. set (after := wrapu w (r + wrapu w a)) in *.
  assert (Hk : exists h, (if (if a <? 0 then r <? after else after <? r)
      then Snap after (wraps 64 (wrapu 64 (wrapu 64 (wraps 64 q) + (if a <? 0 then 2 ^ 64 - 1 else 1))))
      else Snap after (wraps 64 q)) = Snap after (wraps 64 h) /\ wraps 64 h = wraps 64 (q + c)).
  { destruct (Z.ltb_spec a 0) as [Hneg|Hpos].
    - destruct (Z.ltb_spec r after) as [Hlt|Hge]; eexists; (split; [reflexivity|]).
      + assert (c = -1) by nia. subst c.
        autorewrite with width; f_equal; lia.
      + assert (c = 0) by nia. subst c. f_equal. lia.
    - destruct (Z.ltb_spec after r) as [Hlt|Hge]; eexists; (split; [reflexivity|]).
      + assert (c = 1) by nia. subst c.
        autorewrite with width; f_equal; lia.
      + assert (c = 0) by nia. subst c. f_equal. lia. }
  destruct Hk as [h [-> Hh]]. apply (enc_intro _ _ (q + c)); [lia|exact Hrange|exact Hh].
Qed.

Lemma add_enc x a : in_s w a -> add w (enc x) a = enc (x + a).
Proof.
  intros [H1 H2]. unfold add. apply addRaw_enc. unfold smin, smax in *.
  pose proof (pow2_double w ltac:(lia)). pose proof (pow2_pos (w - 1)). lia.
Qed.

(** The surplus of a call: the low word receives [count - 1], reduced first. *)
Lemma addRaw_surplus x c :
  in_s w c -> addRaw w (enc x) (wrapu w (wrapu w c - 1)) (c <? 1) = enc (x + (c - 1)).
Proof.
  intros [H1 H2]. autorewrite with width.
  replace (c <? 1) with (c - 1 <? 0) by (destruct (Z.ltb_spec (c - 1) 0), (Z.ltb_spec c 1); lia).
  apply addRaw_enc. unfold smin, smax in *.
  pose proof (pow2_double w ltac:(lia)). pose proof W_pos. lia.
Qed.

Lemma difference_enc x y : difference w (enc x) (enc y) = enc (x - y).
Proof.
  pose proof W_pos as HW. unfold difference. cbn [lo hi enc].
  set (rx := x mod W). set (qx := x / W). set (ry := y mod W). set (qy := y / W).
  assert (Hx : x = W * qx + rx) by (apply Z.div_mod; lia).
  assert (Hy : y = W * qy + ry) by (apply Z.div_mod; lia).
  assert (Hrx : 0 <= rx < W) by (apply Z.mod_pos_bound; lia).
  assert (Hry : 0 <= ry < W) by (apply Z.mod_pos_bound; lia).
  destruct (wrapu_eqm w (rx - ry) ltac:(lia)) as [k Ek].
  pose proof (wrapu_range w (rx - ry) ltac:(lia)) as Hrange. unfold in_u in Hrange.
  apply (enc_intro _ _ (qx - qy - k)); [nia|exact Hrange|].
  autorewrite with width. f_equal. destruct (Z.ltb_spec rx ry); nia.
Qed.

Lemma addCalls_enc x n : 0 <= n < 2 ^ 63 -> addCalls w (enc x) n = enc (x + n).
Proof.
  intros Hn. pose proof W_pos as HW. unfold addCalls. cbn [lo hi enc].
  set (r := x mod W). set (q := x / W).
  assert (Hx : x = W * q + r) by (apply Z.div_mod; lia).
  assert (Hr : 0 <= r < W) by (apply Z.mod_pos_bound; lia).
  destruct (Z.ltb_spec w 64) as [Hlt|Hge].
  - assert (W <= 2 ^ 63) by (apply Z.pow_le_mono_r; lia).
    rewrite (wrapu_small 64 (r + n)) by (unfold in_u; lia).
    rewrite Z.shiftr_div_pow2 by lia.
    apply (enc_intro _ _ (q + (r + n) / W)).
    + unfold wrapu. pose proof (Z.div_mod (r + n) W). lia.
    + apply wrapu_range; lia.
    + by autorewrite with width.
  - assert (2 ^ 63 <= W) by (apply Z.pow_le_mono_r; lia).
    destruct (wrapu_eqm w (r + n) ltac:(lia)) as [k Ek].
    pose proof (wrapu_range w (r + n) ltac:(lia)) as Hrange. unfold in_u in Hrange.
    apply (enc_intro _ _ (q - k)); [lia|exact Hrange|].
    autorewrite with width. f_equal. destruct (Z.ltb_spec (wrapu w (r + n)) r); nia.
Qed.

(** [clamp] reads an encoding of an integer of [w + 64] bits. *)
Lemma clamp_enc x : in_s (w + 64) x -> clamp w (enc x) = clamps w x.
Proof.
  intros Hx. pose proof W_pos as HW. unfold clamp. cbn [lo hi enc].
  assert (Hdiv : x = W * (x / W) + x mod W) by (apply Z.div_mod; lia).
  assert (Hr : 0 <= x mod W < W) by (apply Z.mod_pos_bound; lia).
  unfold in_s, smin, smax in Hx.
  replace (2 ^ (w + 64 - 1)) with (2 ^ 63 * W) in Hx by (rewrite <- Z.pow_add_r by lia; f_equal; lia).
  set (q := x / W) in *. set (r := x mod W) in *.
  rewrite (wraps_small 64 q) by (try lia; unfold in_s, smin, smax; simpl (64 - 1); nia).
  pose proof (pow2_double w ltac:(lia)) as H2.
  unfold clamps, smin, smax in *. repeat case_if; try nia.
  - unfold wraps. rewrite Z.mod_small; nia.
  - replace r with (x + 1 * W) by nia. rewrite (wraps_cong _ _ x 1), wraps_small; unfold in_s, smin, smax; nia.
Qed.
End Encoding.

(** ** Exact totals behind the words *)
Record totals := Totals { t_calls : Z; t_surplus : Z; t_sum : Z }.

Record call := Call { c_alloc : bool; c_value : Z; c_count : Z }.
Definition valid_call (w : Z) (c : call) : Prop := in_s w (c_value c) /\ in_s w (c_count c).

(** What a call contributes: its count, unless it needed a surplus block and
    the allocation failed, in which case it counts as one. *)
Definition effective_count (has : bool) (c : call) : Z :=
  if has || c_alloc c then c_count c else 1.
Definition has_block (has : bool) (c : call) : bool :=
  has || (negb (c_count c =? 1) && c_alloc c).

Definition add_call (has : bool) (c : call) (t : totals) : totals :=
  Totals (t_calls t + 1) (t_surplus t + (effective_count has c - 1)) (t_sum t + c_value c).

Fixpoint add_calls (has : bool) (cs : list call) (t : totals) : totals * bool :=
  match cs with
  | [] => (t, has)
  | c :: cs' => add_calls (has_block has c) cs' (add_call has c t)
  end.

(** The count and sum of a window. *)
Fixpoint window_count (has : bool) (cs : list call) : Z :=
  match cs with
  | [] => 0
  | c :: cs' => effective_count has c + window_count (has_block has c) cs'
  end.
Definition window_sum (cs : list call) : Z := foldr (fun c s => c_value c + s) 0 cs.
Definition blocks_after (has : bool) (cs : list call) : bool := foldl has_block has cs.

Definition add_one (w : Z) (t : series) (c : call) : series :=
  addValue w (c_alloc c) (c_value c) (c_count c) t.

Definition is_some {A} (o : option A) : bool := match o with Some _ => true | None => false end.

Record represents (w : Z) (now base : totals) (t : series) : Prop := {
  rep_sum : sum_snap t = enc w (t_sum now);
  rep_baseSum : baseSum_snap t = enc w (t_sum base);
  rep_surplus : surplus_snap t = enc w (t_surplus now);
  rep_baseSurplus : baseSurplus_snap t = enc w (t_surplus base);
  rep_seq : seq_ t = wrapu 64 (2 * t_calls now);
  rep_lastSeq : lastSeq_ t = wrapu 64 (2 * t_calls base);
  rep_none : surplus_ t = None -> t_surplus now = 0 /\ t_surplus base = 0
}.

Section Windows.
Context (w : Z) (Hw : 2 <= w <= 64).
Local Abbreviation W := (2 ^ w).

Lemma wrapu_even n : wrapu 64 (2 * n) = 2 * wrapu 63 n.
Proof. unfold wrapu. change (2 ^ 64) with (2 * 2 ^ 63). rewrite Z.mul_mod_distr_l by lia. done. Qed.

Lemma unclaimed_even n : unclaimed (wrapu 64 (2 * n)) = wrapu 64 (2 * n).
Proof.
  unfold unclaimed, kInFlight. rewrite <- Z.ldiff_land.
  change 1 with (Z.ones 1). rewrite Z.ldiff_ones_r, Z.shiftl_mul_pow2, Z.shiftr_div_pow2 by lia.
  rewrite wrapu_even. change (2 ^ 1) with 2. rewrite (Z.mul_comm 2), Z.div_mul by lia. lia.
Qed.

Lemma represents_new : represents w (Totals 0 0 0) (Totals 0 0 0) new_series.
Proof. split; try (symmetry; by apply enc_zero); done. Qed.

Lemma represents_add now base t c :
  valid_call w c -> represents w now base t ->
  represents w (add_call (is_some (surplus_ t)) c now) base (add_one w t c) /\
  is_some (surplus_ (add_one w t c)) = has_block (is_some (surplus_ t)) c.
Proof.
  intros [Hv Hc] [H1 H2 H3 H4 H5 H6 H7]. destruct c as [al v c]. cbn [c_value c_count c_alloc] in *.
  unfold add_one, addValue, add_call, effective_count, has_block, block_for, makeSurplus.
  cbn [c_value c_count c_alloc].
  assert (Hsum : add w (sum_snap t) v = enc w (t_sum now + v)) by (rewrite H1; by apply add_enc).
  destruct t as [slo sq shi last bl bh sp]. cbn [surplus_ seq_ lastSeq_] in *.
  unfold sum_snap, baseSum_snap, surplus_snap, baseSurplus_snap in *.
  cbn [surplus_ seq_ lastSeq_ sumLo_ sumHi_ baseSumLo_ baseSumHi_] in *.
  assert (Hseq : wrapu 64 (sq + 2) = wrapu 64 (2 * (t_calls now + 1))).
  { subst sq. rewrite wrapu_wrapu_l by lia. f_equal. lia. }
  destruct (Z.eqb_spec c 1) as [->|Hne].
  { split.
    - split; cbn [surplus_snap baseSurplus_snap surplus_ sum_snap sumLo_ sumHi_ baseSum_snap
        baseSumLo_ baseSumHi_ seq_ lastSeq_ t_calls t_surplus t_sum];
        try done; try (by rewrite Hsum).
      all: replace (t_surplus now + _) with (t_surplus now) by (case_if; lia); done.
    - destruct sp, al; done. }
  destruct sp as [b|].
  - cbn [is_some orb]. split; [|done].
    assert (Hs : addRaw w (Snap (s_lo b) (s_hi b)) (wrapu w (wrapu w c - 1)) (c <? 1)
                 = enc w (t_surplus now + (c - 1))) by (rewrite H3; by apply addRaw_surplus).
    split; cbn; try done; by rewrite ?Hsum, ?Hs.
  - destruct (H7 eq_refl) as [E1 E2]. destruct al; cbn [is_some orb negb andb]; (split; [|done]).
    + assert (Hs : addRaw w (Snap 0 0) (wrapu w (wrapu w c - 1)) (c <? 1)
                   = enc w (t_surplus now + (c - 1))).
      { rewrite H3. by apply addRaw_surplus. }
      split; cbn; try done; by rewrite ?Hsum, ?Hs.
    + replace (t_surplus now + (1 - 1)) with (t_surplus now) by lia.
      split; cbn; try done; by rewrite ?Hsum.
Qed.

(** What a window reads and what a drain leaves behind. *)
Lemma represents_observe now base t :
  represents w now base t ->
  0 <= t_calls now - t_calls base < 2 ^ 63 ->
  in_s (w + 64) (t_surplus now - t_surplus base + (t_calls now - t_calls base)) ->
  in_s (w + 64) (t_sum now - t_sum base) ->
  let c := clamps w (t_surplus now - t_surplus base + (t_calls now - t_calls base)) in
  let s := clamps w (t_sum now - t_sum base) in
  count w t = c /\ sum w t = s /\
  drain w t = ((c, s), rebase t) /\
  represents w now now (rebase t).
Proof.
  intros [H1 H2 H3 H4 H5 H6 H7] Hn Hc Hs c s.
  assert (Hcalls : Z.div (wrapu 64 (seq_ t - lastSeq_ t)) 2 = t_calls now - t_calls base).
  { rewrite H5, H6. rewrite wrapu_sub_wrapu_l, wrapu_sub_wrapu_r by lia.
    rewrite wrapu_small by (unfold in_u; lia).
    replace (_ - _) with ((t_calls now - t_calls base) * 2) by lia. apply Z.div_mul; lia. }
  unfold count, sum, drain. rewrite H6, unclaimed_even, <- H6, Hcalls.
  rewrite H1, H2, H3, H4, !difference_enc, addCalls_enc, !clamp_enc by done.
  repeat (split; [done|]).
  split; unfold rebase; try done.
  - destruct t as [? ? ? ? ? ? [b|]]; done.
  - destruct t as [? ? ? ? ? ? [b|]]; done.
  - cbn. intros Hnone. destruct (surplus_ t) eqn:E; [done|]. destruct (H7 eq_refl). done.
Qed.

(** Totals after a window, in terms of the window alone. *)
Lemma add_calls_totals has cs t :
  add_calls has cs t =
  (Totals (t_calls t + Z.of_nat (length cs))
          (t_surplus t + (window_count has cs - Z.of_nat (length cs)))
          (t_sum t + window_sum cs), blocks_after has cs).
Proof.
  revert has t. induction cs as [|c cs IH]; intros has t; simpl.
  - destruct t; simpl. f_equal. f_equal; lia.
  - rewrite IH. unfold add_call; simpl. f_equal. f_equal; lia.
Qed.

Lemma represents_adds cs now base t :
  Forall (valid_call w) cs -> represents w now base t ->
  represents w (add_calls (is_some (surplus_ t)) cs now).1 base (foldl (add_one w) t cs) /\
  is_some (surplus_ (foldl (add_one w) t cs)) = blocks_after (is_some (surplus_ t)) cs.
Proof.
  intros Hcs. revert now t. induction Hcs as [|c cs Hc _ IH]; intros now t Hrep; [done|].
  destruct (represents_add now base t c Hc Hrep) as [Hrep' Hhas].
  simpl. unfold blocks_after. simpl. rewrite <- Hhas. by apply IH.
Qed.

Lemma effective_in_s has c : valid_call w c -> in_s w (effective_count has c).
Proof.
  intros [_ Hc]. unfold effective_count. case_if; [done|].
  unfold in_s, smin, smax. assert (2 <= 2 ^ (w - 1)); [|lia].
  change 2 with (2 ^ 1) at 1. apply Z.pow_le_mono_r; lia.
Qed.

(** Fewer than [2^63] calls keep the totals of a window within [w + 64] bits. *)
Lemma window_bounds has cs :
  Forall (valid_call w) cs -> Z.of_nat (length cs) < 2 ^ 63 ->
  in_s (w + 64) (window_count has cs) /\ in_s (w + 64) (window_sum cs).
Proof.
  intros Hcs Hlen.
  assert (Hb : Z.abs (window_count has cs) <= Z.of_nat (length cs) * 2 ^ (w - 1) /\
               Z.abs (window_sum cs) <= Z.of_nat (length cs) * 2 ^ (w - 1)).
  { clear Hlen. revert has. induction Hcs as [|c cs Hc _ IH]; intros has; simpl; [lia|].
    destruct (IH (has_block has c)) as [I1 I2].
    pose proof (effective_in_s has c Hc) as [E1 E2]. destruct Hc as [[V1 V2] _].
    unfold smin, smax in *. lia. }
  assert (2 ^ (w + 64 - 1) = 2 * 2 ^ 63 * 2 ^ (w - 1)) as E.
  { change (2 * 2 ^ 63) with (2 ^ 64). rewrite <- Z.pow_add_r by lia. f_equal; lia. }
  pose proof (pow2_pos (w - 1) ltac:(lia)).
  unfold in_s, smin, smax. rewrite E. nia.
Qed.

Lemma window_reset cs base t :
  Forall (valid_call w) cs -> Z.of_nat (length cs) < 2 ^ 63 -> represents w base base t ->
  let has := is_some (surplus_ t) in
  let t' := foldl (add_one w) t cs in
  let report := (clamps w (window_count has cs), clamps w (window_sum cs)) in
  (count w t', sum w t') = report /\ (reset w t').1 = report /\
  (exists now, represents w now now (reset w t').2) /\
  is_some (surplus_ (reset w t').2) = blocks_after has cs.
Proof.
  intros Hcs Hlen Hrep has t' report.
  destruct (represents_adds cs base base t Hcs Hrep) as [Hrep' Hhas].
  rewrite add_calls_totals in Hrep'. fold has t' in Hrep', Hhas. cbn [fst] in Hrep'.
  destruct (window_bounds has cs Hcs Hlen) as [Bc Bs].
  set (now := Totals _ _ _) in Hrep'.
  assert (Ec : t_calls now - t_calls base = Z.of_nat (length cs)) by (simpl; lia).
  assert (Eu : t_surplus now - t_surplus base + (t_calls now - t_calls base) = window_count has cs)
    by (simpl; lia).
  assert (Es : t_sum now - t_sum base = window_sum cs) by (simpl; lia).
  destruct (represents_observe now base t' Hrep') as (Hcount & Hsum & Hdrain & Hrebase);
    rewrite ?Ec, ?Eu, ?Es in *; [lia|done|done|].
  split; [by rewrite Hcount, Hsum|]. unfold reset. rewrite (rep_lastSeq w _ _ _ Hrep'), unclaimed_even.
  destruct (Z.eqb_spec (seq_ t') (wrapu 64 (2 * t_calls base))) as [Heq|Hne].
  - assert (cs = []) as ->.
    { rewrite (rep_seq w _ _ _ Hrep'), !wrapu_even in Heq. apply length_zero_iff_nil.
      assert (E : wrapu 63 (t_calls now - t_calls base) = 0).
      { rewrite <- wrapu_sub_wrapu_l by lia. replace (wrapu 63 (t_calls now)) with (wrapu 63 (t_calls base)) by lia.
        rewrite wrapu_sub_wrapu_l by lia. by rewrite Z.sub_diag. }
      rewrite Ec, wrapu_small in E by (unfold in_u; lia). lia. }
    simpl. split; [|split; [by exists base|done]].
    unfold report. simpl. rewrite clamps_small; [done|]. unfold in_s, smin, smax.
    pose proof (pow2_pos (w - 1)). lia.
  - rewrite Hdrain. simpl. split; [done|]. split; [by exists now|]. rewrite <- Hhas.
    by destruct (surplus_ t').
Qed.
End Windows.

(** ** Successive windows

    [run_windows] drives a series through windows of calls, each closed by a
    [reset]; it reports what [count] and [sum] say just before the [reset] and
    what the [reset] returns. *)
Fixpoint run_windows (w : Z) (t : series) (ws : list (list call)) : list ((Z * Z) * (Z * Z)) :=
  match ws with
  | [] => []
  | cs :: ws' =>
      let t' := foldl (add_one w) t cs in
      ((count w t', sum w t'), (reset w t').1) :: run_windows w (reset w t').2 ws'
  end.

Fixpoint exact_windows (w : Z) (has : bool) (ws : list (list call)) : list ((Z * Z) * (Z * Z)) :=
  match ws with
  | [] => []
  | cs :: ws' =>
      let report := (clamps w (window_count has cs), clamps w (window_sum cs)) in
      (report, report) :: exact_windows w (blocks_after has cs) ws'
  end.

Lemma run_windows_exact w ws base t :
  2 <= w <= 64 -> represents w base base t ->
  Forall (fun cs => Forall (valid_call w) cs /\ Z.of_nat (length cs) < 2 ^ 63) ws ->
  run_windows w t ws = exact_windows w (is_some (surplus_ t)) ws.
Proof.
  intros Hw Hrep Hws. revert base t Hrep.
  induction Hws as [|cs ws [Hcs Hlen] _ IH]; intros base t Hrep; simpl; [done|].
  destruct (window_reset w Hw cs base t Hcs Hlen Hrep) as (Hobs & Hres & [now Hrep'] & Hhas).
  rewrite (IH now _ Hrep'), Hhas, Hres. by f_equal; f_equal.
Qed.

(** ** Comparison with [TLStatsNoLocking] *)
Definition nl_add (cadd : Z -> Z -> Z) (t : TLStatsNoLocking.series) (c : call)
  : TLStatsNoLocking.series := TLStatsNoLocking.addValue cadd (c_value c) (c_count c) t.

Definition clamping_add (w : Z) (a b : Z) : Z := clamps w (a + b).

(** [total_in_range w total f cs]: every running total of [f] stays in range. *)
Fixpoint running_in_range (w total : Z) (vs : list Z) : Prop :=
  match vs with
  | [] => True
  | v :: vs' => in_s w (total + v) /\ running_in_range w (total + v) vs'
  end.

Lemma nl_window w cadd cs t :
  (forall a b, in_s w a -> in_s w b -> cadd a b = clamps w (a + b)) ->
  Forall (valid_call w) cs ->
  in_s w (TLStatsNoLocking.count_ t) -> in_s w (TLStatsNoLocking.sum_ t) ->
  running_in_range w (TLStatsNoLocking.count_ t) (c_count <$> cs) ->
  running_in_range w (TLStatsNoLocking.sum_ t) (c_value <$> cs) ->
  foldl (nl_add cadd) t cs =
  TLStatsNoLocking.Series (TLStatsNoLocking.count_ t + foldr Z.add 0 (c_count <$> cs))
                          (TLStatsNoLocking.sum_ t + foldr Z.add 0 (c_value <$> cs)).
Proof.
  intros Hadd Hcs. revert t. induction Hcs as [|c cs [Hv Hc] _ IH]; intros t Ht1 Ht2 R1 R2.
  - destruct t as [a b]; simpl. f_equal; lia.
  - destruct R1 as [R1 R1'], R2 as [R2 R2'].
    unfold nl_add, TLStatsNoLocking.addValue in *. cbn [foldl]. rewrite IH; cbn.
    all: rewrite ?Hadd, ?clamps_small; try done. f_equal; lia.
Qed.

Lemma running_total w total vs :
  in_s w total -> running_in_range w total vs -> in_s w (total + foldr Z.add 0 vs).
Proof.
  revert total. induction vs as [|v vs IH]; intros total Ht R; simpl in *.
  - by rewrite Z.add_0_r.
  - destruct R as [R R']. replace (total + _) with (total + v + foldr Z.add 0 vs) by lia. by apply IH.
Qed.

Lemma window_count_all_alloc has cs :
  Forall (fun c => c_alloc c = true) cs -> window_count has cs = foldr Z.add 0 (c_count <$> cs).
Proof.
  intros H. revert has. induction H as [|c cs Hc _ IH]; intros has; simpl; [done|].
  rewrite IH. unfold effective_count. by rewrite Hc, orb_true_r.
Qed.

Lemma window_sum_foldr cs : window_sum cs = foldr Z.add 0 (c_value <$> cs).
Proof. induction cs as [|c cs IH]; [done|]. rewrite fmap_cons. unfold window_sum in *. simpl. by f_equal. Qed.

(** ** Properties *)

(** C26: a thread-safe time series reports exact totals, clamped once.  For any
    sequence of windows of [addValue] calls (fewer than [2^63] in each), what
    [count]/[sum] say at the end of a window and what [reset] returns are the
    total count and the total value of that window, clamped to [T] only at the
    end: no wrap-around of the words, of the sequence number or of the carry
    shows, nothing leaks from one window into another, and a call whose surplus
    block cannot be allocated counts as one. *)
Theorem timeseries_windows_exact (w : Z) (ws : list (list call)) :
  2 <= w <= 64 ->
  Forall (fun cs => Forall (valid_call w) cs /\ Z.of_nat (length cs) < 2 ^ 63) ws ->
  run_windows w new_series ws = exact_windows w false ws.
Proof.
  intros Hw Hws. exact (run_windows_exact w ws (Totals 0 0 0) new_series Hw (represents_new w Hw) Hws).
Qed.

(** Eight-bit windows: a sum that overflows and comes back, a negative count, a
    failed allocation, an empty window. *)
Definition example_windows : list (list call) :=
  [[Call true 127 1; Call true 127 1; Call true (-100) 5];
   [Call true (-128) (-128); Call false (-128) 3];
   [];
   [Call true 100 1; Call true 100 1]].

Lemma timeseries_windows_exact_witness :
  run_windows 8 new_series example_windows =
  [((7, 127), (7, 127)); ((-125, -128), (-125, -128)); ((0, 0), (0, 0)); ((2, 127), (2, 127))].
Proof.
  rewrite (timeseries_windows_exact 8 example_windows).
  - vm_compute. reflexivity.
  - lia.
  - unfold example_windows, valid_call, in_s, smin, smax.
    repeat constructor; vm_compute; congruence.
Defined.

(** The two lock policies agree while nothing overflows.  If every running
    count and running sum of a window fits [T] and no allocation fails, the
    [reset] of [TLStatsNoLocking] (with folly's clamped addition) and the
    [reset] of [TLStatsThreadSafe] return the same pair. *)
Theorem lock_policies_agree (w : Z) (cadd : Z -> Z -> Z) (cs : list call) :
  2 <= w <= 64 ->
  (forall a b, in_s w a -> in_s w b -> cadd a b = clamps w (a + b)) ->
  Forall (valid_call w) cs -> Z.of_nat (length cs) < 2 ^ 63 ->
  Forall (fun c => c_alloc c = true) cs ->
  running_in_range w 0 (c_count <$> cs) -> running_in_range w 0 (c_value <$> cs) ->
  (TLStatsNoLocking.reset (foldl (nl_add cadd) TLStatsNoLocking.new_series cs)).1 =
  (reset w (foldl (add_one w) new_series cs)).1.
Proof.
  intros Hw Hadd Hcs Hlen Hal Hc Hs.
  assert (H0 : in_s w 0).
  { unfold in_s, smin, smax. pose proof (pow2_pos (w - 1)). lia. }
  destruct (window_reset w Hw cs _ _ Hcs Hlen (represents_new w Hw)) as (_ & -> & _).
  rewrite (nl_window w cadd cs TLStatsNoLocking.new_series); [|done..].
  rewrite window_count_all_alloc, window_sum_foldr by done.
  rewrite !clamps_small; [done|by apply (running_total w 0)..].
Qed.

Lemma lock_policies_agree_witness :
  (TLStatsNoLocking.reset (foldl (nl_add (clamping_add 32)) TLStatsNoLocking.new_series
     [Call true 7 2; Call true (-9) 4])).1 = (6, -2) /\
  (reset 32 (foldl (add_one 32) new_series [Call true 7 2; Call true (-9) 4])).1 = (6, -2).
Proof.
  split; [vm_compute; reflexivity|].
  rewrite <- (lock_policies_agree 32 (clamping_add 32) [Call true 7 2; Call true (-9) 4]).
  - vm_compute; reflexivity.
  - lia.
  - intros; reflexivity.
  - unfold valid_call, in_s, smin, smax. repeat constructor; vm_compute; congruence.
  - vm_compute; reflexivity.
  - repeat constructor.
  - unfold running_in_range, in_s, smin, smax. simpl; lia.
  - unfold running_in_range, in_s, smin, smax. simpl; lia.
Defined.
