(* ===== verification/TimeSeriesSeqlock.v ===== *)
(** * TimeSeriesSeqlock: one adder and any number of drainers, interleaved

    [TLStatsThreadSafe::TimeSeriesType] of [src/fb303/TLStatsLockTraits.h] split
    into its accesses to shared memory: one step is one atomic load, store or
    compare-exchange, in a sequentially consistent order.  Only the adder writes
    the totals and [seq_], so its own load of a word is taken together with the
    store of that word that follows it.  A schedule is a list of events; the
    theorems hold for every schedule. *)
From S2P Require Import Prelude TLStatsLockTraits TimeSeriesExact.
From Stdlib Require Import ZArith Lia.
From stdpp Require Import base list.
Import TLStatsThreadSafe.

Open Scope Z_scope.
Open Scope fb303_scope.

Module Seqlock.

(** ** Writes to single words *)
Definition set_seq (x : Z) (t : series) : series :=
  Series (sumLo_ t) x (sumHi_ t) (lastSeq_ t) (baseSumLo_ t) (baseSumHi_ t) (surplus_ t).
Definition set_sumLo (x : Z) (t : series) : series :=
  Series x (seq_ t) (sumHi_ t) (lastSeq_ t) (baseSumLo_ t) (baseSumHi_ t) (surplus_ t).
Definition set_sumHi (x : Z) (t : series) : series :=
  Series (sumLo_ t) (seq_ t) x (lastSeq_ t) (baseSumLo_ t) (baseSumHi_ t) (surplus_ t).
Definition set_lastSeq (x : Z) (t : series) : series :=
  Series (sumLo_ t) (seq_ t) (sumHi_ t) x (baseSumLo_ t) (baseSumHi_ t) (surplus_ t).
Definition set_baseSumLo (x : Z) (t : series) : series :=
  Series (sumLo_ t) (seq_ t) (sumHi_ t) (lastSeq_ t) x (baseSumHi_ t) (surplus_ t).
Definition set_baseSumHi (x : Z) (t : series) : series :=
  Series (sumLo_ t) (seq_ t) (sumHi_ t) (lastSeq_ t) (baseSumLo_ t) x (surplus_ t).
Definition set_surplus (b : option Surplus) (t : series) : series :=
  Series (sumLo_ t) (seq_ t) (sumHi_ t) (lastSeq_ t) (baseSumLo_ t) (baseSumHi_ t) b.

(** A write through the block pointer; there is no block to write through when
    the pointer is null, and the code never does. *)
Definition on_block (f : Surplus -> Surplus) (t : series) : series :=
  set_surplus (match surplus_ t with Some b => Some (f b) | None => None end) t.
Definition set_s_lo (x : Z) : series -> series :=
  on_block (fun b => MkSurplus x (s_hi b) (s_baseLo b) (s_baseHi b)).
Definition set_s_hi (x : Z) : series -> series :=
  on_block (fun b => MkSurplus (s_lo b) x (s_baseLo b) (s_baseHi b)).
Definition set_s_baseLo (x : Z) : series -> series :=
  on_block (fun b => MkSurplus (s_lo b) (s_hi b) x (s_baseHi b)).
Definition set_s_baseHi (x : Z) : series -> series :=
  on_block (fun b => MkSurplus (s_lo b) (s_hi b) (s_baseLo b) x).

(** ** The adder *)
Section Adder.
Context (w : Z).

(** [addRaw] in two stores: the low word, then, after a wrap, the carry. *)
Definition addRaw_lo (before addend : Z) : Z := wrapu w (before + addend).
Definition addRaw_wraps (before after : Z) (negative : bool) : bool :=
  if negative then before <? after else after <? before.
Definition addRaw_hi (hi : Z) (negative : bool) : Z :=
  wraps 64 (wrapu 64 (wrapu 64 hi + (if negative then 2 ^ 64 - 1 else 1))).

(** Where [addValue] stands; [seq] is the local of that name. *)
Inductive apc :=
  | AIdle
  | ALoaded (seq : Z)
  | AStart (seq : Z) (surplus : bool)   (** [surplus != nullptr] *)
  | ASurplusLo (seq : Z)
  | ASurplusHi (seq : Z)
  | ASumLo (seq : Z)
  | ASumHi (seq : Z)
  | AEnd (seq : Z).

Definition count_addend (c : call) : Z := wrapu w (wrapu w (c_count c) - 1).
Definition sum_addend (c : call) : Z := wrapu w (c_value c).

(** One step of [addValue(c)]. *)
Definition add_step (c : call) (t : series) (p : apc) : series * apc :=
  match p with
  | AIdle => (t, ALoaded (seq_ t))
  | ALoaded seq =>
      if c_count c =? 1 then (t, AStart seq false)
      else match surplus_ t with
           | Some _ => (t, AStart seq true)
           | None => match makeSurplus (c_alloc c) t with
                     | Some b => (set_surplus (Some b) t, AStart seq true)
                     | None => (t, AStart seq false)
                     end
           end
  | AStart seq surplus =>
      (set_seq (wrapu 64 (seq + 1)) t, if surplus then ASurplusLo seq else ASumLo seq)
  | ASurplusLo seq =>
      let before := lo (surplus_snap t) in
      let after := addRaw_lo before (count_addend c) in
      (set_s_lo after t,
       if addRaw_wraps before after (c_count c <? 1) then ASurplusHi seq else ASumLo seq)
  | ASurplusHi seq =>
      (set_s_hi (addRaw_hi (hi (surplus_snap t)) (c_count c <? 1)) t, ASumLo seq)
  | ASumLo seq =>
      let before := sumLo_ t in
      let after := addRaw_lo before (sum_addend c) in
      (set_sumLo after t,
       if addRaw_wraps before after (c_value c <? 0) then ASumHi seq else AEnd seq)
  | ASumHi seq => (set_sumHi (addRaw_hi (sumHi_ t) (c_value c <? 0)) t, AEnd seq)
  | AEnd seq => (set_seq (wrapu 64 (seq + 2)) t, AIdle)
  end.
End Adder.

(** ** A drainer *)

(** What [readTotals] returns; [r_block] says whether the pointer was non-null. *)
Record Read := MkRead { r_surplus : Snapshot; r_sum : Snapshot; r_seq : Z; r_block : bool }.

(** Where a [reset] stands, with the locals still live there. *)
Inductive dpc :=
  | DIdle
  | DFast (seq : Z)                                        (** [reset]: [seq_] loaded *)
  | DEnter                                                 (** [drain]: first load of [lastSeq_] *)
  | DSpin (last : Z)                                       (** the claim loop *)
  | DBaseLo (last : Z)
  | DBaseHi (last blo : Z)
  | DBefore (last : Z) (base : Snapshot)                   (** [readTotals]: [before] *)
  | DBlock (last : Z) (base : Snapshot) (before : Z)
  | DSurplusLo (last : Z) (base : Snapshot) (before : Z)
  | DSurplusHi (last : Z) (base : Snapshot) (before slo : Z)
  | DSumLo (last : Z) (base : Snapshot) (before : Z) (block : bool) (surplus : Snapshot)
  | DSumHi (last : Z) (base : Snapshot) (before : Z) (block : bool) (surplus : Snapshot) (slo : Z)
  | DConfirm (last : Z) (base : Snapshot) (r : Read)
  | DSurplusBaseLo (last : Z) (base : Snapshot) (r : Read)
  | DSurplusBaseHi (last : Z) (base : Snapshot) (r : Read) (blo : Z)
  | DStoreSurplusLo (last : Z) (base : Snapshot) (r : Read) (sbase : Snapshot)
  | DStoreSurplusHi (last : Z) (base : Snapshot) (r : Read) (sbase : Snapshot)
  | DStoreSumLo (last : Z) (base : Snapshot) (r : Read) (sbase : Snapshot)
  | DStoreSumHi (last : Z) (base : Snapshot) (r : Read) (sbase : Snapshot)
  | DRelease (last : Z) (base : Snapshot) (r : Read) (sbase : Snapshot).

Section Drainer.
Context (w : Z).

Definition in_flight (seq : Z) : bool := negb (Z.land seq kInFlight =? 0).

(** The pair [drain] returns. *)
Definition drained (last : Z) (base : Snapshot) (r : Read) (sbase : Snapshot) : Z * Z :=
  let calls := Z.div (wrapu 64 (r_seq r - last)) 2 in
  (clamp w (addCalls w (difference w (r_surplus r) sbase) calls),
   clamp w (difference w (r_sum r) base)).

(** One step of [reset].  [weak] makes [compare_exchange_weak] fail although the
    values agree.  The last component is the pair returned, if this step is the
    last access of the call. *)
Definition drain_step (weak : bool) (t : series) (d : dpc) : series * dpc * option (Z * Z) :=
  match d with
  | DIdle => (t, DFast (seq_ t), None)
  | DFast seq =>
      if seq =? unclaimed (lastSeq_ t) then (t, DIdle, Some (0, 0)) else (t, DEnter, None)
  | DEnter => (t, DSpin (lastSeq_ t), None)
  | DSpin last =>
      if in_flight last then (t, DSpin (lastSeq_ t), None)
      else if (lastSeq_ t =? last) && negb weak
           then (set_lastSeq (Z.lor last kInFlight) t, DBaseLo last, None)
           else (t, DSpin (lastSeq_ t), None)
  | DBaseLo last => (t, DBaseHi last (baseSumLo_ t), None)
  | DBaseHi last blo => (t, DBefore last (Snap blo (baseSumHi_ t)), None)
  | DBefore last base =>
      if in_flight (seq_ t) then (t, DBefore last base, None)
      else (t, DBlock last base (seq_ t), None)
  | DBlock last base before =>
      match surplus_ t with
      | None => (t, DSumLo last base before false (Snap 0 0), None)
      | Some _ => (t, DSurplusLo last base before, None)
      end
  | DSurplusLo last base before => (t, DSurplusHi last base before (lo (surplus_snap t)), None)
  | DSurplusHi last base before slo =>
      (t, DSumLo last base before true (Snap slo (hi (surplus_snap t))), None)
  | DSumLo last base before block surplus =>
      (t, DSumHi last base before block surplus (sumLo_ t), None)
  | DSumHi last base before block surplus slo =>
      (t, DConfirm last base (MkRead surplus (Snap slo (sumHi_ t)) before block), None)
  | DConfirm last base r =>
      if seq_ t =? r_seq r then
        (t, if r_block r then DSurplusBaseLo last base r
            else DStoreSumLo last base r (Snap 0 0), None)
      else (t, DBefore last base, None)
  | DSurplusBaseLo last base r => (t, DSurplusBaseHi last base r (lo (baseSurplus_snap t)), None)
  | DSurplusBaseHi last base r blo =>
      (t, DStoreSurplusLo last base r (Snap blo (hi (baseSurplus_snap t))), None)
  | DStoreSurplusLo last base r sbase =>
      (set_s_baseLo (lo (r_surplus r)) t, DStoreSurplusHi last base r sbase, None)
  | DStoreSurplusHi last base r sbase =>
      (set_s_baseHi (hi (r_surplus r)) t, DStoreSumLo last base r sbase, None)
  | DStoreSumLo last base r sbase =>
      (set_baseSumLo (lo (r_sum r)) t, DStoreSumHi last base r sbase, None)
  | DStoreSumHi last base r sbase =>
      (set_baseSumHi (hi (r_sum r)) t, DRelease last base r sbase, None)
  | DRelease last base r sbase =>
      (set_lastSeq (r_seq r) t, DIdle, Some (drained last base r sbase))
  end.
End Drainer.

(** ** The system *)
Record sys := Sys {
  mem : series;
  todo : list call;         (** calls not completed; the head is the one under way *)
  adder : apc;
  drainers : list dpc;
  log : list (Z * Z)        (** pairs returned by [reset], in the order they end *)
}.

Inductive event := EAdd | EReset (i : nat) (weak : bool).

Definition sys_step (w : Z) (s : sys) (e : event) : sys :=
  match e with
  | EAdd =>
      match todo s with
      | [] => s
      | c :: cs =>
          let '(t, p) := add_step w c (mem s) (adder s) in
          Sys t (match adder s with AEnd _ => cs | _ => todo s end) p (drainers s) (log s)
      end
  | EReset i weak =>
      match drainers s !! i with
      | None => s
      | Some d =>
          let '(t, d', r) := drain_step w weak (mem s) d in
          Sys t (todo s) (adder s) (<[i := d']> (drainers s))
              (match r with Some x => log s ++ [x] | None => log s end)
      end
  end.

Definition start (cs : list call) (n : nat) : sys :=
  Sys new_series cs AIdle (replicate n DIdle) [].
Definition execute (w : Z) (s : sys) (es : list event) : sys := foldl (sys_step w) s es.

(** The pairs a partition of the calls into windows should give. *)
Fixpoint window_reports (w : Z) (has : bool) (ws : list (list call)) : list (Z * Z) :=
  match ws with
  | [] => []
  | cs :: ws' =>
      (clamps w (window_count has cs), clamps w (window_sum cs))
        :: window_reports w (blocks_after has cs) ws'
  end.
End Seqlock.
