(* ===== verification/SeqlockCorrect.v ===== *)
(** * SeqlockCorrect: every interleaving of [addValue] and [reset] is exact

    The invariant of the interleaved time series, kept by every step of the
    adder and of any drainer, and the theorems about whole schedules. *)
From S2P Require Import Prelude TLStatsLockTraits TimeSeriesExact TimeSeriesSeqlock.
From Stdlib Require Import ZArith Lia.
From stdpp Require Import base list.
Import TLStatsThreadSafe Seqlock.

Open Scope Z_scope.
Open Scope fb303_scope.

Section Invariant.
Context (w : Z) (Hw : 2 <= w <= 64) (cs : list call).
Context (Hvalid : Forall (valid_call w) cs) (Hlen : Z.of_nat (length cs) < 2 ^ 62).

(** ** The totals of the first [n] calls *)
Definition T (n : nat) : totals := (add_calls false (take n cs) (Totals 0 0 0)).1.
Definition B (n : nat) : bool := blocks_after false (take n cs).
Definition Esum (n : nat) : Snapshot := enc w (t_sum (T n)).
Definition Esur (n : nat) : Snapshot := enc w (t_surplus (T n)).
Definition even_seq (n : nat) : Z := 2 * Z.of_nat n.

Lemma add_calls_snoc has l c t :
  add_calls has (l ++ [c]) t =
  (add_call (blocks_after has l) c (add_calls has l t).1, has_block (blocks_after has l) c).
Proof. revert has t. induction l as [|d l IH]; intros has t; [done|]. simpl. by rewrite IH. Qed.

Lemma T_succ n c : cs !! n = Some c -> T (S n) = add_call (B n) c (T n).
Proof. intros Hc. unfold T, B. by rewrite (take_S_r _ _ _ Hc), add_calls_snoc. Qed.

Lemma B_succ n c : cs !! n = Some c -> B (S n) = has_block (B n) c.
Proof. intros Hc. unfold B, blocks_after. by rewrite (take_S_r _ _ _ Hc), foldl_app. Qed.

Lemma blocks_after_true l : blocks_after true l = true.
Proof. unfold blocks_after. induction l; simpl; [done|]. by unfold has_block. Qed.

Lemma B_false_mono m k : (m <= k)%nat -> B k = false -> B m = false.
Proof.
  intros Hmk. unfold B. replace (take k cs) with (take m (take k cs) ++ drop m (take k cs)) by apply take_drop.
  rewrite take_take, Nat.min_l by done. unfold blocks_after at 1. rewrite foldl_app. fold (blocks_after false (take m cs)).
  destruct (blocks_after false (take m cs)); [|done].
  fold (blocks_after true (drop m (take k cs))). by rewrite blocks_after_true.
Qed.

Lemma surplus_none l :
  blocks_after false l = false -> t_surplus (add_calls false l (Totals 0 0 0)).1 = 0.
Proof.
  induction l as [|c l IH] using rev_ind; [done|].
  rewrite add_calls_snoc. unfold blocks_after. rewrite foldl_app. fold (blocks_after false l).
  unfold has_block, effective_count. simpl. intros Hb. apply orb_false_iff in Hb. destruct Hb as [Hb Hc].
  rewrite Hb, (IH Hb). unfold effective_count. simpl. revert Hc. destruct (c_alloc c); [|done].
  destruct (Z.eqb_spec (c_count c) 1) as [->|]; simpl; done.
Qed.

Lemma Esur_none n : B n = false -> Esur n = Snap 0 0.
Proof. intros Hb. unfold Esur, T. rewrite surplus_none by done. by apply enc_zero. Qed.

(** ** The adder's words *)
Lemma addRaw_split s a neg :
  addRaw w s a neg =
  let after := addRaw_lo w (lo s) a in
  Snap after (if addRaw_wraps (lo s) after neg then addRaw_hi (hi s) neg else hi s).
Proof. unfold addRaw, addRaw_lo, addRaw_wraps, addRaw_hi. simpl. by case_if. Qed.

Lemma Esum_succ n c :
  cs !! n = Some c -> addRaw w (Esum n) (sum_addend w c) (c_value c <? 0) = Esum (S n).
Proof.
  intros Hc. unfold Esum. rewrite (T_succ n c Hc). simpl.
  apply (add_enc w Hw). by apply (Forall_lookup_1 _ _ _ _ Hvalid Hc).
Qed.

Lemma Esur_succ n c :
  cs !! n = Some c -> B (S n) = true -> c_count c <> 1 ->
  addRaw w (Esur n) (count_addend w c) (c_count c <? 1) = Esur (S n).
Proof.
  intros Hc Hb Hne. unfold Esur. rewrite (T_succ n c Hc). simpl.
  rewrite (B_succ n c Hc) in Hb. unfold has_block in Hb.
  unfold effective_count. replace (B n || c_alloc c) with true
    by (destruct (B n), (c_alloc c), (c_count c =? 1); done).
  apply (addRaw_surplus w Hw). by apply (Forall_lookup_1 _ _ _ _ Hvalid Hc).
Qed.

Lemma Esur_same n c :
  cs !! n = Some c -> c_count c = 1 \/ B (S n) = false -> Esur (S n) = Esur n.
Proof.
  intros Hc Hor. unfold Esur. rewrite (T_succ n c Hc). simpl. f_equal.
  destruct Hor as [H1|Hb].
  - unfold effective_count. rewrite H1. case_if; lia.
  - rewrite (B_succ n c Hc) in Hb. unfold has_block, effective_count in *.
    destruct (B n), (c_alloc c); try done; simpl in *; lia.
Qed.

Definition has_surplus (t : series) : bool := is_some (surplus_ t).

(** The words while [seq_] is even ([published]) and while it is odd. *)
Definition adder_words (t : series) (seq : Z) (sum sur : Snapshot) (blk : bool) : Prop :=
  seq_ t = seq /\ sum_snap t = sum /\ surplus_snap t = sur /\ has_surplus t = blk.

Definition adder_inv (n : nat) (t : series) (p : apc) : Prop :=
  match p with
  | AIdle => adder_words t (even_seq n) (Esum n) (Esur n) (B n)
  | _ => exists c, cs !! n = Some c /\
    match p with
    | AIdle => False
    | ALoaded seq => seq = even_seq n /\ adder_words t (even_seq n) (Esum n) (Esur n) (B n)
    | AStart seq blk =>
        seq = even_seq n /\ adder_words t (even_seq n) (Esum n) (Esur n) (B (S n)) /\
        blk = negb (c_count c =? 1) && B (S n)
    | ASurplusLo seq =>
        seq = even_seq n /\ c_count c <> 1 /\ B (S n) = true /\
        adder_words t (even_seq n + 1) (Esum n) (Esur n) true
    | ASurplusHi seq =>
        seq = even_seq n /\ c_count c <> 1 /\ B (S n) = true /\
        (exists h, adder_words t (even_seq n + 1) (Esum n) (Snap (lo (Esur (S n))) h) true /\
                   addRaw_hi h (c_count c <? 1) = hi (Esur (S n)))
    | ASumLo seq =>
        seq = even_seq n /\ adder_words t (even_seq n + 1) (Esum n) (Esur (S n)) (B (S n))
    | ASumHi seq =>
        seq = even_seq n /\
        (exists h, adder_words t (even_seq n + 1) (Snap (lo (Esum (S n))) h) (Esur (S n)) (B (S n)) /\
                   addRaw_hi h (c_value c <? 0) = hi (Esum (S n)))
    | AEnd seq =>
        seq = even_seq n /\ adder_words t (even_seq n + 1) (Esum (S n)) (Esur (S n)) (B (S n))
    end
  end.

(** What a drainer may rely on across a step of the adder. *)
Record adder_rely (t t' : series) : Prop := {
  rely_last : lastSeq_ t' = lastSeq_ t;
  rely_sum : baseSum_snap t' = baseSum_snap t;
  rely_surplus : baseSurplus_snap t' = baseSurplus_snap t;
  rely_block : has_surplus t = true -> has_surplus t' = true;
  rely_seq : seq_ t <= seq_ t'
}.

Lemma seq_small n : (n <= length cs)%nat -> in_u 64 (even_seq n) /\ in_u 64 (even_seq n + 1).
Proof. unfold in_u, even_seq. lia. Qed.

Lemma even_seq_succ n : even_seq n + 2 = even_seq (S n).
Proof. unfold even_seq. lia. Qed.

Lemma lookup_bound n c : cs !! n = Some c -> (S n <= length cs)%nat.
Proof. intros Hc%lookup_lt_Some. lia. Qed.

Ltac words :=
  unfold adder_words, sum_snap, surplus_snap, baseSum_snap, baseSurplus_snap, has_surplus in *;
  simpl in *.

(** The sequence number an adder state goes with. *)
Lemma adder_inv_seq n t p :
  adder_inv n t p ->
  match p with
  | AIdle => seq_ t = even_seq n
  | ALoaded seq | AStart seq _ => seq = even_seq n /\ seq_ t = even_seq n
  | ASurplusLo seq | ASurplusHi seq | ASumLo seq | ASumHi seq | AEnd seq =>
      seq = even_seq n /\ seq_ t = even_seq n + 1
  end.
Proof. destruct p; simpl; unfold adder_words; intros H; deex; subst; split_and?; assumption || reflexivity. Qed.

Lemma adder_step_rely n c t p t' p' :
  cs !! n = Some c -> adder_inv n t p -> add_step w c t p = (t', p') -> adder_rely t t'.
Proof.
  intros Hc Hinv%adder_inv_seq Hstep. pose proof (lookup_bound n c Hc) as Hn.
  destruct (seq_small n ltac:(lia)) as [Hs1 Hs2]. destruct (seq_small (S n) Hn) as [Hs3 _].
  destruct t as [sl sq sh ls bl bh blk]. destruct p; simpl in *; deex; subst;
    unfold makeSurplus in Hstep; repeat case_match; simplify_eq; split; simpl; try done; try lia;
    unfold baseSurplus_snap, set_s_lo, set_s_hi, on_block; simpl; try (by destruct blk).
  - rewrite (wrapu_small _ _ Hs2). lia.
  - rewrite (wrapu_small _ _ Hs2). lia.
  - rewrite even_seq_succ, (wrapu_small _ _ Hs3). unfold even_seq. lia.
Qed.

Lemma adder_words_surplus t seq sum sur blk :
  adder_words t seq sum sur blk -> surplus_ t = None -> sur = Snap 0 0.
Proof. intros (_ & _ & Hs & _) Hn. unfold surplus_snap in Hs. by rewrite Hn in Hs. Qed.

(** How single writes move the adder's words. *)
Section Writes.
Context (t : series) (seq : Z) (sum sur : Snapshot).

Lemma words_set_seq blk x :
  adder_words t seq sum sur blk -> adder_words (set_seq x t) x sum sur blk.
Proof. unfold adder_words. tauto. Qed.
Lemma words_set_sumLo blk x :
  adder_words t seq sum sur blk -> adder_words (set_sumLo x t) seq (Snap x (hi sum)) sur blk.
Proof. intros (? & <- & ? & ?). by repeat split. Qed.
Lemma words_set_sumHi blk x :
  adder_words t seq sum sur blk -> adder_words (set_sumHi x t) seq (Snap (lo sum) x) sur blk.
Proof. intros (? & <- & ? & ?). by repeat split. Qed.
Lemma words_set_s_lo x :
  adder_words t seq sum sur true -> adder_words (set_s_lo x t) seq sum (Snap x (hi sur)) true.
Proof. destruct t as [? ? ? ? ? ? [b|]]; intros (? & <- & <- & ?); by repeat split. Qed.
Lemma words_set_s_hi x :
  adder_words t seq sum sur true -> adder_words (set_s_hi x t) seq sum (Snap (lo sur) x) true.
Proof. destruct t as [? ? ? ? ? ? [b|]]; intros (? & <- & <- & ?); by repeat split. Qed.
(** A fresh block holds zeros, which is what a null block reads as. *)
Lemma words_new_block blk :
  surplus_ t = None -> adder_words t seq sum sur blk ->
  adder_words (set_surplus (Some new_surplus) t) seq sum sur true.
Proof. destruct t as [? ? ? ? ? ? b]; cbn; intros -> (? & <- & <- & ?); by repeat split. Qed.
End Writes.

Lemma split_snap a b s : Snap a b = s -> lo s = a /\ hi s = b.
Proof. by intros <-. Qed.

(** The allocation of the surplus block, before the sequence turns odd. *)
Lemma adder_alloc_inv n c t t' p' :
  cs !! n = Some c -> adder_words t (even_seq n) (Esum n) (Esur n) (B n) ->
  add_step w c t (ALoaded (even_seq n)) = (t', p') -> adder_inv n t' p'.
Proof.
  intros Hc Hwords Hstep. pose proof (B_succ n c Hc) as HB. unfold has_block in HB.
  pose proof (proj2 (proj2 (proj2 Hwords))) as Hblk. unfold has_surplus in Hblk.
  cbn [add_step] in Hstep. unfold makeSurplus in Hstep.
  destruct (c_count c =? 1) eqn:E1; simplify_eq; [|destruct (surplus_ t) eqn:Eb; simplify_eq;
    [|destruct (c_alloc c) eqn:Ea; simplify_eq]]; exists c; rewrite HB, ?E1, <- ?Hblk; simpl.
  - rewrite orb_false_r. split; [done|]. split; [done|]. by rewrite <- Hblk in Hwords.
  - split; [done|]. split; [done|]. by rewrite <- Hblk in Hwords.
  - split; [done|]. split; [done|]. split; [by eapply words_new_block|done].
  - split; [done|]. split; [done|]. by rewrite <- Hblk in Hwords.
Qed.

Lemma adder_step_inv n c t p t' p' :
  cs !! n = Some c -> adder_inv n t p -> add_step w c t p = (t', p') ->
  adder_inv (match p with AEnd _ => S n | _ => n end) t' p'.
Proof.
  intros Hc Hinv Hstep. pose proof (lookup_bound n c Hc) as Hn.
  destruct (seq_small n ltac:(lia)) as [_ Hs2]. destruct (seq_small (S n) Hn) as [Hs3 _].
  pose proof (B_succ n c Hc) as HB. pose proof (Esum_succ n c Hc) as HS.
  pose proof (Esur_succ n c Hc) as HU. pose proof (Esur_same n c Hc) as HU'.
  rewrite addRaw_split in HS, HU. cbv zeta in HS, HU.
  destruct p; cbn [adder_inv add_step] in *; deex; simplify_eq.
  - exists c. split; [done|]. split; [apply Hinv|done].
  - by eapply adder_alloc_inv.
  - rewrite (wrapu_small _ _ Hs2). apply (words_set_seq _ _ _ _ _ (even_seq n + 1)) in H1.
    destruct (Z.eqb_spec (c_count c) 1), (B (S n)) eqn:Eb; exists c; rewrite ?Eb; simpl; auto 8.
    all: split; [done|]; split; [done|]; rewrite HU' by auto; auto.
  - assert (Hsur : surplus_snap t = Esur n) by apply H3.
    destruct (split_snap _ _ _ (HU H2 H1)) as [Hlo Hhi]. apply (words_set_s_lo _ _ _ _ (lo (Esur (S n)))) in H3.
    rewrite Hsur, <- Hlo in *. case_if; exists c; (split; [done|]).
    + repeat (split; [done|]). exists (hi (Esur n)). split; [done|]. by rewrite Hhi.
    + split; [done|]. rewrite H2. rewrite <- Hhi in H3. by destruct (Esur (S n)).
  - assert (Hsur : hi (surplus_snap t) = h) by (destruct H3 as (_ & _ & -> & _); done).
    exists c. split; [done|]. split; [done|]. rewrite Hsur, H4, H2.
    apply (words_set_s_hi _ _ _ _ (hi (Esur (S n)))) in H3. by destruct (Esur (S n)).
  - assert (Hsum : sumLo_ t = lo (Esum n)) by (destruct H1 as (_ & <- & _); done).
    destruct (split_snap _ _ _ HS) as [Hlo Hhi]. apply (words_set_sumLo _ _ _ _ _ (lo (Esum (S n)))) in H1.
    rewrite Hsum, <- Hlo in *. case_if; exists c; (split; [done|]).
    + split; [done|]. exists (hi (Esum n)). split; [done|]. by rewrite Hhi.
    + split; [done|]. rewrite <- Hhi in H1. by destruct (Esum (S n)).
  - assert (Hsum : sumHi_ t = h) by (destruct H1 as (_ & Hs & _); by injection Hs).
    exists c. split; [done|]. split; [done|]. rewrite Hsum, H2.
    apply (words_set_sumHi _ _ _ _ _ (hi (Esum (S n)))) in H1. by destruct (Esum (S n)).
  - rewrite even_seq_succ, (wrapu_small _ _ Hs3). by apply (words_set_seq _ _ _ _ _ (even_seq (S n))) in H1.
Qed.

Lemma in_flight_even n : in_flight (even_seq n) = false.
Proof.
  unfold in_flight, kInFlight, even_seq. change 1 with (Z.ones 1).
  rewrite Z.land_ones, Z.mul_comm, Z.mod_mul by lia. done.
Qed.

Lemma in_flight_odd n : in_flight (even_seq n + 1) = true.
Proof.
  unfold in_flight, kInFlight, even_seq. change 1 with (Z.ones 1) at 2.
  rewrite Z.land_ones, Z.add_comm, Z.mul_comm by lia. change (2 ^ 1) with 2.
  rewrite Z.mod_add by lia. done.
Qed.

Lemma lor_even n : Z.lor (even_seq n) kInFlight = even_seq n + 1.
Proof.
  unfold even_seq, kInFlight. by destruct (Z.of_nat n) as [|p|p] eqn:E; [| |lia].
Qed.

(** While the sequence is even the words are those of the calls completed. *)
Lemma adder_published n t p :
  adder_inv n t p -> in_flight (seq_ t) = false ->
  seq_ t = even_seq n /\ sum_snap t = Esum n /\ surplus_snap t = Esur n /\
  (surplus_ t = None -> B n = false).
Proof.
  intros Hinv Hseq. pose proof (adder_inv_seq n t p Hinv) as Hs.
  destruct p; deex; try (by rewrite H0, in_flight_odd in Hseq); cbn [adder_inv] in Hinv; deex.
  - destruct Hinv as (? & ? & ? & Hb). repeat split; try done. intros E.
    unfold has_surplus in Hb. by rewrite E in Hb.
  - destruct H3 as (? & ? & ? & Hb). repeat split; try done. intros E.
    unfold has_surplus in Hb. by rewrite E in Hb.
  - destruct H3 as (? & ? & ? & Hb). repeat split; try done. intros E.
    unfold has_surplus in Hb. rewrite E in Hb. eapply (B_false_mono n (S n)); [lia|done].
Qed.

(** ** The drainers *)

(** The baselines, word by word: those of the first [i1] ... [i4] calls. *)
Definition bases (t : series) (i1 i2 i3 i4 : nat) : Prop :=
  baseSurplus_snap t = Snap (lo (Esur i1)) (hi (Esur i2)) /\
  baseSum_snap t = Snap (lo (Esum i3)) (hi (Esum i4)).

Definition critical (d : dpc) : bool :=
  match d with DIdle | DFast _ | DEnter | DSpin _ => false | _ => true end.

(** A bracket opened at [before]: an even sequence number, already reached. *)
Definition bracket (m : nat) (t : series) (before : Z) (k : nat) : Prop :=
  before = even_seq k /\ (m <= k <= length cs)%nat /\ before <= seq_ t.

(** A confirmed read of the totals of the first [k] calls. *)
Definition confirmed (m : nat) (t : series) (r : Read) (k : nat) : Prop :=
  bracket m t (r_seq r) k /\ r_surplus r = Esur k /\ r_sum r = Esum k /\
  (r_block r = true -> has_surplus t = true) /\ (r_block r = false -> B k = false).

Definition drain_inv (m : nat) (t : series) (d : dpc) : Prop :=
  match d with
  | DIdle | DFast _ | DEnter | DSpin _ => False
  | DBaseLo last => last = even_seq m /\ bases t m m m m
  | DBaseHi last blo => last = even_seq m /\ bases t m m m m /\ blo = lo (Esum m)
  | DBefore last base => last = even_seq m /\ bases t m m m m /\ base = Esum m
  | DBlock last base before =>
      last = even_seq m /\ bases t m m m m /\ base = Esum m /\ (exists k, bracket m t before k)
  | DSurplusLo last base before =>
      last = even_seq m /\ bases t m m m m /\ base = Esum m /\
      (exists k, bracket m t before k) /\ has_surplus t = true
  | DSurplusHi last base before slo =>
      last = even_seq m /\ bases t m m m m /\ base = Esum m /\
      (exists k, bracket m t before k /\ (seq_ t = before -> slo = lo (Esur k))) /\
      has_surplus t = true
  | DSumLo last base before block surplus =>
      last = even_seq m /\ bases t m m m m /\ base = Esum m /\
      (exists k, bracket m t before k /\
        (seq_ t = before -> surplus = Esur k /\ (block = false -> B k = false))) /\
      (block = true -> has_surplus t = true)
  | DSumHi last base before block surplus slo =>
      last = even_seq m /\ bases t m m m m /\ base = Esum m /\
      (exists k, bracket m t before k /\
        (seq_ t = before -> surplus = Esur k /\ (block = false -> B k = false) /\ slo = lo (Esum k))) /\
      (block = true -> has_surplus t = true)
  | DConfirm last base r =>
      last = even_seq m /\ bases t m m m m /\ base = Esum m /\
      (exists k, bracket m t (r_seq r) k /\ (seq_ t = r_seq r -> confirmed m t r k))
  | DSurplusBaseLo last base r =>
      last = even_seq m /\ bases t m m m m /\ base = Esum m /\
      (exists k, confirmed m t r k) /\ has_surplus t = true
  | DSurplusBaseHi last base r blo =>
      last = even_seq m /\ bases t m m m m /\ base = Esum m /\
      (exists k, confirmed m t r k) /\ has_surplus t = true /\ blo = lo (Esur m)
  | DStoreSurplusLo last base r sbase =>
      last = even_seq m /\ base = Esum m /\ sbase = Esur m /\ has_surplus t = true /\
      (exists k, confirmed m t r k /\ bases t m m m m)
  | DStoreSurplusHi last base r sbase =>
      last = even_seq m /\ base = Esum m /\ sbase = Esur m /\ has_surplus t = true /\
      (exists k, confirmed m t r k /\ bases t k m m m)
  | DStoreSumLo last base r sbase =>
      last = even_seq m /\ base = Esum m /\ sbase = Esur m /\
      (exists k, confirmed m t r k /\ bases t k k m m)
  | DStoreSumHi last base r sbase =>
      last = even_seq m /\ base = Esum m /\ sbase = Esur m /\
      (exists k, confirmed m t r k /\ bases t k k k m)
  | DRelease last base r sbase =>
      last = even_seq m /\ base = Esum m /\ sbase = Esur m /\
      (exists k, confirmed m t r k /\ bases t k k k k)
  end.

(** The invariant of a drain survives the adder. *)
Lemma bases_rely t t' i1 i2 i3 i4 : adder_rely t t' -> bases t i1 i2 i3 i4 -> bases t' i1 i2 i3 i4.
Proof. unfold bases. by intros [? -> -> ? ?]. Qed.
Lemma bracket_rely m t t' b k : adder_rely t t' -> bracket m t b k -> bracket m t' b k.
Proof. unfold bracket. intros [_ _ _ _ ?] (? & ? & ?). repeat split; lia. Qed.
Lemma confirmed_rely m t t' r k : adder_rely t t' -> confirmed m t r k -> confirmed m t' r k.
Proof.
  intros Hr (Hb & ? & ? & Hs & ?). split; [by eapply bracket_rely|].
  repeat split; try done. intros E. by apply (rely_block _ _ Hr), Hs.
Qed.
(** A bracket the adder has left behind never closes. *)
Lemma bracket_seq m t t' b k : adder_rely t t' -> bracket m t b k -> seq_ t' = b -> seq_ t = b.
Proof. unfold bracket. intros [_ _ _ _ ?] (_ & _ & ?) ?. lia. Qed.

Lemma drain_inv_rely m t t' d : adder_rely t t' -> drain_inv m t d -> drain_inv m t' d.
Proof.
  intros Hr. pose proof (bases_rely t t') as Hb. pose proof (bracket_rely m t t') as Hk.
  pose proof (confirmed_rely m t t') as Hc. pose proof (rely_block t t' Hr) as Hs.
  pose proof (bracket_seq m t t') as Hq.
  destruct d; cbn [drain_inv]; intros Hd; deex; subst; split_and?; eauto 8.
Qed.

(** What the adder may rely on across a step of a drainer. *)
Definition same_words (t t' : series) : Prop :=
  seq_ t' = seq_ t /\ sum_snap t' = sum_snap t /\ surplus_snap t' = surplus_snap t /\
  has_surplus t' = has_surplus t.

Lemma adder_inv_same n t t' p : same_words t t' -> adder_inv n t p -> adder_inv n t' p.
Proof.
  intros (H1 & H2 & H3 & H4).
  assert (Hw' : forall s a b k, adder_words t s a b k -> adder_words t' s a b k).
  { unfold adder_words. intros. by rewrite H1, H2, H3, H4. }
  destruct p; cbn [adder_inv]; intros Hp; deex; eauto 12.
Qed.

(** The report of the window from call [m] to call [k]. *)
Definition window (m k : nat) : list call := drop m (take k cs).
Definition report (m k : nat) : Z * Z :=
  (clamps w (window_count (B m) (window m k)), clamps w (window_sum (window m k))).

Lemma take_window m k : (m <= k)%nat -> take k cs = take m cs ++ window m k.
Proof.
  intros Hmk. unfold window. rewrite <- (take_drop m (take k cs)) at 1.
  by rewrite take_take, Nat.min_l.
Qed.

Lemma add_calls_app has l1 l2 t :
  add_calls has (l1 ++ l2) t =
  add_calls (blocks_after has l1) l2 (add_calls has l1 t).1.
Proof. revert has t. induction l1 as [|c l1 IH]; intros has t; [done|]. simpl. by rewrite IH. Qed.

Lemma T_calls k : (k <= length cs)%nat -> t_calls (T k) = Z.of_nat k.
Proof.
  intros Hk. unfold T. rewrite add_calls_totals. cbn [fst t_calls].
  rewrite length_take. lia.
Qed.

Lemma drained_report m k :
  (m <= k <= length cs)%nat ->
  drained w (even_seq m) (Esum m) (MkRead (Esur k) (Esum k) (even_seq k) true) (Esur m) = report m k.
Proof.
  intros [Hm Hk]. destruct (seq_small k Hk) as [Hs _]. unfold in_u, even_seq in Hs.
  assert (HT : T k = (add_calls (B m) (window m k) (T m)).1).
  { unfold T at 1. by rewrite (take_window m k Hm), add_calls_app. }
  rewrite add_calls_totals in HT. cbn [fst] in HT.
  assert (Hl : length (window m k) = (k - m)%nat) by (unfold window; rewrite length_drop, length_take; lia).
  assert (Hv : Forall (valid_call w) (window m k)) by (apply Forall_drop, Forall_take, Hvalid).
  destruct (window_bounds w Hw (B m) (window m k) Hv) as [B1 B2]; [lia|].
  unfold drained, report, Esur, Esum. cbn [r_seq r_surplus r_sum].
  rewrite wrapu_small by (unfold in_u, even_seq; lia).
  replace (even_seq k - even_seq m) with (Z.of_nat (k - m) * 2) by (unfold even_seq; lia).
  rewrite Z.div_mul by lia. rewrite !difference_enc, addCalls_enc by (done || lia).
  rewrite HT. cbn [t_surplus t_sum]. rewrite Hl.
  replace (_ - _ + Z.of_nat (k - m)) with (window_count (B m) (window m k)) by lia.
  replace (_ - _) with (window_sum (window m k)) by lia.
  by rewrite !clamp_enc.
Qed.

(** The words read while a bracket is still open are those of its calls. *)
Lemma bracket_words m n t p b k :
  adder_inv n t p -> bracket m t b k -> seq_ t = b ->
  sum_snap t = Esum k /\ surplus_snap t = Esur k /\ (surplus_ t = None -> B k = false).
Proof.
  intros Ha (-> & _ & _) Hseq. destruct (adder_published n t p Ha) as (Hn & ?).
  - by rewrite Hseq, in_flight_even.
  - replace k with n by (rewrite Hn in Hseq; unfold even_seq in Hseq; lia). tauto.
Qed.

Lemma bases_all t i : bases t i i i i -> baseSurplus_snap t = Esur i /\ baseSum_snap t = Esum i.
Proof. intros [-> ->]. by destruct (Esur i), (Esum i). Qed.

Definition reads (d : dpc) : bool :=
  match d with
  | DBaseLo _ | DBaseHi _ _ | DBefore _ _ | DBlock _ _ _ | DSurplusLo _ _ _ | DSurplusHi _ _ _ _
  | DSumLo _ _ _ _ _ | DSumHi _ _ _ _ _ _ | DConfirm _ _ _ | DSurplusBaseLo _ _ _
  | DSurplusBaseHi _ _ _ _ => true
  | _ => false
  end.

Lemma confirm_inv m n t p last base r k :
  adder_inv n t p -> last = even_seq m -> base = Esum m -> bases t m m m m ->
  bracket m t (r_seq r) k -> confirmed m t r k ->
  drain_inv m t (if r_block r then DSurplusBaseLo last base r else DStoreSumLo last base r (Snap 0 0)).
Proof.
  intros Ha -> -> Hb Hk Hc. destruct (r_block r) eqn:E; cbn [drain_inv].
  - repeat split; eauto; [apply Hb..|]. by apply Hc.
  - assert (B k = false) as Bk by (by apply Hc).
    assert (B m = false) as Bm by (apply (B_false_mono m k); [apply Hk|done]).
    assert (Esur k = Esur m) as Eq by (by rewrite !Esur_none).
    split; [done|]. split; [done|]. split; [by rewrite Esur_none|].
    exists k. split; [done|]. unfold bases in *. by rewrite Eq.
Qed.

(** The words at an open bracket, by the hypothesis [Hs] that it is still open. *)
Ltac words_at Hs :=
  match goal with
  | Hk : bracket _ _ _ _, Ha : adder_inv _ _ _ |- _ =>
      destruct (bracket_words _ _ _ _ _ _ Ha Hk Hs) as (Hsum & Hsur & Hnone)
  end.

(** A load of the drainer that holds the claim. *)
Lemma drain_reads m n t p d weak t' d' r :
  adder_inv n t p -> (n <= length cs)%nat -> (m <= n)%nat -> drain_inv m t d -> reads d = true ->
  drain_step w weak t d = (t', d', r) -> t' = t /\ r = None /\ drain_inv m t d'.
Proof.
  intros Ha Hn Hmn Hd Hr Hstep.
  destruct d; cbn [drain_inv] in Hd; try done; deex; cbn [drain_step] in Hstep; simplify_eq.
  - split; [done|]. split; [done|]. cbn [drain_inv]. repeat split; [apply H0..|].
    destruct (bases_all _ _ H0) as [_ <-]. done.
  - split; [done|]. split; [done|]. cbn [drain_inv]. repeat split; [apply H0..|].
    destruct (bases_all _ _ H0) as [_ <-]. done.
  - destruct (in_flight (seq_ t)) eqn:E; simplify_eq; cbn [drain_inv]; [done|].
    destruct (adder_published n t' p Ha E) as (Hseq & _).
    repeat split; [apply H0..|]. exists n. repeat split; done || lia.
  - destruct (surplus_ t) eqn:E; simplify_eq; cbn [drain_inv]; (do 2 (split; [done|])).
    + repeat split; [apply H0..|eauto|]. unfold has_surplus. by rewrite E.
    + repeat split; [apply H0..| |done]. exists k. split; [done|]. intros Hs.
      words_at Hs. rewrite Esur_none by auto. auto.
  - repeat split; try done; [apply H0..|]. exists k. split; [done|]. intros Hs.
    words_at Hs. by rewrite Hsur.
  - repeat split; try done; [apply H0..|]. exists k. split; [done|]. intros Hs.
    words_at Hs. rewrite Hsur. split; [|done].
    match goal with H : _ -> slo = _ |- _ => rewrite (H Hs) end. by destruct (Esur k).
  - repeat split; try done; [apply H0..|]. exists k. split; [done|]. intros Hs.
    words_at Hs. match goal with H : _ -> surplus = _ /\ _ |- _ => destruct (H Hs) as [-> ?] end.
    by rewrite <- Hsum.
  - repeat split; try done; [apply H0..|]. exists k. split; [done|]. intros Hs.
    words_at Hs. match goal with H : _ -> surplus = _ /\ _ |- _ => destruct (H Hs) as (-> & ? & ->) end.
    split; [done|]. split; [done|]. split; [|done]. rewrite <- Hsum. done.
  - destruct (Z.eqb_spec (seq_ t) (r_seq r0)) as [E|E]; simplify_eq; (do 2 (split; [done|])).
    + eapply confirm_inv; eauto.
    + cbn [drain_inv]. auto.
  - repeat split; try done; [apply H0..|eauto|]. by destruct (bases_all _ _ H0) as [-> _].
  - repeat split; try done. { destruct (bases_all _ _ H0) as [-> _]. by destruct (Esur m). }
    eauto.
Qed.

(** A store of the drainer that holds the claim, short of the release. *)
Lemma confirmed_same m t t' r k : same_words t t' -> confirmed m t r k -> confirmed m t' r k.
Proof.
  intros (Hs & _ & _ & Hb) (Hk & ?). split.
  - unfold bracket in *. by rewrite Hs.
  - by rewrite Hb.
Qed.

Lemma base_store t i1 i2 i3 i4 k :
  bases t i1 i2 i3 i4 ->
  (has_surplus t = true ->
   bases (set_s_baseLo (lo (Esur k)) t) k i2 i3 i4 /\ bases (set_s_baseHi (hi (Esur k)) t) i1 k i3 i4) /\
  bases (set_baseSumLo (lo (Esum k)) t) i1 i2 k i4 /\ bases (set_baseSumHi (hi (Esum k)) t) i1 i2 i3 k.
Proof.
  unfold bases, baseSurplus_snap, baseSum_snap. destruct t as [? ? ? ? ? ? [b|]]; cbn;
    intros [H1 H2]; (split; [intros Hb; try done|]); repeat split; congruence.
Qed.

Lemma same_words_writes x t :
  same_words t (set_s_baseLo x t) /\ same_words t (set_s_baseHi x t) /\
  same_words t (set_baseSumLo x t) /\ same_words t (set_baseSumHi x t) /\
  same_words t (set_lastSeq x t).
Proof.
  unfold same_words, sum_snap, surplus_snap, has_surplus.
  destruct t as [? ? ? ? ? ? [b|]]; cbn; split_and!; done.
Qed.

Lemma drain_writes m t d weak t' d' r :
  drain_inv m t d -> reads d = false ->
  drain_step w weak t d = (t', d', r) ->
  same_words t t' /\
  ((drain_inv m t' d' /\ r = None /\ lastSeq_ t' = lastSeq_ t) \/
   (d' = DIdle /\ exists k, (m <= k <= length cs)%nat /\ even_seq k <= seq_ t /\
      lastSeq_ t' = even_seq k /\ bases t' k k k k /\ r = Some (report m k))).
Proof.
  intros Hd Hr Hstep.
  destruct d; cbn [drain_inv] in Hd; try done; deex; cbn [drain_step] in Hstep; simplify_eq.
  all: match goal with Hc : confirmed _ _ _ ?k, Hb : bases _ _ _ _ _ |- _ =>
         pose proof (base_store _ _ _ _ _ k Hb) as (Hsb & Hlo & Hhi);
         pose proof Hc as (Hk & Esu & Esm & Hblk & Hnone) end.
  all: match goal with |- same_words _ (_ ?x _) /\ _ =>
         destruct (same_words_writes x t) as (S1 & S2 & S3 & S4 & S5) end; rewrite ?Esu, ?Esm in *.
  all: split; [assumption|].
  - left. split; [|done]. cbn [drain_inv]. do 3 (split; [done|]). split; [by rewrite (proj2 (proj2 (proj2 S1)))|].
    exists k. split; [by eapply confirmed_same|]. by apply Hsb.
  - left. split; [|done]. cbn [drain_inv]. do 3 (split; [done|]).
    exists k. split; [by eapply confirmed_same|]. by apply Hsb.
  - left. split; [|done]. cbn [drain_inv]. do 3 (split; [done|]).
    exists k. split; [by eapply confirmed_same|done].
  - left. split; [|done]. cbn [drain_inv]. do 3 (split; [done|]).
    exists k. split; [by eapply confirmed_same|done].
  - right. split; [done|]. exists k. destruct Hk as (Hq & Hk1 & Hk2). rewrite Hq in *.
    split; [done|]. split; [done|]. split; [done|]. split; [by destruct t|].
    f_equal. rewrite <- drained_report by done. destruct r0 as [rs rm rq rb]; cbn in *. by subst.
Qed.

(** A step of a drainer that does not hold the claim. *)
Lemma drain_step_outside weak t d t' d' r :
  critical d = false -> drain_step w weak t d = (t', d', r) ->
  (t' = t /\ critical d' = false /\ (r = None \/ r = Some (0, 0))) \/
  (in_flight (lastSeq_ t) = false /\ t' = set_lastSeq (Z.lor (lastSeq_ t) kInFlight) t /\
   d' = DBaseLo (lastSeq_ t) /\ r = None).
Proof.
  intros Hc Hstep. destruct d; try done; cbn [drain_step] in Hstep; simplify_eq; auto.
  - case_match; simplify_eq; auto.
  - destruct (in_flight _) eqn:E1; simplify_eq; auto.
    destruct (Z.eqb_spec (lastSeq_ t) last0) as [->|]; cbn [andb] in Hstep; simplify_eq; auto.
    destruct weak; cbn [negb] in Hstep; simplify_eq; auto.
Qed.

(** ** The whole system *)
Definition claim (m : nat) (t : series) (ds : list dpc) : Prop :=
  (lastSeq_ t = even_seq m /\ bases t m m m m /\ Forall (fun d => critical d = false) ds) \/
  (exists i d, ds !! i = Some d /\ lastSeq_ t = even_seq m + 1 /\ drain_inv m t d /\
     forall j d', ds !! j = Some d' -> j <> i -> critical d' = false).

Record sys_inv_at (n m : nat) (ws : list (list call)) (s : sys) : Prop := {
  si_todo : todo s = drop n cs;
  si_n : (n <= length cs)%nat;
  si_m : (m <= n)%nat;
  si_adder : adder_inv n (mem s) (adder s);
  si_windows : concat ws = take m cs;
  si_log : log s = window_reports w false ws;
  si_claim : claim m (mem s) (drainers s)
}.
Definition sys_inv (s : sys) : Prop := exists n m ws, sys_inv_at n m ws s.

Lemma window_reports_snoc has ws x :
  window_reports w has (ws ++ [x]) =
  window_reports w has ws ++
    [(clamps w (window_count (blocks_after has (concat ws)) x), clamps w (window_sum x))].
Proof.
  revert has. induction ws as [|y ws IH]; intros has; [done|]. simpl. rewrite IH.
  unfold blocks_after. by rewrite foldl_app.
Qed.

Lemma extend_windows m k ws :
  (m <= k)%nat -> concat ws = take m cs ->
  concat (ws ++ [window m k]) = take k cs /\
  window_reports w false (ws ++ [window m k]) = window_reports w false ws ++ [report m k].
Proof.
  intros Hmk Hws. rewrite window_reports_snoc, concat_app, Hws. simpl.
  rewrite app_nil_r, <- take_window by done. done.
Qed.

Lemma report_empty m : report m m = (0, 0).
Proof.
  unfold report, window. rewrite drop_ge by (rewrite length_take; lia). simpl.
  rewrite clamps_small; [done|]. unfold in_s, smin, smax. pose proof (pow2_pos (w - 1)). lia.
Qed.

Lemma sys_inv_start nd : sys_inv (start cs nd).
Proof.
  exists 0%nat, 0%nat, []. split; simpl; try done; try lia.
  left. split; [done|]. split; [by repeat split|]. by apply Forall_replicate.
Qed.

Lemma sys_inv_add s : sys_inv s -> sys_inv (sys_step w s EAdd).
Proof.
  intros (n & m & ws & [H1 H2 H3 H4 H5 H6 H7]). cbn [sys_step].
  destruct (todo s) as [|c cs'] eqn:E; [exists n, m, ws; by split; rewrite ?E|].
  assert (Hc : cs !! n = Some c).
  { symmetry in H1. rewrite <- (Nat.add_0_r n), <- lookup_drop, H1. done. }
  destruct (add_step w c (mem s) (adder s)) as [t' p'] eqn:Estep.
  pose proof (adder_step_inv n c _ _ _ _ Hc H4 Estep) as Hinv.
  pose proof (adder_step_rely n c _ _ _ _ Hc H4 Estep) as Hrely.
  assert (Hclaim : claim m t' (drainers s)).
  { destruct H7 as [(Hl & Hb & Hd)|(i & d & Hd & Hl & Hi & Ho)]; [left|right].
    - split; [by rewrite (rely_last _ _ Hrely)|]. split; [by eapply bases_rely|done].
    - exists i, d. rewrite (rely_last _ _ Hrely). split; [done|]. split; [done|].
      split; [by eapply drain_inv_rely|done]. }
  pose proof (lookup_bound n c Hc).
  destruct (adder s) eqn:Ea; try (exists n, m, ws; by split).
  exists (S n), m, ws. split; try done; try lia. cbn [todo].
  symmetry in H1. rewrite (drop_S _ _ _ Hc) in H1. by injection H1.
Qed.

(** The drainer list after a step: the rest stays outside the claim. *)
Lemma others_outside (ds : list dpc) i d' :
  (forall j d, ds !! j = Some d -> j <> i -> critical d = false) ->
  forall j d, <[i := d']> ds !! j = Some d -> j <> i -> critical d = false.
Proof. intros Ho j d Hj Hne. rewrite list_lookup_insert_ne in Hj by done. by eapply Ho. Qed.

Lemma outside_all (ds : list dpc) i d' :
  (forall j d, ds !! j = Some d -> j <> i -> critical d = false) -> critical d' = false ->
  Forall (fun d => critical d = false) (<[i := d']> ds).
Proof.
  intros Ho Hd. apply Forall_lookup. intros j d Hj. destruct (decide (j = i)) as [->|Hne].
  - apply list_lookup_insert_Some in Hj. destruct Hj as [(_ & <- & _)|(? & _)]; done.
  - by eapply others_outside.
Qed.

(** A step of the claim's holder, or of a drainer when the claim is free. *)
Lemma sys_inv_holder n m ws s i d weak :
  sys_inv_at n m ws s -> drainers s !! i = Some d -> drain_inv m (mem s) d ->
  lastSeq_ (mem s) = even_seq m + 1 ->
  (forall j d', drainers s !! j = Some d' -> j <> i -> critical d' = false) ->
  sys_inv (sys_step w s (EReset i weak)).
Proof.
  intros [H1 H2 H3 H4 H5 H6 _] Hd Hi Hl Ho. cbn [sys_step]. rewrite Hd.
  destruct (drain_step w weak (mem s) d) as [[t' d'] r] eqn:Estep.
  assert (Hil : (i < length (drainers s))%nat) by (by eapply lookup_lt_Some).
  destruct (reads d) eqn:Er.
  { destruct (drain_reads m n (mem s) (adder s) d weak t' d' r H4 H2 H3 Hi Er Estep) as (-> & -> & Hi').
    exists n, m, ws. split; try done. right. exists i, d'. split; [by apply list_lookup_insert_eq|].
    split; [done|]. split; [done|]. by apply others_outside. }
  destruct (drain_writes m (mem s) d weak t' d' r Hi Er Estep) as
    (Hsame & [(Hi' & -> & Hl')|(-> & k & Hk & Hkn & Hl' & Hb & ->)]).
  { exists n, m, ws. split; try done; [by eapply adder_inv_same|].
    right. exists i, d'. split; [by apply list_lookup_insert_eq|]. cbn [mem]. rewrite Hl'.
    split; [done|]. split; [done|]. by apply others_outside. }
  destruct (extend_windows m k ws ltac:(lia) H5) as [Hws Hlog].
  exists n, k, (ws ++ [window m k]). split; try done.
  - cbn. pose proof (adder_inv_seq n _ _ H4) as Hs. assert (seq_ (mem s) <= even_seq n + 1) by (destruct (adder s); lia).
    unfold even_seq in *. lia.
  - by eapply adder_inv_same.
  - cbn [log]. by rewrite H6, Hlog.
  - left. split; [done|]. split; [done|]. by apply outside_all.
Qed.

Lemma sys_inv_outsider n m ws s i d weak :
  sys_inv_at n m ws s -> drainers s !! i = Some d -> critical d = false ->
  sys_inv (sys_step w s (EReset i weak)).
Proof.
  intros [H1 H2 H3 H4 H5 H6 H7] Hd Hc. cbn [sys_step]. rewrite Hd.
  destruct (drain_step w weak (mem s) d) as [[t' d'] r] eqn:Estep.
  assert (Hil : (i < length (drainers s))%nat) by (by eapply lookup_lt_Some).
  destruct (drain_step_outside weak _ _ _ _ _ Hc Estep) as [(-> & Hc' & Hr)|(Hf & -> & -> & ->)].
  - assert (Hclaim : claim m (mem s) (<[i := d']> (drainers s))).
    { destruct H7 as [(Hl & Hb & Hall)|(j & dj & Hj & Hl & Hi & Ho)]; [left|right].
      - split; [done|]. split; [done|]. by apply Forall_insert.
      - exists j, dj. assert (i <> j) as Hij by (intros ->; rewrite Hd in Hj; simplify_eq; by destruct dj).
        split; [by rewrite list_lookup_insert_ne|]. split; [done|]. split; [done|].
        intros k dk Hk Hkj. destruct (decide (k = i)) as [->|Hki].
        + apply list_lookup_insert_Some in Hk. destruct Hk as [(_ & <- & _)|(? & _)]; done.
        + rewrite list_lookup_insert_ne in Hk by done. by eapply Ho. }
    destruct Hr as [->| ->]; [by exists n, m, ws|].
    destruct (extend_windows m m ws ltac:(lia) H5) as [Hws Hlog].
    exists n, m, (ws ++ [window m m]). split; try done. cbn [log].
    by rewrite H6, Hlog, report_empty.
  - destruct H7 as [(Hl & Hb & Hall)|(j & dj & Hj & Hl & Hi & Ho)];
      [|by rewrite Hl, in_flight_odd in Hf].
    exists n, m, ws. split; try done. right. exists i, (DBaseLo (lastSeq_ (mem s))).
    split; [by apply list_lookup_insert_eq|]. split; [cbn; by rewrite Hl, lor_even|].
    split; [by cbn; destruct (mem s)|].
    cbn [drainers]. intros j dj Hj Hne. rewrite list_lookup_insert_ne in Hj by done.
    by eapply (Forall_lookup_1 _ _ _ _ Hall).
Qed.

Lemma sys_inv_step s e : sys_inv s -> sys_inv (sys_step w s e).
Proof.
  intros Hs. destruct e as [|i weak]; [by apply sys_inv_add|].
  destruct Hs as (n & m & ws & Hs). destruct (drainers s !! i) as [d|] eqn:Hd.
  2: { cbn [sys_step]. rewrite Hd. by exists n, m, ws. }
  destruct (critical d) eqn:Hc; [|by eapply sys_inv_outsider].
  destruct (si_claim _ _ _ _ Hs) as [(_ & _ & Hall)|(j & dj & Hj & Hl & Hi & Ho)].
  - by rewrite (Forall_lookup_1 _ _ _ _ Hall Hd) in Hc.
  - destruct (decide (i = j)) as [->|Hne]; [|by rewrite (Ho i d Hd Hne) in Hc].
    rewrite Hd in Hj. simplify_eq. by eapply sys_inv_holder.
Qed.

Lemma sys_inv_execute s es : sys_inv s -> sys_inv (execute w s es).
Proof.
  unfold execute. revert s. induction es as [|e es IH]; intros s Hs; [done|].
  simpl. by apply IH, sys_inv_step.
Qed.
End Invariant.

(** ** One operation alone *)

(** [addValue] and [reset] run step by step with nobody else in between. *)
Fixpoint add_solo (w : Z) (fuel : nat) (c : call) (t : series) (p : apc) : option series :=
  match fuel with
  | O => None
  | S fuel' =>
      match add_step w c t p with
      | (t', AIdle) => Some t'
      | (t', p') => add_solo w fuel' c t' p'
      end
  end.

Fixpoint drain_solo (w : Z) (fuel : nat) (t : series) (d : dpc) : option ((Z * Z) * series) :=
  match fuel with
  | O => None
  | S fuel' =>
      match drain_step w false t d with
      | (t', _, Some r) => Some (r, t')
      | (t', d', None) => drain_solo w fuel' t' d'
      end
  end.

Lemma in_flight_double b : in_flight (2 * b) = false.
Proof.
  unfold in_flight, kInFlight. change 1 with (Z.ones 1).
  by rewrite Z.land_ones, Z.mul_comm, Z.mod_mul by lia.
Qed.

Lemma unclaimed_double b : unclaimed (2 * b) = 2 * b.
Proof.
  unfold unclaimed, kInFlight. rewrite <- Z.ldiff_land. change 1 with (Z.ones 1).
  rewrite Z.ldiff_ones_r, Z.shiftl_mul_pow2, Z.shiftr_div_pow2 by lia.
  change (2 ^ 1) with 2. rewrite (Z.mul_comm 2 b), Z.div_mul by lia. lia.
Qed.

Lemma add_solo_addValue w c t : add_solo w 8 c t AIdle = Some (add_one w t c).
Proof.
  unfold add_one, addValue, block_for, makeSurplus, add. rewrite !addRaw_split.
  destruct t as [sl sq sh ls bl bh blk]. destruct c as [al v n].
  cbn [add_solo add_step c_count c_alloc c_value surplus_ seq_ sum_snap lo hi sumLo_ sumHi_].
  destruct (n =? 1); [|destruct blk as [b|]; [|unfold makeSurplus; destruct al]];
    rewrite ?addRaw_split; cbn -[wrapu addRaw_lo addRaw_wraps addRaw_hi Z.ltb count_addend sum_addend].
  all: unfold count_addend, sum_addend; cbn -[wrapu addRaw_lo addRaw_wraps addRaw_hi Z.ltb].
  all: repeat match goal with |- context [addRaw_wraps ?a ?b ?c] =>
         destruct (addRaw_wraps a b c) eqn:?; unfold count_addend, sum_addend;
         cbn -[wrapu addRaw_lo addRaw_wraps addRaw_hi Z.ltb] end.
  all: first [done | exfalso; unfold sum_addend in *; cbn -[wrapu addRaw_lo addRaw_wraps Z.ltb] in *; congruence].
Qed.

Lemma drain_solo_reset w t a b :
  seq_ t = 2 * a -> lastSeq_ t = 2 * b -> drain_solo w 20 t DIdle = Some (reset w t).
Proof.
  destruct t as [sl sq sh ls bl bh blk]. cbn [seq_ lastSeq_]. intros -> ->.
  unfold reset. cbn [drain_solo drain_step seq_ lastSeq_].
  rewrite unclaimed_double. destruct (Z.eqb_spec (2 * a) (2 * b)) as [E|E]; [done|].
  cbn [drain_solo drain_step seq_ lastSeq_]. rewrite in_flight_double, Z.eqb_refl.
  cbn [andb negb drain_solo drain_step set_lastSeq seq_ lastSeq_]. rewrite in_flight_double.
  cbn [drain_solo drain_step surplus_]. destruct blk as [blk|].
  all: cbn; rewrite Z.eqb_refl; done.
Qed.

Lemma drain_solo_execute w fuel s i d r t' :
  drainers s !! i = Some d -> drain_solo w fuel (mem s) d = Some (r, t') ->
  exists k, (k <= fuel)%nat /\
    execute w s (replicate k (EReset i false)) =
    Sys t' (todo s) (adder s) (<[i := DIdle]> (drainers s)) (log s ++ [r]).
Proof.
  revert s d. induction fuel as [|fuel IH]; intros s d Hd Hsolo; [done|].
  cbn [drain_solo] in Hsolo. destruct (drain_step w false (mem s) d) as [[t1 d1] o] eqn:E.
  assert (Hi : (i < length (drainers s))%nat) by (by eapply lookup_lt_Some).
  assert (Hstep : sys_step w s (EReset i false) =
    Sys t1 (todo s) (adder s) (<[i := d1]> (drainers s)) (match o with Some x => log s ++ [x] | None => log s end))
    by (cbn [sys_step]; by rewrite Hd, E).
  destruct o as [x|]; simplify_eq.
  - exists 1%nat. split; [lia|]. unfold execute. cbn [replicate foldl]. rewrite Hstep.
    replace d1 with DIdle; [done|]. destruct d; cbn [drain_step] in E; repeat case_match; by simplify_eq.
  - destruct (IH (sys_step w s (EReset i false)) d1) as (k & Hk & Hex).
    + rewrite Hstep. by apply list_lookup_insert_eq.
    + by rewrite Hstep.
    + exists (S k). split; [lia|]. unfold execute in *. cbn [replicate foldl]. rewrite Hex, Hstep.
      cbn [todo adder drainers log]. by rewrite list_insert_insert_eq.
Qed.

Lemma execute_drainers w s es : length (drainers (execute w s es)) = length (drainers s).
Proof.
  unfold execute. revert s. induction es as [|e es IH]; intros s; [done|]. simpl. rewrite IH.
  destruct e as [|i weak]; cbn [sys_step]; repeat case_match; try done; simpl; apply length_insert.
Qed.

(** ** Properties *)

(** C1: no schedule loses or double-counts an update.  One adder and any number
    of threads calling [reset], interleaved access by access: the pairs
    returned by the [reset]s, in the order they end, are the exact totals
    (clamped once) of consecutive windows of the calls completed, count and sum
    of each pair describing the same calls; what is in no window yet is a
    suffix of the completed calls. *)
Theorem resets_partition_updates (w : Z) (cs : list call) (readers : nat) (es : list event) :
  2 <= w <= 64 -> Forall (valid_call w) cs -> Z.of_nat (length cs) < 2 ^ 62 ->
  let s := execute w (start cs readers) es in
  exists ws rest, concat ws ++ rest ++ todo s = cs /\ log s = window_reports w false ws.
Proof.
  intros Hw Hv Hl s.
  destruct (sys_inv_execute w Hw cs Hv Hl _ es (sys_inv_start w cs readers)) as (n & m & ws & Hs).
  exists ws, (window cs m n). split; [|by apply Hs].
  destruct Hs as [H1 _ H3 _ H5 _ _]. fold s in H1. rewrite H1, H5, app_assoc.
  rewrite <- (take_window cs m n H3). apply take_drop.
Qed.

(** Two readers racing an 8-bit adder: the second call is under way while both
    read, one of them losing the claim. *)
Definition example_calls : list call := [Call true 100 1; Call true 100 3; Call true (-90) 1].
Definition example_schedule : list event :=
  replicate 5 EAdd ++ replicate 9 (EReset 0 false) ++ replicate 3 EAdd ++
  replicate 6 (EReset 1 false) ++ replicate 6 (EReset 0 false) ++ replicate 3 EAdd ++
  replicate 14 (EReset 0 false) ++ replicate 7 EAdd ++ replicate 18 (EReset 1 false).

Lemma resets_partition_updates_witness :
  (exists ws rest,
     concat ws ++ rest ++ todo (execute 8 (start example_calls 2) example_schedule) = example_calls /\
     log (execute 8 (start example_calls 2) example_schedule) = window_reports 8 false ws) /\
  log (execute 8 (start example_calls 2) example_schedule) = [(4, 127); (1, -90)].
Proof.
  split.
  - apply (resets_partition_updates 8 example_calls 2 example_schedule).
    + lia.
    + unfold example_calls, valid_call, in_s, smin, smax. repeat constructor; vm_compute; congruence.
    + vm_compute. reflexivity.
  - vm_compute. reflexivity.
Defined.

(** C30: nothing is lost.  From any reachable state in which no [addValue] is
    under way and no [reset] is running, one more [reset] run alone ends within
    20 accesses, and after it every completed call is in exactly one window. *)
Theorem quiescent_reset_reports_rest (w : Z) (cs : list call) (readers : nat) (es : list event) (i : nat) :
  2 <= w <= 64 -> Forall (valid_call w) cs -> Z.of_nat (length cs) < 2 ^ 62 -> (i < readers)%nat ->
  let s := execute w (start cs readers) es in
  adder s = AIdle -> Forall (eq DIdle) (drainers s) ->
  exists k ws,
    let s' := execute w s (replicate k (EReset i false)) in
    (k <= 20)%nat /\ length (log s') = S (length (log s)) /\
    log s' = window_reports w false ws /\ concat ws ++ todo s' = cs /\ todo s' = todo s.
Proof.
  intros Hw Hv Hl Hi s Ha Hd.
  assert (Hinv : sys_inv w cs s) by (by apply sys_inv_execute, sys_inv_start).
  assert (Hdi : drainers s !! i = Some DIdle).
  { destruct (lookup_lt_is_Some_2 (drainers s) i) as [d Hdi].
    - unfold s. rewrite execute_drainers. simpl. by rewrite length_replicate.
    - rewrite Hdi. by rewrite (Forall_lookup_1 _ _ _ _ Hd Hdi). }
  destruct Hinv as (n & m & ws & Hs). pose proof (si_adder _ _ _ _ _ _ Hs) as Hadder.
  rewrite Ha in Hadder. destruct Hadder as (Hseq & _).
  destruct (si_claim _ _ _ _ _ _ Hs) as [(Hlast & _)|(j & d & Hj & _ & Hc & _)].
  2: { by rewrite <- (Forall_lookup_1 _ _ _ _ Hd Hj) in Hc. }
  pose proof (drain_solo_reset w (mem s) (Z.of_nat n) (Z.of_nat m) Hseq Hlast) as Hsolo.
  destruct (reset w (mem s)) as [r t'] eqn:Er.
  destruct (drain_solo_execute w 20 s i DIdle r t' Hdi Hsolo) as (k & Hk & Hex).
  assert (Hinv' : sys_inv w cs (execute w s (replicate k (EReset i false))))
    by (by apply sys_inv_execute; [..|exists n, m, ws]).
  assert (Hend : lastSeq_ t' = seq_ t' /\ seq_ t' = seq_ (mem s)).
  { unfold reset in Er. rewrite Hlast in Er. change (even_seq m) with (2 * Z.of_nat m) in Er.
    rewrite unclaimed_double in Er.
    destruct (Z.eqb_spec (seq_ (mem s)) (2 * Z.of_nat m)); unfold drain in Er; simplify_eq;
      [unfold even_seq in *; lia|done]. }
  exists k. rewrite Hex in *. destruct Hinv' as (n' & m' & ws' & Hs'). exists ws'. cbn zeta.
  split; [done|]. cbn [log todo]. split; [by rewrite length_app; simpl; lia|].
  split; [by apply Hs'|]. split; [|done].
  pose proof (si_adder _ _ _ _ _ _ Hs') as Hadder'. cbn in Hadder'. rewrite Ha in Hadder'.
  destruct Hadder' as (Hseq' & _).
  destruct (si_claim _ _ _ _ _ _ Hs') as [(Hlast' & _)|(j & d & Hj & _ & Hc & _)].
  2: { cbn in Hj. apply (Forall_lookup_1 _ _ _ _ (Forall_insert _ _ i _ Hd eq_refl)) in Hj. by subst. }
  cbn in Hlast'. assert (m' = n') as Heq by (unfold even_seq in *; lia). subst m'.
  rewrite (si_windows _ _ _ _ _ _ Hs'). pose proof (si_todo _ _ _ _ _ _ Hs') as Ht. cbn [todo] in Ht.
  rewrite Ht. apply take_drop.
Qed.

Lemma quiescent_reset_reports_rest_witness :
  exists k ws,
    let s := execute 8 (start example_calls 2) example_schedule in
    let s' := execute 8 s (replicate k (EReset 1 false)) in
    (k <= 20)%nat /\ length (log s') = S (length (log s)) /\
    log s' = window_reports 8 false ws /\ concat ws ++ todo s' = example_calls /\ todo s' = todo s.
Proof.
  apply (quiescent_reset_reports_rest 8 example_calls 2 example_schedule 1).
  - lia.
  - unfold example_calls, valid_call, in_s, smin, smax. repeat constructor; vm_compute; congruence.
  - vm_compute. reflexivity.
  - lia.
  - vm_compute. reflexivity.
  - vm_compute. repeat constructor.
Defined.

(** The interleaved accesses, run alone, are the sequential member
    functions: stepping [addValue] gives [TLStatsThreadSafe.addValue], and
    stepping [reset] from even sequence numbers gives [TLStatsThreadSafe.reset],
    within 8 and 20 accesses. *)
Theorem solo_steps_are_sequential (w : Z) (c : call) (t : series) (a b : Z) :
  let t' := set_seq (2 * a) (set_lastSeq (2 * b) t) in
  add_solo w 8 c t AIdle = Some (addValue w (c_alloc c) (c_value c) (c_count c) t) /\
  drain_solo w 20 t' DIdle = Some (reset w t').
Proof. split; [apply add_solo_addValue|by apply (drain_solo_reset w _ a b)]. Qed.
