(* ===== verification/RegexUtil.v ===== *)
(** * RegexUtil: maps kept in step with a regex match cache

    [src/fb303/detail/RegexUtil.h] and [RegexUtil.cpp].  A synchronized map pairs
    a map from names with a [folly::RegexMatchCache] over those names.  folly's
    cache is not part of the repository: it is the class [RegexMatchCache] below,
    whose laws state what folly documents of it.  A key string is identified with
    its text: within one map the keys are distinct, and the code keeps the
    pointed-to string alive as long as the cache refers to it. *)
From S2P Require Import Prelude.
From Stdlib Require Import ZArith Lia String.
From stdpp Require Import base gmap sets list strings.

Open Scope Z_scope.
Open Scope fb303_scope.

(** ** What the code relies on of [folly::RegexMatchCache] *)
Class RegexMatchCache (M : Type) := {
  regex : Type;
  time_point : Type;
  matcher : Type;              (** [Matcher], a compiled pattern *)
  handle : Type;               (** [PrepareHandle], the queued work of one regex *)
  prepared : Type;             (** what [evaluate] returns *)

  regex_matches : regex -> string -> bool;
  compile : regex -> option matcher;          (** [None]: an invalid pattern throws *)
  empty_cache : M;
  addString : string -> SE M unit;            (** may throw [bad_alloc] *)
  eraseString : string -> M -> M;
  clear : M -> M;
  isReadyToFindMatches : regex -> M -> bool;
  prepareToFindMatches : regex -> SE M unit;
  initPrepareToFindMatches : matcher -> time_point -> M -> handle * M;
  evaluate : handle -> outcome prepared;
  finiPrepareToFindMatches : prepared -> M -> M;
  eraseRegex : regex -> M -> M;
  findMatchesUnsafe : regex -> time_point -> M -> list string;
  hasItemsToPurge : time_point -> M -> bool;
  purge : time_point -> M -> M;

  (** The universe of strings the cache holds. *)
  cache_strings : M -> gset string;
  cache_wf : M -> Prop;

  (** Laws. *)
  cl_empty : cache_wf empty_cache /\ cache_strings empty_cache = ∅;
  cl_add : forall s m, cache_wf m ->
    cache_wf (addString s m).2 /\
    match (addString s m).1 with
    | Ret _ => cache_strings (addString s m).2 = {[ s ]} ∪ cache_strings m
    | Throw _ => cache_strings (addString s m).2 = cache_strings m \/
                 cache_strings (addString s m).2 = {[ s ]} ∪ cache_strings m
    end;
  cl_erase : forall s m, cache_wf m ->
    cache_wf (eraseString s m) /\ cache_strings (eraseString s m) = cache_strings m ∖ {[ s ]};
  cl_clear : forall m, cache_wf m -> cache_wf (clear m) /\ cache_strings (clear m) = ∅;
  cl_prepare : forall r m, cache_wf m ->
    let m' := (prepareToFindMatches r m).2 in
    cache_wf m' /\ cache_strings m' = cache_strings m /\
    match (prepareToFindMatches r m).1 with
    | Ret _ => isReadyToFindMatches r m' = true
    | Throw _ => compile r = None
    end;
  cl_init : forall c now m, cache_wf m ->
    let m' := (initPrepareToFindMatches c now m).2 in
    cache_wf m' /\ cache_strings m' = cache_strings m;
  cl_fini : forall p m, cache_wf m ->
    cache_wf (finiPrepareToFindMatches p m) /\
    cache_strings (finiPrepareToFindMatches p m) = cache_strings m;
  cl_eraseRegex : forall r m, cache_wf m ->
    cache_wf (eraseRegex r m) /\ cache_strings (eraseRegex r m) = cache_strings m;
  cl_purge : forall t m, cache_wf m ->
    cache_wf (purge t m) /\ cache_strings (purge t m) = cache_strings m;
  cl_find : forall r now m, cache_wf m -> isReadyToFindMatches r m = true ->
    NoDup (findMatchesUnsafe r now m) /\
    forall s, s ∈ findMatchesUnsafe r now m <-> s ∈ cache_strings m /\ regex_matches r s = true
}.

(** ** A map with its cache *)
Module RegexUtil.
Section SyncMap.
Context {M V : Type} `{RegexMatchCache M}.

Record syncmap := SyncMap { map : gmap string V; matches : M }.

Definition with_map (m : gmap string V) (s : syncmap) : syncmap := SyncMap m (matches s).
Definition with_matches (c : M) (s : syncmap) : syncmap := SyncMap (map s) c.
Definition empty_syncmap : syncmap := SyncMap ∅ empty_cache.

(** [hasString] of the cache. *)
Definition hasString (k : string) (c : M) : bool := bool_decide (k ∈ cache_strings c).

(** [cachedAddString]: emplace, then register the key; a throw out of the cache
    rolls the map back unless the cache did take the string. *)
Definition cachedAddString (k : string) (v : V) : SE syncmap bool :=
  let* s := se_get in
  match map s !! k with
  | Some _ => se_ret false
  | None =>
      let '(r, c) := addString k (matches s) in
      match r with
      | Ret _ => se_put (SyncMap (<[k := v]> (map s)) c) >>> se_ret true
      | Throw e =>
          se_put (SyncMap (if hasString k c then <[k := v]> (map s) else map s) c) >>> se_throw e
      end
  end.

Definition cachedEraseString (k : string) (s : syncmap) : syncmap :=
  SyncMap (delete k (map s)) (eraseString k (matches s)).

Definition cachedClearStrings (s : syncmap) : syncmap := SyncMap ∅ (clear (matches s)).

(** [cachedFindMatchesCopyUnderSharedLock]: what is appended to [out]. *)
Definition cachedFindMatchesCopyUnderSharedLock (r : regex) (now : time_point) (s : syncmap)
  : list string := findMatchesUnsafe r now (matches s).

Definition lift_cache {A} (f : SE M A) : SE syncmap A :=
  fun s => let '(r, c) := f (matches s) in (r, with_matches c s).

(** [cachedFindMatches]; [gap] is what other threads do between two lock
    regions. *)
Definition cachedFindMatches (gap : syncmap -> syncmap) (r : regex) (now : time_point)
  : SE syncmap (list string) :=
  let* s := se_get in
  (if isReadyToFindMatches r (matches s) then se_ret tt
   else se_put (gap s) >>> lift_cache (prepareToFindMatches r)) >>>
  let* s := se_get in
  se_ret (cachedFindMatchesCopyUnderSharedLock r now s).

(** [cachedFindMatchesSnapshot]; [shared] is [sharedMatcher]; [gap0], [gap1] and
    [gap2] are what other threads do between its lock regions. *)
Definition cachedFindMatchesSnapshot (gap0 gap1 gap2 : syncmap -> syncmap)
    (r : regex) (now : time_point) (shared : option matcher)
  : SE syncmap (list string * option matcher) :=
  let* s := se_get in
  if isReadyToFindMatches r (matches s) then
    se_ret (cachedFindMatchesCopyUnderSharedLock r now s, shared)
  else
    let empty := bool_decide (map s = ∅) in
    se_put (gap0 s) >>>
    if empty then
      let* out := cachedFindMatches gap1 r now in se_ret (out, shared)
    else
      match match shared with Some c => Some c | None => compile r end with
      | None => se_throw (invalid_argument "regex")
      | Some c =>
          let* s := se_get in
          if isReadyToFindMatches r (matches s) then
            se_ret (cachedFindMatchesCopyUnderSharedLock r now s, Some c)
          else
            let '(h, m) := initPrepareToFindMatches c now (matches s) in
            se_put (gap1 (with_matches m s)) >>>
            match evaluate h with
            | Throw e =>
                let* s := se_get in
                (if isReadyToFindMatches r (matches s) then se_ret tt
                 else se_put (with_matches (eraseRegex r (matches s)) s)) >>>
                se_throw e
            | Ret p =>
                let* s := se_get in
                se_put (gap2 s) >>>
                let* s := se_get in
                se_put (with_matches (finiPrepareToFindMatches p (matches s)) s) >>>
                let* s := se_get in
                (if isReadyToFindMatches r (matches s) then se_ret tt
                 else lift_cache (prepareToFindMatches r)) >>>
                let* s := se_get in
                se_ret (cachedFindMatchesCopyUnderSharedLock r now s, Some c)
            end
      end.

Definition cachedTrimStale (expiry : time_point) (s : syncmap) : syncmap :=
  if hasItemsToPurge expiry (matches s) then with_matches (purge expiry (matches s)) s else s.

(** ** Lockstep: the cache's universe is the set of keys *)
Record lockstep (s : syncmap) : Prop := {
  ls_wf : cache_wf (matches s);
  ls_strings : cache_strings (matches s) = dom (map s)
}.

(** What other threads may do: keep the lockstep. *)
Definition respects (gap : syncmap -> syncmap) : Prop :=
  forall s, lockstep s -> lockstep (gap s).

(** The keys of [s] that match. *)
Definition matching (r : regex) (s : syncmap) (out : list string) : Prop :=
  NoDup out /\ forall k, k ∈ out <-> k ∈ dom (map s) /\ regex_matches r k = true.

Lemma lockstep_empty : lockstep empty_syncmap.
Proof. split; [apply cl_empty|]. simpl. rewrite (proj2 cl_empty). set_solver. Qed.

Lemma lockstep_add k v s : lockstep s -> lockstep (cachedAddString k v s).2.
Proof.
  intros [Hwf Hs]. unfold cachedAddString, se_get, se_put, se_bind, se_ret, se_throw.
  destruct (map s !! k) eqn:E; [by split|].
  pose proof (cl_add k (matches s) Hwf) as [Hwf' Hadd].
  destruct (addString k (matches s)) as [[?|e] c]; cbn [fst snd] in *.
  - split; simpl; [done|]. rewrite Hadd, Hs. set_solver.
  - split; simpl; [done|]. unfold hasString. case_bool_decide as Hk; destruct Hadd as [Ha|Ha];
      rewrite Ha, Hs in *; [|set_solver..]. set_solver.
Qed.

Lemma lockstep_erase k s : lockstep s -> lockstep (cachedEraseString k s).
Proof.
  intros [Hwf Hs]. destruct (cl_erase k (matches s) Hwf) as [Hwf' He].
  split; simpl; [done|]. rewrite He, Hs. set_solver.
Qed.

Lemma lockstep_clear s : lockstep s -> lockstep (cachedClearStrings s).
Proof.
  intros [Hwf Hs]. destruct (cl_clear (matches s) Hwf) as [Hwf' He].
  split; simpl; [done|]. rewrite He. set_solver.
Qed.

Lemma lockstep_matches c s :
  lockstep s -> cache_wf c -> cache_strings c = cache_strings (matches s) ->
  lockstep (with_matches c s).
Proof. intros [_ Hs] Hc He. split; simpl; [done|]. by rewrite He. Qed.

Lemma lockstep_trim t s : lockstep s -> lockstep (cachedTrimStale t s).
Proof.
  intros Hs. unfold cachedTrimStale. case_if; [|done].
  destruct (cl_purge t (matches s) (ls_wf s Hs)). by apply lockstep_matches.
Qed.

Lemma copy_matching r now s :
  lockstep s -> isReadyToFindMatches r (matches s) = true ->
  matching r s (cachedFindMatchesCopyUnderSharedLock r now s).
Proof.
  intros [Hwf Hs] Hr. destruct (cl_find r now (matches s) Hwf Hr) as [Hn Hf].
  split; [done|]. intros k. by rewrite Hf, Hs.
Qed.

(** [prepareToFindMatches] under the lock. *)
Lemma prepare_lockstep r s :
  lockstep s ->
  let '(o, s') := lift_cache (prepareToFindMatches r) s in
  lockstep s' /\
  match o with
  | Ret _ => isReadyToFindMatches r (matches s') = true
  | Throw _ => compile r = None
  end.
Proof.
  intros Hs. destruct (cl_prepare r (matches s) (ls_wf s Hs)) as (Hwf & Hstr & Hready).
  unfold lift_cache. destruct (prepareToFindMatches r (matches s)) as [o c]; cbn in *.
  split; [by apply lockstep_matches|done].
Qed.

(** The post-condition the finders share: matches of the final map, or a throw
    that leaves the lockstep alone. *)
Definition finds {A} (r : regex) (res : outcome A * syncmap) (out : A -> list string) : Prop :=
  lockstep res.2 /\ match res.1 with Ret a => matching r res.2 (out a) | Throw _ => True end.

Lemma cachedFindMatches_finds gap r now s :
  respects gap -> lockstep s -> finds r (cachedFindMatches gap r now s) id.
Proof.
  intros Hgap Hs. unfold cachedFindMatches, se_get, se_put, se_bind, se_ret.
  destruct (isReadyToFindMatches r (matches s)) eqn:E.
  - split; [done|]. by apply copy_matching.
  - pose proof (prepare_lockstep r (gap s) (Hgap s Hs)) as Hp.
    destruct (lift_cache (prepareToFindMatches r) (gap s)) as [[?|e] s'], Hp as [Hl Hr].
    + split; [done|]. by apply copy_matching.
    + by split.
Qed.

Lemma cachedFindMatchesSnapshot_finds gap0 gap1 gap2 r now shared s :
  respects gap0 -> respects gap1 -> respects gap2 -> lockstep s ->
  finds r (cachedFindMatchesSnapshot gap0 gap1 gap2 r now shared s) fst.
Proof.
  intros H0 H1 H2 Hs. unfold cachedFindMatchesSnapshot.
  unfold se_get at 1. unfold se_bind at 1.
  destruct (isReadyToFindMatches r (matches s)) eqn:E.
  { split; [done|]. by apply copy_matching. }
  unfold se_put at 1, se_bind at 1. specialize (H0 s Hs).
  destruct (bool_decide (map s = ∅)).
  { pose proof (cachedFindMatches_finds gap1 r now (gap0 s) H1 H0) as [Hl Hm].
    unfold se_bind. destruct (cachedFindMatches gap1 r now (gap0 s)) as [[out|e] s']; by split. }
  destruct (match shared with Some c => Some c | None => compile r end) as [c|]; [|by split].
  unfold se_get at 1, se_bind at 1. clear Hs E. set (s0 := gap0 s) in *.
  destruct (isReadyToFindMatches r (matches s0)) eqn:E.
  { split; [done|]. by apply copy_matching. }
  destruct (cl_init c now (matches s0) (ls_wf s0 H0)) as [Hiw His].
  destruct (initPrepareToFindMatches c now (matches s0)) as [h m]. cbn [snd] in Hiw, His.
  assert (Hs1 : lockstep (gap1 (with_matches m s0))) by (apply H1; by apply lockstep_matches).
  unfold se_put at 1, se_bind at 1. set (s1 := gap1 (with_matches m s0)) in *.
  destruct (evaluate h) as [p|e].
  2: { unfold se_bind, se_get, se_put, se_ret, se_throw. destruct (isReadyToFindMatches r (matches s1)); [by split|].
       split; [|done]. destruct (cl_eraseRegex r (matches s1) (ls_wf s1 Hs1)). by apply lockstep_matches. }
  unfold se_get at 1, se_bind at 1. unfold se_put at 1, se_bind at 1.
  specialize (H2 s1 Hs1). set (s2 := gap2 s1) in *.
  unfold se_get at 1, se_bind at 1. unfold se_put at 1, se_bind at 1. unfold se_get at 1, se_bind at 1.
  destruct (cl_fini p (matches s2) (ls_wf s2 H2)).
  assert (Hs3 : lockstep (with_matches (finiPrepareToFindMatches p (matches s2)) s2)) by (by apply lockstep_matches).
  set (s3 := with_matches _ s2) in *.
  destruct (isReadyToFindMatches r (matches s3)) eqn:E3.
  { split; [done|]. by apply copy_matching. }
  pose proof (prepare_lockstep r s3 Hs3) as Hp. unfold se_bind.
  destruct (lift_cache (prepareToFindMatches r) s3) as [[?|e] s'], Hp as [Hl Hr].
  - split; [done|]. by apply copy_matching.
  - by split.
Qed.

(** Alone, a lookup changes the cache only. *)
Lemma lift_cache_map {A} (f : SE M A) s : map (lift_cache f s).2 = map s.
Proof. unfold lift_cache. by destruct (f (matches s)). Qed.

Lemma cachedFindMatches_map gap r now s :
  (forall s, map (gap s) = map s) -> map (cachedFindMatches gap r now s).2 = map s.
Proof.
  intros Hg. unfold cachedFindMatches, se_get, se_put, se_bind, se_ret.
  case_if; [done|]. pose proof (lift_cache_map (prepareToFindMatches r) (gap s)) as Hl.
  rewrite Hg in Hl. by destruct (lift_cache _ (gap s)) as [[?|?] ?].
Qed.

Lemma cachedFindMatchesSnapshot_map gap0 gap1 gap2 r now shared s :
  (forall s, map (gap0 s) = map s) -> (forall s, map (gap1 s) = map s) ->
  (forall s, map (gap2 s) = map s) ->
  map (cachedFindMatchesSnapshot gap0 gap1 gap2 r now shared s).2 = map s.
Proof.
  intros H0 H1 H2. unfold cachedFindMatchesSnapshot, se_get, se_put, se_bind, se_ret, se_throw.
  destruct (isReadyToFindMatches r (matches s)); [done|].
  destruct (bool_decide _).
  { pose proof (cachedFindMatches_map gap1 r now (gap0 s) H1) as Hl. rewrite H0 in Hl.
    by destruct (cachedFindMatches gap1 r now (gap0 s)) as [[?|?] ?]. }
  destruct (match shared with Some c => Some c | None => compile r end) as [c|]; [|by simpl; rewrite H0].
  destruct (isReadyToFindMatches r (matches (gap0 s))); [by simpl; rewrite H0|].
  destruct (initPrepareToFindMatches c now (matches (gap0 s))) as [h m].
  destruct (evaluate h) as [p|e].
  - case_if; simpl; [by rewrite H2, H1; simpl; rewrite H0|].
    set (s3 := with_matches _ _).
    pose proof (lift_cache_map (prepareToFindMatches r) s3) as Hl.
    assert (Hs3 : map s3 = map s) by (unfold s3; simpl; rewrite H2, H1; simpl; by rewrite H0).
    rewrite Hs3 in Hl. by destruct (lift_cache _ s3) as [[?|?] ?].
  - case_if; simpl; by rewrite H1; simpl; rewrite H0.
Qed.
End SyncMap.
End RegexUtil.

(** ** A cache that satisfies the laws

    Patterns are prefixes, "*" being invalid; a regex is ready until the next
    [addString]. *)
Module PrefixCache.
Record cache := Cache { strings : gset string; ready : list string }.

Definition find (r : string) (c : cache) : list string :=
  List.filter (String.prefix r) (elements (strings c)).
Definition valid (r : string) : bool := negb (String.eqb r "*").

#[local] Obligation Tactic := idtac.

#[export] Program Instance prefix_cache : RegexMatchCache cache := {|
  regex := string;
  time_point := Z;
  matcher := string;
  handle := string;
  prepared := string;
  regex_matches := String.prefix;
  compile r := if valid r then Some r else None;
  empty_cache := Cache ∅ [];
  addString s := fun m => (Ret tt, Cache ({[ s ]} ∪ strings m) []);
  eraseString s m := Cache (strings m ∖ {[ s ]}) (ready m);
  clear m := Cache ∅ (ready m);
  isReadyToFindMatches r m := bool_decide (r ∈ ready m);
  prepareToFindMatches r := fun m =>
    if valid r then (Ret tt, Cache (strings m) (r :: ready m))
    else (Throw (invalid_argument "regex"), Cache (strings m) []);
  initPrepareToFindMatches c now m := (c, m);
  evaluate h := Ret h;
  finiPrepareToFindMatches p m := m;
  eraseRegex r m := Cache (strings m) (List.filter (fun x => negb (String.eqb x r)) (ready m));
  findMatchesUnsafe r now m := find r m;
  hasItemsToPurge now m := negb (bool_decide (ready m = []));
  purge now m := Cache (strings m) [];
  cache_strings := strings;
  cache_wf _ := True
|}.
Solve Obligations with (intros; simpl; first [done | split; [done|]; set_solver | idtac]).
Next Obligation.
  intros r m _. simpl. destruct (valid r) eqn:E; simpl.
  - split; [done|]. split; [done|]. apply bool_decide_eq_true. left.
  - done.
Qed.
Next Obligation.
  intros r now m _ _. unfold find. split.
  - apply (sublist_NoDup _ _ (NoDup_elements (strings m))).
    induction (elements (strings m)) as [|x l IH]; simpl; [done|]. by destruct (String.prefix r x); constructor.
  - intros s. rewrite <- !elem_of_elements, !list_elem_of_In, filter_In. done.
Qed.
End PrefixCache.

(** ** Properties *)

(** C29: a regex lookup is exact whatever other threads do.  If the cache's
    universe and the keys of the map agree, then whatever lockstep-preserving
    operations (registrations, removals, clears, purges) run in the gaps between
    the lock regions of [cachedFindMatchesSnapshot], the names it returns are
    exactly the keys that match in the map as it is when the call returns,
    without duplicates, and the lockstep still holds, also when the pattern is
    invalid or the scan throws. *)
Theorem regex_lookup_exact {M V} `{RegexMatchCache M}
    (gap0 gap1 gap2 : RegexUtil.syncmap (M := M) (V := V) -> RegexUtil.syncmap)
    (r : regex) (now : time_point) (shared : option matcher) (s : RegexUtil.syncmap) :
  RegexUtil.respects gap0 -> RegexUtil.respects gap1 -> RegexUtil.respects gap2 ->
  RegexUtil.lockstep s ->
  let '(res, s') := RegexUtil.cachedFindMatchesSnapshot gap0 gap1 gap2 r now shared s in
  RegexUtil.lockstep s' /\
  match res with
  | Ret (out, _) =>
      NoDup out /\ forall k, k ∈ out <-> k ∈ dom (RegexUtil.map s') /\ regex_matches r k = true
  | Throw _ => True
  end.
Proof.
  intros H0 H1 H2 Hs.
  pose proof (RegexUtil.cachedFindMatchesSnapshot_finds gap0 gap1 gap2 r now shared s H0 H1 H2 Hs) as Hf.
  destruct (RegexUtil.cachedFindMatchesSnapshot gap0 gap1 gap2 r now shared s) as [[[out c]|e] s']; apply Hf.
Qed.

(** A key that arrives while the scan runs off the lock. *)
Section Example_.
Import PrefixCache RegexUtil.
Definition example_map : syncmap (M := cache) (V := nat) :=
  (cachedAddString "net.rx" 1%nat (cachedAddString "cpu" 0%nat empty_syncmap).2).2.
Definition arrive (s : syncmap (M := cache) (V := nat)) : syncmap := (cachedAddString "net.tx" 2%nat s).2.

Definition net : @regex cache _ := "net"%string.
Definition noon : @time_point cache _ := 5.

Lemma regex_lookup_exact_witness :
  let '(res, s') := cachedFindMatchesSnapshot id arrive (cachedEraseString "net.rx") net noon None example_map in
  lockstep s' /\
  match res with
  | Ret (out, _) =>
      NoDup out /\ forall k, k ∈ out <-> k ∈ dom (map s') /\ regex_matches net k = true
  | Throw _ => True
  end.
Proof.
  apply (regex_lookup_exact (M := cache) id arrive (cachedEraseString "net.rx") net noon None example_map).
  - intros s Hs. exact Hs.
  - intros s Hs. apply lockstep_add, Hs.
  - intros s Hs. apply lockstep_erase, Hs.
  - apply lockstep_add, lockstep_add, lockstep_empty.
Defined.
End Example_.
