(* ===== verification/CallbackValuesMap.v ===== *)
(** * CallbackValuesMap: named callbacks in 128 shards

    [src/fb303/CallbackValuesMap.h] and [CallbackValuesMap-inl.h].  Entries are
    shared ([std::shared_ptr<CallbackEntry>]) and outlive their registration, so
    they live in a store of their own and the shards hold their addresses.  A
    callback is run with no lock held and may change anything, this map included:
    [invoke] acts on the whole state. *)
From S2P Require Import Prelude RegexUtil.
From Stdlib Require Import ZArith Lia String.
From stdpp Require Import base gmap sets list strings sorting.

Open Scope Z_scope.
Open Scope fb303_scope.

Module CallbackValuesMap.
Section Model.
Context {T Cb W M : Type} `{RegexMatchCache M}.
(** [twang_mix64(Hash{}(name))] of folly. *)
Context (hash : string -> Z).

(** ** State *)
Record CallbackEntry := Entry { name_ : string; callback_ : option Cb }.
Abbreviation ptr := nat (only parsing).
Abbreviation shard := (RegexUtil.syncmap (M := M) (V := ptr)).

Record cvm := CVM {
  callbackMaps_ : list shard;
  entries : gmap ptr CallbackEntry;      (** the live [CallbackEntry] objects *)
  next_entry : ptr
}.

Definition kNumShards : nat := 128.
Definition getShard (name : string) : nat := Z.to_nat (hash name mod Z.of_nat kNumShards).
Definition make : cvm := CVM (replicate kNumShards RegexUtil.empty_syncmap) ∅ O.

Definition with_maps (l : list shard) (s : cvm) : cvm := CVM l (entries s) (next_entry s).
Definition with_entries (h : gmap ptr CallbackEntry) (s : cvm) : cvm :=
  CVM (callbackMaps_ s) h (next_entry s).

(** Run [f] on one shard. *)
Definition on_shard {A} (i : nat) (f : SE shard A) : SE cvm A :=
  fun s => match callbackMaps_ s !! i with
           | None => (Throw undefined_behaviour, s)
           | Some sm => let '(r, sm') := f sm in (r, with_maps (<[i := sm']> (callbackMaps_ s)) s)
           end.

Definition find_in (i : nat) (name : string) : SE cvm (option ptr) :=
  on_shard i (fun sm => (Ret (RegexUtil.map sm !! name), sm)).

(** ** [CallbackEntry] *)
Definition new_entry (name : string) (cob : Cb) : SE cvm ptr :=
  let* s := se_get in
  se_put (CVM (callbackMaps_ s) (<[next_entry s := Entry name (Some cob)]> (entries s))
              (S (next_entry s))) >>>
  se_ret (next_entry s).

Definition entry_clear (p : ptr) : SE cvm unit :=
  let* s := se_get in
  match entries s !! p with
  | None => se_throw undefined_behaviour
  | Some e => se_put (with_entries (<[p := Entry (name_ e) None]> (entries s)) s)
  end.

(** ** Operations that run no callback *)
Definition getCallback (name : string) : SE cvm (option ptr) := find_in (getShard name) name.

Definition contains (name : string) : SE cvm bool :=
  let* p := find_in (getShard name) name in
  se_ret (match p with Some _ => true | None => false end).

(** The shards in order; the order inside a shard is the set's own. *)
Definition getKeys (s : cvm) : list string :=
  List.flat_map (fun sm => (map_to_list (RegexUtil.map sm)).*1) (callbackMaps_ s).

Definition getNumKeys (s : cvm) : nat :=
  foldl (fun size sm => (size + base.size (RegexUtil.map sm))%nat) O (callbackMaps_ s).

Definition registerCallback (name : string) (cob : Cb) (overwrite : bool) : SE cvm unit :=
  let i := getShard name in
  let* present := contains name in
  if negb overwrite && present then se_ret tt
  else
    let* iter := find_in i name in
    match iter with
    | Some _ =>
        if negb overwrite then se_ret tt
        else
          let* entry := new_entry name cob in
          on_shard i (fun sm => (Ret tt, RegexUtil.cachedEraseString name sm)) >>>
          let* inserted := on_shard i (RegexUtil.cachedAddString name entry) in
          if inserted : bool then se_ret tt else se_throw check_failed
    | None =>
        let* entry := new_entry name cob in
        let* inserted := on_shard i (RegexUtil.cachedAddString name entry) in
        if inserted : bool then se_ret tt else se_throw check_failed
    end.

Definition unregisterCallback (name : string) : SE cvm bool :=
  let i := getShard name in
  let* iter := find_in i name in
  match iter with
  | None => se_ret false
  | Some callback =>
      on_shard i (fun sm => (Ret tt, RegexUtil.cachedEraseString name sm)) >>>
      entry_clear callback >>> se_ret true
  end.

Fixpoint clear_entries (ps : list ptr) : SE cvm unit :=
  match ps with
  | [] => se_ret tt
  | p :: ps' => entry_clear p >>> clear_entries ps'
  end.

(** One turn of the loop of [clear]. *)
Definition clear_shard (i : nat) : SE cvm unit :=
  let* ps := on_shard i (fun sm => (Ret (map_to_list (RegexUtil.map sm)).*2, sm)) in
  clear_entries ps >>>
  on_shard i (fun sm => (Ret tt, RegexUtil.cachedClearStrings sm)).

Fixpoint clear_shards (ix : list nat) : SE cvm unit :=
  match ix with
  | [] => se_ret tt
  | i :: ix' => clear_shard i >>> clear_shards ix'
  end.
Definition clear : SE cvm unit := clear_shards (seq 0 kNumShards).

(** [getRegexKeys]: the matcher compiled for one shard serves the next ones;
    [gaps] is what other threads do between the lock regions. *)
Fixpoint regex_keys_from (gaps : nat -> shard -> shard) (r : regex) (now : time_point)
    (shared : option matcher) (ix : list nat) : SE cvm (list string) :=
  match ix with
  | [] => se_ret []
  | i :: ix' =>
      let* found := on_shard i
        (RegexUtil.cachedFindMatchesSnapshot (gaps 0%nat) (gaps 1%nat) (gaps 2%nat) r now shared) in
      let* keys := regex_keys_from gaps r now found.2 ix' in
      se_ret (found.1 ++ keys)
  end.
Definition getRegexKeys (gaps : nat -> shard -> shard) (r : regex) (now : time_point)
  : SE cvm (list string) := regex_keys_from gaps r now None (seq 0 kNumShards).

Definition trimRegexCache (expiry : time_point) (s : cvm) : cvm :=
  with_maps (RegexUtil.cachedTrimStale expiry <$> callbackMaps_ s) s.

(** ** Reading values *)

(** A callback acts on the map and on the rest of the program. *)
Abbreviation state := (cvm * W)%type.
Context (invoke : Cb -> SE state T).

Definition entry_getValue (p : ptr) : SE state (option T) :=
  let* s := se_get in
  match entries s.1 !! p with
  | None => se_throw undefined_behaviour
  | Some e =>
      match callback_ e with
      | None => se_ret None
      | Some cb => let* v := invoke cb in se_ret (Some v)
      end
  end.

Definition on_map {A} (f : SE cvm A) : SE state A :=
  fun s => let '(r, m) := f s.1 in (r, (m, s.2)).

(** [getValue]: [None] is false. *)
Definition getValue (name : string) : SE state (option T) :=
  let* entry := on_map (getCallback name) in
  match entry with
  | None => se_ret None
  | Some p => entry_getValue p
  end.

(** *** The merge of [getValues]

    [output] is the caller's map: what was written before a throw stays. *)
Abbreviation run := (list (string * ptr)).

(** [std::make_heap] leaves the arrangement open and [folly::down_heap] is not
    part of the repository: both take the comparison and the range. *)
Context (make_heap down_heap : (run -> run -> bool) -> list run -> list run).

(** [cmp]: [a.front().name > b.front().name]. *)
Definition cmp (a b : run) : bool :=
  match a, b with
  | x :: _, y :: _ => bool_decide (str_lt y.1 x.1)
  | _, _ => false
  end.

(** The end of a turn: advance the front run, drop it when exhausted, re-sift. *)
Definition drop_front (heap : list run) : list run :=
  match heap with
  | [] => []
  | r :: rest =>
      match tail r with
      | [] => match last rest with None => [] | Some b => b :: removelast rest end
      | r' => r' :: rest
      end
  end.
Definition advance (heap : list run) : list run := down_heap cmp (drop_front heap).

Definition write_output (name : string) (v : T) : SE (state * gmap string T) unit :=
  fun s => (Ret tt, (s.1, <[name := v]> s.2)).
Definition on_state {A} (f : SE state A) : SE (state * gmap string T) A :=
  fun s => let '(r, st) := f s.1 in (r, (st, s.2)).

(** [entry->name()] of a live entry. *)
Definition entry_name (p : ptr) : SE state string :=
  let* s := se_get in
  match entries s.1 !! p with
  | None => se_throw undefined_behaviour
  | Some e => se_ret (name_ e)
  end.

Definition visit_entry (e : string * ptr) : SE (state * gmap string T) unit :=
  let* result := on_state (entry_getValue e.2) in
  match result with
  | None => se_ret tt
  | Some v => let* name := on_state (entry_name e.2) in write_output name v
  end.

Fixpoint merge (fuel : nat) (heap : list run) : SE (state * gmap string T) unit :=
  match heap with
  | [] => se_ret tt
  | r :: _ =>
      match fuel, r with
      | O, _ => se_throw out_of_fuel
      | _, [] => se_throw undefined_behaviour       (** [front()] of an empty span *)
      | S fuel', e :: _ => visit_entry e >>> merge fuel' (advance heap)
      end
  end.

Definition total_length (shards : list run) : nat := list_sum (length <$> shards).

Definition invokeAndMergeInto (shards : list run) : SE (state * gmap string T) unit :=
  let heap := make_heap cmp (List.filter (fun r => negb (bool_decide (r = []))) shards) in
  merge (total_length shards) heap.

(** The sorted snapshot of each shard. *)
Definition snapshot (s : cvm) : list run :=
  (fun sm => sort_by_key (map_to_list (RegexUtil.map sm))) <$> callbackMaps_ s.

Definition getValues : SE (state * gmap string T) unit :=
  let* s := se_get in invokeAndMergeInto (snapshot s.1.1).
End Model.

Arguments cvm : clear implicits.
Arguments CallbackEntry : clear implicits.
End CallbackValuesMap.
