(* ===== verification/CallbackMerge.v ===== *)
(** * CallbackMerge: the k-way merge of [getValues] visits names in order

    The heap of runs of [detail::invokeAndMergeInto] ([CallbackValuesMap-inl.h]),
    for any [make_heap] and [down_heap] that build a heap. *)
From S2P Require Import Prelude RegexUtil CallbackValuesMap.
From Stdlib Require Import ZArith Lia String.
From stdpp Require Import base gmap sets list strings sorting.
Import CallbackValuesMap.

Open Scope nat_scope.
Open Scope fb303_scope.

(** ** Binary heaps of runs *)

(** [a] does not come after [b]; [cmp a b] is "a comes after b". *)
Definition not_after (a b : list (string * nat)) : Prop := cmp a b = false.

(** Above index [k], no child comes before its parent. *)
Definition heap_above (k : nat) (h : list (list (string * nat))) : Prop :=
  forall i x y, k <= i / 2 -> h !! (S i) = Some x -> h !! (i / 2) = Some y -> not_after y x.
Definition is_heap := heap_above 0.

Definition nonempty_runs (h : list (list (string * nat))) : Prop := Forall (fun r => r <> []) h.

(** What [std::make_heap] and [folly::down_heap] promise. *)
Class HeapOps (make_heap down_heap :
    (list (string * nat) -> list (string * nat) -> bool) ->
    list (list (string * nat)) -> list (list (string * nat))) : Prop := {
  make_heap_permutation : forall h, make_heap cmp h ≡ₚ h;
  make_heap_heap : forall h, nonempty_runs h -> is_heap (make_heap cmp h);
  down_heap_permutation : forall h, down_heap cmp h ≡ₚ h;
  down_heap_heap : forall h, nonempty_runs h -> heap_above 1 h -> is_heap (down_heap cmp h)
}.

Lemma not_after_trans a b c : b <> [] -> not_after a b -> not_after b c -> not_after a c.
Proof.
  unfold not_after, cmp. destruct a as [|x a], b as [|y b], c as [|z c]; try done.
  intros _ H1%bool_decide_eq_false%str_not_lt H2%bool_decide_eq_false%str_not_lt.
  apply bool_decide_eq_false, str_not_lt. by etrans.
Qed.

(** The front of a heap comes before everything. *)
Lemma heap_front h r i x :
  nonempty_runs h -> is_heap h -> h !! 0 = Some r -> h !! i = Some x -> not_after r x.
Proof.
  intros Hne Hh Hr. revert x. induction i as [i IH] using lt_wf_ind. intros x Hx.
  destruct i as [|i].
  - rewrite Hr in Hx. injection Hx as <-. unfold not_after, cmp. destruct r; [done|].
    apply bool_decide_eq_false, (irreflexivity str_lt).
  - assert (Hlt : i / 2 < S i) by (apply Nat.lt_succ_r, Nat.Div0.div_le_upper_bound; lia).
    destruct (lookup_lt_is_Some_2 h (i / 2)) as [y Hy].
    { apply lookup_lt_Some in Hx. lia. }
    apply (not_after_trans r y x).
    + by apply (Forall_lookup_1 _ _ _ _ Hne Hy).
    + by apply (IH (i / 2)).
    + apply (Hh i); [lia|done|done].
Qed.

(** Replacing the front, or taking the last run to the front, disturbs only the
    front. *)
Lemma heap_above_front k r r' rest : heap_above k (r :: rest) -> heap_above (Nat.max 1 k) (r' :: rest).
Proof.
  intros Hh i x y Hk Hx Hy. apply (Hh i); [lia|done|].
  destruct (i / 2) as [|j]; [lia|done].
Qed.

Lemma heap_above_prefix k h1 h2 : heap_above k (h1 ++ h2) -> heap_above k h1.
Proof. intros Hh i x y Hk Hx Hy. by apply (Hh i); [done|apply lookup_app_l_Some..]. Qed.

Lemma drop_front_heap h : is_heap h -> heap_above 1 (drop_front h).
Proof.
  intros Hh. destruct h as [|r rest]; [done|]. simpl. destruct (tail r) as [|e r'] eqn:Et.
  - destruct (last rest) as [b|] eqn:El; [|done].
    apply last_Some in El as [l ->]. rewrite removelast_last.
    apply (heap_above_front 0 r). apply (heap_above_prefix 0 (r :: l) [b]). done.
  - by apply (heap_above_front 0 r).
Qed.

Lemma drop_front_concat e r rest : e :: concat (drop_front ((e :: r) :: rest)) ≡ₚ concat ((e :: r) :: rest).
Proof.
  simpl. constructor. destruct r as [|e' r']; [|done].
  destruct (last rest) as [b|] eqn:El.
  - apply last_Some in El as [l ->]. rewrite removelast_last. simpl.
    rewrite concat_app. simpl. rewrite app_nil_r. apply Permutation_app_comm.
  - by apply last_None in El as ->.
Qed.

Lemma drop_front_Forall (P : list (string * nat) -> Prop) r rest :
  Forall P rest -> (tail r <> [] -> P (tail r)) -> Forall P (drop_front (r :: rest)).
Proof.
  intros Hrest Hr. simpl. destruct (tail r) as [|e r']; [|constructor; auto].
  destruct (last rest) as [b|] eqn:El; [|done].
  apply last_Some in El as [l ->]. rewrite removelast_last.
  apply Forall_app in Hrest as [Hl Hb]. constructor; [by inversion Hb|done].
Qed.

(** ** The order of the merge *)
Section Merge.
Context (make_heap down_heap :
    (list (string * nat) -> list (string * nat) -> bool) ->
    list (list (string * nat)) -> list (list (string * nat))).
Context `{HeapOps make_heap down_heap}.

Fixpoint merge_order (fuel : nat) (heap : list (list (string * nat))) : list (string * nat) :=
  match fuel, heap with
  | S fuel', (e :: _) :: _ => e :: merge_order fuel' (advance down_heap heap)
  | _, _ => []
  end.

(** The heap between two turns. *)
Record merging (h : list (list (string * nat))) : Prop := {
  mg_nonempty : nonempty_runs h;
  mg_sorted : Forall (StronglySorted key_lt) h;
  mg_heap : is_heap h;
  mg_names : NoDup (concat h).*1
}.

Lemma concat_Permutation (l1 l2 : list (list (string * nat))) : l1 ≡ₚ l2 -> concat l1 ≡ₚ concat l2.
Proof. intros Hp. by rewrite Hp. Qed.

Lemma advance_concat e r rest :
  e :: concat (advance down_heap ((e :: r) :: rest)) ≡ₚ concat ((e :: r) :: rest).
Proof.
  unfold advance. rewrite <- (drop_front_concat e r rest). constructor.
  apply concat_Permutation, down_heap_permutation.
Qed.

Lemma advance_merging e r rest :
  merging ((e :: r) :: rest) -> merging (advance down_heap ((e :: r) :: rest)).
Proof.
  intros [Hne Hs Hh Hn]. apply Forall_cons in Hne as [_ Hne]. apply Forall_cons in Hs as [Hsr Hs].
  unfold advance. assert (Hne' : nonempty_runs (drop_front ((e :: r) :: rest))) by by apply drop_front_Forall.
  split.
  - unfold nonempty_runs. by rewrite down_heap_permutation.
  - rewrite down_heap_permutation. apply drop_front_Forall; [done|].
    intros _. by inversion Hsr.
  - by apply down_heap_heap, drop_front_heap.
  - assert (Hp : e :: concat (advance down_heap ((e :: r) :: rest)) ≡ₚ concat ((e :: r) :: rest))
      by apply advance_concat.
    rewrite <- Hp in Hn. by apply NoDup_cons in Hn as [_ Hn].
Qed.

(** The front entry precedes every other entry of the heap. *)
Lemma merging_front e r rest x :
  merging ((e :: r) :: rest) -> x ∈ concat (advance down_heap ((e :: r) :: rest)) -> key_lt e x.
Proof.
  intros Hm Hx. pose proof (advance_concat e r rest) as Hp.
  assert (Hne : e.1 <> x.1).
  { intros E. pose proof (mg_names _ Hm) as Hn. rewrite <- Hp in Hn.
    apply NoDup_cons in Hn as [Hn _]. apply Hn. rewrite E. by apply list_elem_of_fmap_2. }
  assert (Hin : x ∈ concat ((e :: r) :: rest)) by (rewrite <- Hp; by right).
  apply list_elem_of_In, in_concat in Hin as (run & Hrun & Hxr).
  apply list_elem_of_In, list_elem_of_lookup in Hrun as [i Hi]. apply list_elem_of_In in Hxr.
  apply str_le_lt; [done|].
  pose proof (heap_front _ _ i run (mg_nonempty _ Hm) (mg_heap _ Hm) eq_refl Hi) as Hf.
  pose proof (Forall_lookup_1 _ _ _ _ (mg_sorted _ Hm) Hi) as Hs.
  destruct run as [|y run]; [by apply not_elem_of_nil in Hxr|].
  assert (Hey : str_le e.1 y.1).
  { unfold not_after, cmp in Hf. by apply bool_decide_eq_false, str_not_lt in Hf. }
  apply elem_of_cons in Hxr as [->|Hxr]; [done|]. etrans; [done|].
  apply StronglySorted_inv in Hs as [_ Hs]. rewrite Forall_forall in Hs. right. by apply Hs.
Qed.

Lemma merge_order_spec fuel h :
  merging h -> length (concat h) <= fuel ->
  StronglySorted key_lt (merge_order fuel h) /\ merge_order fuel h ≡ₚ concat h.
Proof.
  revert h. induction fuel as [|fuel IH]; intros h Hm Hf.
  { destruct (concat h) eqn:E; [|simpl in *; lia]. split; [constructor|done]. }
  destruct h as [|[|e r] rest]; simpl; [split; [constructor|done]| |].
  { pose proof (mg_nonempty _ Hm) as Hne. by apply Forall_cons in Hne as [? _]. }
  pose proof (advance_concat e r rest) as Hp. pose proof (Permutation_length Hp) as Hl.
  destruct (IH (advance down_heap ((e :: r) :: rest)) (advance_merging e r rest Hm)) as [Hs Hq].
  { simpl in *. lia. }
  split.
  - constructor; [done|]. apply Forall_forall. intros x Hx. apply (merging_front e r rest); [done|].
    by rewrite <- Hq.
  - rewrite Hq. exact Hp.
Qed.
End Merge.
