(* ===== verification/CallbackRegistry.v ===== *)
(** * CallbackRegistry: the sharded map is a registry of callbacks

    The invariant of [CallbackValuesMap], its abstraction to a finite map from
    names to callbacks, the effect of every operation on it, and what [getValues]
    visits. *)
From S2P Require Import Prelude RegexUtil CallbackValuesMap CallbackMerge.
From Stdlib Require Import ZArith Lia String.
From stdpp Require Import base gmap sets list strings sorting.
Import CallbackValuesMap.

Open Scope Z_scope.
Open Scope fb303_scope.

Section Registry.
Context {T Cb W M : Type} `{RegexMatchCache M} (hash : string -> Z).
Abbreviation cvm := (CallbackValuesMap.cvm Cb M).
Abbreviation getShard := (CallbackValuesMap.getShard hash).

Definition registered (s : cvm) (n : string) (p : nat) : Prop :=
  exists sm, callbackMaps_ s !! getShard n = Some sm /\ RegexUtil.map sm !! n = Some p.

Record wf (s : cvm) : Prop := {
  wf_shards : length (callbackMaps_ s) = kNumShards;
  wf_lockstep : Forall RegexUtil.lockstep (callbackMaps_ s);
  wf_shard : forall i sm n p,
    callbackMaps_ s !! i = Some sm -> RegexUtil.map sm !! n = Some p ->
    getShard n = i /\ exists cb, entries s !! p = Some (Entry n (Some cb));
  wf_fresh : forall p, is_Some (entries s !! p) -> (p < next_entry s)%nat
}.

(** The callback a name stands for. *)
Definition lookup_cb (s : cvm) (n : string) : option Cb :=
  sm ← callbackMaps_ s !! getShard n;
  p ← RegexUtil.map sm !! n;
  e ← entries s !! p;
  callback_ e.

Definition represents_registry (s : cvm) (r : gmap string Cb) : Prop :=
  forall n, lookup_cb s n = r !! n.

Lemma getShard_bound n : (getShard n < kNumShards)%nat.
Proof.
  unfold CallbackValuesMap.getShard, kNumShards.
  pose proof (Z.mod_pos_bound (hash n) (Z.of_nat 128)). lia.
Qed.

Lemma shard_of s n : wf s -> exists sm, callbackMaps_ s !! getShard n = Some sm.
Proof.
  intros Hs. apply lookup_lt_is_Some_2. rewrite (wf_shards s Hs). apply getShard_bound.
Qed.

Lemma lookup_cb_shard s n sm :
  wf s -> callbackMaps_ s !! getShard n = Some sm ->
  match RegexUtil.map sm !! n with
  | None => lookup_cb s n = None
  | Some p => exists cb, entries s !! p = Some (Entry n (Some cb)) /\ lookup_cb s n = Some cb
  end.
Proof.
  intros Hs Hsm. unfold lookup_cb. rewrite Hsm. simpl.
  destruct (RegexUtil.map sm !! n) as [p|] eqn:E; [|done]. simpl.
  destruct (wf_shard s Hs _ _ _ _ Hsm E) as [_ [cb Hp]]. exists cb. by rewrite Hp.
Qed.

Lemma registry_wf_make : wf (make (Cb := Cb) (M := M)).
Proof.
  split; cbn [make callbackMaps_ entries next_entry].
  - by rewrite length_replicate.
  - apply Forall_replicate, RegexUtil.lockstep_empty.
  - intros i sm n p Hi Hn. apply lookup_replicate in Hi as [-> _]. done.
  - intros p [e He]. done.
Qed.

Lemma registry_make : represents_registry (make (Cb := Cb) (M := M)) ∅.
Proof.
  intros n. rewrite lookup_empty. unfold lookup_cb.
  destruct (shard_of make n registry_wf_make) as [sm Hsm]. rewrite Hsm.
  cbn [make callbackMaps_] in Hsm. apply lookup_replicate in Hsm as [-> _]. done.
Qed.

(** *** Single updates *)
Definition upd_shard (i : nat) (sm : RegexUtil.syncmap) (s : cvm) : cvm :=
  with_maps (<[i := sm]> (callbackMaps_ s)) s.

Lemma upd_shard_lookup i sm s j :
  (i < length (callbackMaps_ s))%nat ->
  callbackMaps_ (upd_shard i sm s) !! j = if decide (j = i) then Some sm else callbackMaps_ s !! j.
Proof.
  intros Hi. simpl. case_decide as E; [subst; by apply list_lookup_insert_eq|].
  by apply list_lookup_insert_ne.
Qed.

(** Forgetting a key. *)
Lemma registry_wf_erase s n sm sm' :
  wf s -> callbackMaps_ s !! getShard n = Some sm -> RegexUtil.lockstep sm' ->
  RegexUtil.map sm' = delete n (RegexUtil.map sm) ->
  wf (upd_shard (getShard n) sm' s) /\
  forall m, lookup_cb (upd_shard (getShard n) sm' s) m = if decide (m = n) then None else lookup_cb s m.
Proof.
  intros Hs Hsm Hl Hm. assert (Hb : (getShard n < length (callbackMaps_ s))%nat) by (by eapply lookup_lt_Some).
  split.
  - split.
    + simpl. rewrite length_insert. apply Hs.
    + simpl. apply Forall_insert; [apply Hs|done].
    + intros i sm0 n0 p0 Hi Hn. rewrite upd_shard_lookup in Hi by done. case_decide as E.
      * simplify_eq. rewrite Hm in Hn. apply lookup_delete_Some in Hn as [_ Hn].
        by apply (wf_shard s Hs _ sm).
      * by apply (wf_shard s Hs _ sm0).
    + apply Hs.
  - intros m. unfold lookup_cb. rewrite upd_shard_lookup by done. case_decide as E1; case_decide as E2; subst.
    + simpl. by rewrite Hm, lookup_delete_eq.
    + rewrite E1, Hsm. simpl. by rewrite Hm, lookup_delete_ne by done.
    + done.
    + done.
Qed.

(** Entries nobody is registered under may change at will. *)
Lemma wf_entries s h :
  wf s ->
  (forall n p, registered s n p -> h !! p = entries s !! p) ->
  (forall p, is_Some (h !! p) -> (p < next_entry s)%nat) ->
  wf (with_entries h s) /\ forall m, lookup_cb (with_entries h s) m = lookup_cb s m.
Proof.
  intros Hs Hsame Hfresh. split.
  - split; simpl; [apply Hs|apply Hs| |done].
    intros i sm n p Hi Hn. destruct (wf_shard s Hs i sm n p Hi Hn) as [Hg [cb Hp]].
    split; [done|]. exists cb. rewrite (Hsame n); [done|]. exists sm. by rewrite Hg.
  - intros m. unfold lookup_cb. simpl. destruct (callbackMaps_ s !! getShard m) as [sm|] eqn:Hsm; [|done].
    simpl. destruct (RegexUtil.map sm !! m) as [p|] eqn:Hp; [|done]. simpl.
    by rewrite (Hsame m) by (by exists sm).
Qed.

Lemma registered_inj s n m p : wf s -> registered s n p -> registered s m p -> n = m.
Proof.
  intros Hs (sm & H1 & H2) (sm' & H3 & H4).
  destruct (wf_shard s Hs _ _ _ _ H1 H2) as [_ [cb E1]].
  destruct (wf_shard s Hs _ _ _ _ H3 H4) as [_ [cb' E2]]. congruence.
Qed.

(** A new entry put under a name that is absent. *)
Lemma wf_insert s n p cb sm sm' :
  wf s -> callbackMaps_ s !! getShard n = Some sm -> RegexUtil.lockstep sm' ->
  RegexUtil.map sm !! n = None -> RegexUtil.map sm' = <[n := p]> (RegexUtil.map sm) ->
  entries s !! p = Some (Entry n (Some cb)) ->
  wf (upd_shard (getShard n) sm' s) /\
  forall m, lookup_cb (upd_shard (getShard n) sm' s) m = if decide (m = n) then Some cb else lookup_cb s m.
Proof.
  intros Hs Hsm Hl Hnone Hm Hp.
  assert (Hb : (getShard n < length (callbackMaps_ s))%nat) by (by eapply lookup_lt_Some). split.
  - split.
    + simpl. rewrite length_insert. apply Hs.
    + simpl. apply Forall_insert; [apply Hs|done].
    + intros i sm0 n0 p0 Hi Hn. rewrite upd_shard_lookup in Hi by done. case_decide as E.
      * simplify_eq. rewrite Hm in Hn. apply lookup_insert_Some in Hn as [[-> ->]|[_ Hn]].
        -- split; [done|by exists cb].
        -- by apply (wf_shard s Hs _ sm).
      * by apply (wf_shard s Hs _ sm0).
    + apply Hs.
  - intros m. unfold lookup_cb. rewrite upd_shard_lookup by done. case_decide as E1; case_decide as E2; subst.
    + simpl. rewrite Hm, lookup_insert_eq. simpl. by rewrite Hp.
    + rewrite E1, Hsm. simpl. by rewrite Hm, lookup_insert_ne by done.
    + done.
    + done.
Qed.

(** [std::make_shared<CallbackEntry>] *)
Lemma wf_new_entry s n cb :
  wf s ->
  let s' := (new_entry n cb s).2 in
  new_entry n cb s = (Ret (next_entry s), s') /\ wf s' /\
  callbackMaps_ s' = callbackMaps_ s /\ entries s' !! next_entry s = Some (Entry n (Some cb)) /\
  forall m, lookup_cb s' m = lookup_cb s m.
Proof.
  intros Hs s'. set (h := <[next_entry s := Entry n (Some cb)]> (entries s)).
  assert (Hfr : forall m p, registered s m p -> h !! p = entries s !! p).
  { intros m p (sm & H1 & H2). destruct (wf_shard s Hs _ _ _ _ H1 H2) as [_ [cb' Hp]].
    pose proof (wf_fresh s Hs p ltac:(eauto)). unfold h. by rewrite lookup_insert_ne by lia. }
  split; [done|]. split; [|split; [done|split; [apply lookup_insert_eq|]]].
  - split; simpl; [apply Hs|apply Hs| |].
    + intros i sm m p Hi Hn. destruct (wf_shard s Hs i sm m p Hi Hn) as [Hg [cb' Hp]].
      split; [done|]. exists cb'. fold h. rewrite (Hfr m); [done|]. exists sm. by rewrite Hg.
    + intros p Hp. apply lookup_insert_is_Some in Hp as [<-|[_ Hp]]; [lia|].
      pose proof (wf_fresh s Hs p Hp). lia.
  - intros m. unfold lookup_cb. simpl. destruct (callbackMaps_ s !! getShard m) as [sm|] eqn:Hsm; [|done].
    simpl. destruct (RegexUtil.map sm !! m) as [p|] eqn:Hp; [|done]. simpl.
    fold h. by rewrite (Hfr m) by (by exists sm).
Qed.

(** *** Operations *)
Lemma on_shard_eq {A} (s : cvm) i sm (f : SE RegexUtil.syncmap A) :
  callbackMaps_ s !! i = Some sm -> on_shard i f s = ((f sm).1, upd_shard i (f sm).2 s).
Proof. intros Hi. unfold on_shard. rewrite Hi. by destruct (f sm). Qed.

Lemma find_in_eq (s : cvm) n sm :
  callbackMaps_ s !! getShard n = Some sm ->
  find_in (getShard n) n s = (Ret (RegexUtil.map sm !! n), s).
Proof.
  intros Hsm. unfold find_in. rewrite (on_shard_eq s _ sm) by done. simpl. f_equal.
  unfold upd_shard, with_maps. rewrite list_insert_id by done. by destruct s.
Qed.

Lemma find_in_registry s n :
  wf s -> exists o, find_in (getShard n) n s = (Ret o, s) /\ (is_Some o <-> is_Some (lookup_cb s n)) /\
    forall p, o = Some p <-> registered s n p.
Proof.
  intros Hs. destruct (shard_of s n Hs) as [sm Hsm]. exists (RegexUtil.map sm !! n).
  split; [by apply find_in_eq|]. pose proof (lookup_cb_shard s n sm Hs Hsm) as Hl. split.
  - destruct (RegexUtil.map sm !! n) as [p|]; [|by rewrite Hl].
    destruct Hl as (cb & _ & ->). split; by eauto.
  - intros p. split; [intros Hp; by exists sm|]. intros (sm' & Hsm' & Hp). congruence.
Qed.

Lemma contains_eq s n :
  wf s -> contains hash n s = (Ret (bool_decide (is_Some (lookup_cb s n))), s).
Proof.
  intros Hs. destruct (find_in_registry s n Hs) as (o & Ho & Hiff & _).
  unfold contains. rewrite (se_bind_ret _ _ _ _ _ Ho). unfold se_ret. f_equal. f_equal.
  destruct o; case_bool_decide as Hb; try done.
  - destruct Hb. apply Hiff. eauto.
  - apply Hiff in Hb as [? ?]. done.
Qed.

(** [cachedAddString] of an absent key on a lockstep shard. *)
Lemma add_string_cases n p (sm : RegexUtil.syncmap (M := M) (V := nat)) :
  RegexUtil.lockstep sm -> RegexUtil.map sm !! n = None ->
  let '(o, sm') := RegexUtil.cachedAddString n p sm in
  RegexUtil.lockstep sm' /\
  match o with
  | Ret b => b = true /\ RegexUtil.map sm' = <[n := p]> (RegexUtil.map sm)
  | Throw _ => RegexUtil.map sm' = RegexUtil.map sm \/ RegexUtil.map sm' = <[n := p]> (RegexUtil.map sm)
  end.
Proof.
  intros Hl Hn. pose proof (RegexUtil.lockstep_add n p sm Hl) as Hl'.
  unfold RegexUtil.cachedAddString, se_get, se_put, se_bind, se_ret, se_throw in *. rewrite Hn in *.
  destruct (addString n (RegexUtil.matches sm)) as [[u|e] c]; simpl in *; (split; [done|]); [done|].
  case_match; auto.
Qed.

(** What a registration may leave: the name bound to the new callback, or, when
    the cache throws, bound to it or unbound. *)
Definition after_add (s s' : cvm) (n : string) (o : outcome bool) (cb : Cb) : Prop :=
  wf s' /\
  match o with
  | Ret b => b = true /\ forall m, lookup_cb s' m = if decide (m = n) then Some cb else lookup_cb s m
  | Throw _ => (forall m, m <> n -> lookup_cb s' m = lookup_cb s m) /\
      (lookup_cb s' n = None \/ lookup_cb s' n = Some cb)
  end.

Lemma add_entry s n p cb sm :
  wf s -> callbackMaps_ s !! getShard n = Some sm -> RegexUtil.map sm !! n = None ->
  entries s !! p = Some (Entry n (Some cb)) ->
  let '(o, s') := on_shard (getShard n) (RegexUtil.cachedAddString n p) s in after_add s s' n o cb.
Proof.
  intros Hs Hsm Hn Hp. rewrite (on_shard_eq s _ sm) by done.
  assert (Hl : RegexUtil.lockstep sm) by (by apply (Forall_lookup_1 _ _ _ _ (wf_lockstep s Hs) Hsm)).
  pose proof (add_string_cases n p sm Hl Hn) as Hadd.
  destruct (RegexUtil.cachedAddString n p sm) as [o sm']; simpl. destruct Hadd as [Hl' Ho].
  destruct o as [b|e].
  - destruct Ho as [-> Hm]. destruct (wf_insert s n p cb sm sm') as [Hw Hlk]; done.
  - destruct Ho as [Hm|Hm].
    + destruct (registry_wf_erase s n sm sm') as [Hw Hlk]; try done.
      { by rewrite Hm, delete_id. }
      split; [done|]. split; [intros m Hmn; rewrite Hlk; by case_decide|].
      left. rewrite Hlk. by case_decide.
    + destruct (wf_insert s n p cb sm sm') as [Hw Hlk]; try done.
      split; [done|]. split; [intros m Hmn; rewrite Hlk; by case_decide|].
      right. rewrite Hlk. by case_decide.
Qed.

(** The removal of a registered key. *)
Lemma erase_key_eq s n sm :
  wf s -> callbackMaps_ s !! getShard n = Some sm ->
  let s' := upd_shard (getShard n) (RegexUtil.cachedEraseString n sm) s in
  on_shard (getShard n) (fun sm => (Ret tt, RegexUtil.cachedEraseString n sm)) s = (Ret tt, s') /\
  wf s' /\ (forall m, lookup_cb s' m = if decide (m = n) then None else lookup_cb s m) /\
  (forall m p, registered s' m p -> m <> n /\ registered s m p) /\
  callbackMaps_ s' !! getShard n = Some (RegexUtil.cachedEraseString n sm).
Proof.
  intros Hs Hsm s'. assert (Hl : RegexUtil.lockstep sm) by (by apply (Forall_lookup_1 _ _ _ _ (wf_lockstep s Hs) Hsm)).
  assert (Hb : (getShard n < length (callbackMaps_ s))%nat) by (by eapply lookup_lt_Some).
  split; [by rewrite (on_shard_eq s _ sm)|].
  destruct (registry_wf_erase s n sm (RegexUtil.cachedEraseString n sm)) as [Hw Hlk]; try done.
  { by apply RegexUtil.lockstep_erase. }
  split; [done|]. split; [done|]. split.
  - intros m p (sm0 & H1 & H2). unfold s' in H1. rewrite upd_shard_lookup in H1 by done.
    case_decide as E.
    + simplify_eq. simpl in H2. apply lookup_delete_Some in H2 as [Hne H2]. split; [congruence|].
      exists sm. by rewrite E.
    + split; [congruence|]. by exists sm0.
  - unfold s'. rewrite upd_shard_lookup by done. by rewrite decide_True.
Qed.

(** The registration of a name that is absent, and its DCHECK. *)
Lemma add_new s n cb sm :
  wf s -> callbackMaps_ s !! getShard n = Some sm -> RegexUtil.map sm !! n = None ->
  let '(o, s') :=
    (let* entry := new_entry n cb in
     let* inserted := on_shard (getShard n) (RegexUtil.cachedAddString n entry) in
     if inserted : bool then se_ret tt else se_throw check_failed) s in
  wf s' /\
  match o with
  | Ret _ => forall m, lookup_cb s' m = if decide (m = n) then Some cb else lookup_cb s m
  | Throw _ => (forall m, m <> n -> lookup_cb s' m = lookup_cb s m) /\
      (lookup_cb s' n = None \/ lookup_cb s' n = Some cb)
  end.
Proof.
  intros Hs Hsm Hn. destruct (wf_new_entry s n cb Hs) as (He & Hw & Hmaps & Hp & Hlk).
  rewrite (se_bind_ret _ _ _ _ _ He). set (s1 := (new_entry n cb s).2) in *.
  rewrite <- Hmaps in Hsm. pose proof (add_entry s1 n (next_entry s) cb sm Hw Hsm Hn Hp) as Hadd.
  unfold se_bind. destruct (on_shard _ _ s1) as [o s2]. destruct Hadd as [Hw2 Ho].
  destruct o as [b|e].
  - destruct Ho as [-> Ho]. split; [done|]. intros m. by rewrite Ho, Hlk.
  - destruct Ho as [Ho Hn']. split; [done|]. split; [|done]. intros m Hm. by rewrite Ho, Hlk.
Qed.

Definition register_spec (n : string) (cb : Cb) (overwrite : bool) (o : option Cb) : option Cb :=
  match o with
  | Some old => if overwrite then Some cb else Some old
  | None => Some cb
  end.

Lemma register_effect s n cb overwrite :
  wf s ->
  let '(o, s') := registerCallback hash n cb overwrite s in
  wf s' /\
  match o with
  | Ret _ => forall m, lookup_cb s' m =
      if decide (m = n) then register_spec n cb overwrite (lookup_cb s n) else lookup_cb s m
  | Throw _ => (forall m, m <> n -> lookup_cb s' m = lookup_cb s m) /\
      (lookup_cb s' n = None \/ lookup_cb s' n = Some cb)
  end.
Proof.
  intros Hs. unfold registerCallback. rewrite (se_bind_ret _ _ _ _ _ (contains_eq s n Hs)).
  destruct (shard_of s n Hs) as [sm Hsm]. pose proof (lookup_cb_shard s n sm Hs Hsm) as Hl.
  pose proof (find_in_eq s n sm Hsm) as Hf.
  destruct (RegexUtil.map sm !! n) as [p|] eqn:Hp.
  - destruct Hl as (old & _ & Hold). rewrite Hold. rewrite bool_decide_eq_true_2 by eauto.
    destruct overwrite; simpl.
    + rewrite (se_bind_ret _ _ _ _ _ Hf).
      destruct (wf_new_entry s n cb Hs) as (He & Hw & Hmaps & Hpe & Hlk).
      rewrite (se_bind_ret _ _ _ _ _ He). set (s1 := (new_entry n cb s).2) in *.
      rewrite <- Hmaps in Hsm. destruct (erase_key_eq s1 n sm Hw Hsm) as (Her & Hw2 & Hlk2 & _ & Hsm2).
      rewrite (se_bind_ret _ _ _ _ _ Her). set (s2 := upd_shard _ _ s1) in *.
      pose proof (add_entry s2 n (next_entry s) cb _ Hw2 Hsm2 (lookup_delete_eq _ _) Hpe) as Hadd.
      unfold se_bind. destruct (on_shard _ _ s2) as [o s3]. destruct Hadd as [Hw3 Ho].
      destruct o as [b|e].
      * destruct Ho as [-> Ho]. split; [done|]. intros m. rewrite Ho, Hlk2, Hlk. by case_decide.
      * destruct Ho as [Ho Hn']. split; [done|]. split; [|done].
        intros m Hm. rewrite Ho, Hlk2, Hlk by done. by case_decide.
    + unfold se_ret. split; [done|]. intros m. case_decide; congruence.
  - rewrite Hl, bool_decide_eq_false_2 by (by intros [? ?]). rewrite andb_false_r.
    rewrite (se_bind_ret _ _ _ _ _ Hf). by apply add_new with (sm := sm).
Qed.

Lemma entry_clear_eq (s : cvm) p e :
  entries s !! p = Some e ->
  entry_clear p s = (Ret tt, with_entries (<[p := Entry (name_ e) None]> (entries s)) s).
Proof. intros Hp. unfold entry_clear, se_bind, se_get, se_put. by rewrite Hp. Qed.

Lemma unregister_effect s n :
  wf s ->
  let '(o, s') := unregisterCallback hash n s in
  wf s' /\ o = Ret (bool_decide (is_Some (lookup_cb s n))) /\
  forall m, lookup_cb s' m = if decide (m = n) then None else lookup_cb s m.
Proof.
  intros Hs. unfold unregisterCallback. destruct (shard_of s n Hs) as [sm Hsm].
  pose proof (lookup_cb_shard s n sm Hs Hsm) as Hl. rewrite (se_bind_ret _ _ _ _ _ (find_in_eq s n sm Hsm)).
  destruct (RegexUtil.map sm !! n) as [p|] eqn:Hp.
  - destruct Hl as (cb & He & Hcb). destruct (erase_key_eq s n sm Hs Hsm) as (Her & Hw & Hlk & Hreg & _).
    rewrite (se_bind_ret _ _ _ _ _ Her). set (s1 := upd_shard _ _ s) in *.
    rewrite (se_bind_ret _ _ _ _ _ (entry_clear_eq s1 p _ He)). unfold se_ret.
    destruct (wf_entries s1 (<[p := Entry n None]> (entries s1)) Hw) as [Hw2 Hlk2].
    + intros m q Hmq. destruct (Hreg m q Hmq) as [Hne Hmq']. apply lookup_insert_ne.
      intros ->. destruct Hne. apply (registered_inj s m n q Hs Hmq'). by exists sm.
    + intros q Hq. apply lookup_insert_is_Some in Hq as [<-|[_ Hq]]; apply (wf_fresh s Hs); eauto.
    + split; [done|]. split; [by rewrite Hcb, bool_decide_eq_true_2 by eauto|].
      intros m. by rewrite Hlk2, Hlk.
  - unfold se_ret. rewrite Hl. split; [done|]. split; [by rewrite bool_decide_eq_false_2 by (by intros [? ?])|].
    intros m. case_decide; congruence.
Qed.

(** *** [clear] *)
Fixpoint clear_all (ps : list nat) (h : gmap nat (CallbackEntry Cb)) : gmap nat (CallbackEntry Cb) :=
  match ps with
  | [] => h
  | p :: ps' => clear_all ps' (alter (fun e => Entry (name_ e) None) p h)
  end.

Lemma clear_entries_eq ps (s : cvm) :
  Forall (fun p => is_Some (entries s !! p)) ps ->
  clear_entries ps s = (Ret tt, with_entries (clear_all ps (entries s)) s).
Proof.
  revert s. induction ps as [|p ps IH]; intros s Hps; simpl; [by destruct s|].
  apply Forall_cons in Hps as [[e He] Hps]. rewrite (se_bind_ret _ _ _ _ _ (entry_clear_eq s p e He)).
  assert (<[p := Entry (name_ e) None]> (entries s) = alter (fun e => Entry (name_ e) None) p (entries s)) as ->.
  { apply map_eq. intros q. destruct (decide (q = p)) as [->|Hne].
    - by rewrite lookup_insert_eq, lookup_alter_eq, He.
    - by rewrite lookup_insert_ne, lookup_alter_ne by done. }
  rewrite IH; [done|]. eapply Forall_impl; [exact Hps|]. intros q Hq. simpl.
  by rewrite lookup_alter_is_Some.
Qed.

Lemma clear_all_other ps h p : p ∉ ps -> clear_all ps h !! p = h !! p.
Proof.
  revert h. induction ps as [|q ps IH]; intros h Hp; simpl; [done|].
  apply not_elem_of_cons in Hp as [Hne Hp]. rewrite IH by done. by apply lookup_alter_ne.
Qed.

Lemma clear_all_is_Some ps h p : is_Some (clear_all ps h !! p) <-> is_Some (h !! p).
Proof.
  revert h. induction ps as [|q ps IH]; intros h; simpl; [done|]. by rewrite IH, lookup_alter_is_Some.
Qed.

(** Clearing a shard's keys. *)
Lemma wf_clear_keys s i sm :
  wf s -> callbackMaps_ s !! i = Some sm ->
  let s' := upd_shard i (RegexUtil.cachedClearStrings sm) s in
  wf s' /\ (forall m, lookup_cb s' m = if decide (getShard m = i) then None else lookup_cb s m) /\
  forall m p, registered s' m p -> getShard m <> i /\ registered s m p.
Proof.
  intros Hs Hsm s'. assert (Hb : (i < length (callbackMaps_ s))%nat) by (by eapply lookup_lt_Some).
  assert (Hl : RegexUtil.lockstep sm) by (by apply (Forall_lookup_1 _ _ _ _ (wf_lockstep s Hs) Hsm)).
  split; [split|split].
  - simpl. rewrite length_insert. apply Hs.
  - simpl. apply Forall_insert; [apply Hs|by apply RegexUtil.lockstep_clear].
  - intros j sm0 n p Hj Hn. unfold s' in Hj. rewrite upd_shard_lookup in Hj by done. case_decide as E.
    + by simplify_eq.
    + by apply (wf_shard s Hs _ sm0).
  - apply Hs.
  - intros m. unfold lookup_cb, s'. rewrite upd_shard_lookup by done. by case_decide.
  - intros m p (sm0 & H1 & H2). unfold s' in H1. rewrite upd_shard_lookup in H1 by done. case_decide as E.
    + by simplify_eq.
    + split; [done|]. by exists sm0.
Qed.

Lemma clear_shard_effect s i :
  wf s -> (i < kNumShards)%nat ->
  exists s', clear_shard i s = (Ret tt, s') /\ wf s' /\
    forall m, lookup_cb s' m = if decide (getShard m = i) then None else lookup_cb s m.
Proof.
  intros Hs Hi. rewrite <- (wf_shards s Hs) in Hi. destruct (lookup_lt_is_Some_2 _ _ Hi) as [sm Hsm].
  unfold clear_shard.
  assert (Hread : on_shard i (fun sm => (Ret (map_to_list (RegexUtil.map sm)).*2, sm)) s
                  = (Ret (map_to_list (RegexUtil.map sm)).*2, s)).
  { rewrite (on_shard_eq s i sm) by done. simpl. f_equal. unfold upd_shard, with_maps.
    rewrite list_insert_id by done. by destruct s. }
  rewrite (se_bind_ret _ _ _ _ _ Hread). set (ps := (map_to_list (RegexUtil.map sm)).*2).
  assert (Hps : forall p, p ∈ ps <-> exists n, RegexUtil.map sm !! n = Some p).
  { intros p. unfold ps. rewrite list_elem_of_fmap. split.
    - intros ([n q] & -> & Hin). exists n. by apply elem_of_map_to_list in Hin.
    - intros [n Hn]. exists (n, p). split; [done|]. by apply elem_of_map_to_list. }
  assert (Hall : Forall (fun p => is_Some (entries s !! p)) ps).
  { apply Forall_forall. intros p [n Hn]%Hps. destruct (wf_shard s Hs _ _ _ _ Hsm Hn) as [_ [cb ->]]. eauto. }
  rewrite (se_bind_ret _ _ _ _ _ (clear_entries_eq ps s Hall)).
  destruct (wf_clear_keys s i sm Hs Hsm) as (Hw & Hlk & Hreg).
  set (s1 := upd_shard i (RegexUtil.cachedClearStrings sm) s) in *.
  exists (with_entries (clear_all ps (entries s)) s1). split; [by rewrite (on_shard_eq _ i sm)|].
  destruct (wf_entries s1 (clear_all ps (entries s)) Hw) as [Hw2 Hlk2].
  - intros m p Hmp. destruct (Hreg m p Hmp) as [Hne (sm0 & H1 & H2)]. apply clear_all_other.
    intros [n Hn]%Hps. destruct (wf_shard s Hs _ _ _ _ Hsm Hn) as [Hg [cb E1]].
    destruct (wf_shard s Hs _ _ _ _ H1 H2) as [_ [cb' E2]]. congruence.
  - intros p. rewrite clear_all_is_Some. apply Hs.
  - split; [done|]. intros m. by rewrite Hlk2, Hlk.
Qed.

Lemma clear_shards_effect l s :
  wf s -> Forall (fun i => (i < kNumShards)%nat) l ->
  exists s', clear_shards l s = (Ret tt, s') /\ wf s' /\
    forall m, lookup_cb s' m = if decide (getShard m ∈ l) then None else lookup_cb s m.
Proof.
  revert s. induction l as [|i l IH]; intros s Hs Hl.
  - exists s. split; [done|]. split; [done|]. intros m. by rewrite decide_False by apply not_elem_of_nil.
  - apply Forall_cons in Hl as [Hi Hl]. destruct (clear_shard_effect s i Hs Hi) as (s1 & E1 & Hw1 & Hlk1).
    destruct (IH s1 Hw1 Hl) as (s2 & E2 & Hw2 & Hlk2). exists s2.
    simpl. rewrite (se_bind_ret _ _ _ _ _ E1). split; [done|]. split; [done|]. intros m.
    rewrite Hlk2, Hlk1. repeat case_decide; set_solver.
Qed.

Lemma clear_effect s :
  wf s -> exists s', clear s = (Ret tt, s') /\ wf s' /\ forall m, lookup_cb s' m = None.
Proof.
  intros Hs. destruct (clear_shards_effect (seq 0 kNumShards) s Hs) as (s' & E & Hw & Hlk).
  - apply Forall_forall. intros i Hi%elem_of_seq. lia.
  - exists s'. split; [done|]. split; [done|]. intros m. rewrite Hlk. rewrite decide_True; [done|].
    apply elem_of_seq. pose proof (getShard_bound m). lia.
Qed.

(** *** Keys *)
Lemma in_getKeys s n :
  wf s -> n ∈ getKeys s <-> is_Some (lookup_cb s n).
Proof.
  intros Hs. unfold getKeys. rewrite list_elem_of_In, in_flat_map. split.
  - intros (sm & Hsm & Hn). apply list_elem_of_In, list_elem_of_lookup in Hsm as [i Hi].
    apply list_elem_of_In, list_elem_of_fmap in Hn as ([n' p] & -> & Hp).
    apply elem_of_map_to_list in Hp. simpl. destruct (wf_shard s Hs _ _ _ _ Hi Hp) as [<- _].
    pose proof (lookup_cb_shard s n' sm Hs Hi) as Hl. rewrite Hp in Hl. destruct Hl as (cb & _ & ->). eauto.
  - destruct (shard_of s n Hs) as [sm Hsm]. pose proof (lookup_cb_shard s n sm Hs Hsm) as Hl.
    intros [cb Hcb]. destruct (RegexUtil.map sm !! n) as [p|] eqn:Hp; [|congruence].
    exists sm. split.
    + apply list_elem_of_In, list_elem_of_lookup. eauto.
    + apply list_elem_of_In, list_elem_of_fmap. exists (n, p). split; [done|]. by apply elem_of_map_to_list.
Qed.

(** The names of distinct shards are distinct, and each shard's are. *)
Lemma flat_map_NoDup {A} (key : A -> string) (g : RegexUtil.syncmap (M := M) (V := nat) -> list A)
    (l : list (RegexUtil.syncmap (M := M) (V := nat))) (k : nat) :
  (forall i sm a, l !! i = Some sm -> a ∈ g sm -> getShard (key a) = (k + i)%nat) ->
  (forall sm, sm ∈ l -> NoDup (key <$> g sm)) ->
  NoDup (key <$> List.flat_map g l).
Proof.
  revert k. induction l as [|sm l IH]; intros k Hk Hg; simpl; [constructor|].
  rewrite fmap_app. apply NoDup_app. split; [apply Hg; left|split].
  - intros x (a & -> & Ha)%list_elem_of_fmap (b & Hb & Hb')%list_elem_of_fmap.
    apply list_elem_of_In, in_flat_map in Hb' as (sm' & Hsm' & Hb').
    apply list_elem_of_In, list_elem_of_lookup in Hsm' as [i Hi]. apply list_elem_of_In in Hb'.
    pose proof (Hk 0%nat sm a eq_refl Ha) as E1. pose proof (Hk (S i) sm' b Hi Hb') as E2.
    rewrite Hb in E1. lia.
  - apply (IH (S k)).
    + intros i sm' a Hi Ha. rewrite (Hk (S i) sm' a); [lia|done|done].
    + intros sm' Hsm'. apply Hg. by right.
Qed.

Lemma NoDup_getKeys s : wf s -> NoDup (getKeys s).
Proof.
  intros Hs. unfold getKeys. rewrite <- list_fmap_id. apply (flat_map_NoDup id _ _ 0).
  - intros i sm n Hi Hn. apply list_elem_of_fmap in Hn as ([n' p] & -> & Hp).
    apply elem_of_map_to_list in Hp. by apply (wf_shard s Hs i sm n' p).
  - intros sm _. rewrite list_fmap_id. apply NoDup_fst_map_to_list.
Qed.

Lemma getNumKeys_length (s : cvm) : getNumKeys s = length (getKeys s).
Proof.
  unfold getNumKeys, getKeys. change (length _) with (0 + length (List.flat_map
    (fun sm : RegexUtil.syncmap (M := M) (V := nat) => (map_to_list (RegexUtil.map sm)).*1) (callbackMaps_ s)))%nat.
  generalize 0%nat. induction (callbackMaps_ s) as [|sm l IH]; intros n; simpl; [lia|].
  rewrite IH, length_app, length_fmap, length_map_to_list. lia.
Qed.

Lemma getKeys_registry s r :
  wf s -> represents_registry s r -> getKeys s ≡ₚ elements (dom r).
Proof.
  intros Hs Hr. apply NoDup_Permutation; [by apply NoDup_getKeys|apply NoDup_elements|].
  intros n. rewrite in_getKeys by done. by rewrite Hr, elem_of_elements, elem_of_dom.
Qed.

(** *** Regex lookups, alone *)
Definition no_gap (k : nat) (sm : RegexUtil.syncmap (M := M) (V := nat)) := sm.

(** A step that changes the cache of one shard only. *)
Lemma wf_cache s i sm sm' :
  wf s -> callbackMaps_ s !! i = Some sm -> RegexUtil.lockstep sm' ->
  RegexUtil.map sm' = RegexUtil.map sm ->
  wf (upd_shard i sm' s) /\ (forall m, lookup_cb (upd_shard i sm' s) m = lookup_cb s m).
Proof.
  intros Hs Hsm Hl Hm. assert (Hb : (i < length (callbackMaps_ s))%nat) by (by eapply lookup_lt_Some).
  assert (Hlook : forall j sm2, callbackMaps_ (upd_shard i sm' s) !! j = Some sm2 ->
    exists sm1, callbackMaps_ s !! j = Some sm1 /\ RegexUtil.map sm1 = RegexUtil.map sm2).
  { intros j sm2 Hj. rewrite upd_shard_lookup in Hj by done. case_decide as E.
    - simplify_eq. by exists sm.
    - by exists sm2. }
  split; [split|].
  - simpl. rewrite length_insert. apply Hs.
  - simpl. apply Forall_insert; [apply Hs|done].
  - intros j sm2 n p Hj Hn. destruct (Hlook j sm2 Hj) as (sm1 & H1 & H2). rewrite <- H2 in Hn.
    by apply (wf_shard s Hs _ sm1).
  - apply Hs.
  - intros m. unfold lookup_cb. rewrite upd_shard_lookup by done. case_decide as E; [|done].
    rewrite E, Hsm. simpl. by rewrite Hm.
Qed.

Lemma regex_keys_effect rx now shared l s :
  wf s -> NoDup l -> Forall (fun i => (i < kNumShards)%nat) l ->
  let '(o, s') := regex_keys_from no_gap rx now shared l s in
  wf s' /\ (forall m, lookup_cb s' m = lookup_cb s m) /\
  match o with
  | Ret ks => NoDup ks /\ forall n, n ∈ ks <->
      getShard n ∈ l /\ is_Some (lookup_cb s n) /\ regex_matches rx n = true
  | Throw _ => True
  end.
Proof.
  revert shared s. induction l as [|i l IH]; intros shared s Hs Hnd Hl.
  { simpl. split; [done|]. split; [done|]. split; [constructor|]. set_solver. }
  apply NoDup_cons in Hnd as [Hi Hnd]. apply Forall_cons in Hl as [Hil Hl].
  assert (Hib : (i < length (callbackMaps_ s))%nat) by (by rewrite (wf_shards s Hs)).
  destruct (lookup_lt_is_Some_2 _ _ Hib) as [sm Hsm].
  assert (Hlk : RegexUtil.lockstep sm) by (by apply (Forall_lookup_1 _ _ _ _ (wf_lockstep s Hs) Hsm)).
  simpl. unfold se_bind at 1. rewrite (on_shard_eq s i sm) by done.
  pose proof (RegexUtil.cachedFindMatchesSnapshot_finds (no_gap 0) (no_gap 1) (no_gap 2) rx now shared sm
    (fun _ Hl => Hl) (fun _ Hl => Hl) (fun _ Hl => Hl) Hlk) as [Hl' Hf].
  pose proof (RegexUtil.cachedFindMatchesSnapshot_map (no_gap 0) (no_gap 1) (no_gap 2) rx now shared sm
    (fun _ => eq_refl) (fun _ => eq_refl) (fun _ => eq_refl)) as Hmap.
  destruct (RegexUtil.cachedFindMatchesSnapshot _ _ _ rx now shared sm) as [o sm'].
  cbn [fst snd] in *. destruct (wf_cache s i sm sm' Hs Hsm Hl' Hmap) as [Hw Hlc].
  destruct o as [[ks c]|e]; [|done].
  specialize (IH c (upd_shard i sm' s) Hw Hnd Hl). unfold se_bind.
  cbn [fst snd]. destruct (regex_keys_from no_gap rx now c l _) as [[ks'|e] s2]; [|].
  2: { destruct IH as (? & Hlk2 & _). split; [done|]. split; [|done]. intros m. by rewrite Hlk2. }
  destruct IH as (Hw2 & Hlk2 & Hnd2 & Hin2). split; [done|]. split; [intros m; by rewrite Hlk2|].
  destruct Hf as [Hndk Hink].
  assert (Hks : forall n, n ∈ ks <-> getShard n = i /\ is_Some (lookup_cb s n) /\ regex_matches rx n = true).
  { intros n. rewrite Hink, Hmap, elem_of_dom. split.
    - intros [[p Hp] Hr]. destruct (wf_shard s Hs _ _ _ _ Hsm Hp) as [Hg _]. split; [done|]. split; [|done].
      rewrite <- Hg in Hsm. pose proof (lookup_cb_shard s n sm Hs Hsm) as Hx. rewrite Hp in Hx.
      destruct Hx as (cb & _ & ->). eauto.
    - intros (Hg & [cb Hcb] & Hr). split; [|done]. rewrite <- Hg in Hsm.
      pose proof (lookup_cb_shard s n sm Hs Hsm) as Hx. destruct (RegexUtil.map sm !! n); [eauto|congruence]. }
  unfold se_ret. split.
  - apply NoDup_app. split; [done|]. split; [|done]. intros n Hn1 Hn2.
    apply Hks in Hn1 as [<- _]. apply Hin2 in Hn2 as [Hn2 _]. done.
  - intros n. rewrite elem_of_app, Hks, Hin2, Hlc, elem_of_cons. naive_solver.
Qed.

Lemma getRegexKeys_effect rx now s r :
  wf s -> represents_registry s r ->
  let '(o, s') := getRegexKeys no_gap rx now s in
  wf s' /\ represents_registry s' r /\
  match o with
  | Ret ks => ks ≡ₚ elements (filter (fun n => regex_matches rx n = true) (dom r))
  | Throw _ => True
  end.
Proof.
  intros Hs Hr. unfold getRegexKeys.
  pose proof (regex_keys_effect rx now None (seq 0 kNumShards) s Hs (NoDup_seq _ _)) as He.
  destruct (regex_keys_from no_gap rx now None (seq 0 kNumShards) s) as [o s'].
  destruct He as (Hw & Hlk & Ho).
  { apply Forall_forall. intros i Hi%elem_of_seq. lia. }
  split; [done|]. split; [intros n; by rewrite Hlk|]. destruct o as [ks|e]; [|done].
  destruct Ho as [Hnd Hin]. apply NoDup_Permutation; [done|apply NoDup_elements|].
  intros n. rewrite Hin, elem_of_elements, elem_of_filter, elem_of_dom, Hr, elem_of_seq.
  pose proof (getShard_bound n). naive_solver lia.
Qed.

Lemma trim_effect t s :
  wf s -> wf (trimRegexCache t s) /\ forall m, lookup_cb (trimRegexCache t s) m = lookup_cb s m.
Proof.
  intros Hs. assert (Hmap : forall sm : RegexUtil.syncmap (M := M) (V := nat),
    RegexUtil.map (RegexUtil.cachedTrimStale t sm) = RegexUtil.map sm).
  { intros sm. unfold RegexUtil.cachedTrimStale. by case_if. }
  split.
  - split; simpl.
    + rewrite length_fmap. apply Hs.
    + apply Forall_fmap. eapply Forall_impl; [apply Hs|]. intros sm Hl. by apply RegexUtil.lockstep_trim.
    + intros i sm n p Hi Hn. apply list_lookup_fmap_Some in Hi as (sm0 & -> & Hi). rewrite Hmap in Hn.
      by apply (wf_shard s Hs _ sm0).
    + apply Hs.
  - intros m. unfold lookup_cb. simpl. rewrite list_lookup_fmap.
    destruct (callbackMaps_ s !! getShard m) as [sm|]; [|done]. simpl. by rewrite Hmap.
Qed.
End Registry.
