(* ===== verification/CallbackCorrect.v ===== *)
(** * CallbackCorrect: the contract of [CallbackValuesMap]

    Histories of operations against a registry of callbacks, and what
    [getValue] and [getValues] run. *)
From S2P Require Import Prelude RegexUtil CallbackValuesMap CallbackMerge CallbackRegistry.
From Stdlib Require Import ZArith Lia String.
From stdpp Require Import base gmap sets list strings sorting.
Import CallbackValuesMap.

Open Scope Z_scope.
Open Scope fb303_scope.

(** ** Operations and the abstract registry *)
Section Operations.
Context {Cb M : Type} `{RegexMatchCache M} (hash : string -> Z).
Abbreviation cvm := (CallbackValuesMap.cvm Cb M).

Inductive op :=
  | ORegister (n : string) (cob : Cb) (overwrite : bool)
  | OUnregister (n : string)
  | OClear
  | OContains (n : string)
  | OGetNumKeys
  | OGetKeys
  | OGetRegexKeys (r : regex) (now : time_point)
  | OTrimRegexCache (expiry : time_point).

Inductive res := RUnit | RBool (b : bool) | RNat (n : nat) | RKeys (ks : list string).

Definition run (o : op) : SE cvm res :=
  match o with
  | ORegister n cob ow => registerCallback hash n cob ow >>> se_ret RUnit
  | OUnregister n => let* b := unregisterCallback hash n in se_ret (RBool b)
  | OClear => clear >>> se_ret RUnit
  | OContains n => let* b := contains hash n in se_ret (RBool b)
  | OGetNumKeys => let* s := se_get in se_ret (RNat (getNumKeys s))
  | OGetKeys => let* s := se_get in se_ret (RKeys (getKeys s))
  | OGetRegexKeys r now => let* ks := getRegexKeys no_gap r now in se_ret (RKeys ks)
  | OTrimRegexCache t => let* s := se_get in se_put (trimRegexCache t s) >>> se_ret RUnit
  end.

(** What an operation may return on a registry [r], and the registry after it.
    A registration throws only if the cache does, and then touches one name. *)
Definition allowed (o : op) (r : gmap string Cb) (x : outcome res) (r' : gmap string Cb) : Prop :=
  match o, x with
  | ORegister n cob ow, Ret RUnit =>
      r' = match r !! n with
           | Some old => if ow then <[n := cob]> r else r
           | None => <[n := cob]> r
           end
  | ORegister n _ _, Throw _ => delete n r' = delete n r
  | OUnregister n, Ret (RBool b) => b = bool_decide (n ∈ dom r) /\ r' = delete n r
  | OClear, Ret RUnit => r' = ∅
  | OContains n, Ret (RBool b) => b = bool_decide (n ∈ dom r) /\ r' = r
  | OGetNumKeys, Ret (RNat k) => k = size r /\ r' = r
  | OGetKeys, Ret (RKeys ks) => ks ≡ₚ elements (dom r) /\ r' = r
  | OGetRegexKeys rx _, Ret (RKeys ks) =>
      ks ≡ₚ elements (filter (fun n => regex_matches rx n = true) (dom r)) /\ r' = r
  | OGetRegexKeys _ _, Throw _ => r' = r
  | OTrimRegexCache _, Ret RUnit => r' = r
  | _, _ => False
  end.

Inductive history : list op -> list (outcome res) -> gmap string Cb -> gmap string Cb -> Prop :=
  | history_nil r : history [] [] r r
  | history_cons o os x xs r r' r'' :
      allowed o r x r' -> history os xs r' r'' -> history (o :: os) (x :: xs) r r''.

Fixpoint run_all (os : list op) (s : cvm) : list (outcome res) * cvm :=
  match os with
  | [] => ([], s)
  | o :: os' =>
      let '(x, s1) := run o s in
      let '(xs, s2) := run_all os' s1 in (x :: xs, s2)
  end.

(** A state whose callbacks are those of [r] but for one name. *)
Lemma registry_patch (s' : cvm) r n o :
  (forall m, lookup_cb hash s' m = if decide (m = n) then o else r !! m) ->
  represents_registry hash s' (match o with Some c => <[n := c]> r | None => delete n r end).
Proof.
  intros Hlk m. rewrite Hlk. case_decide as E; destruct o as [c|]; subst.
  - by rewrite lookup_insert_eq.
  - by rewrite lookup_delete_eq.
  - by rewrite lookup_insert_ne by done.
  - by rewrite lookup_delete_ne by done.
Qed.

Lemma register_allowed n cob ow s r :
  wf hash s -> represents_registry hash s r ->
  let '(x, s') := run (ORegister n cob ow) s in
  wf hash s' /\ exists r', represents_registry hash s' r' /\ allowed (ORegister n cob ow) r x r'.
Proof.
  intros Hs Hr. cbn [run]. pose proof (register_effect hash s n cob ow Hs) as He.
  unfold se_bind. destruct (registerCallback hash n cob ow s) as [[u|e] s']; destruct He as [Hw Hlk].
  - split; [done|]. rewrite (Hr n) in Hlk. eexists. split.
    + apply (registry_patch s' r n (register_spec n cob ow (r !! n))). intros m. by rewrite Hlk, Hr.
    + simpl. unfold register_spec. destruct (r !! n) as [old|] eqn:E; [|done].
      destruct ow; [done|]. by rewrite insert_id.
  - split; [done|]. eexists. split.
    + apply (registry_patch s' r n (lookup_cb hash s' n)). intros m. case_decide; [by subst|].
      by rewrite (proj1 Hlk).
    + simpl. destruct (lookup_cb hash s' n); by rewrite ?delete_insert_eq, ?delete_delete_eq.
Qed.

Lemma run_allowed o s r :
  wf hash s -> represents_registry hash s r ->
  let '(x, s') := run o s in
  wf hash s' /\ exists r', represents_registry hash s' r' /\ allowed o r x r'.
Proof.
  intros Hs Hr.
  assert (Hdom : forall n, bool_decide (is_Some (lookup_cb hash s n)) = bool_decide (n ∈ dom r)).
  { intros n. apply bool_decide_ext. by rewrite Hr, elem_of_dom. }
  destruct o as [n cob ow|n| |n| | |rx now|t]; [by apply register_allowed|..]; cbn [run allowed].
  - pose proof (unregister_effect hash s n Hs) as He. unfold se_bind.
    destruct (unregisterCallback hash n s) as [x s']. destruct He as (Hw & -> & Hlk).
    split; [done|]. exists (delete n r). split; [|by rewrite Hdom].
    apply (registry_patch s' r n None). intros m. by rewrite Hlk, Hr.
  - destruct (clear_effect hash s Hs) as (s' & E & Hw & Hlk). rewrite (se_bind_ret _ _ _ _ _ E).
    split; [done|]. exists ∅. split; [|done]. intros n. by rewrite Hlk, lookup_empty.
  - rewrite (se_bind_ret _ _ _ _ _ (contains_eq hash s n Hs)). split; [done|].
    exists r. split; [done|]. by rewrite Hdom.
  - split; [done|]. exists r. split; [done|]. split; [|done].
    rewrite getNumKeys_length, (getKeys_registry hash s r Hs Hr), <- size_dom. done.
  - split; [done|]. exists r. split; [done|]. split; [|done]. by apply getKeys_registry with (hash := hash).
  - pose proof (getRegexKeys_effect hash rx now s r Hs Hr) as He. unfold se_bind.
    destruct (getRegexKeys no_gap rx now s) as [[ks|e] s']; destruct He as (Hw & Hr' & Hks);
      (split; [done|]); by exists r.
  - split; [by apply trim_effect|]. exists r. split; [|done].
    intros n. by rewrite (proj2 (trim_effect hash t s Hs)).
Qed.

Lemma run_all_history os s r :
  wf hash s -> represents_registry hash s r ->
  let '(xs, s') := run_all os s in
  wf hash s' /\ exists r', represents_registry hash s' r' /\ history os xs r r'.
Proof.
  revert s r. induction os as [|o os IH]; intros s r Hs Hr.
  { split; [done|]. exists r. split; [done|constructor]. }
  simpl. pose proof (run_allowed o s r Hs Hr) as Ho. destruct (run o s) as [x s1].
  destruct Ho as (Hw & r1 & Hr1 & Ha). specialize (IH s1 r1 Hw Hr1).
  destruct (run_all os s1) as [xs s2]. destruct IH as (Hw2 & r2 & Hr2 & Hh).
  split; [done|]. exists r2. split; [done|]. by econstructor.
Qed.
End Operations.

(** ** Values *)
Section Values.
Context {T Cb W M : Type} `{RegexMatchCache M} (hash : string -> Z).
Abbreviation cvm := (CallbackValuesMap.cvm Cb M).
Context (invoke : Cb -> SE (cvm * W) T).

Lemma getValue_effect s w n :
  wf hash s ->
  getValue hash invoke n (s, w) =
  match lookup_cb hash s n with
  | None => (Ret None, (s, w))
  | Some cb => (let* v := invoke cb in se_ret (Some v)) (s, w)
  end.
Proof.
  intros Hs. destruct (find_in_registry hash s n Hs) as (o & Ho & Hiff & Hreg).
  unfold getValue, getCallback, on_map. unfold se_bind at 1. cbn [fst snd]. rewrite Ho.
  destruct o as [p|].
  - destruct (proj1 (Hreg p) eq_refl) as (sm & Hsm & Hp).
    pose proof (lookup_cb_shard hash s n sm Hs Hsm) as Hl. rewrite Hp in Hl. destruct Hl as (cb & He & ->).
    unfold entry_getValue. unfold se_bind at 1, se_get. cbn [fst]. rewrite He. done.
  - destruct (lookup_cb hash s n); [|done]. destruct (proj2 Hiff) as [? ?]; [eauto|done].
Qed.

(** The entries of a list in turn. *)
Fixpoint visit (l : list (string * nat)) : SE ((cvm * W) * gmap string T) unit :=
  match l with
  | [] => se_ret tt
  | e :: l' => visit_entry invoke e >>> visit l'
  end.

Context (make_heap down_heap :
    (list (string * nat) -> list (string * nat) -> bool) ->
    list (list (string * nat)) -> list (list (string * nat))).
Context `{HeapOps make_heap down_heap}.

Lemma merge_visit fuel h st :
  merging h -> (length (concat h) <= fuel)%nat ->
  merge invoke down_heap fuel h st = visit (merge_order down_heap fuel h) st.
Proof.
  revert h st. induction fuel as [|fuel IH]; intros h st Hm Hf.
  { destruct h as [|[|e r] rest]; [done|..|simpl in Hf; lia].
    pose proof (mg_nonempty _ Hm) as Hne. by apply Forall_cons in Hne as [? _]. }
  destruct h as [|[|e r] rest]; [done|..].
  { pose proof (mg_nonempty _ Hm) as Hne. by apply Forall_cons in Hne as [? _]. }
  cbn [merge merge_order visit]. unfold se_bind.
  destruct (visit_entry invoke e st) as [[u|x] st']; [|done]. apply IH.
  - by apply advance_merging with (make_heap := make_heap).
  - pose proof (Permutation_length (advance_concat make_heap down_heap e r rest)) as Hl. simpl in *. lia.
Qed.

Lemma concat_filter_nonempty (l : list (list (string * nat))) :
  concat (List.filter (fun r => negb (bool_decide (r = []))) l) = concat l.
Proof.
  induction l as [|r l IH]; simpl; [done|]. case_bool_decide as E; simpl; by rewrite ?IH, ?E.
Qed.

Lemma snapshot_concat (s : cvm) :
  concat (snapshot s) ≡ₚ List.flat_map (fun sm => map_to_list (RegexUtil.map sm)) (callbackMaps_ s).
Proof.
  unfold snapshot. induction (callbackMaps_ s) as [|sm l IH]; simpl; [done|].
  by rewrite IH, sort_by_key_Permutation.
Qed.

Lemma snapshot_registered (s : cvm) n p :
  wf hash s -> (n, p) ∈ concat (snapshot s) <-> registered hash s n p.
Proof.
  intros Hs. rewrite snapshot_concat, list_elem_of_In, in_flat_map. split.
  - intros (sm & Hsm & Hp). apply list_elem_of_In, list_elem_of_lookup in Hsm as [i Hi].
    apply list_elem_of_In, elem_of_map_to_list in Hp.
    destruct (wf_shard hash s Hs _ _ _ _ Hi Hp) as [<- _]. by exists sm.
  - intros (sm & Hsm & Hp). exists sm. split.
    + apply list_elem_of_In, list_elem_of_lookup. eauto.
    + by apply list_elem_of_In, elem_of_map_to_list.
Qed.

Lemma snapshot_NoDup (s : cvm) : wf hash s -> NoDup (concat (snapshot s)).*1.
Proof.
  intros Hs. rewrite snapshot_concat. apply (flat_map_NoDup hash fst _ _ 0).
  - intros i sm [n p] Hi Hp%elem_of_map_to_list. by apply (wf_shard hash s Hs i sm n p).
  - intros sm _. apply NoDup_fst_map_to_list.
Qed.

Lemma start_merging (s : cvm) :
  wf hash s ->
  merging (make_heap cmp (List.filter (fun r => negb (bool_decide (r = []))) (snapshot s))).
Proof.
  intros Hs. set (l := List.filter _ (snapshot s)).
  assert (Hne : nonempty_runs l).
  { apply Forall_forall. intros r Hr. apply list_elem_of_In, filter_In in Hr as [_ Hr].
    by case_bool_decide. }
  assert (Hin : forall r, r ∈ l -> r ∈ snapshot s).
  { intros r Hr. apply list_elem_of_In, filter_In in Hr as [Hr _]. by apply list_elem_of_In. }
  split.
  - unfold nonempty_runs. by rewrite make_heap_permutation.
  - rewrite make_heap_permutation. apply Forall_forall. intros r Hr%Hin.
    unfold snapshot in Hr. apply list_elem_of_fmap in Hr as (sm & -> & _).
    apply sort_by_key_sorted, NoDup_fst_map_to_list.
  - by apply make_heap_heap.
  - rewrite (concat_Permutation _ _ (make_heap_permutation l)). unfold l.
    rewrite concat_filter_nonempty. by apply snapshot_NoDup.
Qed.

Lemma getValues_visit s w out :
  wf hash s ->
  exists l, StronglySorted key_lt l /\ (forall n p, (n, p) ∈ l <-> registered hash s n p) /\
    getValues invoke make_heap down_heap (s, w, out) = visit l (s, w, out).
Proof.
  intros Hs. pose proof (start_merging s Hs) as Hm.
  unfold getValues, invokeAndMergeInto. unfold se_bind at 1, se_get. cbn [fst].
  set (h := make_heap cmp _) in *.
  assert (Hp : concat h ≡ₚ concat (snapshot s)).
  { unfold h. by rewrite (concat_Permutation _ _ (make_heap_permutation _)), concat_filter_nonempty. }
  assert (Hf : (length (concat h) <= total_length (snapshot s))%nat).
  { rewrite Hp. unfold total_length. clear. induction (snapshot s) as [|r l IH]; [done|].
    rewrite fmap_cons. simpl. rewrite length_app. lia. }
  destruct (merge_order_spec make_heap down_heap (total_length (snapshot s)) h Hm Hf) as [Hsorted Hperm].
  exists (merge_order down_heap (total_length (snapshot s)) h). split; [done|]. split.
  - intros n p. rewrite Hperm, Hp. by apply snapshot_registered.
  - by apply merge_visit.
Qed.
End Values.

(** ** A heap that satisfies the laws: the sorted arrangement *)
Module SortedHeap.
Definition front_le (a b : list (string * nat)) : Prop := not_after a b.
#[export] Instance front_le_dec : RelDecision front_le.
Proof. intros a b. unfold front_le, not_after. apply _. Defined.

Definition sorted_heap (cmp : list (string * nat) -> list (string * nat) -> bool)
    (h : list (list (string * nat))) : list (list (string * nat)) :=
  merge_sort front_le h.

Lemma front_le_total : Total front_le.
Proof.
  intros a b. unfold front_le, not_after, cmp. destruct a as [|x a], b as [|y b]; auto.
  rewrite !bool_decide_eq_false, !str_not_lt. apply (total str_le).
Qed.

(** In a sorted list every run comes before the later ones. *)
Lemma sorted_is_heap h : nonempty_runs h -> Sorted front_le h -> is_heap h.
Proof.
  intros Hne Hs i x y _ Hx Hy.
  assert (Hstep : forall k j a b, h !! j = Some a -> h !! (j + k)%nat = Some b -> not_after a b).
  { induction k as [|k IH]; intros j a b Ha Hb.
    - rewrite Nat.add_0_r in Hb. assert (a = b) as <- by congruence.
      unfold not_after, cmp. destruct a; [done|].
      apply bool_decide_eq_false, (irreflexivity str_lt).
    - destruct (lookup_lt_is_Some_2 h (j + k)%nat) as [c Hc].
      { apply lookup_lt_Some in Hb. lia. }
      apply (not_after_trans a c b); [by apply (Forall_lookup_1 _ _ _ _ Hne Hc)|by apply (IH j)|].
      assert (Hadj : forall l n u v, Sorted front_le l -> l !! n = Some u -> l !! S n = Some v -> front_le u v).
      { clear. induction l as [|w l IHl]; intros n u v Hl Hu Hv; [done|].
        apply Sorted_inv in Hl as [Hl Hd]. destruct n as [|n].
        - simpl in *. simplify_eq. destruct l; [done|]. simpl in Hv. simplify_eq. by inversion Hd.
        - by apply (IHl n). }
      apply (Hadj h (j + k)%nat); [done..|]. rewrite <- Hb. f_equal. lia. }
  assert (Hle : (i / 2 <= S i)%nat).
  { pose proof (Nat.Div0.div_le_upper_bound i 2 i). lia. }
  apply (Hstep (S i - i / 2)%nat (i / 2)%nat); [done|]. rewrite <- Hx. f_equal. lia.
Qed.

#[export] Instance sorted_heap_ops : HeapOps sorted_heap sorted_heap.
Proof.
  pose proof front_le_total.
  assert (Hs : forall h, nonempty_runs h -> is_heap (sorted_heap cmp h)).
  { intros h Hne. apply sorted_is_heap; [|by apply (Sorted_merge_sort front_le)].
    unfold nonempty_runs, sorted_heap. by rewrite merge_sort_Permutation. }
  split; auto; intros h; apply merge_sort_Permutation.
Qed.
End SortedHeap.

(** ** Properties *)

(** C16: CallbackValuesMap is a registry of callbacks.  Any sequence of
    registrations (with and without overwrite), removals, clears, membership
    tests, key listings, regex listings and cache trims on a new map returns what
    a finite map from names to callbacks returns, and keeps the invariant: every
    key in the shard of its hash, every registered entry live and named after
    its key, every shard's regex cache in step with its keys.  The 128 shards
    and the entry objects do not show. *)
Theorem callback_map_refines_registry {Cb M} `{RegexMatchCache M} (hash : string -> Z)
    (os : list (@op Cb M _)) :
  let '(xs, s) := run_all hash os make in
  wf hash s /\ exists r, represents_registry hash s r /\ history os xs ∅ r.
Proof. exact (run_all_history hash os make ∅ (registry_wf_make hash) (registry_make hash)). Qed.

(** C27: [getValues] runs the registered callbacks once each, in ascending name
    order.  For any make_heap and down_heap that build heaps, the merge over the
    sharded snapshots ends and does exactly what visiting the registered entries
    one by one in name order does: each visit runs the entry's callback (an entry
    cleared in the meantime is skipped) and assigns its result in the output map,
    overriding what was there, until a callback throws. *)
Theorem getValues_in_name_order {T Cb W M} `{RegexMatchCache M} (hash : string -> Z)
    (invoke : Cb -> SE (cvm Cb M * W) T)
    (make_heap down_heap :
      (list (string * nat) -> list (string * nat) -> bool) ->
      list (list (string * nat)) -> list (list (string * nat)))
    (os : list (@op Cb M _)) (w : W) (out : gmap string T) :
  HeapOps make_heap down_heap ->
  let s := (run_all hash os make).2 in
  exists l, StronglySorted key_lt l /\ (forall n p, (n, p) ∈ l <-> registered hash s n p) /\
    getValues invoke make_heap down_heap (s, w, out) = visit invoke l (s, w, out).
Proof.
  intros Hops s. apply getValues_visit; [done|].
  pose proof (run_all_history hash os make ∅ (registry_wf_make hash) (registry_make hash)) as Hh.
  unfold s. destruct (run_all hash os make). apply Hh.
Qed.

(** Three names in two shards; the callback [n] adds [n] to a counter and
    returns the counter. *)
Section Example_.
Import PrefixCache.
Definition example_hash (n : string) : Z := Z.of_nat (String.length n).
Definition example_ops : list (@op Z cache _) :=
  [ORegister "rx" 1 true; ORegister "cpu" 2 true; ORegister "io" 3 true;
   ORegister "rx" 5 false; ORegister "io" 4 true; ORegister "gone" 9 true; OUnregister "gone"].
Lemma callback_map_refines_registry_witness :
  let '(xs, s) := run_all example_hash example_ops make in
  wf example_hash s /\ exists r, represents_registry example_hash s r /\ history example_ops xs ∅ r.
Proof. exact (callback_map_refines_registry example_hash example_ops). Defined.

Definition example_invoke (cb : Z) : SE (cvm Z cache * Z) Z :=
  fun st => (Ret (st.2 + cb), (st.1, st.2 + cb)).

Lemma getValues_in_name_order_witness :
  let s := (run_all example_hash example_ops make).2 in
  exists l, StronglySorted key_lt l /\ (forall n p, (n, p) ∈ l <-> registered example_hash s n p) /\
    getValues example_invoke SortedHeap.sorted_heap SortedHeap.sorted_heap (s, 10, {[ "io" := 7 ]})
    = visit example_invoke l (s, 10, {[ "io" := 7 ]}).
Proof.
  apply (getValues_in_name_order example_hash example_invoke
    SortedHeap.sorted_heap SortedHeap.sorted_heap example_ops 10 {[ "io" := 7 ]} SortedHeap.sorted_heap_ops).
Defined.
End Example_.
