(* ===== verification/ExportType.v ===== *)
(** * ExportType: export kinds and the constant lists of [src/fb303/ExportType.h]

    A quantile literal is kept as the decimal written in the source, in units of
    1/10000. *)
From S2P Require Import Prelude.
From Stdlib Require Import ZArith Lia Ascii String.
From stdpp Require Import base list strings.

Open Scope Z_scope.

(** [enum ExportType : int], in the order of the source. *)
Inductive ExportType := SUM | COUNT | AVG | RATE | PERCENT.

#[export] Instance ExportType_eq_dec : EqDecision ExportType.
Proof. solve_decision. Defined.

(** The underlying [int]. *)
Definition ExportType_to_Z (t : ExportType) : Z :=
  match t with SUM => 0 | COUNT => 1 | AVG => 2 | RATE => 3 | PERCENT => 4 end.

Module ExportTypeMeta.
Definition kExportTypes : list ExportType := [SUM; COUNT; AVG; RATE; PERCENT].
Definition kNumExportTypes : nat := length kExportTypes.
End ExportTypeMeta.

Module ExportTypeConsts.
Definition kNone : list ExportType := [].
Definition kSum : list ExportType := [SUM].
Definition kCount : list ExportType := [COUNT].
Definition kAvg : list ExportType := [AVG].
Definition kRate : list ExportType := [RATE].
Definition kSumCount : list ExportType := [SUM; COUNT].
Definition kSumAvg : list ExportType := [SUM; AVG].
Definition kSumRate : list ExportType := [SUM; RATE].
Definition kCountAvg : list ExportType := [COUNT; AVG].
Definition kCountRate : list ExportType := [COUNT; RATE].
Definition kAvgRate : list ExportType := [AVG; RATE].
Definition kSumCountAvg : list ExportType := [SUM; COUNT; AVG].
Definition kSumCountRate : list ExportType := [SUM; COUNT; RATE].
Definition kSumAvgRate : list ExportType := [SUM; AVG; RATE].
Definition kCountAvgRate : list ExportType := [COUNT; AVG; RATE].
Definition kSumCountAvgRate : list ExportType := [SUM; COUNT; AVG; RATE].
End ExportTypeConsts.

Module QuantileConsts.
Definition kP50_P95_P99 : list Z := [5000; 9500; 9900].
Definition kP50_P90_P95_P99 : list Z := [5000; 9000; 9500; 9900].
Definition kP95 : list Z := [9500].
Definition kP99 : list Z := [9900].
Definition kP999 : list Z := [9990].
Definition kP9999 : list Z := [9999].
Definition kP95_P99 : list Z := [9500; 9900].
Definition kP95_P999 : list Z := [9500; 9990].
Definition kP99_P999 : list Z := [9900; 9990].
Definition kP99_P100 : list Z := [9900; 10000].
Definition kP95_P99_P999 : list Z := [9500; 9900; 9990].
Definition kP95_P99_P999_P100 : list Z := [9500; 9900; 9990; 10000].
Definition kP95_P99_P100 : list Z := [9500; 9900; 10000].
Definition kP99_P999_P9999_P100 : list Z := [9900; 9990; 9999; 10000].
Definition kP5_P95_P99 : list Z := [500; 9500; 9900].
Definition kP5_P50_P95_P99 : list Z := [500; 5000; 9500; 9900].
Definition kP50_P75_P95_P99 : list Z := [5000; 7500; 9500; 9900].
Definition kP10_P50_P90_P99 : list Z := [1000; 5000; 9000; 9900].
Definition kP10_P50_P95_P99 : list Z := [1000; 5000; 9500; 9900].
Definition kP5_P50_P95_P99_P100 : list Z := [500; 5000; 9500; 9900; 10000].
Definition kP5_P50_P95_P99_P999_P9999_P100 : list Z := [500; 5000; 9500; 9900; 9990; 9999; 10000].
Definition kP5_P50_P95_P99_P9999_P100 : list Z := [500; 5000; 9500; 9900; 9999; 10000].
Definition kP10_P75_P95_P99_P100 : list Z := [1000; 7500; 9500; 9900; 10000].
Definition kP50_P75_P90_P95_P99 : list Z := [5000; 7500; 9000; 9500; 9900].
Definition kP1_P10_P50_P90_P99 : list Z := [100; 1000; 5000; 9000; 9900].
Definition kP1_P50_P99 : list Z := [100; 5000; 9900].
Definition kP10_P50_P90_P99_P100 : list Z := [1000; 5000; 9000; 9900; 10000].
Definition kP10_P50_P90_P95_P99_P100 : list Z := [1000; 5000; 9000; 9500; 9900; 10000].
Definition kP1_P10_P75_P90_P95_P99 : list Z := [100; 1000; 7500; 9000; 9500; 9900].
Definition kP50_P75_P90_P95_P99_P999 : list Z := [5000; 7500; 9000; 9500; 9900; 9990].
Definition kP50_kP95_kP99_P999_P9999_P100 : list Z := [5000; 9500; 9900; 9990; 9999; 10000].
Definition kP50_P70_P90_P95_P99 : list Z := [5000; 7000; 9000; 9500; 9900].
Definition kP50_P90_P99_P100 : list Z := [5000; 9000; 9900; 10000].
Definition kP50_P95_P99_P100 : list Z := [5000; 9500; 9900; 10000].
Definition kP0_P100 : list Z := [0; 10000].
Definition kP0_P50_P100 : list Z := [0; 5000; 10000].
Definition kP0_P99_P100 : list Z := [0; 9900; 10000].
Definition kP25_P50_P75_P95 : list Z := [2500; 5000; 7500; 9500].
Definition kP25_P50_P75_P95_P99 : list Z := [2500; 5000; 7500; 9500; 9900].
Definition kP5_P25_P50_P75_P95_P99 : list Z := [500; 2500; 5000; 7500; 9500; 9900].
Definition kP5_P10_P50_P90_P95_P99 : list Z := [500; 1000; 5000; 9000; 9500; 9900].

(** Every list, with the name it has in the source. *)
Definition all : list (string * list Z) := [
  ("kP50_P95_P99", kP50_P95_P99);
  ("kP50_P90_P95_P99", kP50_P90_P95_P99);
  ("kP95", kP95);
  ("kP99", kP99);
  ("kP999", kP999);
  ("kP9999", kP9999);
  ("kP95_P99", kP95_P99);
  ("kP95_P999", kP95_P999);
  ("kP99_P999", kP99_P999);
  ("kP99_P100", kP99_P100);
  ("kP95_P99_P999", kP95_P99_P999);
  ("kP95_P99_P999_P100", kP95_P99_P999_P100);
  ("kP95_P99_P100", kP95_P99_P100);
  ("kP99_P999_P9999_P100", kP99_P999_P9999_P100);
  ("kP5_P95_P99", kP5_P95_P99);
  ("kP5_P50_P95_P99", kP5_P50_P95_P99);
  ("kP50_P75_P95_P99", kP50_P75_P95_P99);
  ("kP10_P50_P90_P99", kP10_P50_P90_P99);
  ("kP10_P50_P95_P99", kP10_P50_P95_P99);
  ("kP5_P50_P95_P99_P100", kP5_P50_P95_P99_P100);
  ("kP5_P50_P95_P99_P999_P9999_P100", kP5_P50_P95_P99_P999_P9999_P100);
  ("kP5_P50_P95_P99_P9999_P100", kP5_P50_P95_P99_P9999_P100);
  ("kP10_P75_P95_P99_P100", kP10_P75_P95_P99_P100);
  ("kP50_P75_P90_P95_P99", kP50_P75_P90_P95_P99);
  ("kP1_P10_P50_P90_P99", kP1_P10_P50_P90_P99);
  ("kP1_P50_P99", kP1_P50_P99);
  ("kP10_P50_P90_P99_P100", kP10_P50_P90_P99_P100);
  ("kP10_P50_P90_P95_P99_P100", kP10_P50_P90_P95_P99_P100);
  ("kP1_P10_P75_P90_P95_P99", kP1_P10_P75_P90_P95_P99);
  ("kP50_P75_P90_P95_P99_P999", kP50_P75_P90_P95_P99_P999);
  ("kP50_kP95_kP99_P999_P9999_P100", kP50_kP95_kP99_P999_P9999_P100);
  ("kP50_P70_P90_P95_P99", kP50_P70_P90_P95_P99);
  ("kP50_P90_P99_P100", kP50_P90_P99_P100);
  ("kP50_P95_P99_P100", kP50_P95_P99_P100);
  ("kP0_P100", kP0_P100);
  ("kP0_P50_P100", kP0_P50_P100);
  ("kP0_P99_P100", kP0_P99_P100);
  ("kP25_P50_P75_P95", kP25_P50_P75_P95);
  ("kP25_P50_P75_P95_P99", kP25_P50_P75_P95_P99);
  ("kP5_P25_P50_P75_P95_P99", kP5_P25_P50_P75_P95_P99);
  ("kP5_P10_P50_P90_P95_P99", kP5_P10_P50_P90_P95_P99)].
End QuantileConsts.

Module SlidingWindowPeriodConsts.
Definition kOneMin : list Z := [60].
Definition kTenMin : list Z := [600].
Definition kOneMinTenMin : list Z := [60; 600].
Definition kOneMinTenMinHour : list Z := [60; 600; 3600].
End SlidingWindowPeriodConsts.

(** ** What a list's name says

    [kP50_P95_P99] stands for .5, .95, .99: one or two digits are percents, more
    digits are decimals after the point, and 100 is 1. *)
Fixpoint digits_value (s : string) (acc : Z) : option Z :=
  match s with
  | EmptyString => Some acc
  | String c s' =>
      let d := Z.of_nat (Ascii.nat_of_ascii c) - 48 in
      if (0 <=? d) && (d <=? 9) then digits_value s' (10 * acc + d) else None
  end.

Definition quantile_of (digits : string) : option Z :=
  v ← digits_value digits 0;
  match String.length digits with
  | 0%nat => None
  | 1%nat | 2%nat => Some (100 * v)
  | 3%nat => Some (if v =? 100 then 10000 else 10 * v)
  | 4%nat => Some v
  | _ => None
  end.

(** The pieces between underscores; a leading [k] and the [P] are dropped. *)
Fixpoint pieces (s cur : string) : list string :=
  match s with
  | EmptyString => [cur]
  | String c s' =>
      if Ascii.eqb c "_"%char then cur :: pieces s' ""
      else if Ascii.eqb c "k"%char || Ascii.eqb c "P"%char then pieces s' cur
      else pieces s' (cur ++ String c "")%string
  end.
Definition name_quantiles (name : string) : option (list Z) :=
  mapM quantile_of (pieces name "").

Fixpoint increasing (l : list Z) : bool :=
  match l with
  | x :: (y :: _) as l' => (x <? y) && increasing l'
  | _ => true
  end.

(** ** Properties *)

(** The quantile lists hold what their names say.  Each of the quantile
    lists contains exactly the quantiles spelled in its name, in increasing
    order, all between 0 and 1; the export types have consecutive underlying
    values and the list of all types holds each of them once, in that order. *)
Theorem quantile_lists_match_names :
  Forall (fun '(name, l) => name_quantiles name = Some l /\ increasing (-1 :: l ++ [10001]) = true)
    QuantileConsts.all /\
  (forall t, ExportTypeMeta.kExportTypes !! Z.to_nat (ExportType_to_Z t) = Some t) /\
  ExportTypeMeta.kNumExportTypes = 5%nat.
Proof.
  split; [|split; [by intros []|done]].
  repeat (apply Forall_cons; split; [split; vm_compute; reflexivity|]). by apply Forall_nil.
Qed.
