(* ===== verification/Timeseries.v ===== *)
(** * Timeseries: multi-level time series and their level tables

    [src/fb303/Timeseries.h], [Timeseries.cpp] and the tables of
    [TimeseriesHistogram.h].  The storage, [folly::MultiLevelTimeSeries], is not
    part of the repository: it is the class [FollyTimeseries] below.  A clock is
    its number of ticks per second. *)
From S2P Require Import Prelude.
From Stdlib Require Import ZArith Lia String.
From stdpp Require Import base list strings.

Open Scope Z_scope.
Open Scope fb303_scope.

(** ** Clocks *)
Definition seconds : Z := 1.
Definition milliseconds : Z := 1000.

(** [std::chrono::seconds] values in the ticks of a clock. *)
Definition in_ticks (clock : Z) (l : list Z) : list Z := (fun s => s * clock) <$> l.

(** [std::chrono::duration_cast] rounds towards zero. *)
Definition duration_cast (from to d : Z) : Z := Z.quot (d * to) from.

(** ** What the code relies on of [folly::MultiLevelTimeSeries<int64_t, CT>] *)
Class FollyTimeseries (TS : Type) := {
  ts_make : nat -> list Z -> TS;                 (** buckets, level durations *)
  ts_numBuckets : TS -> nat;
  ts_durations : TS -> list Z;                   (** [getLevel(i).duration()] *)
  ts_isAllTime : TS -> nat -> bool;

  ts_addValue : Z -> Z -> Z -> TS -> TS;         (** now, value, times *)
  ts_addValueAggregated : Z -> Z -> Z -> TS -> TS;
  ts_update : Z -> TS -> TS;
  ts_flush : TS -> TS;
  ts_clear : TS -> TS;

  ts_sum : TS -> nat -> Z;
  ts_count : TS -> nat -> Z;
  ts_avg : TS -> nat -> Z;                       (** [avg<int64_t>] *)
  ts_avg_double : TS -> nat -> double;
  ts_rate : Z -> TS -> nat -> Z;                 (** ticks of the interval *)
  ts_countRate : Z -> TS -> nat -> Z;
  ts_sumBy : TS -> nat -> Z -> Z;
  ts_countBy : TS -> nat -> Z -> Z;
  ts_avgBy : TS -> nat -> Z -> Z;
  ts_avgBy_double : TS -> nat -> Z -> double;
  ts_rateBy : Z -> TS -> nat -> Z -> Z;
  ts_countRateBy : Z -> TS -> nat -> Z -> Z;

  (** Laws: the levels are fixed at construction; a zero duration is all time. *)
  ts_make_levels : forall n ds, ts_numBuckets (ts_make n ds) = n /\ ts_durations (ts_make n ds) = ds;
  ts_isAllTime_spec : forall t i d, ts_durations t !! i = Some d -> ts_isAllTime t i = (d =? 0);
  ts_addValue_levels : forall now v k t, ts_durations (ts_addValue now v k t) = ts_durations t;
  ts_addValueAggregated_levels : forall now v k t,
    ts_durations (ts_addValueAggregated now v k t) = ts_durations t;
  ts_update_levels : forall now t, ts_durations (ts_update now t) = ts_durations t;
  ts_flush_levels : forall t, ts_durations (ts_flush t) = ts_durations t;
  ts_clear_levels : forall t, ts_durations (ts_clear t) = ts_durations t
}.

Definition ts_numLevels {TS} `{FollyTimeseries TS} (t : TS) : nat :=
  length (ts_durations t).

(** ** [fb303::MultiLevelTimeSeries] *)
Section Wrapper.
Context {TS : Type} `{FollyTimeseries TS}.

(** The rates are per second whatever the clock. *)
Definition rate (t : TS) (level : nat) : Z := ts_rate seconds t level.
Definition rateBy (t : TS) (level : nat) (now : Z) : Z := ts_rateBy seconds t level now.
Definition countRate (t : TS) (level : nat) : Z := ts_countRate seconds t level.
Definition countRateBy (t : TS) (level : nat) (now : Z) : Z := ts_countRateBy seconds t level now.

(** [detail::getDurations], from the clock of the series to another; the
    [DCHECK] is the loss of precision. *)
Fixpoint cast_all (from to : Z) (ds : list Z) : outcome (list Z) :=
  match ds with
  | [] => Ret []
  | original :: ds' =>
      let duration := duration_cast from to original in
      if duration_cast to from duration =? original then
        match cast_all from to ds' with
        | Ret l => Ret (duration :: l)
        | Throw e => Throw e
        end
      else Throw check_failed
  end.
Definition getDurations (from to : Z) (t : TS) : outcome (list Z) :=
  cast_all from to (ts_durations t).
End Wrapper.

(** The constructor that converts between clocks. *)
Definition convert {TS1 TS2} `{FollyTimeseries TS1} `{FollyTimeseries TS2}
    (from to : Z) (t : TS1) : outcome TS2 :=
  match getDurations from to t with
  | Ret ds => Ret (ts_make (ts_numBuckets t) ds)
  | Throw e => Throw e
  end.

(** ** The level tables

    A class of the headers: its clock, its number of buckets, the array of
    durations passed to the base class, and its [enum Levels] up to
    [NUM_LEVELS]. *)
Record level_table := Table {
  clock : Z; num_buckets : nat; durations : list Z; levels : list string
}.
Definition NUM_LEVELS (t : level_table) : nat := length (levels t).

Definition kMinuteDurations : list Z := in_ticks milliseconds [60; 0].
Definition MinuteTimeSeries : level_table :=
  Table milliseconds 60 kMinuteDurations ["MINUTE"; "ALLTIME"].

Definition kMinuteHourDurations : list Z := in_ticks milliseconds [60; 3600; 0].
Definition MinuteHourTimeSeries : level_table :=
  Table milliseconds 60 kMinuteHourDurations ["MINUTE"; "HOUR"; "ALLTIME"].

Definition kMinuteTenMinuteHourDurations : list Z := in_ticks milliseconds [60; 600; 3600; 0].
Definition MinuteTenMinuteHourTimeSeries : level_table :=
  Table milliseconds 60 kMinuteTenMinuteHourDurations ["MINUTE"; "TEN_MINUTE"; "HOUR"; "ALLTIME"].

Definition kMinuteHourDayDurations : list Z := in_ticks milliseconds [60; 3600; 86400; 0].
Definition MinuteHourDayTimeSeries : level_table :=
  Table milliseconds 60 kMinuteHourDayDurations ["MINUTE"; "HOUR"; "DAY"; "ALLTIME"].

Definition kMinuteTenMinuteDurations : list Z := in_ticks milliseconds [60; 600; 0].
Definition MinuteTenMinuteTimeSeries : level_table :=
  Table milliseconds 60 kMinuteTenMinuteDurations ["MINUTE"; "TEN_MINUTE"; "ALLTIME"].

Definition kTenMinuteHourDurations : list Z := in_ticks milliseconds [600; 3600].
Definition TenMinuteHourTimeSeries : level_table :=
  Table milliseconds 60 kTenMinuteHourDurations ["TEN_MINUTE"; "HOUR"].

Definition kQuarterMinuteOnlyDurations : list Z := in_ticks milliseconds [15].
Definition QuarterMinuteOnlyTimeSeries : level_table :=
  Table milliseconds 15 kQuarterMinuteOnlyDurations ["QUARTER_MINUTE"].

Definition kMinuteOnlyDurations : list Z := in_ticks milliseconds [60].
Definition MinuteOnlyTimeSeries : level_table :=
  Table milliseconds 60 kMinuteOnlyDurations ["MINUTE"].

Definition kMinuteFiveMinuteOnlyDurations : list Z := in_ticks milliseconds [60; 300].
Definition MinuteFiveMinuteOnlyTimeSeries : level_table :=
  Table milliseconds 60 kMinuteFiveMinuteOnlyDurations ["MINUTE"; "FIVE_MINUTE"].

Definition kTenMinuteOnlyDurations : list Z := in_ticks milliseconds [600].
Definition TenMinuteOnlyTimeSeries : level_table :=
  Table milliseconds 60 kTenMinuteOnlyDurations ["TEN_MINUTE"].

Definition kMinuteTenMinuteOnlyDurations : list Z := in_ticks milliseconds [60; 600].
Definition MinuteTenMinuteOnlyTimeSeries : level_table :=
  Table milliseconds 60 kMinuteTenMinuteOnlyDurations ["MINUTE"; "TEN_MINUTE"].

Definition kHourDurations : list Z := in_ticks milliseconds [3600; 0].
Definition HourTimeSeries : level_table :=
  Table milliseconds 60 kHourDurations ["HOUR"; "ALLTIME"].

Definition kTenMinutesChunksDurations : list Z := in_ticks milliseconds [600; 1200; 1800].
Definition TenMinutesChunksTimeSeries : level_table :=
  Table milliseconds 60 kTenMinutesChunksDurations ["TEN_MINUTES"; "TWENTY_MINUTES"; "THIRTY_MINUTES"].

Definition kSubminuteMinuteDurations : list Z := in_ticks milliseconds [5; 10; 20; 30; 60; 0].
Definition SubminuteMinuteTimeSeries : level_table :=
  Table milliseconds 60 kSubminuteMinuteDurations ["FIVE_SECOND"; "TEN_SECOND"; "TWENTY_SECOND"; "THIRTY_SECOND"; "MINUTE"; "ALLTIME"].

Definition kSubminuteMinuteOnlyDurations : list Z := in_ticks milliseconds [5; 10; 20; 30; 60].
Definition SubminuteMinuteOnlyTimeSeries : level_table :=
  Table milliseconds 60 kSubminuteMinuteOnlyDurations ["FIVE_SECOND"; "TEN_SECOND"; "TWENTY_SECOND"; "THIRTY_SECOND"; "MINUTE"].

Definition kHistogramMinuteTenMinuteHourDurations : list Z := in_ticks seconds [60; 600; 3600; 0].
Definition HistogramMinuteTenMinuteHourTimeSeries : level_table :=
  Table seconds 60 kHistogramMinuteTenMinuteHourDurations ["MINUTE"; "TEN_MINUTE"; "HOUR"; "ALLTIME"].

Definition kHistogramSubminuteMinuteOnlyDurations : list Z := in_ticks seconds [5; 10; 20; 30; 60].
Definition HistogramSubminuteMinuteOnlyTimeSeries : level_table :=
  Table seconds 60 kHistogramSubminuteMinuteOnlyDurations ["FIVE_SECOND"; "TEN_SECOND"; "TWENTY_SECOND"; "THIRTY_SECOND"; "MINUTE"].

Definition kHistogramMinuteOnlyDurations : list Z := in_ticks seconds [60].
Definition HistogramMinuteOnlyTimeSeries : level_table :=
  Table seconds 60 kHistogramMinuteOnlyDurations ["MINUTE"].

Definition kHistogramMinuteTenMinuteOnlyDurations : list Z := in_ticks seconds [60; 600].
Definition HistogramMinuteTenMinuteOnlyTimeSeries : level_table :=
  Table seconds 60 kHistogramMinuteTenMinuteOnlyDurations ["MINUTE"; "TEN_MINUTE"].

(** Every class of the two headers. *)
Definition all_tables : list (string * level_table) := [
  ("MinuteTimeSeries", MinuteTimeSeries);
  ("MinuteHourTimeSeries", MinuteHourTimeSeries);
  ("MinuteTenMinuteHourTimeSeries", MinuteTenMinuteHourTimeSeries);
  ("MinuteHourDayTimeSeries", MinuteHourDayTimeSeries);
  ("MinuteTenMinuteTimeSeries", MinuteTenMinuteTimeSeries);
  ("TenMinuteHourTimeSeries", TenMinuteHourTimeSeries);
  ("QuarterMinuteOnlyTimeSeries", QuarterMinuteOnlyTimeSeries);
  ("MinuteOnlyTimeSeries", MinuteOnlyTimeSeries);
  ("MinuteFiveMinuteOnlyTimeSeries", MinuteFiveMinuteOnlyTimeSeries);
  ("TenMinuteOnlyTimeSeries", TenMinuteOnlyTimeSeries);
  ("MinuteTenMinuteOnlyTimeSeries", MinuteTenMinuteOnlyTimeSeries);
  ("HourTimeSeries", HourTimeSeries);
  ("TenMinutesChunksTimeSeries", TenMinutesChunksTimeSeries);
  ("SubminuteMinuteTimeSeries", SubminuteMinuteTimeSeries);
  ("SubminuteMinuteOnlyTimeSeries", SubminuteMinuteOnlyTimeSeries);
  ("HistogramMinuteTenMinuteHourTimeSeries", HistogramMinuteTenMinuteHourTimeSeries);
  ("HistogramSubminuteMinuteOnlyTimeSeries", HistogramSubminuteMinuteOnlyTimeSeries);
  ("HistogramMinuteOnlyTimeSeries", HistogramMinuteOnlyTimeSeries);
  ("HistogramMinuteTenMinuteOnlyTimeSeries", HistogramMinuteTenMinuteOnlyTimeSeries)].

(** The object a class constructs; the base reads [NUM_LEVELS] durations from the
    array, and reading past its end is undefined. *)
Definition construct {TS} `{FollyTimeseries TS} (t : level_table) : outcome TS :=
  if Nat.leb (NUM_LEVELS t) (length (durations t))
  then Ret (ts_make (num_buckets t) (take (NUM_LEVELS t) (durations t)))
  else Throw undefined_behaviour.

(** ** What a level's name says, in seconds *)
Definition level_seconds (name : string) : option Z :=
  match filter (fun p : string * Z => p.1 = name)
    [("FIVE_SECOND", 5); ("TEN_SECOND", 10); ("QUARTER_MINUTE", 15); ("TWENTY_SECOND", 20);
     ("THIRTY_SECOND", 30); ("MINUTE", 60); ("FIVE_MINUTE", 300); ("TEN_MINUTE", 600);
     ("TEN_MINUTES", 600); ("TWENTY_MINUTES", 1200); ("THIRTY_MINUTES", 1800); ("HOUR", 3600);
     ("DAY", 86400); ("ALLTIME", 0)]%string with
  | p :: _ => Some p.2
  | [] => None
  end.

(** folly's condition on levels: strictly increasing, and all-time only last. *)
Fixpoint levels_ok (prev : Z) (ds : list Z) : bool :=
  match ds with
  | [] => true
  | [d] => (d =? 0) || (prev <? d)
  | d :: ds' => (prev <? d) && levels_ok d ds'
  end.

Definition table_ok (t : level_table) : bool :=
  bool_decide (mapM level_seconds (levels t) = Some ((fun d => d / clock t) <$> durations t)) &&
  levels_ok 0 (durations t) && Nat.eqb (NUM_LEVELS t) (length (durations t)) &&
  forallb (fun d => d mod clock t =? 0) (durations t).

Lemma all_tables_ok : Forall (fun p => table_ok p.2 = true) all_tables.
Proof. repeat (apply Forall_cons; split; [vm_compute; reflexivity|]). by apply Forall_nil. Qed.

Lemma all_tables_clock : Forall (fun p => 0 < clock p.2) all_tables.
Proof. repeat (apply Forall_cons; split; [vm_compute; reflexivity|]). by apply Forall_nil. Qed.

(** A cast between clocks is exact on multiples of a second. *)
Lemma cast_all_seconds from to (l : list Z) :
  0 < from -> 0 < to -> cast_all from to (in_ticks from l) = Ret (in_ticks to l).
Proof.
  intros Hf Ht. induction l as [|s l IH]; [done|]. unfold in_ticks in *. rewrite !fmap_cons.
  cbn [cast_all]. assert (E : duration_cast from to (s * from) = s * to).
  { unfold duration_cast. replace (s * from * to) with (s * to * from) by lia. by rewrite Z.quot_mul by lia. }
  rewrite E. assert (E2 : duration_cast to from (s * to) = s * from).
  { unfold duration_cast. replace (s * to * from) with (s * from * to) by lia. by rewrite Z.quot_mul by lia. }
  by rewrite E2, Z.eqb_refl, IH.
Qed.

Lemma whole_seconds c ds :
  0 < c -> forallb (fun d => d mod c =? 0) ds = true -> ds = in_ticks c ((fun d => d / c) <$> ds).
Proof.
  intros Hc. induction ds as [|d ds IH]; [done|]. cbn [forallb]. intros [Hd Hds]%andb_true_iff.
  unfold in_ticks in *. rewrite !fmap_cons. f_equal; [|by apply IH].
  apply Z.eqb_eq in Hd. pose proof (Z.div_mod d c). lia.
Qed.

(** ** A series that satisfies the laws

    It keeps every event and answers a level by the events not older than its
    duration. *)
Module EventSeries.
Record event := Event { at_ : Z; ev_sum : Z; ev_count : Z }.
Record series := Series { buckets : nat; level_durations : list Z; events : list event; latest : Z }.

Definition in_level (t : series) (i : nat) (now : Z) : list event :=
  match level_durations t !! i with
  | Some d => if d =? 0 then events t else List.filter (fun e => now - d <? at_ e) (events t)
  | None => []
  end.
Definition sumBy (t : series) (i : nat) (now : Z) : Z :=
  foldr (fun e s => ev_sum e + s) 0 (in_level t i now).
Definition countBy (t : series) (i : nat) (now : Z) : Z :=
  foldr (fun e s => ev_count e + s) 0 (in_level t i now).
Definition avgBy (t : series) (i : nat) (now : Z) : Z :=
  if countBy t i now =? 0 then 0 else Z.quot (sumBy t i now) (countBy t i now).
Definition per_interval (ticks : Z) (t : series) (i : nat) (x : Z) : Z :=
  match level_durations t !! i with
  | Some d => if d =? 0 then x else Z.quot (x * 1000) (d * ticks)
  | None => 0
  end.
Definition add (now s c : Z) (t : series) : series :=
  Series (buckets t) (level_durations t) (Event now s c :: events t) (Z.max now (latest t)).

#[local] Obligation Tactic := idtac.
#[export] Program Instance event_series : FollyTimeseries series := {|
  ts_make n ds := Series n ds [] 0;
  ts_numBuckets := buckets;
  ts_durations := level_durations;
  ts_isAllTime t i := match level_durations t !! i with Some d => d =? 0 | None => false end;
  ts_addValue now v k := add now (v * k) k;
  ts_addValueAggregated now s k := add now s k;
  ts_update now t := Series (buckets t) (level_durations t) (events t) (Z.max now (latest t));
  ts_flush t := t;
  ts_clear t := Series (buckets t) (level_durations t) [] 0;
  ts_sum t i := sumBy t i (latest t);
  ts_count t i := countBy t i (latest t);
  ts_avg t i := avgBy t i (latest t);
  ts_avg_double t i := double_of_Z (avgBy t i (latest t));
  ts_rate ticks t i := per_interval ticks t i (sumBy t i (latest t));
  ts_countRate ticks t i := per_interval ticks t i (countBy t i (latest t));
  ts_sumBy := sumBy;
  ts_countBy := countBy;
  ts_avgBy := avgBy;
  ts_avgBy_double t i now := double_of_Z (avgBy t i now);
  ts_rateBy ticks t i now := per_interval ticks t i (sumBy t i now);
  ts_countRateBy ticks t i now := per_interval ticks t i (countBy t i now)
|}.
Next Obligation. done. Qed.
Next Obligation. intros t i d Hd. simpl. by rewrite Hd. Qed.
Solve Obligations with done.
End EventSeries.

(** ** Properties *)

(** Every time-series class of the headers is well formed.  For each of the
    nineteen classes, the object constructed has exactly the levels its [enum]
    names, level [i] lasting what the [i]-th name says; the durations satisfy
    folly's condition (strictly increasing, all-time only as the last level);
    and the array is as long as [NUM_LEVELS], so no duration is read out of
    bounds. *)
Theorem level_tables_wellformed {TS} `{FollyTimeseries TS} (name : string) (t : level_table) :
  (name, t) ∈ all_tables ->
  exists ts, construct (TS := TS) t = Ret ts /\
    mapM level_seconds (levels t) = Some ((fun d => d / clock t) <$> ts_durations ts) /\
    levels_ok 0 (ts_durations ts) = true /\ ts_numBuckets ts = num_buckets t.
Proof.
  intros Hin. pose proof all_tables_ok as Hall. rewrite Forall_forall in Hall.
  specialize (Hall _ Hin). cbn [snd] in Hall. unfold table_ok in Hall.
  apply andb_true_iff in Hall as [[[Hl Ho]%andb_true_iff Hn]%andb_true_iff _].
  apply bool_decide_eq_true in Hl. apply Nat.eqb_eq in Hn.
  exists (ts_make (num_buckets t) (durations t)). unfold construct. rewrite Hn, Nat.leb_refl, firstn_all.
  destruct (ts_make_levels (num_buckets t) (durations t)) as [-> ->]. done.
Qed.

(** Converting between clocks loses nothing.  Constructing any class of the
    headers and converting it to any other clock (as [TimeseriesHistogram] does
    from milliseconds to seconds) passes the precision check, keeps the number
    of buckets and the level durations in seconds, and converting back gives
    the original durations. *)
Theorem clock_conversion_exact {TS1 TS2} `{FollyTimeseries TS1} `{FollyTimeseries TS2}
    (name : string) (t : level_table) (to : Z) :
  (name, t) ∈ all_tables -> 0 < to ->
  exists (a b : TS1) (c : TS2),
    construct t = Ret a /\ convert (clock t) to a = Ret c /\ convert to (clock t) c = Ret b /\
    ts_durations c = in_ticks to ((fun d => d / clock t) <$> durations t) /\
    ts_durations b = ts_durations a /\ ts_numBuckets b = num_buckets t.
Proof.
  intros Hin Hto. pose proof all_tables_ok as Hall. rewrite Forall_forall in Hall.
  specialize (Hall _ Hin). cbn [snd] in Hall. unfold table_ok in Hall.
  apply andb_true_iff in Hall as [[_ Hn]%andb_true_iff Hs]. apply Nat.eqb_eq in Hn.
  assert (Hc : 0 < clock t).
  { pose proof all_tables_clock as Hcl. rewrite Forall_forall in Hcl. by apply (Hcl _ Hin). }
  pose proof (whole_seconds _ _ Hc Hs) as Hw. set (l := (fun d => d / clock t) <$> durations t) in *.
  exists (ts_make (num_buckets t) (durations t)), (ts_make (num_buckets t) (durations t)),
    (ts_make (num_buckets t) (in_ticks to l)).
  unfold construct, convert, getDurations. rewrite Hn, Nat.leb_refl, firstn_all.
  destruct (ts_make_levels (TS := TS1) (num_buckets t) (durations t)) as [Eb Ed].
  destruct (ts_make_levels (TS := TS2) (num_buckets t) (in_ticks to l)) as [Eb2 Ed2].
  assert (E1 : cast_all (clock t) to (durations t) = Ret (in_ticks to l))
    by (rewrite Hw; apply cast_all_seconds; lia).
  assert (E2 : cast_all to (clock t) (in_ticks to l) = Ret (durations t))
    by (rewrite Hw at 1; apply cast_all_seconds; lia).
  rewrite Eb, Ed, Eb2, Ed2, E1, E2. done.
Qed.

Section Example_.
Import EventSeries.

Lemma level_tables_wellformed_witness :
  ("SubminuteMinuteTimeSeries"%string, SubminuteMinuteTimeSeries) ∈ all_tables /\
  exists ts, construct (TS := series) SubminuteMinuteTimeSeries = Ret ts /\
    mapM level_seconds (levels SubminuteMinuteTimeSeries) =
      Some ((fun d => d / clock SubminuteMinuteTimeSeries) <$> ts_durations ts) /\
    levels_ok 0 (ts_durations ts) = true /\ ts_numBuckets ts = num_buckets SubminuteMinuteTimeSeries.
Proof.
  assert (Hin : ("SubminuteMinuteTimeSeries"%string, SubminuteMinuteTimeSeries) ∈ all_tables).
  { apply (list_elem_of_lookup_2 _ 13). reflexivity. }
  split; [exact Hin|].
  apply (level_tables_wellformed (TS := series) "SubminuteMinuteTimeSeries"). exact Hin.
Defined.

Lemma clock_conversion_exact_witness :
  exists (a b c : series),
    construct MinuteHourTimeSeries = Ret a /\ convert milliseconds seconds a = Ret c /\
    convert seconds milliseconds c = Ret b /\
    ts_durations c = in_ticks seconds [60; 3600; 0] /\
    ts_durations b = ts_durations a /\ ts_numBuckets b = 60%nat.
Proof.
  apply (clock_conversion_exact (TS1 := series) (TS2 := series) "MinuteHourTimeSeries" MinuteHourTimeSeries seconds).
  - apply (list_elem_of_lookup_2 _ 1). reflexivity.
  - reflexivity.
Defined.
End Example_.
