(* ===== verification/CounterNames.v ===== *)
(** * CounterNames: the strings exported names are made of

    C strings and [snprintf] as [TimeseriesExporter::getCounterName] uses them,
    the decimal numbers of [%ld] and of [fmt::format], and the decomposition of a
    dotted name at its last dots. *)
From S2P Require Import Prelude.
From Stdlib Require Import ZArith Lia Ascii String.
From stdpp Require Import base list strings pretty.

Open Scope Z_scope.

Abbreviation chars := list_ascii_of_string (only parsing).
Definition dot : ascii := "."%char.
Definition nul : ascii := Ascii.zero.

(** ** C strings *)

(** What a [char*] to these bytes denotes: the bytes before the first NUL. *)
Fixpoint c_str (s : string) : string :=
  match s with
  | EmptyString => EmptyString
  | String c s' => if Ascii.eqb c nul then EmptyString else String c (c_str s')
  end.

Fixpoint str_take (n : nat) (s : string) : string :=
  match n, s with
  | S n', String c s' => String c (str_take n' s')
  | _, _ => EmptyString
  end.

(** [%.*s] of the [prec] bytes at [data]; a negative precision reads on until a
    NUL, past the bytes given. *)
Definition format_prec (prec : Z) (data : string) : outcome string :=
  if prec <? 0 then Throw undefined_behaviour
  else Ret (str_take (Z.to_nat prec) (c_str data)).

(** [snprintf] with a positive [int] size: what the buffer holds as a C string. *)
Definition snprintf (size : Z) (text : string) : outcome string :=
  if size <=? 0 then Throw undefined_behaviour
  else Ret (str_take (Z.to_nat (size - 1)) text).

(** [%ld], and [{}] of an integer. *)
Definition decimal (z : Z) : string := pretty z.

(** ** Lemmas *)
Definition no_char (c : ascii) (s : string) : bool :=
  forallb (fun x => negb (Ascii.eqb x c)) (chars s).

Lemma chars_app s t : chars (s +:+ t) = chars s ++ chars t.
Proof. induction s as [|c s IH]; simpl; [done|]. simpl in IH. rewrite IH. done. Qed.

Lemma chars_inj s t : chars s = chars t -> s = t.
Proof. intros E. rewrite <- (string_of_list_ascii_of_string s), E. apply string_of_list_ascii_of_string. Qed.

Lemma str_app_inv_head (p s t : string) : p +:+ s = p +:+ t -> s = t.
Proof. intros E. apply chars_inj. apply (f_equal list_ascii_of_string) in E. rewrite !chars_app in E. by apply app_inv_head in E. Qed.

Lemma str_cons_app c (s t : string) : String c s +:+ t = String c (s +:+ t).
Proof. reflexivity. Qed.

Lemma str_app_assoc (s t u : string) : (s +:+ t) +:+ u = s +:+ t +:+ u.
Proof. induction s as [|c s IH]; [done|]. by rewrite !str_cons_app, IH. Qed.

Lemma str_app_nil_r (s : string) : s +:+ "" = s.
Proof. induction s as [|c s IH]; [done|]. by rewrite str_cons_app, IH. Qed.

Lemma str_length_app (s t : string) : String.length (s +:+ t) = (String.length s + String.length t)%nat.
Proof. induction s as [|c s IH]; [done|]. rewrite str_cons_app. simpl. by rewrite IH. Qed.

Lemma no_char_app c s t : no_char c (s +:+ t) = no_char c s && no_char c t.
Proof. unfold no_char. by rewrite chars_app, forallb_app. Qed.

Lemma no_char_not_in c s : no_char c s = true -> c ∉ chars s.
Proof.
  unfold no_char. rewrite forallb_forall. intros Hf Hin. apply list_elem_of_In, Hf in Hin.
  by rewrite Ascii.eqb_refl in Hin.
Qed.

(** The part after the last [c] is determined. *)
Lemma snoc_char_inj (c : ascii) (l l' d d' : list ascii) :
  c ∉ d -> c ∉ d' -> l ++ c :: d = l' ++ c :: d' -> l = l' /\ d = d'.
Proof.
  intros Hd Hd' E. apply app_eq_app in E as [[|x k] [[-> E]|[-> E]]]; simpl in E; simplify_eq;
    rewrite ?app_nil_r; [done|done| |].
  - destruct Hd'. apply elem_of_app. right. left.
  - destruct Hd. apply elem_of_app. right. left.
Qed.

Lemma last_dot_inj (p p' d d' : string) :
  no_char dot d = true -> no_char dot d' = true ->
  p +:+ String dot d = p' +:+ String dot d' -> p = p' /\ d = d'.
Proof.
  intros Hd Hd' E. apply (f_equal list_ascii_of_string) in E. rewrite !chars_app in E.
  apply snoc_char_inj in E as [E1 E2]; [|by apply no_char_not_in..].
  by split; apply chars_inj.
Qed.

(** *** Decimal numbers *)
Definition numeral (c : ascii) : bool :=
  Ascii.eqb c "-"%char ||
  (N.leb 48 (N_of_ascii c) && N.leb (N_of_ascii c) 57).

Lemma pretty_char_numeral n : (n < 10)%N -> numeral (pretty_N_char n) = true.
Proof.
  intros Hn. destruct n as [|p]; [done|].
  do 4 (destruct p as [p|p|]; try reflexivity; try (exfalso; lia)).
Qed.

Lemma pretty_go_numeral n s :
  forallb numeral (chars s) = true -> forallb numeral (chars (pretty_N_go n s)) = true.
Proof.
  revert s. induction (N.lt_wf_0 n) as [n _ IH]; intros s Hs.
  destruct (decide (0 < n)%N) as [Hn|Hn].
  - rewrite pretty_N_go_step by done. apply IH; [by apply N.div_lt|].
    simpl. rewrite pretty_char_numeral by (by apply N.mod_lt). done.
  - assert (n = 0)%N as -> by lia. done.
Qed.

Lemma pretty_go_length n s k :
  (n < 10 ^ N.of_nat k)%N -> (String.length (pretty_N_go n s) <= k + String.length s)%nat.
Proof.
  revert n s. induction k as [|k IH]; intros n s Hn.
  - change (10 ^ N.of_nat 0)%N with 1%N in Hn. assert (n = 0)%N as -> by lia. done.
  - destruct (decide (0 < n)%N) as [Hp|Hp].
    + rewrite pretty_N_go_step by done. etrans; [apply IH|simpl; lia].
      rewrite Nat2N.inj_succ, N.pow_succ_r' in Hn. apply N.Div0.div_lt_upper_bound. lia.
    + assert (n = 0)%N as -> by lia. rewrite pretty_N_go_0. lia.
Qed.

Lemma pretty_go_cons n c s : pretty_N_go n (String c s) <> "".
Proof.
  revert c s. induction (N.lt_wf_0 n) as [m _ IH]; intros c s. destruct (decide (0 < m)%N) as [Hm|Hm].
  - rewrite pretty_N_go_step by done. by apply IH, N.div_lt.
  - assert (m = 0)%N as -> by lia. done.
Qed.

Lemma pretty_go_nonempty n : (0 < n)%N -> pretty_N_go n "" <> "".
Proof. intros Hn. rewrite pretty_N_go_step by done. apply pretty_go_cons. Qed.

Lemma decimal_numerals z : forallb numeral (chars (decimal z)) = true.
Proof.
  assert (Hpos : forall p, forallb numeral (chars (pretty (N.pos p))) = true).
  { intros p. unfold pretty, pretty_N. case_decide; [done|]. by apply pretty_go_numeral. }
  destruct z as [|p|p]; simpl; [done|apply Hpos|]. apply Hpos.
Qed.

Lemma decimal_no_dot z : no_char dot (decimal z) = true.
Proof.
  unfold no_char. pose proof (decimal_numerals z) as Hn. rewrite !forallb_forall in *.
  intros c Hc. specialize (Hn c Hc). destruct (Ascii.eqb_spec c dot) as [->|]; [by vm_compute in Hn|done].
Qed.

Lemma decimal_head z : exists c s, decimal z = String c s /\ numeral c = true.
Proof.
  pose proof (decimal_numerals z) as Hn. destruct (decimal z) as [|c s] eqn:E.
  - exfalso. destruct z as [|p|p]; [done| |done]. unfold decimal, pretty, pretty_Z, pretty, pretty_positive, pretty, pretty_N in E.
    case_decide; [done|]. by apply pretty_go_nonempty in E.
  - exists c, s. split; [done|]. simpl in Hn. by apply andb_true_iff in Hn as [? _].
Qed.

Lemma decimal_inj a b : decimal a = decimal b -> a = b.
Proof. apply (inj pretty). Qed.

Lemma decimal_length z : in_s 64 z -> (String.length (decimal z) <= 20)%nat.
Proof.
  intros [Hl Hu]. unfold smin, smax in *.
  assert (Hpos : forall p, Z.pos p <= 2 ^ 63 -> (String.length (pretty (N.pos p)) <= 19)%nat).
  { intros p Hp. unfold pretty, pretty_N. case_decide; [simpl; lia|].
    etrans; [apply (pretty_go_length _ _ 19)|simpl; lia].
    change (10 ^ N.of_nat 19)%N with 10000000000000000000%N. lia. }
  destruct z as [|p|p]; [cbn; lia| |].
  - etrans; [apply Hpos|]; lia.
  - change (decimal (Z.neg p)) with ("-" +:+ pretty (N.pos p)). rewrite str_length_app.
    assert (String.length (pretty (N.pos p)) <= 19)%nat by (apply Hpos; lia). simpl. lia.
Qed.

(** *** C strings *)
Lemma str_take_all n s : (String.length s <= n)%nat -> str_take n s = s.
Proof. revert n. induction s as [|c s IH]; intros [|n] Hn; simpl in *; try done; [lia|]. by rewrite IH by lia. Qed.

Lemma c_str_id s : no_char nul s = true -> c_str s = s.
Proof.
  unfold no_char. induction s as [|c s IH]; simpl; [done|]. intros [Hc Hs]%andb_true_iff.
  apply negb_true_iff in Hc. by rewrite Hc, IH.
Qed.

Lemma c_str_length s : (String.length (c_str s) <= String.length s)%nat.
Proof. induction s as [|c s IH]; simpl; [done|]. case_if; simpl; lia. Qed.

Lemma format_prec_whole data :
  format_prec (Z.of_nat (String.length data)) data = Ret (c_str data).
Proof.
  unfold format_prec. destruct (Z.ltb_spec (Z.of_nat (String.length data)) 0); [lia|].
  rewrite Nat2Z.id, str_take_all by apply c_str_length. done.
Qed.

Lemma snprintf_fits size text :
  Z.of_nat (String.length text) < size -> snprintf size text = Ret text.
Proof.
  intros Hs. unfold snprintf. destruct (Z.leb_spec size 0); [lia|].
  rewrite str_take_all by lia. done.
Qed.
