(* ===== verification/NamedCallbacks.v ===== *)
(** * NamedCallbacks: what exporters rely on of a map of callbacks

    The exporters only register and unregister callbacks under names.  The class
    states what that promises; [CallbackValuesMap] discharges it below.  A
    registration may throw (the regex cache allocates); then no other name has
    changed,
    and this one is free, as before, or bound to the new callback. *)
From S2P Require Import Prelude RegexUtil CallbackValuesMap CallbackRegistry.
From Stdlib Require Import ZArith Lia String.
From stdpp Require Import base gmap list strings.

Open Scope Z_scope.
Open Scope fb303_scope.

Class NamedCallbacks (S Cb : Type) := {
  nc_register : string -> Cb -> bool -> SE S unit;      (** name, callback, overwrite *)
  nc_unregister : string -> SE S bool;
  nc_wf : S -> Prop;
  nc_lookup : S -> string -> option Cb;

  nc_register_spec : forall s n cb (overwrite : bool), nc_wf s ->
    let '(o, s') := nc_register n cb overwrite s in
    nc_wf s' /\ (forall m, m <> n -> nc_lookup s' m = nc_lookup s m) /\
    (nc_lookup s' n = None \/ nc_lookup s' n = nc_lookup s n \/ nc_lookup s' n = Some cb) /\
    (o = Ret tt -> nc_lookup s' n =
      Some (match nc_lookup s n with Some old => if overwrite then cb else old | None => cb end));
  nc_unregister_spec : forall s n, nc_wf s ->
    let '(o, s') := nc_unregister n s in
    nc_wf s' /\ o = Ret (bool_decide (is_Some (nc_lookup s n))) /\
    forall m, nc_lookup s' m = if decide (m = n) then None else nc_lookup s m
}.

(** ** Registering and unregistering a list of names *)
Section Many.
Context {S Cb : Type} `{NamedCallbacks S Cb}.

Fixpoint register_all (l : list (string * Cb)) (overwrite : bool) : SE S unit :=
  match l with
  | [] => se_ret tt
  | (n, cb) :: l' => nc_register n cb overwrite >>> register_all l' overwrite
  end.

Fixpoint unregister_all (l : list string) : SE S unit :=
  match l with
  | [] => se_ret tt
  | n :: l' => let* _ := nc_unregister n in unregister_all l'
  end.

(** What a name stands for after the registrations [l]. *)
Definition registered_as (l : list (string * Cb)) (overwrite : bool) (old : option Cb) (m : string)
  : option Cb :=
  match (list_to_map l : gmap string Cb) !! m, old with
  | Some cb, Some o => Some (if overwrite then cb else o)
  | Some cb, None => Some cb
  | None, o => o
  end.

Lemma register_all_effect s l (overwrite : bool) :
  nc_wf s -> NoDup l.*1 ->
  let '(o, s') := register_all l overwrite s in
  nc_wf s' /\ (forall m, m ∉ l.*1 -> nc_lookup s' m = nc_lookup s m) /\
  (forall m, nc_lookup s' m = None \/ nc_lookup s' m = nc_lookup s m \/
     nc_lookup s' m = (list_to_map l : gmap string Cb) !! m) /\
  (o = Ret tt -> forall m, nc_lookup s' m = registered_as l overwrite (nc_lookup s m) m).
Proof.
  revert s. induction l as [|[n cb] l IH]; intros s Hs Hnd.
  { cbn. split; [done|]. split; [done|]. split; [auto|]. intros _ m. unfold registered_as. cbn.
    by destruct (nc_lookup s m). }
  apply NoDup_cons in Hnd as [Hn Hnd]. cbn [register_all]. unfold se_bind.
  assert (Hhd : forall m, m = n -> (list_to_map ((n, cb) :: l) : gmap string Cb) !! m = Some cb)
    by (intros m ->; apply lookup_insert_eq).
  assert (Htl : forall m, m <> n ->
    (list_to_map ((n, cb) :: l) : gmap string Cb) !! m = (list_to_map l : gmap string Cb) !! m)
    by (intros m Hm; by apply lookup_insert_ne).
  assert (Hln : (list_to_map l : gmap string Cb) !! n = None) by (by apply not_elem_of_list_to_map_1).
  pose proof (nc_register_spec s n cb overwrite Hs) as Hr.
  destruct (nc_register n cb overwrite s) as [[[]|e] s1]; destruct Hr as (Hw & Hne & Hany & Heq).
  2: { split; [done|]. split; [intros m Hm; apply Hne; set_solver|]. split; [|done].
       intros m. destruct (decide (m = n)) as [->|Hm]; [rewrite Hhd by done; tauto|]. rewrite Hne by done. auto. }
  specialize (IH s1 Hw Hnd). destruct (register_all l overwrite s1) as [o s2].
  destruct IH as (Hw2 & Hne2 & Hany2 & Heq2). split; [done|]. split; [|split].
  - intros m Hm. rewrite Hne2, Hne; [done|set_solver..].
  - intros m. destruct (decide (m = n)) as [->|Hm].
    + rewrite Hhd by done. rewrite Hne2 by (by destruct l). tauto.
    + rewrite Htl by done. rewrite <- (Hne m) by done. apply Hany2.
  - intros Ho m. rewrite Heq2 by done. unfold registered_as.
    destruct (decide (m = n)) as [->|Hmn].
    + rewrite Hhd, Hln, Heq by done. by destruct (nc_lookup s n).
    + rewrite Htl by done. by rewrite Hne.
Qed.

Lemma unregister_all_effect s l :
  nc_wf s -> exists s', unregister_all l s = (Ret tt, s') /\ nc_wf s' /\
  forall m, nc_lookup s' m = if decide (m ∈ l) then None else nc_lookup s m.
Proof.
  revert s. induction l as [|n l IH]; intros s Hs.
  { exists s. cbn. split; [done|]. split; [done|]. intros m. by rewrite decide_False by set_solver. }
  cbn [unregister_all]. unfold se_bind. pose proof (nc_unregister_spec s n Hs) as Hu.
  destruct (nc_unregister n s) as [o s1]. destruct Hu as (Hw & -> & Heq).
  destruct (IH s1 Hw) as (s2 & -> & Hw2 & Heq2). exists s2. split; [done|]. split; [done|].
  intros m. rewrite Heq2, Heq. repeat case_decide; set_solver.
Qed.
End Many.

(** ** [CallbackValuesMap] implements it *)
Section Implementation.
Context {Cb M : Type} `{RegexMatchCache M} (hash : string -> Z).

#[local] Obligation Tactic := idtac.
Program Definition callback_values_map : NamedCallbacks (CallbackValuesMap.cvm Cb M) Cb := {|
  nc_register := CallbackValuesMap.registerCallback hash;
  nc_unregister := CallbackValuesMap.unregisterCallback hash;
  nc_wf := wf hash;
  nc_lookup := lookup_cb hash
|}.
Next Obligation.
  intros s n cb overwrite Hs. pose proof (register_effect hash s n cb overwrite Hs) as Hr.
  destruct (CallbackValuesMap.registerCallback hash n cb overwrite s) as [[u|e] s'];
    destruct Hr as [Hw Hr]; (split; [done|]).
  - assert (E : lookup_cb hash s' n = register_spec n cb overwrite (lookup_cb hash s n))
      by (by rewrite Hr, decide_True).
    split; [intros m Hm; by rewrite Hr, decide_False|]. rewrite E. unfold register_spec.
    by destruct (lookup_cb hash s n), overwrite; auto.
  - destruct Hr as [Hr Hn]. split; [done|]. split; [tauto|done].
Qed.
Next Obligation.
  intros s n Hs. exact (unregister_effect hash s n Hs).
Qed.
End Implementation.
