(* ===== verification/TimeseriesExporter.v ===== *)
(** * TimeseriesExporter: a time series as named counters

    [src/fb303/TimeseriesExporter.h], [TimeseriesExporter.cpp] and
    [LegacyClock.cpp].  The lambda an export registers is the closure
    [stat_value]; [get_legacy_stats_time] reads a clock that the system advances
    as it likes between reads. *)
From S2P Require Import Prelude ExportType Timeseries CounterNames NamedCallbacks.
From Stdlib Require Import ZArith Lia Ascii String.
From stdpp Require Import base gmap list strings.

Open Scope Z_scope.
Open Scope fb303_scope.

(** A result that needs no state. *)
Definition lift {S A} (o : outcome A) : SE S A := fun s => (o, s).

(** ** [get_legacy_stats_time] *)
Module LegacyClock.
(** The reads made so far; [time_source n] is what the [n]-th one returns. *)
Record clock := Clock { reads : nat }.
Definition get_legacy_stats_time (time_source : nat -> Z) : SE clock Z :=
  fun c => (Ret (time_source (reads c)), Clock (S (reads c))).
End LegacyClock.
Import LegacyClock.

Module TimeseriesExporter.

(** A [StatPtr]: the address of a [Synchronized<ExportedStat>]. *)
Abbreviation StatPtr := nat (only parsing).

(** What the registered lambda captured. *)
Record stat_value := StatValue {
  sv_stat : StatPtr; sv_type : ExportType; sv_level : nat; sv_updateOnRead : bool
}.

Definition kTypeString : list string := ["sum"; "count"; "avg"; "rate"; "pct"].
Definition getTypeString : list string := kTypeString.

(** [getTypeString()[type]] *)
Definition type_string (type : ExportType) : outcome string :=
  match getTypeString !! Z.to_nat (ExportType_to_Z type) with
  | Some s => Ret s
  | None => Throw undefined_behaviour
  end.

Definition bind_outcome {A B} (o : outcome A) (k : A -> outcome B) : outcome B :=
  match o with Ret a => k a | Throw e => Throw e end.

Section Model.
Context {TS : Type} `{FollyTimeseries TS}.

(** [getCounterName<MLTS>]: what [counterName] holds afterwards; [clk] is the
    clock of [MLTS]. *)
Definition getCounterName (clk : Z) (counterNameSize : Z) (stat : TS) (statName : string)
    (type : ExportType) (level : nat) : outcome string :=
  bind_outcome (format_prec (wraps 32 (Z.of_nat (String.length statName))) statName) (fun name =>
  bind_outcome (type_string type) (fun ty =>
  if ts_isAllTime stat level then
    snprintf counterNameSize (name +:+ "." +:+ ty)
  else
    match ts_durations stat !! level with
    | None => Throw undefined_behaviour
    | Some duration =>
        let durationSecs := duration_cast clk seconds duration in
        if negb (duration_cast seconds clk durationSecs =? duration) then Throw check_failed
        else snprintf counterNameSize (name +:+ "." +:+ ty +:+ "." +:+ decimal durationSecs)
    end)).

(** [static_cast<CounterType>(100.0 * x)] *)
Definition percent (x : double) : outcome Z :=
  match double_to_int64 (double_mul (double_of_Z 100) x) with
  | Some v => Ret v
  | None => Throw undefined_behaviour
  end.

Definition getStatValue (time_source : nat -> Z) (stat : TS) (type : ExportType) (level : nat)
    (update : bool) : SE clock Z :=
  if update then
    let* t := get_legacy_stats_time time_source in
    let now := t * milliseconds in
    match type with
    | SUM => se_ret (ts_sumBy stat level now)
    | AVG => se_ret (ts_avgBy stat level now)
    | RATE => se_ret (rateBy stat level now)
    | PERCENT => lift (percent (ts_avgBy_double stat level now))
    | COUNT => se_ret (ts_countBy stat level now)
    end
  else
    match type with
    | SUM => se_ret (ts_sum stat level)
    | AVG => se_ret (ts_avg stat level)
    | RATE => se_ret (rate stat level)
    | PERCENT => lift (percent (ts_avg_double stat level))
    | COUNT => se_ret (ts_count stat level)
    end.

(** [CHECK_GE(type, 0); CHECK_LT(type, kNumExportTypes)] *)
Definition check_type {S} (type : ExportType) : SE S unit :=
  if (0 <=? ExportType_to_Z type) && (ExportType_to_Z type <? Z.of_nat ExportTypeMeta.kNumExportTypes)
  then se_ret tt else se_throw check_failed.

(** [const size_t kNameSize = statName.size() + 50], passed on as an [int]. *)
Definition kNameSize (statName : string) : Z := wrapu 64 (Z.of_nat (String.length statName) + 50).
Definition nameSizeArg (statName : string) : Z := wraps 32 (kNameSize statName).

(** The counters object, and the closure as one of its callbacks. *)
Context {CM Cb : Type} `{NamedCallbacks CM Cb} (callback : stat_value -> Cb).

(** The loop of [exportStat], level by level. *)
Fixpoint export_levels (clk : Z) (statObj : TS) (stat : StatPtr) (type : ExportType)
    (statName : string) (updateOnRead : bool) (levs : list nat) : SE CM unit :=
  match levs with
  | [] => se_ret tt
  | lev :: levs' =>
      let* counterName := lift (getCounterName clk (nameSizeArg statName) statObj statName type lev) in
      nc_register counterName (callback (StatValue stat type lev updateOnRead)) false >>>
      export_levels clk statObj stat type statName updateOnRead levs'
  end.

(** [exportStat]: [statObj] is the object at [stat], read without its lock. *)
Definition exportStat (statObj : TS) (stat : StatPtr) (type : ExportType) (statName : string)
    (updateOnRead : bool) : SE CM unit :=
  check_type type >>>
  export_levels milliseconds statObj stat type statName updateOnRead (seq 0 (ts_numLevels statObj)).

Fixpoint unexport_levels (clk : Z) (statObj : TS) (type : ExportType) (statName : string)
    (levs : list nat) : SE CM unit :=
  match levs with
  | [] => se_ret tt
  | lev :: levs' =>
      let* counterName := lift (getCounterName clk (nameSizeArg statName) statObj statName type lev) in
      let* _ := nc_unregister counterName in
      unexport_levels clk statObj type statName levs'
  end.

Definition unExportStat (statObj : TS) (type : ExportType) (statName : string) : SE CM unit :=
  check_type type >>>
  unexport_levels milliseconds statObj type statName (seq 0 (ts_numLevels statObj)).
End Model.
End TimeseriesExporter.
