(* ===== verification/ExporterNames.v ===== *)
(** * ExporterNames: the names and effects of [TimeseriesExporter]

    A counter's name determines the stat, the kind and the level; no name is cut
    by the buffer; and exporting a stat registers one counter per level and
    touches no other name. *)
From S2P Require Import Prelude RegexUtil CallbackValuesMap CallbackRegistry ExportType Timeseries CounterNames NamedCallbacks TimeseriesExporter.
From Stdlib Require Import ZArith Lia Ascii String.
From stdpp Require Import base gmap list strings.
Import TimeseriesExporter.

Open Scope Z_scope.
Open Scope fb303_scope.

(** ** Names *)

(** [base.token] or [base.token.seconds]. *)
Definition counter_name (base token : string) (secs : option Z) : string :=
  base +:+ String dot (token +:+ match secs with None => "" | Some s => String dot (decimal s) end).

(** A middle part that cannot be taken for a number. *)
Definition token (s : string) : bool :=
  no_char dot s && match s with String c _ => negb (numeral c) | EmptyString => false end.

Lemma token_not_decimal s z : token s = true -> s <> decimal z.
Proof.
  destruct (decimal_head z) as (c & r & -> & Hc). intros Ht ->. unfold token in Ht.
  rewrite Hc, andb_false_r in Ht. done.
Qed.

Lemma counter_name_inj b b' t t' s s' :
  token t = true -> token t' = true ->
  counter_name b t s = counter_name b' t' s' -> b = b' /\ t = t' /\ s = s'.
Proof.
  intros Ht Ht'. pose proof Ht as [Hd _]%andb_true_iff. pose proof Ht' as [Hd' _]%andb_true_iff.
  assert (Hsome : forall b t z, counter_name b t (Some z) = (b +:+ String dot t) +:+ String dot (decimal z)).
  { intros. unfold counter_name. by rewrite str_app_assoc, str_cons_app. }
  assert (Hnone : forall b t, counter_name b t None = b +:+ String dot t).
  { intros. unfold counter_name. f_equal. f_equal. apply str_app_nil_r. }
  destruct s as [z|], s' as [z'|]; rewrite ?Hsome, ?Hnone; intros E.
  - apply last_dot_inj in E as [E Ez]; [|apply decimal_no_dot..].
    apply decimal_inj in Ez as ->. by apply last_dot_inj in E as [-> ->].
  - apply last_dot_inj in E as [_ E]; [|apply decimal_no_dot|done]. by destruct (token_not_decimal t' z).
  - apply last_dot_inj in E as [_ E]; [|done|apply decimal_no_dot]. by destruct (token_not_decimal t z').
  - by apply last_dot_inj in E as [-> ->].
Qed.

Definition type_name (t : ExportType) : string :=
  match t with SUM => "sum" | COUNT => "count" | AVG => "avg" | RATE => "rate" | PERCENT => "pct" end.

Lemma type_string_eq t : type_string t = Ret (type_name t).
Proof. by destruct t. Qed.
Lemma type_name_token t : token (type_name t) = true.
Proof. by destruct t. Qed.
Lemma type_name_inj t t' : type_name t = type_name t' -> t = t'.
Proof. by destruct t, t'. Qed.
Lemma type_name_length t : (String.length (type_name t) <= 5)%nat.
Proof. destruct t; cbn; lia. Qed.

(** ** Levels *)

(** What a level of duration [d] adds to a name; [None] for all time. *)
Definition level_label (clk d : Z) : option Z := if d =? 0 then None else Some (d / clk).

(** Distinct levels of whole seconds, as every class of [Timeseries] has them. *)
Definition named_durations (clk : Z) (ds : list Z) : Prop :=
  NoDup ds /\ Forall (fun d => in_s 64 d /\ 0 <= d /\ d mod clk = 0) ds.

Section Names.
Context {TS : Type} `{FollyTimeseries TS}.

Definition short (name : string) : Prop := Z.of_nat (String.length name) + 50 < 2 ^ 31.

Lemma nameSizeArg_short name : short name -> nameSizeArg name = Z.of_nat (String.length name) + 50.
Proof.
  intros Hs. unfold nameSizeArg, kNameSize. unfold short in Hs.
  rewrite wrapu_small by (unfold in_u; lia). apply wraps_small; [lia|]. unfold in_s, smin, smax. lia.
Qed.

Lemma level_label_inj clk d d' :
  0 < clk -> d mod clk = 0 -> d' mod clk = 0 -> level_label clk d = level_label clk d' -> d = d'.
Proof.
  unfold level_label. intros Hc Hd Hd'. pose proof (Z.div_mod d clk). pose proof (Z.div_mod d' clk).
  destruct (Z.eqb_spec d 0), (Z.eqb_spec d' 0); try done; try congruence. intros [=]. nia.
Qed.

(** The whole name is in the buffer. *)
Lemma getCounterName_eq clk (stat : TS) name ty lev d :
  0 < clk -> short name -> named_durations clk (ts_durations stat) -> ts_durations stat !! lev = Some d ->
  getCounterName clk (nameSizeArg name) stat name ty lev =
    Ret (counter_name (c_str name) (type_name ty) (level_label clk d)).
Proof.
  intros Hc Hs [_ Hds] Hd. rewrite nameSizeArg_short by done. unfold getCounterName.
  rewrite wraps_small by (unfold short in Hs; unfold in_s, smin, smax; lia).
  rewrite format_prec_whole, type_string_eq. cbn [bind_outcome].
  rewrite (ts_isAllTime_spec _ _ _ Hd), Hd. unfold level_label, counter_name.
  pose proof (c_str_length name) as Hlen. pose proof (type_name_length ty) as Hty.
  rewrite Forall_forall in Hds. destruct (Hds d) as (Hr & Hp & Hm); [by eapply list_elem_of_lookup_2|].
  assert (Hdd : d = d / clk * clk) by (pose proof (Z.div_mod d clk); lia).
  destruct (Z.eqb_spec d 0) as [Hz|Hz].
  - rewrite snprintf_fits by (rewrite !str_length_app; simpl; lia). f_equal. f_equal.
    rewrite str_cons_app, str_app_nil_r. done.
  - assert (Hq : duration_cast clk seconds d = d / clk).
    { unfold duration_cast, seconds. rewrite Z.mul_1_r. apply Z.quot_div_nonneg; lia. }
    assert (Hq2 : duration_cast seconds clk (d / clk) = d).
    { unfold duration_cast, seconds. rewrite Z.quot_1_r. lia. }
    rewrite Hq, Hq2, Z.eqb_refl. cbn [negb].
    assert (Hdl : (String.length (decimal (d / clk)) <= 20)%nat).
    { apply decimal_length. unfold in_s, smin, smax in *. assert (d / clk <= d) by nia. lia. }
    rewrite snprintf_fits.
    + by rewrite !str_cons_app.
    + rewrite !str_length_app. simpl String.length. lia.
Qed.
End Names.

(** ** One counter per level *)
Section Levels.
Context {Cb : Type} (clk : Z) (base tok : string).

Definition level_name (d : Z) : string := counter_name base tok (level_label clk d).

Definition indexed (ds : list Z) : list (nat * Z) := zip (seq 0 (length ds)) ds.

(** The names of the levels, with the callback of each level. *)
Definition level_counters (cl : nat -> Cb) (ds : list Z) : list (string * Cb) :=
  (fun p : nat * Z => (level_name p.2, cl p.1)) <$> indexed ds.

Lemma indexed_lookup ds : Forall (fun p : nat * Z => ds !! p.1 = Some p.2) (indexed ds).
Proof.
  apply Forall_lookup. intros i [lev d] Hi. unfold indexed in Hi. apply lookup_zip_Some in Hi as [Hl Hd].
  apply lookup_seq in Hl as [-> _]. done.
Qed.

Lemma indexed_fst ds : (indexed ds).*1 = seq 0 (length ds).
Proof. unfold indexed. apply fst_zip. by rewrite length_seq. Qed.
Lemma indexed_snd ds : (indexed ds).*2 = ds.
Proof. unfold indexed. apply snd_zip. by rewrite length_seq. Qed.

Lemma level_names_indexed ds : level_name <$> ds = (fun p : nat * Z => level_name p.2) <$> indexed ds.
Proof. rewrite <- (indexed_snd ds) at 1. by rewrite <- list_fmap_compose. Qed.

Lemma level_counters_names cl ds : (level_counters cl ds).*1 = level_name <$> ds.
Proof. unfold level_counters. by rewrite level_names_indexed, <- list_fmap_compose. Qed.

Hypothesis Hclk : 0 < clk.
Hypothesis Htok : token tok = true.

Lemma level_name_inj ds d d' :
  named_durations clk ds -> d ∈ ds -> d' ∈ ds -> level_name d = level_name d' -> d = d'.
Proof.
  intros [_ Hds] Hd Hd' E. rewrite Forall_forall in Hds. apply counter_name_inj in E as (_ & _ & E); [|done..].
  apply (level_label_inj clk); [done| | |done]; by apply Hds.
Qed.

Lemma level_names_NoDup ds : named_durations clk ds -> NoDup (level_name <$> ds).
Proof.
  intros Hds. apply NoDup_fmap_2_strong; [|by destruct Hds].
  intros d d' Hd Hd'. by apply (level_name_inj ds).
Qed.

Lemma level_counters_NoDup cl ds : named_durations clk ds -> NoDup (level_counters cl ds).*1.
Proof. intros Hds. rewrite level_counters_names. by apply level_names_NoDup. Qed.

(** What a level's name stands for in the list. *)
Lemma level_counters_lookup cl ds lev d :
  named_durations clk ds -> ds !! lev = Some d ->
  (list_to_map (level_counters cl ds) : gmap string Cb) !! level_name d = Some (cl lev).
Proof.
  intros Hds Hd. apply elem_of_list_to_map_1; [by apply level_counters_NoDup|].
  unfold level_counters. apply list_elem_of_fmap. exists (lev, d). split; [done|].
  unfold indexed. apply list_elem_of_lookup. exists lev. apply lookup_zip_Some. simpl. split; [|done].
  apply lookup_seq. split; [lia|]. by eapply lookup_lt_Some.
Qed.
End Levels.

(** ** Exporting and unexporting *)
Section Effects.
Context {TS : Type} `{FollyTimeseries TS} {CM Cb : Type} `{NamedCallbacks CM Cb}.
Context (callback : stat_value -> Cb).

(** The counters of [exportStat]. *)
Definition stat_counters (stat : nat) (ty : ExportType) (name : string) (upd : bool) (ds : list Z)
  : list (string * Cb) :=
  level_counters milliseconds (c_str name) (type_name ty)
    (fun lev => callback (StatValue stat ty lev upd)) ds.
Definition stat_names (ty : ExportType) (name : string) (ds : list Z) : list string :=
  level_name milliseconds (c_str name) (type_name ty) <$> ds.

Lemma check_type_ok {S} ty (s : S) : check_type ty s = (Ret tt, s).
Proof. by destruct ty. Qed.

Lemma exportStat_eq (obj : TS) stat ty name upd s :
  short name -> named_durations milliseconds (ts_durations obj) ->
  exportStat callback obj stat ty name upd s =
    register_all (stat_counters stat ty name upd (ts_durations obj)) false s.
Proof.
  intros Hsh Hds. unfold exportStat. rewrite (se_bind_ret _ _ _ _ _ (check_type_ok ty s)).
  unfold ts_numLevels, stat_counters, level_counters. rewrite <- indexed_fst.
  pose proof (indexed_lookup (ts_durations obj)) as Hix. revert s.
  induction Hix as [|[lev d] ps Hd Hps IH]; intros s; [done|]. cbn [fst snd] in *.
  rewrite !fmap_cons. cbn [export_levels register_all fst snd].
  rewrite (getCounterName_eq milliseconds obj name ty lev d) by (done || (unfold milliseconds; lia)).
  unfold lift at 1. rewrite (se_bind_ret _ _ _ _ _ eq_refl). unfold level_name. unfold se_bind.
  by destruct (nc_register _ _ _ s) as [[[]|e] s1].
Qed.

Lemma unExportStat_eq (obj : TS) ty name (s : CM) :
  short name -> named_durations milliseconds (ts_durations obj) ->
  unExportStat obj ty name s = unregister_all (stat_names ty name (ts_durations obj)) s.
Proof.
  intros Hsh Hds. unfold unExportStat. rewrite (se_bind_ret _ _ _ _ _ (check_type_ok ty s)).
  unfold ts_numLevels, stat_names. rewrite level_names_indexed, <- indexed_fst.
  pose proof (indexed_lookup (ts_durations obj)) as Hix. revert s.
  induction Hix as [|[lev d] ps Hd Hps IH]; intros s; [done|]. cbn [fst snd] in *.
  rewrite !fmap_cons. cbn [unexport_levels unregister_all fst snd].
  rewrite (getCounterName_eq milliseconds obj name ty lev d) by (done || (unfold milliseconds; lia)).
  unfold lift at 1. rewrite (se_bind_ret _ _ _ _ _ eq_refl). unfold level_name. unfold se_bind.
  by destruct (nc_unregister _ s) as [[[]|e] s1].
Qed.
End Effects.

(** ** Properties *)

(** The name of a counter identifies it.  For stats of any clock whose
    levels are distinct and last whole seconds, [getCounterName] with the buffer
    the exporter allocates succeeds and returns the whole of
    [name.type] or [name.type.seconds] (the buffer never cuts it), and two such
    calls return the same name exactly when stat name (up to its first NUL),
    kind and level agree.  So no two stats, kinds or levels collide in the
    counters map, whatever dots and digits the stat names contain. *)
Theorem counter_names_identify {TS TS'} `{FollyTimeseries TS} `{FollyTimeseries TS'}
    (clk clk' : Z) (a : TS) (b : TS') (name name' : string) (ty ty' : ExportType)
    (lev lev' : nat) (d d' : Z) :
  0 < clk -> 0 < clk' -> short name -> short name' ->
  named_durations clk (ts_durations a) -> named_durations clk' (ts_durations b) ->
  ts_durations a !! lev = Some d -> ts_durations b !! lev' = Some d' ->
  exists s s',
    getCounterName clk (nameSizeArg name) a name ty lev = Ret s /\
    getCounterName clk' (nameSizeArg name') b name' ty' lev' = Ret s' /\
    s = counter_name (c_str name) (type_name ty) (level_label clk d) /\
    (s = s' <-> c_str name = c_str name' /\ ty = ty' /\ level_label clk d = level_label clk' d').
Proof.
  intros Hc Hc' Hs Hs' Ha Hb Hd Hd'. eexists _, _.
  split; [by apply getCounterName_eq|]. split; [by apply getCounterName_eq|]. split; [done|].
  split; [|by intros (-> & -> & ->)].
  intros E. apply counter_name_inj in E as (? & E & ?); [|apply type_name_token..].
  split; [done|]. split; [by apply type_name_inj|done].
Qed.

(** C39: exporting and unexporting a stat.  Exporting a stat of distinct
    whole-second levels into any well-formed counters map leaves the map
    well formed and every name but the level names of this stat and kind as it
    was, also when a registration throws.  When it returns, each level's name
    stands for the closure over this stat, kind and level, unless the name was
    taken already: then it keeps its old callback ([overwrite] is false).
    Unexporting then succeeds, removes exactly the level names and nothing else. *)
Theorem export_then_unexport {TS} `{FollyTimeseries TS} {CM Cb} `{NamedCallbacks CM Cb}
    (callback : stat_value -> Cb) (obj : TS) (stat : nat) (ty : ExportType) (name : string)
    (upd : bool) (s : CM) :
  nc_wf s -> short name -> named_durations milliseconds (ts_durations obj) ->
  let names := stat_names ty name (ts_durations obj) in
  let '(o, s1) := exportStat callback obj stat ty name upd s in
  nc_wf s1 /\ (forall m, m ∉ names -> nc_lookup s1 m = nc_lookup s m) /\
  (o = Ret tt -> forall lev d, ts_durations obj !! lev = Some d ->
     let m := level_name milliseconds (c_str name) (type_name ty) d in
     nc_lookup s1 m = Some (default (callback (StatValue stat ty lev upd)) (nc_lookup s m))) /\
  exists s2, unExportStat obj ty name s1 = (Ret tt, s2) /\ nc_wf s2 /\
    forall m, nc_lookup s2 m = if decide (m ∈ names) then None else nc_lookup s m.
Proof.
  intros Hs Hsh Hds names. rewrite exportStat_eq by done.
  assert (Hnd : NoDup (stat_counters callback stat ty name upd (ts_durations obj)).*1).
  { apply level_counters_NoDup; [unfold milliseconds; lia|apply type_name_token|done]. }
  pose proof (register_all_effect s _ false Hs Hnd) as Heff.
  destruct (register_all _ false s) as [o s1]. destruct Heff as (Hw & Hother & _ & Heq).
  unfold stat_counters in Hother. rewrite level_counters_names in Hother.
  split; [done|]. split; [done|]. split.
  - intros Ho lev d Hd m. rewrite Heq by done. unfold registered_as, stat_counters.
    rewrite (level_counters_lookup milliseconds (c_str name) (type_name ty) eq_refl
      (type_name_token ty) _ _ lev d Hds Hd).
    by destruct (nc_lookup s m).
  - rewrite unExportStat_eq by done. destruct (unregister_all_effect s1 names Hw) as (s2 & E & Hw2 & Hl).
    exists s2. split; [done|]. split; [done|]. intros m. rewrite Hl. case_decide; [done|by apply Hother].
Qed.

(** A stat of one minute, one hour and all time, in a real callback map. *)
Section Example_.
Import EventSeries PrefixCache.
Definition example_hash (n : string) : Z := Z.of_nat (String.length n).
#[local] Instance example_counters : NamedCallbacks (CallbackValuesMap.CallbackValuesMap.cvm stat_value cache) stat_value :=
  callback_values_map example_hash.
Definition example_stat : series := ts_make 60 (in_ticks milliseconds [60; 3600; 0]).

Lemma example_named : named_durations milliseconds (ts_durations example_stat).
Proof. split; [by apply (bool_decide_unpack _)|]. repeat (apply Forall_cons; split; [by vm_compute|]). by apply Forall_nil. Qed.

Lemma counter_names_identify_witness :
  exists s s',
    getCounterName milliseconds (nameSizeArg "a.b") example_stat "a.b" AVG 1 = Ret s /\
    getCounterName milliseconds (nameSizeArg "a") example_stat "a" PERCENT 2 = Ret s' /\
    s = "a.b.avg.3600"%string /\
    (s = s' <-> c_str "a.b" = c_str "a" /\ AVG = PERCENT /\ Some 3600 = None).
Proof.
  apply (counter_names_identify milliseconds milliseconds example_stat example_stat "a.b" "a" AVG PERCENT 1 2 3600000 0);
    (exact example_named || reflexivity).
Defined.

Lemma export_then_unexport_witness :
  let s := CallbackValuesMap.CallbackValuesMap.make in
  let names := stat_names AVG "a" (ts_durations example_stat) in
  let '(o, s1) := exportStat (TS := series) (fun c => c) example_stat 7 AVG "a" true s in
  nc_wf s1 /\ (forall m, m ∉ names -> nc_lookup s1 m = nc_lookup s m) /\
  (o = Ret tt -> forall lev d, ts_durations example_stat !! lev = Some d ->
     let m := level_name milliseconds (c_str "a") (type_name AVG) d in
     nc_lookup s1 m = Some (default (StatValue 7 AVG lev true) (nc_lookup s m))) /\
  exists s2, unExportStat example_stat AVG "a" s1 = (Ret tt, s2) /\ nc_wf s2 /\
    forall m, nc_lookup s2 m = if decide (m ∈ names) then None else nc_lookup s m.
Proof.
  apply (export_then_unexport (fun c => c) example_stat 7 AVG "a" true); [|reflexivity|exact example_named].
  apply CallbackRegistry.registry_wf_make.
Defined.
End Example_.
