(* ===== verification/HistogramExporter.v ===== *)
(** * HistogramExporter: a histogram as named counters and strings

    [src/fb303/HistogramExporter.h] and [HistogramExporter.cpp], with the
    wrappers of [TimeseriesHistogram.h].  The histogram itself,
    [folly::TimeseriesHistogram], is the class [FollyHistogram].  Reading a value
    updates the histogram in place, so the readers act on the clock and on the
    histogram. *)
From S2P Require Import Prelude ExportType Timeseries CounterNames NamedCallbacks TimeseriesExporter ExporterNames.
From Stdlib Require Import ZArith Lia Ascii String.
From stdpp Require Import base gmap list strings.

Open Scope Z_scope.
Open Scope fb303_scope.
Import LegacyClock.

(** ** What the code relies on of [folly::TimeseriesHistogram]

    Its buckets are series of the seconds clock, all with the same levels; [HV]
    is [folly::Histogram<int64_t>]. *)
Class FollyHistogram (TS Hg HV : Type) `{FollyTimeseries TS} := {
  th_make : Z -> Z -> Z -> TS -> outcome Hg;        (** bucket size, min, max, container *)
  th_getBucketSize : Hg -> Z;
  th_getMin : Hg -> Z;
  th_getMax : Hg -> Z;
  th_getNumBuckets : Hg -> nat;
  th_getBucket : Hg -> nat -> TS;

  th_update : Z -> Hg -> Hg;
  th_addValue : Z -> Z -> Z -> Hg -> Hg;            (** now, value, times *)
  th_addValues : Z -> HV -> Hg -> Hg;
  th_clear : Hg -> Hg;

  th_sum : Hg -> nat -> Z;
  th_count : Hg -> nat -> Z;
  th_avg : Hg -> nat -> Z;
  th_avg_double : Hg -> nat -> double;
  th_rate : Hg -> nat -> Z;
  th_getPercentileEstimate : Hg -> double -> nat -> Z;
  th_getString : Hg -> nat -> string;

  (** Laws: there are buckets (the two outer ones at least), and the levels are
      those of the container. *)
  th_buckets : forall h, (0 < th_getNumBuckets h)%nat;
  th_make_spec : forall w lo hi c h, th_make w lo hi c = Ret h ->
    th_getBucketSize h = w /\ th_getMin h = lo /\ th_getMax h = hi /\
    ts_durations (th_getBucket h 0) = ts_durations c;
  th_update_levels : forall now h,
    ts_durations (th_getBucket (th_update now h) 0) = ts_durations (th_getBucket h 0);
  th_addValue_levels : forall now v k h,
    ts_durations (th_getBucket (th_addValue now v k h) 0) = ts_durations (th_getBucket h 0);
  th_addValues_levels : forall now hv h,
    ts_durations (th_getBucket (th_addValues now hv h) 0) = ts_durations (th_getBucket h 0);
  th_clear_levels : forall h,
    ts_durations (th_getBucket (th_clear h) 0) = ts_durations (th_getBucket h 0);
  th_clear_shape : forall h,
    th_getBucketSize (th_clear h) = th_getBucketSize h /\ th_getMin (th_clear h) = th_getMin h /\
    th_getMax (th_clear h) = th_getMax h
}.

Module HistogramExporter.
Section Model.
Context {TS Hg HV : Type} `{FollyHistogram TS Hg HV}.

(** A [HistogramPtr]. *)
Abbreviation HistogramPtr := nat (only parsing).

(** ** Reading

    [update_read f]: lock, update to the current time, answer [f]. *)
Definition update_read {A} (time_source : nat -> Z) (f : Hg -> outcome A) : SE (clock * Hg) A :=
  fun st =>
    match get_legacy_stats_time time_source st.1 with
    | (Ret now, c) => let h := th_update now st.2 in (f h, (c, h))
    | (Throw e, c) => (Throw e, (c, st.2))
    end.

Definition getHistogramBuckets (time_source : nat -> Z) (level : nat) : SE (clock * Hg) string :=
  update_read time_source (fun h => Ret (th_getString h level)).

Definition getHistogramStat (time_source : nat -> Z) (level : nat) (exportType : ExportType)
  : SE (clock * Hg) Z :=
  update_read time_source (fun h =>
    match exportType with
    | SUM => Ret (th_sum h level)
    | COUNT => Ret (th_count h level)
    | AVG => Ret (th_avg h level)
    | RATE => Ret (th_rate h level)
    | PERCENT => TimeseriesExporter.percent (th_avg_double h level)
    end).

(** [getHistogramPercentile] of [ExportedHistogramMap.cpp]. *)
Definition getHistogramPercentile (time_source : nat -> Z) (level : nat) (percentile : Z)
  : SE (clock * Hg) Z :=
  update_read time_source (fun h => Ret (th_getPercentileEstimate h (double_of_Z percentile) level)).

(** ** The closures that exports register *)
Inductive hist_value :=
  | HistStat (hist : HistogramPtr) (level : nat) (type : ExportType)
  | HistPercentile (hist : HistogramPtr) (level : nat) (percentile : Z).
Record hist_buckets := HistBuckets { hb_hist : HistogramPtr; hb_level : nat }.

Context {CM Cb : Type} `{NamedCallbacks CM Cb} (callback : hist_value -> Cb).
Context {SM Sb : Type} `{NamedCallbacks SM Sb} (string_callback : hist_buckets -> Sb).

(** The loop every export has: name a level, hand the name to [fn]. *)
Fixpoint for_levels {S} (level_name : nat -> outcome string) (fn : string -> nat -> SE S unit)
    (levs : list nat) : SE S unit :=
  match levs with
  | [] => se_ret tt
  | level :: levs' =>
      let* name := lift (level_name level) in
      fn name level >>> for_levels level_name fn levs'
  end.

(** [{}.hist] and [{}.hist.{}] of [fmt::format]. *)
Definition bucketsName (stat : TS) (name : string) (level : nat) : outcome string :=
  if ts_isAllTime stat level then Ret (name +:+ ".hist")
  else match ts_durations stat !! level with
       | None => Throw undefined_behaviour
       | Some d => Ret (name +:+ ".hist." +:+ decimal (duration_cast seconds seconds d))
       end.

(** [exportBuckets]; [hobj] is the histogram at [hist]. *)
Definition exportBuckets (hobj : Hg) (hist : HistogramPtr) (name : string) : SE SM unit :=
  if Nat.leb (th_getNumBuckets hobj) 0 then se_throw check_failed
  else
    let stat := th_getBucket hobj 0 in
    for_levels (bucketsName stat name) (fun valueName level =>
        nc_register valueName (string_callback (HistBuckets hist level)) true)
      (seq 0 (ts_numLevels stat)).

Definition percentileName (stat : TS) (name : string) (percentile : Z) (level : nat) : outcome string :=
  if ts_isAllTime stat level then Ret (name +:+ ".p" +:+ decimal percentile)
  else match ts_durations stat !! level with
       | None => Throw undefined_behaviour
       | Some d => Ret (name +:+ ".p" +:+ decimal percentile +:+ "." +:+
                        decimal (duration_cast seconds seconds d))
       end.

Definition forEachPercentileName (hobj : Hg) (name : string) (percentile : Z)
    (fn : string -> nat -> SE CM unit) : SE CM unit :=
  if Nat.leb (th_getNumBuckets hobj) 0 then se_throw check_failed
  else if percentile <? 0 then se_throw check_failed
  else if 100 <? percentile then se_throw check_failed
  else
    let stat := th_getBucket hobj 0 in
    for_levels (percentileName stat name percentile) fn (seq 0 (ts_numLevels stat)).

Definition exportPercentile (hobj : Hg) (hist : HistogramPtr) (name : string) (percentile : Z)
  : SE CM unit :=
  forEachPercentileName hobj name percentile (fun counterName level =>
    nc_register counterName (callback (HistPercentile hist level percentile)) true).

Definition unexportPercentile (hobj : Hg) (name : string) (percentile : Z) : SE CM unit :=
  forEachPercentileName hobj name percentile (fun counterName _ =>
    let* _ := nc_unregister counterName in se_ret tt).

Definition forEachStatName (hobj : Hg) (name : string) (exportType : ExportType)
    (fn : string -> nat -> SE CM unit) : SE CM unit :=
  let stat := th_getBucket hobj 0 in
  for_levels (TimeseriesExporter.getCounterName seconds (TimeseriesExporter.nameSizeArg name)
      stat name exportType) fn (seq 0 (ts_numLevels stat)).

Definition exportStat (hobj : Hg) (hist : HistogramPtr) (name : string) (exportType : ExportType)
  : SE CM unit :=
  forEachStatName hobj name exportType (fun counterName level =>
    nc_register counterName (callback (HistStat hist level exportType)) true).

Definition unexportStat (hobj : Hg) (name : string) (exportType : ExportType) : SE CM unit :=
  forEachStatName hobj name exportType (fun counterName _ =>
    let* _ := nc_unregister counterName in se_ret tt).
End Model.
End HistogramExporter.

(** ** A histogram that satisfies the laws

    All values in one [EventSeries]; a percentile is estimated by the average. *)
Module CoarseHistogram.
Import EventSeries.
Record histogram := Hist { width : Z; lo : Z; hi : Z; data : series }.
Definition values : Type := list (Z * Z).             (** value, times *)

Definition on_data (f : series -> series) (h : histogram) : histogram :=
  Hist (width h) (lo h) (hi h) (f (data h)).
Definition make (w l u : Z) (c : series) : outcome histogram :=
  if (0 <? w) && (l <=? u) then Ret (Hist w l u c) else Throw check_failed.
Definition add_values (now : Z) (vs : values) (t : series) : series :=
  foldl (fun t v => add now (v.1 * v.2) v.2 t) t vs.

Lemma add_values_levels now vs t : level_durations (add_values now vs t) = level_durations t.
Proof. unfold add_values. revert t. induction vs as [|v vs IH]; intros t; [done|]. cbn [foldl]. by rewrite IH. Qed.

#[local] Obligation Tactic := idtac.
#[export] Program Instance coarse_histogram : FollyHistogram series histogram values := {|
  th_make := make;
  th_getBucketSize := width;
  th_getMin := lo;
  th_getMax := hi;
  th_getNumBuckets h := (2 + Z.to_nat ((hi h - lo h) / width h))%nat;
  th_getBucket h _ := data h;
  th_update now := on_data (ts_update now);
  th_addValue now v k := on_data (ts_addValue now v k);
  th_addValues now vs := on_data (add_values now vs);
  th_clear := on_data ts_clear;
  th_sum h := ts_sum (data h);
  th_count h := ts_count (data h);
  th_avg h := ts_avg (data h);
  th_avg_double h := ts_avg_double (data h);
  th_rate h := ts_rate seconds (data h);
  th_getPercentileEstimate h _ := ts_avg (data h);
  th_getString h level := decimal (ts_count (data h) level)
|}.
Next Obligation. intros h. simpl. lia. Qed.
Next Obligation. intros w l u c h. unfold make. case_if; [|done]. by intros [= <-]. Qed.
Next Obligation. done. Qed.
Next Obligation. done. Qed.
Next Obligation. intros now vs h. apply add_values_levels. Qed.
Next Obligation. done. Qed.
Next Obligation. done. Qed.
End CoarseHistogram.
