(* ===== verification/HistogramNames.v ===== *)
(** * HistogramNames: the names and effects of [HistogramExporter] *)
From S2P Require Import Prelude RegexUtil CallbackValuesMap CallbackRegistry ExportType Timeseries CounterNames NamedCallbacks TimeseriesExporter ExporterNames HistogramExporter.
From Stdlib Require Import ZArith Lia Ascii String.
From stdpp Require Import base gmap list strings.
Import HistogramExporter.

Open Scope Z_scope.
Open Scope fb303_scope.

(** ** The loops register and unregister the names they compute *)
Section Loops.
Context {S Cb : Type} `{NamedCallbacks S Cb}.
Context (nameof : nat -> outcome string) (f : Z -> string) (ds : list Z).
Hypothesis Hname : forall lev d, ds !! lev = Some d -> nameof lev = Ret (f d).

Lemma for_levels_register (cl : nat -> Cb) (overwrite : bool) (s : S) :
  for_levels nameof (fun n lev => nc_register n (cl lev) overwrite) (seq 0 (length ds)) s =
  register_all ((fun p : nat * Z => (f p.2, cl p.1)) <$> indexed ds) overwrite s.
Proof.
  rewrite <- indexed_fst. pose proof (indexed_lookup ds) as Hix. revert s.
  induction Hix as [|[lev d] ps Hd Hps IH]; intros s; [done|]. rewrite !fmap_cons.
  cbn [for_levels register_all fst snd] in *. rewrite (Hname lev d) by done. unfold lift at 1.
  rewrite (se_bind_ret _ _ _ _ _ eq_refl). unfold se_bind.
  by destruct (nc_register _ _ _ s) as [[[]|e] s1].
Qed.

Lemma for_levels_unregister (s : S) :
  for_levels nameof (fun n _ => let* _ := nc_unregister n in se_ret tt) (seq 0 (length ds)) s =
  unregister_all (f <$> ds) s.
Proof.
  assert (Hf : f <$> ds = (fun p : nat * Z => f p.2) <$> indexed ds).
  { rewrite <- (indexed_snd ds) at 1. by rewrite <- list_fmap_compose. }
  rewrite Hf, <- indexed_fst. clear Hf. pose proof (indexed_lookup ds) as Hix. revert s.
  induction Hix as [|[lev d] ps Hd Hps IH]; intros s; [done|]. rewrite !fmap_cons.
  cbn [for_levels unregister_all fst snd] in *. rewrite (Hname lev d) by done. unfold lift at 1.
  rewrite (se_bind_ret _ _ _ _ _ eq_refl). unfold se_bind, se_ret.
  destruct (nc_unregister _ s) as [[b|e] s1]; [apply IH|done].
Qed.
End Loops.

(** ** Names *)
Definition percentile_token (percentile : Z) : string := "p" +:+ decimal percentile.

Lemma percentile_token_ok p : token (percentile_token p) = true.
Proof.
  unfold token, percentile_token. rewrite no_char_app, decimal_no_dot. done.
Qed.

Lemma percentile_token_inj p p' : percentile_token p = percentile_token p' -> p = p'.
Proof. intros E. apply str_app_inv_head in E. by apply decimal_inj. Qed.

Lemma percentile_not_type p ty : percentile_token p <> type_name ty.
Proof.
  unfold percentile_token. rewrite str_cons_app. destruct ty; try done. simpl. intros [=E].
  pose proof (decimal_numerals p) as Hn. change ("" +:+ decimal p) with (decimal p) in E.
  rewrite E in Hn. by vm_compute in Hn.
Qed.

Section Names.
Context {TS Hg HV : Type} `{FollyHistogram TS Hg HV}.

Definition hist_durations (h : Hg) : list Z := ts_durations (th_getBucket h 0).

Lemma duration_seconds d : duration_cast seconds seconds d = d.
Proof. unfold duration_cast, seconds. by rewrite Z.mul_1_r, Z.quot_1_r. Qed.

Lemma bucketsName_eq (stat : TS) name lev d :
  ts_durations stat !! lev = Some d ->
  bucketsName stat name lev = Ret (level_name seconds name "hist" d).
Proof.
  intros Hd. unfold bucketsName, level_name, counter_name, level_label.
  rewrite (ts_isAllTime_spec _ _ _ Hd), Hd, duration_seconds. case_if; [done|].
  unfold seconds. by rewrite Z.div_1_r.
Qed.

Lemma percentileName_eq (stat : TS) name pct lev d :
  ts_durations stat !! lev = Some d ->
  percentileName stat name pct lev = Ret (level_name seconds name (percentile_token pct) d).
Proof.
  intros Hd. unfold percentileName, level_name, counter_name, level_label, percentile_token.
  rewrite (ts_isAllTime_spec _ _ _ Hd), Hd, duration_seconds. case_if; f_equal.
  - by rewrite str_app_nil_r.
  - unfold seconds. rewrite Z.div_1_r. by rewrite str_app_assoc, !str_cons_app.
Qed.

Lemma has_buckets (h : Hg) : Nat.leb (th_getNumBuckets h) 0 = false.
Proof. apply Nat.leb_gt. apply th_buckets. Qed.
End Names.

(** ** Effects *)
Section Effects.
Context {TS Hg HV : Type} `{FollyHistogram TS Hg HV}.
Context {CM Cb : Type} `{NamedCallbacks CM Cb} (callback : hist_value -> Cb).

(** What can be exported as counters. *)
Inductive item := StatItem (ty : ExportType) | PercentileItem (percentile : Z).

Definition export_item (hobj : Hg) (hist : nat) (name : string) (it : item) : SE CM unit :=
  match it with
  | StatItem ty => exportStat callback hobj hist name ty
  | PercentileItem p => exportPercentile callback hobj hist name p
  end.
Definition unexport_item (hobj : Hg) (name : string) (it : item) : SE CM unit :=
  match it with
  | StatItem ty => unexportStat (CM := CM) hobj name ty
  | PercentileItem p => unexportPercentile (CM := CM) hobj name p
  end.

Definition item_ok (it : item) : Prop :=
  match it with StatItem _ => True | PercentileItem p => 0 <= p <= 100 end.
Definition item_base (name : string) (it : item) : string :=
  match it with StatItem _ => c_str name | PercentileItem _ => name end.
Definition item_token (it : item) : string :=
  match it with StatItem ty => type_name ty | PercentileItem p => percentile_token p end.
Definition item_value (hist : nat) (it : item) (lev : nat) : hist_value :=
  match it with StatItem ty => HistStat hist lev ty | PercentileItem p => HistPercentile hist lev p end.
Definition item_name (name : string) (it : item) (d : Z) : string :=
  level_name seconds (item_base name it) (item_token it) d.

Lemma item_token_ok it : token (item_token it) = true.
Proof. destruct it; [apply type_name_token|apply percentile_token_ok]. Qed.

Lemma item_token_inj it it' : item_token it = item_token it' -> it = it'.
Proof.
  destruct it as [ty|p], it' as [ty'|p']; cbn [item_token]; intros E.
  - by apply type_name_inj in E as ->.
  - by destruct (percentile_not_type p' ty).
  - by destruct (percentile_not_type p ty').
  - by apply percentile_token_inj in E as ->.
Qed.

Lemma item_loop hobj name it (fn : string -> nat -> SE CM unit) s :
  short name -> named_durations seconds (hist_durations hobj) -> item_ok it ->
  exists nameof, (forall lev d, hist_durations hobj !! lev = Some d ->
      nameof lev = Ret (item_name name it d)) /\
    (match it with
     | StatItem ty => forEachStatName hobj name ty fn
     | PercentileItem p => forEachPercentileName hobj name p fn
     end) s = for_levels nameof fn (seq 0 (length (hist_durations hobj))) s.
Proof.
  intros Hs Hds Hok. destruct it as [ty|p].
  - eexists. split; [|reflexivity]. intros lev d Hd. by apply getCounterName_eq.
  - exists (percentileName (th_getBucket hobj 0) name p). split; [intros; by apply percentileName_eq|].
    unfold forEachPercentileName. rewrite has_buckets. cbn [item_ok] in Hok.
    destruct (Z.ltb_spec p 0); [lia|]. destruct (Z.ltb_spec 100 p); [lia|]. done.
Qed.

Lemma export_item_eq hobj hist name it s :
  short name -> named_durations seconds (hist_durations hobj) -> item_ok it ->
  export_item hobj hist name it s =
  register_all (level_counters seconds (item_base name it) (item_token it)
    (fun lev => callback (item_value hist it lev)) (hist_durations hobj)) true s.
Proof.
  intros Hs Hds Hok.
  destruct (item_loop hobj name it (fun n lev => nc_register n (callback (item_value hist it lev)) true) s)
    as (nameof & Hn & E); [done..|].
  etrans; [|apply (for_levels_register nameof _ _ Hn)]. etrans; [|exact E]. by destruct it.
Qed.

Lemma unexport_item_eq hobj name it s :
  short name -> named_durations seconds (hist_durations hobj) -> item_ok it ->
  unexport_item hobj name it s = unregister_all (item_name name it <$> hist_durations hobj) s.
Proof.
  intros Hs Hds Hok.
  destruct (item_loop hobj name it (fun n _ => let* _ := nc_unregister n in se_ret tt) s)
    as (nameof & Hn & E); [done..|].
  etrans; [|apply (for_levels_unregister nameof _ _ Hn)]. etrans; [|exact E]. by destruct it.
Qed.

(** Exporting and unexporting the statistics of a histogram.  For any
    export kind or percentile in [0,100] of a histogram with distinct
    whole-second levels: exporting changes only the names of this item, also
    when a registration throws; when it returns, every level's name stands for
    the closure over this histogram, level and item, replacing what was there;
    unexporting then removes exactly these names.  Different items never
    share a counter name, not even of different histograms. *)
Theorem histogram_export_unexport (hobj : Hg) (hist : nat) (name : string) (it : item) (s : CM) :
  nc_wf s -> short name -> named_durations seconds (hist_durations hobj) -> item_ok it ->
  let names := item_name name it <$> hist_durations hobj in
  let '(o, s1) := export_item hobj hist name it s in
  nc_wf s1 /\ (forall m, m ∉ names -> nc_lookup s1 m = nc_lookup s m) /\
  (o = Ret tt -> forall lev d, hist_durations hobj !! lev = Some d ->
     nc_lookup s1 (item_name name it d) = Some (callback (item_value hist it lev))) /\
  (exists s2, unexport_item hobj name it s1 = (Ret tt, s2) /\ nc_wf s2 /\
    forall m, nc_lookup s2 m = if decide (m ∈ names) then None else nc_lookup s m) /\
  (forall name' it' d d', it' <> it -> item_name name' it' d' <> item_name name it d).
Proof.
  intros Hs Hsh Hds Hok names. rewrite export_item_eq by done.
  set (l := level_counters _ _ _ _ _).
  assert (Hnd : NoDup l.*1) by (by apply level_counters_NoDup; [|apply item_token_ok|]).
  pose proof (register_all_effect s l true Hs Hnd) as Heff.
  destruct (register_all l true s) as [o s1]. destruct Heff as (Hw & Hother & _ & Heq).
  unfold l in Hother at 1. rewrite level_counters_names in Hother.
  split; [done|]. split; [done|]. split; [|split].
  - intros Ho lev d Hd. rewrite Heq by done. unfold registered_as, l, item_name.
    rewrite (level_counters_lookup seconds (item_base name it) (item_token it) eq_refl
      (item_token_ok it) _ _ lev d Hds Hd). by destruct (nc_lookup s _).
  - rewrite unexport_item_eq by done. destruct (unregister_all_effect s1 names Hw) as (s2 & E & Hw2 & Hl).
    exists s2. split; [done|]. split; [done|]. intros m. rewrite Hl. case_decide; [done|by apply Hother].
  - intros name' it' d d' Hne E. apply counter_name_inj in E as (_ & E & _); [|apply item_token_ok..].
    by apply item_token_inj in E.
Qed.
End Effects.

(** The 95th percentile of a histogram of one minute and ten minutes. *)
Section Example_.
Import EventSeries CoarseHistogram PrefixCache.
#[local] Instance example_hist_counters :
    NamedCallbacks (CallbackValuesMap.CallbackValuesMap.cvm hist_value cache) hist_value :=
  callback_values_map ExporterNames.example_hash.
Definition example_hist : histogram := Hist 10 0 100 (ts_make 60 (in_ticks seconds [60; 600])).

Lemma histogram_export_unexport_witness :
  let s := CallbackValuesMap.CallbackValuesMap.make in
  let names := item_name "h" (PercentileItem 95) <$> hist_durations example_hist in
  names = ["h.p95.60"; "h.p95.600"]%string /\
  let '(o, s1) := export_item (fun c => c) example_hist 3 "h" (PercentileItem 95) s in
  nc_wf s1 /\ (forall m, m ∉ names -> nc_lookup s1 m = nc_lookup s m) /\
  (o = Ret tt -> forall lev d, hist_durations example_hist !! lev = Some d ->
     nc_lookup s1 (item_name "h" (PercentileItem 95) d) = Some (HistPercentile 3 lev 95)) /\
  (exists s2, unexport_item example_hist "h" (PercentileItem 95) s1 = (Ret tt, s2) /\ nc_wf s2 /\
    forall m, nc_lookup s2 m = if decide (m ∈ names) then None else nc_lookup s m) /\
  (forall name' it' d d', it' <> PercentileItem 95 ->
     item_name name' it' d' <> item_name "h" (PercentileItem 95) d).
Proof.
  split; [reflexivity|].
  refine (histogram_export_unexport (fun c => c) example_hist 3 "h" (PercentileItem 95)
    CallbackValuesMap.CallbackValuesMap.make _ _ _ _).
  - apply CallbackRegistry.registry_wf_make.
  - reflexivity.
  - split; [by apply (bool_decide_unpack _)|].
    repeat (apply Forall_cons; split; [by vm_compute|]). by apply Forall_nil.
  - by split.
Defined.
End Example_.
