(* ===== verification/ExportedStatMap.v ===== *)
(** * ExportedStatMap: named time series, exported as counters

    [src/fb303/ExportedStatMap.h], [ExportedStatMap.cpp], [ExportedStatMapImpl.h]
    and [ExportedStatMapImpl.cpp].  A stat is shared: the map, its handles and
    the exported counters hold the same [std::shared_ptr], so stats live in a
    store and are named by addresses.  The default stat is only ever copied, so
    its pointer is what it points to.  The counters object belongs to somebody
    else and is the second half of the state. *)
From S2P Require Import Prelude ExportType Timeseries NamedCallbacks TimeseriesExporter.
From Stdlib Require Import ZArith Lia String.
From stdpp Require Import base gmap list strings.

Open Scope Z_scope.
Open Scope fb303_scope.
Import LegacyClock.

Module ExportedStatMap.
Section Model.
Context {TS CM Cb : Type} `{FollyTimeseries TS} `{NamedCallbacks CM Cb}.
Context (callback : TimeseriesExporter.stat_value -> Cb).
Abbreviation StatPtr := nat (only parsing).

(** ** State *)
Record statmap := StatMap {
  statMap_ : gmap string StatPtr;
  stats : gmap StatPtr TS;               (** the live [Synchronized<ExportedStat>]s *)
  next_stat : StatPtr;
  defaultTypes_ : list ExportType;
  defaultStat_ : option TS               (** what it points to; [None] is null *)
}.
Abbreviation state := (statmap * CM)%type.

Definition with_statMap (m : gmap string StatPtr) (s : statmap) : statmap :=
  StatMap m (stats s) (next_stat s) (defaultTypes_ s) (defaultStat_ s).
Definition with_stats (h : gmap StatPtr TS) (s : statmap) : statmap :=
  StatMap (statMap_ s) h (next_stat s) (defaultTypes_ s) (defaultStat_ s).

Definition make (defaultTypes : list ExportType) (defaultStat : TS) : statmap :=
  StatMap ∅ ∅ 0 defaultTypes (Some defaultStat).

(** What other threads do to the map between two of its lock regions. *)
Context (gap : state -> state).

Definition on_counters {A} (f : SE CM A) : SE state A :=
  fun s => let '(r, c) := f s.2 in (r, (s.1, c)).
Definition modify_map (f : statmap -> statmap) : SE state unit := fun s => (Ret tt, (f s.1, s.2)).
Definition interleave : SE state unit := fun s => (Ret tt, gap s).

(** [std::make_shared<SyncStat>(stat)] *)
Definition new_stat (t : TS) : SE state StatPtr :=
  fun s => (Ret (next_stat s.1),
    (StatMap (statMap_ s.1) (<[next_stat s.1 := t]> (stats s.1)) (S (next_stat s.1))
       (defaultTypes_ s.1) (defaultStat_ s.1), s.2)).

(** Dereferencing a pointer. *)
Definition deref (p : StatPtr) : SE state TS :=
  fun s => match stats s.1 !! p with
           | Some t => (Ret t, s)
           | None => (Throw undefined_behaviour, s)
           end.

(** [ptr->wlock()->f(...)] *)
Definition locked (f : TS -> TS) (p : StatPtr) : SE state unit :=
  let* t := deref p in modify_map (fun s => with_stats (<[p := f t]> (stats s)) s).

(** ** Defaults *)
Definition with_default (d : option TS) (s : statmap) : statmap :=
  StatMap (statMap_ s) (stats s) (next_stat s) (defaultTypes_ s) d.
Definition setDefaultStat (defaultStat : TS) : SE state unit :=
  modify_map (with_default (Some defaultStat)).
(** A null pointer is stored as it is. *)
Definition setDefaultStatPtr (defaultStat : option TS) : SE state unit :=
  modify_map (with_default defaultStat).
Definition setDefaultTypes (types : list ExportType) : SE state unit :=
  modify_map (fun s => StatMap (statMap_ s) (stats s) (next_stat s) types (defaultStat_ s)).

(** ** Lookup and creation *)
Definition find (name : string) : SE state (option StatPtr) :=
  fun s => (Ret (statMap_ s.1 !! name), s).

(** The object a new stat is copied from. *)
Definition blueprint (copyMe : option TS) : SE state TS :=
  match copyMe with
  | Some t => se_ret t
  | None =>
      let* s := se_get in
      match defaultStat_ s.1 with
      | Some t => se_ret t
      | None => se_throw undefined_behaviour       (** [**defaultStat_] of null *)
      end
  end.

(** [getStatPtrNoExport]: the stat and what [*createdPtr] is set to.  The shared
    lock is released before the upgrade lock is taken. *)
Definition getStatPtrNoExport (name : string) (copyMe : option TS) : SE state (StatPtr * bool) :=
  let* iter := find name in
  match iter with
  | Some p => se_ret (p, false)
  | None =>
      interleave >>>
      let* iter := find name in
      match iter with
      | Some p => se_ret (p, false)
      | None =>
          let* t := blueprint copyMe in
          let* value := new_stat t in
          modify_map (fun s => with_statMap (<[name := value]> (statMap_ s)) s) >>>
          se_ret (value, true)
      end
  end.

(** [TimeseriesExporter::exportStat] for each type. *)
Fixpoint export_types (item : StatPtr) (name : string) (updateOnRead : bool) (types : list ExportType)
  : SE state unit :=
  match types with
  | [] => se_ret tt
  | type :: types' =>
      let* statObj := deref item in
      on_counters (TimeseriesExporter.exportStat callback statObj item type name updateOnRead) >>>
      export_types item name updateOnRead types'
  end.

Definition getStatPtr (name : string) (exportTypes : list ExportType) : SE state StatPtr :=
  let* r := getStatPtrNoExport name None in
  if r.2 : bool then export_types r.1 name true exportTypes >>> se_ret r.1 else se_ret r.1.

(** [getStatPtr(name, const ExportType* exportType)] *)
Definition getStatPtr_default (name : string) (exportType : option ExportType) : SE state StatPtr :=
  let* s := se_get in
  getStatPtr name (match exportType with Some t => [t] | None => defaultTypes_ s.1 end).

Definition getLockedStatPtr (name : string) : SE state StatPtr :=
  let* p := getStatPtr_default name None in
  locked ts_flush p >>> se_ret p.

(** ** Exporting *)
Definition exportStat (name : string) (types : list ExportType) (copyMe : option TS)
    (updateOnRead : bool) : SE state unit :=
  let* item := getStatPtrNoExport name copyMe in
  export_types item.1 name updateOnRead types.

(** [exportStat(name, type, copyMe, updateOnRead)] *)
Definition exportStat_type (name : string) (type : ExportType) (copyMe : option TS)
    (updateOnRead : bool) : SE state unit := exportStat name [type] copyMe updateOnRead.

(** [exportStat(name)]: a null default is passed on as a null [copyMe]. *)
Definition exportStat_default (name : string) : SE state unit :=
  let* s := se_get in
  exportStat name (defaultTypes_ s.1) (defaultStat_ s.1) true.

Fixpoint unexport_types (statObj : TS) (name : string) (types : list ExportType) : SE state unit :=
  match types with
  | [] => se_ret tt
  | type :: types' =>
      on_counters (TimeseriesExporter.unExportStat statObj type name) >>>
      unexport_types statObj name types'
  end.

Definition erase (name : string) : SE state unit :=
  modify_map (fun s => with_statMap (delete name (statMap_ s)) s).

Definition unExportStatAll (name : string) : SE state unit :=
  let* stat := find name in
  match stat with
  | None => se_ret tt
  | Some p =>
      let* statObj := deref p in
      unexport_types statObj name ExportTypeMeta.kExportTypes >>> erase name
  end.

(** ** Values *)
Definition addValue_types (name : string) (now value : Z) (exportTypes : list ExportType) : SE state unit :=
  let* p := getStatPtr name exportTypes in locked (ts_addValue now value 1) p.
Definition addValue_type (name : string) (now value : Z) (type : ExportType) : SE state unit :=
  let* p := getStatPtr_default name (Some type) in locked (ts_addValue now value 1) p.
Definition addValue (name : string) (now value times : Z) : SE state unit :=
  let* p := getStatPtr_default name None in locked (ts_addValue now value times) p.
Definition addValueAggregated (name : string) (now sum nsamples : Z) : SE state unit :=
  let* p := getStatPtr_default name None in locked (ts_addValueAggregated now sum nsamples) p.
Definition clearValue (name : string) : SE state unit :=
  let* p := getStatPtr_default name None in locked ts_clear p.
Definition contains (name : string) : SE state bool :=
  let* iter := find name in se_ret (match iter with Some _ => true | None => false end).

(** ** The whole map *)
Definition forgetAllStats : SE state unit := modify_map (with_statMap ∅).
Definition forgetStatsFor (name : string) : SE state unit := erase name.

Fixpoint each_stat (f : TS -> TS) (ps : list StatPtr) : SE state unit :=
  match ps with
  | [] => se_ret tt
  | p :: ps' => locked f p >>> each_stat f ps'
  end.
Definition flushAllStats : SE state unit :=
  let* s := se_get in each_stat ts_flush (map_to_list (statMap_ s.1)).*2.
Definition clearAllStats : SE state unit :=
  let* s := se_get in each_stat ts_clear (map_to_list (statMap_ s.1)).*2.

(** ** Reading an exported counter: the lambda of [exportStat] *)
Definition read_counter (time_source : nat -> Z) (v : TimeseriesExporter.stat_value)
  : SE (clock * state) Z :=
  fun w => match stats w.2.1 !! TimeseriesExporter.sv_stat v with
           | None => (Throw undefined_behaviour, w)
           | Some t =>
               let '(r, c) := TimeseriesExporter.getStatValue time_source t (TimeseriesExporter.sv_type v)
                 (TimeseriesExporter.sv_level v) (TimeseriesExporter.sv_updateOnRead v) w.1 in
               (r, (c, w.2))
           end.
End Model.
Arguments statmap : clear implicits.
End ExportedStatMap.

(** ** [ExportedStatMapImpl] *)
Module ExportedStatMapImpl.
Import ExportedStatMap.
Section Model.
Context {TS CM Cb : Type} `{FollyTimeseries TS} `{NamedCallbacks CM Cb}.
Context (callback : TimeseriesExporter.stat_value -> Cb).
Abbreviation state := (statmap TS * CM)%type.
Context (gap : state -> state).

(** A [LockableStat]; [None] is a null [stat_]. *)
Record LockableStat := Lockable { stat_ : option nat }.

Definition isNull (l : LockableStat) : bool := match stat_ l with None => true | Some _ => false end.
Definition getStatPtr (l : LockableStat) : option nat := stat_ l.
Definition swap (l : LockableStat * LockableStat) : LockableStat * LockableStat := (l.2, l.1).

(** [stat_->wlock()->f(...)]; [lock] is the same without [f]. *)
Definition stat_locked (f : TS -> TS) (l : LockableStat) : SE state unit :=
  match stat_ l with
  | Some p => locked f p
  | None => se_throw undefined_behaviour
  end.
Definition lock (l : LockableStat) : SE state nat :=
  match stat_ l with
  | Some p => let* _ := deref p in se_ret p
  | None => se_throw undefined_behaviour
  end.
Definition addValue (l : LockableStat) (now value times : Z) : SE state unit :=
  stat_locked (ts_addValue now value times) l.
Definition addValueAggregated (l : LockableStat) (now value numSamples : Z) : SE state unit :=
  stat_locked (ts_addValueAggregated now value numSamples) l.

(** The [*Locked] methods work on the locked pointer, not on [stat_]; its
    [DCHECK] excludes null. *)
Definition via_locked {A} (lockedObj : option nat) (k : nat -> SE state A) : SE state A :=
  match lockedObj with Some p => k p | None => se_throw check_failed end.
Definition addValueLocked (lockedObj : option nat) (now value times : Z) : SE state unit :=
  via_locked lockedObj (locked (ts_addValue now value times)).
Definition updateLocked (lockedObj : option nat) (now : Z) : SE state unit :=
  via_locked lockedObj (locked (ts_update now)).
Definition flushLocked (lockedObj : option nat) : SE state unit :=
  via_locked lockedObj (locked ts_flush).
Definition getSumLocked (lockedObj : option nat) (level : nat) : SE state Z :=
  via_locked lockedObj (fun p => let* t := deref p in se_ret (ts_sum t level)).
Definition rate (l : LockableStat) (level : nat) : SE state Z :=
  match stat_ l with
  | Some p => let* t := deref p in se_ret (Timeseries.rate t level)
  | None => se_throw undefined_behaviour
  end.

Definition getLockableStat (name : string) (exportTypes : list ExportType) : SE state LockableStat :=
  let* p := ExportedStatMap.getStatPtr callback gap name exportTypes in se_ret (Lockable (Some p)).
Definition getLockableStat_default (name : string) (type : option ExportType) : SE state LockableStat :=
  let* p := getStatPtr_default callback gap name type in se_ret (Lockable (Some p)).
Definition getLockableStatNoExport (name : string) (copyMe : option TS) : SE state (LockableStat * bool) :=
  let* r := getStatPtrNoExport gap name copyMe in se_ret (Lockable (Some r.1), r.2).

(** [exportStat(LockableStat, name, type, updateOnRead)] *)
Definition exportStat (l : LockableStat) (name : string) (exportType : ExportType) (updateOnRead : bool)
  : SE state unit :=
  match stat_ l with
  | Some item =>
      let* statObj := deref item in
      on_counters (TimeseriesExporter.exportStat callback statObj item exportType name updateOnRead)
  | None => se_throw undefined_behaviour
  end.

(** [addValue(StatPtr&, ...)] and [addValueAggregated(StatPtr&, ...)] *)
Definition addValue_ptr (item : option nat) (now value times : Z) : SE state unit :=
  stat_locked (ts_addValue now value times) (Lockable item).
Definition addValueAggregated_ptr (item : option nat) (now sum nsamples : Z) : SE state unit :=
  stat_locked (ts_addValueAggregated now sum nsamples) (Lockable item).
End Model.
End ExportedStatMapImpl.
