(* ===== verification/StatMapCorrect.v ===== *)
(** * StatMapCorrect: the stat map and its counters agree

    The invariant of [ExportedStatMap] together with the counters map it exports
    to, its abstraction to a finite map from names to time series, and the effect
    of every operation on both, other threads between the lock regions included. *)
From S2P Require Import Prelude RegexUtil CallbackValuesMap CallbackRegistry ExportType Timeseries CounterNames NamedCallbacks TimeseriesExporter ExporterNames ExportedStatMap.
From Stdlib Require Import ZArith Lia String.
From stdpp Require Import base gmap list strings.
Import TimeseriesExporter ExportedStatMap.

Open Scope Z_scope.
Open Scope fb303_scope.

Section Correct.
Context {TS CM Cb : Type} `{FollyTimeseries TS} `{NamedCallbacks CM Cb}.
Context (callback : stat_value -> Cb).
Abbreviation state := (statmap TS * CM)%type.

Definition named (t : TS) : Prop := named_durations milliseconds (ts_durations t).
Definition name_ok (n : string) : Prop := short n /\ no_char nul n = true.

(** A counter with a stat's name is the closure over the stat the map holds
    under that name, for the kind and the level its name says. *)
Definition reports (s : state) : Prop :=
  forall n ty label cb,
    name_ok n -> nc_lookup s.2 (counter_name n (type_name ty) label) = Some cb ->
    exists p t lev d upd,
      statMap_ s.1 !! n = Some p /\ stats s.1 !! p = Some t /\ ts_durations t !! lev = Some d /\
      label = level_label milliseconds d /\ cb = callback (StatValue p ty lev upd).

(** [strict]: no name has been forgotten while its counters stay. *)
Context (strict : bool).

Record inv (s : state) : Prop := {
  inv_live : forall n p, statMap_ s.1 !! n = Some p -> is_Some (stats s.1 !! p);
  inv_inj : forall n m p, statMap_ s.1 !! n = Some p -> statMap_ s.1 !! m = Some p -> n = m;
  inv_fresh : forall p, is_Some (stats s.1 !! p) -> (p < next_stat s.1)%nat;
  inv_named : forall p t, stats s.1 !! p = Some t -> named t;
  inv_default : forall t, defaultStat_ s.1 = Some t -> named t;
  inv_names : forall n, is_Some (statMap_ s.1 !! n) -> name_ok n;
  inv_counters : nc_wf s.2;
  inv_reports : strict = true -> reports s
}.

(** The time series of each name. *)
Definition view (s : state) : gmap string TS := omap (fun p => stats s.1 !! p) (statMap_ s.1).

Lemma view_lookup s n : view s !! n = p ← statMap_ s.1 !! n; stats s.1 !! p.
Proof. apply lookup_omap. Qed.

Lemma view_None s n : inv s -> view s !! n = None <-> statMap_ s.1 !! n = None.
Proof.
  intros Hs. rewrite view_lookup. destruct (statMap_ s.1 !! n) as [p|] eqn:E; [|done]. cbn.
  destruct (inv_live s Hs _ _ E) as [t ->]. done.
Qed.

Lemma inv_make types t (c : CM) :
  named t -> nc_wf c -> (forall m, nc_lookup c m = None) -> inv (make types t, c).
Proof.
  intros Ht Hc Hno. split; cbn; try done.
  - intros p [? Hp]. done.
  - by intros t' [= <-].
  - intros n [? Hn]. done.
  - intros _ n ty label cb _ Hcb. cbn in Hcb. by rewrite Hno in Hcb.
Qed.

(** ** Steps that change one part *)

(** A stat of the store changes its data. *)
Lemma inv_locked s (f : TS -> TS) p t :
  inv s -> stats s.1 !! p = Some t -> ts_durations (f t) = ts_durations t ->
  exists s', locked f p s = (Ret tt, s') /\ inv s' /\ s'.2 = s.2 /\
    statMap_ s'.1 = statMap_ s.1 /\ stats s'.1 = <[p := f t]> (stats s.1) /\
    defaultStat_ s'.1 = defaultStat_ s.1 /\ defaultTypes_ s'.1 = defaultTypes_ s.1.
Proof.
  intros Hs Hp Hf. destruct s as [s c]. eexists. split.
  { unfold locked, se_bind, deref. cbn. cbn in Hp. rewrite Hp. reflexivity. }
  split; [|done]. split; cbn; try apply Hs.
  - intros n q Hq. destruct (inv_live _ Hs _ _ Hq) as [u Hu]. cbn in Hu.
    apply lookup_insert_is_Some'. eauto.
  - intros q Hq. apply lookup_insert_is_Some' in Hq as [<-|Hq]; apply (inv_fresh _ Hs); eauto.
  - intros q u Hq. apply lookup_insert_Some in Hq as [[<- <-]|[_ Hq]]; [|by apply (inv_named _ Hs q)].
    unfold named. rewrite Hf. by apply (inv_named _ Hs p).
  - intros Hst n ty label cb Hn Hcb. destruct (inv_reports _ Hs Hst n ty label cb Hn Hcb)
      as (q & u & lev & d & upd & Hq & Hu & Hd & Hl & ->). cbn in *.
    destruct (decide (q = p)) as [->|Hne].
    + assert (u = t) as -> by congruence. exists p, (f t), lev, d, upd. rewrite lookup_insert_eq, Hf. done.
    + exists q, u, lev, d, upd. by rewrite lookup_insert_ne by done.
Qed.

(** A new stat under a name that is absent. *)
Lemma inv_create s n t :
  inv s -> statMap_ s.1 !! n = None -> name_ok n -> named t ->
  let s' := (with_statMap (<[n := next_stat s.1]> (statMap_ s.1))
      (StatMap (statMap_ s.1) (<[next_stat s.1 := t]> (stats s.1)) (S (next_stat s.1))
         (defaultTypes_ s.1) (defaultStat_ s.1)), s.2) in
  inv s' /\ view s' = <[n := t]> (view s).
Proof.
  intros Hs Hn Hok Ht s'.
  assert (Hne : forall m q, statMap_ s.1 !! m = Some q -> q <> next_stat s.1).
  { intros m q Hq. destruct (inv_live s Hs _ _ Hq) as [u Hu]. pose proof (inv_fresh s Hs q ltac:(eauto)). lia. }
  split.
  - split; cbn; try apply Hs.
    + intros m q Hq. apply lookup_insert_Some in Hq as [[<- <-]|[_ Hq]]; apply lookup_insert_is_Some'; [auto|].
      right. by apply (inv_live s Hs m).
    + intros m m' q Hm Hm'. apply lookup_insert_Some in Hm as [[<- <-]|[? Hm]], Hm' as [[<- E]|[? Hm']].
      all: try done; try (by destruct (Hne _ _ Hm)); try (by destruct (Hne _ _ Hm')).
      by apply (inv_inj s Hs m m' q).
    + intros q Hq. apply lookup_insert_is_Some' in Hq as [<-|Hq]; [lia|].
      pose proof (inv_fresh s Hs q Hq). lia.
    + intros q u Hq. apply lookup_insert_Some in Hq as [[<- <-]|[_ Hq]]; [done|by apply (inv_named s Hs q)].
    + intros m Hm. apply lookup_insert_is_Some' in Hm as [<-|Hm]; [done|by apply (inv_names s Hs)].
    + intros Hst m ty label cb Hm Hcb. destruct (inv_reports s Hs Hst m ty label cb Hm Hcb)
        as (q & u & lev & d & upd & Hq & Hu & Hd & Hl & ->).
      exists q, u, lev, d, upd. cbn. rewrite lookup_insert_ne by (intros <-; congruence).
      rewrite lookup_insert_ne by (intros E; by destruct (Hne _ _ Hq)). done.
  - apply map_eq. intros m. rewrite view_lookup. cbn. destruct (decide (m = n)) as [->|Hmn].
    + rewrite !lookup_insert_eq. cbn. by rewrite lookup_insert_eq.
    + rewrite !lookup_insert_ne by done. rewrite view_lookup.
      destruct (statMap_ s.1 !! m) as [q|] eqn:E; [|done]. cbn.
      rewrite lookup_insert_ne; [done|]. intros Eq. by destruct (Hne _ _ E).
Qed.

(** ** Exporting *)
Definition exported (c : CM) (n : string) (ty : ExportType) (t : TS) : Prop :=
  forall d, d ∈ ts_durations t -> is_Some (nc_lookup c (level_name milliseconds n (type_name ty) d)).

Lemma c_str_ok n : name_ok n -> c_str n = n.
Proof. intros [_ Hn]. by apply c_str_id. Qed.

Lemma inv_exportStat (s : state) n p t ty upd :
  inv s -> statMap_ s.1 !! n = Some p -> stats s.1 !! p = Some t ->
  let '(o, c) := TimeseriesExporter.exportStat callback t p ty n upd s.2 in
  inv (s.1, c) /\ (o = Ret tt -> exported c n ty t) /\
  (o = Ret tt -> forall m, is_Some (nc_lookup s.2 m) -> is_Some (nc_lookup c m)).
Proof.
  intros Hs Hn Hp. assert (Hok : name_ok n) by (apply (inv_names s Hs); eauto).
  assert (Ht : named t) by (by apply (inv_named s Hs p)).
  rewrite exportStat_eq by (done || apply Hok). set (l := stat_counters _ _ _ _ _ _).
  assert (Hnd : NoDup l.*1).
  { apply level_counters_NoDup; [done|apply type_name_token|done]. }
  pose proof (register_all_effect s.2 l false (inv_counters s Hs) Hnd) as Heff.
  destruct (register_all l false s.2) as [o c]. destruct Heff as (Hw & _ & Hany & Heq).
  split; [|split].
  - destruct Hs. split; try done. intros Hst n' ty' label cb Hok' Hcb. cbn in Hcb.
    destruct (Hany (counter_name n' (type_name ty') label)) as [E|[E|E]]; rewrite Hcb in E; [done| |].
    + by apply (inv_reports0 Hst).
    + symmetry in E. apply elem_of_list_to_map_2, list_elem_of_fmap in E as ([lev d] & E & Hix).
      injection E as En ->. pose proof (indexed_lookup (ts_durations t)) as Hl.
      rewrite Forall_forall in Hl. specialize (Hl _ Hix). cbn in Hl, En.
      rewrite c_str_ok in En by done. apply counter_name_inj in En as (-> & Ety & ->); [|apply type_name_token..].
      apply type_name_inj in Ety as ->. exists p, t, lev, d, upd. done.
  - intros Ho d Hd. apply list_elem_of_lookup in Hd as [lev Hd]. rewrite Heq by done. unfold registered_as, l, stat_counters.
    rewrite c_str_ok by done.
    rewrite (level_counters_lookup milliseconds n (type_name ty) eq_refl (type_name_token ty) _ _ lev d Ht Hd).
    destruct (nc_lookup s.2 _); eauto.
  - intros Ho m [cb Hm]. rewrite Heq by done. unfold registered_as. rewrite Hm.
    destruct (_ !! m); eauto.
Qed.

(** The names of the counters of a stat, for some kinds. *)
Definition counters_of (n : string) (t : TS) (types : list ExportType) : list string :=
  types ≫= fun ty => level_name milliseconds n (type_name ty) <$> ts_durations t.

(** [unExportStat] for every kind frees every counter of the name. *)
Lemma unexport_types_effect (sm : statmap TS) (c : CM) n t types :
  nc_wf c -> name_ok n -> named t ->
  exists c', unexport_types t n types (sm, c) = (Ret tt, (sm, c')) /\ nc_wf c' /\
    forall m, nc_lookup c' m = if decide (m ∈ counters_of n t types) then None else nc_lookup c m.
Proof.
  intros Hw Hok Ht. revert c Hw. induction types as [|ty types IH]; intros c Hw.
  { exists c. split; [done|]. split; [done|]. intros m. rewrite decide_False; [done|]. set_solver. }
  cbn [unexport_types]. unfold se_bind, on_counters. cbn [fst snd].
  rewrite unExportStat_eq by (done || apply Hok).
  destruct (unregister_all_effect c (stat_names ty n (ts_durations t)) Hw) as (c1 & E1 & Hw1 & Hl1).
  rewrite E1. destruct (IH c1 Hw1) as (c2 & E & Hw2 & Hl2). exists c2. split; [exact E|]. split; [done|].
  intros m. rewrite Hl2, Hl1. unfold stat_names, counters_of. rewrite c_str_ok by done. cbn [mbind list_bind].
  repeat case_decide; try done; set_solver.
Qed.

Lemma export_types_effect types (s : state) n p t upd :
  inv s -> statMap_ s.1 !! n = Some p -> stats s.1 !! p = Some t ->
  let '(o, s') := export_types callback p n upd types s in
  inv s' /\ s'.1 = s.1 /\
  (o = Ret tt -> (forall ty, ty ∈ types -> exported s'.2 n ty t) /\
     forall m, is_Some (nc_lookup s.2 m) -> is_Some (nc_lookup s'.2 m)).
Proof.
  intros Hs Hn Hp. revert s Hs Hn Hp. induction types as [|ty types IH]; intros s Hs Hn Hp.
  { cbn. split; [done|]. split; [done|]. intros _. split; [set_solver|done]. }
  cbn [export_types]. unfold se_bind, deref. rewrite Hp. unfold on_counters.
  pose proof (inv_exportStat s n p t ty upd Hs Hn Hp) as He.
  destruct (TimeseriesExporter.exportStat callback t p ty n upd s.2) as [[[]|e] c]; destruct He as (Hi & He & Hk).
  2: by split.
  specialize (IH (s.1, c) Hi Hn Hp). destruct (export_types callback p n upd types (s.1, c)) as [o s2].
  destruct IH as (Hi2 & E2 & Ho). split; [done|]. split; [done|]. intros ->. destruct (Ho eq_refl) as [Hex Hk2].
  split.
  - intros ty' [->|Hty]%elem_of_cons; [|by apply Hex]. intros d Hd. by apply Hk2, He.
  - intros m Hm. by apply Hk2, Hk.
Qed.

(** ** Lookup and creation, with other threads in between *)
Context (gap : state -> state).
Hypothesis gap_inv : forall s, inv s -> inv (gap s).

(** What a created stat is copied from. *)
Definition source (copyMe : option TS) (s : state) : option TS :=
  match copyMe with Some t => Some t | None => defaultStat_ s.1 end.

(** [v'] is [v] with the series of [n], created from [bp] if absent, changed by [f]. *)
Definition touch (n : string) (bp : option TS) (f : TS -> TS) (v v' : gmap string TS) : Prop :=
  exists t, (v !! n = Some t \/ v !! n = None /\ bp = Some t) /\ v' = <[n := f t]> v.

Lemma source_named copyMe s t :
  inv s -> (forall u, copyMe = Some u -> named u) -> source copyMe s = Some t -> named t.
Proof. intros Hs Hc. destruct copyMe as [u|]; cbn; [intros [= <-]; by apply Hc|apply (inv_default s Hs)]. Qed.

Lemma find_eq n (s : state) : find n s = (Ret (statMap_ s.1 !! n), s).
Proof. done. Qed.

Lemma blueprint_eq copyMe (s : state) :
  blueprint copyMe s = match source copyMe s with
                       | Some t => (Ret t, s)
                       | None => (Throw undefined_behaviour, s)
                       end.
Proof. unfold blueprint, source, se_bind, se_get. destruct copyMe; [done|]. by destruct (defaultStat_ s.1). Qed.

Definition found (s' : state) (n : string) (p : nat) (t : TS) : Prop :=
  statMap_ s'.1 !! n = Some p /\ stats s'.1 !! p = Some t.

Lemma found_in s n p : inv s -> statMap_ s.1 !! n = Some p -> exists t, found s n p t /\ view s !! n = Some t.
Proof.
  intros Hs Hp. destruct (inv_live s Hs _ _ Hp) as [t Ht]. exists t. split; [done|].
  by rewrite view_lookup, Hp.
Qed.

Lemma getStatPtrNoExport_effect n copyMe (s : state) :
  inv s -> name_ok n -> (forall u, copyMe = Some u -> named u) ->
  let '(o, s') := getStatPtrNoExport gap n copyMe s in
  inv s' /\ exists s0, (s0 = s \/ s0 = gap s) /\ s'.2 = s0.2 /\ defaultTypes_ s'.1 = defaultTypes_ s0.1 /\
  match o with
  | Ret (p, created) => exists t, found s' n p t /\ (if created then view s0 !! n = None else s' = s0) /\
      touch n (source copyMe s0) id (view s0) (view s')
  | Throw e => e = undefined_behaviour /\ s' = s0 /\ view s0 !! n = None /\ source copyMe s0 = None
  end.
Proof.
  intros Hs Hok Hc. unfold getStatPtrNoExport. rewrite (se_bind_ret _ _ _ _ _ (find_eq n s)).
  assert (Hfound : forall s0 p, inv s0 -> statMap_ s0.1 !! n = Some p ->
    exists t, found s0 n p t /\ s0 = s0 /\ touch n (source copyMe s0) id (view s0) (view s0)).
  { intros s0 p Hs0 Hp. destruct (found_in s0 n p Hs0 Hp) as (t & Hf & Hv). exists t. split; [done|].
    split; [done|]. exists t. split; [by left|]. by rewrite insert_id. }
  destruct (statMap_ s.1 !! n) as [p|] eqn:Hp.
  { cbn. split; [done|]. exists s. split; [by left|]. split; [done|]. split; [done|]. by apply Hfound. }
  rewrite (se_bind_ret (interleave gap) _ s tt (gap s) eq_refl).
  pose proof (gap_inv s Hs) as Hg. set (s0 := gap s) in *. rewrite (se_bind_ret _ _ _ _ _ (find_eq n s0)).
  destruct (statMap_ s0.1 !! n) as [p|] eqn:Hp0.
  { cbn. split; [done|]. exists s0. split; [by right|]. split; [done|]. split; [done|]. by apply Hfound. }
  assert (Hv0 : view s0 !! n = None) by (by apply view_None).
  unfold se_bind. rewrite blueprint_eq. destruct (source copyMe s0) as [t|] eqn:Hsrc.
  - destruct (inv_create s0 n t Hg Hp0 Hok (source_named _ _ _ Hg Hc Hsrc)) as [Hi Hv]. cbn.
    split; [exact Hi|]. exists s0. split; [by right|]. split; [done|]. split; [done|]. exists t. split; [|split].
    + split; cbn; by rewrite lookup_insert_eq.
    + done.
    + exists t. split; [by right|]. exact Hv.
  - split; [done|]. exists s0. split; [by right|]. done.
Qed.

Lemma getStatPtr_effect n types (s : state) :
  inv s -> name_ok n ->
  let '(o, s') := getStatPtr callback gap n types s in
  inv s' /\ exists s0, (s0 = s \/ s0 = gap s) /\
  match o with
  | Ret p => exists t, found s' n p t /\ touch n (source None s0) id (view s0) (view s') /\
      (view s0 !! n = None -> forall ty, ty ∈ types -> exported s'.2 n ty t)
  | Throw e => view s' = view s0 \/ touch n (source None s0) id (view s0) (view s')
  end.
Proof.
  intros Hs Hok. unfold getStatPtr, se_bind.
  pose proof (getStatPtrNoExport_effect n None s Hs Hok ltac:(done)) as Hget.
  destruct (getStatPtrNoExport gap n None s) as [[[p created]|e] s1]; destruct Hget as (Hi & s0 & Hs0 & _ & _ & Hget).
  2: { destruct Hget as (_ & -> & _). split; [done|]. exists s0. auto. }
  destruct Hget as (t & Hf & Hcr & Ht). cbn [fst snd]. destruct created.
  - pose proof (export_types_effect types s1 n p t true Hi (proj1 Hf) (proj2 Hf)) as Hex.
    destruct (export_types callback p n true types s1) as [[[]|e] s2]; destruct Hex as (Hi2 & E & Hex).
    + destruct (Hex eq_refl) as [Hex' _]. cbn. split; [done|]. exists s0. split; [done|]. exists t.
      unfold found, view. rewrite E. split; [done|]. split; [done|]. intros _. exact Hex'.
    + split; [done|]. exists s0. split; [done|]. right. unfold view at 2. by rewrite E.
  - subst s1. cbn. split; [done|]. exists s0. split; [done|]. exists t. split; [done|]. split; [done|].
    intros Hnone. destruct Hf as [Hf1 Hf2]. rewrite view_lookup, Hf1 in Hnone. cbn in Hnone. congruence.
Qed.
End Correct.
