(* ===== verification/StatMapTheorems.v ===== *)
(** * StatMapTheorems: the operations of the stat map, in any order

    What every operation of [ExportedStatMap] does to the finite map from names
    to time series, and what the exported counters read. *)
From S2P Require Import Prelude RegexUtil CallbackValuesMap CallbackRegistry ExportType Timeseries CounterNames NamedCallbacks TimeseriesExporter ExporterNames ExportedStatMap StatMapCorrect.
From Stdlib Require Import ZArith Lia String.
From stdpp Require Import base gmap list strings.
Import TimeseriesExporter ExportedStatMap.

Open Scope Z_scope.
Open Scope fb303_scope.

Section Theorems.
Context {TS CM Cb : Type} `{FollyTimeseries TS} `{NamedCallbacks CM Cb}.
Context (callback : stat_value -> Cb) (strict : bool).
Abbreviation state := (statmap TS * CM)%type.
Abbreviation inv := (StatMapCorrect.inv callback strict).
Context (gap : state -> state).

(** ** Operations *)
Inductive op :=
  | OAddValue (name : string) (now value times : Z)
  | OAddValueType (name : string) (now value : Z) (type : ExportType)
  | OAddValueTypes (name : string) (now value : Z) (types : list ExportType)
  | OAddValueAggregated (name : string) (now sum nsamples : Z)
  | OClearValue (name : string)
  | OGetStatPtr (name : string) (types : list ExportType)
  | OGetLockedStatPtr (name : string)
  | OExportStat (name : string) (types : list ExportType) (copyMe : option TS) (updateOnRead : bool)
  | OExportStatDefault (name : string)
  | OUnExportStatAll (name : string)
  | OForgetStatsFor (name : string)
  | OForgetAllStats
  | OFlushAllStats
  | OClearAllStats
  | OSetDefaultStat (t : TS)
  | OSetDefaultStatPtr (t : option TS)
  | OSetDefaultTypes (types : list ExportType)
  | OLockableAdd (p : nat) (now value times : Z).

Definition ignore {S A} (m : SE S A) : SE S unit := let* _ := m in se_ret tt.

Definition run (o : op) : SE state unit :=
  match o with
  | OAddValue n now v k => addValue callback gap n now v k
  | OAddValueType n now v ty => addValue_type callback gap n now v ty
  | OAddValueTypes n now v tys => addValue_types callback gap n now v tys
  | OAddValueAggregated n now v k => addValueAggregated callback gap n now v k
  | OClearValue n => clearValue callback gap n
  | OGetStatPtr n tys => ignore (getStatPtr callback gap n tys)
  | OGetLockedStatPtr n => ignore (getLockedStatPtr callback gap n)
  | OExportStat n tys c upd => exportStat callback gap n tys c upd
  | OExportStatDefault n => exportStat_default callback gap n
  | OUnExportStatAll n => unExportStatAll n
  | OForgetStatsFor n => forgetStatsFor n
  | OForgetAllStats => forgetAllStats
  | OFlushAllStats => flushAllStats
  | OClearAllStats => clearAllStats
  | OSetDefaultStat t => setDefaultStat t
  | OSetDefaultStatPtr t => setDefaultStatPtr t
  | OSetDefaultTypes tys => setDefaultTypes tys
  | OLockableAdd p now v k => ExportedStatMapImpl.addValue (ExportedStatMapImpl.Lockable (Some p)) now v k
  end.

(** Names and blueprints the theorems are about; forgetting a name leaves its
    counters behind, so it is not [strict]. *)
Definition op_ok (o : op) : Prop :=
  match o with
  | OAddValue n _ _ _ | OAddValueType n _ _ _ | OAddValueTypes n _ _ _ | OAddValueAggregated n _ _ _
  | OClearValue n | OGetStatPtr n _ | OGetLockedStatPtr n | OExportStatDefault n => name_ok n
  | OExportStat n _ c _ => name_ok n /\ forall t, c = Some t -> named t
  | OForgetStatsFor _ | OForgetAllStats => strict = false
  | OSetDefaultStat t => named t
  | OSetDefaultStatPtr t => forall u, t = Some u -> named u
  | _ => True
  end.

(** The operations that reach one stat by name, creating it when it is absent:
    the name, the blueprint given, and what happens to the series. *)
Definition target (s : state) (o : op) : option (string * option TS * (TS -> TS)) :=
  match o with
  | OAddValue n now v k => Some (n, None, ts_addValue now v k)
  | OAddValueType n now v _ | OAddValueTypes n now v _ => Some (n, None, ts_addValue now v 1)
  | OAddValueAggregated n now v k => Some (n, None, ts_addValueAggregated now v k)
  | OClearValue n => Some (n, None, ts_clear)
  | OGetStatPtr n _ => Some (n, None, id)
  | OGetLockedStatPtr n => Some (n, None, ts_flush)
  | OExportStat n _ c _ => Some (n, c, id)
  | OExportStatDefault n => Some (n, defaultStat_ s.1, id)
  | _ => None
  end.

(** The abstract operation: from state [s0] the map of series becomes [v']. *)
Definition op_spec (s : state) (o : op) (s0 : state) (v' : gmap string TS) : Prop :=
  match o with
  | OUnExportStatAll n | OForgetStatsFor n => v' = delete n (view s0)
  | OForgetAllStats => v' = ∅
  | OFlushAllStats => v' = ts_flush <$> view s0
  | OClearAllStats => v' = ts_clear <$> view s0
  | OSetDefaultStat _ | OSetDefaultStatPtr _ | OSetDefaultTypes _ => v' = view s0
  | OLockableAdd p now v k => forall n, v' !! n =
      if decide (statMap_ s0.1 !! n = Some p) then ts_addValue now v k <$> view s0 !! n else view s0 !! n
  | _ => match target s o with
         | Some (n, c, f) => touch n (source c s0) f (view s0) v'
         | None => False
         end
  end.

(** ** Lemmas *)
Lemma view_locked (s s' : state) n p t (f : TS -> TS) :
  inv s -> found s n p t -> statMap_ s'.1 = statMap_ s.1 -> stats s'.1 = <[p := f t]> (stats s.1) ->
  view s' = <[n := f t]> (view s).
Proof.
  intros Hs [Hn Hp] E1 E2. apply map_eq. intros m. rewrite view_lookup, E1, E2.
  destruct (decide (m = n)) as [->|Hm].
  - rewrite Hn. cbn. by rewrite !lookup_insert_eq.
  - rewrite lookup_insert_ne by done. rewrite view_lookup. destruct (statMap_ s.1 !! m) as [q|] eqn:E; [|done].
    cbn. rewrite lookup_insert_ne; [done|]. intros <-. destruct Hm. by apply (inv_inj _ _ s Hs m n p).
Qed.

Lemma touch_id_after n bp (f : TS -> TS) t v v1 v' :
  touch n bp id v v1 -> v1 !! n = Some t -> v' = <[n := f t]> v1 -> touch n bp f v v'.
Proof.
  intros (u & Hu & ->) Hn ->. rewrite lookup_insert_eq in Hn. injection Hn as <-.
  exists u. split; [done|]. by rewrite insert_insert_eq.
Qed.

Lemma each_stat_effect f ps (s : state) :
  (forall t, ts_durations (f t) = ts_durations t) -> inv s -> NoDup ps ->
  Forall (fun p => is_Some (stats s.1 !! p)) ps ->
  exists s', each_stat f ps s = (Ret tt, s') /\ inv s' /\ s'.2 = s.2 /\ statMap_ s'.1 = statMap_ s.1 /\
    forall p, stats s'.1 !! p = if decide (p ∈ ps) then f <$> stats s.1 !! p else stats s.1 !! p.
Proof.
  intros Hf. revert s. induction ps as [|p ps IH]; intros s Hs Hnd Hlive.
  { exists s. split; [done|]. split; [done|]. split; [done|]. split; [done|]. intros p. rewrite decide_False; [done|]. set_solver. }
  apply NoDup_cons in Hnd as [Hp Hnd]. apply Forall_cons in Hlive as [[t Ht] Hlive].
  destruct (inv_locked callback strict s f p t Hs Ht (Hf t)) as (s1 & E1 & Hi1 & Ec & Em & Es & _).
  cbn [each_stat]. rewrite (se_bind_ret _ _ _ _ _ E1).
  destruct (IH s1 Hi1 Hnd) as (s2 & E2 & Hi2 & Ec2 & Em2 & Es2).
  { eapply Forall_impl; [exact Hlive|]. intros q Hq. rewrite Es. apply lookup_insert_is_Some'. auto. }
  exists s2. split; [exact E2|]. split; [done|]. split; [congruence|]. split; [congruence|].
  intros q. rewrite Es2, Es. destruct (decide (q = p)) as [->|Hq].
  - rewrite decide_False by done. rewrite decide_True by left. by rewrite lookup_insert_eq, Ht.
  - rewrite lookup_insert_ne by done. repeat case_decide; set_solver.
Qed.

Lemma each_view f (s : state) :
  (forall t, ts_durations (f t) = ts_durations t) -> inv s ->
  exists s', each_stat f (map_to_list (statMap_ s.1)).*2 s = (Ret tt, s') /\ inv s' /\ view s' = f <$> view s.
Proof.
  intros Hf Hs. destruct (each_stat_effect f (map_to_list (statMap_ s.1)).*2 s Hf Hs) as (s' & E & Hi & _ & Em & Es).
  - apply NoDup_fmap_2_strong; [|apply NoDup_map_to_list]. intros [n p] [m q] Hn Hm E. cbn in E. subst q.
    apply elem_of_map_to_list in Hn, Hm. f_equal. by apply (inv_inj _ _ s Hs n m p).
  - apply Forall_forall. intros p ([n q] & -> & Hn)%list_elem_of_fmap. apply elem_of_map_to_list in Hn.
    by apply (inv_live _ _ s Hs n).
  - exists s'. split; [done|]. split; [done|]. apply map_eq. intros n.
    rewrite lookup_fmap, !view_lookup, Em. destruct (statMap_ s.1 !! n) as [p|] eqn:Hn; [|done]. cbn. rewrite Es.
    rewrite decide_True; [done|]. apply list_elem_of_fmap. exists (n, p). split; [done|]. by apply elem_of_map_to_list.
Qed.

Hypothesis gap_inv : forall s, inv s -> inv (gap s).

(** What an operation on one named stat leaves: on return its effect on that
    stat; on a throw, at most the creation of the stat. *)
Definition touched (s s' : state) (o : outcome unit) (n : string) (copyMe : option TS) (f : TS -> TS) : Prop :=
  inv s' /\ exists s0, (s0 = s \/ s0 = gap s) /\
  match o with
  | Ret _ => touch n (source copyMe s0) f (view s0) (view s')
  | Throw _ => view s' = view s0 \/ touch n (source copyMe s0) id (view s0) (view s')
  end.

Lemma get_then n types (k : nat -> SE state unit) (f : TS -> TS) (s : state) :
  inv s -> name_ok n ->
  (forall s1 p t, inv s1 -> found s1 n p t ->
     exists s2, k p s1 = (Ret tt, s2) /\ inv s2 /\ view s2 = <[n := f t]> (view s1)) ->
  let '(o, s') := (let* p := getStatPtr callback gap n types in k p) s in touched s s' o n None f.
Proof.
  intros Hs Hok Hk. unfold se_bind.
  pose proof (getStatPtr_effect callback strict gap gap_inv n types s Hs Hok) as Hget.
  destruct (getStatPtr callback gap n types s) as [[p|e] s1]; destruct Hget as (Hi & s0 & Hs0 & Hget).
  - destruct Hget as (t & Hf & Ht & _). destruct (Hk s1 p t Hi Hf) as (s2 & E & Hi2 & Hv). rewrite E.
    split; [done|]. exists s0. split; [done|]. apply (touch_id_after _ _ _ t _ (view s1)); [done| |done].
    rewrite view_lookup. destruct Hf as [-> Hf]. exact Hf.
  - split; [done|]. by exists s0.
Qed.

Lemma locked_view (f : TS -> TS) (s : state) n p t :
  (forall t, ts_durations (f t) = ts_durations t) -> inv s -> found s n p t ->
  exists s', locked f p s = (Ret tt, s') /\ inv s' /\ view s' = <[n := f t]> (view s).
Proof.
  intros Hf Hs Hfd. destruct (inv_locked callback strict s f p t Hs (proj2 Hfd) (Hf t)) as (s' & E & Hi & _ & Em & Es & _).
  exists s'. split; [done|]. split; [done|]. by apply (view_locked s s' n p).
Qed.

Lemma get_locked n types (f : TS -> TS) (s : state) :
  (forall t, ts_durations (f t) = ts_durations t) -> inv s -> name_ok n ->
  let '(o, s') := (let* p := getStatPtr callback gap n types in locked f p) s in touched s s' o n None f.
Proof. intros Hf Hs Hok. apply get_then; [done..|]. intros s1 p t Hi Hfd. by apply locked_view. Qed.

Lemma export_effect n types copyMe upd (s : state) :
  inv s -> name_ok n -> (forall u, copyMe = Some u -> named u) ->
  let '(o, s') := exportStat callback gap n types copyMe upd s in touched s s' o n copyMe id.
Proof.
  intros Hs Hok Hc. unfold exportStat, se_bind.
  pose proof (getStatPtrNoExport_effect callback strict gap gap_inv n copyMe s Hs Hok Hc) as Hget.
  destruct (getStatPtrNoExport gap n copyMe s) as [[[p cr]|e] s1];
    destruct Hget as (Hi & s0 & Hs0 & _ & _ & Hget).
  - destruct Hget as (t & [Hf1 Hf2] & _ & Ht). cbn [fst].
    pose proof (export_types_effect callback strict types s1 n p t upd Hi Hf1 Hf2) as Hex.
    destruct (export_types callback p n upd types s1) as [o s2]; destruct Hex as (Hi2 & E & _).
    assert (Ev : view s2 = view s1) by (unfold view; by rewrite E).
    split; [done|]. exists s0. split; [done|]. rewrite Ev. destruct o; [done|by right].
  - destruct Hget as (_ & -> & _). split; [done|]. exists s0. split; [done|]. by left.
Qed.

(** Erasing a name whose counters are gone, or whose counters nobody tracks. *)
Lemma inv_erase (sm : statmap TS) (c c' : CM) n :
  inv (sm, c) -> nc_wf c' ->
  (strict = true -> forall m cb, nc_lookup c' m = Some cb -> nc_lookup c m = Some cb /\
     forall ty label, m <> counter_name n (type_name ty) label) ->
  inv (with_statMap (delete n (statMap_ sm)) sm, c') /\
  view (with_statMap (delete n (statMap_ sm)) sm, c') = delete n (view (sm, c)).
Proof.
  intros Hs Hw Hc. split.
  - split; cbn; try apply Hs; try done.
    + intros m p [_ Hm]%lookup_delete_Some. by apply (inv_live _ _ _ Hs m).
    + intros m m' p [_ Hm]%lookup_delete_Some [_ Hm']%lookup_delete_Some. by apply (inv_inj _ _ _ Hs m m' p).
    + intros m [p [_ Hm]%lookup_delete_Some]. apply (inv_names _ _ _ Hs). by exists p.
    + intros Hst m ty label cb Hm Hcb. destruct (Hc Hst _ _ Hcb) as [Hcb' Hne].
      destruct (inv_reports _ _ _ Hs Hst m ty label cb Hm Hcb') as (p & t & lev & d & upd & Hp & Hr).
      exists p, t, lev, d, upd. cbn in *. rewrite lookup_delete_ne; [done|]. intros ->. by destruct (Hne ty label).
  - apply map_eq. intros m. rewrite view_lookup. cbn. destruct (decide (m = n)) as [->|Hm].
    + by rewrite !lookup_delete_eq.
    + rewrite !lookup_delete_ne by done. by rewrite view_lookup.
Qed.

Lemma unexport_all_effect n (s : state) :
  inv s -> exists s', unExportStatAll n s = (Ret tt, s') /\ inv s' /\ view s' = delete n (view s).
Proof.
  intros Hs. destruct s as [sm c]. unfold unExportStatAll. rewrite (se_bind_ret _ _ _ _ _ (find_eq n (sm, c))).
  cbn [fst]. destruct (statMap_ sm !! n) as [p|] eqn:Hp.
  - destruct (inv_live _ _ _ Hs n p Hp) as [t Ht]. unfold se_bind, deref. cbn [fst] in *. rewrite Ht.
    assert (Hok : name_ok n) by (apply (inv_names _ _ _ Hs); by exists p).
    destruct (unexport_types_effect sm c n t ExportTypeMeta.kExportTypes (inv_counters _ _ _ Hs) Hok
      (inv_named _ _ _ Hs p t Ht)) as (c' & E & Hw & Hl). rewrite E.
    destruct (inv_erase sm c c' n Hs Hw) as [Hi Hv].
    + intros Hst m cb Hm. rewrite Hl in Hm. case_decide as Hin; [done|]. split; [done|]. intros ty label ->.
      destruct (inv_reports _ _ _ Hs Hst n ty label cb Hok Hm) as (q & u & lev & d & upd & Hq & Hu & Hd & -> & _).
      cbn in Hq, Hu. assert (u = t) as -> by congruence. apply Hin. unfold counters_of.
      apply list_elem_of_bind. exists ty. split; [|by destruct ty; set_solver].
      apply list_elem_of_fmap. exists d. split; [done|]. by eapply list_elem_of_lookup_2.
    + eexists. split; [reflexivity|]. done.
  - exists (sm, c). split; [done|]. split; [done|]. symmetry. apply delete_id. by apply (view_None _ _ _ n Hs).
Qed.

Lemma touched_step (s : state) o n c f :
  target s o = Some (n, c, f) ->
  (let '(r, s') := run o s in touched s s' r n c f) ->
  (forall s0 v', op_spec s o s0 v' <-> touch n (source c s0) f (view s0) v') ->
  let '(r, s') := run o s in
  inv s' /\ exists s0, (s0 = s \/ s0 = gap s) /\
  match r with
  | Ret _ => op_spec s o s0 (view s')
  | Throw _ => view s' = view s0 \/ exists n c f, target s o = Some (n, c, f) /\
      touch n (source c s0) id (view s0) (view s')
  end.
Proof.
  intros Ht Hr Hsp. destruct (run o s) as [[u|e] s']; destruct Hr as (Hi & s0 & Hs0 & Hr);
    (split; [done|]); exists s0; (split; [done|]); [by apply Hsp|].
  destruct Hr as [Hr|Hr]; [by left|]. right. by exists n, c, f.
Qed.

(** An operation that takes no other step of the map in between. *)
Lemma quiet_step (s s' : state) o :
  run o s = (Ret tt, s') -> inv s' -> op_spec s o s (view s') ->
  let '(r, s') := run o s in
  inv s' /\ exists s0, (s0 = s \/ s0 = gap s) /\
  match r with
  | Ret _ => op_spec s o s0 (view s')
  | Throw _ => view s' = view s0 \/ exists n c f, target s o = Some (n, c, f) /\
      touch n (source c s0) id (view s0) (view s')
  end.
Proof. intros E Hi Hsp. rewrite E. split; [done|]. exists s. auto. Qed.

Lemma run_step o (s : state) :
  inv s -> op_ok o ->
  let '(r, s') := run o s in
  inv s' /\ exists s0, (s0 = s \/ s0 = gap s) /\
  match r with
  | Ret _ => op_spec s o s0 (view s')
  | Throw _ => view s' = view s0 \/ exists n c f, target s o = Some (n, c, f) /\
      touch n (source c s0) id (view s0) (view s')
  end.
Proof.
  intros Hs Hok. destruct o as [n now v k|n now v ty|n now v tys|n now v k|n|n tys|n|n tys c upd|n|n|n| | | |t|t|tys|p now v k].
  - eapply touched_step; [done| |done]. apply get_locked; [apply ts_addValue_levels|done|done].
  - eapply touched_step; [done| |done]. apply get_locked; [apply ts_addValue_levels|done|done].
  - eapply touched_step; [done| |done]. apply get_locked; [apply ts_addValue_levels|done|done].
  - eapply touched_step; [done| |done]. apply get_locked; [apply ts_addValueAggregated_levels|done|done].
  - eapply touched_step; [done| |done]. apply get_locked; [apply ts_clear_levels|done|done].
  - eapply touched_step; [done| |done]. apply get_then; [done..|]. intros s1 p t Hi [Hf1 Hf2]. exists s1.
    split; [done|]. split; [done|]. symmetry. apply insert_id. by rewrite view_lookup, Hf1.
  - eapply touched_step; [done| |done].
    pose proof (get_locked n (defaultTypes_ s.1) ts_flush s ts_flush_levels Hs Hok) as Hg.
    cbn [run]. unfold ignore, getLockedStatPtr, getStatPtr_default, se_bind, se_get, se_ret in *. cbn in *.
    destruct (getStatPtr callback gap n (defaultTypes_ s.1) s) as [[p|e] s1]; [|done].
    by destruct (locked ts_flush p s1) as [[u|e] s2].
  - eapply touched_step; [done| |done]. by apply export_effect; destruct Hok.
  - eapply touched_step; [done| |done]. apply export_effect; [done|done|]. apply (inv_default _ _ _ Hs).
  - destruct (unexport_all_effect n s Hs) as (s' & E & Hi & Hv). by eapply quiet_step.
  - destruct s as [sm c]. destruct (inv_erase sm c c n Hs (inv_counters _ _ _ Hs)) as [Hi Hv].
    { intros Hst. cbn in Hok. congruence. }
    by eapply quiet_step.
  - destruct s as [sm c]. eapply quiet_step; [reflexivity| |].
    + split; cbn; try apply Hs; try done. * by intros m [? ?]. * intros Hst. cbn in Hok. congruence.
    + apply map_eq. intros m. rewrite view_lookup. done.
  - destruct (each_view ts_flush s ts_flush_levels Hs) as (s' & E & Hi & Hv). by eapply quiet_step.
  - destruct (each_view ts_clear s ts_clear_levels Hs) as (s' & E & Hi & Hv). by eapply quiet_step.
  - eapply quiet_step; [reflexivity| |done]. split; cbn; try apply Hs. by intros u [= <-].
  - eapply quiet_step; [reflexivity| |done]. split; cbn; try apply Hs. exact Hok.
  - eapply quiet_step; [reflexivity| |done]. split; cbn; apply Hs.
  - destruct (stats s.1 !! p) as [t|] eqn:Ht.
    + destruct (inv_locked callback strict s (ts_addValue now v k) p t Hs Ht (ts_addValue_levels _ _ _ _))
        as (s' & E & Hi & _ & Em & Es & _).
      eapply quiet_step; [exact E|done|]. intros n. rewrite !view_lookup, Em.
      destruct (statMap_ s.1 !! n) as [q|] eqn:Hq; cbn.
      * rewrite Es. destruct (decide (q = p)) as [->|Hne].
        -- rewrite decide_True by done. by rewrite lookup_insert_eq, Ht.
        -- rewrite decide_False by congruence. by rewrite lookup_insert_ne.
      * by rewrite decide_False.
    + cbn. unfold ExportedStatMapImpl.addValue, ExportedStatMapImpl.stat_locked, locked, se_bind, deref. cbn.
      rewrite Ht. split; [done|]. exists s. auto.
Qed.

(** ** Sequences of operations *)
Definition run_all (os : list op) (s : state) : state := foldl (fun s o => (run o s).2) s os.

Lemma run_all_inv os s : inv s -> Forall op_ok os -> inv (run_all os s).
Proof.
  intros Hs Hok. revert s Hs. induction Hok as [|o os Ho Hos IH]; intros s Hs; [done|]. cbn. apply IH.
  pose proof (run_step o s Hs Ho) as Hst. destruct (run o s). apply Hst.
Qed.
End Theorems.

(** ** Properties *)
Section Properties.
Context {TS CM Cb : Type} `{FollyTimeseries TS} `{NamedCallbacks CM Cb}.
Context (callback : stat_value -> Cb).
Abbreviation state := (statmap TS * CM)%type.

(** C5: the stat map refines a finite map from names to time series.  Start
    from a new [ExportedStatMap] over an empty counters map and run any sequence
    of its operations, other threads doing whatever preserves the invariant
    between the two lock regions of a lookup.  Then one more operation, when it
    returns, did exactly the abstract operation to the map the lookup saw: one
    series updated (created from the blueprint if absent), erased, all of them
    flushed or cleared, and nothing else; when it throws, it created at most the
    stat it was to create.  The invariant holds throughout: pointers live and
    unshared, levels well formed, the counters map sound. *)
Theorem stat_map_refines_series (strict : bool) (gap : state -> state)
    (types : list ExportType) (t0 : TS) (c : CM) (os : list op) (o : op) :
  (forall s, StatMapCorrect.inv callback strict s -> StatMapCorrect.inv callback strict (gap s)) ->
  named t0 -> nc_wf c -> (forall m, nc_lookup c m = None) -> Forall (op_ok strict) (os ++ [o]) ->
  let s := run_all callback gap os (make types t0, c) in
  let '(r, s') := run callback gap o s in
  StatMapCorrect.inv callback strict s' /\
  exists s0, (s0 = s \/ s0 = gap s) /\
  match r with
  | Ret _ => op_spec s o s0 (view s')
  | Throw _ => view s' = view s0 \/ exists n cm f, target s o = Some (n, cm, f) /\
      touch n (source cm s0) id (view s0) (view s')
  end.
Proof.
  intros Hgap Ht Hc Hno [Hos Ho]%Forall_app s. apply Forall_cons in Ho as [Ho _].
  apply run_step; [done| |done]. apply run_all_inv; [done| |done]. by apply inv_make.
Qed.


(** A value added to a new stat is reported.  When [addValue] with a list of
    kinds returns on a name the map did not have, then for every kind and every
    level of the default stat the counter of that name exists, and reading it
    answers that kind of value of the default stat with the value added. *)
Theorem added_value_is_reported (types : list ExportType) (t0 : TS) (c : CM) (os : list op)
    (n : string) (now value : Z) (kinds : list ExportType) (t : TS) (s' : state) :
  named t0 -> nc_wf c -> (forall m, nc_lookup c m = None) -> Forall (op_ok true) os -> name_ok n ->
  let s := run_all callback id os (make types t0, c) in
  view s !! n = None -> defaultStat_ s.1 = Some t ->
  addValue_types callback id n now value kinds s = (Ret tt, s') ->
  forall ty lev d, ty ∈ kinds -> ts_durations t !! lev = Some d ->
  exists v, nc_lookup s'.2 (level_name milliseconds n (type_name ty) d) = Some (callback v) /\
    forall time_source k, read_counter time_source v (k, s') =
      let '(r, k') := getStatValue time_source (ts_addValue now value 1 t) ty lev (sv_updateOnRead v) k in
      (r, (k', s')).
Proof.
  intros Ht Hc Hno Hos Hn s Hnone Hdef Hrun ty lev d Hty Hd.
  assert (Hs : StatMapCorrect.inv callback true s) by (apply run_all_inv; [done|by apply inv_make|done]).
  unfold addValue_types, se_bind in Hrun.
  pose proof (getStatPtr_effect callback true id (fun s Hs => Hs) n kinds s Hs Hn) as Hget.
  destruct (getStatPtr callback id n kinds s) as [[p|e] s1]; [|done]. destruct Hget as (Hi & s0 & Hs0 & u & Hf & Htch & Hex).
  assert (s0 = s) as -> by (by destruct Hs0). destruct Htch as (u' & Hu' & Hv).
  destruct Hu' as [Hu'|[_ Hu']]; [congruence|]. cbn in Hu'. assert (u' = t) as -> by congruence.
  assert (Hvn : view s1 !! n = Some t) by (by rewrite Hv, lookup_insert_eq).
  rewrite view_lookup in Hvn. destruct Hf as [Hf1 Hf2]. rewrite Hf1 in Hvn. cbn in Hvn. assert (u = t) as -> by congruence.
  destruct (inv_locked callback true s1 (ts_addValue now value 1) p t Hi Hf2 (ts_addValue_levels _ _ _ _))
    as (s2 & E & Hi2 & Ec & Em & Es & _). rewrite E in Hrun. injection Hrun as <-.
  destruct (Hex Hnone ty Hty d) as [cb Hcb]; [by eapply list_elem_of_lookup_2|].
  rewrite <- Ec in Hcb.
  destruct (inv_reports _ _ _ Hi2 eq_refl n ty _ cb Hn Hcb) as (q & w & lev' & d' & upd & Hq & Hst & Hd' & Hl & ->).
  rewrite Em, Hf1 in Hq. injection Hq as <-. rewrite Es, lookup_insert_eq in Hst. injection Hst as <-.
  rewrite ts_addValue_levels in Hd'. pose proof (inv_named _ _ _ Hi p t Hf2) as [Hnd Hall].
  rewrite Forall_lookup in Hall.
  assert (d' = d) as -> by (apply (level_label_inj milliseconds d' d); [done|by eapply Hall|by eapply Hall|done]).
  assert (lev' = lev) as -> by (by eapply NoDup_lookup).
  exists (StatValue p ty lev upd). split; [by rewrite Hcb|]. intros time_source k. unfold read_counter. cbn.
  by rewrite Es, lookup_insert_eq.
Qed.
End Properties.

(** A default of one minute and all time, over a real callback map; another
    thread creates the same name in the gap. *)
Section Example_.
Import EventSeries PrefixCache.
#[local] Instance example_map : NamedCallbacks (CallbackValuesMap.CallbackValuesMap.cvm stat_value cache) stat_value :=
  callback_values_map ExporterNames.example_hash.
Abbreviation example_state := (statmap series * CallbackValuesMap.CallbackValuesMap.cvm stat_value cache)%type.
Definition example_default : series := ts_make 60 (in_ticks milliseconds [60; 0]).
Definition closure (v : stat_value) : stat_value := v.

Lemma example_default_named : named example_default.
Proof. split; [by apply (bool_decide_unpack _)|]. repeat (apply Forall_cons; split; [by vm_compute|]). by apply Forall_nil. Qed.

Lemma example_no_counters m : nc_lookup (CallbackValuesMap.CallbackValuesMap.make (M := cache)) m = None.
Proof. pose proof (CallbackRegistry.registry_make (Cb := stat_value) (M := cache) ExporterNames.example_hash m) as Hr. exact Hr. Qed.

Lemma example_name_ok : name_ok "rx".
Proof. by split. Qed.

(** The other thread. *)
Definition example_gap (s : example_state) : example_state := (run closure id (OAddValue "rx" 900 1 1) s).2.

Lemma example_gap_inv strict s :
  StatMapCorrect.inv closure strict s -> StatMapCorrect.inv closure strict (example_gap s).
Proof.
  intros Hs. pose proof (run_step closure strict id (fun s Hs => Hs) (OAddValue "rx" 900 1 1) s Hs example_name_ok) as Hr.
  unfold example_gap. destruct (run closure id _ s). apply Hr.
Qed.

Definition example_map_ops : list (op (TS := series)) := [OAddValue "rx" 1000 5 1; OForgetStatsFor "rx"].

Lemma stat_map_refines_series_witness :
  let s := run_all closure example_gap example_map_ops (make [SUM] example_default, CallbackValuesMap.CallbackValuesMap.make) in
  let '(r, s') := run closure example_gap (OAddValue "rx" 2000 7 1) s in
  StatMapCorrect.inv closure false s' /\
  exists s0, (s0 = s \/ s0 = example_gap s) /\
  match r with
  | Ret _ => op_spec s (OAddValue "rx" 2000 7 1) s0 (view s')
  | Throw _ => view s' = view s0 \/ exists n cm f, target s (OAddValue "rx" 2000 7 1) = Some (n, cm, f) /\
      touch n (source cm s0) id (view s0) (view s')
  end.
Proof.
  refine (stat_map_refines_series closure false example_gap [SUM] example_default
    CallbackValuesMap.CallbackValuesMap.make example_map_ops (OAddValue "rx" 2000 7 1) _ _ _ _ _).
  - apply example_gap_inv.
  - apply example_default_named.
  - apply CallbackRegistry.registry_wf_make.
  - apply example_no_counters.
  - repeat constructor; apply example_name_ok.
Defined.


Lemma added_value_is_reported_witness :
  let s := run_all closure id [] (make [SUM] example_default, CallbackValuesMap.CallbackValuesMap.make) in
  let s' := (addValue_types closure id "rx" 2000 7 [SUM; COUNT] s).2 in
  exists v, nc_lookup s'.2 (level_name milliseconds "rx" (type_name COUNT) 60000) = Some (closure v) /\
    forall time_source k, read_counter time_source v (k, s') =
      let '(r, k') := getStatValue time_source (ts_addValue 2000 7 1 example_default) COUNT 0 (sv_updateOnRead v) k in
      (r, (k', s')).
Proof.
  intros s s'. apply (added_value_is_reported closure [SUM] example_default
    CallbackValuesMap.CallbackValuesMap.make [] "rx" 2000 7 [SUM; COUNT] example_default s') with (ty := COUNT) (lev := 0%nat) (d := 60000).
  - apply example_default_named.
  - apply CallbackRegistry.registry_wf_make.
  - apply example_no_counters.
  - constructor.
  - apply example_name_ok.
  - reflexivity.
  - reflexivity.
  - vm_compute. reflexivity.
  - right. left.
  - reflexivity.
Defined.
End Example_.
