(* ===== verification/ThreadLocalStats.v ===== *)
(** * ThreadLocalStats: registration of thread-local stats with their container

    [src/fb303/ThreadLocalStats.h] and [ThreadLocalStats-inl.h]: [link],
    [unlink], [completePendingLink], [aggregate] and the destructor of the
    container, for one container, its [TLStatLink] and any number of threads.  A
    step of a thread is one atomic access that other threads can observe: taking
    or failing to take [mutex_], swapping or pushing on the pending list,
    writing [tlStatsEmpty_].  What a thread does to [tlStats_] under [mutex_]
    nobody else can see, so it goes with the write of the flag that follows. *)
From S2P Require Import Prelude.
From Stdlib Require Import ZArith Lia.
From stdpp Require Import base gmap sets list.

Module ThreadLocalStats.
Abbreviation tid := nat (only parsing).
Abbreviation stat := nat (only parsing).                  (** the address of a [TLStatT] *)

(** What a thread does once it holds [mutex_] and has drained the pending list. *)
Inductive body :=
  | BLink (s : stat)
  | BUnlink (s : stat)
  | BAggregate
  | BWithContainer
  | BDestroy.

(** Where a thread is. *)
Inductive pc :=
  | Idle
  | TryLock (s : stat)                    (** [link]: about to [try_lock] *)
  | Lock (b : body)                       (** about to [lock] *)
  | Swap (b : body)                       (** [completePendingLink]: about to swap *)
  | Insert (pending : list stat) (b : body)   (** its loop *)
  | Body (b : body)
  | Unlock
  | DeferPush (s : stat)                  (** [link] without the lock *)
  | DeferFlag (s : stat)                  (** the pending list is locked *)
  | DeferDone (s : stat)
  | CheckEmpty                            (** [aggregate]: about to read the flag *)
  | CheckFailed.                          (** a [CHECK] aborted *)

(** What a call did: [aggregate] returned early or aggregated these stats. *)
Inductive result := Skipped | Aggregated (stats : gset stat)
  | NoContainer.                          (** [withContainerChecked] threw *)

Record sys := Sys {
  container_ : bool;                      (** [link_->container_] is not null *)
  mutex_ : option tid;
  tlStats_ : gset stat;
  pendingLock : option tid;
  linkPending_ : list stat;
  tlStatsEmpty_ : bool;
  linked : gset stat;                     (** the stats whose [isLinked()] is true *)
  pcs : gmap tid pc;                      (** a thread without entry is idle *)
  results : list result
}.

Definition make : sys := Sys true None ∅ None [] true ∅ ∅ [].

Definition pc_of (t : tid) (s : sys) : pc := default Idle (pcs s !! t).

(** Setters. *)
Definition goto (t : tid) (p : pc) (s : sys) : sys :=
  Sys (container_ s) (mutex_ s) (tlStats_ s) (pendingLock s) (linkPending_ s) (tlStatsEmpty_ s)
    (linked s) (<[t := p]> (pcs s)) (results s).
Definition set_mutex (m : option tid) (s : sys) : sys :=
  Sys (container_ s) m (tlStats_ s) (pendingLock s) (linkPending_ s) (tlStatsEmpty_ s)
    (linked s) (pcs s) (results s).
Definition set_stats (l : gset stat) (s : sys) : sys :=
  Sys (container_ s) (mutex_ s) l (pendingLock s) (linkPending_ s) (tlStatsEmpty_ s)
    (linked s) (pcs s) (results s).
Definition set_pending (lock : option tid) (l : list stat) (s : sys) : sys :=
  Sys (container_ s) (mutex_ s) (tlStats_ s) lock l (tlStatsEmpty_ s) (linked s) (pcs s) (results s).
Definition set_empty (b : bool) (s : sys) : sys :=
  Sys (container_ s) (mutex_ s) (tlStats_ s) (pendingLock s) (linkPending_ s) b (linked s) (pcs s) (results s).
Definition set_linked (l : gset stat) (s : sys) : sys :=
  Sys (container_ s) (mutex_ s) (tlStats_ s) (pendingLock s) (linkPending_ s) (tlStatsEmpty_ s) l
    (pcs s) (results s).
Definition set_container (b : bool) (s : sys) : sys :=
  Sys b (mutex_ s) (tlStats_ s) (pendingLock s) (linkPending_ s) (tlStatsEmpty_ s) (linked s)
    (pcs s) (results s).
Definition log (r : result) (s : sys) : sys :=
  Sys (container_ s) (mutex_ s) (tlStats_ s) (pendingLock s) (linkPending_ s) (tlStatsEmpty_ s) (linked s)
    (pcs s) (results s ++ [r]).

(** [tlStats_.insert(stat)], the [CHECK] on it and the flag, shared by [link] and
    [completePendingLink]. *)
Definition insert_stat (t : tid) (x : stat) (next : pc) (s : sys) : sys :=
  if bool_decide (x ∈ tlStats_ s) then goto t CheckFailed s
  else
    let l := {[ x ]} ∪ tlStats_ s in
    goto t next (set_stats l (if Nat.eqb (size l) 1 then set_empty false s else s)).

(** What each caller of [lock] does under the lock: [link], ... *)
Definition link_locked (t : tid) (x : stat) (s : sys) : sys :=
  let s1 := if container_ s then insert_stat t x Unlock s else goto t Unlock s in
  match pc_of t s1 with
  | CheckFailed => s1
  | _ => set_linked ({[ x ]} ∪ linked s1) s1
  end.

(** ... [unlink], ... *)
Definition unlink_locked (t : tid) (x : stat) (s : sys) : sys :=
  if container_ s then
    if bool_decide (x ∈ tlStats_ s) then
      let l := tlStats_ s ∖ {[ x ]} in
      let s1 := set_stats l (if Nat.eqb (size l) 0 then set_empty true s else s) in
      goto t Unlock (set_linked (linked s1 ∖ {[ x ]}) s1)
    else goto t CheckFailed s
  else goto t Unlock (set_linked (linked s ∖ {[ x ]}) s).

(** ... [aggregate] (which stats it visits), [withContainerChecked] (whether it
    throws) and the destructor of the container. *)
Definition aggregate_locked (t : tid) (s : sys) : sys := goto t Unlock (log (Aggregated (tlStats_ s)) s).
Definition withContainerChecked (t : tid) (s : sys) : sys :=
  goto t Unlock (if container_ s then s else log NoContainer s).
Definition destroy_locked (t : tid) (s : sys) : sys :=
  goto t Unlock (set_empty true (set_stats ∅ (set_container false s))).

Definition run_body (t : tid) (b : body) (s : sys) : sys :=
  match b with
  | BLink x => link_locked t x s
  | BUnlink x => unlink_locked t x s
  | BAggregate => aggregate_locked t s
  | BWithContainer => withContainerChecked t s
  | BDestroy => destroy_locked t s
  end.

(** [lock]: waits for the mutex; [try_lock]: the caller goes on without it. *)
Definition lock (t : tid) (b : body) (s : sys) : option sys :=
  match mutex_ s with
  | None => Some (goto t (Swap b) (set_mutex (Some t) s))
  | Some _ => None
  end.
Definition try_lock (t : tid) (x : stat) (s : sys) : sys :=
  match mutex_ s with
  | None => goto t (Swap (BLink x)) (set_mutex (Some t) s)
  | Some _ => goto t (DeferPush x) s
  end.

(** The start of [completePendingLink], which the lock functions call when
    there is a container: [linkPending_.wlock()->swap(pending)]. *)
Definition swap_pending (t : tid) (b : body) (s : sys) : option sys :=
  if container_ s then
    match pendingLock s with
    | None => Some (goto t (Insert (linkPending_ s) b) (set_pending None [] s))
    | Some _ => None
    end
  else Some (goto t (Body b) s).

(** [link] without the mutex: the first push keeps the list locked until the
    flag is written. *)
Definition defer_push (t : tid) (x : stat) (s : sys) : option sys :=
  if container_ s then
    match pendingLock s with
    | None =>
        let l := linkPending_ s ++ [x] in
        if Nat.eqb (length l) 1 then Some (goto t (DeferFlag x) (set_pending (Some t) l s))
        else Some (goto t (DeferDone x) (set_pending None l s))
    | Some _ => None
    end
  else Some (goto t (DeferDone x) s).

(** The early return of [aggregate]. *)
Definition check_empty (t : tid) (s : sys) : sys :=
  if tlStatsEmpty_ s then goto t Idle (log Skipped s) else goto t (Lock BAggregate) s.

(** One step of thread [t]; [None] when it is idle, blocked or aborted. *)
Definition step (t : tid) (s : sys) : option sys :=
  match pc_of t s with
  | Idle | CheckFailed => None
  | TryLock x => Some (try_lock t x s)
  | Lock b => lock t b s
  | Swap b => swap_pending t b s
  | Insert [] b => Some (goto t (Body b) s)
  | Insert (x :: pending) b => Some (insert_stat t x (Insert pending b) s)
  | Body b => Some (run_body t b s)
  | Unlock => Some (goto t Idle (set_mutex None s))
  | DeferPush x => defer_push t x s
  | DeferFlag x => Some (goto t (DeferDone x) (set_pending None (linkPending_ s) (set_empty false s)))
  | DeferDone x => Some (goto t Idle (set_linked ({[ x ]} ∪ linked s) s))
  | CheckEmpty => Some (check_empty t s)
  end.

(** ** Calls *)
Inductive call := CLink (s : stat) | CUnlink (s : stat) | CAggregate | CWithContainer | CDestroy.

(** The entry of each function; a stat that is (not) linked returns at once. *)
Definition entry (c : call) (s : sys) : pc :=
  match c with
  | CLink x => if bool_decide (x ∈ linked s) then Idle else TryLock x
  | CUnlink x => if bool_decide (x ∈ linked s) then Lock (BUnlink x) else Idle
  | CAggregate => CheckEmpty
  | CWithContainer => Lock BWithContainer
  | CDestroy => Lock BDestroy
  end.

(** The stat a thread is linking or unlinking. *)
Definition body_stat (b : body) : option stat :=
  match b with BLink x | BUnlink x => Some x | _ => None end.
Definition pc_stat (p : pc) : option stat :=
  match p with
  | TryLock x | DeferPush x | DeferFlag x | DeferDone x => Some x
  | Lock b | Swap b | Insert _ b | Body b => body_stat b
  | _ => None
  end.
Definition call_stat (c : call) : option stat :=
  match c with CLink x | CUnlink x => Some x | _ => None end.

Definition pc_body (p : pc) : option body :=
  match p with Lock b | Swap b | Insert _ b | Body b => Some b | _ => None end.
Definition destroying (p : pc) : bool :=
  match pc_body p with Some BDestroy => true | _ => false end.

(** What may run beside the destructor: the calls of the elements that keep off
    the container until they hold [mutex_].  [link] is not among them, since
    without the lock it reads the container ([StatLinkTheorems] shows what comes
    of that), nor are the container's own [aggregate] and destructor. *)
Definition beside_destroy (p : pc) : bool :=
  match p with
  | Idle | Unlock => true
  | Lock b | Swap b | Insert _ b | Body b =>
      match b with BUnlink _ | BWithContainer => true | _ => false end
  | _ => false
  end.
Definition undisturbed (s : sys) : Prop := forall t, destroying (pc_of t s) = false.

(** What callers must respect: one thread at a time works on a stat; the
    container is destroyed once, possibly while elements on other threads are
    unlinked or ask for it, but not while it is aggregated or linked to; and it
    is not aggregated afterwards. *)
Definition allowed (t : tid) (c : call) (s : sys) : Prop :=
  pc_of t s = Idle /\
  (forall t' x, call_stat c = Some x -> pc_stat (pc_of t' s) <> Some x) /\
  match c with
  | CLink _ => undisturbed s
  | CUnlink _ | CWithContainer => True
  | CAggregate => container_ s = true /\ undisturbed s
  | CDestroy => container_ s = true /\ forall t', beside_destroy (pc_of t' s) = true
  end.

(** ** Runs *)
Inductive reachable : sys -> Prop :=
  | reach_init : reachable make
  | reach_call t c s : reachable s -> allowed t c s -> reachable (goto t (entry c s) s)
  | reach_step t s s' : reachable s -> step t s = Some s' -> reachable s'.

(** A schedule: calls that start and threads that move. *)
Inductive event := Call (t : tid) (c : call) | Move (t : tid).
Definition exec (e : event) (s : sys) : option sys :=
  match e with
  | Call t c => Some (goto t (entry c s) s)
  | Move t => step t s
  end.
Fixpoint exec_all (es : list event) (s : sys) : option sys :=
  match es with
  | [] => Some s
  | e :: es' => match exec e s with Some s' => exec_all es' s' | None => None end
  end.
Definition quiescent (s : sys) : Prop := forall t, pc_of t s = Idle.
End ThreadLocalStats.
