(* ===== verification/TLStatsRegistry.v ===== *)
(** * TLStatsRegistry: what the registration protocol guarantees

    The invariant of [ThreadLocalStats] over every reachable state: the mutex
    and the pending lock are held by whom the program counters say, a linked
    stat is registered exactly once or is on its way, and no [CHECK] fails. *)
From S2P Require Import Prelude ThreadLocalStats.
From Stdlib Require Import ZArith Lia.
From stdpp Require Import base gmap sets list.
Import ThreadLocalStats.

(** ** Program counters *)
Definition in_section (p : pc) : bool :=
  match p with Swap _ | Insert _ _ | Body _ | Unlock => true | _ => false end.
Definition todo (p : pc) : list nat := match p with Insert l _ => l | _ => [] end.
Definition holds_pending (p : pc) : bool := match p with DeferFlag _ => true | _ => false end.
(** The stat whose deferred [link] is past the pending list. *)
Definition deferred (p : pc) : option nat :=
  match p with DeferFlag x | DeferDone x => Some x | _ => None end.
(** The stat a thread is linking, before [setLinked(true)]. *)
Definition linking (p : pc) : option nat :=
  match p with
  | TryLock x | DeferPush x | DeferFlag x | DeferDone x
  | Lock (BLink x) | Swap (BLink x) | Insert _ (BLink x) | Body (BLink x) => Some x
  | _ => None
  end.
Definition unlinking (p : pc) : option nat :=
  match p with
  | Lock (BUnlink x) | Swap (BUnlink x) | Insert _ (BUnlink x) | Body (BUnlink x) => Some x
  | _ => None
  end.

(** A stat on the pending list or in the vector it was swapped into. *)
Definition waiting (s : sys) (x : nat) : Prop :=
  x ∈ linkPending_ s \/ exists t, x ∈ todo (pc_of t s).

(** ** The moves of a thread, one by one *)
Definition add_stat (x : nat) (s : sys) : sys :=
  set_stats ({[ x ]} ∪ tlStats_ s)
    (set_empty (if Nat.eqb (size ({[ x ]} ∪ tlStats_ s)) 1 then false else tlStatsEmpty_ s) s).
Definition remove_stat (x : nat) (s : sys) : sys :=
  set_stats (tlStats_ s ∖ {[ x ]})
    (set_empty (if Nat.eqb (size (tlStats_ s ∖ {[ x ]})) 0 then true else tlStatsEmpty_ s) s).
Definition mark (x : nat) (s : sys) : sys := set_linked ({[ x ]} ∪ linked s) s.
Definition unmark (x : nat) (s : sys) : sys := set_linked (linked s ∖ {[ x ]}) s.

Inductive move (t : nat) (s : sys) : sys -> Prop :=
  | m_try x : pc_of t s = TryLock x -> mutex_ s = None ->
      move t s (goto t (Swap (BLink x)) (set_mutex (Some t) s))
  | m_fail x : pc_of t s = TryLock x -> move t s (goto t (DeferPush x) s)
  | m_lock b : pc_of t s = Lock b -> mutex_ s = None -> move t s (goto t (Swap b) (set_mutex (Some t) s))
  | m_swap b : pc_of t s = Swap b -> container_ s = true -> pendingLock s = None ->
      move t s (goto t (Insert (linkPending_ s) b) (set_pending None [] s))
  | m_swap_dead b : pc_of t s = Swap b -> container_ s = false -> move t s (goto t (Body b) s)
  | m_drained b : pc_of t s = Insert [] b -> move t s (goto t (Body b) s)
  | m_insert x l b : pc_of t s = Insert (x :: l) b -> x ∉ tlStats_ s ->
      move t s (goto t (Insert l b) (add_stat x s))
  | m_insert_twice x l b : pc_of t s = Insert (x :: l) b -> x ∈ tlStats_ s ->
      move t s (goto t CheckFailed s)
  | m_link x : pc_of t s = Body (BLink x) -> container_ s = true -> x ∉ tlStats_ s ->
      move t s (mark x (goto t Unlock (add_stat x s)))
  | m_link_twice x : pc_of t s = Body (BLink x) -> container_ s = true -> x ∈ tlStats_ s ->
      move t s (goto t CheckFailed s)
  | m_link_dead x : pc_of t s = Body (BLink x) -> container_ s = false ->
      move t s (mark x (goto t Unlock s))
  | m_unlink x : pc_of t s = Body (BUnlink x) -> container_ s = true -> x ∈ tlStats_ s ->
      move t s (goto t Unlock (unmark x (remove_stat x s)))
  | m_unlink_absent x : pc_of t s = Body (BUnlink x) -> container_ s = true -> x ∉ tlStats_ s ->
      move t s (goto t CheckFailed s)
  | m_unlink_dead x : pc_of t s = Body (BUnlink x) -> container_ s = false ->
      move t s (goto t Unlock (unmark x s))
  | m_aggregate : pc_of t s = Body BAggregate -> move t s (goto t Unlock (log (Aggregated (tlStats_ s)) s))
  | m_with : pc_of t s = Body BWithContainer ->
      move t s (goto t Unlock (if container_ s then s else log NoContainer s))
  | m_destroy : pc_of t s = Body BDestroy ->
      move t s (goto t Unlock (set_empty true (set_stats ∅ (set_container false s))))
  | m_unlock : pc_of t s = Unlock -> move t s (goto t Idle (set_mutex None s))
  | m_push_first x : pc_of t s = DeferPush x -> container_ s = true -> pendingLock s = None ->
      move t s (goto t (DeferFlag x) (set_pending (Some t) (linkPending_ s ++ [x]) s))
  | m_push x : pc_of t s = DeferPush x -> container_ s = true -> pendingLock s = None ->
      linkPending_ s <> [] ->
      move t s (goto t (DeferDone x) (set_pending None (linkPending_ s ++ [x]) s))
  | m_push_dead x : pc_of t s = DeferPush x -> container_ s = false -> move t s (goto t (DeferDone x) s)
  | m_flag x : pc_of t s = DeferFlag x ->
      move t s (goto t (DeferDone x) (set_pending None (linkPending_ s) (set_empty false s)))
  | m_done x : pc_of t s = DeferDone x -> move t s (mark x (goto t Idle s))
  | m_skip : pc_of t s = CheckEmpty -> tlStatsEmpty_ s = true -> move t s (goto t Idle (log Skipped s))
  | m_check : pc_of t s = CheckEmpty -> tlStatsEmpty_ s = false -> move t s (goto t (Lock BAggregate) s).

Lemma pc_of_goto t p s t' : pc_of t' (goto t p s) = if decide (t' = t) then p else pc_of t' s.
Proof.
  unfold pc_of, goto. simpl. case_decide as E; [subst; by rewrite lookup_insert_eq|].
  by rewrite lookup_insert_ne by done.
Qed.

Lemma pc_of_self t p s : pc_of t (goto t p s) = p.
Proof. by rewrite pc_of_goto, decide_True. Qed.
Lemma pc_of_mark t x s : pc_of t (mark x s) = pc_of t s.
Proof. done. Qed.

Lemma insert_stat_eq t x p s :
  insert_stat t x p s = if bool_decide (x ∈ tlStats_ s) then goto t CheckFailed s else goto t p (add_stat x s).
Proof. unfold insert_stat, add_stat. case_bool_decide; [done|]. destruct s. by destruct (Nat.eqb _ _). Qed.

Lemma step_move t s s' : step t s = Some s' -> move t s s'.
Proof.
  unfold step, try_lock, lock, swap_pending, defer_push, check_empty. intros Hst. destruct (pc_of t s) as [|x|b|b|[|x l] b|b| |x|x|x| |] eqn:Hpc; try done.
  - destruct (mutex_ s) eqn:Hm; simplify_eq; by constructor.
  - destruct (mutex_ s) eqn:Hm; simplify_eq; by constructor.
  - destruct (container_ s) eqn:Hc; [destruct (pendingLock s) eqn:Hp|]; simplify_eq; by constructor.
  - simplify_eq. by constructor.
  - simplify_eq. rewrite insert_stat_eq. case_bool_decide; [by econstructor|by apply m_insert].
  - simplify_eq. destruct b as [x|x| | |]; simpl; unfold link_locked, unlink_locked.
    + destruct (container_ s) eqn:Hc.
      * rewrite insert_stat_eq. case_bool_decide; rewrite pc_of_goto, decide_True by done; [by econstructor|by apply m_link].
      * rewrite pc_of_goto, decide_True by done. by apply m_link_dead.
    + destruct (container_ s) eqn:Hc; [case_bool_decide|]; [|by econstructor|by apply m_unlink_dead].
      replace (goto _ _ _) with (goto t Unlock (unmark x (remove_stat x s))); [by apply m_unlink|].
      unfold unmark, remove_stat. destruct s. by destruct (Nat.eqb _ _).
    + by constructor.
    + by constructor.
    + by constructor.
  - simplify_eq. by constructor.
  - destruct (container_ s) eqn:Hc; [destruct (pendingLock s) eqn:Hp; [done|]|simplify_eq; by constructor].
    destruct (Nat.eqb_spec (length (linkPending_ s ++ [x])) 1) as [Hl|Hl]; simplify_eq; [by constructor|].
    apply m_push; try done. intros E. rewrite E in Hl. done.
  - simplify_eq. by constructor.
  - simplify_eq. by constructor.
  - destruct (tlStatsEmpty_ s) eqn:He; simplify_eq; by constructor.
Qed.

(** ** The locks *)
Record locks (s : sys) : Prop := {
  l_mutex : forall t, in_section (pc_of t s) = true <-> mutex_ s = Some t;
  l_pending : forall t, holds_pending (pc_of t s) = true <-> pendingLock s = Some t
}.

(** [by_thread]: normalise the program counters after a move and split on the
    thread that moved. *)
Ltac by_thread :=
  simpl in *; rewrite ?pc_of_goto in *; simpl in *; repeat case_decide; subst; simpl in *.

(** Case analysis on the move of [t]: its program counter in every case. *)
Ltac move_cases Hmv :=
  destruct Hmv as [x E ?|x E|b E ?|b E ? ?|b E ?|b E|x l b E ?|x l b E ?|x E ? ?|x E ? ?|x E ?|x E ? ?
    |x E ? ?|x E ?|E|E|E|E|x E ? ?|x E ? ? ?|x E ?|x E|x E|E ?|E ?].

Lemma move_others t s s' t' : move t s s' -> t' <> t -> pc_of t' s' = pc_of t' s.
Proof.
  intros Hmv Hne. destruct Hmv; unfold mark, unmark, add_stat, remove_stat, pc_of; simpl;
    rewrite lookup_insert_ne by done; repeat case_match; done.
Qed.

(** The program counter after the move. *)
Ltac pc_afters := unfold mark, unmark, add_stat, remove_stat, pc_of in *; simpl; rewrite ?lookup_insert_eq; simpl.

(** A lock is taken, released or left alone by the thread that moves. *)
Lemma lock_handled (P : pc -> bool) (owner owner' : option nat) t s s' :
  (forall t, P (pc_of t s) = true <-> owner = Some t) ->
  (forall t', t' <> t -> pc_of t' s' = pc_of t' s) ->
  (P (pc_of t s') = P (pc_of t s) /\ owner' = owner) \/
  (P (pc_of t s') = true /\ owner = None /\ owner' = Some t) \/
  (P (pc_of t s) = true /\ P (pc_of t s') = false /\ owner' = None) ->
  forall t', P (pc_of t' s') = true <-> owner' = Some t'.
Proof.
  intros Hinv Hoth Hcase t'. pose proof (Hinv t') as Ht'. pose proof (Hinv t) as Ht.
  destruct (decide (t' = t)) as [->|Hne]; [|rewrite Hoth by done];
    destruct Hcase as [[E ->]|[(E & -> & ->)|(E & E' & ->)]].
  - by rewrite E.
  - by rewrite E.
  - by rewrite E'.
  - done.
  - rewrite Ht'. split; [done|]. intros [= <-]. done.
  - apply Ht in E. rewrite Ht', E. split; [|done]. intros [= <-]. done.
Qed.

Lemma move_mutex t s s' :
  move t s s' -> pc_of t s' <> CheckFailed ->
  (in_section (pc_of t s') = in_section (pc_of t s) /\ mutex_ s' = mutex_ s) \/
  (in_section (pc_of t s') = true /\ mutex_ s = None /\ mutex_ s' = Some t) \/
  (in_section (pc_of t s) = true /\ in_section (pc_of t s') = false /\ mutex_ s' = None).
Proof.
  intros Hmv. move_cases Hmv; rewrite E; pc_afters; intros Hok; try done; repeat case_match; auto.
Qed.

Lemma move_pending_lock t s s' :
  move t s s' ->
  (holds_pending (pc_of t s') = holds_pending (pc_of t s) /\ pendingLock s' = pendingLock s) \/
  (holds_pending (pc_of t s') = true /\ pendingLock s = None /\ pendingLock s' = Some t) \/
  (holds_pending (pc_of t s) = true /\ holds_pending (pc_of t s') = false /\ pendingLock s' = None).
Proof.
  intros Hmv. move_cases Hmv; rewrite E; pc_afters; repeat case_match; auto.
Qed.

Lemma locks_move t s s' : locks s -> move t s s' -> pc_of t s' <> CheckFailed -> locks s'.
Proof.
  intros [Hm Hp] Hmv Hok. split.
  - apply (lock_handled in_section (mutex_ s) (mutex_ s') t s); [done|by intros; apply (move_others t)|].
    by apply move_mutex.
  - apply (lock_handled holds_pending (pendingLock s) (pendingLock s') t s); [done|by intros; apply (move_others t)|].
    by apply move_pending_lock.
Qed.

(** ** One thread per stat *)
Record discipline (s : sys) : Prop := {
  d_busy : forall t t' x, pc_stat (pc_of t s) = Some x -> pc_stat (pc_of t' s) = Some x -> t = t';
  d_linking : forall t x, linking (pc_of t s) = Some x -> x ∉ linked s;
  d_unlinking : forall t x, unlinking (pc_of t s) = Some x -> x ∈ linked s;
  d_destroy : forall t t', destroying (pc_of t s) = true -> t' <> t -> beside_destroy (pc_of t' s) = true
}.

Lemma linking_stat p x : linking p = Some x -> pc_stat p = Some x.
Proof. destruct p as [|?|[]|[]|? []|[]| |?|?|?| |]; simpl; congruence. Qed.
Lemma unlinking_stat p x : unlinking p = Some x -> pc_stat p = Some x.
Proof. destruct p as [|?|[]|[]|? []|[]| |?|?|?| |]; simpl; congruence. Qed.

(** What a move may do to its stat and to the flag of the stat. *)
Lemma move_stat t s s' y :
  move t s s' ->
  (pc_stat (pc_of t s') = Some y -> pc_stat (pc_of t s) = Some y) /\
  (linking (pc_of t s') = Some y -> linking (pc_of t s) = Some y) /\
  (unlinking (pc_of t s') = Some y -> unlinking (pc_of t s) = Some y) /\
  (destroying (pc_of t s') = true -> destroying (pc_of t s) = true) /\
  (beside_destroy (pc_of t s) = true -> pc_of t s' <> CheckFailed -> beside_destroy (pc_of t s') = true).
Proof.
  intros Hmv. move_cases Hmv; rewrite E; pc_afters; repeat case_match; repeat split; (congruence || done).
Qed.

Lemma move_linked t s s' :
  move t s s' ->
  linked s' = linked s \/
  (exists x, linking (pc_of t s) = Some x /\ pc_stat (pc_of t s') = None /\ linked s' = {[ x ]} ∪ linked s) \/
  (exists x, unlinking (pc_of t s) = Some x /\ pc_stat (pc_of t s') = None /\ linked s' = linked s ∖ {[ x ]}).
Proof.
  intros Hmv. move_cases Hmv; rewrite E; pc_afters; repeat case_match; eauto 8.
Qed.

Lemma discipline_move t s s' : discipline s -> move t s s' -> pc_of t s' <> CheckFailed -> discipline s'.
Proof.
  intros [Hb Hl Hu Hd] Hmv Hok. pose proof (fun x => move_stat t s s' x Hmv) as Hst.
  assert (Hold : forall t' x, pc_stat (pc_of t' s') = Some x -> pc_stat (pc_of t' s) = Some x).
  { intros t' x. destruct (decide (t' = t)) as [->|Hne]; [apply Hst|by rewrite (move_others t s s' t' Hmv Hne)]. }
  split.
  - intros t1 t2 x H1 H2. apply (Hb t1 t2 x); by apply Hold.
  - intros t' x Hx. assert (Hx' : linking (pc_of t' s) = Some x).
    { destruct (decide (t' = t)) as [->|Hne]; [by apply Hst|by rewrite <- (move_others t s s' t' Hmv Hne)]. }
    pose proof (Hl t' x Hx') as Hnot. destruct (move_linked t s s' Hmv) as [->|[(y & Hy & Hn & ->)|(y & _ & _ & ->)]];
      [done| |set_solver].
    intros [->%elem_of_singleton|?]%elem_of_union; [|done]. apply linking_stat in Hx, Hy, Hx'.
    assert (t' = t) as -> by (by apply (Hb t' t y)). congruence.
  - intros t' x Hx. assert (Hx' : unlinking (pc_of t' s) = Some x).
    { destruct (decide (t' = t)) as [->|Hne]; [by apply Hst|by rewrite <- (move_others t s s' t' Hmv Hne)]. }
    pose proof (Hu t' x Hx') as Hin. destruct (move_linked t s s' Hmv) as [->|[(y & _ & _ & ->)|(y & Hy & Hn & ->)]];
      [done|set_solver|].
    apply elem_of_difference. split; [done|]. intros ->%elem_of_singleton. apply unlinking_stat in Hx, Hy, Hx'.
    assert (t' = t) as -> by (by apply (Hb t' t y)). congruence.
  - intros t1 t2 H1 H2. destruct (decide (t1 = t)) as [->|Hne].
    + rewrite (move_others t s s' t2 Hmv H2). apply (Hd t); [by apply (Hst 0%nat)|done].
    + rewrite (move_others t s s' t1 Hmv Hne) in H1. specialize (Hd t1 t2 H1 H2). destruct (decide (t2 = t)) as [->|Hne2].
      * by apply (Hst 0%nat).
      * by rewrite (move_others t s s' t2 Hmv Hne2).
Qed.

(** ** Every linked stat is registered exactly once *)

(** A stat that is linked, or whose deferred [link] will mark it so. *)
Definition active (s : sys) (x : nat) : Prop :=
  x ∈ linked s \/ exists t, deferred (pc_of t s) = Some x.
(** The stat being unlinked by a thread that has drained the pending list. *)
Definition drained (p : pc) : option nat :=
  match p with Insert _ (BUnlink x) | Body (BUnlink x) => Some x | _ => None end.

(** The destructor has drained it. *)
Definition settled (p : pc) : bool :=
  match p with Insert _ BDestroy | Body BDestroy => true | _ => false end.

Record registration (s : sys) : Prop := {
  r_crash : forall t, pc_of t s <> CheckFailed;
  r_nodup : forall t, NoDup (linkPending_ s ++ todo (pc_of t s));
  r_apart : forall x, waiting s x -> x ∉ tlStats_ s;
  r_reg : container_ s = true -> forall x, x ∈ tlStats_ s \/ waiting s x <-> active s x;
  r_defer : forall t x, pc_of t s = DeferFlag x -> x ∈ linkPending_ s;
  r_drained : forall t x, drained (pc_of t s) = Some x -> x ∉ linkPending_ s;
  r_settled : forall t, settled (pc_of t s) = true -> linkPending_ s = [];
  r_dead : container_ s = false -> tlStats_ s = ∅ /\ linkPending_ s = [] /\ forall t, todo (pc_of t s) = []
}.

Section Moves.
Context (t : nat) (s s' : sys).
Hypothesis Hothers : forall t', t' <> t -> pc_of t' s' = pc_of t' s.

Definition others (P : pc -> Prop) : Prop := exists t', t' <> t /\ P (pc_of t' s).

Lemma ex_split (P : pc -> Prop) : (exists t', P (pc_of t' s)) <-> P (pc_of t s) \/ others P.
Proof.
  split; [|intros [?|(? & ? & ?)]; eauto]. intros [t' Ht'].
  destruct (decide (t' = t)) as [->|]; [by left|right; by exists t'].
Qed.
Lemma ex_split' (P : pc -> Prop) : (exists t', P (pc_of t' s')) <-> P (pc_of t s') \/ others P.
Proof.
  split.
  - intros [t' Ht']. destruct (decide (t' = t)) as [->|Hne]; [by left|right]. exists t'. by rewrite <- Hothers.
  - intros [?|(t' & Hne & ?)]; [eauto|]. exists t'. by rewrite Hothers.
Qed.

Lemma waiting_split x : waiting s x <->
  x ∈ linkPending_ s \/ x ∈ todo (pc_of t s) \/ others (fun p => x ∈ todo p).
Proof. unfold waiting. by rewrite (ex_split (fun p => x ∈ todo p)). Qed.
Lemma waiting_split' x : waiting s' x <->
  x ∈ linkPending_ s' \/ x ∈ todo (pc_of t s') \/ others (fun p => x ∈ todo p).
Proof. unfold waiting. by rewrite (ex_split' (fun p => x ∈ todo p)). Qed.
Lemma active_split x : active s x <->
  x ∈ linked s \/ deferred (pc_of t s) = Some x \/ others (fun p => deferred p = Some x).
Proof. unfold active. by rewrite (ex_split (fun p => deferred p = Some x)). Qed.
Lemma active_split' x : active s' x <->
  x ∈ linked s' \/ deferred (pc_of t s') = Some x \/ others (fun p => deferred p = Some x).
Proof. unfold active. by rewrite (ex_split' (fun p => deferred p = Some x)). Qed.

(** The holder of the mutex is the only one with a vector. *)
Lemma others_todo : locks s -> in_section (pc_of t s) = true -> forall t', t' <> t -> todo (pc_of t' s) = [].
Proof.
  intros [Hm _] Ht t' Hne. destruct (todo (pc_of t' s)) as [|y l] eqn:E; [done|].
  assert (Ht' : in_section (pc_of t' s) = true) by (by destruct (pc_of t' s)).
  apply Hm in Ht, Ht'. congruence.
Qed.

Hypothesis Hreg : registration s.

(** Moves that leave the registry as it is. *)
Lemma registration_same :
  tlStats_ s' = tlStats_ s -> linkPending_ s' = linkPending_ s -> container_ s' = container_ s ->
  (container_ s = true -> forall x, x ∈ linked s' \/ deferred (pc_of t s') = Some x <->
     x ∈ linked s \/ deferred (pc_of t s) = Some x) ->
  todo (pc_of t s') = todo (pc_of t s) -> pc_of t s' <> CheckFailed ->
  (forall x, pc_of t s' <> DeferFlag x) ->
  (forall x, drained (pc_of t s') = Some x -> x ∉ linkPending_ s) ->
  (settled (pc_of t s') = true -> linkPending_ s = []) -> registration s'.
Proof using Hothers Hreg.
  intros Et Ep Ec El Etd Hok Hdf Hdr Hst.
  assert (Hw : forall x, waiting s' x <-> waiting s x) by (intros x; by rewrite waiting_split, waiting_split', Ep, Etd).
  assert (Hat : forall (P : nat -> pc -> Prop), P t (pc_of t s') -> (forall t', P t' (pc_of t' s)) ->
    forall t', P t' (pc_of t' s')).
  { intros P Ht Ho t'. destruct (decide (t' = t)) as [->|Hne]; [done|]. by rewrite Hothers. }
  destruct Hreg. split.
  - apply (Hat (fun _ p => p <> CheckFailed)); done.
  - rewrite Ep. apply (Hat (fun _ p => NoDup (linkPending_ s ++ todo p))); [by rewrite Etd|done].
  - intros x Hx. rewrite Et. apply r_apart0. by apply Hw.
  - rewrite Ec. intros Hc x. specialize (El Hc x).
    rewrite Et, Hw, r_reg0 by done. rewrite active_split, active_split'. tauto.
  - rewrite Ep. apply (Hat (fun _ p => forall x, p = DeferFlag x -> x ∈ linkPending_ s)); [|done].
    intros x E. by destruct (Hdf x).
  - rewrite Ep. apply (Hat (fun _ p => forall x, drained p = Some x -> x ∉ linkPending_ s)); done.
  - rewrite Ep. apply (Hat (fun _ p => settled p = true -> linkPending_ s = [])); done.
  - rewrite Ec, Et, Ep. intros Hc. destruct (r_dead0 Hc) as (? & ? & Htd). split; [done|]. split; [done|].
    apply (Hat (fun _ p => todo p = [])); [by rewrite Etd|done].
Qed.

(** Moves of the holder of the mutex: nobody else has a vector of stats. *)
Lemma registration_holder :
  locks s -> in_section (pc_of t s) = true ->
  container_ s = true -> container_ s' = true ->
  NoDup (linkPending_ s' ++ todo (pc_of t s')) ->
  (forall x, x ∈ linkPending_ s' -> x ∈ linkPending_ s) ->
  (forall t' x, t' <> t -> pc_of t' s = DeferFlag x -> x ∈ linkPending_ s') ->
  (forall x, x ∈ linkPending_ s' \/ x ∈ todo (pc_of t s') -> x ∉ tlStats_ s') ->
  (forall x, x ∈ tlStats_ s' \/ x ∈ linkPending_ s' \/ x ∈ todo (pc_of t s') <->
     x ∈ linked s' \/ others (fun p => deferred p = Some x)) ->
  pc_of t s' <> CheckFailed -> deferred (pc_of t s') = None ->
  (forall x, drained (pc_of t s') = Some x -> x ∉ linkPending_ s') ->
  (settled (pc_of t s') = true -> linkPending_ s' = []) -> registration s'.
Proof using Hothers Hreg.
  intros Hl Hin Hc Hc' Hnd Hsub Hdf Hap Hrg Hok Hdef Hdr Hst. pose proof (others_todo Hl Hin) as Hno.
  assert (Ho : forall x, ~ others (fun p => x ∈ todo p)) by (intros x (t' & Hne & Hx); rewrite Hno in Hx by done; set_solver).
  destruct Hreg. split.
  - intros t'. destruct (decide (t' = t)) as [->|Hne]; [done|]. by rewrite Hothers.
  - intros t'. destruct (decide (t' = t)) as [->|Hne]; [done|]. rewrite Hothers, Hno by done.
    rewrite app_nil_r. apply NoDup_app in Hnd. apply Hnd.
  - intros x [Hx|[Hx|Hx]]%waiting_split'; [apply Hap; auto..|by destruct (Ho x)].
  - intros _ x. rewrite waiting_split', active_split', Hdef. pose proof (Hrg x) as Hx. pose proof (Ho x).
    split; [|intros [?|[?|?]]]; [intros [?|[?|[?|?]]]| |done|]; tauto.
  - intros t' x. destruct (decide (t' = t)) as [->|Hne].
    + intros E. by rewrite E in Hdef.
    + rewrite Hothers by done. by apply Hdf.
  - intros t' x. destruct (decide (t' = t)) as [->|Hne]; [apply Hdr|]. rewrite Hothers by done. intros Hx Hx'.
    by apply (r_drained0 t' x Hx), Hsub.
  - intros t'. destruct (decide (t' = t)) as [->|Hne]; [done|]. rewrite Hothers by done. intros Hx.
    specialize (r_settled0 t' Hx). destruct (linkPending_ s') as [|y l]; [done|].
    specialize (Hsub y). rewrite r_settled0 in Hsub. set_solver.
  - congruence.
Qed.

(** A deferred [link] puts its stat on the pending list. *)
Lemma registration_push x :
  container_ s = true -> container_ s' = true -> tlStats_ s' = tlStats_ s -> linked s' = linked s ->
  linkPending_ s' = linkPending_ s ++ [x] -> pc_of t s = DeferPush x ->
  pc_of t s' = DeferFlag x \/ pc_of t s' = DeferDone x -> discipline s -> registration s'.
Proof using Hothers Hreg.
  intros Hc Hc' Et El Ep Hp Hq Hd.
  assert (Hna : ~ active s x).
  { intros [Hx|[t' Hx]]; [by apply (d_linking s Hd t x); [by rewrite Hp|]|].
    assert (t' = t) as -> by (apply (d_busy s Hd t' t x); [by destruct (pc_of t' s)|by rewrite Hp]).
    by rewrite Hp in Hx. }
  destruct Hreg. assert (Hnw : ~ (x ∈ tlStats_ s \/ waiting s x)) by (by rewrite r_reg0).
  assert (Htd : todo (pc_of t s') = [] /\ drained (pc_of t s') = None /\ deferred (pc_of t s') = Some x)
    by (by destruct Hq as [-> | ->]).
  destruct Htd as (Htd & Hdr & Hdf). split.
  - intros t'. destruct (decide (t' = t)) as [->|Hne]; [by destruct Hq as [-> | ->]|]. by rewrite Hothers.
  - intros t'. assert (Hnd : NoDup (linkPending_ s ++ todo (pc_of t' s'))).
    { destruct (decide (t' = t)) as [->|Hne]; [|by rewrite Hothers]. specialize (r_nodup0 t). by rewrite Htd, Hp in *. }
    rewrite Ep, <- app_assoc. rewrite (Permutation_app_comm [x]), app_assoc.
    apply NoDup_app. split; [done|]. split; [|apply NoDup_singleton].
    intros y Hy ->%list_elem_of_singleton. apply Hnw. right. apply elem_of_app in Hy as [Hy|Hy]; [by left|].
    destruct (decide (t' = t)) as [->|Hne]; [rewrite Htd in Hy; set_solver|]. right. exists t'. by rewrite <- Hothers.
  - intros y Hy. rewrite Et. apply waiting_split' in Hy. rewrite Htd, Ep, elem_of_app in Hy.
    destruct Hy as [[Hy|Hy]|[Hy|Hy]].
    + apply r_apart0. by left.
    + apply list_elem_of_singleton in Hy as ->. tauto.
    + set_solver.
    + apply r_apart0, waiting_split. auto.
  - intros _ y. specialize (r_reg0 Hc y). rewrite waiting_split, active_split in r_reg0.
    rewrite waiting_split', active_split', Et, El, Ep, Htd, Hdf, elem_of_app, list_elem_of_singleton.
    rewrite Hp in r_reg0. simpl in r_reg0.
    assert (Exy : Some x = Some y <-> y = x) by (split; congruence).
    assert (En : @None nat = Some y <-> False) by done. rewrite Exy. clear - r_reg0 En. tauto.
  - intros t' y. rewrite Ep. destruct (decide (t' = t)) as [->|Hne]; [|rewrite Hothers by done; intros Hy; set_solver].
    intros E. rewrite E in Hdf. simplify_eq/=. set_solver.
  - intros t' y. destruct (decide (t' = t)) as [->|Hne]; [by rewrite Hdr|]. rewrite Hothers by done. intros Hy.
    rewrite Ep, not_elem_of_app, list_elem_of_singleton. split; [by apply (r_drained0 t')|]. intros ->.
    destruct Hne. apply (d_busy s Hd t' t x); [|by rewrite Hp].
    by destruct (pc_of t' s) as [|?|?|?|? []|[]| |?|?|?| |].
  - intros t'. destruct (decide (t' = t)) as [->|Hne]; [by destruct Hq as [-> | ->]|]. rewrite Hothers by done. intros Hx.
    assert (Hdst : destroying (pc_of t' s) = true) by (by destruct (pc_of t' s) as [|?|?|?|? []|[]| |?|?|?| |]).
    pose proof (d_destroy s Hd t' t Hdst (not_eq_sym Hne)) as Hbes. by rewrite Hp in Hbes.
  - congruence.
Qed.
End Moves.

(** The mutex holder's stats in plain words. *)
Lemma holder_reg t s x :
  locks s -> registration s -> in_section (pc_of t s) = true -> container_ s = true ->
  x ∈ tlStats_ s \/ x ∈ linkPending_ s \/ x ∈ todo (pc_of t s) <->
  x ∈ linked s \/ deferred (pc_of t s) = Some x \/ others t s (fun p => deferred p = Some x).
Proof.
  intros Hl Hr Hin Hc. pose proof (r_reg s Hr Hc x) as Hx. rewrite (active_split t), (waiting_split t) in Hx.
  assert (Ho : ~ others t s (fun p => x ∈ todo p)).
  { intros (t' & Hne & Ht'). rewrite (others_todo t s Hl Hin t' Hne) in Ht'. set_solver. }
  tauto.
Qed.

Lemma registration_move t s s' :
  locks s -> discipline s -> registration s -> move t s s' -> registration s'.
Proof.
  intros Hl Hd Hr Hmv. pose proof (fun t' => move_others t s s' t' Hmv) as Hoth.
  assert (Hkeep : forall x, drained (pc_of t s) = Some x -> x ∉ linkPending_ s) by apply (r_drained s Hr).
  assert (Hset : settled (pc_of t s) = true -> linkPending_ s = []) by apply (r_settled s Hr).
  assert (Hlk : forall x, linking (pc_of t s) = Some x -> x ∉ linked s) by (intros; by apply (d_linking s Hd t)).
  assert (Hul : forall x, unlinking (pc_of t s) = Some x -> x ∈ linked s) by (intros; by apply (d_unlinking s Hd t)).
  assert (Hdes : destroying (pc_of t s) = true -> forall t', t' <> t -> beside_destroy (pc_of t' s) = true)
    by (intros; by apply (d_destroy s Hd t)).
  assert (Hreg : in_section (pc_of t s) = true -> container_ s = true -> forall x,
    x ∈ tlStats_ s \/ x ∈ linkPending_ s \/ x ∈ todo (pc_of t s) <->
    x ∈ linked s \/ deferred (pc_of t s) = Some x \/ others t s (fun p => deferred p = Some x))
    by (intros; by apply holder_reg).
  assert (Hw : forall x, x ∈ todo (pc_of t s) -> waiting s x) by (intros x Hx; right; by exists t).
  assert (Hnd : NoDup (linkPending_ s ++ todo (pc_of t s))) by apply (r_nodup s Hr).
  assert (Hself : forall x, pc_stat (pc_of t s) = Some x -> ~ others t s (fun p => deferred p = Some x)).
  { intros x Hx (t' & Hne & Ht'). destruct Hne. apply (d_busy s Hd t' t x); [|done].
    by destruct (pc_of t' s). }
  assert (Hdefer : forall t' x, t' <> t -> pc_of t' s = DeferFlag x -> x ∈ linkPending_ s)
    by (intros; by apply (r_defer s Hr t')).
  pose proof (r_apart s Hr) as Hap.
  move_cases Hmv; rewrite E in *; simpl in *.
  (** the registry stays *)
  1-3,5,6,11,14-16,18,21-25: apply (registration_same t s);
    rewrite ?pc_of_mark, ?pc_of_self, ?E; simpl; try done; try congruence; try (by case_match).
  { intros x _. rewrite (proj1 (proj2 (r_dead s Hr ltac:(done)))). set_solver. }
  { intros _. apply (r_dead s Hr). done. }
  { intros _ y. rewrite elem_of_union, elem_of_singleton. assert (Some x = Some y <-> y = x) by (split; congruence).
    assert (None = Some y <-> False) by done. tauto. }
  all: try match goal with Hc : container_ _ = true |- _ => specialize (Hreg eq_refl Hc) end.
  - (** swap *)
    apply (registration_holder t s); rewrite ?pc_of_self, ?E; simpl; try done.
    + by rewrite app_nil_r in Hnd.
    + set_solver.
    + intros t' x Hne Ht'. assert (Hp : pendingLock s = Some t') by (apply (l_pending s Hl); by rewrite Ht'). congruence.
    + intros x [Hx|Hx]; [set_solver|]. apply Hap. by left.
    + intros x. specialize (Hreg x). rewrite elem_of_nil in *. assert (None = Some x <-> False) by done.
      clear - Hreg H1. tauto.
    + set_solver.
  - (** insert *)
    assert (Hc : container_ s = true).
    { destruct (container_ s) eqn:Hc; [done|]. destruct (r_dead s Hr Hc) as (_ & _ & Htd). specialize (Htd t). by rewrite E in Htd. }
    specialize (Hreg eq_refl Hc). rewrite <- Permutation_middle in Hnd. apply NoDup_cons in Hnd as [Hx Hnd].
    apply (registration_holder t s); rewrite ?pc_of_self, ?E; simpl; try done.
    + intros y Hy. rewrite not_elem_of_union, not_elem_of_singleton. split.
      * intros ->. apply Hx. by apply elem_of_app.
      * apply Hap. destruct Hy as [Hy|Hy]; [by left|]. apply Hw. by right.
    + intros y. specialize (Hreg y). rewrite elem_of_cons in Hreg. rewrite elem_of_union, elem_of_singleton.
      assert (En : None = Some y <-> False) by done. clear - Hreg En. tauto.
  - (** a stat inserted twice *)
    destruct (Hap x); [apply Hw; left|done].
  - (** link *)
    assert (Hna : ~ (x ∈ linked s \/ None = Some x \/ others t s (fun p => deferred p = Some x)))
      by (intros [Hx|[Hx|Hx]]; [by apply (Hlk x)|done|by apply (Hself x)]).
    rewrite <- Hreg in Hna. apply (registration_holder t s); rewrite ?pc_of_mark, ?pc_of_self, ?E; simpl; try done.
    + intros y [Hy|Hy]; [|set_solver]. rewrite not_elem_of_union, not_elem_of_singleton. split; [|apply Hap; by left].
      intros ->. tauto.
    + intros y. specialize (Hreg y). rewrite !elem_of_union, elem_of_singleton.
      assert (En : None = Some y <-> False) by done. clear - Hreg En. tauto.
  - (** a stat linked twice *)
    destruct (proj1 (Hreg x) ltac:(by left)) as [Hx|[Hx|Hx]]; [by destruct (Hlk x)|done|by destruct (Hself x)].
  - (** unlink *)
    apply (registration_holder t s); rewrite ?pc_of_mark, ?pc_of_self, ?E; simpl; try done.
    + intros y [Hy|Hy]; [|set_solver]. intros [Hy' _]%elem_of_difference. apply (Hap y); [by left|done].
    + intros y. specialize (Hreg y). rewrite !elem_of_difference, elem_of_singleton.
      assert (En : None = Some y <-> False) by done.
      destruct (decide (y = x)) as [->|Hne]; [|clear - Hreg En Hne; tauto].
      specialize (Hkeep x eq_refl). specialize (Hself x eq_refl). rewrite elem_of_nil in *.
      clear - Hkeep Hself. tauto.
  - (** a linked stat that is not registered *)
    destruct (proj2 (Hreg x) ltac:(left; by apply Hul)) as [Hx|[Hx|Hx]]; [done|by destruct (Hkeep x)|set_solver].
  - (** destroy *)
    specialize (Hset eq_refl). specialize (Hdes eq_refl).
    assert (Htd : forall t', todo (pc_of t' (goto t Unlock (set_empty true (set_stats ∅ (set_container false s))))) = []).
    { intros t'. rewrite pc_of_goto. case_decide; [done|]. apply (others_todo t s); [done|by rewrite E|done]. }
    split; simpl; rewrite ?Hset; try done.
    + intros t'. rewrite pc_of_goto. case_decide; [done|]. apply (r_crash s Hr).
    + intros t'. rewrite Htd. constructor.
    + intros t' y. rewrite pc_of_goto. case_decide as Ht; [done|]. intros Hy. specialize (Hdes t' Ht).
      change (pc_of t' s = DeferFlag y) in Hy. by rewrite Hy in Hdes.
    + intros t' y _. apply not_elem_of_nil.
  - apply (registration_push t s) with x; rewrite ?pc_of_self; auto.
  - apply (registration_push t s) with x; rewrite ?pc_of_self; auto.
Qed.

(** ** The flag that lets [aggregate] return early *)
Record flag_ok (s : sys) : Prop := {
  f_registered : tlStats_ s <> ∅ -> tlStatsEmpty_ s = false;
  f_nothing : container_ s = true -> tlStats_ s = ∅ -> (forall x, ~ waiting s x) -> tlStatsEmpty_ s = true
}.

Lemma flag_same t s s' :
  flag_ok s -> move t s s' -> tlStats_ s' = tlStats_ s -> tlStatsEmpty_ s' = tlStatsEmpty_ s ->
  container_ s' = container_ s -> (forall x, x ∈ linkPending_ s -> waiting s' x) ->
  (forall x, x ∈ todo (pc_of t s) -> waiting s' x) -> flag_ok s'.
Proof.
  intros [Hf Hn] Hmv Et Ef Ec Hp Htd. split; rewrite Et, Ef; [done|]. rewrite Ec. intros Hc He Hw. apply Hn; [done..|].
  intros x [Hx|[t' Hx]]; apply (Hw x); [by apply Hp|]. destruct (decide (t' = t)) as [->|Hne]; [by apply Htd|].
  right. exists t'. by rewrite (move_others t s s' t' Hmv Hne).
Qed.

Lemma flag_add x s : flag_ok s -> x ∉ tlStats_ s ->
  tlStatsEmpty_ (add_stat x s) = false /\ tlStats_ (add_stat x s) <> ∅.
Proof.
  intros [Hf _] Hx. unfold add_stat. simpl. split; [|set_solver].
  destruct (Nat.eqb_spec (size ({[x]} ∪ tlStats_ s)) 1) as [|Hsz]; [done|]. apply Hf. intros E. apply Hsz.
  rewrite E, union_empty_r_L. apply size_singleton.
Qed.

Lemma flag_remove x s : flag_ok s -> x ∈ tlStats_ s ->
  tlStatsEmpty_ (remove_stat x s) = bool_decide (tlStats_ (remove_stat x s) = ∅).
Proof.
  intros [Hf _] Hx. unfold remove_stat. simpl. destruct (Nat.eqb_spec (size (tlStats_ s ∖ {[x]})) 0) as [Hsz|Hsz].
  - apply size_empty_inv in Hsz. by rewrite bool_decide_eq_true_2 by set_solver.
  - rewrite bool_decide_eq_false_2; [apply Hf; set_solver|]. intros E. apply Hsz. by rewrite E, size_empty.
Qed.

Lemma flag_move t s s' : registration s -> flag_ok s -> move t s s' -> flag_ok s'.
Proof.
  intros Hr Hf Hmv. pose proof (flag_same t s s' Hf Hmv) as Hsame.
  assert (Hpend : forall s1 x, x ∈ linkPending_ s1 -> waiting s1 x) by (intros; by left).
  assert (Hnil : forall (P : Prop) (x : nat), x ∈ @nil nat -> P) by (intros P x Hx; by apply elem_of_nil in Hx).
  move_cases Hmv; rewrite E in Hsame; simpl in Hsame.
  1-3,5,6,10,11,13-15,18,21,23-25:
    apply Hsame; [done..|intros y Hy; by apply Hpend|intros y Hy; by apply (Hnil _ y)].
  - apply Hsame; [done..| |intros y Hy; by apply (Hnil _ y)]. intros y Hy. right. exists t. by rewrite pc_of_self.
  - destruct (flag_add x s Hf) as [E1 E2]; [done|]. split; [by intros _|]. intros _ He. by destruct E2.
  - destruct (r_apart s Hr x); [|done]. right. exists t. rewrite E. left.
  - destruct (flag_add x s Hf) as [E1 E2]; [done|]. split; [by intros _|]. intros _ He. by destruct E2.
  - pose proof (flag_remove x s Hf) as E1. unfold unmark, remove_stat in *. simpl in *. split; simpl; rewrite E1 by done.
    + intros Hne. by apply bool_decide_eq_false_2.
    + intros _ He _. by apply bool_decide_eq_true_2.
  - apply Hsame; try (by case_match); [|intros y Hy; by apply (Hnil _ y)].
    intros y Hy. left. by case_match.
  - by split.
  - apply Hsame; [done..| |intros y Hy; by apply (Hnil _ y)].
    intros y Hy. left. simpl. apply elem_of_app. by left.
  - apply Hsame; [done..| |intros y Hy; by apply (Hnil _ y)].
    intros y Hy. left. simpl. apply elem_of_app. by left.
  - split; [done|]. intros _ _ Hw. destruct (Hw x). left. by apply (r_defer s Hr t).
Qed.

(** ** The invariant of reachable states *)
Record inv (s : sys) : Prop := {
  i_locks : locks s;
  i_discipline : discipline s;
  i_registration : registration s;
  i_flag : flag_ok s
}.

Lemma pc_make t : pc_of t make = Idle.
Proof. done. Qed.

Lemma reachable_make : inv make.
Proof.
  assert (Hw : forall x, ~ waiting make x) by (intros x [Hx|[t Hx]]; by apply elem_of_nil in Hx).
  split; [by split..| |by split]. split; try done.
  - intros t. constructor.
  - intros _ x. split.
    + intros [Hx|Hx]; [by apply not_elem_of_empty in Hx|by destruct (Hw x)].
    + intros [Hx|[t Hx]]; [by apply not_elem_of_empty in Hx|done].
Qed.

Lemma inv_move t s s' : inv s -> move t s s' -> inv s'.
Proof.
  intros [Hl Hd Hr Hf] Hmv. pose proof (registration_move t s s' Hl Hd Hr Hmv) as Hr'. split.
  - apply (locks_move t s); [done..|]. apply (r_crash s' Hr').
  - apply (discipline_move t s); [done..|]. apply (r_crash s' Hr').
  - done.
  - by apply (flag_move t s).
Qed.

(** What the entry of a function leaves out. *)
Lemma entry_facts c s :
  in_section (entry c s) = false /\ holds_pending (entry c s) = false /\ todo (entry c s) = [] /\
  deferred (entry c s) = None /\ drained (entry c s) = None /\ settled (entry c s) = false /\
  entry c s <> CheckFailed.
Proof. destruct c; simpl; try case_bool_decide; done. Qed.
Lemma entry_stat c s x : pc_stat (entry c s) = Some x -> call_stat c = Some x.
Proof. destruct c; simpl; try case_bool_decide; done. Qed.
Lemma entry_linking c s x : linking (entry c s) = Some x -> x ∉ linked s.
Proof. destruct c; simpl; try case_bool_decide; simpl; congruence. Qed.
Lemma entry_unlinking c s x : unlinking (entry c s) = Some x -> x ∈ linked s.
Proof. destruct c; simpl; try case_bool_decide; simpl; congruence. Qed.
Lemma entry_destroying c s : destroying (entry c s) = true -> c = CDestroy.
Proof. destruct c; simpl; try case_bool_decide; done. Qed.

Lemma entry_beside t c s t' : allowed t c s -> destroying (pc_of t' s) = true -> beside_destroy (entry c s) = true.
Proof.
  intros (_ & _ & Hc) Ht'. destruct c; simpl in *; try done; try (by case_bool_decide).
  - by rewrite Hc in Ht'.
  - destruct Hc as [_ Hc]. by rewrite Hc in Ht'.
  - destruct Hc as [_ Hc]. specialize (Hc t'). by destruct (pc_of t' s) as [|?|[]|[]|? []|[]| |?|?|?| |].
Qed.

Lemma inv_call t c s : inv s -> allowed t c s -> inv (goto t (entry c s) s).
Proof.
  intros [Hl Hd Hr Hf] Hal. pose proof Hal as (Hidle & Hstat & Hc).
  destruct (entry_facts c s) as (E1 & E2 & E3 & E4 & E5 & E6 & E7).
  set (s' := goto t (entry c s) s).
  assert (Hself : pc_of t s' = entry c s) by apply pc_of_self.
  assert (Hoth : forall t', t' <> t -> pc_of t' s' = pc_of t' s) by (intros; unfold s'; rewrite pc_of_goto; by case_decide).
  assert (Hat : forall (P : pc -> Prop) t', P (pc_of t' s') -> t' = t /\ P (entry c s) \/ t' <> t /\ P (pc_of t' s)).
  { intros P t' HP. destruct (decide (t' = t)) as [->|Hne]; [left; by rewrite <- Hself|right]. by rewrite <- Hoth. }
  split.
  - split; intros t'.
    + change (mutex_ s') with (mutex_ s). rewrite <- (l_mutex s Hl t'). destruct (decide (t' = t)) as [->|Hne]; [|by rewrite Hoth].
      by rewrite Hself, E1, Hidle.
    + change (pendingLock s') with (pendingLock s). rewrite <- (l_pending s Hl t'). destruct (decide (t' = t)) as [->|Hne]; [|by rewrite Hoth].
      by rewrite Hself, E2, Hidle.
  - split.
    + intros t1 t2 x H1%(Hat (fun p => pc_stat p = Some x)) H2%(Hat (fun p => pc_stat p = Some x)).
      destruct H1 as [[-> H1%entry_stat]|[N1 H1]], H2 as [[-> H2%entry_stat]|[N2 H2]]; [done|..].
      * by destruct (Hstat t2 x H1).
      * by destruct (Hstat t1 x H2).
      * by apply (d_busy s Hd t1 t2 x).
    + intros t' x [[-> Hx]|[Hne Hx]]%(Hat (fun p => linking p = Some x)).
      * by apply entry_linking in Hx.
      * by apply (d_linking s Hd t').
    + intros t' x [[-> Hx]|[Hne Hx]]%(Hat (fun p => unlinking p = Some x)).
      * by apply entry_unlinking in Hx.
      * by apply (d_unlinking s Hd t').
    + intros t' t2 [[-> ->%entry_destroying]|[Hne Hx]]%(Hat (fun p => destroying p = true)) N2.
      * rewrite Hoth by done. apply Hc.
      * destruct (decide (t2 = t)) as [->|Hne2]; [|rewrite Hoth by done; by apply (d_destroy s Hd t')].
        rewrite Hself. by apply (entry_beside t c s t').
  - apply (registration_same t s); rewrite ?Hself, ?Hidle, ?E3, ?E4, ?E5, ?E6; try done.
    intros x Hx. by rewrite Hx in E2.
  - destruct Hf as [Hf1 Hf2]. split; [done|]. intros Hc' He Hw. apply Hf2; [done..|]. intros x [Hx|[t' Hx]]; apply (Hw x).
    + by left.
    + destruct (decide (t' = t)) as [->|Hne]; [rewrite Hidle in Hx; by apply elem_of_nil in Hx|].
      right. exists t'. by rewrite Hoth.
Qed.

Lemma reachable_inv s : reachable s -> inv s.
Proof.
  intros Hr. induction Hr as [|t c s _ IH Hok|t s s' _ IH Hst].
  - apply reachable_make.
  - by apply inv_call.
  - apply (inv_move t s); [done|]. by apply step_move.
Qed.
