(* ===== verification/TLStatsTheorems.v ===== *)
(** * TLStatsTheorems: the registration protocol of thread-local stats

    Over every run of [ThreadLocalStats]: no [CHECK] fails and the registry holds
    exactly the linked stats, the early return of [aggregate] is sound for
    registered stats, no run deadlocks, an aggregation that starts visits every
    linked stat; and the one schedule after which [aggregate] skips a stat. *)
From S2P Require Import Prelude ThreadLocalStats TLStatsRegistry.
From Stdlib Require Import ZArith Lia.
From stdpp Require Import base gmap sets list.
Import ThreadLocalStats.

Lemma section_unique s t t' :
  inv s -> in_section (pc_of t s) = true -> in_section (pc_of t' s) = true -> t = t'.
Proof. intros Hi H1%(l_mutex s (i_locks s Hi)) H2%(l_mutex s (i_locks s Hi)). congruence. Qed.

Lemma quiescent_waiting s x : quiescent s -> waiting s x <-> x ∈ linkPending_ s.
Proof.
  intros Hq. split; [|by left]. intros [Hx|[t Hx]]; [done|]. rewrite (Hq t) in Hx. by apply elem_of_nil in Hx.
Qed.

Lemma quiescent_registry s x :
  inv s -> quiescent s -> container_ s = true -> x ∈ linked s <-> x ∈ tlStats_ s \/ x ∈ linkPending_ s.
Proof.
  intros Hi Hq Hc. rewrite <- quiescent_waiting, (r_reg s (i_registration s Hi) Hc x) by done.
  split; [by left|]. intros [Hx|[t Hx]]; [done|]. by rewrite (Hq t) in Hx.
Qed.

(** A concrete run: thread 0 links stat 1; thread 1 starts to unlink it, thread
    0's [link] of stat 2 meanwhile finds [mutex_] taken. *)
Definition link_1 : list event := Call 0 (CLink 1) :: repeat (Move 0) 5.
Definition race : list event :=
  link_1 ++ Call 1 (CUnlink 1) :: repeat (Move 1) 3 ++ Call 0 (CLink 2) :: repeat (Move 0) 4 ++ repeat (Move 1) 2.

(** [race], then one more stat is linked. *)
Definition two_links : list event := race ++ Call 0 (CLink 3) :: repeat (Move 0) 6.

(** The destructor races with its elements: thread 0 has linked stat 1; thread 1
    is about to unlink it and thread 3 to ask for the container when thread 2
    destroys it; thread 4 asks while the destructor is in its section. *)
Definition destroy_race : list event :=
  link_1 ++ [Call 1 (CUnlink 1); Call 3 CWithContainer; Call 2 CDestroy; Move 2; Move 2; Call 4 CWithContainer] ++
  repeat (Move 2) 3 ++ repeat (Move 1) 4 ++ repeat (Move 3) 4 ++ repeat (Move 4) 4.

(** Runs that respect the callers' discipline are reachable; the discipline is
    checked on the program counters that are not idle. *)
Definition all_pcs (P : pc -> bool) (s : sys) : bool := forallb (fun kp => P kp.2) (map_to_list (pcs s)).
Definition idle (p : pc) : bool := match p with Idle => true | _ => false end.
Definition allowedb (t : nat) (c : call) (s : sys) : bool :=
  idle (pc_of t s) &&
  all_pcs (fun p => match call_stat c with Some x => bool_decide (pc_stat p <> Some x) | None => true end) s &&
  match c with
  | CLink _ => all_pcs (fun p => negb (destroying p)) s
  | CUnlink _ | CWithContainer => true
  | CAggregate => container_ s && all_pcs (fun p => negb (destroying p)) s
  | CDestroy => container_ s && all_pcs beside_destroy s
  end.
Fixpoint respects (es : list event) (s : sys) : bool :=
  match es with
  | [] => true
  | e :: es' =>
      match e with Call t c => allowedb t c s | Move _ => true end &&
      match exec e s with Some s' => respects es' s' | None => true end
  end.

Lemma all_pcs_sound P s t : all_pcs P s = true -> P Idle = true -> P (pc_of t s) = true.
Proof.
  unfold all_pcs, pc_of. rewrite forallb_forall. intros Ha Hi. destruct (pcs s !! t) as [p|] eqn:E; [|done].
  apply (Ha (t, p)). by apply list_elem_of_In, elem_of_map_to_list.
Qed.

Lemma allowedb_sound t c s : allowedb t c s = true -> allowed t c s.
Proof.
  unfold allowedb. rewrite !andb_true_iff. intros [[H1 H2] H3].
  assert (Hn : all_pcs (fun p => negb (destroying p)) s = true -> undisturbed s).
  { intros Hp t'. apply (all_pcs_sound _ s t') in Hp; [|done]. by apply negb_true_iff. }
  split; [|split].
  - by destruct (pc_of t s).
  - intros t' x E. apply (all_pcs_sound _ s t') in H2; [|by case_match].
    rewrite E in H2. by apply bool_decide_eq_true in H2.
  - destruct c; try done; [by apply Hn|apply andb_true_iff in H3 as [H3 H4]; split; [done|]..]; [by apply Hn|].
    intros t'. by apply (all_pcs_sound _ s t') in H4.
Qed.

Lemma exec_reachable es s s' : reachable s -> respects es s = true -> exec_all es s = Some s' -> reachable s'.
Proof.
  revert s. induction es as [|e es IH]; simpl; intros s Hr Hres E; [by simplify_eq|].
  apply andb_true_iff in Hres as [Hok Hres].
  destruct (exec e s) as [s1|] eqn:E1; [|done]. apply (IH s1); [|done..].
  destruct e as [t c|t]; simpl in E1; simplify_eq.
  - apply reach_call; [done|]. by apply allowedb_sound.
  - by apply (reach_step t s).
Qed.

Lemma quiescentb s : all_pcs idle s = true -> quiescent s.
Proof. intros H t. apply (all_pcs_sound _ s t) in H; [|done]. by destruct (pc_of t s). Qed.

(** The states of the concrete runs. *)
Definition state_of (es : list event) : sys := default make (exec_all es make).
Lemma run_reachable es : respects es make = true -> is_Some (exec_all es make) -> reachable (state_of es).
Proof.
  intros Hr [s E]. unfold state_of. rewrite E. by apply (exec_reachable es make); [apply reach_init|..].
Qed.

(** ** The registry is the linked stats *)

(** C15: in every state reachable by interleaving [link], [unlink], [aggregate],
    [withContainerChecked] and the destructor of the container, one call at a
    time on a stat, the destructor once, beside any [unlink] and
    [withContainerChecked] of other threads but beside no [link] or [aggregate]
    ([allowed]): no [CHECK] of [link], [unlink] or [completePendingLink] fails
    and [mutex_] is held by at most one thread.  While the container is there, a
    stat is in [tlStats_], on the pending list or in a vector being drained just
    when its [isLinked()] is true or a deferred [link] of it is about to make it
    so; if moreover nobody is inside a call, the stats whose [isLinked()] is true
    are those in [tlStats_] and those on the pending list, each of them once.
    Once the container is gone, both are empty. *)
Theorem registration_never_fails s :
  reachable s ->
  (forall t, pc_of t s <> CheckFailed) /\
  (forall t t', in_section (pc_of t s) = true -> in_section (pc_of t' s) = true -> t = t') /\
  (container_ s = true -> forall x, x ∈ tlStats_ s \/ waiting s x <-> active s x) /\
  (quiescent s -> container_ s = true ->
     linked s = tlStats_ s ∪ list_to_set (linkPending_ s) /\
     tlStats_ s ## list_to_set (linkPending_ s) /\ NoDup (linkPending_ s)) /\
  (container_ s = false -> tlStats_ s = ∅ /\ linkPending_ s = []).
Proof.
  intros Hi%reachable_inv. split; [apply (i_registration s Hi)|]. split.
  { intros t t'. by apply section_unique. }
  split; [apply (i_registration s Hi)|]. split; [|intros Hc; by destruct (r_dead s (i_registration s Hi) Hc) as (? & ? & _)].
  intros Hq Hc. split.
  - apply set_eq. intros x. rewrite elem_of_union, elem_of_list_to_set. by apply quiescent_registry.
  - split; [|pose proof (r_nodup s (i_registration s Hi) 0) as Hn; by rewrite (Hq 0), app_nil_r in Hn].
    intros x Hx Hx'. rewrite elem_of_list_to_set in Hx'. by apply (r_apart s (i_registration s Hi) x); [left|].
Qed.

Lemma registration_never_fails_witness :
  reachable (state_of race) /\ linkPending_ (state_of race) = [2] /\
  (linked (state_of race) = tlStats_ (state_of race) ∪ list_to_set (linkPending_ (state_of race))) /\
  reachable (state_of destroy_race) /\ results (state_of destroy_race) = [NoContainer; NoContainer] /\
  linked (state_of destroy_race) = ∅ /\ forall t, pc_of t (state_of destroy_race) <> CheckFailed.
Proof.
  assert (Hr : reachable (state_of race)) by (apply run_reachable; [vm_compute; reflexivity|vm_compute; eauto]).
  split; [exact Hr|]. split; [vm_compute; reflexivity|].
  assert (Hd : reachable (state_of destroy_race)) by (apply run_reachable; [vm_compute; reflexivity|vm_compute; eauto]).
  split; [|split; [exact Hd|split; [vm_compute; reflexivity|split; [vm_compute; reflexivity|]]]].
  - refine (proj1 (proj1 (proj2 (proj2 (proj2 (registration_never_fails (state_of race) Hr)))) _ _)).
    + apply quiescentb. vm_compute. reflexivity.
    + vm_compute. reflexivity.
  - exact (proj1 (registration_never_fails (state_of destroy_race) Hd)).
Defined.

(** ** The flag that lets [aggregate] return early *)

(** The early return of [aggregate] never skips a stat in [tlStats_], and
    the flag is set whenever no stat is registered or waiting. *)
Theorem empty_flag_sound s :
  reachable s ->
  (tlStatsEmpty_ s = true -> tlStats_ s = ∅) /\
  (container_ s = true -> tlStats_ s = ∅ -> (forall x, ~ waiting s x) -> tlStatsEmpty_ s = true).
Proof.
  intros Hi%reachable_inv. destruct (i_flag s Hi) as [Hf Hn]. split; [|done]. intros E.
  destruct (decide (tlStats_ s = ∅)) as [|Hne]; [done|]. rewrite Hf in E; done.
Qed.

Lemma empty_flag_sound_witness :
  reachable (state_of race) /\ tlStatsEmpty_ (state_of race) = true /\ tlStats_ (state_of race) = ∅.
Proof.
  assert (Hr : reachable (state_of race)) by (apply run_reachable; [vm_compute; reflexivity|vm_compute; eauto]).
  split; [exact Hr|]. split; [vm_compute; reflexivity|].
  refine (proj1 (empty_flag_sound (state_of race) Hr) _). vm_compute. reflexivity.
Defined.

(** C36: a stat on the pending list is not covered by the flag.  When the
    [unlink] of the last registered stat empties [tlStats_] after a concurrent
    [link] has deferred its stat, the flag stays set: nobody is inside the
    container, a linked stat is pending, and [aggregate] returns early. *)
Theorem aggregate_skips_pending_stat :
  exists s s', reachable s /\ quiescent s /\ container_ s = true /\ linked s = {[ 2 ]} /\
    tlStatsEmpty_ s = true /\
    exec_all [Call 0 CAggregate; Move 0] s = Some s' /\ results s' = [Skipped] /\ linkPending_ s' = [2].
Proof.
  exists (state_of race), (state_of (race ++ [Call 0 CAggregate; Move 0])).
  split; [apply run_reachable; [vm_compute; reflexivity|vm_compute; eauto]|].
  split; [apply quiescentb; vm_compute; reflexivity|]. vm_compute. done.
Qed.

(** ** Aggregation *)
Lemma exec_app es1 es2 s s' : exec_all es1 s = Some s' -> exec_all (es1 ++ es2) s = exec_all es2 s'.
Proof.
  revert s. induction es1 as [|e es IH]; simpl; intros s E; [by simplify_eq|]. destruct (exec e s); [by apply IH|done].
Qed.

(** The registry after the loop of [completePendingLink]. *)
Definition drain_stats (l : list nat) (s : sys) : sys := fold_left (fun s x => add_stat x s) l s.
Lemma drain_stats_set l s : tlStats_ (drain_stats l s) = tlStats_ s ∪ list_to_set l.
Proof. revert s. induction l as [|x l IH]; simpl; intros s; [set_solver|]. rewrite IH. unfold add_stat. simpl. set_solver. Qed.
Lemma drain_stats_rest l s :
  container_ (drain_stats l s) = container_ s /\ mutex_ (drain_stats l s) = mutex_ s /\
  linkPending_ (drain_stats l s) = linkPending_ s /\ linked (drain_stats l s) = linked s /\
  pcs (drain_stats l s) = pcs s /\ results (drain_stats l s) = results s.
Proof. revert s. induction l as [|x l IH]; simpl; intros s; [done|]. apply (IH (add_stat x s)). Qed.

Lemma goto_goto t p q s : goto t p (goto t q s) = goto t p s.
Proof. unfold goto. simpl. by rewrite insert_insert_eq. Qed.
Lemma add_stat_goto x t p s : add_stat x (goto t p s) = goto t p (add_stat x s).
Proof. done. Qed.

Lemma step_insert t x l b s :
  x ∉ tlStats_ s -> step t (goto t (Insert (x :: l) b) s) = Some (goto t (Insert l b) (add_stat x s)).
Proof.
  intros Hx. unfold step. rewrite pc_of_self, insert_stat_eq. simpl. rewrite bool_decide_eq_false_2 by done.
  by rewrite add_stat_goto, goto_goto.
Qed.

Lemma run_drain t l b s :
  NoDup l -> (forall x, x ∈ l -> x ∉ tlStats_ s) ->
  exec_all (repeat (Move t) (length l)) (goto t (Insert l b) s) = Some (goto t (Insert [] b) (drain_stats l s)).
Proof.
  revert s. induction l as [|x l IH]; intros s Hnd Hap; [done|]. apply NoDup_cons in Hnd as [Hx Hnd].
  cbn [length repeat exec_all exec]. rewrite step_insert by (apply Hap; left).
  apply IH; [done|]. intros y Hy. unfold add_stat. simpl. apply not_elem_of_union. split; [|apply Hap; by right].
  intros ->%elem_of_singleton. done.
Qed.

Lemma quiescent_unlocked s : inv s -> quiescent s -> mutex_ s = None /\ pendingLock s = None.
Proof.
  intros Hi Hq. split.
  - destruct (mutex_ s) as [t|] eqn:E; [|done]. apply (l_mutex s (i_locks s Hi)) in E. by rewrite (Hq t) in E.
  - destruct (pendingLock s) as [t|] eqn:E; [|done]. apply (l_pending s (i_locks s Hi)) in E. by rewrite (Hq t) in E.
Qed.

(** The steps of [lock] from the free mutex to the drained pending list, and
    those after it. *)
Lemma run_to_insert t s : container_ s = true -> mutex_ s = None -> pendingLock s = None -> tlStatsEmpty_ s = false ->
  exec_all (Call t CAggregate :: repeat (Move t) 3) s =
    Some (goto t (Insert (linkPending_ s) BAggregate) (set_pending None [] (set_mutex (Some t) s))).
Proof.
  intros Hc Hm Hp He. destruct s; simpl in *; subst.
  repeat first [progress (unfold step, lock, swap_pending, check_empty, pc_of, goto; simpl; rewrite ?lookup_insert_eq; simpl)|rewrite insert_insert_eq]. done.
Qed.
Lemma run_from_drained t s :
  exec_all (repeat (Move t) 3) (goto t (Insert [] BAggregate) s) =
    Some (goto t Idle (set_mutex None (log (Aggregated (tlStats_ s)) s))).
Proof.
  destruct s; simpl.
  repeat first [progress (unfold step, lock, swap_pending, check_empty, pc_of, goto; simpl; rewrite ?lookup_insert_eq; simpl)|rewrite insert_insert_eq]. done.
Qed.

(** An [aggregate] that runs alone and finds the flag clear takes all the
    pending stats into the registry and aggregates every linked stat. *)
Theorem aggregate_visits_all t s :
  reachable s -> quiescent s -> container_ s = true -> tlStatsEmpty_ s = false ->
  exists s', exec_all (Call t CAggregate :: repeat (Move t) (6 + length (linkPending_ s))) s = Some s' /\
    results s' = results s ++ [Aggregated (linked s)] /\ tlStats_ s' = linked s /\ linkPending_ s' = [] /\
    linked s' = linked s /\ quiescent s'.
Proof.
  intros Hi%reachable_inv Hq Hc He. destruct (quiescent_unlocked s Hi Hq) as [Hm Hp].
  set (l := linkPending_ s). set (s1 := set_pending None [] (set_mutex (Some t) s)).
  assert (Hreg : tlStats_ s ∪ list_to_set l = linked s).
  { apply set_eq. intros x. rewrite elem_of_union, elem_of_list_to_set. by rewrite (quiescent_registry s). }
  destruct (drain_stats_rest l s1) as (D1 & D2 & D3 & D4 & D5 & D6).
  assert (Hnd : NoDup l) by (pose proof (r_nodup s (i_registration s Hi) t) as Hn; by rewrite (Hq t), app_nil_r in Hn).
  assert (Hap : forall x, x ∈ l -> x ∉ tlStats_ s1) by (intros x Hx; apply (r_apart s (i_registration s Hi)); by left).
  exists (goto t Idle (set_mutex None (log (Aggregated (linked s)) (drain_stats l s1)))).
  split; [|simpl; split; [|split; [|split; [|split]]]].
  - replace (6 + length l) with (3 + (length l + 3)) by lia. rewrite !repeat_app, app_comm_cons.
    rewrite (exec_app _ _ s _ (run_to_insert t s Hc Hm Hp He)). fold s1 l.
    rewrite (exec_app _ _ _ _ (run_drain t l BAggregate s1 Hnd Hap)), run_from_drained, drain_stats_set. simpl.
    by rewrite Hreg.
  - by rewrite D6.
  - by rewrite drain_stats_set.
  - by rewrite D3.
  - by rewrite D4.
  - intros t'. rewrite pc_of_goto. case_decide; [done|]. unfold pc_of. simpl. rewrite D5. apply Hq.
Qed.

Lemma aggregate_visits_all_witness :
  quiescent (state_of two_links) /\ linked (state_of two_links) = {[ 2; 3 ]} /\
  exists s',
    exec_all (Call 0 CAggregate :: repeat (Move 0) (6 + length (linkPending_ (state_of two_links))))
      (state_of two_links) = Some s' /\
    results s' = results (state_of two_links) ++ [Aggregated (linked (state_of two_links))] /\
    tlStats_ s' = linked (state_of two_links) /\ linkPending_ s' = [] /\
    linked s' = linked (state_of two_links) /\ quiescent s'.
Proof.
  set (s := state_of two_links).
  assert (Hq : quiescent s) by (apply quiescentb; vm_compute; reflexivity).
  split; [exact Hq|]. split; [vm_compute; reflexivity|].
  refine (aggregate_visits_all 0 s _ Hq _ _).
  - apply (run_reachable two_links); [vm_compute; reflexivity|vm_compute; eauto].
  - vm_compute. reflexivity.
  - vm_compute. reflexivity.
Defined.

(** ** Progress *)
Lemma pending_holder_steps t s : holds_pending (pc_of t s) = true -> is_Some (step t s).
Proof. unfold step. by destruct (pc_of t s). Qed.

Lemma pending_free_or_steps s : inv s -> pendingLock s = None \/ exists t, is_Some (step t s).
Proof.
  intros Hi. destruct (pendingLock s) as [t|] eqn:E; [right|by left]. exists t. apply pending_holder_steps.
  by apply (l_pending s (i_locks s Hi)).
Qed.

Lemma section_steps t s : in_section (pc_of t s) = true -> pendingLock s = None -> is_Some (step t s).
Proof.
  unfold step, swap_pending. intros Hin Hp. destruct (pc_of t s) as [|?|?|b|[|? ?] ?|?| |?|?|?| |]; try done;
    rewrite ?Hp; repeat case_match; try done; by eexists.
Qed.

Lemma outside_steps t s :
  pc_of t s <> Idle -> pc_of t s <> CheckFailed -> mutex_ s = None -> pendingLock s = None -> is_Some (step t s).
Proof.
  intros H1 H2 Hm Hp. unfold step, try_lock, lock, swap_pending, defer_push, check_empty. destruct (pc_of t s) as [|?|?|b|[|? ?] ?|?| |?|?|?| |]; try done;
    rewrite ?Hm, ?Hp; repeat case_match; try done; by eexists.
Qed.

(** C31: no run deadlocks: while some thread is inside a call, some thread can
    take its next step. *)
Theorem registration_deadlock_free s :
  reachable s -> ~ quiescent s -> exists t, is_Some (step t s).
Proof.
  intros Hi%reachable_inv Hnq. destruct (pending_free_or_steps s Hi) as [Hp|]; [|done].
  destruct (mutex_ s) as [t|] eqn:Hm.
  - exists t. apply section_steps; [|done]. by apply (l_mutex s (i_locks s Hi)).
  - destruct (decide (all_pcs idle s = true)) as [Hq%quiescentb|Hq]; [done|].
    unfold all_pcs in Hq. apply not_true_is_false in Hq.
    destruct (existsb (fun kp => negb (idle kp.2)) (map_to_list (pcs s))) eqn:He.
    + apply existsb_exists in He as ([t p] & Hin%list_elem_of_In%elem_of_map_to_list & Hp'). exists t.
      assert (Ep : pc_of t s = p) by (unfold pc_of; by rewrite Hin).
      apply outside_steps; [rewrite Ep; by destruct p|apply (r_crash s (i_registration s Hi))|done..].
    + exfalso. apply not_true_iff_false in Hq. apply Hq, forallb_forall. intros kp Hin.
      destruct (idle kp.2) eqn:Ei; [done|]. rewrite <- not_true_iff_false in He. destruct He. apply existsb_exists.
      exists kp. by rewrite Ei.
Qed.

Lemma registration_deadlock_free_witness :
  ~ quiescent (state_of (link_1 ++ [Call 1 (CUnlink 1)])) /\
  exists t, is_Some (step t (state_of (link_1 ++ [Call 1 (CUnlink 1)]))).
Proof.
  assert (Hn : ~ quiescent (state_of (link_1 ++ [Call 1 (CUnlink 1)]))) by (intros Hq; by specialize (Hq 1)).
  split; [exact Hn|].
  refine (registration_deadlock_free (state_of (link_1 ++ [Call 1 (CUnlink 1)])) _ Hn).
  apply run_reachable; [vm_compute; reflexivity|vm_compute; eauto].
Defined.
