(* ===== verification/ExportedHistogramMap.v ===== *)
(** * ExportedHistogramMap: named histograms, exported as counters and strings

    [src/fb303/ExportedHistogramMap.h], [ExportedHistogramMap.cpp],
    [ExportedHistogramMapImpl.h] and [ExportedHistogramMapImpl.cpp].  As in
    [ExportedStatMap], histograms live in a store and are named by addresses; a
    null pointer is [None].  The counters and the strings objects belong to
    somebody else. *)
From S2P Require Import Prelude ExportType Timeseries NamedCallbacks TimeseriesExporter HistogramExporter HistogramNames.
From Stdlib Require Import ZArith Lia String.
From stdpp Require Import base gmap list strings.

Open Scope Z_scope.
Open Scope fb303_scope.
Import LegacyClock.

Module ExportedHistogramMap.
Abbreviation HistogramPtr := (option nat) (only parsing).

Section Model.
Context {TS Hg HV : Type} `{FollyHistogram TS Hg HV}.
Context {CM Cb : Type} `{NamedCallbacks CM Cb} (callback : HistogramExporter.hist_value -> Cb).
Context {SM Sb : Type} `{NamedCallbacks SM Sb} (string_callback : HistogramExporter.hist_buckets -> Sb).

(** ** State *)
Record histmap := HistMap {
  histMap_ : gmap string HistogramPtr;
  hists : gmap nat Hg;                     (** the live [Synchronized<ExportedHistogram>]s *)
  next_hist : nat;
  defaultHist_ : option Hg;                (** what the two pointers point to *)
  defaultStat_ : option TS
}.
Abbreviation state := (histmap * (CM * SM))%type.

Definition with_histMap (m : gmap string HistogramPtr) (s : histmap) : histmap :=
  HistMap m (hists s) (next_hist s) (defaultHist_ s) (defaultStat_ s).
Definition with_hists (h : gmap nat Hg) (s : histmap) : histmap :=
  HistMap (histMap_ s) h (next_hist s) (defaultHist_ s) (defaultStat_ s).
Definition with_defaultHist (d : option Hg) (s : histmap) : histmap :=
  HistMap (histMap_ s) (hists s) (next_hist s) d (defaultStat_ s).
Definition with_defaultStat (d : option TS) (s : histmap) : histmap :=
  HistMap (histMap_ s) (hists s) (next_hist s) (defaultHist_ s) d.

(** [minuteTenMinuteHour] is [HistogramMinuteTenMinuteHourTimeSeries]. *)
Definition make (minuteTenMinuteHour : TS) (copyMe : Hg) : histmap :=
  HistMap ∅ ∅ 0 (Some copyMe) (Some minuteTenMinuteHour).

(** What other threads do to the map between two of its lock regions. *)
Context (gap : state -> state).

Definition on_counters {A} (f : SE CM A) : SE state A :=
  fun s => let '(r, c) := f s.2.1 in (r, (s.1, (c, s.2.2))).
Definition on_strings {A} (f : SE SM A) : SE state A :=
  fun s => let '(r, c) := f s.2.2 in (r, (s.1, (s.2.1, c))).
Definition modify_map (f : histmap -> histmap) : SE state unit := fun s => (Ret tt, (f s.1, s.2)).
Definition interleave : SE state unit := fun s => (Ret tt, gap s).

(** [std::make_shared<SyncHistogram>(h)] *)
Definition new_hist (h : Hg) : SE state nat :=
  fun s => (Ret (next_hist s.1),
    (HistMap (histMap_ s.1) (<[next_hist s.1 := h]> (hists s.1)) (S (next_hist s.1))
       (defaultHist_ s.1) (defaultStat_ s.1), s.2)).

(** Dereferencing a pointer, and [hist->wlock()->f(...)]. *)
Definition deref (p : HistogramPtr) : SE state (nat * Hg) :=
  fun s => match p with
           | Some a => match hists s.1 !! a with
                       | Some h => (Ret (a, h), s)
                       | None => (Throw undefined_behaviour, s)
                       end
           | None => (Throw undefined_behaviour, s)
           end.
Definition locked (f : Hg -> Hg) (p : HistogramPtr) : SE state unit :=
  let* ah := deref p in modify_map (fun s => with_hists (<[ah.1 := f ah.2]> (hists s)) s).

(** ** Defaults *)
Definition setDefaultHistogram (copyMe : Hg) : SE state unit := modify_map (with_defaultHist (Some copyMe)).
Definition setDefaultHistogramPtr (copyMe : option Hg) : SE state unit := modify_map (with_defaultHist copyMe).
Definition setDefaultStat (defaultStat : TS) : SE state unit := modify_map (with_defaultStat (Some defaultStat)).
Definition setDefaultStatPtr (defaultStat : option TS) : SE state unit := modify_map (with_defaultStat defaultStat).
Definition getDefaultStatPtr : SE state (option TS) := let* s := se_get in se_ret (defaultStat_ s.1).
Definition from_pointer {A} (p : option A) : SE state A :=
  match p with Some a => se_ret a | None => se_throw undefined_behaviour end.
Definition getDefaultStat : SE state TS := let* s := se_get in from_pointer (defaultStat_ s.1).

(** ** Lookup *)
Definition contains (name : string) : SE state bool :=
  let* s := se_get in se_ret (bool_decide (is_Some (histMap_ s.1 !! name))).
(** [folly::get_default]: null when the name is absent. *)
Definition getHistogramUnlocked (name : string) : SE state HistogramPtr :=
  let* s := se_get in se_ret (default None (histMap_ s.1 !! name)).
(** A held lock is not a state of the model: the pointer that is locked. *)
Definition getHistogram (name : string) : SE state HistogramPtr :=
  let* hist := getHistogramUnlocked name in
  match hist with Some _ => let* _ := deref hist in se_ret hist | None => se_ret None end.

(** ** Creation *)
Definition export_buckets (hist : HistogramPtr) (name : string) : SE state unit :=
  let* ah := deref hist in
  on_strings (HistogramExporter.exportBuckets string_callback ah.2 ah.1 name).

(** [getOrCreateUnlocked]: the histogram and [wasCreated].  The histogram is
    made without a lock; [insert] keeps an entry that came in between. *)
Definition getOrCreateUnlocked (name : string) (makeExportedHistogram : SE state Hg)
  : SE state (HistogramPtr * bool) :=
  let* hist := getHistogramUnlocked name in
  match hist with
  | Some _ => se_ret (hist, false)
  | None =>
      interleave >>>
      let* h := makeExportedHistogram in
      let* value := new_hist h in
      let* s := se_get in
      match histMap_ s.1 !! name with
      | Some None => se_throw check_failed
      | Some (Some p) => se_ret (Some p, false)
      | None =>
          modify_map (fun s => with_histMap (<[name := Some value]> (histMap_ s)) s) >>>
          export_buckets (Some value) name >>> se_ret (Some value, true)
      end
  end.

(** [checkAdd]: whether it logs that the parameters differ. *)
Definition checkAdd (item : HistogramPtr) (bucketWidth min max : Z) : SE state bool :=
  let* ah := deref item in
  se_ret (negb (th_getBucketSize ah.2 =? bucketWidth) || negb (th_getMin ah.2 =? min) || negb (th_getMax ah.2 =? max)).

Definition addHistogram (name : string) (copyMe : Hg) : SE state bool :=
  let* r := getOrCreateUnlocked name (se_ret (th_clear copyMe)) in
  if r.2 : bool then se_ret true
  else
    let* _ := checkAdd r.1 (th_getBucketSize copyMe) (th_getMin copyMe) (th_getMax copyMe) in se_ret false.

(** [SCOPE_FAIL]: [undo] runs when [m] throws. *)
Definition scope_fail {A} (undo : SE state unit) (m : SE state A) : SE state A :=
  fun s => match m s with
           | (Ret a, s') => (Ret a, s')
           | (Throw e, s') => (Throw e, (undo s').2)
           end.

(** [addHistogram(name, bucketWidth, min, max)]: a null entry first, then the histogram. *)
Definition make_entry (name : string) (bucketWidth min max : Z) : SE state nat :=
  scope_fail (modify_map (fun s => with_histMap (delete name (histMap_ s)) s))
    (let* c := getDefaultStat in
     let* h := lift (th_make bucketWidth min max c) in
     let* value := new_hist h in
     modify_map (fun s => with_histMap (<[name := Some value]> (histMap_ s)) s) >>> se_ret value).
Definition addHistogram_width (name : string) (bucketWidth min max : Z) : SE state bool :=
  let* s := se_get in
  match histMap_ s.1 !! name with
  | Some _ => se_ret false
  | None =>
      modify_map (fun s => with_histMap (<[name := None]> (histMap_ s)) s) >>>
      let* newHistogram := make_entry name bucketWidth min max in
      export_buckets (Some newHistogram) name >>> se_ret true
  end.

(** ** Exporting; an [item] is an export kind or a percentile *)
Definition exportPercentile (name : string) (percentile : Z) : SE state bool :=
  let* item := getHistogramUnlocked name in
  match item with
  | None => se_ret false
  | Some _ =>
      let* ah := deref item in
      on_counters (HistogramExporter.exportPercentile callback ah.2 ah.1 name percentile) >>> se_ret true
  end.
Definition unexportPercentile (name : string) (percentile : Z) : SE state unit :=
  let* item := getHistogramUnlocked name in
  match item with
  | None => se_ret tt
  | Some _ =>
      let* ah := deref item in on_counters (HistogramExporter.unexportPercentile ah.2 name percentile)
  end.
Definition exportStat (name : string) (type : ExportType) : SE state bool :=
  let* item := getHistogramUnlocked name in
  match item with
  | None => se_ret false
  | Some _ =>
      let* ah := deref item in
      on_counters (HistogramExporter.exportStat callback ah.2 ah.1 name type) >>> se_ret true
  end.
Definition unexportStat (name : string) (type : ExportType) : SE state unit :=
  let* item := getHistogramUnlocked name in
  match item with
  | None => se_ret tt
  | Some _ =>
      let* ah := deref item in on_counters (HistogramExporter.unexportStat ah.2 name type)
  end.

(** The overloads on an integer, and those with several arguments. *)
Definition export_one (name : string) (it : item) : SE state bool :=
  match it with StatItem ty => exportStat name ty | PercentileItem p => exportPercentile name p end.
Definition unexport_one (name : string) (it : item) : SE state unit :=
  match it with StatItem ty => unexportStat name ty | PercentileItem p => unexportPercentile name p end.
Fixpoint exportStats (name : string) (stat : item) (moreArgs : list item) : SE state bool :=
  match moreArgs with
  | [] => export_one name stat
  | next :: moreArgs' =>
      let* ok := export_one name stat in
      if ok : bool then exportStats name next moreArgs' else se_ret false
  end.
Fixpoint unexportStats (name : string) (stat : item) (moreArgs : list item) : SE state unit :=
  match moreArgs with
  | [] => unexport_one name stat
  | next :: moreArgs' => unexport_one name stat >>> unexportStats name next moreArgs'
  end.
Definition exportPercentiles (name : string) (percentile : Z) (morePercentiles : list Z) : SE state bool :=
  exportStats name (PercentileItem percentile) (PercentileItem <$> morePercentiles).
Definition unexportPercentiles (name : string) (percentile : Z) (morePercentiles : list Z) : SE state unit :=
  unexportStats name (PercentileItem percentile) (PercentileItem <$> morePercentiles).

(** ** Values *)
Definition if_present (name : string) (f : Hg -> Hg) : SE state unit :=
  let* hist := getHistogramUnlocked name in
  match hist with Some _ => locked f hist | None => se_ret tt end.
Definition addValue (name : string) (now value times : Z) : SE state unit :=
  if_present name (th_addValue now value times).
Definition addValues (name : string) (now : Z) (values : HV) : SE state unit :=
  if_present name (th_addValues now values).
Definition clearHistogram (name : string) : SE state unit := if_present name th_clear.

(** [addValues] with a histogram to create ([None] is null) and percentiles to export. *)
Fixpoint export_each (name : string) (percentiles : list Z) : SE state unit :=
  match percentiles with
  | [] => se_ret tt
  | p :: ps => let* _ := exportPercentile name p in export_each name ps
  end.
Definition addValues_create (name : string) (now : Z) (values : HV) (hist : option Hg) (percentiles : list Z)
  : SE state unit :=
  let* r := getOrCreateUnlocked name
    (match hist with
     | Some h => se_ret (th_clear h)
     | None => let* s := se_get in from_pointer (defaultHist_ s.1)
     end) in
  (if r.2 : bool then export_each name percentiles else se_ret tt) >>>
  addValues name now values.

(** ** The whole map *)
Fixpoint each_hist (f : Hg -> Hg) (ps : list HistogramPtr) : SE state unit :=
  match ps with
  | [] => se_ret tt
  | p :: ps' => locked f p >>> each_hist f ps'
  end.
Definition clearAllHistograms : SE state unit :=
  let* s := se_get in each_hist th_clear (map_to_list (histMap_ s.1)).*2.
Definition forgetAllHistograms : SE state unit := modify_map (with_histMap ∅).
Definition forgetHistogramsFor (name : string) : SE state unit :=
  modify_map (fun s => with_histMap (delete name (histMap_ s)) s).

(** ** Reading exported values: the closures of [HistogramExporter] *)
Definition on_hist {A} (p : nat) (f : SE (clock * Hg) A) : SE (clock * state) A :=
  fun w => match hists w.2.1 !! p with
           | None => (Throw undefined_behaviour, w)
           | Some h =>
               let '(r, (c, h')) := f (w.1, h) in
               (r, (c, (with_hists (<[p := h']> (hists w.2.1)) w.2.1, w.2.2)))
           end.
Definition read_counter (time_source : nat -> Z) (v : HistogramExporter.hist_value) : SE (clock * state) Z :=
  match v with
  | HistogramExporter.HistStat p level type => on_hist p (HistogramExporter.getHistogramStat time_source level type)
  | HistogramExporter.HistPercentile p level pct =>
      on_hist p (HistogramExporter.getHistogramPercentile time_source level pct)
  end.
Definition read_string (time_source : nat -> Z) (v : HistogramExporter.hist_buckets) : SE (clock * state) string :=
  on_hist (HistogramExporter.hb_hist v) (HistogramExporter.getHistogramBuckets time_source (HistogramExporter.hb_level v)).
End Model.
Arguments histmap : clear implicits.
End ExportedHistogramMap.

(** ** [ExportedHistogramMapImpl] *)
Module ExportedHistogramMapImpl.
Import ExportedHistogramMap.
Section Model.
Context {TS Hg HV : Type} `{FollyHistogram TS Hg HV}.
Context {CM Cb : Type} `{NamedCallbacks CM Cb} (callback : HistogramExporter.hist_value -> Cb).
Context {SM Sb : Type} `{NamedCallbacks SM Sb} (string_callback : HistogramExporter.hist_buckets -> Sb).
Abbreviation state := (histmap TS Hg * (CM * SM))%type.
Context (gap : state -> state).

Record LockableHistogram := Lockable { hist_ : HistogramPtr }.

Definition isNull (l : LockableHistogram) : bool := match hist_ l with None => true | Some _ => false end.
Definition swap (l : LockableHistogram * LockableHistogram) : LockableHistogram * LockableHistogram := (l.2, l.1).
(** [makeLockGuard]: the pointer that is locked. *)
Definition makeLockGuard (l : LockableHistogram) : SE state HistogramPtr :=
  let* _ := deref (hist_ l) in se_ret (hist_ l).
Definition hist_read {A} (f : Hg -> A) (l : LockableHistogram) : SE state A :=
  let* ah := deref (hist_ l) in se_ret (f ah.2).
Definition getBucketSize : LockableHistogram -> SE state Z := hist_read th_getBucketSize.
Definition getMin : LockableHistogram -> SE state Z := hist_read th_getMin.
Definition getMax : LockableHistogram -> SE state Z := hist_read th_getMax.
Definition addValue (l : LockableHistogram) (now value times : Z) : SE state unit :=
  locked (th_addValue now value times) (hist_ l).
Definition addValues (l : LockableHistogram) (now : Z) (values : HV) : SE state unit :=
  locked (th_addValues now values) (hist_ l).

(** The [*Locked] methods work on the locked pointer; their [DCHECK] excludes null. *)
Definition via_locked {A} (lockedObj : HistogramPtr) (k : HistogramPtr -> SE state A) : SE state A :=
  match lockedObj with Some _ => k lockedObj | None => se_throw check_failed end.
Definition addValueLocked (lockedObj : HistogramPtr) (now value times : Z) : SE state unit :=
  via_locked lockedObj (locked (th_addValue now value times)).
Definition addValuesLocked (lockedObj : HistogramPtr) (now : Z) (values : HV) : SE state unit :=
  via_locked lockedObj (locked (th_addValues now values)).
Definition updateLocked (lockedObj : HistogramPtr) (now : Z) : SE state unit :=
  via_locked lockedObj (locked (th_update now)).
Definition getPercentileEstimateLocked (lockedObj : HistogramPtr) (percentile : double) (level : nat) : SE state Z :=
  via_locked lockedObj (fun p =>
    let* ah := deref p in se_ret (th_getPercentileEstimate ah.2 percentile level)).

Definition getLockableHistogram (name : string) : SE state LockableHistogram :=
  let* hist := getHistogramUnlocked name in se_ret (Lockable hist).
Definition getOrCreateLockableHistogram (name : string) (makeExportedHistogram : SE state Hg) : SE state LockableHistogram :=
  let* r := getOrCreateUnlocked string_callback gap name makeExportedHistogram in se_ret (Lockable r.1).

(** [addValue(HistogramPtr, ...)] *)
Definition addValue_ptr (histogram : HistogramPtr) (now value times : Z) : SE state unit :=
  locked (th_addValue now value times) histogram.

(** [getHistogramPercentile]; the clock is read under the lock. *)
Definition getHistogramPercentile (time_source : nat -> Z) (l : LockableHistogram) (level : nat) (percentile : double)
  : SE (clock * state) Z := fun w =>
  match makeLockGuard l w.2 with
  | (Throw e, s) => (Throw e, (w.1, s))
  | (Ret guard, s) =>
      match get_legacy_stats_time time_source w.1 with
      | (Throw e, c) => (Throw e, (c, s))
      | (Ret now, c) =>
          let '(r, s') := (updateLocked guard now >>> getPercentileEstimateLocked guard percentile level) s in (r, (c, s'))
      end
  end.

Definition ensureExists (name : string) (crashIfMissing : bool) : SE state HistogramPtr :=
  let* item := getHistogramUnlocked name in
  match item with
  | None => if crashIfMissing then se_throw check_failed else se_ret None
  | Some _ => se_ret item
  end.
End Model.
End ExportedHistogramMapImpl.
