(* ===== verification/HistogramMapCorrect.v ===== *)
(** * HistogramMapCorrect: the histogram map refines a map from names to histograms

    The invariant of [ExportedHistogramMap] (no null entry outlives the lock, no
    two names share a histogram, levels are well formed) and the effect of every
    operation, on return and on a throw, on the histograms by name. *)
From S2P Require Import Prelude RegexUtil CallbackValuesMap CallbackRegistry ExportType Timeseries CounterNames NamedCallbacks TimeseriesExporter ExporterNames HistogramExporter HistogramNames ExportedHistogramMap.
From Stdlib Require Import ZArith Lia String.
From stdpp Require Import base gmap list strings.
Import ExportedHistogramMap.

Open Scope Z_scope.
Open Scope fb303_scope.

Section Correct.
Context {TS Hg HV : Type} `{FollyHistogram TS Hg HV}.
Context {CM Cb : Type} `{NamedCallbacks CM Cb} (callback : HistogramExporter.hist_value -> Cb).
Context {SM Sb : Type} `{NamedCallbacks SM Sb} (string_callback : HistogramExporter.hist_buckets -> Sb).
Abbreviation state := (histmap TS Hg * (CM * SM))%type.

Record inv (s : state) : Prop := {
  inv_live : forall n v, histMap_ s.1 !! n = Some v -> exists p h, v = Some p /\ hists s.1 !! p = Some h;
  inv_inj : forall n m p, histMap_ s.1 !! n = Some (Some p) -> histMap_ s.1 !! m = Some (Some p) -> n = m;
  inv_fresh : forall p, is_Some (hists s.1 !! p) -> (p < next_hist s.1)%nat
}.

(** The histogram of each name. *)
Definition view (s : state) : gmap string Hg := omap (fun v => p ← v; hists s.1 !! p) (histMap_ s.1).
Lemma view_at s n : view s !! n = (v ← histMap_ s.1 !! n; p ← v; hists s.1 !! p).
Proof. apply lookup_omap. Qed.
Lemma view_absent s n : inv s -> view s !! n = None <-> histMap_ s.1 !! n = None.
Proof.
  intros Hs. rewrite view_at. destruct (histMap_ s.1 !! n) as [v|] eqn:Ev; [|done]. simpl.
  destruct (inv_live s Hs _ _ Ev) as (p & h & -> & Hp). simpl. by rewrite Hp.
Qed.
Lemma view_present s n h : inv s -> view s !! n = Some h -> exists p, histMap_ s.1 !! n = Some (Some p) /\ hists s.1 !! p = Some h.
Proof.
  intros Hs. rewrite view_at. destruct (histMap_ s.1 !! n) as [v|] eqn:Ev; [|done]. simpl.
  destruct (inv_live s Hs _ _ Ev) as (p & h' & -> & Hp). simpl. rewrite Hp. intros [= ->]. by exists p.
Qed.

(** The exported objects do not matter here. *)
Lemma inv_exported (m : histmap TS Hg) e e' : inv (m, e) -> inv (m, e').
Proof. intros []. by split. Qed.

(** ** Steps of the map *)
Lemma inv_update s p h (f : Hg -> Hg) :
  inv s -> hists s.1 !! p = Some h -> inv (with_hists (<[p := f h]> (hists s.1)) s.1, s.2).
Proof.
  intros Hs Hp. split; simpl; [|apply (inv_inj s Hs)|].
  - intros n v Hn. destruct (inv_live s Hs n v Hn) as (q & h' & -> & Hq). exists q.
    destruct (decide (q = p)) as [->|Hne]; [rewrite lookup_insert_eq|rewrite lookup_insert_ne by done]; by eexists.
  - intros q Hq. apply lookup_insert_is_Some' in Hq as [<-|Hq]; apply (inv_fresh s Hs); eauto.
Qed.
Lemma view_update s n p h (f : Hg -> Hg) :
  inv s -> histMap_ s.1 !! n = Some (Some p) -> hists s.1 !! p = Some h ->
  view (with_hists (<[p := f h]> (hists s.1)) s.1, s.2) = <[n := f h]> (view s).
Proof.
  intros Hs Hn Hp. apply map_eq. intros m. rewrite view_at. simpl. destruct (decide (m = n)) as [->|Hm].
  - rewrite Hn. simpl. by rewrite !lookup_insert_eq.
  - rewrite lookup_insert_ne, view_at by done. destruct (histMap_ s.1 !! m) as [[q|]|] eqn:Em; simpl; try done.
    rewrite lookup_insert_ne; [done|]. intros ->. destruct Hm. by apply (inv_inj s Hs m n q).
Qed.

Lemma inv_insert s n h :
  inv s -> histMap_ s.1 !! n = None ->
  let s' := (HistMap (<[n := Some (next_hist s.1)]> (histMap_ s.1)) (<[next_hist s.1 := h]> (hists s.1))
    (S (next_hist s.1)) (defaultHist_ s.1) (defaultStat_ s.1), s.2) in
  inv s' /\ view s' = <[n := h]> (view s).
Proof.
  intros Hs Hn s'. assert (Hne : forall m q, histMap_ s.1 !! m = Some (Some q) -> q <> next_hist s.1).
  { intros m q Hm. destruct (inv_live s Hs m _ Hm) as (q' & h' & [= <-] & Hq).
    pose proof (inv_fresh s Hs q ltac:(eauto)). lia. }
  split.
  - split; simpl.
    + intros m v [[<- <-]|[Hm Hv]]%lookup_insert_Some; [exists (next_hist s.1), h; by rewrite lookup_insert_eq|].
      destruct (inv_live s Hs m v Hv) as (q & h' & -> & Hq). exists q, h'. split; [done|].
      rewrite lookup_insert_ne; [done|]. intros <-. by destruct (Hne m (next_hist s.1)).
    + intros m m' p [[<- E1]|[? E1]]%lookup_insert_Some [[<- E2]|[? E2]]%lookup_insert_Some.
      * done.
      * injection E1 as <-. by destruct (Hne m' (next_hist s.1)).
      * injection E2 as <-. by destruct (Hne m (next_hist s.1)).
      * by apply (inv_inj s Hs m m' p).
    + intros p [<-|Hp]%lookup_insert_is_Some'; [lia|]. pose proof (inv_fresh s Hs p Hp). lia.
  - apply map_eq. intros m. rewrite view_at. simpl. destruct (decide (m = n)) as [->|Hm].
    + rewrite !lookup_insert_eq. simpl. by rewrite lookup_insert_eq.
    + rewrite !lookup_insert_ne, view_at by done. destruct (histMap_ s.1 !! m) as [[q|]|] eqn:Em; simpl; try done.
      rewrite lookup_insert_ne; [done|]. intros <-. by destruct (Hne m (next_hist s.1)).
Qed.

Lemma inv_new s h : inv s ->
  let s' := (new_hist h s).2 in inv s' /\ view s' = view s.
Proof.
  intros Hs. assert (Hne : forall m q, histMap_ s.1 !! m = Some (Some q) -> q <> next_hist s.1).
  { intros m q Hm. destruct (inv_live s Hs m _ Hm) as (q' & h' & [= <-] & Hq).
    pose proof (inv_fresh s Hs q ltac:(eauto)). lia. }
  split.
  - split; simpl; [|apply (inv_inj s Hs)|].
    + intros m v Hv. destruct (inv_live s Hs m v Hv) as (q & h' & -> & Hq). exists q, h'. split; [done|].
      rewrite lookup_insert_ne; [done|]. intros <-. by destruct (Hne m (next_hist s.1)).
    + intros p [<-|Hp]%lookup_insert_is_Some'; [lia|]. pose proof (inv_fresh s Hs p Hp). lia.
  - apply map_eq. intros m. rewrite !view_at. simpl. destruct (histMap_ s.1 !! m) as [[q|]|] eqn:Em; simpl; try done.
    rewrite lookup_insert_ne; [done|]. intros <-. by destruct (Hne m (next_hist s.1)).
Qed.

Lemma inv_delete s n : inv s ->
  let s' := (with_histMap (delete n (histMap_ s.1)) s.1, s.2) in inv s' /\ view s' = delete n (view s).
Proof.
  intros Hs. split.
  - split; simpl; [| |apply (inv_fresh s Hs)].
    + intros m v [_ Hv]%lookup_delete_Some. by apply (inv_live s Hs m).
    + intros m m' p [_ Hm]%lookup_delete_Some [_ Hm']%lookup_delete_Some. by apply (inv_inj s Hs m m' p).
  - apply map_eq. intros m. rewrite view_at. simpl. destruct (decide (m = n)) as [->|Hm].
    + by rewrite !lookup_delete_eq.
    + by rewrite !lookup_delete_ne, view_at by done.
Qed.

(** ** Steps that leave the map alone *)
Definition exports {A} (m : SE state A) : Prop := forall s, (m s).2.1 = s.1.
Lemma exports_ret {A} (a : A) : exports (se_ret a).
Proof. done. Qed.
Lemma exports_bind {A B} (m : SE state A) (k : A -> SE state B) : exports m -> (forall a, exports (k a)) -> exports (se_bind m k).
Proof.
  intros Hm Hk s. unfold se_bind. specialize (Hm s). destruct (m s) as [[a|e] s1]; [|done]. simpl in Hm.
  rewrite <- Hm. apply Hk.
Qed.
Lemma exports_get : exports se_get.
Proof. done. Qed.
Lemma exports_deref p : exports (deref p).
Proof. intros s. unfold deref. by repeat case_match. Qed.
Lemma exports_counters {A} (f : SE CM A) : exports (on_counters f).
Proof. intros s. unfold on_counters. by destruct (f s.2.1). Qed.
Lemma exports_strings {A} (f : SE SM A) : exports (on_strings f).
Proof. intros s. unfold on_strings. by destruct (f s.2.2). Qed.
Lemma exports_lookup name : exports (getHistogramUnlocked name).
Proof. done. Qed.

Lemma view_exported (m : histmap TS Hg) e e' : view (m, e) = view (m, e').
Proof. done. Qed.
Lemma exports_effect {A} (m : SE state A) s : exports m -> inv s -> inv (m s).2 /\ view (m s).2 = view s.
Proof.
  intros Hm Hs. specialize (Hm s). destruct (m s) as [o [m' e']], s as [m0 e0]. simpl in *. subst.
  split; [by apply (inv_exported m0 e0)|done].
Qed.

Lemma exports_buckets p name : exports (export_buckets string_callback p name).
Proof. apply exports_bind; [apply exports_deref|]. intros ah. apply exports_strings. Qed.
Lemma exports_one name it : exports (export_one callback name it).
Proof.
  destruct it; (apply exports_bind; [apply exports_lookup|]); intros p; (destruct p; [|apply exports_ret]);
    (apply exports_bind; [apply exports_deref|]); intros ah;
    (apply exports_bind; [apply exports_counters|]); intros ?; apply exports_ret.
Qed.
Lemma unexports_one name it : exports (unexport_one (CM := CM) (SM := SM) name it).
Proof.
  destruct it; (apply exports_bind; [apply exports_lookup|]); intros p; (destruct p; [|apply exports_ret]);
    (apply exports_bind; [apply exports_deref|]); intros ah; apply exports_counters.
Qed.
Lemma exports_stats name stat more : exports (exportStats callback name stat more).
Proof.
  revert stat. induction more as [|next more IH]; intros stat; [apply exports_one|].
  apply exports_bind; [apply exports_one|]. intros b. destruct b; [apply IH|apply exports_ret].
Qed.
Lemma unexports_stats name stat more : exports (unexportStats (CM := CM) (SM := SM) name stat more).
Proof.
  revert stat. induction more as [|next more IH]; intros stat; [apply unexports_one|].
  apply exports_bind; [apply unexports_one|]. intros ?. apply IH.
Qed.
Lemma exports_each name ps : exports (export_each callback name ps).
Proof.
  induction ps as [|p ps IH]; [apply exports_ret|]. apply exports_bind; [apply (exports_one name (PercentileItem p))|].
  intros ?. apply IH.
Qed.

(** [exportStat] says whether the histogram is there. *)
Lemma export_one_result name it s b :
  inv s -> (export_one callback name it s).1 = Ret b -> b = bool_decide (is_Some (view s !! name)).
Proof.
  intros Hs. assert (Hv : view s !! name = None <-> histMap_ s.1 !! name = None) by (by apply view_absent).
  assert (Hr : forall m : nat -> Hg -> SE state unit,
    ((let* item := getHistogramUnlocked name in
      match item with
      | None => se_ret false
      | Some _ => let* ah := deref item in m ah.1 ah.2 >>> se_ret true
      end) s).1 = Ret b -> b = bool_decide (is_Some (view s !! name))).
  { intros m. unfold se_bind at 1, getHistogramUnlocked, se_bind at 1, se_get, se_ret at 1.
    destruct (histMap_ s.1 !! name) as [v|] eqn:Ev; simpl.
    - destruct (inv_live s Hs _ _ Ev) as (p & h & -> & Hp). unfold se_bind at 1, deref. rewrite Hp. unfold se_bind.
      cbn [fst snd]. destruct (m p h s) as [[u|e] s1]; [|done]. intros [= <-]. symmetry. apply bool_decide_eq_true.
      rewrite view_at, Ev. simpl. rewrite Hp. eauto.
    - intros [= <-]. symmetry. apply bool_decide_eq_false. rewrite (proj2 Hv) by done. by intros [? ?]. }
  destruct it as [ty|pct]; simpl.
  - apply (Hr (fun p h => on_counters (HistogramExporter.exportStat callback h p name ty))).
  - apply (Hr (fun p h => on_counters (HistogramExporter.exportPercentile callback h p name pct))).
Qed.
Lemma export_stats_result name stat more s b :
  inv s -> (exportStats callback name stat more s).1 = Ret b -> b = bool_decide (is_Some (view s !! name)).
Proof.
  revert stat s. induction more as [|next more IH]; intros stat s Hs; [by apply export_one_result|].
  cbn [exportStats]. unfold se_bind. pose proof (export_one_result name stat s) as Hres.
  destruct (exports_effect _ s (exports_one name stat) Hs) as [Hi1 Hv1].
  destruct (export_one callback name stat s) as [[b1|e] s1]; [|done]. simpl in *. specialize (Hres b1 Hs eq_refl).
  destruct b1.
  - intros Hb. rewrite (IH next s1 Hi1 Hb). by rewrite Hv1.
  - intros [= <-]. done.
Qed.

(** ** Values *)
Lemma deref_eq (s : state) p h : hists s.1 !! p = Some h -> deref (Some p) s = (Ret (p, h), s).
Proof. intros Hp. unfold deref. by rewrite Hp. Qed.

Lemma locked_effect s n p h (f : Hg -> Hg) :
  inv s -> histMap_ s.1 !! n = Some (Some p) -> hists s.1 !! p = Some h ->
  exists s', locked f (Some p) s = (Ret tt, s') /\ inv s' /\ view s' = <[n := f h]> (view s) /\
    histMap_ s'.1 = histMap_ s.1 /\ hists s'.1 = <[p := f h]> (hists s.1) /\ s'.2 = s.2.
Proof.
  intros Hs Hn Hp. unfold locked, se_bind. rewrite (deref_eq s p h Hp). eexists. split; [reflexivity|].
  split; [by apply (inv_update s p h f)|]. split; [by apply (view_update s n p h f)|done].
Qed.

Lemma if_present_effect s n (f : Hg -> Hg) :
  inv s -> exists s', if_present n f s = (Ret tt, s') /\ inv s' /\ view s' = alter f n (view s) /\ s'.2 = s.2.
Proof.
  intros Hs. unfold if_present, getHistogramUnlocked, se_bind at 1, se_bind at 1, se_get, se_ret at 1.
  destruct (histMap_ s.1 !! n) as [v|] eqn:Ev; simpl.
  - destruct (inv_live s Hs _ _ Ev) as (p & h & -> & Hp). destruct (locked_effect s n p h f Hs Ev Hp) as (s' & E & Hi & Hv & _ & _ & He).
    exists s'. split; [done|]. split; [done|]. split; [|done]. rewrite Hv. apply map_eq. intros m.
    destruct (decide (m = n)) as [->|Hm]; [|by rewrite lookup_insert_ne, lookup_alter_ne by done].
    rewrite lookup_insert_eq, lookup_alter_eq, view_at, Ev. simpl. by rewrite Hp.
  - exists s. split; [done|]. split; [done|]. split; [|done]. apply map_eq. intros m.
    destruct (decide (m = n)) as [->|Hm]; [|by rewrite lookup_alter_ne].
    rewrite lookup_alter_eq. rewrite (proj2 (view_absent s n Hs)) by done. done.
Qed.

Lemma each_hist_effect (f : Hg -> Hg) ns s :
  inv s -> NoDup ns -> Forall (fun n => is_Some (histMap_ s.1 !! n)) ns ->
  exists s', each_hist f ((fun n => default None (histMap_ s.1 !! n)) <$> ns) s = (Ret tt, s') /\ inv s' /\ s'.2 = s.2 /\
    histMap_ s'.1 = histMap_ s.1 /\
    forall n, view s' !! n = if bool_decide (n ∈ ns) then f <$> view s !! n else view s !! n.
Proof.
  intros Hs Hnd Hall. revert s Hs Hall. induction Hnd as [|n ns Hn Hnd IH]; intros s Hs Hall.
  { exists s. split; [done|]. split; [done|]. split; [done|]. split; [done|]. intros n.
    by rewrite bool_decide_eq_false_2 by apply not_elem_of_nil. }
  apply Forall_cons in Hall as [[v Ev] Hall]. destruct (inv_live s Hs n v Ev) as (p & h & -> & Hp).
  destruct (locked_effect s n p h f Hs Ev Hp) as (s1 & E1 & Hi1 & Hv1 & Em1 & _ & He1).
  destruct (IH s1 Hi1) as (s2 & E2 & Hi2 & He2 & Em2 & Hv2); [by rewrite Em1|]. rewrite Em1 in E2.
  exists s2. rewrite fmap_cons, Ev. cbn [each_hist]. unfold se_bind. change (default None (Some (Some p))) with (Some p). rewrite E1. split; [exact E2|].
  split; [done|]. split; [congruence|]. split; [congruence|]. intros m. rewrite Hv2, Hv1.
  destruct (decide (m = n)) as [->|Hm].
  - rewrite bool_decide_eq_false_2, (bool_decide_eq_true_2 (n ∈ n :: ns)) by (done || left).
    rewrite lookup_insert_eq, view_at, Ev. simpl. by rewrite Hp.
  - rewrite lookup_insert_ne by done. rewrite (bool_decide_ext (m ∈ n :: ns) (m ∈ ns)); [done|].
    rewrite elem_of_cons. tauto.
Qed.
End Correct.
