(* ===== verification/HistogramMapTheorems.v ===== *)
(** * HistogramMapTheorems: what the histogram map promises

    Every operation of [ExportedHistogramMap], other threads between the lock
    regions of a creating lookup included, acts on a map from names to
    histograms; and a histogram that is added and fed is reported under the
    names its exports registered. *)
From S2P Require Import Prelude RegexUtil CallbackValuesMap CallbackRegistry ExportType Timeseries CounterNames NamedCallbacks TimeseriesExporter ExporterNames HistogramExporter HistogramNames ExportedHistogramMap HistogramMapCorrect.
From Stdlib Require Import ZArith Lia String.
From stdpp Require Import base gmap list strings.
Import ExportedHistogramMap LegacyClock.

Open Scope Z_scope.
Open Scope fb303_scope.

Section Theorems.
Context {TS Hg HV : Type} `{FollyHistogram TS Hg HV}.
Context {CM Cb : Type} `{NamedCallbacks CM Cb} (callback : HistogramExporter.hist_value -> Cb).
Context {SM Sb : Type} `{NamedCallbacks SM Sb} (string_callback : HistogramExporter.hist_buckets -> Sb).
Abbreviation state := (histmap TS Hg * (CM * SM))%type.
Context (gap : state -> state).
Hypothesis gap_inv : forall s, inv s -> inv (gap s).

(** ** Creation *)

(** A throw leaves at most a new histogram behind. *)
Definition at_most_created (v v' : gmap string Hg) : Prop :=
  v' = v \/ exists n h, v !! n = None /\ v' = <[n := h]> v.
Definition reads {A} (m : SE state A) : Prop := forall s, (m s).2 = s.

Lemma getOrCreate_effect n (mk : SE state Hg) s :
  inv s -> reads mk ->
  let '(o, s') := getOrCreateUnlocked string_callback gap n mk s in
  inv s' /\ exists s0, (s0 = s \/ s0 = gap s) /\
  match o with
  | Ret (p, created) =>
      (exists a, p = Some a /\ histMap_ s'.1 !! n = Some (Some a)) /\
      if created : bool then view s0 !! n = None /\ exists h, (mk s0).1 = Ret h /\ view s' = <[n := h]> (view s0)
      else is_Some (view s0 !! n) /\ view s' = view s0
  | Throw _ => at_most_created (view s0) (view s')
  end.
Proof.
  intros Hs Hmk. unfold getOrCreateUnlocked, getHistogramUnlocked. unfold se_bind at 1 2, se_get at 1, se_ret at 1.
  destruct (histMap_ s.1 !! n) as [v|] eqn:Ev.
  { destruct (inv_live s Hs _ _ Ev) as (p & h & -> & Hp). simpl. split; [done|]. exists s. split; [by left|].
    split; [by exists p|]. split; [|done]. rewrite view_at, Ev. simpl. rewrite Hp. eauto. }
  simpl. unfold se_bind at 1, interleave. pose proof (gap_inv s Hs) as Hgs. set (s0 := gap s) in *.
  unfold se_bind at 1. specialize (Hmk s0) as Hmk0. destruct (mk s0) as [[h|e] s0'] eqn:Emk; simpl in Hmk0; subst s0'.
  2: { split; [done|]. exists s0. split; [by right|]. by left. }
  destruct (inv_new s0 h Hgs) as [Hi1 Hv1]. unfold se_bind at 1. set (s1 := (new_hist h s0).2) in *.
  change (new_hist h s0) with (@Ret nat (next_hist s0.1), s1). cbn iota. unfold se_bind at 1, se_get at 1.
  destruct (histMap_ s1.1 !! n) as [v|] eqn:Ev1.
  - destruct (inv_live s1 Hi1 _ _ Ev1) as (p & h' & -> & Hp). split; [done|]. exists s0. split; [by right|].
    split; [by exists p|]. split; [|done]. rewrite <- Hv1, view_at, Ev1.
    change (is_Some (hists s1.1 !! p)). rewrite Hp. eauto.
  - destruct (inv_insert s0 n h Hgs Ev1) as [Hi2 Hv2].
    assert (Hn : view s0 !! n = None) by (by apply view_absent).
    unfold se_bind at 1, modify_map. set (s2 := (_, s1.2)).
    assert (Es2 : inv s2 /\ view s2 = <[n := h]> (view s0)) by done. clear Hi2 Hv2. destruct Es2 as [Hi2 Hv2].
    destruct (exports_effect (export_buckets string_callback (Some (next_hist s0.1)) n) s2) as [Hi3 Hv3];
      [apply exports_buckets|done|].
    pose proof (exports_buckets string_callback (Some (next_hist s0.1)) n s2) as He3.
    unfold se_bind. destruct (export_buckets _ _ n s2) as [[u|e] s3]; simpl in *.
    + split; [done|]. exists s0. split; [by right|]. split.
      * exists (next_hist s0.1). split; [done|]. rewrite He3. simpl. by rewrite lookup_insert_eq.
      * split; [done|]. exists h. rewrite Emk. split; [done|]. by rewrite Hv3.
    + split; [done|]. exists s0. split; [by right|]. right. exists n, h. by rewrite Hv3.
Qed.

(** The entry is filled or, on a throw, gone again. *)
Definition created (n : string) (h : Hg) (s : state) : state :=
  (HistMap (<[n := Some (next_hist s.1)]> (histMap_ s.1)) (<[next_hist s.1 := h]> (hists s.1))
     (S (next_hist s.1)) (defaultHist_ s.1) (defaultStat_ s.1), s.2).
Lemma make_entry_eq n w lo hi (s : state) :
  histMap_ s.1 !! n = None ->
  make_entry n w lo hi (with_histMap (<[n := None]> (histMap_ s.1)) s.1, s.2) =
    match defaultStat_ s.1 with
    | None => (Throw undefined_behaviour, s)
    | Some c =>
        match th_make w lo hi c with
        | Throw e => (Throw e, s)
        | Ret h => (Ret (next_hist s.1), created n h s)
        end
    end.
Proof.
  intros Hn. destruct s as [m e]. simpl in Hn.
  assert (Hback : with_histMap (delete n (<[n := None]> (histMap_ m))) (with_histMap (<[n := None]> (histMap_ m)) m) = m)
    by (unfold with_histMap; simpl; rewrite delete_insert_id by done; by destruct m).
  unfold make_entry, scope_fail, getDefaultStat, from_pointer, se_bind, se_get, lift, new_hist, modify_map, se_ret, se_throw.
  simpl. destruct (defaultStat_ m) as [c|]; simpl; [|by rewrite Hback].
  destruct (th_make w lo hi c) as [h|x]; simpl; [|by rewrite Hback]. unfold created, with_histMap. simpl.
  by rewrite insert_insert_eq.
Qed.

Lemma addHistogram_width_effect n w lo hi (s : state) :
  inv s ->
  let '(o, s') := addHistogram_width string_callback n w lo hi s in
  inv s' /\
  match o with
  | Ret true => view s !! n = None /\ exists c h, defaultStat_ s.1 = Some c /\ th_make w lo hi c = Ret h /\
      view s' = <[n := h]> (view s)
  | Ret false => is_Some (view s !! n) /\ view s' = view s
  | Throw _ => at_most_created (view s) (view s')
  end.
Proof.
  intros Hs. unfold addHistogram_width. unfold se_bind at 1, se_get at 1.
  destruct (histMap_ s.1 !! n) as [v|] eqn:Ev.
  { destruct (inv_live s Hs _ _ Ev) as (p & h & -> & Hp). split; [done|]. split; [|done].
    rewrite view_at, Ev. simpl. rewrite Hp. eauto. }
  assert (Hn : view s !! n = None) by (by apply view_absent).
  unfold se_bind at 1, modify_map at 1. unfold se_bind at 1. rewrite (make_entry_eq n w lo hi s Ev).
  destruct (defaultStat_ s.1) as [c|] eqn:Ec; [|split; [done|by left]].
  destruct (th_make w lo hi c) as [h|e] eqn:Eh; [|split; [done|by left]].
  destruct (inv_insert s n h Hs Ev) as [Hi2 Hv2]. fold (created n h s) in Hi2, Hv2.
  destruct (exports_effect (export_buckets string_callback (Some (next_hist s.1)) n) (created n h s)) as [Hi3 Hv3];
    [apply exports_buckets|done|]. unfold se_bind.
  destruct (export_buckets string_callback (Some (next_hist s.1)) n (created n h s)) as [[u|e] s3];
    cbn [fst snd] in *; (split; [done|]).
  - split; [done|]. exists c, h. by rewrite Hv3.
  - right. exists n, h. by rewrite Hv3.
Qed.

(** ** Operations *)
Inductive op :=
  | OGetOrCreate (name : string) (h : Hg)
  | OAddHistogram (name : string) (copyMe : Hg)
  | OAddWidth (name : string) (bucketWidth min max : Z)
  | OExport (name : string) (stat : item) (more : list item)
  | OUnexport (name : string) (stat : item) (more : list item)
  | OAddValue (name : string) (now value times : Z)
  | OAddValues (name : string) (now : Z) (values : HV)
  | OAddValuesCreate (name : string) (now : Z) (values : HV) (hist : option Hg) (percentiles : list Z)
  | OClear (name : string)
  | OClearAll
  | OForgetAll
  | OForget (name : string)
  | OSetDefaultHist (copyMe : option Hg)
  | OSetDefaultStat (stat : option TS).

(** The answer of an operation that has none is [false]. *)
Definition no_answer (m : SE state unit) : SE state bool := let* _ := m in se_ret false.
Definition run (o : op) : SE state bool :=
  match o with
  | OGetOrCreate n h => let* r := getOrCreateUnlocked string_callback gap n (se_ret h) in se_ret r.2
  | OAddHistogram n h => addHistogram string_callback gap n h
  | OAddWidth n w lo hi => addHistogram_width string_callback n w lo hi
  | OExport n it more => exportStats callback n it more
  | OUnexport n it more => no_answer (unexportStats n it more)
  | OAddValue n now v k => no_answer (addValue n now v k)
  | OAddValues n now vs => no_answer (addValues n now vs)
  | OAddValuesCreate n now vs h pcts => no_answer (addValues_create callback string_callback gap n now vs h pcts)
  | OClear n => no_answer (clearHistogram n)
  | OClearAll => no_answer clearAllHistograms
  | OForgetAll => no_answer forgetAllHistograms
  | OForget n => no_answer (forgetHistogramsFor n)
  | OSetDefaultHist h => no_answer (setDefaultHistogramPtr h)
  | OSetDefaultStat t => no_answer (setDefaultStatPtr t)
  end.

(** What an operation that returns [b] did to the histograms by name, seen at [s0]. *)
Definition add_new (n : string) (h : Hg) (v : gmap string Hg) (b : bool) (v' : gmap string Hg) : Prop :=
  match v !! n with
  | Some _ => b = false /\ v' = v
  | None => b = true /\ v' = <[n := h]> v
  end.
Definition op_spec (o : op) (s0 : state) (b : bool) (v' : gmap string Hg) : Prop :=
  let v := view s0 in
  match o with
  | OGetOrCreate n h => add_new n h v b v'
  | OAddHistogram n h => add_new n (th_clear h) v b v'
  | OAddWidth n w lo hi =>
      match v !! n with
      | Some _ => b = false /\ v' = v
      | None => b = true /\ exists c h, defaultStat_ s0.1 = Some c /\ th_make w lo hi c = Ret h /\ v' = <[n := h]> v
      end
  | OExport n _ _ => b = bool_decide (is_Some (v !! n)) /\ v' = v
  | OAddValue n now x k => v' = alter (th_addValue now x k) n v
  | OAddValues n now vs => v' = alter (th_addValues now vs) n v
  | OAddValuesCreate n now vs h _ =>
      exists u, match v !! n with
                | Some old => u = old
                | None => match h with Some h => u = th_clear h | None => defaultHist_ s0.1 = Some u end
                end /\ v' = <[n := th_addValues now vs u]> v
  | OClear n => v' = alter th_clear n v
  | OClearAll => v' = th_clear <$> v
  | OForgetAll => v' = ∅
  | OForget n => v' = delete n v
  | OUnexport _ _ _ | OSetDefaultHist _ | OSetDefaultStat _ => v' = v
  end.

Definition step_ok (o : op) (s : state) : Prop :=
  let '(r, s') := run o s in
  inv s' /\ exists s0, (s0 = s \/ s0 = gap s) /\
  match r with
  | Ret b => op_spec o s0 b (view s')
  | Throw _ => at_most_created (view s0) (view s')
  end.

(** An operation that takes no step of other threads in between. *)
Lemma step_solo o s :
  (let '(r, s') := run o s in
   inv s' /\ match r with Ret b => op_spec o s b (view s') | Throw _ => at_most_created (view s) (view s') end) ->
  step_ok o s.
Proof. unfold step_ok. destruct (run o s) as [r s']. intros [Hi Hr]. split; [done|]. exists s. auto. Qed.

Lemma step_exports o (m : SE state bool) s :
  inv s -> exports m -> run o = m -> (forall b, (m s).1 = Ret b -> op_spec o s b (view s)) -> step_ok o s.
Proof.
  intros Hs Hm Hr Hb. apply step_solo. rewrite Hr. destruct (exports_effect m s Hm Hs) as [Hi Hv].
  destruct (m s) as [[b|e] s']; simpl in *; (split; [done|]); rewrite Hv; [by apply Hb|by left].
Qed.

Lemma step_default o s m' :
  inv s -> (forall u, run o (u, s.2) = (Ret false, (m' u, s.2))) -> (forall u, histMap_ (m' u) = histMap_ u) ->
  (forall u, hists (m' u) = hists u) -> (forall u, next_hist (m' u) = next_hist u) ->
  (forall v, op_spec o s false v <-> v = view s) -> step_ok o s.
Proof.
  intros Hs Hr E1 E2 E3 Hsp. apply step_solo. destruct s as [u e]. rewrite Hr. simpl in *.
  split; [split; simpl; rewrite ?E1, ?E2, ?E3; apply Hs|]. apply Hsp. unfold view. simpl. by rewrite E1, E2.
Qed.

Lemma step_if_present o n f s :
  inv s -> run o = no_answer (if_present n f) -> (forall v, op_spec o s false v <-> v = alter f n (view s)) -> step_ok o s.
Proof.
  intros Hs Hr Hsp. apply step_solo. rewrite Hr. destruct (if_present_effect s n f Hs) as (s' & E & Hi & Hv & _).
  unfold no_answer, se_bind. rewrite E. split; [done|]. by apply Hsp.
Qed.

Lemma step_addHistogram n h s : inv s -> step_ok (OAddHistogram n h) s.
Proof.
  intros Hs. unfold step_ok, run, addHistogram, se_bind at 1.
  pose proof (getOrCreate_effect n (se_ret (th_clear h)) s Hs ltac:(done)) as Hgc.
  destruct (getOrCreateUnlocked string_callback gap n (se_ret (th_clear h)) s) as [[[p [|]]|e] s1];
    destruct Hgc as (Hi & s0 & Hs0 & Hgc); cbn [snd fst].
  - split; [done|]. exists s0. split; [done|]. destruct Hgc as (_ & Hn & h' & [= <-] & Hv). unfold op_spec, add_new.
    by rewrite Hn.
  - destruct Hgc as ((a & -> & Ha) & [u Hu] & Hv). destruct (inv_live s1 Hi _ _ Ha) as (a' & h' & [= <-] & Hh).
    unfold checkAdd, se_bind. rewrite (deref_eq s1 a h' Hh). split; [done|]. exists s0. split; [done|].
    unfold op_spec, add_new. by rewrite Hu.
  - split; [done|]. by exists s0.
Qed.

Lemma step_getOrCreate n h s : inv s -> step_ok (OGetOrCreate n h) s.
Proof.
  intros Hs. unfold step_ok, run, se_bind. pose proof (getOrCreate_effect n (se_ret h) s Hs ltac:(done)) as Hgc.
  destruct (getOrCreateUnlocked string_callback gap n (se_ret h) s) as [[[p b]|e] s1];
    destruct Hgc as (Hi & s0 & Hs0 & Hgc); (split; [done|]); exists s0; (split; [done|]); [|done].
  unfold op_spec, add_new. cbn [snd]. destruct b.
  - destruct Hgc as (_ & Hn & h' & [= <-] & Hv). by rewrite Hn.
  - destruct Hgc as (_ & [u Hu] & Hv). by rewrite Hu.
Qed.

Lemma step_addValuesCreate n now vs h pcts s : inv s -> step_ok (OAddValuesCreate n now vs h pcts) s.
Proof.
  intros Hs. unfold step_ok, run, no_answer, addValues_create. unfold se_bind at 1 2.
  set (mk := match h with Some h => se_ret (th_clear h) | None => _ end).
  assert (Hmk : reads mk) by (intros s0; unfold mk, from_pointer, se_bind, se_get; by repeat case_match).
  pose proof (getOrCreate_effect n mk s Hs Hmk) as Hgc.
  destruct (getOrCreateUnlocked string_callback gap n mk s) as [[[p b]|e] s1];
    destruct Hgc as (Hi & s0 & Hs0 & Hgc); [|split; [done|]; by exists s0].
  cbn [fst snd]. set (after := if b then export_each callback n pcts else se_ret tt).
  assert (Ha : exports after) by (unfold after; destruct b; [apply exports_each|apply exports_ret]).
  destruct (exports_effect after s1 Ha Hi) as [Hi2 Hv2]. unfold se_bind at 1.
  destruct (after s1) as [[u|e] s2]; simpl in Hi2, Hv2.
  - destruct (if_present_effect s2 n (th_addValues now vs) Hi2) as (s3 & E & Hi3 & Hv3 & _).
    unfold addValues. rewrite E. split; [done|]. exists s0. split; [done|]. unfold op_spec.
    assert (Hu : exists u, view s2 !! n = Some u /\ view s3 = <[n := th_addValues now vs u]> (view s0) /\
      match view s0 !! n with Some old => u = old | None => (mk s0).1 = Ret u end).
    { destruct b, Hgc as (_ & Hgc); [destruct Hgc as (Hn & u0 & Hmk0 & Hv)|destruct Hgc as ([u0 Hn] & Hv)];
        exists u0; rewrite Hv3, Hv2, Hv, Hn.
      - split; [apply lookup_insert_eq|]. split; [|done]. apply map_eq. intros m.
        destruct (decide (m = n)) as [->|Hm]; [by rewrite lookup_alter_eq, !lookup_insert_eq|].
        by rewrite lookup_alter_ne, !lookup_insert_ne by done.
      - split; [done|]. split; [|done]. apply map_eq. intros m.
        destruct (decide (m = n)) as [->|Hm]; [by rewrite lookup_alter_eq, lookup_insert_eq, Hn|].
        by rewrite lookup_alter_ne, lookup_insert_ne by done. }
    destruct Hu as (u1 & _ & Hv & Hu). exists u1. split; [|done]. destruct (view s0 !! n); [done|].
    unfold mk, from_pointer, se_bind, se_get in Hu. destruct h as [h0|]; [by injection Hu|].
    destruct (defaultHist_ s0.1); [by injection Hu as ->|done].
  - split; [done|]. exists s0. split; [done|]. rewrite Hv2. destruct b, Hgc as (_ & Hgc).
    + destruct Hgc as (Hn & u0 & _ & Hv). right. by exists n, u0.
    + destruct Hgc as (_ & Hv). by left.
Qed.

Lemma step_clearAll s : inv s -> step_ok OClearAll s.
Proof.
  intros Hs. apply step_solo. unfold run, no_answer, clearAllHistograms. unfold se_bind at 1 2, se_get at 1.
  set (ns := (map_to_list (histMap_ s.1)).*1).
  assert (Hin : forall n, n ∈ ns <-> is_Some (histMap_ s.1 !! n)).
  { intros n. unfold ns. rewrite list_elem_of_fmap. split.
    - intros ([k v] & -> & Hk). apply elem_of_map_to_list in Hk. eauto.
    - intros [v Hv]. exists (n, v). split; [done|]. by apply elem_of_map_to_list. }
  destruct (each_hist_effect th_clear ns s Hs) as (s' & E & Hi & _ & _ & Hv).
  - apply NoDup_fst_map_to_list.
  - apply Forall_forall. intros n. apply Hin.
  - assert (El : (fun n => default None (histMap_ s.1 !! n)) <$> ns = (map_to_list (histMap_ s.1)).*2).
    { unfold ns. rewrite <- list_fmap_compose. apply list_fmap_ext. intros i [k v] Hk. simpl.
      apply list_elem_of_lookup_2, elem_of_map_to_list in Hk. by rewrite Hk. }
    rewrite El in E. rewrite E. split; [done|]. simpl. apply map_eq. intros n. rewrite Hv, lookup_fmap.
    case_bool_decide as Hn; [done|]. rewrite Hin in Hn. rewrite (proj2 (view_absent s n Hs)); [done|].
    destruct (histMap_ s.1 !! n); [|done]. destruct Hn. eauto.
Qed.

Lemma run_step_ok o s : inv s -> step_ok o s.
Proof.
  intros Hs. destruct o as [n h|n h|n w lo hi|n it more|n it more|n now x k|n now vs|n now vs h pcts|n| | |n|h|t].
  - by apply step_getOrCreate.
  - by apply step_addHistogram.
  - apply step_solo. pose proof (addHistogram_width_effect n w lo hi s Hs) as Hw. unfold run, op_spec.
    destruct (addHistogram_width string_callback n w lo hi s) as [[[|]|e] s']; destruct Hw as [Hi Hw]; (split; [done|]).
    + destruct Hw as [-> Hw]. done.
    + destruct Hw as [[u ->] Hw]. done.
    + done.
  - eapply step_exports; [done|apply exports_stats|done|]. intros b Hb. split; [|done].
    by apply (export_stats_result callback n it more s).
  - eapply step_exports; [done| |reflexivity|done]. apply exports_bind; [apply unexports_stats|]. intros ?. apply exports_ret.
  - by eapply step_if_present.
  - by eapply step_if_present.
  - by apply step_addValuesCreate.
  - by eapply step_if_present.
  - by apply step_clearAll.
  - apply step_solo. split; [split; simpl; try done; apply (inv_fresh s Hs)|]. apply map_eq. intros m. by rewrite view_at.
  - apply step_solo. destruct (inv_delete s n Hs) as [Hi Hv]. by split.
  - by apply (step_default _ s (with_defaultHist h)).
  - by apply (step_default _ s (with_defaultStat t)).
Qed.

Definition run_all (os : list op) (s : state) : state := foldl (fun s o => (run o s).2) s os.
Lemma run_all_hist os (s : state) : inv s -> inv (run_all os s).
Proof.
  revert s. induction os as [|o os IH]; intros s Hs; [done|]. cbn. apply IH.
  pose proof (run_step_ok o s Hs) as Hst. unfold step_ok in Hst. destruct (run o s). apply Hst.
Qed.

Lemma inv_make_hist (t : TS) (h : Hg) (e : CM * SM) : inv (make t h, e).
Proof. split; simpl; try done. intros p [? Hp]. done. Qed.

(** C17: the histogram map refines a finite map from names to histograms.  After
    any sequence of operations from a new map, with other threads doing what
    preserves the invariant between the lock regions of a creating lookup, one
    more operation that returns did exactly the abstract operation on the map
    the lookup saw, with the answer that says whether the name was there; one
    that throws created at most one histogram, under a name that was free, and
    no null entry is ever left behind. *)
Theorem histogram_map_refines_histograms (t : TS) (h : Hg) (e : CM * SM) os o :
  let s := run_all os (make t h, e) in
  inv s /\
  let '(r, s') := run o s in
  inv s' /\ exists s0, (s0 = s \/ s0 = gap s) /\
  match r with
  | Ret b => op_spec o s0 b (view s')
  | Throw _ => at_most_created (view s0) (view s')
  end.
Proof.
  assert (Hs : inv (run_all os (make t h, e))) by (apply run_all_hist, inv_make_hist).
  split; [done|]. by apply run_step_ok.
Qed.
End Theorems.
