(* ===== verification/HistogramMapReports.v ===== *)
(** * HistogramMapReports: an added histogram is reported

    From adding a histogram to reading its counters: the names that
    [addHistogram] and [exportStat] of [ExportedHistogramMap] register answer
    with the values of this histogram. *)
From S2P Require Import Prelude RegexUtil CallbackValuesMap CallbackRegistry ExportType Timeseries CounterNames NamedCallbacks TimeseriesExporter ExporterNames HistogramExporter HistogramNames ExportedHistogramMap HistogramMapCorrect HistogramMapTheorems.
From Stdlib Require Import ZArith Lia String.
From stdpp Require Import base gmap list strings.
Import ExportedHistogramMap LegacyClock.

Open Scope Z_scope.
Open Scope fb303_scope.

Section Reports.
Context {TS Hg HV : Type} `{FollyHistogram TS Hg HV}.
Context {CM Cb : Type} `{NamedCallbacks CM Cb} (callback : HistogramExporter.hist_value -> Cb).
Context {SM Sb : Type} `{NamedCallbacks SM Sb} (string_callback : HistogramExporter.hist_buckets -> Sb).
Abbreviation state := (histmap TS Hg * (CM * SM))%type.

(** ** Names after an export *)
Definition stands_for (c : CM) (n : string) (p : nat) (ds : list Z) (it : item) : Prop :=
  forall lev d, ds !! lev = Some d -> nc_lookup c (item_name n it d) = Some (callback (item_value p it lev)).

Lemma item_name_inj n it it' d d' : item_name n it d = item_name n it' d' -> it = it'.
Proof. intros (_ & E & _)%counter_name_inj; [|apply item_token_ok..]. by apply item_token_inj. Qed.

Lemma export_item_stands (h : Hg) p n it (c c' : CM) :
  nc_wf c -> short n -> named_durations seconds (hist_durations h) -> item_ok it ->
  export_item callback h p n it c = (Ret tt, c') ->
  nc_wf c' /\ stands_for c' n p (hist_durations h) it /\
  forall it', stands_for c n p (hist_durations h) it' -> stands_for c' n p (hist_durations h) it'.
Proof.
  intros Hw Hs Hds Hok. rewrite export_item_eq by done. set (l := level_counters _ _ _ _ _). intros E.
  assert (Hnd : NoDup l.*1) by (by apply level_counters_NoDup; [|apply item_token_ok|]).
  pose proof (register_all_effect c l true Hw Hnd) as Heff. rewrite E in Heff. destruct Heff as (Hw' & Hother & _ & Heq).
  specialize (Heq eq_refl). assert (Hst : stands_for c' n p (hist_durations h) it).
  { intros lev d Hd. rewrite Heq. unfold registered_as, l, item_name.
    rewrite (level_counters_lookup seconds (item_base n it) (item_token it) eq_refl (item_token_ok it) _ _ lev d Hds Hd).
    by destruct (nc_lookup c _). }
  split; [done|]. split; [done|]. intros it' Hst'. destruct (decide (item_token it' = item_token it)) as [Et|Et].
  - apply item_token_inj in Et as ->. exact Hst.
  - intros lev d Hd. rewrite Hother; [by apply Hst'|]. unfold l. rewrite level_counters_names. fold (item_name n it).
    intros Hin. apply list_elem_of_fmap in Hin as (d' & En & _). apply Et.
    change (level_name seconds (item_base n it) (item_token it) d') with (item_name n it d') in En.
    by rewrite (item_name_inj n it' it d d' En).
Qed.

(** One export through the map, and a list of them. *)
Lemma export_one_present n it (s s' : state) p h b :
  histMap_ s.1 !! n = Some (Some p) -> hists s.1 !! p = Some h -> export_one callback n it s = (Ret b, s') ->
  b = true /\ s'.1 = s.1 /\ s'.2.2 = s.2.2 /\ export_item callback h p n it s.2.1 = (Ret tt, s'.2.1).
Proof.
  intros Hn Hp. destruct s as [m [c e]]. simpl in Hn, Hp.
  destruct it as [ty|pct]; simpl; unfold exportStat, exportPercentile, getHistogramUnlocked, se_bind, se_get, se_ret;
    simpl; rewrite Hn; simpl; unfold deref; simpl; rewrite Hp; unfold on_counters; simpl.
  - destruct (HistogramExporter.exportStat callback h p n ty c) as [[[]|err] c']; [|done]. by intros [= <- <-].
  - destruct (HistogramExporter.exportPercentile callback h p n pct c) as [[[]|err] c']; [|done]. by intros [= <- <-].
Qed.

Lemma export_stats_stands n stat more (s s' : state) p h b :
  histMap_ s.1 !! n = Some (Some p) -> hists s.1 !! p = Some h -> nc_wf s.2.1 ->
  short n -> named_durations seconds (hist_durations h) -> Forall item_ok (stat :: more) ->
  exportStats callback n stat more s = (Ret b, s') ->
  s'.1 = s.1 /\ s'.2.2 = s.2.2 /\ (forall it, it ∈ stat :: more -> stands_for s'.2.1 n p (hist_durations h) it) /\
  forall it, stands_for s.2.1 n p (hist_durations h) it -> stands_for s'.2.1 n p (hist_durations h) it.
Proof.
  intros Hn Hp Hw Hs Hds. revert stat s Hn Hp Hw. induction more as [|next more IH]; intros stat s Hn Hp Hw Hok E.
  - apply Forall_cons in Hok as [Hok _]. destruct (export_one_present n stat s s' p h b Hn Hp E) as (_ & E1 & E2 & E3).
    destruct (export_item_stands h p n stat _ _ Hw Hs Hds Hok E3) as (_ & Hst & Hkeep).
    split; [done|]. split; [done|]. split; [|done]. intros it ->%list_elem_of_singleton. done.
  - apply Forall_cons in Hok as [Hok Hmore]. cbn [exportStats] in E. unfold se_bind in E.
    destruct (export_one callback n stat s) as [[b1|e] s1] eqn:E0; [|done].
    destruct (export_one_present n stat s s1 p h b1 Hn Hp E0) as (-> & E1 & E2 & E3).
    destruct (export_item_stands h p n stat _ _ Hw Hs Hds Hok E3) as (Hw1 & Hst & Hkeep).
    destruct (IH next s1) as (F1 & F2 & F3 & F4); [by rewrite E1..|done|done|done|].
    split; [congruence|]. split; [congruence|]. split; [|intros it Hit; by apply F4, Hkeep].
    intros it [->|Hit]%elem_of_cons; [by apply F4|by apply F3].
Qed.

(** [exportBuckets] *)
Lemma exportBuckets_stands (h : Hg) p n (c c' : SM) :
  nc_wf c -> named_durations seconds (hist_durations h) ->
  HistogramExporter.exportBuckets string_callback h p n c = (Ret tt, c') ->
  forall lev d, hist_durations h !! lev = Some d ->
    nc_lookup c' (level_name seconds n "hist" d) = Some (string_callback (HistogramExporter.HistBuckets p lev)).
Proof.
  intros Hw Hds. unfold HistogramExporter.exportBuckets. rewrite has_buckets. unfold ts_numLevels.
  rewrite (for_levels_register _ (level_name seconds n "hist") (ts_durations (th_getBucket h 0)));
    [|intros; by apply bucketsName_eq].
  change (register_all _ true c) with (register_all (level_counters seconds n "hist"
    (fun lev => string_callback (HistogramExporter.HistBuckets p lev)) (hist_durations h)) true c).
  set (l := level_counters _ _ _ _ _). intros E lev d Hd.
  assert (Hnd : NoDup l.*1) by (by apply level_counters_NoDup).
  pose proof (register_all_effect c l true Hw Hnd) as Heff. rewrite E in Heff. destruct Heff as (_ & _ & _ & Heq).
  rewrite (Heq eq_refl). unfold registered_as, l.
  rewrite (level_counters_lookup seconds n "hist" eq_refl eq_refl _ _ lev d Hds Hd). by destruct (nc_lookup c _).
Qed.

(** [addHistogram] that returns [true], in detail. *)
Lemma added_width n w lo hi c (s s1 : state) :
  inv s -> defaultStat_ s.1 = Some c -> addHistogram_width string_callback n w lo hi s = (Ret true, s1) ->
  exists p h, th_make w lo hi c = Ret h /\ histMap_ s1.1 !! n = Some (Some p) /\ hists s1.1 !! p = Some h /\
    s1.2.1 = s.2.1 /\ inv s1 /\ HistogramExporter.exportBuckets string_callback h p n s.2.2 = (Ret tt, s1.2.2).
Proof.
  intros Hs Hc. unfold addHistogram_width. unfold se_bind at 1, se_get at 1.
  destruct (histMap_ s.1 !! n) as [v|] eqn:Ev; [done|]. unfold se_bind at 1, modify_map at 1. unfold se_bind at 1.
  rewrite (make_entry_eq n w lo hi s Ev), Hc. destruct (th_make w lo hi c) as [h|e] eqn:Eh; [|done].
  destruct (inv_insert s n h Hs Ev) as [Hi _]. fold (created n h s) in Hi.
  unfold export_buckets, se_bind, deref. cbn [fst hists created]. rewrite lookup_insert_eq. unfold on_strings. cbn [snd fst created].
  destruct (HistogramExporter.exportBuckets string_callback h (next_hist s.1) n s.2.2) as [[[]|e] c'] eqn:Ex; [|done].
  intros [= <-]. exists (next_hist s.1), h. cbn [fst snd]. split; [done|]. split; [apply lookup_insert_eq|].
  split; [apply lookup_insert_eq|]. split; [done|]. split; [|done].
  by apply (inv_exported (created n h s).1 (created n h s).2).
Qed.

(** What reading an item of a histogram answers. *)
Definition item_read (time_source : nat -> Z) (it : item) (level : nat) : SE (clock * Hg) Z :=
  match it with
  | StatItem ty => HistogramExporter.getHistogramStat time_source level ty
  | PercentileItem p => HistogramExporter.getHistogramPercentile time_source level p
  end.

(** A histogram that is added, exported and fed is reported.  When
    [addHistogram] with its bucket parameters returns true, [exportStat] with a
    list of kinds and percentiles returns, and a value is added, then the map
    holds the new histogram with that value; at each level of the default stat
    the string [name.hist[.seconds]] stands for the buckets of this histogram
    and the counter of each item for this item of it; and reading such a counter
    answers from the histogram with the value, brought up to the current time. *)
Theorem added_histogram_is_reported n w lo hi c it more now v k (s s1 s2 s3 : state) b :
  inv s -> nc_wf s.2.1 -> nc_wf s.2.2 -> short n -> defaultStat_ s.1 = Some c ->
  named_durations seconds (ts_durations c) -> Forall item_ok (it :: more) ->
  addHistogram_width string_callback n w lo hi s = (Ret true, s1) ->
  exportStats callback n it more s1 = (Ret b, s2) ->
  addValue n now v k s2 = (Ret tt, s3) ->
  exists p h, th_make w lo hi c = Ret h /\ view s3 !! n = Some (th_addValue now v k h) /\
    (forall lev d, ts_durations c !! lev = Some d ->
       nc_lookup s3.2.2 (level_name seconds n "hist" d) = Some (string_callback (HistogramExporter.HistBuckets p lev)) /\
       forall it', it' ∈ it :: more -> nc_lookup s3.2.1 (item_name n it' d) = Some (callback (item_value p it' lev))) /\
    (forall time_source clk it' lev,
       (read_counter time_source (item_value p it' lev) (clk, s3)).1 =
         (item_read time_source it' lev (clk, th_addValue now v k h)).1).
Proof.
  intros Hs Hw1 Hw2 Hsh Hc Hds Hok Eadd Eex Eval.
  destruct (added_width n w lo hi c s s1 Hs Hc Eadd) as (p & h & Hmk & Hn & Hp & Ec & Hi1 & Ebk).
  assert (Ed : hist_durations h = ts_durations c) by (by apply (th_make_spec w lo hi c h)).
  destruct (export_stats_stands n it more s1 s2 p h b Hn Hp) as (F1 & F2 & F3 & _);
    [by rewrite Ec|done|by rewrite Ed|done|done|]. rewrite Ed in F3.
  assert (Hi2 : inv s2).
  { destruct (exports_effect _ s1 (exports_stats callback n it more) Hi1) as [Hi2 _]. by rewrite Eex in Hi2. }
  rewrite <- F1 in Hn, Hp. unfold addValue, if_present, getHistogramUnlocked, se_bind at 1, se_bind at 1, se_get, se_ret at 1 in Eval.
  rewrite Hn in Eval. simpl in Eval.
  destruct (locked_effect s2 n p h (th_addValue now v k) Hi2 Hn Hp) as (s3' & E3 & Hi3 & Hv3 & _ & Hh3 & He3).
  rewrite E3 in Eval. injection Eval as ->. exists p, h. split; [done|]. split; [|split].
  - rewrite Hv3. apply lookup_insert_eq.
  - intros lev d Hd. rewrite He3. split.
    + rewrite F2. apply (exportBuckets_stands h p n s.2.2); [done|by rewrite Ed|done|by rewrite Ed].
    + intros it' Hit. by apply F3.
  - intros time_source clk it' lev. assert (Hp3 : hists s3.1 !! p = Some (th_addValue now v k h))
      by (rewrite Hh3; apply lookup_insert_eq).
    destruct it' as [ty|pct]; unfold read_counter, item_value, item_read, on_hist; simpl; rewrite Hp3.
    + by destruct (HistogramExporter.getHistogramStat time_source lev ty (clk, th_addValue now v k h)) as [r [c' h']].
    + by destruct (HistogramExporter.getHistogramPercentile time_source lev pct (clk, th_addValue now v k h)) as [r [c' h']].
Qed.
End Reports.

(** ** A concrete map *)
Section Example_.
Import EventSeries CoarseHistogram PrefixCache.
#[local] Instance example_map_counters :
    NamedCallbacks (CallbackValuesMap.CallbackValuesMap.cvm HistogramExporter.hist_value cache) HistogramExporter.hist_value :=
  callback_values_map ExporterNames.example_hash.
#[local] Instance example_map_strings :
    NamedCallbacks (CallbackValuesMap.CallbackValuesMap.cvm HistogramExporter.hist_buckets cache) HistogramExporter.hist_buckets :=
  callback_values_map ExporterNames.example_hash.
Abbreviation example_state := (histmap series histogram *
  (CallbackValuesMap.CallbackValuesMap.cvm HistogramExporter.hist_value cache * CallbackValuesMap.CallbackValuesMap.cvm HistogramExporter.hist_buckets cache))%type
  (only parsing).

Definition example_levels : series := ts_make 60 (in_ticks seconds [60; 600]).
Definition example_exports :
    CallbackValuesMap.CallbackValuesMap.cvm HistogramExporter.hist_value cache * CallbackValuesMap.CallbackValuesMap.cvm HistogramExporter.hist_buckets cache :=
  (CallbackValuesMap.CallbackValuesMap.make, CallbackValuesMap.CallbackValuesMap.make).
Definition empty_map : example_state := (ExportedHistogramMap.make example_levels (Hist 10 0 100 example_levels), example_exports).
Definition with_h : example_state := (addHistogram_width (fun b => b) "h" 10 0 100 empty_map).2.
Definition with_exports : example_state := (exportStats (fun c => c) "h" (PercentileItem 95) [StatItem COUNT] with_h).2.
Definition with_value : example_state := (addValue "h" 3 42 1 with_exports).2.

Lemma added_histogram_is_reported_witness :
  exists p h, th_make 10 0 100 example_levels = Ret h /\ view with_value !! "h" = Some (th_addValue 3 42 1 h) /\
    (forall lev d, ts_durations example_levels !! lev = Some d ->
       nc_lookup with_value.2.2 (level_name seconds "h" "hist" d) = Some (HistogramExporter.HistBuckets p lev) /\
       forall it', it' ∈ [PercentileItem 95; StatItem COUNT] ->
         nc_lookup with_value.2.1 (item_name "h" it' d) = Some (item_value p it' lev)) /\
    (forall time_source clk it' lev,
       (read_counter time_source (item_value p it' lev) (clk, with_value)).1 =
         (item_read time_source it' lev (clk, th_addValue 3 42 1 h)).1).
Proof.
  refine (added_histogram_is_reported (fun c => c) (fun b => b) "h" 10 0 100 example_levels (PercentileItem 95)
    [StatItem COUNT] 3 42 1 empty_map with_h with_exports with_value true _ _ _ _ _ _ _ _ _ _).
  - apply inv_make_hist.
  - apply CallbackRegistry.registry_wf_make.
  - apply CallbackRegistry.registry_wf_make.
  - reflexivity.
  - reflexivity.
  - split; [by apply (bool_decide_unpack _)|].
    repeat (apply Forall_cons; split; [by vm_compute|]). by apply Forall_nil.
  - repeat (apply Forall_cons; split; [by vm_compute|]). by apply Forall_nil.
  - vm_compute. reflexivity.
  - vm_compute. reflexivity.
  - vm_compute. reflexivity.
Defined.

(** Another thread adds "h" between the lookup and the creation of ours. *)
Definition other_thread (s : example_state) : example_state :=
  (run (fun c => c) (fun b => b) id (OGetOrCreate "h" (Hist 5 0 50 example_levels)) s).2.

Lemma histogram_map_refines_histograms_witness :
  let s := run_all (fun c => c) (fun b => b) other_thread [OAddWidth "cpu" 1 0 10] empty_map in
  inv s /\
  let '(r, s') := run (fun c => c) (fun b => b) other_thread (OAddHistogram "h" (Hist 10 0 100 example_levels)) s in
  inv s' /\ exists s0, (s0 = s \/ s0 = other_thread s) /\
  match r with
  | Ret b => op_spec (OAddHistogram "h" (Hist 10 0 100 example_levels)) s0 b (view s')
  | Throw _ => at_most_created (view s0) (view s')
  end.
Proof.
  refine (histogram_map_refines_histograms (fun c => c) (fun b => b) other_thread _ example_levels
    (Hist 10 0 100 example_levels) example_exports [OAddWidth "cpu" 1 0 10] (OAddHistogram "h" (Hist 10 0 100 example_levels))).
  intros s Hs. pose proof (run_step_ok (fun c => c) (fun b => b) id (fun s Hs => Hs)
    (OGetOrCreate "h" (Hist 5 0 50 example_levels)) s Hs) as Hst.
  unfold step_ok in Hst. unfold other_thread. destruct (run _ _ id _ s). apply Hst.
Defined.
End Example_.
