(* ===== verification/QuantileStat.v ===== *)
(** * QuantileStat: a quantile estimator with its windows

    [src/fb303/QuantileStat.h] and [QuantileStat-inl.h].  The estimator,
    [folly::MultiSlidingWindowQuantileEstimator], is not part of the repository:
    it is the class [QuantileEstimator], whose laws are what its documentation
    says, and [SampleEstimator] is one that satisfies them.  A time point is a
    number of clock ticks. *)
From S2P Require Import Prelude.
From Stdlib Require Import ZArith Lia SpecFloat.
From stdpp Require Import base list.

Open Scope Z_scope.
Open Scope fb303_scope.

(** [folly::QuantileEstimates]: a quantile that was asked for with its estimate. *)
Record QuantileEstimates := MkEstimates { sum : double; count : double; quantiles : list (double * double) }.

(** What an estimator knows of one level at one time: a function of the
    quantile, so the other quantiles asked for do not matter. *)
Record level_view := LevelView { lv_sum : double; lv_count : double; lv_quantile : double -> double }.
Definition estimates_of (qs : list double) (v : level_view) : QuantileEstimates :=
  MkEstimates (lv_sum v) (lv_count v) ((fun q => (q, lv_quantile v q)) <$> qs).

(** A [def]: the length of a window, in seconds, and the number of windows. *)
Class QuantileEstimator (E : Type) := {
  TDigest : Type;
  qe_make : list (Z * Z) -> Z -> E;                   (** the definitions; the time it is built *)
  qe_addValue : double -> Z -> E -> E;
  qe_flush : E -> E;
  qe_estimateQuantiles : list double -> Z -> E -> (QuantileEstimates * list QuantileEstimates) * E;
  qe_getDigests : Z -> E -> (TDigest * list TDigest) * E;

  (** The number of sliding windows, and the views at a time: all-time and window [i]. *)
  qe_windows : E -> nat;
  qe_allTime : E -> Z -> level_view;
  qe_window : E -> Z -> nat -> level_view;

  (** Laws. *)
  ql_make : forall defs now, qe_windows (qe_make defs now) = length defs;
  ql_add : forall v now e, qe_windows (qe_addValue v now e) = qe_windows e;
  ql_flush : forall e, qe_windows (qe_flush e) = qe_windows e;
  ql_estimates : forall qs now e,
    (qe_estimateQuantiles qs now e).1 =
      (estimates_of qs (qe_allTime e now), (fun i => estimates_of qs (qe_window e now i)) <$> seq 0 (qe_windows e));
  ql_estimated : forall qs now e, let e' := (qe_estimateQuantiles qs now e).2 in
    qe_windows e' = qe_windows e /\ qe_allTime e' now = qe_allTime e now /\
    forall i, qe_window e' now i = qe_window e now i;
  (** the two zeros are one quantile *)
  ql_allTime : forall e now a b, SFeqb a b = true ->
    lv_quantile (qe_allTime e now) a = lv_quantile (qe_allTime e now) b;
  ql_window : forall e now i a b, SFeqb a b = true ->
    lv_quantile (qe_window e now i) a = lv_quantile (qe_window e now i) b;
  ql_digests : forall now e,
    length (qe_getDigests now e).1.2 = qe_windows e /\ qe_windows (qe_getDigests now e).2 = qe_windows e
}.

Module QuantileStat.
Section Model.
Context {E : Type} `{QuantileEstimator E}.

(** [SlidingWindow], and the windows of the two result types. *)
Record SlidingWindow := Window { windowLength : Z; nWindows : Z }.
(** [windowLength * nWindows] in [seconds]: the product is of type [uint64_t]. *)
Definition slidingWindowLength (w : SlidingWindow) : Z := wraps 64 (wrapu 64 (windowLength w * nWindows w)).

Record stat := Stat {
  slidingWindowVec_ : list SlidingWindow;
  estimator_ : E;
  creationTime_ : Z
}.
Definition with_estimator (e : E) (s : stat) : stat := Stat (slidingWindowVec_ s) e (creationTime_ s).

Definition make (defs : list (Z * Z)) (now : Z) : stat :=
  Stat ((fun d => Window d.1 d.2) <$> defs) (qe_make defs now) now.
Definition addValue (value : double) (now : Z) (s : stat) : stat :=
  with_estimator (qe_addValue value now (estimator_ s)) s.
Definition flush (s : stat) : stat := with_estimator (qe_flush (estimator_ s)) s.

(** [windows[i]] beside window [i]; out of range it is undefined. *)
Fixpoint zip_windows {A} (ws : list SlidingWindow) (xs : list A) : outcome (list (A * SlidingWindow)) :=
  match ws, xs with
  | [], _ => Ret []
  | _ :: _, [] => Throw undefined_behaviour
  | w :: ws', x :: xs' =>
      match zip_windows ws' xs' with Ret l => Ret ((x, w) :: l) | Throw e => Throw e end
  end.

Record Estimates := MkAll { allTimeEstimate : QuantileEstimates; slidingWindows : list (QuantileEstimates * SlidingWindow) }.
Definition getEstimates (qs : list double) (now : Z) : SE stat Estimates := fun s =>
  let '((all, windows), e) := qe_estimateQuantiles qs now (estimator_ s) in
  let s' := with_estimator e s in
  match zip_windows (slidingWindowVec_ s) windows with
  | Ret l => (Ret (MkAll all l), s')
  | Throw x => (Throw x, s')
  end.

Definition getSlidingWindowLengths (s : stat) : list Z := slidingWindowLength <$> slidingWindowVec_ s.
Definition creationTime (s : stat) : Z := creationTime_ s.

Record Snapshot := MkSnapshot {
  allTimeDigest : TDigest;
  slidingWindowSnapshot : list (TDigest * SlidingWindow);
  snap_now : Z;
  snap_creationTime : Z
}.
Definition getSnapshot (now : Z) : SE stat Snapshot := fun s =>
  let '((all, windows), e) := qe_getDigests now (estimator_ s) in
  let s' := with_estimator e s in
  match zip_windows (slidingWindowVec_ s) windows with
  | Ret l => (Ret (MkSnapshot all l now (creationTime_ s)), s')
  | Throw x => (Throw x, s')
  end.

(** ** A window for every estimate *)
Definition wf (s : stat) : Prop := qe_windows (estimator_ s) = length (slidingWindowVec_ s).

Lemma wf_new defs now : wf (make defs now).
Proof. unfold wf, make. simpl. by rewrite ql_make, length_fmap. Qed.
Lemma wf_added v now s : wf s -> wf (addValue v now s).
Proof. unfold wf, addValue. simpl. by rewrite ql_add. Qed.
Lemma wf_flushed s : wf s -> wf (flush s).
Proof. unfold wf, flush. simpl. by rewrite ql_flush. Qed.

Lemma zip_windows_eq {A} (ws : list SlidingWindow) (xs : list A) :
  length xs = length ws -> zip_windows ws xs = Ret (zip xs ws).
Proof.
  revert xs. induction ws as [|w ws IH]; intros [|x xs] Hl; simpl in *; try done.
  by rewrite IH by lia.
Qed.

(** What [getEstimates] returns, and that asking changes no view. *)
Definition estimates_at (qs : list double) (now : Z) (s : stat) : Estimates :=
  MkAll (estimates_of qs (qe_allTime (estimator_ s) now))
    (zip ((fun i => estimates_of qs (qe_window (estimator_ s) now i)) <$> seq 0 (length (slidingWindowVec_ s)))
       (slidingWindowVec_ s)).
Definition same_view (now : Z) (s s' : stat) : Prop :=
  slidingWindowVec_ s' = slidingWindowVec_ s /\ creationTime_ s' = creationTime_ s /\
  qe_windows (estimator_ s') = qe_windows (estimator_ s) /\
  qe_allTime (estimator_ s') now = qe_allTime (estimator_ s) now /\
  forall i, qe_window (estimator_ s') now i = qe_window (estimator_ s) now i.

Lemma same_view_refl now s : same_view now s s.
Proof. repeat split. Qed.
Lemma same_view_trans now s1 s2 s3 : same_view now s1 s2 -> same_view now s2 s3 -> same_view now s1 s3.
Proof.
  intros (A1 & A2 & A3 & A4 & A5) (B1 & B2 & B3 & B4 & B5).
  repeat split; [congruence..|]. intros i. by rewrite B5.
Qed.
Lemma same_view_wf now s s' : same_view now s s' -> wf s -> wf s'.
Proof. intros (E1 & _ & E2 & _). unfold wf. congruence. Qed.
Lemma same_view_estimates qs now s s' : same_view now s s' -> estimates_at qs now s' = estimates_at qs now s.
Proof.
  intros (E1 & _ & _ & E2 & E3). unfold estimates_at. rewrite E1, E2. f_equal. f_equal.
  apply list_fmap_ext. intros i j _. by rewrite E3.
Qed.

Lemma getEstimates_effect qs now s :
  wf s -> exists s', getEstimates qs now s = (Ret (estimates_at qs now s), s') /\ same_view now s s'.
Proof.
  intros Hw. unfold getEstimates. pose proof (ql_estimates qs now (estimator_ s)) as He.
  pose proof (ql_estimated qs now (estimator_ s)) as Hv.
  destruct (qe_estimateQuantiles qs now (estimator_ s)) as [[all windows] e]. simpl in *. injection He as -> ->.
  rewrite zip_windows_eq by (rewrite length_fmap, length_seq; done). rewrite Hw.
  eexists. split; [reflexivity|]. repeat split; apply Hv.
Qed.

(** [getSnapshot] pairs every digest with its window. *)
Lemma getSnapshot_effect now s :
  wf s -> exists snap, (getSnapshot now s).1 = Ret snap /\ (slidingWindowSnapshot snap).*2 = slidingWindowVec_ s /\
    wf (getSnapshot now s).2.
Proof.
  intros Hw. unfold getSnapshot. destruct (ql_digests now (estimator_ s)) as [Hl He].
  destruct (qe_getDigests now (estimator_ s)) as [[all windows] e]. simpl in *.
  rewrite zip_windows_eq by congruence. eexists. split; [reflexivity|]. simpl. split; [|unfold wf; simpl; congruence].
  rewrite snd_zip; [done|]. unfold wf in Hw. lia.
Qed.
End Model.
Arguments stat E : clear implicits.
End QuantileStat.

(** ** An estimator that keeps every sample *)
Module SampleEstimator.
Record est := Est { samples : list (double * Z); windows : list (Z * Z) }.

Definition view (l : list (double * Z)) : level_view :=
  LevelView (foldr (fun x acc => SFadd 53 1024 x.1 acc) (S754_zero false) l) (double_of_Z (Z.of_nat (length l)))
    (fun _ => match l with [] => S754_zero false | x :: _ => x.1 end).
Definition recent (now : Z) (w : Z * Z) (l : list (double * Z)) : list (double * Z) :=
  List.filter (fun x => now - w.1 * w.2 <? x.2) l.
Definition window_view (e : est) (now : Z) (i : nat) : level_view :=
  view (match windows e !! i with Some w => recent now w (samples e) | None => [] end).

#[local] Obligation Tactic := idtac.
#[export] Program Instance sample_estimator : QuantileEstimator est := {|
  TDigest := list (double * Z);
  qe_make defs now := Est [] defs;
  qe_addValue v now e := Est ((v, now) :: samples e) (windows e);
  qe_flush e := e;
  qe_estimateQuantiles qs now e :=
    ((estimates_of qs (view (samples e)),
      (fun i => estimates_of qs (window_view e now i)) <$> seq 0 (length (windows e))), e);
  qe_getDigests now e := ((samples e, (fun w => recent now w (samples e)) <$> windows e), e);
  qe_windows e := length (windows e);
  qe_allTime e now := view (samples e);
  qe_window := window_view
|}.
Solve Obligations with (intros; first [done | split; [apply length_fmap|done] | by repeat split]).
End SampleEstimator.
