(* ===== verification/QuantileStatMap.v ===== *)
(** * QuantileStatMap: named counters over quantile stats

    [src/fb303/detail/QuantileStatMap.h] and [QuantileStatMap-inl.h].  A stat is
    an object in a store, shared by the map and its users; [counters_] is the
    set of entries keyed by name with its regex cache ([RegexUtil.syncmap]) and
    [bases] the stats by base name.  The order of iteration of an F14 container
    is that of the model's map. *)
From S2P Require Import Prelude RegexUtil ExportType Timeseries CounterNames QuantileStat.
From Stdlib Require Import ZArith Lia Ascii String SpecFloat.
From stdpp Require Import base gmap list strings.

Open Scope Z_scope.
Open Scope fb303_scope.

(** What is before and after the last dot that a lower-case letter follows. *)
Definition lower_case (c : ascii) : bool := N.leb 97 (N_of_ascii c) && N.leb (N_of_ascii c) 122.
Definition starts_lower (l : list ascii) : bool := match l with c :: _ => lower_case c | [] => false end.
Fixpoint split_kind (l : list ascii) : option (list ascii * list ascii) :=
  match l with
  | [] => None
  | c :: l' =>
      match split_kind l' with
      | Some (a, b) => Some (c :: a, b)
      | None => if Ascii.eqb c dot && starts_lower l' then Some ([], l') else None
      end
  end.

(** [fmt] and [folly::constexpr_clamp_cast<int64_t>]: in [{:g}], the shortest of
    the fixed and the scientific notation, a dot precedes a digit. *)
Class NumberFormat := {
  format_g : double -> string;
  clamp_cast : double -> Z;
  format_g_dot : forall x, split_kind (list_ascii_of_string (format_g x)) = None
}.

(** The clock's ticks per second ([std::chrono::steady_clock]). *)
Definition nanoseconds : Z := 1000000000.

Module QuantileStatMap.
Abbreviation ptr := nat (only parsing).

Record StatDef := MkDef { sd_type : ExportType; sd_quantile : double }.
Record CounterMapEntry := Entry {
  cme_stat : ptr; cme_statDef : StatDef; cme_window : option Z
}.
Record StatMapEntry := Base { sme_stat : ptr; sme_statDefs : list StatDef }.

Section Model.
Context {E : Type} `{QuantileEstimator E} {M : Type} `{RegexMatchCache M} `{NumberFormat}.
Abbreviation syncmap := (RegexUtil.syncmap (M := M) (V := CounterMapEntry)) (only parsing).

(** The stats, and the map: [counters_.map] with its cache, and [counters_.bases]. *)
Record state := State {
  stats : gmap ptr (QuantileStat.stat E);
  counters_ : syncmap;
  bases : gmap string StatMapEntry
}.
Definition with_stats (h : gmap ptr (QuantileStat.stat E)) (s : state) : state := State h (counters_ s) (bases s).
Definition with_counters (c : syncmap) (s : state) : state := State (stats s) c (bases s).
Definition with_bases (b : gmap string StatMapEntry) (s : state) : state := State (stats s) (counters_ s) b.

Definition on_stat {A} (p : ptr) (f : SE (QuantileStat.stat E) A) : SE state A := fun s =>
  match stats s !! p with
  | None => (Throw undefined_behaviour, s)
  | Some q => let '(r, q') := f q in (r, with_stats (<[p := q']> (stats s)) s)
  end.
Definition read_stat (p : ptr) : SE state (QuantileStat.stat E) := on_stat p se_get.
Definition on_counters {A} (f : SE syncmap A) : SE state A := fun s =>
  let '(r, c) := f (counters_ s) in (r, with_counters c s).

(** ** Names *)
Definition window_suffix (w : option Z) : string :=
  match w with Some n => "." +:+ decimal n | None => "" end.
Definition kind_name (d : StatDef) : string :=
  match sd_type d with
  | PERCENT => "p" +:+ format_g (double_mul (sd_quantile d) (double_of_Z 100))
  | SUM => "sum"
  | COUNT => "count"
  | AVG => "avg"
  | RATE => "rate"
  end.
Definition makeKey (base : string) (d : StatDef) (w : option Z) : string :=
  base +:+ "." +:+ kind_name d +:+ window_suffix w.

(** ** Values *)
Definition double_div (a b : double) : double := SFdiv 53 1024 a b.
(** [p.first == statDef.quantile], then [p.second]; no match is a [LOG(FATAL)]. *)
Fixpoint find_quantile (q : double) (l : list (double * double)) : outcome double :=
  match l with
  | [] => Throw check_failed
  | (a, v) :: l' => if SFeqb a q then Ret v else find_quantile q l'
  end.
Definition extractValueImpl (legacy : bool) (d : StatDef) (e : QuantileEstimates) (duration : Z) : outcome double :=
  match sd_type d with
  | PERCENT => find_quantile (sd_quantile d) (quantiles e)
  | SUM => Ret (sum e)
  | COUNT => Ret (count e)
  | AVG => Ret (if SFltb (S754_zero false) (count e) then double_div (sum e) (count e) else S754_zero false)
  | RATE =>
      Ret (if 0 <? duration then double_div (if legacy then count e else sum e) (double_of_Z duration)
           else count e)
  end.
(** [legacy] is [FLAGS_fb303_qstat_legacy_use_count_for_rate]. *)
Definition extractValue (legacy : bool) (d : StatDef) (e : QuantileEstimates) (duration : Z) : outcome Z :=
  match extractValueImpl legacy d e duration with
  | Ret x => Ret (clamp_cast x)
  | Throw x => Throw x
  end.

(** [duration_cast<seconds>(now - creationTime)]; [statDuration] bounds it by the window. *)
Definition since (now creation : Z) : Z := duration_cast nanoseconds seconds (now - creation).
Definition statDuration (w : option Z) (creation now : Z) : Z :=
  let diff := since now creation in
  match w with
  | None => diff
  | Some n => if diff <? n then diff else n
  end.

(** The quantiles to ask for. *)
Definition percents (ds : list StatDef) : list double :=
  sd_quantile <$> List.filter (fun d => bool_decide (sd_type d = PERCENT)) ds.

(** The estimate of the first window of that length. *)
Fixpoint find_window (n : Z) (l : list (QuantileEstimates * QuantileStat.SlidingWindow)) : option QuantileEstimates :=
  match l with
  | [] => None
  | (e, w) :: l' => if QuantileStat.slidingWindowLength w =? n then Some e else find_window n l'
  end.
Definition level_estimate (w : option Z) (es : QuantileStat.Estimates) : option QuantileEstimates :=
  match w with
  | None => Some (QuantileStat.allTimeEstimate es)
  | Some n => find_window n (QuantileStat.slidingWindows es)
  end.

Definition lift {S A} (o : outcome A) : SE S A := fun s => (o, s).

(** *** [getValue]: [now] is read for the estimates and again ([later]) for the duration. *)
Definition getValue (legacy : bool) (now later : Z) (key : string) : SE state (option Z) :=
  let* s := se_get in
  match RegexUtil.map (counters_ s) !! key with
  | None => se_ret None
  | Some cme =>
      let* es := on_stat (cme_stat cme) (QuantileStat.getEstimates (percents [cme_statDef cme]) now) in
      match level_estimate (cme_window cme) es with
      | None => se_ret None
      | Some qe =>
          let* q := read_stat (cme_stat cme) in
          let* v := lift (extractValue legacy (cme_statDef cme) qe
            (statDuration (cme_window cme) (QuantileStat.creationTime q) later)) in
          se_ret (Some v)
      end
  end.

(** [out.emplace]: the first value stays. *)
Definition emplace (k : string) (v : Z) (out : gmap string Z) : gmap string Z :=
  match out !! k with Some _ => out | None => <[k := v]> out end.

(** *** [addValues]: one definition, all-time then window by window. *)
Fixpoint add_windows (legacy : bool) (name : string) (d : StatDef) (sinceCreation : Z)
    (l : list (QuantileEstimates * QuantileStat.SlidingWindow)) (out : gmap string Z) : outcome (gmap string Z) :=
  match l with
  | [] => Ret out
  | (e, w) :: l' =>
      let n := QuantileStat.slidingWindowLength w in
      match extractValue legacy d e (Z.min n sinceCreation) with
      | Throw x => Throw x
      | Ret v => add_windows legacy name d sinceCreation l' (emplace (makeKey name d (Some n)) v out)
      end
  end.
Definition addValues (legacy : bool) (name : string) (d : StatDef) (es : QuantileStat.Estimates)
    (sinceCreation : Z) (out : gmap string Z) : outcome (gmap string Z) :=
  match extractValue legacy d (QuantileStat.allTimeEstimate es) sinceCreation with
  | Throw x => Throw x
  | Ret v => add_windows legacy name d sinceCreation (QuantileStat.slidingWindows es)
               (emplace (makeKey name d None) v out)
  end.
Fixpoint add_defs (legacy : bool) (name : string) (ds : list StatDef) (es : QuantileStat.Estimates)
    (sinceCreation : Z) (out : gmap string Z) : outcome (gmap string Z) :=
  match ds with
  | [] => Ret out
  | d :: ds' =>
      match addValues legacy name d es sinceCreation out with
      | Throw x => Throw x
      | Ret out' => add_defs legacy name ds' es sinceCreation out'
      end
  end.

(** *** [getValues]: the bases are copied under the lock, then read one by one. *)
Definition read_base (legacy : bool) (now : Z) (key : string) (sme : StatMapEntry) (out : gmap string Z)
  : SE state (gmap string Z) :=
  let* es := on_stat (sme_stat sme) (QuantileStat.getEstimates (percents (sme_statDefs sme)) now) in
  let* q := read_stat (sme_stat sme) in
  lift (add_defs legacy key (sme_statDefs sme) es (since now (QuantileStat.creationTime q)) out).
Fixpoint read_bases (legacy : bool) (now : Z) (l : list (string * StatMapEntry)) (out : gmap string Z)
  : SE state (gmap string Z) :=
  match l with
  | [] => se_ret out
  | (key, sme) :: l' => let* out' := read_base legacy now key sme out in read_bases legacy now l' out'
  end.
Definition getValues (legacy : bool) (now : Z) (out : gmap string Z) : SE state (gmap string Z) :=
  let* s := se_get in read_bases legacy now (map_to_list (bases s)) out.

(** *** [getSelectedValues]: the keys grouped by stat, in the order of addresses. *)
Fixpoint add_group {A} (p : ptr) (x : A) (groups : list (ptr * list A)) : list (ptr * list A) :=
  match groups with
  | [] => [(p, [x])]
  | (p', xs) :: rest =>
      if Nat.eqb p p' then (p', xs ++ [x]) :: rest
      else if Nat.ltb p p' then (p, [x]) :: groups
      else (p', xs) :: add_group p x rest
  end.
Fixpoint group_keys (c : gmap string CounterMapEntry) (keys : list string)
    (groups : list (ptr * list (string * CounterMapEntry))) : list (ptr * list (string * CounterMapEntry)) :=
  match keys with
  | [] => groups
  | k :: keys' =>
      group_keys c keys'
        (match c !! k with Some cme => add_group (cme_stat cme) (k, cme) groups | None => groups end)
  end.
Fixpoint set_selected (legacy : bool) (es : QuantileStat.Estimates) (sinceCreation : Z)
    (l : list (string * CounterMapEntry)) (out : gmap string Z) : outcome (gmap string Z) :=
  match l with
  | [] => Ret out
  | (k, cme) :: l' =>
      match level_estimate (cme_window cme) es with
      | None => set_selected legacy es sinceCreation l' out
      | Some qe =>
          let duration := match cme_window cme with Some n => Z.min n sinceCreation | None => sinceCreation end in
          match extractValue legacy (cme_statDef cme) qe duration with
          | Throw x => Throw x
          | Ret v => set_selected legacy es sinceCreation l' (<[k := v]> out)
          end
      end
  end.
Fixpoint read_groups (legacy : bool) (now : Z) (groups : list (ptr * list (string * CounterMapEntry)))
    (out : gmap string Z) : SE state (gmap string Z) :=
  match groups with
  | [] => se_ret out
  | (p, l) :: rest =>
      let* es := on_stat p (QuantileStat.getEstimates (percents ((fun kc => cme_statDef kc.2) <$> l)) now) in
      let* q := read_stat p in
      let* out' := lift (set_selected legacy es (since now (QuantileStat.creationTime q)) l out) in
      read_groups legacy now rest out'
  end.
Definition getSelectedValues (legacy : bool) (now : Z) (keys : list string) (out : gmap string Z)
  : SE state (gmap string Z) :=
  let* s := se_get in read_groups legacy now (group_keys (RegexUtil.map (counters_ s)) keys []) out.

(** ** Keys *)
Definition get (name : string) (s : state) : option ptr := sme_stat <$> bases s !! name.
Definition contains (name : string) (s : state) : bool :=
  bool_decide (is_Some (RegexUtil.map (counters_ s) !! name)).
Definition getKeys (s : state) : list string := (map_to_list (RegexUtil.map (counters_ s))).*1.
Definition getNumKeys (s : state) : nat := size (RegexUtil.map (counters_ s)).
(** [gaps] is what other threads do between the lock regions. *)
Definition getRegexKeys (gaps : nat -> syncmap -> syncmap) (r : regex) (now : time_point) : SE state (list string) :=
  let* found := on_counters (RegexUtil.cachedFindMatchesSnapshot (gaps 0%nat) (gaps 1%nat) (gaps 2%nat) r now None) in
  se_ret found.1.
Definition trimRegexCache (expiry : time_point) (s : state) : state :=
  with_counters (RegexUtil.cachedTrimStale expiry (counters_ s)) s.

(** [getSnapshotEntry]: the name, the digests and the definitions. *)
Definition getSnapshotEntry (name : string) (now : Z)
  : SE state (option (string * QuantileStat.Snapshot * list StatDef)) :=
  let* s := se_get in
  match bases s !! name with
  | None => se_ret None
  | Some sme =>
      let* snap := on_stat (sme_stat sme) (QuantileStat.getSnapshot now) in
      se_ret (Some (name, snap, sme_statDefs sme))
  end.

(** ** Registration *)

(** The keys of one definition, all-time first, and of a base. *)
Definition levels (lengths : list Z) : list (option Z) := None :: (Some <$> lengths).
Definition def_keys (name : string) (lengths : list Z) (d : StatDef) : list (string * option Z) :=
  (fun w => (makeKey name d w, w)) <$> levels lengths.
Definition counterMapEntries (name : string) (p : ptr) (lengths : list Z) (ds : list StatDef)
  : list (string * CounterMapEntry) :=
  flat_map (fun d => (fun kw => (kw.1, Entry p d kw.2)) <$> def_keys name lengths d) ds.

Fixpoint add_entries (l : list (string * CounterMapEntry)) : SE syncmap unit :=
  match l with
  | [] => se_ret tt
  | (k, e) :: l' => let* _ := RegexUtil.cachedAddString k e in add_entries l'
  end.

(** [registerQuantileStat]: [gap] is what other threads do between the shared
    lock and the exclusive one. *)
Definition registerQuantileStat (gap : state -> state) (name : string) (p : ptr) (ds : list StatDef) : SE state ptr :=
  let* s := se_get in
  match bases s !! name with
  | Some b => se_ret (sme_stat b)
  | None =>
      let* q := read_stat p in
      let entries := counterMapEntries name p (QuantileStat.getSlidingWindowLengths q) ds in
      let* s := se_get in
      se_put (gap s) >>>
      let* s := se_get in
      match bases s !! name with
      | Some b => se_ret (sme_stat b)
      | None =>
          on_counters (add_entries entries) >>>
          let* s := se_get in
          se_put (with_bases (<[name := Base p ds]> (bases s)) s) >>> se_ret p
      end
  end.

(** [forgetStatsFor]: each key of the base, if it is there. *)
Definition erase_key (k : string) (c : syncmap) : syncmap :=
  match RegexUtil.map c !! k with Some _ => RegexUtil.cachedEraseString k c | None => c end.
Definition base_keys (name : string) (lengths : list Z) (ds : list StatDef) : list string :=
  flat_map (fun d => (def_keys name lengths d).*1) ds.
Definition forgetStatsFor (name : string) : SE state unit :=
  let* s := se_get in
  match bases s !! name with
  | None => se_ret tt
  | Some b =>
      let* q := read_stat (sme_stat b) in
      let keys := base_keys name (QuantileStat.getSlidingWindowLengths q) (sme_statDefs b) in
      let* s := se_get in
      se_put (with_bases (delete name (bases s))
        (with_counters (foldl (fun c k => erase_key k c) (counters_ s) keys) s))
  end.
Definition forgetAll (s : state) : state := with_bases ∅ (with_counters (RegexUtil.cachedClearStrings (counters_ s)) s).

(** [flushAll]: the stat of every entry, as often as it has entries. *)
Definition flush_stat (p : ptr) (h : gmap ptr (QuantileStat.stat E)) : gmap ptr (QuantileStat.stat E) :=
  match h !! p with Some q => <[p := QuantileStat.flush q]> h | None => h end.
Definition flushAll (s : state) : state :=
  with_stats (foldl (fun h ke => flush_stat (cme_stat ke.2) h) (stats s)
    (map_to_list (RegexUtil.map (counters_ s)))) s.

(** [std::make_shared<QuantileStat>] and [addValue] through a shared pointer. *)
Definition make_stat (defs : list (Z * Z)) (now : Z) : SE state ptr := fun s =>
  let p := fresh (dom (stats s)) in (Ret p, with_stats (<[p := QuantileStat.make defs now]> (stats s)) s).
Definition add_to (p : ptr) (value : double) (now : Z) : SE state unit :=
  on_stat p (fun q => (Ret tt, QuantileStat.addValue value now q)).
Definition empty_state : state := State ∅ RegexUtil.empty_syncmap ∅.
End Model.
Arguments state E M : clear implicits.
End QuantileStatMap.
