(* ===== verification/QuantileCorrect.v ===== *)
(** * QuantileCorrect: the counters of a quantile map are those of its bases

    The invariant of [QuantileStatMap]: the entry under a name is the first one
    that the base the name belongs to generates under it.  Every operation that
    returns keeps it and changes the bases as its name says.  First, whose counter a
    name is: the base can be read off the name, so two bases never share a counter;
    two definitions of one base can. *)
From S2P Require Import Prelude RegexUtil ExportType Timeseries CounterNames QuantileStat QuantileStatMap.
From Stdlib Require Import ZArith Lia Ascii String SpecFloat.
From stdpp Require Import base gmap list strings.

Open Scope Z_scope.
Open Scope fb303_scope.
Import QuantileStatMap.

(** ** Splitting a name *)
Lemma split_kind_app l1 l2 :
  split_kind l1 = None -> split_kind l2 = None -> starts_lower l2 = false -> split_kind (l1 ++ l2) = None.
Proof.
  intros H1 H2 Hs. induction l1 as [|c l1 IH]; [done|]. simpl in *.
  destruct (split_kind l1) as [[a b]|]; [done|]. rewrite IH by done.
  destruct l1 as [|c' l1]; simpl in *; [by rewrite Hs, andb_false_r|]. by destruct (_ && _).
Qed.

Lemma split_kind_at l1 l2 :
  split_kind l2 = None -> starts_lower l2 = true -> split_kind (l1 ++ dot :: l2) = Some (l1, l2).
Proof.
  intros H2 Hs. induction l1 as [|c l1 IH]; simpl.
  - by rewrite H2, Hs.
  - by rewrite IH.
Qed.

Lemma numeral_not_lower c : numeral c = true -> lower_case c = false.
Proof. unfold numeral, lower_case. destruct (Ascii.eqb_spec c "-"%char) as [->|]; [done|]. simpl.
  rewrite andb_true_iff, N.leb_le, N.leb_le, andb_false_iff, N.leb_gt, N.leb_gt. lia. Qed.
Lemma numeral_not_dot c : numeral c = true -> Ascii.eqb c dot = false.
Proof. intros Hn. destruct (Ascii.eqb_spec c dot) as [->|]; [by vm_compute in Hn|done]. Qed.

Lemma split_kind_no_dot l : forallb (fun c => negb (Ascii.eqb c dot)) l = true -> split_kind l = None.
Proof.
  induction l as [|c l IH]; simpl; [done|]. intros [Hc Hl]%andb_true_iff. rewrite IH by done.
  apply negb_true_iff in Hc. by rewrite Hc.
Qed.

Section Names.
Context `{NumberFormat}.

Lemma window_suffix_split w :
  split_kind (list_ascii_of_string (window_suffix w)) = None /\
  starts_lower (list_ascii_of_string (window_suffix w)) = false.
Proof.
  destruct w as [n|]; [|done]. unfold window_suffix. simpl. split; [|done].
  rewrite split_kind_no_dot by apply decimal_no_dot. destruct (decimal_head n) as (c & t & -> & Hc). simpl.
  by rewrite numeral_not_lower, ?andb_false_r.
Qed.

Lemma kind_name_split d :
  split_kind (list_ascii_of_string (kind_name d)) = None /\ starts_lower (list_ascii_of_string (kind_name d)) = true.
Proof.
  unfold kind_name. destruct (sd_type d); try (split; reflexivity). split; [|done].
  rewrite chars_app. simpl. by rewrite format_g_dot.
Qed.

(** The base of a name. *)
Definition base_of (key : string) : option string :=
  match split_kind (list_ascii_of_string key) with
  | Some (a, _) => Some (string_of_list_ascii a)
  | None => None
  end.

Lemma base_of_makeKey base d w : base_of (makeKey base d w) = Some base.
Proof.
  unfold base_of, makeKey. destruct (kind_name_split d) as [Hk Hl], (window_suffix_split w) as [Hw Hs].
  rewrite !chars_app. simpl. rewrite split_kind_at.
  - by rewrite string_of_list_ascii_of_string.
  - by apply split_kind_app.
  - by destruct (list_ascii_of_string (kind_name d)).
Qed.
End Names.

(** ** First entry under a key *)
Fixpoint first_entry {A} (k : string) (l : list (string * A)) : option A :=
  match l with
  | [] => None
  | (k', a) :: l' => if bool_decide (k' = k) then Some a else first_entry k l'
  end.
Lemma first_entry_None {A} k (l : list (string * A)) : k ∉ l.*1 -> first_entry k l = None.
Proof.
  induction l as [|[k' a] l IH]; simpl; [done|]. rewrite not_elem_of_cons. intros [Hk Hl].
  rewrite bool_decide_eq_false_2 by congruence. by apply IH.
Qed.
Lemma first_entry_app {A} k (l1 l2 : list (string * A)) :
  first_entry k (l1 ++ l2) = match first_entry k l1 with Some a => Some a | None => first_entry k l2 end.
Proof. induction l1 as [|[k' a] l1 IH]; simpl; [done|]. by case_bool_decide. Qed.

Section Correct.
Context {E : Type} `{QuantileEstimator E} {M : Type} `{RegexMatchCache M} `{NumberFormat}.
Abbreviation syncmap := (RegexUtil.syncmap (M := M) (V := CounterMapEntry)) (only parsing).
Abbreviation state := (state E M) (only parsing).

Lemma entries_keys name p lengths ds :
  (counterMapEntries name p lengths ds).*1 = base_keys name lengths ds.
Proof.
  unfold counterMapEntries, base_keys. induction ds as [|d ds IH]; [done|]. cbn [flat_map].
  rewrite fmap_app, IH. f_equal. rewrite <- !list_fmap_compose. apply list_fmap_ext. by intros i [k w] _.
Qed.
Lemma base_keys_base name lengths ds k : k ∈ base_keys name lengths ds -> base_of k = Some name.
Proof.
  unfold base_keys. rewrite list_elem_of_In, in_flat_map. intros (d & _ & Hk%list_elem_of_In).
  unfold def_keys in Hk. rewrite <- list_fmap_compose in Hk. apply list_elem_of_fmap in Hk as (w & -> & _).
  apply base_of_makeKey.
Qed.

(** What the bases say is under a key. *)
Definition expected (s : state) (k : string) : option CounterMapEntry :=
  name ← base_of k; b ← bases s !! name; q ← stats s !! sme_stat b;
  first_entry k (counterMapEntries name (sme_stat b) (QuantileStat.getSlidingWindowLengths q) (sme_statDefs b)).

Record inv (s : state) : Prop := {
  inv_stats : forall p q, stats s !! p = Some q -> QuantileStat.wf q;
  inv_bases : forall name b, bases s !! name = Some b -> is_Some (stats s !! sme_stat b);
  inv_entries : forall k, RegexUtil.map (counters_ s) !! k = expected s k;
  inv_cache : RegexUtil.lockstep (counters_ s)
}.

(** Stats are never dropped and keep their windows. *)
Definition keeps (s s' : state) : Prop :=
  forall p q, stats s !! p = Some q -> exists q', stats s' !! p = Some q' /\
    QuantileStat.slidingWindowVec_ q' = QuantileStat.slidingWindowVec_ q.
Lemma keeps_refl s : keeps s s.
Proof. intros p q ->. eauto. Qed.
Lemma keeps_trans s1 s2 s3 : keeps s1 s2 -> keeps s2 s3 -> keeps s1 s3.
Proof. intros H12 H23 p q Hp. destruct (H12 p q Hp) as (q' & Hq' & ->%eq_sym). by apply H23. Qed.

Lemma expected_keeps s s' k :
  keeps s s' -> bases s' = bases s -> (forall name b, bases s !! name = Some b -> is_Some (stats s !! sme_stat b)) ->
  expected s' k = expected s k.
Proof.
  intros Hk Hb Hs. unfold expected. rewrite Hb. destruct (base_of k) as [name|]; [|done]. simpl.
  destruct (bases s !! name) as [b|] eqn:Eb; [|done]. simpl. destruct (Hs _ _ Eb) as [q Hq].
  destruct (Hk _ _ Hq) as (q' & -> & Ev). rewrite Hq. simpl. unfold QuantileStat.getSlidingWindowLengths. by rewrite Ev.
Qed.

(** Operations that leave the map alone. *)
Lemma inv_same s s' :
  inv s -> keeps s s' -> bases s' = bases s -> RegexUtil.map (counters_ s') = RegexUtil.map (counters_ s) ->
  RegexUtil.lockstep (counters_ s') -> (forall p q, stats s' !! p = Some q -> QuantileStat.wf q) -> inv s'.
Proof.
  intros [Hs Hb He _] Hk Eb Ec Hl Hw. split; [done| | |done].
  - intros name b. rewrite Eb. intros Hn. destruct (Hb _ _ Hn) as [q Hq]. destruct (Hk _ _ Hq) as (q' & -> & _). eauto.
  - intros k. rewrite Ec, He. symmetry. by apply expected_keeps.
Qed.

Lemma keeps_insert s p q q' :
  stats s !! p = Some q -> QuantileStat.slidingWindowVec_ q' = QuantileStat.slidingWindowVec_ q ->
  keeps s (with_stats (<[p := q']> (stats s)) s).
Proof.
  intros Hp Ev p' q0 Hq0. simpl. destruct (decide (p' = p)) as [->|Hne].
  - rewrite lookup_insert_eq. exists q'. split; [done|]. congruence.
  - rewrite lookup_insert_ne by done. eauto.
Qed.

(** Setting one stat. *)
Lemma inv_set_stat s p q q' :
  inv s -> stats s !! p = Some q -> QuantileStat.slidingWindowVec_ q' = QuantileStat.slidingWindowVec_ q ->
  QuantileStat.wf q' -> inv (with_stats (<[p := q']> (stats s)) s) /\ keeps s (with_stats (<[p := q']> (stats s)) s).
Proof.
  intros Hi Hp Ev Hw. split; [|by apply (keeps_insert s p q)].
  apply (inv_same s); try done; [by apply (keeps_insert s p q)|apply (inv_cache s Hi)|].
  intros p' q0. simpl. destruct (decide (p' = p)) as [->|Hne].
  - rewrite lookup_insert_eq. congruence.
  - rewrite lookup_insert_ne by done. apply (inv_stats s Hi).
Qed.

(** ** Registration *)
Lemma add_entries_effect l (c c' : syncmap) :
  RegexUtil.lockstep c -> add_entries l c = (Ret tt, c') ->
  RegexUtil.lockstep c' /\
  forall k, RegexUtil.map c' !! k = match RegexUtil.map c !! k with Some e => Some e | None => first_entry k l end.
Proof.
  revert c. induction l as [|[k0 e0] l IH]; intros c Hl; simpl.
  { intros [= <-]. split; [done|]. intros k. by destruct (RegexUtil.map c !! k). }
  unfold se_bind. pose proof (RegexUtil.lockstep_add k0 e0 c Hl) as Hl1.
  destruct (RegexUtil.cachedAddString k0 e0 c) as [[b|x] c1] eqn:E1; [|done]. simpl in Hl1.
  intros E2. destruct (IH c1 Hl1 E2) as [Hl' Hm]. split; [done|]. intros k. rewrite Hm.
  assert (E3 : RegexUtil.map c1 = match RegexUtil.map c !! k0 with Some _ => RegexUtil.map c | None => <[k0 := e0]> (RegexUtil.map c) end).
  { unfold RegexUtil.cachedAddString, se_bind, se_get, se_put, se_ret, se_throw in E1.
    destruct (RegexUtil.map c !! k0); [by injection E1 as _ <-|].
    destruct (addString k0 (RegexUtil.matches c)) as [[?|?] ?]; by simplify_eq/=. }
  rewrite E3. destruct (RegexUtil.map c !! k0) as [e|] eqn:E0.
  - case_bool_decide as Hk; [subst; by rewrite E0|done].
  - case_bool_decide as Hk; [subst; by rewrite lookup_insert_eq, E0|]. by rewrite lookup_insert_ne by done.
Qed.

(** No counter belongs to a base that is not there. *)
Lemma absent_entries s name k :
  inv s -> bases s !! name = None -> base_of k = Some name -> RegexUtil.map (counters_ s) !! k = None.
Proof. intros Hi Hn Hb. rewrite (inv_entries s Hi). unfold expected. rewrite Hb. simpl. by rewrite Hn. Qed.

Lemma expected_other_bases s s' name k :
  stats s' = stats s -> (forall n, n <> name -> bases s' !! n = bases s !! n) -> base_of k <> Some name ->
  expected s' k = expected s k.
Proof.
  intros Es Hb Hk. unfold expected. destruct (base_of k) as [n|]; [|done]. simpl.
  rewrite Hb, Es by congruence. done.
Qed.

Lemma inv_register s s' name p q ds :
  inv s -> stats s !! p = Some q -> bases s !! name = None ->
  on_counters (add_entries (counterMapEntries name p (QuantileStat.getSlidingWindowLengths q) ds)) s = (Ret tt, s') ->
  inv (with_bases (<[name := Base p ds]> (bases s')) s') /\ stats s' = stats s /\ bases s' = bases s.
Proof.
  intros Hi Hp Hn Er. unfold on_counters in Er.
  destruct (add_entries _ (counters_ s)) as [[[]|x] c] eqn:Ea; simplify_eq/=. split; [|done].
  destruct (add_entries_effect _ _ _ (inv_cache s Hi) Ea) as [Hl Hm]. split; simpl; [apply (inv_stats s Hi)| | |done].
  - intros n b. destruct (decide (n = name)) as [->|Hne].
    + rewrite lookup_insert_eq. intros [= <-]. simpl. eauto.
    + rewrite lookup_insert_ne by done. apply (inv_bases s Hi).
  - intros k. rewrite Hm. destruct (decide (base_of k = Some name)) as [Hb|Hb].
    + rewrite (absent_entries s name) by done. unfold expected. rewrite Hb. simpl. rewrite lookup_insert_eq. simpl.
      by rewrite Hp.
    + rewrite first_entry_None.
      2: { rewrite entries_keys. intros Hk. by apply base_keys_base in Hk. }
      rewrite (expected_other_bases s _ name) by (done || intros; simpl; by rewrite lookup_insert_ne).
      rewrite (inv_entries s Hi). by destruct (expected s k).
Qed.

(** ** Forgetting *)
Lemma erase_keys_effect ks (c : syncmap) :
  RegexUtil.lockstep c ->
  let c' := foldl (fun c k => erase_key k c) c ks in
  RegexUtil.lockstep c' /\
  forall k, RegexUtil.map c' !! k = if bool_decide (k ∈ ks) then None else RegexUtil.map c !! k.
Proof.
  revert c. induction ks as [|k0 ks IH]; intros c Hl; cbn [foldl].
  { split; [done|]. intros k. by rewrite bool_decide_eq_false_2 by apply not_elem_of_nil. }
  assert (Hl1 : RegexUtil.lockstep (erase_key k0 c)).
  { unfold erase_key. destruct (RegexUtil.map c !! k0); [by apply RegexUtil.lockstep_erase|done]. }
  assert (E1 : RegexUtil.map (erase_key k0 c) = delete k0 (RegexUtil.map c)).
  { unfold erase_key. destruct (RegexUtil.map c !! k0) eqn:E0; [done|]. by rewrite delete_id. }
  destruct (IH _ Hl1) as [Hl' Hm]. split; [done|]. intros k. rewrite Hm, E1.
  destruct (decide (k = k0)) as [->|Hne].
  - rewrite lookup_delete_eq, (bool_decide_eq_true_2 (k0 ∈ k0 :: ks)) by left. by case_bool_decide.
  - rewrite lookup_delete_ne by done. rewrite (bool_decide_ext (k ∈ k0 :: ks) (k ∈ ks)); [done|].
    rewrite elem_of_cons. naive_solver.
Qed.

Lemma inv_forget s name b q :
  inv s -> bases s !! name = Some b -> stats s !! sme_stat b = Some q ->
  inv (with_bases (delete name (bases s)) (with_counters
    (foldl (fun c k => erase_key k c) (counters_ s)
       (base_keys name (QuantileStat.getSlidingWindowLengths q) (sme_statDefs b))) s)).
Proof.
  intros Hi Hb Hq. set (keys := base_keys name _ _).
  destruct (erase_keys_effect keys (counters_ s) (inv_cache s Hi)) as [Hl Hm].
  split; simpl; [apply (inv_stats s Hi)| | |done].
  - intros n b'. destruct (decide (n = name)) as [->|Hne]; [by rewrite lookup_delete_eq|].
    rewrite lookup_delete_ne by done. apply (inv_bases s Hi).
  - intros k. rewrite Hm. case_bool_decide as Hk.
    + apply base_keys_base in Hk. unfold expected. rewrite Hk. simpl. by rewrite lookup_delete_eq.
    + rewrite (inv_entries s Hi). destruct (decide (base_of k = Some name)) as [Hbk|Hbk].
      * unfold expected. rewrite Hbk. simpl. rewrite Hb, lookup_delete_eq. simpl. rewrite Hq. simpl.
        apply first_entry_None. by rewrite entries_keys.
      * symmetry. apply (expected_other_bases s _ name); [done| |done]. intros n Hne. simpl. by rewrite lookup_delete_ne.
Qed.

Lemma inv_forgetAll s : inv s -> inv (forgetAll s).
Proof.
  intros Hi. split; simpl; [apply (inv_stats s Hi)|done| |apply RegexUtil.lockstep_clear, (inv_cache s Hi)].
  intros k. rewrite lookup_empty. unfold expected. simpl. destruct (base_of k); simpl; [|done]. by rewrite lookup_empty.
Qed.

Lemma inv_empty : inv empty_state.
Proof.
  split; simpl; [done..| |apply RegexUtil.lockstep_empty]. intros k. rewrite lookup_empty. unfold expected. simpl.
  destruct (base_of k); simpl; [|done]. by rewrite lookup_empty.
Qed.
End Correct.
