(* ===== verification/QuantileReads.v ===== *)
(** * QuantileReads: the three ways to read a quantile counter agree

    [getValue], [getSelectedValues] and [getValues] of [QuantileStatMap] compute
    the value of a counter along three different paths; here each is shown to
    return the one value [value_at] that the counter's entry defines. *)
From S2P Require Import Prelude RegexUtil ExportType Timeseries CounterNames QuantileStat QuantileStatMap QuantileCorrect.
From Stdlib Require Import ZArith Lia Ascii String SpecFloat.
From stdpp Require Import base gmap list strings.

Open Scope Z_scope.
Open Scope fb303_scope.
Import QuantileStatMap.

Section Reads.
Context {E : Type} `{QuantileEstimator E} {M : Type} `{RegexMatchCache M} `{NumberFormat}.
Abbreviation state := (state E M) (only parsing).
Abbreviation stat := (QuantileStat.stat E) (only parsing).
Context (legacy : bool) (now : Z).

(** ** The value of a counter *)
Definition view_value (d : StatDef) (v : level_view) (duration : Z) : Z :=
  clamp_cast
    match sd_type d with
    | PERCENT => lv_quantile v (sd_quantile d)
    | SUM => lv_sum v
    | COUNT => lv_count v
    | AVG => if SFltb (S754_zero false) (lv_count v) then double_div (lv_sum v) (lv_count v) else S754_zero false
    | RATE =>
        if 0 <? duration then double_div (if legacy then lv_count v else lv_sum v) (double_of_Z duration)
        else lv_count v
    end.

(** The first window of that length, counting from [i]. *)
Fixpoint first_window (n : Z) (ws : list QuantileStat.SlidingWindow) (i : nat) : option nat :=
  match ws with
  | [] => None
  | w :: ws' => if QuantileStat.slidingWindowLength w =? n then Some i else first_window n ws' (S i)
  end.
Definition level_of (w : option Z) (q : stat) : option level_view :=
  match w with
  | None => Some (qe_allTime (QuantileStat.estimator_ q) now)
  | Some n => qe_window (QuantileStat.estimator_ q) now <$> first_window n (QuantileStat.slidingWindowVec_ q) 0
  end.
Definition duration_of (w : option Z) (q : stat) : Z :=
  match w with
  | None => since now (QuantileStat.creationTime q)
  | Some n => Z.min n (since now (QuantileStat.creationTime q))
  end.
Definition entry_value (cme : CounterMapEntry) (q : stat) : option Z :=
  (fun v => view_value (cme_statDef cme) v (duration_of (cme_window cme) q)) <$> level_of (cme_window cme) q.
Definition value_at (s : state) (k : string) : option Z :=
  cme ← RegexUtil.map (counters_ s) !! k; q ← stats s !! cme_stat cme; entry_value cme q.

(** ** Extraction *)
Definition ordered (x : double) : Prop := SFeqb x x = true.
Definition asked (qs : list double) (d : StatDef) : Prop :=
  sd_type d = PERCENT -> sd_quantile d ∈ qs /\ ordered (sd_quantile d).
Definition zero_blind (v : level_view) : Prop :=
  forall a b, SFeqb a b = true -> lv_quantile v a = lv_quantile v b.

Lemma find_quantile_eq x qs (v : level_view) :
  x ∈ qs -> ordered x -> zero_blind v -> find_quantile x ((fun q => (q, lv_quantile v q)) <$> qs) = Ret (lv_quantile v x).
Proof.
  intros Hx Ho Hz. induction qs as [|a qs IH]; [by apply elem_of_nil in Hx|]. simpl.
  destruct (SFeqb a x) eqn:Ea; [by rewrite (Hz a x)|]. apply elem_of_cons in Hx as [->|Hx]; [|by apply IH].
  unfold ordered in Ho. congruence.
Qed.

Lemma extractValue_eq d qs v duration :
  asked qs d -> zero_blind v -> extractValue legacy d (estimates_of qs v) duration = Ret (view_value d v duration).
Proof.
  intros Ha Hz. unfold extractValue, extractValueImpl, view_value, asked in *. destruct (sd_type d); simpl; try done.
  destruct Ha as [Hq Ho]; [done|]. by rewrite find_quantile_eq.
Qed.

Lemma asked_percents d ds : d ∈ ds -> ordered (sd_quantile d) -> asked (percents ds) d.
Proof.
  intros Hd Ho Ht. split; [|done]. unfold percents. apply list_elem_of_fmap. exists d. split; [done|].
  apply list_elem_of_In, filter_In. split; [by apply list_elem_of_In|]. by apply bool_decide_eq_true.
Qed.

(** ** Windows *)
Lemma find_window_eq (f : nat -> QuantileEstimates) n ws i :
  find_window n (zip (f <$> seq i (length ws)) ws) = f <$> first_window n ws i.
Proof. revert i. induction ws as [|w ws IH]; intros i; simpl; [done|]. case_match; [done|]. apply IH. Qed.

Lemma level_estimate_eq qs w (q : stat) :
  level_estimate w (QuantileStat.estimates_at qs now q) = estimates_of qs <$> level_of w q.
Proof.
  destruct w as [n|]; [|done]. simpl. rewrite find_window_eq. by destruct (first_window n _ 0).
Qed.

Lemma level_zero_blind w (q : stat) v : level_of w q = Some v -> zero_blind v.
Proof.
  destruct w as [n|]; simpl; [destruct (first_window n _ 0) as [i|]; [|done]|]; intros [= <-] a b.
  - apply ql_window.
  - apply ql_allTime.
Qed.

Lemma statDuration_eq w (q : stat) : statDuration w (QuantileStat.creationTime q) now = duration_of w q.
Proof. unfold statDuration, duration_of. destruct w as [n|]; [|done]. case_if; lia. Qed.

(** ** Reading changes no view *)
Definition sees (s s' : state) : Prop :=
  bases s' = bases s /\ counters_ s' = counters_ s /\
  forall p, option_Forall2 (QuantileStat.same_view now) (stats s !! p) (stats s' !! p).
Definition stats_wf (s : state) : Prop := forall p q, stats s !! p = Some q -> QuantileStat.wf q.

Lemma sees_refl s : sees s s.
Proof.
  split; [done|]. split; [done|]. intros p. destruct (stats s !! p); constructor. apply QuantileStat.same_view_refl.
Qed.
Lemma sees_trans s1 s2 s3 : sees s1 s2 -> sees s2 s3 -> sees s1 s3.
Proof.
  intros (B1 & C1 & F1) (B2 & C2 & F2). split; [congruence|]. split; [congruence|]. intros p.
  specialize (F1 p). specialize (F2 p). destruct F1; inversion F2; constructor. by eapply QuantileStat.same_view_trans.
Qed.
Lemma sees_stat s s' p q :
  sees s s' -> stats s !! p = Some q -> exists q', stats s' !! p = Some q' /\ QuantileStat.same_view now q q'.
Proof. intros (_ & _ & Hf) Hp. specialize (Hf p). rewrite Hp in Hf. inversion Hf; subst. eauto. Qed.
Lemma sees_wf s s' : sees s s' -> stats_wf s -> stats_wf s'.
Proof.
  intros (_ & _ & Hf) Hw p q' Hp. specialize (Hf p). rewrite Hp in Hf. inversion Hf; subst.
  eapply QuantileStat.same_view_wf; [done|]. by apply (Hw p).
Qed.

Lemma same_view_level w (q q' : stat) : QuantileStat.same_view now q q' ->
  level_of w q' = level_of w q /\ duration_of w q' = duration_of w q.
Proof.
  intros (E1 & E2 & _ & E3 & E4). unfold level_of, duration_of, QuantileStat.creationTime. rewrite E1, E2, E3.
  destruct w as [n|]; [|done]. split; [|done]. destruct (first_window n _ 0); simpl; [by rewrite E4|done].
Qed.
Lemma sees_value s s' k : sees s s' -> value_at s' k = value_at s k.
Proof.
  intros Hs. unfold value_at. pose proof Hs as (_ & -> & Hf). destruct (RegexUtil.map _ !! k) as [cme|]; [|done]. simpl.
  specialize (Hf (cme_stat cme)). destruct Hf as [q q' Hq|]; [|done]. simpl. unfold entry_value.
  by destruct (same_view_level (cme_window cme) q q' Hq) as [-> ->].
Qed.

(** [getEstimates] on a stat of the store. *)
Lemma estimates_effect p q qs s :
  stats_wf s -> stats s !! p = Some q ->
  exists s', on_stat p (QuantileStat.getEstimates qs now) s = (Ret (QuantileStat.estimates_at qs now q), s') /\ sees s s'.
Proof.
  intros Hw Hp. unfold on_stat. rewrite Hp. destruct (QuantileStat.getEstimates_effect qs now q (Hw p q Hp)) as (q' & -> & Hv).
  eexists. split; [reflexivity|]. split; [done|]. split; [done|]. intros p'. simpl. destruct (decide (p' = p)) as [->|Hne].
  - rewrite Hp, lookup_insert_eq. by constructor.
  - rewrite lookup_insert_ne by done. destruct (stats s !! p'); constructor. apply QuantileStat.same_view_refl.
Qed.
Lemma read_stat_eq p q s : stats s !! p = Some q -> exists s', read_stat p s = (Ret q, s') /\ sees s s' /\ stats s' = stats s.
Proof.
  intros Hp. unfold read_stat, on_stat. rewrite Hp. unfold se_get. eexists. split; [reflexivity|].
  assert (Es : <[p := q]> (stats s) = stats s) by (by apply insert_id). split; [|done].
  split; [done|]. split; [done|]. intros p'. simpl. rewrite Es. destruct (stats s !! p'); constructor.
  apply QuantileStat.same_view_refl.
Qed.

(** The quantiles of the definitions are numbers. *)
Definition ordered_defs (s : state) : Prop :=
  forall name b d, bases s !! name = Some b -> d ∈ sme_statDefs b -> ordered (sd_quantile d).

Lemma first_entry_def k p d l cme :
  first_entry k ((fun kw => (kw.1, Entry p d kw.2)) <$> l) = Some cme ->
  cme_stat cme = p /\ cme_statDef cme = d /\ (k, cme_window cme) ∈ l.
Proof.
  induction l as [|[k0 w] l IH]; simpl; [done|]. case_bool_decide as Hk.
  - intros [= <-]. subst. split; [done|]. split; [done|]. left.
  - intros (? & ? & ?)%IH. split; [done|]. split; [done|]. by right.
Qed.

(** What the invariant says of one entry. *)
Lemma counter_facts s k cme :
  inv s -> RegexUtil.map (counters_ s) !! k = Some cme ->
  exists name b q, base_of k = Some name /\ bases s !! name = Some b /\ cme_stat cme = sme_stat b /\
    stats s !! cme_stat cme = Some q /\ cme_statDef cme ∈ sme_statDefs b /\
    first_entry k (counterMapEntries name (sme_stat b) (QuantileStat.getSlidingWindowLengths q) (sme_statDefs b)) = Some cme.
Proof.
  intros Hi. rewrite (inv_entries s Hi). unfold expected. destruct (base_of k) as [name|]; [|done]. simpl.
  destruct (bases s !! name) as [b|] eqn:Eb; [|done]. simpl.
  destruct (stats s !! sme_stat b) as [q|] eqn:Eq; [|done]. simpl. intros Ha.
  exists name, b, q. assert (Hin : cme_stat cme = sme_stat b /\ cme_statDef cme ∈ sme_statDefs b).
  { revert Ha. unfold counterMapEntries. generalize (sme_statDefs b) as ds. intros ds. induction ds as [|d ds IH]; [done|].
    cbn [flat_map]. rewrite first_entry_app. destruct (first_entry k (_ <$> def_keys name _ d)) as [e|] eqn:Ed.
    - intros [= ->]. destruct (first_entry_def _ _ _ _ _ Ed) as (-> & -> & _). split; [done|left].
    - intros Ha. destruct (IH Ha). split; [done|by right]. }
  destruct Hin as [-> Hd]. done.
Qed.

Lemma percents_single d : percents [d] = if bool_decide (sd_type d = PERCENT) then [sd_quantile d] else [].
Proof. unfold percents. simpl. by case_bool_decide. Qed.

(** ** [getValue] *)
Lemma getValue_reads s k :
  inv s -> ordered_defs s ->
  exists s', getValue legacy now now k s = (Ret (value_at s k), s') /\ sees s s'.
Proof.
  intros Hi Ho. unfold getValue, se_bind at 1, se_get at 1. unfold value_at at 1.
  destruct (RegexUtil.map (counters_ s) !! k) as [cme|] eqn:Ek; [|exists s; split; [done|apply sees_refl]].
  destruct (counter_facts s k cme Hi Ek) as (name & b & q & _ & Hb & _ & Hq & Hd & _). simpl. rewrite Hq. simpl.
  destruct (estimates_effect (cme_stat cme) q (percents [cme_statDef cme]) s (inv_stats s Hi) Hq) as (s1 & E1 & H1s).
  unfold se_bind at 1. rewrite E1, level_estimate_eq. unfold entry_value.
  destruct (level_of (cme_window cme) q) as [v|] eqn:Ev; [|exists s1; done]. simpl.
  destruct (sees_stat s s1 _ q H1s Hq) as (q1 & Hq1 & Hv1). destruct (read_stat_eq (cme_stat cme) q1 s1 Hq1) as (s2 & E2 & H2s & _).
  unfold se_bind at 1. rewrite E2. unfold se_bind, lift. rewrite statDuration_eq.
  destruct (same_view_level (cme_window cme) q q1 Hv1) as [_ ->].
  rewrite extractValue_eq; [exists s2; split; [done|by apply (sees_trans s s1)]| |by apply (level_zero_blind (cme_window cme) q)].
  apply asked_percents; [left|by apply (Ho name b)].
Qed.

(** ** [getSelectedValues] *)
Definition well_grouped (c : gmap string CounterMapEntry) (groups : list (nat * list (string * CounterMapEntry))) : Prop :=
  forall p l k cme, (p, l) ∈ groups -> (k, cme) ∈ l -> c !! k = Some cme /\ cme_stat cme = p.
Definition grouped (groups : list (nat * list (string * CounterMapEntry))) (k : string) : Prop :=
  exists p l cme, (p, l) ∈ groups /\ (k, cme) ∈ l.

Lemma add_group_in {A} p (x : A) groups p' x' :
  (exists l, (p', l) ∈ add_group p x groups /\ x' ∈ l) <-> (exists l, (p', l) ∈ groups /\ x' ∈ l) \/ (p' = p /\ x' = x).
Proof.
  induction groups as [|[p0 xs] groups IH]; simpl.
  - setoid_rewrite list_elem_of_singleton. split.
    + intros (l & [= -> ->] & Hx). apply list_elem_of_singleton in Hx. auto.
    + intros [(l & Hl & _)|[-> ->]]; [by apply elem_of_nil in Hl|]. exists [x]. split; [done|]. by left.
  - assert (Hc : forall p1 (rest : list (nat * list A)) ys, (exists l, (p', l) ∈ (p1, ys) :: rest /\ x' ∈ l) <->
      (p' = p1 /\ x' ∈ ys) \/ exists l, (p', l) ∈ rest /\ x' ∈ l).
    { intros p1 rest ys. setoid_rewrite elem_of_cons. split.
      - intros (l & [[= -> ->]|Hl] & Hx); [by left|right; by exists l].
      - intros [[-> Hx]|(l & Hl & Hx)]; [exists ys|exists l]; auto. }
    destruct (Nat.eqb_spec p p0) as [->|Hne]; [rewrite !Hc, elem_of_app, list_elem_of_singleton; tauto|].
    destruct (Nat.ltb p p0); [rewrite Hc, list_elem_of_singleton; tauto|].
    rewrite !Hc, IH. tauto.
Qed.

Lemma add_group_iff {A} p (x : A) groups (P : nat -> A -> Prop) :
  (forall p' l x', (p', l) ∈ add_group p x groups -> x' ∈ l -> P p' x') <->
  (forall p' l x', (p', l) ∈ groups -> x' ∈ l -> P p' x') /\ P p x.
Proof.
  pose proof (add_group_in p x groups) as Hg. split.
  - intros Ha. split.
    + intros p' l x' Hl Hx. destruct (proj2 (Hg p' x')) as (l' & Hl' & Hx'); [left; by exists l|]. by apply (Ha p' l').
    + destruct (proj2 (Hg p x)) as (l' & Hl' & Hx'); [by right|]. by apply (Ha p l').
  - intros [Ho Hp] p' l x' Hl Hx. destruct (proj1 (Hg p' x')) as [(l' & Hl' & Hx')|[-> ->]]; [by exists l| |done].
    by apply (Ho p' l').
Qed.

Definition occupied {A} (groups : list (nat * list A)) : Prop := Forall (fun pl => pl.2 <> []) groups.
Lemma occupied_add {A} p (x : A) groups : occupied groups -> occupied (add_group p x groups).
Proof.
  unfold occupied. induction 1 as [|[p0 xs] groups Hne Hall IH]; simpl; [by repeat constructor|].
  repeat case_if; repeat constructor; try done. by destruct xs.
Qed.
Lemma occupied_keys c keys groups : occupied groups -> occupied (group_keys c keys groups).
Proof.
  revert groups. induction keys as [|k keys IH]; intros groups Hg; simpl; [done|]. apply IH. case_match; [|done].
  by apply occupied_add.
Qed.

Lemma group_keys_spec c keys groups :
  well_grouped c groups ->
  well_grouped c (group_keys c keys groups) /\
  forall k, grouped (group_keys c keys groups) k <-> grouped groups k \/ (k ∈ keys /\ is_Some (c !! k)).
Proof.
  revert groups. induction keys as [|k0 keys IH]; intros groups Hw; simpl.
  { split; [done|]. intros k. rewrite elem_of_nil. tauto. }
  destruct (c !! k0) as [cme|] eqn:E0.
  - assert (Hw1 : well_grouped c (add_group (cme_stat cme) (k0, cme) groups)).
    { pose proof (proj2 (add_group_iff (cme_stat cme) (k0, cme) groups (fun p x => c !! x.1 = Some x.2 /\ cme_stat x.2 = p))) as Ha.
      intros p l k e Hl Hk. apply (Ha ltac:(split; [intros p' l' [k' e']; by apply Hw|done]) p l (k, e) Hl Hk). }
    destruct (IH _ Hw1) as [Hw2 Hg]. split; [done|]. intros k. rewrite Hg, elem_of_cons.
    assert (Hadd : grouped (add_group (cme_stat cme) (k0, cme) groups) k <-> grouped groups k \/ k = k0).
    { unfold grouped. pose proof (add_group_in (cme_stat cme) (k0, cme) groups) as Ha. split.
      - intros (p & l & e & Hl & Hk). destruct (proj1 (Ha p (k, e))) as [(l' & ? & ?)|[_ Ek]]; [by exists l|left|right; by injection Ek].
        by exists p, l', e.
      - intros [(p & l & e & Hl & Hk)| ->].
        + destruct (proj2 (Ha p (k, e))) as (l' & ? & ?); [left; by exists l|]. by exists p, l', e.
        + destruct (proj2 (Ha (cme_stat cme) (k0, cme))) as (l' & ? & ?); [by right|]. by exists (cme_stat cme), l', cme. }
    rewrite Hadd. assert (is_Some (c !! k0)) by eauto. split; [intros [[?| ->]|[? ?]]|intros [?|[[ ->|?] ?]]]; auto.
  - destruct (IH _ Hw) as [Hw2 Hg]. split; [done|]. intros k. rewrite Hg, elem_of_cons.
    split; [intros [?|[? ?]]; auto|]. intros [?|[[ ->|?] Hk]]; auto. rewrite E0 in Hk. by destruct Hk.
Qed.

(** What a path leaves under a key it reads. *)
Definition overwrite (v old : option Z) : option Z := match v with Some x => Some x | None => old end.
Lemma overwrite_again v old : overwrite v (overwrite v old) = overwrite v old.
Proof. by destruct v. Qed.

Lemma set_selected_eq qs (q : stat) l (val : string -> option Z) out :
  (forall k cme, (k, cme) ∈ l -> asked qs (cme_statDef cme) /\ val k = entry_value cme q) ->
  exists out', set_selected legacy (QuantileStat.estimates_at qs now q) (since now (QuantileStat.creationTime q)) l out = Ret out' /\
    forall k, out' !! k = if bool_decide (k ∈ l.*1) then overwrite (val k) (out !! k) else out !! k.
Proof.
  revert out. induction l as [|[k0 cme] l IH]; intros out Hl.
  { exists out. split; [done|]. intros k. by rewrite bool_decide_eq_false_2 by apply not_elem_of_nil. }
  destruct (Hl k0 cme) as [Hask Hval]; [by left|]. cbn [set_selected].
  change (((k0, cme) :: l).*1) with (k0 :: l.*1).
  assert (Hl' : forall k e, (k, e) ∈ l -> asked qs (cme_statDef e) /\ val k = entry_value e q) by (intros; apply Hl; by right).
  assert (Hstep : forall out1 : gmap string Z, out1 !! k0 = overwrite (val k0) (out !! k0) -> (forall k, k <> k0 -> out1 !! k = out !! k) ->
    forall out' : gmap string Z, (forall k, out' !! k = if bool_decide (k ∈ l.*1) then overwrite (val k) (out1 !! k) else out1 !! k) ->
    forall k, out' !! k = if bool_decide (k ∈ k0 :: l.*1) then overwrite (val k) (out !! k) else out !! k).
  { intros out1 H0' Hne out' Hout k. rewrite Hout. destruct (decide (k = k0)) as [->|Hk].
    - rewrite H0', (bool_decide_eq_true_2 (k0 ∈ k0 :: _)) by left. case_bool_decide; [apply overwrite_again|done].
    - rewrite Hne by done. rewrite (bool_decide_ext (k ∈ k0 :: l.*1) (k ∈ l.*1)); [done|]. rewrite elem_of_cons. tauto. }
  rewrite level_estimate_eq. unfold entry_value in Hval.
  destruct (level_of (cme_window cme) q) as [v|] eqn:Ev; simpl in *.
  - assert (Hz : zero_blind v) by (by apply (level_zero_blind (cme_window cme) q)).
    fold (duration_of (cme_window cme) q). rewrite extractValue_eq by done.
    destruct (IH (<[k0 := view_value (cme_statDef cme) v (duration_of (cme_window cme) q)]> out) Hl') as (out' & -> & Hout).
    exists out'. split; [done|]. revert Hout. apply Hstep; [by rewrite lookup_insert_eq, Hval|].
    intros k Hk. by rewrite lookup_insert_ne.
  - destruct (IH out Hl') as (out' & -> & Hout). exists out'. split; [done|]. revert Hout.
    apply Hstep; [by rewrite Hval|done].
Qed.

Lemma group_asked (l : list (string * CounterMapEntry)) k cme :
  (k, cme) ∈ l -> ordered (sd_quantile (cme_statDef cme)) ->
  asked (percents ((fun kc => cme_statDef kc.2) <$> l)) (cme_statDef cme).
Proof. intros Hk Ho. apply asked_percents; [|done]. apply list_elem_of_fmap. by exists (k, cme). Qed.

Lemma grouped_cons p l groups k : grouped ((p, l) :: groups) k <-> k ∈ l.*1 \/ grouped groups k.
Proof.
  unfold grouped. setoid_rewrite elem_of_cons. rewrite list_elem_of_fmap. split.
  - intros (p' & l' & cme & [[= -> ->]|Hl'] & Hk); [left; by exists (k, cme)|right; by exists p', l', cme].
  - intros [([k' cme] & -> & Hk)|(p' & l' & cme & Hl' & Hk)];
      [exists p, l, cme; by split; [left|]|exists p', l', cme; by split; [right|]].
Qed.
Lemma grouped_dec groups k : grouped groups k \/ ~ grouped groups k.
Proof.
  induction groups as [|[p l] groups IH].
  - right. intros (? & ? & ? & Hn & _). by apply elem_of_nil in Hn.
  - rewrite grouped_cons. destruct (decide (k ∈ l.*1)); tauto.
Qed.

Lemma read_groups_eq s groups out s1 :
  inv s -> ordered_defs s -> sees s s1 -> well_grouped (RegexUtil.map (counters_ s)) groups -> occupied groups ->
  exists out' s', read_groups legacy now groups out s1 = (Ret out', s') /\ sees s s' /\
    (forall k, grouped groups k -> out' !! k = overwrite (value_at s k) (out !! k)) /\
    (forall k, ~ grouped groups k -> out' !! k = out !! k).
Proof.
  intros Hi Ho. revert out s1. induction groups as [|[p l] groups IH]; intros out s1 Hs1 Hw Hocc.
  { exists out, s1. split; [done|]. split; [done|]. split; [|done]. intros k (? & ? & ? & Hn & _). by apply elem_of_nil in Hn. }
  apply Forall_cons in Hocc as [Hne Hocc]. destruct l as [|[k0 cme0] l0] eqn:El; [done|]. rewrite <- El in *. clear Hne.
  assert (Hin : forall k cme, (k, cme) ∈ l -> RegexUtil.map (counters_ s) !! k = Some cme /\ cme_stat cme = p)
    by (intros k cme; apply Hw; left).
  destruct (Hin k0 cme0) as [Hk0 Hp0]; [rewrite El; left|].
  destruct (counter_facts s k0 cme0 Hi Hk0) as (_ & _ & q & _ & _ & _ & Hq & _). rewrite Hp0 in Hq.
  destruct (sees_stat s s1 p q Hs1 Hq) as (q1 & Hq1 & Hv1). set (qs := percents ((fun kc => cme_statDef kc.2) <$> l)).
  destruct (estimates_effect p q1 qs s1 (sees_wf s s1 Hs1 (inv_stats s Hi)) Hq1) as (s2 & E2 & Hs2).
  destruct (sees_stat s1 s2 p q1 Hs2 Hq1) as (q2 & Hq2 & Hv2). destruct (read_stat_eq p q2 s2 Hq2) as (s3 & E3 & Hs3 & _).
  cbn [read_groups]. fold qs. unfold se_bind at 1. rewrite E2. unfold se_bind at 1. rewrite E3.
  rewrite (QuantileStat.same_view_estimates qs now q q1 Hv1). unfold QuantileStat.creationTime.
  replace (QuantileStat.creationTime_ q2) with (QuantileStat.creationTime_ q)
    by (destruct Hv1 as (_ & ? & _), Hv2 as (_ & ? & _); congruence).
  destruct (set_selected_eq qs q l (value_at s) out) as (out1 & E4 & Hout1).
  { intros k cme Hk. destruct (Hin k cme Hk) as [Hkm Hkp]. split.
    - apply (group_asked l k); [done|]. destruct (counter_facts s k cme Hi Hkm) as (name & b & _ & _ & Hb & _ & _ & Hd & _).
      by apply (Ho name b).
    - unfold value_at. rewrite Hkm. simpl. by rewrite Hkp, Hq. }
  unfold se_bind at 1, lift. unfold QuantileStat.creationTime in E4. rewrite E4.
  destruct (IH out1 s3) as (out' & s' & -> & Hs' & Hg & Hng); [|intros p' l' k cme Hl'; apply Hw; by right|done|].
  { apply (sees_trans s s2); [by apply (sees_trans s s1)|done]. }
  exists out', s'. split; [done|]. split; [done|].
  split; intros k; rewrite grouped_cons.
  - intros Hk. destruct (decide (k ∈ l.*1)) as [Hkl|Hkl].
    + specialize (Hout1 k). rewrite bool_decide_eq_true_2 in Hout1 by done.
      destruct (grouped_dec groups k) as [Hd|Hd]; [rewrite Hg, Hout1 by done; apply overwrite_again|by rewrite Hng, Hout1].
    + rewrite Hg by (by destruct Hk). specialize (Hout1 k). rewrite bool_decide_eq_false_2 in Hout1 by done. by rewrite Hout1.
  - intros Hk. specialize (Hout1 k). rewrite bool_decide_eq_false_2 in Hout1 by tauto. rewrite Hng, Hout1 by tauto. done.
Qed.

Lemma value_at_some s k v : value_at s k = Some v -> is_Some (RegexUtil.map (counters_ s) !! k).
Proof. unfold value_at. destruct (RegexUtil.map (counters_ s) !! k); [eauto|done]. Qed.

Lemma getSelectedValues_into s keys out0 :
  inv s -> ordered_defs s ->
  exists out s', getSelectedValues legacy now keys out0 s = (Ret out, s') /\ sees s s' /\
    forall k, out !! k = if bool_decide (k ∈ keys) then overwrite (value_at s k) (out0 !! k) else out0 !! k.
Proof.
  intros Hi Ho. unfold getSelectedValues, se_bind, se_get.
  destruct (group_keys_spec (RegexUtil.map (counters_ s)) keys []) as [Hw Hg];
    [intros ? ? ? ? Hn; by apply elem_of_nil in Hn|].
  destruct (read_groups_eq s _ out0 s Hi Ho (sees_refl s) Hw) as (out & s' & -> & Hs' & Hin & Hout);
    [apply occupied_keys; constructor|].
  exists out, s'. split; [done|]. split; [done|]. intros k.
  assert (Hn : ~ grouped [] k) by (intros (? & ? & ? & Hk & _); by apply elem_of_nil in Hk).
  destruct (RegexUtil.map (counters_ s) !! k) as [cme|] eqn:Ek.
  - assert (Hgk : grouped (group_keys (RegexUtil.map (counters_ s)) keys []) k <-> k ∈ keys).
    { rewrite Hg, Ek. split; [intros [?|[? _]]; done|]. intros Hk. right. eauto. }
    case_bool_decide as Hk; [by apply Hin; tauto|]. apply Hout. tauto.
  - assert (Hv : value_at s k = None) by (unfold value_at; by rewrite Ek).
    rewrite Hv, Hout; [by case_bool_decide|]. rewrite Hg, Ek. intros [?|[_ [? ?]]]; done.
Qed.

Lemma getSelectedValues_effect s keys :
  inv s -> ordered_defs s ->
  exists out s', getSelectedValues legacy now keys ∅ s = (Ret out, s') /\ sees s s' /\
    forall k, out !! k = if bool_decide (k ∈ keys) then value_at s k else None.
Proof.
  intros Hi Ho. destruct (getSelectedValues_into s keys ∅ Hi Ho) as (out & s' & Es & Hs & Hout).
  exists out, s'. split; [done|]. split; [done|]. intros k. rewrite Hout, lookup_empty. by destruct (value_at s k).
Qed.

(** ** [getValues] *)

(** What [addValues] emplaces for one definition, and for a base. *)
Definition window_values (name : string) (d : StatDef) (qs : list double) (q : stat)
    (ws : list QuantileStat.SlidingWindow) (i : nat) : list (string * Z) :=
  (fun iw => let n := QuantileStat.slidingWindowLength iw.2 in
     (makeKey name d (Some n), view_value d (qe_window (QuantileStat.estimator_ q) now iw.1) (duration_of (Some n) q))) <$>
    zip (seq i (length ws)) ws.
Lemma window_values_cons name d qs q w ws i :
  window_values name d qs q (w :: ws) i =
    (let n := QuantileStat.slidingWindowLength w in
     (makeKey name d (Some n), view_value d (qe_window (QuantileStat.estimator_ q) now i) (duration_of (Some n) q))) ::
    window_values name d qs q ws (S i).
Proof. done. Qed.
Definition def_values (name : string) (d : StatDef) (qs : list double) (q : stat) : list (string * Z) :=
  (makeKey name d None, view_value d (qe_allTime (QuantileStat.estimator_ q) now) (duration_of None q)) ::
    window_values name d qs q (QuantileStat.slidingWindowVec_ q) 0.

Definition emplace_all (l : list (string * Z)) (out : gmap string Z) : gmap string Z :=
  foldl (fun out kv => emplace kv.1 kv.2 out) out l.
Lemma emplace_all_lookup l out k :
  emplace_all l out !! k = match out !! k with Some v => Some v | None => first_entry k l end.
Proof.
  revert out. induction l as [|[k0 v0] l IH]; intros out; simpl; [by destruct (out !! k)|].
  rewrite IH. unfold emplace. destruct (out !! k0) as [v|] eqn:E0.
  - case_bool_decide as Hk; [subst; by rewrite E0|done].
  - case_bool_decide as Hk; [subst; by rewrite lookup_insert_eq, E0|]. by rewrite lookup_insert_ne.
Qed.

Lemma add_windows_eq name d qs (q : stat) ws i out :
  asked qs d ->
  add_windows legacy name d (since now (QuantileStat.creationTime q))
    (zip ((fun i => estimates_of qs (qe_window (QuantileStat.estimator_ q) now i)) <$> seq i (length ws)) ws) out =
    Ret (emplace_all (window_values name d qs q ws i) out).
Proof.
  intros Ha. revert i out. induction ws as [|w ws IH]; intros i out; simpl; [done|].
  rewrite extractValue_eq by (done || intros a b; apply ql_window). by rewrite IH.
Qed.

Lemma addValues_eq name d qs (q : stat) out :
  asked qs d ->
  addValues legacy name d (QuantileStat.estimates_at qs now q) (since now (QuantileStat.creationTime q)) out =
    Ret (emplace_all (def_values name d qs q) out).
Proof.
  intros Ha. unfold addValues. simpl. rewrite extractValue_eq by (done || intros a b; apply ql_allTime).
  by rewrite add_windows_eq.
Qed.

(** Entry by entry, what is emplaced is the value of the entry. *)
Lemma window_values_entry name p d qs (q : stat) ws i k :
  first_entry k (window_values name d qs q ws i) =
    match first_entry k ((fun w => (makeKey name d (Some (QuantileStat.slidingWindowLength w)),
                                     Entry p d (Some (QuantileStat.slidingWindowLength w)))) <$> ws) with
    | Some cme =>
        (fun j => view_value d (qe_window (QuantileStat.estimator_ q) now j) (duration_of (cme_window cme) q)) <$>
          match cme_window cme with Some n => first_window n ws i | None => None end
    | None => None
    end.
Proof.
  revert i. induction ws as [|w ws IH]; intros i; [done|]. rewrite window_values_cons. simpl.
  case_bool_decide as Hk; simpl; [by rewrite Z.eqb_refl|]. rewrite IH.
  destruct (first_entry k _) as [cme|] eqn:Ee; [|done].
  assert (Hn : exists n, cme_window cme = Some n /\ makeKey name d (Some n) = k).
  { revert Ee. generalize ws. intros ws'. induction ws' as [|w' ws' IH']; simpl; [done|].
    case_bool_decide as Hk'; [intros [= <-]; by eexists|apply IH']. }
  destruct Hn as (n & -> & Hn). simpl. destruct (Z.eqb_spec (QuantileStat.slidingWindowLength w) n); [congruence|done].
Qed.

Lemma def_values_entry name p d qs (q : stat) k :
  first_entry k (def_values name d qs q) =
    (cme ← first_entry k ((fun kw => (kw.1, Entry p d kw.2)) <$> def_keys name (QuantileStat.getSlidingWindowLengths q) d);
     entry_value cme q).
Proof.
  set (vec := QuantileStat.slidingWindowVec_ q).
  assert (El : (fun kw => (kw.1, Entry p d kw.2)) <$> def_keys name (QuantileStat.getSlidingWindowLengths q) d =
    (makeKey name d None, Entry p d None) ::
      ((fun w => (makeKey name d (Some (QuantileStat.slidingWindowLength w)),
                  Entry p d (Some (QuantileStat.slidingWindowLength w)))) <$> vec)).
  { unfold def_keys, levels, QuantileStat.getSlidingWindowLengths. rewrite !fmap_cons. f_equal.
    by rewrite <- !list_fmap_compose. }
  rewrite El. unfold def_values. simpl. case_bool_decide as Hk; [done|]. rewrite (window_values_entry name p). fold vec.
  destruct (first_entry k _) as [cme|] eqn:Ee; [|done]. simpl.
  assert (Hw : exists n, cme_window cme = Some n /\ cme_statDef cme = d).
  { revert Ee. generalize vec. intros ws. induction ws as [|w ws IH]; simpl; [done|].
    case_bool_decide; [intros [= <-]; by eexists|apply IH]. }
  destruct Hw as (n & Hn & Hd). unfold entry_value. rewrite Hn, Hd. simpl. fold vec. by destruct (first_window n vec 0).
Qed.

Definition base_values (name : string) (ds : list StatDef) (qs : list double) (q : stat) : list (string * Z) :=
  flat_map (fun d => def_values name d qs q) ds.

Lemma emplace_all_app l1 l2 out : emplace_all (l1 ++ l2) out = emplace_all l2 (emplace_all l1 out).
Proof. apply foldl_app. Qed.

Lemma add_defs_eq name ds qs (q : stat) out :
  (forall d, d ∈ ds -> asked qs d) ->
  add_defs legacy name ds (QuantileStat.estimates_at qs now q) (since now (QuantileStat.creationTime q)) out =
    Ret (emplace_all (base_values name ds qs q) out).
Proof.
  revert out. induction ds as [|d ds IH]; intros out Ha; [done|]. cbn [add_defs base_values flat_map].
  rewrite addValues_eq by (apply Ha; left). rewrite emplace_all_app. apply IH. intros d' Hd'. apply Ha. by right.
Qed.

Lemma level_of_entry (q : stat) p d l k cme :
  first_entry k ((fun kw => (kw.1, Entry p d kw.2)) <$> def_keys l (QuantileStat.getSlidingWindowLengths q) d) = Some cme ->
  is_Some (entry_value cme q).
Proof.
  intros (_ & _ & Hk)%first_entry_def. unfold def_keys in Hk. apply list_elem_of_fmap in Hk as (w & [= _ Ew] & Hw).
  unfold entry_value. rewrite Ew. destruct w as [n|]; [|eauto]. simpl.
  assert (Hf : is_Some (first_window n (QuantileStat.slidingWindowVec_ q) 0)).
  { unfold levels in Hw. apply elem_of_cons in Hw as [|Hw]; [done|]. apply list_elem_of_fmap in Hw as (n' & [= <-] & Hn).
    unfold QuantileStat.getSlidingWindowLengths in Hn. apply list_elem_of_fmap in Hn as (w & -> & Hw).
    generalize 0%nat. induction Hw as [w ws|w w' ws _ IH]; intros i; simpl; [rewrite Z.eqb_refl; eauto|].
    case_match; [eauto|by apply IH]. }
  destruct Hf as [i ->]. simpl. eauto.
Qed.

Lemma entry_level (q : stat) p name ds k cme :
  first_entry k (counterMapEntries name p (QuantileStat.getSlidingWindowLengths q) ds) = Some cme ->
  is_Some (entry_value cme q).
Proof.
  unfold counterMapEntries. induction ds as [|d ds IH]; [done|]. cbn [flat_map]. rewrite first_entry_app.
  destruct (first_entry k (_ <$> def_keys name _ d)) as [e|] eqn:Ee; [|apply IH].
  intros [= <-]. by apply (level_of_entry q p d name k).
Qed.

Lemma base_values_entry name p ds qs (q : stat) k :
  first_entry k (base_values name ds qs q) =
    (cme ← first_entry k (counterMapEntries name p (QuantileStat.getSlidingWindowLengths q) ds); entry_value cme q).
Proof.
  unfold base_values, counterMapEntries. induction ds as [|d ds IH]; [done|]. cbn [flat_map].
  rewrite !first_entry_app, (def_values_entry name p), IH.
  destruct (first_entry k (_ <$> def_keys name _ d)) as [cme|] eqn:Ee; [|done]. simpl.
  destruct (level_of_entry q p d name k cme Ee) as [v ->]. done.
Qed.

Lemma read_base_effect s s1 name b out :
  inv s -> ordered_defs s -> sees s s1 -> bases s !! name = Some b ->
  exists out' s', read_base legacy now name b out s1 = (Ret out', s') /\ sees s s' /\
    forall k, out' !! k = match out !! k with
      | Some v => Some v
      | None => if bool_decide (base_of k = Some name) then value_at s k else None
      end.
Proof.
  intros Hi Ho Hs1 Hb. destruct (inv_bases s Hi name b Hb) as [q Hq].
  destruct (sees_stat s s1 _ q Hs1 Hq) as (q1 & Hq1 & Hv1). set (qs := percents (sme_statDefs b)).
  destruct (estimates_effect _ q1 qs s1 (sees_wf s s1 Hs1 (inv_stats s Hi)) Hq1) as (s2 & E2 & Hs2).
  destruct (sees_stat s1 s2 _ q1 Hs2 Hq1) as (q2 & Hq2 & Hv2). destruct (read_stat_eq _ q2 s2 Hq2) as (s3 & E3 & Hs3 & _).
  unfold read_base. fold qs. unfold se_bind at 1. rewrite E2. unfold se_bind at 1. rewrite E3.
  rewrite (QuantileStat.same_view_estimates qs now q q1 Hv1). unfold QuantileStat.creationTime.
  replace (QuantileStat.creationTime_ q2) with (QuantileStat.creationTime_ q)
    by (destruct Hv1 as (_ & ? & _), Hv2 as (_ & ? & _); congruence).
  unfold lift. pose proof (add_defs_eq name (sme_statDefs b) qs q out) as Ea. unfold QuantileStat.creationTime in Ea.
  rewrite Ea by (intros d Hd; apply asked_percents; [done|by apply (Ho name b)]).
  eexists _, s3. split; [reflexivity|]. split; [by apply (sees_trans s s2); [apply (sees_trans s s1)|]|]. intros k.
  rewrite emplace_all_lookup. destruct (out !! k); [done|]. rewrite (base_values_entry name (sme_stat b)).
  unfold value_at. rewrite (inv_entries s Hi). unfold expected. case_bool_decide as Hk.
  - rewrite Hk. simpl. rewrite Hb. simpl. rewrite Hq. simpl.
    destruct (first_entry k _) as [cme|] eqn:Ee; [|done]. simpl.
    assert (Hc : RegexUtil.map (counters_ s) !! k = Some cme)
      by (rewrite (inv_entries s Hi); unfold expected; rewrite Hk; simpl; rewrite Hb; simpl; by rewrite Hq).
    destruct (counter_facts s k cme Hi Hc) as (name' & b' & q' & Hk' & Hb' & -> & Hq' & _). simplify_eq. by rewrite Hq.
  - rewrite first_entry_None; [done|]. rewrite entries_keys. intros Hin. by apply base_keys_base in Hin.
Qed.

Lemma read_bases_effect s l out s1 :
  inv s -> ordered_defs s -> sees s s1 -> Forall (fun nb => bases s !! nb.1 = Some nb.2) l ->
  exists out' s', read_bases legacy now l out s1 = (Ret out', s') /\ sees s s' /\
    forall k, out' !! k = match out !! k with
      | Some v => Some v
      | None => match base_of k with
                | Some name => if bool_decide (name ∈ l.*1) then value_at s k else None
                | None => None
                end
      end.
Proof.
  intros Hi Ho. revert out s1. induction l as [|[name b] l IH]; intros out s1 Hs1 Hl.
  { exists out, s1. split; [done|]. split; [done|]. intros k. destruct (out !! k); [done|]. by destruct (base_of k). }
  apply Forall_cons in Hl as [Hb Hl]. simpl in Hb.
  destruct (read_base_effect s s1 name b out Hi Ho Hs1 Hb) as (out1 & s2 & E2 & Hs2 & Hout1).
  destruct (IH out1 s2 Hs2 Hl) as (out' & s' & E' & Hs' & Hout). cbn [read_bases]. unfold se_bind. rewrite E2.
  exists out', s'. split; [done|]. split; [done|]. intros k. rewrite Hout, Hout1.
  change (((name, b) :: l).*1) with (name :: l.*1). destruct (out !! k); [done|].
  destruct (base_of k) as [n|]; [|done]. destruct (decide (n = name)) as [->|Hne].
  - rewrite bool_decide_eq_true_2, (bool_decide_eq_true_2 (name ∈ name :: _)) by (done || left).
    destruct (value_at s k); [done|]. by case_bool_decide.
  - rewrite bool_decide_eq_false_2 by congruence.
    rewrite (bool_decide_ext (n ∈ name :: l.*1) (n ∈ l.*1)); [done|]. rewrite elem_of_cons. tauto.
Qed.

Lemma getValues_into s out0 :
  inv s -> ordered_defs s ->
  exists out s', getValues legacy now out0 s = (Ret out, s') /\ sees s s' /\
    forall k, out !! k = match out0 !! k with Some v => Some v | None => value_at s k end.
Proof.
  intros Hi Ho. unfold getValues, se_bind, se_get.
  destruct (read_bases_effect s (map_to_list (bases s)) out0 s Hi Ho (sees_refl s)) as (out & s' & -> & Hs' & Hout).
  { apply Forall_forall. intros [n b] Hn. by apply elem_of_map_to_list in Hn. }
  exists out, s'. split; [done|]. split; [done|]. intros k. rewrite Hout. destruct (out0 !! k); [done|].
  destruct (value_at s k) as [v|] eqn:Ev.
  - destruct (value_at_some s k v Ev) as [cme Hc]. destruct (counter_facts s k cme Hi Hc) as (name & b & _ & -> & Hb & _).
    rewrite bool_decide_eq_true_2; [done|]. apply list_elem_of_fmap. exists (name, b). split; [done|].
    by apply elem_of_map_to_list.
  - destruct (base_of k); [|done]. by case_bool_decide.
Qed.

Lemma getValues_effect s :
  inv s -> ordered_defs s ->
  exists out s', getValues legacy now ∅ s = (Ret out, s') /\ sees s s' /\ forall k, out !! k = value_at s k.
Proof.
  intros Hi Ho. destruct (getValues_into s ∅ Hi Ho) as (out & s' & Es & Hs & Hout).
  exists out, s'. split; [done|]. split; [done|]. intros k. by rewrite Hout, lookup_empty.
Qed.

(** A counter that exists has a value. *)
Lemma value_exists s k : inv s -> is_Some (value_at s k) <-> contains k s = true.
Proof.
  intros Hi. unfold contains. rewrite bool_decide_eq_true.
  split; [intros [v Hv]; by apply (value_at_some s k v)|]. intros [cme Hc].
  destruct (counter_facts s k cme Hi Hc) as (name & b & q & _ & _ & _ & Hq & _ & Ha). unfold value_at. rewrite Hc. simpl.
  rewrite Hq. simpl. by apply (entry_level q (sme_stat b) name (sme_statDefs b) k).
Qed.
End Reads.
