(* ===== verification/QuantileTheorems.v ===== *)
(** * QuantileTheorems: the map of quantile stats as a map of bases

    Any operation of [QuantileStatMap] that returns keeps the invariant of
    [QuantileCorrect] and changes the bases as a map; the three read paths
    return the same values; and two quantiles of one stat may share a counter. *)
From S2P Require Import Prelude RegexUtil ExportType Timeseries CounterNames QuantileStat QuantileStatMap QuantileCorrect QuantileReads.
From Stdlib Require Import ZArith Lia Ascii String SpecFloat.
From stdpp Require Import base gmap list strings.

Open Scope Z_scope.
Open Scope fb303_scope.
Import QuantileStatMap.

Section Quiet.
Context {E : Type} `{QuantileEstimator E} {M : Type} `{RegexMatchCache M} `{NumberFormat}.
Abbreviation state := (state E M) (only parsing).
Abbreviation syncmap := (RegexUtil.syncmap (M := M) (V := CounterMapEntry)) (only parsing).

(** ** Steps that only read *)
Record unchanged (s s' : state) : Prop := {
  un_inv : inv s';
  un_keeps : keeps s s';
  un_bases : bases s' = bases s;
  un_map : RegexUtil.map (counters_ s') = RegexUtil.map (counters_ s)
}.
Definition quiet {A} (m : SE state A) : Prop := forall s, inv s -> unchanged s (m s).2.

Lemma unchanged_refl s : inv s -> unchanged s s.
Proof. intros Hi. by split; [|apply keeps_refl| |]. Qed.
Lemma unchanged_trans s1 s2 s3 : unchanged s1 s2 -> unchanged s2 s3 -> unchanged s1 s3.
Proof. intros [] []. split; [done|by apply (keeps_trans s1 s2)|congruence|congruence]. Qed.

Lemma reads_quiet_ret {A} (a : A) : quiet (se_ret a).
Proof. intros s. apply unchanged_refl. Qed.
Lemma quiet_lift {A} (o : outcome A) : quiet (lift o).
Proof. intros s. apply unchanged_refl. Qed.
Lemma quiet_get : quiet se_get.
Proof. intros s. apply unchanged_refl. Qed.
Lemma reads_quiet_bind {A B} (m : SE state A) (k : A -> SE state B) : quiet m -> (forall a, quiet (k a)) -> quiet (se_bind m k).
Proof.
  intros Hm Hk s Hi. unfold se_bind. specialize (Hm s Hi). destruct (m s) as [[a|e] s1]; [|done]. simpl in Hm.
  apply (unchanged_trans s s1); [done|]. apply Hk, (un_inv s s1 Hm).
Qed.

Lemma unchanged_set_stat s p q q' :
  inv s -> stats s !! p = Some q -> QuantileStat.slidingWindowVec_ q' = QuantileStat.slidingWindowVec_ q ->
  QuantileStat.wf q' -> unchanged s (with_stats (<[p := q']> (stats s)) s).
Proof. intros Hi Hp Hv Hw. destruct (inv_set_stat s p q q' Hi Hp Hv Hw). by split. Qed.

Lemma quiet_on_stat {A} p (f : SE (QuantileStat.stat E) A) :
  (forall q, QuantileStat.wf q ->
     QuantileStat.slidingWindowVec_ (f q).2 = QuantileStat.slidingWindowVec_ q /\ QuantileStat.wf (f q).2) ->
  quiet (on_stat p f).
Proof.
  intros Hf s Hi. unfold on_stat. destruct (stats s !! p) as [q|] eqn:Hp; [|by apply unchanged_refl].
  destruct (Hf q (inv_stats s Hi p q Hp)) as [Hv Hw]. destruct (f q) as [r q']. simpl in *.
  by apply (unchanged_set_stat s p q).
Qed.
Lemma quiet_estimates p qs now : quiet (on_stat p (QuantileStat.getEstimates qs now)).
Proof.
  apply quiet_on_stat. intros q Hw. destruct (QuantileStat.getEstimates_effect qs now q Hw) as (q' & -> & Hv).
  split; [apply Hv|]. by apply (QuantileStat.same_view_wf now q).
Qed.
Lemma quiet_read_stat p : quiet (read_stat p).
Proof. by apply quiet_on_stat. Qed.

Lemma quiet_getValue legacy now later key : quiet (getValue legacy now later key).
Proof.
  apply reads_quiet_bind; [apply quiet_get|]. intros s. destruct (RegexUtil.map _ !! key) as [cme|]; [|apply reads_quiet_ret].
  apply reads_quiet_bind; [apply quiet_estimates|]. intros es. case_match; [|apply reads_quiet_ret].
  apply reads_quiet_bind; [apply quiet_read_stat|]. intros q0. apply reads_quiet_bind; [apply quiet_lift|]. intros v. apply reads_quiet_ret.
Qed.
Lemma quiet_getValues legacy now out : quiet (getValues legacy now out).
Proof.
  apply reads_quiet_bind; [apply quiet_get|]. intros s. generalize (map_to_list (bases s)) as l. intros l. revert out.
  induction l as [|[name b] l IH]; intros out; [apply reads_quiet_ret|].
  apply reads_quiet_bind; [|intros out'; apply IH]. apply reads_quiet_bind; [apply quiet_estimates|]. intros es.
  apply reads_quiet_bind; [apply quiet_read_stat|]. intros q. apply quiet_lift.
Qed.
Lemma quiet_getSelectedValues legacy now keys out : quiet (getSelectedValues legacy now keys out).
Proof.
  apply reads_quiet_bind; [apply quiet_get|]. intros s. generalize (group_keys (RegexUtil.map (counters_ s)) keys []) as l.
  intros l. revert out. induction l as [|[p l'] l IH]; intros out; [apply reads_quiet_ret|].
  apply reads_quiet_bind; [apply quiet_estimates|]. intros es. apply reads_quiet_bind; [apply quiet_read_stat|]. intros q.
  apply reads_quiet_bind; [apply quiet_lift|]. intros out'. apply IH.
Qed.
Lemma quiet_getSnapshotEntry name now : quiet (getSnapshotEntry name now).
Proof.
  apply reads_quiet_bind; [apply quiet_get|]. intros s. destruct (bases s !! name) as [b|]; [|apply reads_quiet_ret].
  apply reads_quiet_bind; [|intros snap; apply reads_quiet_ret]. apply quiet_on_stat. intros q Hw.
  destruct (QuantileStat.getSnapshot_effect now q Hw) as (snap & _ & _ & Hw'). split; [|done].
  unfold QuantileStat.getSnapshot. destruct (qe_getDigests now _) as [[? ?] ?]. by case_match.
Qed.
Lemma quiet_add p v now : quiet (add_to p v now).
Proof. apply quiet_on_stat. intros q Hw. split; [done|]. by apply QuantileStat.wf_added. Qed.

Lemma unchanged_counters s c :
  inv s -> RegexUtil.lockstep c -> RegexUtil.map c = RegexUtil.map (counters_ s) -> unchanged s (with_counters c s).
Proof.
  intros Hi Hl Hm. assert (Hk : keeps s (with_counters c s)) by (intros p q Hp; by exists q).
  split; [|done..]. by apply (inv_same s); [..|apply (inv_stats s Hi)].
Qed.
Lemma quiet_getRegexKeys gaps r now :
  (forall i (c : syncmap), RegexUtil.lockstep c -> RegexUtil.lockstep (gaps i c)) ->
  (forall i (c : syncmap), RegexUtil.map (gaps i c) = RegexUtil.map c) -> quiet (getRegexKeys gaps r now).
Proof.
  intros Hl Hm. apply reads_quiet_bind; [|intros a; apply reads_quiet_ret]. intros s Hi. unfold on_counters.
  pose proof (RegexUtil.cachedFindMatchesSnapshot_finds (gaps 0%nat) (gaps 1%nat) (gaps 2%nat) r now None (counters_ s)
    (Hl 0%nat) (Hl 1%nat) (Hl 2%nat) (inv_cache s Hi)) as [Hl' _].
  pose proof (RegexUtil.cachedFindMatchesSnapshot_map (gaps 0%nat) (gaps 1%nat) (gaps 2%nat) r now None (counters_ s)
    (Hm 0%nat) (Hm 1%nat) (Hm 2%nat)) as Hm'.
  destruct (RegexUtil.cachedFindMatchesSnapshot _ _ _ r now None (counters_ s)) as [o c]. by apply unchanged_counters.
Qed.
Lemma unchanged_trim t s : inv s -> unchanged s (trimRegexCache t s).
Proof.
  intros Hi. apply unchanged_counters; [done|by apply RegexUtil.lockstep_trim, (inv_cache s Hi)|].
  unfold RegexUtil.cachedTrimStale. by case_match.
Qed.
Lemma unchanged_flushAll s : inv s -> unchanged s (flushAll s).
Proof.
  intros Hi. unfold flushAll. generalize (map_to_list (RegexUtil.map (counters_ s))) as l. intros l.
  assert (Hall : forall s1, unchanged s s1 -> with_stats (stats s1) s = s1 ->
    unchanged s (with_stats (foldl (fun h ke => flush_stat (cme_stat ke.2) h) (stats s1) l) s));
    [|apply (Hall s); [by apply unchanged_refl|by destruct s]].
  induction l as [|[k e] l IH]; intros s1 Hu Hs1; cbn [foldl]; [by rewrite Hs1|].
  cbn [snd]. destruct (stats s1 !! cme_stat e) as [q|] eqn:Eq.
  2: { replace (flush_stat (cme_stat e) (stats s1)) with (stats s1) by (unfold flush_stat; by rewrite Eq). by apply IH. }
  replace (flush_stat (cme_stat e) (stats s1)) with (<[cme_stat e := QuantileStat.flush q]> (stats s1))
    by (unfold flush_stat; by rewrite Eq).
  set (h := <[cme_stat e := QuantileStat.flush q]> (stats s1)). change h with (stats (with_stats h s1)).
  apply (IH (with_stats h s1)); [|by rewrite <- Hs1].
  apply (unchanged_trans s s1); [done|]. apply (unchanged_set_stat s1 _ q); [apply (un_inv _ _ Hu)|done|done|].
  apply QuantileStat.wf_flushed, (inv_stats s1 (un_inv _ _ Hu) _ _ Eq).
Qed.

(** ** Operations *)
Inductive op :=
  | OMake (defs : list (Z * Z)) (now : Z)
  | OAdd (p : nat) (value : double) (now : Z)
  | ORegister (gap : state -> state) (name : string) (p : nat) (ds : list StatDef)
  | OForget (name : string)
  | OForgetAll
  | OFlushAll
  | OGetValue (legacy : bool) (now later : Z) (key : string)
  | OGetValues (legacy : bool) (now : Z)
  | OGetSelectedValues (legacy : bool) (now : Z) (keys : list string)
  | OGetRegexKeys (gaps : nat -> syncmap -> syncmap) (r : regex) (now : time_point)
  | OTrim (expiry : time_point)
  | OGetSnapshotEntry (name : string) (now : Z).

(** [Some p] when the operation returns the stat [p]. *)
Definition no_stat {A} (m : SE state A) : SE state (option nat) := let* _ := m in se_ret None.
Definition run (o : op) : SE state (option nat) :=
  match o with
  | OMake defs now => let* p := make_stat defs now in se_ret (Some p)
  | OAdd p v now => no_stat (add_to p v now)
  | ORegister gap name p ds => let* r := registerQuantileStat gap name p ds in se_ret (Some r)
  | OForget name => no_stat (forgetStatsFor name)
  | OForgetAll => fun s => (Ret None, forgetAll s)
  | OFlushAll => fun s => (Ret None, flushAll s)
  | OGetValue legacy now later key => no_stat (getValue legacy now later key)
  | OGetValues legacy now => no_stat (getValues legacy now ∅)
  | OGetSelectedValues legacy now keys => no_stat (getSelectedValues legacy now keys ∅)
  | OGetRegexKeys gaps r now => no_stat (getRegexKeys gaps r now)
  | OTrim t => fun s => (Ret None, trimRegexCache t s)
  | OGetSnapshotEntry name now => no_stat (getSnapshotEntry name now)
  end.

(** What other threads do in the gaps of an operation. *)
Definition gaps_ok (o : op) : Prop :=
  match o with
  | ORegister gap _ _ _ => forall s, inv s -> inv (gap s) /\ keeps s (gap s)
  | OGetRegexKeys gaps _ _ =>
      (forall i (c : syncmap), RegexUtil.lockstep c -> RegexUtil.lockstep (gaps i c)) /\
      (forall i (c : syncmap), RegexUtil.map (gaps i c) = RegexUtil.map c)
  | _ => True
  end.

(** The bases after the operation. *)
Definition spec_bases (o : op) (s : state) : gmap string StatMapEntry :=
  match o with
  | ORegister gap name p ds =>
      match bases s !! name with
      | Some _ => bases s
      | None => match bases (gap s) !! name with Some _ => bases (gap s) | None => <[name := Base p ds]> (bases (gap s)) end
      end
  | OForget name => delete name (bases s)
  | OForgetAll => ∅
  | _ => bases s
  end.

Definition refines (o : op) (s : state) (r : option nat) (s' : state) : Prop :=
  inv s' /\ keeps s s' /\ bases s' = spec_bases o s /\
  match o with ORegister _ name _ _ => exists b, bases s' !! name = Some b /\ r = Some (sme_stat b) | _ => True end.

Lemma quiet_refines {A} (m : SE state A) o s r s' :
  quiet m -> inv s -> no_stat m s = (Ret r, s') -> spec_bases o s = bases s ->
  match o with ORegister _ _ _ _ => False | _ => True end -> refines o s r s'.
Proof.
  intros Hq Hi Er Es Ho. unfold no_stat, se_bind in Er. specialize (Hq s Hi).
  destruct (m s) as [[a|e] s1]; [|done]. injection Er as _ <-. destruct Hq as [Hi' Hk Hb _].
  split; [done|]. split; [done|]. rewrite Es. split; [done|]. by destruct o.
Qed.

Lemma unchanged_refines o s s' :
  unchanged s s' -> spec_bases o s = bases s -> match o with ORegister _ _ _ _ => False | _ => True end ->
  refines o s None s'.
Proof. intros [Hi' Hk Hb _] Es Ho. split; [done|]. split; [done|]. rewrite Es. split; [done|]. by destruct o. Qed.

Lemma register_refines gap name p ds s r s' :
  (forall s, inv s -> inv (gap s) /\ keeps s (gap s)) -> inv s ->
  registerQuantileStat gap name p ds s = (Ret r, s') -> refines (ORegister gap name p ds) s (Some r) s'.
Proof.
  intros Hg Hi. unfold registerQuantileStat. unfold se_bind at 1, se_get at 1. unfold refines, spec_bases.
  destruct (bases s !! name) as [b|] eqn:Eb.
  { intros [= <- <-]. split; [done|]. split; [apply keeps_refl|]. split; [done|]. by exists b. }
  unfold se_bind at 1. unfold read_stat, on_stat. destruct (stats s !! p) as [q|] eqn:Ep; [|done].
  unfold se_get at 1. set (s1 := with_stats _ s).
  assert (Hu : unchanged s s1) by (apply (unchanged_set_stat s p q); try done; by apply (inv_stats s Hi p)).
  assert (Es1 : s1 = s) by (unfold s1, with_stats; rewrite insert_id by done; by destruct s). rewrite Es1.
  unfold se_bind at 1, se_get at 1. unfold se_bind at 1, se_put at 1. unfold se_bind at 1, se_get at 1.
  destruct (Hg s Hi) as [Hi2 Hk2]. destruct (bases (gap s) !! name) as [b|] eqn:Eb2.
  { intros [= <- <-]. split; [done|]. split; [done|]. split; [done|]. by exists b. }
  destruct (Hk2 p q Ep) as (q2 & Ep2 & Ev2). unfold se_bind at 1.
  replace (QuantileStat.getSlidingWindowLengths q) with (QuantileStat.getSlidingWindowLengths q2)
    by (unfold QuantileStat.getSlidingWindowLengths; by rewrite Ev2).
  destruct (on_counters _ (gap s)) as [[[]|e] s3] eqn:E3; [|done].
  destruct (inv_register (gap s) s3 name p q2 ds Hi2 Ep2 Eb2 E3) as (Hi3 & Hs3 & Hb3).
  unfold se_bind, se_get, se_put, se_ret. intros [= <- <-]. split; [done|]. split.
  - intros p' q' Hp'. simpl. rewrite Hs3. by apply Hk2.
  - simpl. rewrite Hb3. split; [done|]. exists (Base p ds). by rewrite lookup_insert_eq.
Qed.

Lemma forget_refines name s r s' :
  inv s -> no_stat (forgetStatsFor name) s = (Ret r, s') -> refines (OForget name) s r s'.
Proof.
  intros Hi. unfold no_stat, forgetStatsFor, se_bind at 1. unfold se_bind at 1, se_get at 1. unfold refines, spec_bases.
  destruct (bases s !! name) as [b|] eqn:Eb.
  - destruct (inv_bases s Hi name b Eb) as [q Hq]. destruct (read_stat_eq 0 (sme_stat b) q s Hq) as (s1 & E1 & Hs1 & Est).
    unfold se_bind at 1. rewrite E1. unfold se_bind, se_get, se_put, se_ret. intros [= <- <-].
    assert (Es1 : s1 = s) by (destruct Hs1 as (? & ? & _), s, s1; by simplify_eq/=). rewrite Es1.
    split; [by apply inv_forget|]. split; [|done]. intros p' q' Hp'. by exists q'.
  - intros [= <- <-]. split; [done|]. split; [apply keeps_refl|]. split; [|done]. by rewrite delete_id.
Qed.

Lemma make_stat_unchanged defs now s :
  inv s -> let s' := (make_stat defs now s).2 in unchanged s s'.
Proof.
  intros Hi. simpl. set (p := fresh _). assert (Hp : stats s !! p = None).
  { apply not_elem_of_dom, is_fresh. }
  assert (Hk : keeps s (with_stats (<[p := QuantileStat.make defs now]> (stats s)) s)).
  { intros p' q Hp'. exists q. split; [|done]. simpl. rewrite lookup_insert_ne; [done|congruence]. }
  split; [|done..]. apply (inv_same s); try done; [apply (inv_cache s Hi)|]. intros p' q. simpl.
  destruct (decide (p' = p)) as [->|Hne]; [rewrite lookup_insert_eq; intros [= <-]; apply QuantileStat.wf_new|].
  rewrite lookup_insert_ne by done. apply (inv_stats s Hi).
Qed.

(** C22: every operation that returns, with other threads between the two lock
    regions of a registration, keeps the invariant (each counter is the first
    entry its base generates under its name, and the regex cache knows exactly
    the counters) and changes the bases as on a map: a registration adds its
    base unless one of that name is there, and returns the stat registered. *)
Theorem quantile_map_refines_bases o s r s' :
  gaps_ok o -> inv s -> run o s = (Ret r, s') -> refines o s r s'.
Proof.
  intros Hg Hi. destruct o; simpl in Hg; unfold run.
  - pose proof (make_stat_unchanged defs now s Hi) as Hu. unfold se_bind. simpl in *. intros [= <- <-].
    destruct Hu. by split_and!.
  - intros Hr. by apply (quiet_refines (add_to p value now) _ s r s' (quiet_add p value now)).
  - unfold se_bind. destruct (registerQuantileStat gap name p ds s) as [[a|e] s1] eqn:E1; [|done].
    intros [= <- <-]. by apply register_refines.
  - by apply forget_refines.
  - intros [= <- <-]. split; [by apply inv_forgetAll|]. split; [intros p q Hp; by exists q|done].
  - intros [= <- <-]. apply unchanged_refines; [by apply unchanged_flushAll|done..].
  - intros Hr. by apply (quiet_refines _ _ s r s' (quiet_getValue legacy now later key)).
  - intros Hr. by apply (quiet_refines _ _ s r s' (quiet_getValues legacy now ∅)).
  - intros Hr. by apply (quiet_refines _ _ s r s' (quiet_getSelectedValues legacy now keys ∅)).
  - destruct Hg. intros Hr. by apply (quiet_refines _ _ s r s' (quiet_getRegexKeys gaps r0 now ltac:(done) ltac:(done))).
  - intros [= <- <-]. apply unchanged_refines; [by apply unchanged_trim|done..].
  - intros Hr. by apply (quiet_refines _ _ s r s' (quiet_getSnapshotEntry name now)).
Qed.

(** C25: the three ways to read counters agree.  At one time, with quantiles
    that are numbers, none of them fails; [getValues] lists a value for exactly
    the counters that exist, [getValue] returns that value for each of them,
    and [getSelectedValues] the same values for the names it is given. *)
Theorem quantile_reads_agree legacy now s keys :
  inv s -> ordered_defs s ->
  exists all selected,
    (getValues legacy now ∅ s).1 = Ret all /\
    (getSelectedValues legacy now keys ∅ s).1 = Ret selected /\
    (forall k, is_Some (all !! k) <-> contains k s = true) /\
    (forall k, (getValue legacy now now k s).1 = Ret (all !! k)) /\
    (forall k, selected !! k = if bool_decide (k ∈ keys) then all !! k else None).
Proof.
  intros Hi Ho. destruct (getValues_effect legacy now s Hi Ho) as (all & s1 & E1 & _ & Hall).
  destruct (getSelectedValues_effect legacy now s keys Hi Ho) as (sel & s2 & E2 & _ & Hsel).
  exists all, sel. rewrite E1, E2. split; [done|]. split; [done|]. split; [|split].
  - intros k. rewrite Hall. by apply value_exists.
  - intros k. destruct (getValue_reads legacy now s k Hi Ho) as (s3 & -> & _). by rewrite Hall.
  - intros k. rewrite Hsel. by case_bool_decide; [rewrite Hall|].
Qed.
End Quiet.

(** ** Concrete maps *)

(** [{:g}] for numbers with at most one decimal, and the clamping cast. *)
Definition tenths (x : double) : string :=
  match double_to_int64 (SFadd 53 1024 (double_mul x (double_of_Z 10)) (double_div (double_of_Z 1) (double_of_Z 2))) with
  | None => "nan"
  | Some n => decimal (n / 10) +:+ (if n mod 10 =? 0 then "" else "." +:+ decimal (n mod 10))
  end.
Definition clamped (x : double) : Z :=
  match double_to_int64 x with
  | Some v => v
  | None =>
      match x with
      | S754_infinity s | S754_finite s _ _ => if s then smin 64 else smax 64
      | _ => 0
      end
  end.

Lemma tenths_dot x : split_kind (list_ascii_of_string (tenths x)) = None.
Proof.
  unfold tenths. destruct (double_to_int64 _) as [n|]; [|done]. rewrite chars_app.
  assert (Hd : forall z, split_kind (list_ascii_of_string (decimal z)) = None)
    by (intros z; apply split_kind_no_dot, decimal_no_dot).
  case_match; [by rewrite app_nil_r|]. apply split_kind_app; [done| |done].
  rewrite chars_app. pose proof (Hd (n mod 10)) as Ht. destruct (decimal_head (n mod 10)) as (c & t & E & Hc).
  rewrite E in *. simpl in *. rewrite Ht, numeral_not_lower by done. by rewrite ?andb_false_r.
Qed.

Section Examples_.
#[local] Instance tenths_format : NumberFormat :=
  {| format_g := tenths; clamp_cast := clamped; format_g_dot := tenths_dot |}.
Import SampleEstimator PrefixCache.

Definition quantile (n d : Z) : double := double_div (double_of_Z n) (double_of_Z d).
Definition example_defs : list StatDef := [MkDef PERCENT (quantile 99 100); MkDef SUM (S754_zero false)].
Definition one_stat : state est cache := (make_stat [(1, 60)] 0 empty_state).2.
Definition register_latency : op (E := est) (M := cache) := ORegister forgetAll "latency" 0 example_defs.
Definition with_latency : state est cache := (run register_latency one_stat).2.
Definition with_samples : state est cache := (add_to 0 (double_of_Z 7) (5 * nanoseconds) with_latency).2.

Lemma one_stat_inv : inv one_stat.
Proof. apply (un_inv empty_state). apply make_stat_unchanged, inv_empty. Qed.
Lemma register_latency_gaps : gaps_ok register_latency.
Proof. intros s Hi. split; [by apply inv_forgetAll|]. intros p q Hp. by exists q. Qed.

Lemma quantile_map_refines_bases_witness :
  run register_latency one_stat = (Ret (Some 0%nat), with_latency) /\
  refines register_latency one_stat (Some 0%nat) with_latency.
Proof.
  assert (Er : run register_latency one_stat = (Ret (Some 0%nat), with_latency)) by (vm_compute; reflexivity).
  split; [exact Er|].
  exact (quantile_map_refines_bases register_latency one_stat (Some 0%nat) with_latency
    register_latency_gaps one_stat_inv Er).
Defined.

Lemma with_samples_inv : inv with_samples.
Proof.
  apply (un_inv with_latency). apply quiet_add. unfold with_latency. simpl.
  destruct (register_refines forgetAll "latency" 0 example_defs one_stat 0%nat with_latency register_latency_gaps one_stat_inv)
    as [Hi _]; [vm_compute; reflexivity|done].
Qed.
Lemma with_samples_ordered : ordered_defs with_samples.
Proof.
  assert (Hb : bases with_samples = {[ "latency" := Base 0 example_defs ]}) by (vm_compute; reflexivity).
  intros name b d Hn Hd. rewrite Hb in Hn. apply lookup_singleton_Some in Hn as [_ <-]. simpl in Hd.
  unfold example_defs in Hd. apply elem_of_cons in Hd as [->|Hd]; [vm_compute; reflexivity|].
  apply list_elem_of_singleton in Hd as ->. vm_compute. reflexivity.
Qed.

Lemma quantile_reads_agree_witness :
  exists all selected,
    (getValues false (10 * nanoseconds) ∅ with_samples).1 = Ret all /\
    (getSelectedValues false (10 * nanoseconds) ["latency.p99.60"; "cpu"] ∅ with_samples).1 = Ret selected /\
    (forall k, is_Some (all !! k) <-> contains k with_samples = true) /\
    (forall k, (getValue false (10 * nanoseconds) (10 * nanoseconds) k with_samples).1 = Ret (all !! k)) /\
    (forall k, selected !! k = if bool_decide (k ∈ ["latency.p99.60"; "cpu"]) then all !! k else None).
Proof.
  exact (quantile_reads_agree false (10 * nanoseconds) with_samples ["latency.p99.60"; "cpu"]
    with_samples_inv with_samples_ordered).
Defined.

(** [.99] over a window of nine seconds and [.999] of all time are one counter,
    and it reports the former. *)
Definition two_percentiles : list StatDef := [MkDef PERCENT (quantile 99 100); MkDef PERCENT (quantile 999 1000)].
Definition nine_seconds : state est cache := (make_stat [(1, 9)] 0 empty_state).2.
Definition colliding : state est cache := (registerQuantileStat id "x" 0 two_percentiles nine_seconds).2.

Lemma quantile_names_collide :
  makeKey "x" (MkDef PERCENT (quantile 99 100)) (Some 9) = makeKey "x" (MkDef PERCENT (quantile 999 1000)) None /\
  RegexUtil.map (counters_ colliding) !! makeKey "x" (MkDef PERCENT (quantile 999 1000)) None =
    Some (Entry 0 (MkDef PERCENT (quantile 99 100)) (Some 9)).
Proof. split; vm_compute; reflexivity. Qed.
End Examples_.
