(* ===== verification/FlatCounters.v ===== *)
(** * FlatCounters: the plain counters of [ServiceData]

    [counters_] of [src/fb303/ServiceData.h] and the operations of
    [ServiceData.cpp] that touch nothing else: [modifyCounter],
    [incrementCounter], [setCounter], [clearCounter] and the listing of the flat
    counters.  The map pairs counters with their regex cache ([RegexUtil]).  An
    entry is shared with nobody but the map, so the map holds its value; the
    value is an [std::atomic<int64_t>], so one [fetch_add] or [store] is one step
    also under the shared lock. *)
From S2P Require Import Prelude RegexUtil.
From Stdlib Require Import ZArith Lia String.
From stdpp Require Import base gmap sets list strings.

Open Scope Z_scope.
Open Scope fb303_scope.

Module FlatCounters.
Section Model.
Context {M : Type} `{RegexMatchCache M}.
Abbreviation counters := (RegexUtil.syncmap (M := M) (V := Z)).

(** ** Updates of one counter

    What the lambda returns, and the value it leaves.  [fetch_add] wraps; the
    sum returned is a signed addition, undefined when it overflows. *)
Definition add_amount (amount old : Z) : outcome Z * Z :=
  let sum := old + amount in
  ((if (smin 64 <=? sum) && (sum <=? smax 64) then Ret sum else Throw undefined_behaviour),
   wraps 64 sum).
Definition store_value (value old : Z) : outcome Z * Z := (Ret value, value).

(** The lambda on the value of the entry found. *)
Definition apply_at (key : string) (f : Z -> outcome Z * Z) : SE counters (option Z) := fun s =>
  match RegexUtil.map s !! key with
  | None => (Ret None, s)
  | Some old =>
      let '(r, new) := f old in
      (match r with Ret v => Ret (Some v) | Throw e => Throw e end,
       RegexUtil.with_map (<[key := new]> (RegexUtil.map s)) s)
  end.

(** ** [modifyCounter]: under the shared lock if the counter is there, else an
    upsert under the exclusive lock; [gap] is what other threads do between. *)
Definition try_modify (key : string) (f : Z -> outcome Z * Z) : SE counters (option Z) := apply_at key f.
Definition upsert (key : string) (f : Z -> outcome Z * Z) : SE counters Z :=
  let* _ := RegexUtil.cachedAddString key 0 in
  let* r := apply_at key f in
  match r with Some v => se_ret v | None => se_throw undefined_behaviour end.
Definition modifyCounter (gap : counters -> counters) (key : string) (f : Z -> outcome Z * Z) : SE counters Z :=
  let* r := try_modify key f in
  match r with
  | Some v => se_ret v
  | None => let* s := se_get in se_put (gap s) >>> upsert key f
  end.
Definition incrementCounter (gap : counters -> counters) (key : string) (amount : Z) : SE counters Z :=
  modifyCounter gap key (add_amount amount).
Definition setCounter (gap : counters -> counters) (key : string) (value : Z) : SE counters Z :=
  modifyCounter gap key (store_value value).
Definition clearCounter (key : string) : SE counters unit := fun s =>
  (Ret tt, match RegexUtil.map s !! key with Some _ => RegexUtil.cachedEraseString key s | None => s end).

(** ** Listing and resetting *)
Definition lookup_flat (key : string) (s : counters) : option Z := RegexUtil.map s !! key.
Definition getKeys (keys : list string) (s : counters) : list string := keys ++ (map_to_list (RegexUtil.map s)).*1.
(** [try_emplace]: what the caller's map holds stays. *)
Definition add_flat (out : gmap string Z) (s : counters) : gmap string Z := out ∪ RegexUtil.map s.
Fixpoint select_flat (keys : list string) (s : counters) (out : gmap string Z) : gmap string Z :=
  match keys with
  | [] => out
  | k :: keys' =>
      select_flat keys' s (match RegexUtil.map s !! k with Some v => <[k := v]> out | None => out end)
  end.
Definition zero_all (s : counters) : counters := RegexUtil.with_map ((fun _ => 0) <$> RegexUtil.map s) s.

(** ** One call *)
Lemma apply_at_lockstep key f s : RegexUtil.lockstep s -> RegexUtil.lockstep (apply_at key f s).2.
Proof.
  intros [Hw Hs]. unfold apply_at. destruct (RegexUtil.map s !! key) as [old|] eqn:E; [|by split].
  destruct (f old) as [r new]. split; simpl; [done|]. rewrite Hs, dom_insert_lookup_L; eauto.
Qed.

Lemma apply_at_map key f s :
  RegexUtil.map (apply_at key f s).2 =
  match RegexUtil.map s !! key with Some old => <[key := (f old).2]> (RegexUtil.map s) | None => RegexUtil.map s end.
Proof. unfold apply_at. destruct (RegexUtil.map s !! key); [|done]. by destruct (f z). Qed.

(** What [cachedAddString] does to the map. *)
Lemma add_string_map key (v : Z) (s : counters) :
  match (RegexUtil.cachedAddString key v s).1 with
  | Ret _ => RegexUtil.map (RegexUtil.cachedAddString key v s).2 =
             match RegexUtil.map s !! key with Some _ => RegexUtil.map s | None => <[key := v]> (RegexUtil.map s) end
  | Throw _ => RegexUtil.map s !! key = None /\
             exists created : bool, RegexUtil.map (RegexUtil.cachedAddString key v s).2 =
               if created then <[key := v]> (RegexUtil.map s) else RegexUtil.map s
  end.
Proof.
  unfold RegexUtil.cachedAddString, se_get, se_put, se_bind, se_ret, se_throw.
  destruct (RegexUtil.map s !! key) eqn:E; [done|].
  destruct (addString key (RegexUtil.matches s)) as [[u|e] c]; [done|]. split; [done|].
  by exists (RegexUtil.hasString key c).
Qed.

Lemma upsert_lockstep key f s : RegexUtil.lockstep s -> RegexUtil.lockstep (upsert key f s).2.
Proof.
  intros Hs. unfold upsert, se_bind. pose proof (RegexUtil.lockstep_add key 0 s Hs) as Ha.
  destruct (RegexUtil.cachedAddString key 0 s) as [[b|e] s1]; [|done]. cbn [snd] in Ha.
  pose proof (apply_at_lockstep key f s1 Ha) as Hb. by destruct (apply_at key f s1) as [[[v|]|e] s2].
Qed.

(** The upsert: [f] on the counter, created at zero when absent; or the cache
    threw, and at most the counter was created. *)
Definition upsert_old (key : string) (m : gmap string Z) : Z := default 0 (m !! key).
Lemma upsert_effect key f s :
  let '(r, s') := upsert key f s in
  match (RegexUtil.cachedAddString key 0 s).1 with
  | Ret _ => r = (f (upsert_old key (RegexUtil.map s))).1 /\
             RegexUtil.map s' = <[key := (f (upsert_old key (RegexUtil.map s))).2]> (RegexUtil.map s)
  | Throw e => r = Throw e /\ RegexUtil.map s !! key = None /\
             exists created : bool, RegexUtil.map s' = if created then <[key := 0]> (RegexUtil.map s) else RegexUtil.map s
  end.
Proof.
  pose proof (add_string_map key 0 s) as Ha. unfold upsert, se_bind, upsert_old.
  destruct (RegexUtil.cachedAddString key 0 s) as [[b|e] s1]; cbn [fst snd] in *; [|done].
  unfold apply_at. rewrite Ha. destruct (RegexUtil.map s !! key) as [old|] eqn:E.
  - rewrite E. simpl. by destruct (f old) as [[v|e] new].
  - rewrite lookup_insert_eq. simpl. destruct (f 0) as [[v|e] new]; simpl; split; try done; by rewrite insert_insert_eq.
Qed.

(** ** Interleaved calls

    Threads run programs of calls.  The steps are the lock regions: a schedule
    names the thread of each step.  [missed] says that the thread's current call
    found its counter absent and waits for the exclusive lock. *)
Inductive op :=
  | Increment (key : string) (amount : Z)
  | SetTo (key : string) (value : Z)
  | Clear (key : string).
Definition op_key (o : op) : string :=
  match o with Increment k _ => k | SetTo k _ => k | Clear k => k end.
Definition op_update (o : op) : option (Z -> outcome Z * Z) :=
  match o with
  | Increment _ a => Some (add_amount a)
  | SetTo _ v => Some (store_value v)
  | Clear _ => None
  end.

Record thread := Thread { todo : list op; missed : bool }.
(** A call that took effect, with its result, or one the cache made throw. *)
Inductive event :=
  | Done (t : nat) (o : op) (r : outcome (option Z))
  | Failed (t : nat) (o : op) (e : exn).
Definition event_thread (e : event) : nat := match e with Done t _ _ => t | Failed t _ _ => t end.
Definition event_op (e : event) : op := match e with Done _ o _ => o | Failed _ o _ => o end.

Record config := Config { flat : counters; threads : list thread; log : list event }.
Definition start (s : counters) (programs : list (list op)) : config :=
  Config s ((fun p => Thread p false) <$> programs) [].

Definition some_result (r : outcome Z) : outcome (option Z) :=
  match r with Ret v => Ret (Some v) | Throw e => Throw e end.

(** One lock region of a call: the event it ends the call with, if it does. *)
Definition region (t : nat) (o : op) (missed : bool) (s : counters) : option event * counters :=
  match op_update o with
  | None => let '(_, s') := clearCounter (op_key o) s in (Some (Done t o (Ret None)), s')
  | Some f =>
      if missed then
        let '(r, s') := upsert (op_key o) f s in
        (Some (match (RegexUtil.cachedAddString (op_key o) 0 s).1 with
               | Ret _ => Done t o (some_result r)
               | Throw e => Failed t o e
               end), s')
      else
        match try_modify (op_key o) f s with
        | (Ret None, s') => (None, s')
        | (r, s') => (Some (Done t o r), s')
        end
  end.

Definition step (t : nat) (c : config) : config :=
  match threads c !! t with
  | Some (Thread (o :: rest) m) =>
      match region t o m (flat c) with
      | (Some e, s') => Config s' (<[t := Thread rest false]> (threads c)) (log c ++ [e])
      | (None, s') => Config s' (<[t := Thread (o :: rest) true]> (threads c)) (log c)
      end
  | _ => c
  end.
Definition run_schedule (schedule : list nat) (c : config) : config := foldl (fun c t => step t c) c schedule.

(** ** The specification: calls on a map, one at a time *)
Definition spec_run (o : op) (m : gmap string Z) : outcome (option Z) * gmap string Z :=
  match op_update o with
  | None => (Ret None, delete (op_key o) m)
  | Some f =>
      let '(r, new) := f (upsert_old (op_key o) m) in (some_result r, <[op_key o := new]> m)
  end.
Inductive legal : event -> gmap string Z -> gmap string Z -> Prop :=
  | legal_done t o r m m' : spec_run o m = (r, m') -> legal (Done t o r) m m'
  | legal_failed t o e m (created : bool) :
      m !! op_key o = None -> legal (Failed t o e) m (if created then <[op_key o := 0]> m else m).
Inductive explains (m : gmap string Z) : list event -> gmap string Z -> Prop :=
  | explains_nil : explains m [] m
  | explains_snoc es m1 e m2 : explains m es m1 -> legal e m1 m2 -> explains m (es ++ [e]) m2.

Lemma region_effect t o missed s :
  RegexUtil.lockstep s ->
  RegexUtil.lockstep (region t o missed s).2 /\
  match (region t o missed s).1 with
  | Some e => event_thread e = t /\ event_op e = o /\
              legal e (RegexUtil.map s) (RegexUtil.map (region t o missed s).2)
  | None => (region t o missed s).2 = s /\ missed = false
  end.
Proof.
  intros Hs. unfold region. destruct (op_update o) as [f|] eqn:Eo; [destruct missed|].
  - pose proof (upsert_effect (op_key o) f s) as He. pose proof (upsert_lockstep (op_key o) f s Hs) as Hl.
    destruct (upsert (op_key o) f s) as [r s']. cbn [fst snd]. split; [done|].
    destruct (RegexUtil.cachedAddString (op_key o) 0 s) as [[b|e] s1]; cbn [fst] in He.
    + destruct He as [-> ->]. repeat split. constructor. unfold spec_run. rewrite Eo.
      by destruct (f (upsert_old (op_key o) (RegexUtil.map s))).
    + destruct He as (_ & Hn & created & ->). by repeat split; constructor.
  - pose proof (apply_at_lockstep (op_key o) f s Hs) as Hl. unfold try_modify, apply_at in *.
    destruct (RegexUtil.map s !! op_key o) as [old|] eqn:E; [|done].
    assert (Hsp : spec_run o (RegexUtil.map s) = (some_result (f old).1, <[op_key o := (f old).2]> (RegexUtil.map s))).
    { unfold spec_run, upsert_old. rewrite Eo, E. simpl. by destruct (f old). }
    destruct (f old) as [[v|e] new]; (split; [exact Hl|]); by repeat split; constructor.
  - unfold clearCounter. cbn [fst snd].
    assert (Hsp : spec_run o (RegexUtil.map s) = (Ret None, delete (op_key o) (RegexUtil.map s)))
      by (unfold spec_run; by rewrite Eo).
    destruct (RegexUtil.map s !! op_key o) eqn:E.
    + split; [by apply RegexUtil.lockstep_erase|]. by repeat split; constructor.
    + split; [done|]. repeat split. constructor. by rewrite Hsp, delete_id.
Qed.
End Model.
End FlatCounters.
