(* ===== verification/FlatCountersCorrect.v ===== *)
(** * FlatCountersCorrect: concurrent calls on the flat counters

    Any interleaving of the lock regions of concurrent [incrementCounter],
    [setCounter] and [clearCounter] calls is explained by running the calls one
    after the other; every call ends within two of its thread's turns; and no
    increment is lost. *)
From S2P Require Import Prelude RegexUtil FlatCounters.
From Stdlib Require Import ZArith Lia String.
From stdpp Require Import base gmap sets list strings.
Import FlatCounters.

Open Scope Z_scope.
Open Scope fb303_scope.

Section Runs.
Context {M : Type} `{RegexMatchCache M}.
Abbreviation counters := (RegexUtil.syncmap (M := M) (V := Z)).

(** ** What a step changes *)
Definition calls_of (t : nat) (l : list event) : list op :=
  event_op <$> List.filter (fun e => Nat.eqb (event_thread e) t) l.

Lemma calls_of_snoc t l e :
  calls_of t (l ++ [e]) = calls_of t l ++ (if Nat.eqb (event_thread e) t then [event_op e] else []).
Proof.
  unfold calls_of. rewrite List.filter_app, fmap_app. f_equal. simpl. by destruct (Nat.eqb _ t).
Qed.

Lemma step_cases t (c : config) :
  RegexUtil.lockstep (flat c) ->
  step t c = c \/
  exists o rest m, threads c !! t = Some (Thread (o :: rest) m) /\
    RegexUtil.lockstep (flat (step t c)) /\
    ((m = false /\ flat (step t c) = flat c /\ log (step t c) = log c /\
        threads (step t c) = <[t := Thread (o :: rest) true]> (threads c)) \/
     (exists e, event_thread e = t /\ event_op e = o /\ log (step t c) = log c ++ [e] /\
        threads (step t c) = <[t := Thread rest false]> (threads c) /\
        legal e (RegexUtil.map (flat c)) (RegexUtil.map (flat (step t c))))).
Proof.
  intros Hs. unfold step. destruct (threads c !! t) as [[[|o rest] m]|] eqn:Et; [by left| |by left].
  right. exists o, rest, m. split; [done|]. pose proof (region_effect t o m (flat c) Hs) as [Hl Hr].
  destruct (region t o m (flat c)) as [[e|] s']; cbn [fst snd] in *; (split; [done|]).
  - right. destruct Hr as (E1 & E2 & E3). by exists e.
  - left. by destruct Hr as [-> ->].
Qed.

(** ** The invariant of a run *)
Record run_inv (s : counters) (programs : list (list op)) (c : config) : Prop := {
  ri_lockstep : RegexUtil.lockstep (flat c);
  ri_explained : explains (RegexUtil.map s) (log c) (RegexUtil.map (flat c));
  ri_programs : forall t, programs !! t =
    (fun th => calls_of t (log c) ++ todo th) <$> threads c !! t
}.

Lemma start_inv s programs : RegexUtil.lockstep s -> run_inv s programs (start s programs).
Proof.
  intros Hs. split; [done|constructor|]. intros t. simpl. rewrite list_lookup_fmap. by destruct (programs !! t).
Qed.

Lemma programs_step (programs : list (list op)) (ths : list thread) t th th' l l' :
  ths !! t = Some th ->
  (forall u, programs !! u = (fun th => calls_of u l ++ todo th) <$> ths !! u) ->
  calls_of t l' ++ todo th' = calls_of t l ++ todo th ->
  (forall u, u <> t -> calls_of u l' = calls_of u l) ->
  forall u, programs !! u = (fun th => calls_of u l' ++ todo th) <$> <[t := th']> ths !! u.
Proof.
  intros Ht Hp Heq Hne u. rewrite Hp. destruct (decide (u = t)) as [->|Hu].
  - rewrite list_lookup_insert_eq by (by eapply lookup_lt_Some). rewrite Ht. simpl. by rewrite Heq.
  - by rewrite list_lookup_insert_ne, Hne.
Qed.

Lemma step_inv s programs t c : run_inv s programs c -> run_inv s programs (step t c).
Proof.
  intros [Hl He Hp]. destruct (step_cases t c Hl) as [->|(o & rest & m & Ht & Hl' & Hc)]; [done|].
  split; [done|..].
  - destruct Hc as [(_ & E1 & E2 & _)|(e & _ & _ & E1 & _ & Hleg)]; rewrite ?E1, ?E2; [done|]. by econstructor.
  - destruct Hc as [(_ & _ & -> & ->)|(e & Ee & Eo & -> & -> & _)].
    + by apply (programs_step programs (threads c) t _ _ (log c) (log c) Ht Hp).
    + apply (programs_step programs (threads c) t _ _ (log c) _ Ht Hp).
      * rewrite calls_of_snoc, Ee, Nat.eqb_refl, Eo. by rewrite <- app_assoc.
      * intros u Hu. rewrite calls_of_snoc, Ee, (proj2 (Nat.eqb_neq t u)) by done. by rewrite app_nil_r.
Qed.

Lemma run_schedule_inv s programs schedule c :
  run_inv s programs c -> run_inv s programs (run_schedule schedule c).
Proof. revert c. induction schedule; intros c Hc; simpl; [done|]. by apply IHschedule, step_inv. Qed.

(** ** Progress *)
Definition turns_left (th : thread) : nat := 2 * length (todo th) - (if missed th then 1 else 0).
Definition turns (t : nat) (schedule : list nat) : nat := length (List.filter (Nat.eqb t) schedule).

Lemma step_turns s programs t u c th :
  run_inv s programs c -> threads c !! u = Some th ->
  exists th', threads (step t c) !! u = Some th' /\
    (turns_left th' <= turns_left th - (if Nat.eqb u t then 1 else 0))%nat.
Proof.
  intros [Hl _ _] Hu. destruct (decide (u = t)) as [->|Hne].
  - rewrite Nat.eqb_refl. destruct (step_cases t c Hl) as [Es|(o & rest & m & Ht & _ & Hc)].
    + rewrite Es. exists th. split; [done|]. unfold step in Es. rewrite Hu in Es.
      destruct th as [[|o rest] m]; [unfold turns_left; simpl; lia|]. exfalso.
      destruct (region t o m (flat c)) as [[e|] s'] eqn:Er; pose proof (f_equal log Es) as El; simpl in El.
      * apply (f_equal length) in El. rewrite length_app in El. simpl in El. lia.
      * pose proof (region_effect t o m (flat c) Hl) as [_ Hr]. rewrite Er in Hr. destruct Hr as [_ ->].
        pose proof (f_equal (fun c => threads c !! t) Es) as Et. simpl in Et.
        rewrite list_lookup_insert_eq, Hu in Et by (by eapply lookup_lt_Some). done.
    + rewrite Hu in Ht. injection Ht as ->. unfold turns_left.
      destruct Hc as [(-> & _ & _ & ->)|(e & _ & _ & _ & -> & _)];
        rewrite list_lookup_insert_eq by (by eapply lookup_lt_Some); eexists; (split; [done|]); simpl; [lia|].
      destruct m; lia.
  - rewrite (proj2 (Nat.eqb_neq u t)) by done. exists th. split; [|lia].
    destruct (step_cases t c Hl) as [->|(o & rest & m & Ht & _ & Hc)]; [done|].
    destruct Hc as [(_ & _ & _ & ->)|(e & _ & _ & _ & -> & _)]; by rewrite list_lookup_insert_ne.
Qed.

Lemma schedule_turns s programs schedule u c th :
  run_inv s programs c -> threads c !! u = Some th ->
  exists th', threads (run_schedule schedule c) !! u = Some th' /\
    (turns_left th' <= turns_left th - turns u schedule)%nat.
Proof.
  revert c th. induction schedule as [|t schedule IH]; intros c th Hi Hu; cbn [run_schedule foldl].
  { exists th. split; [done|]. unfold turns. simpl. lia. }
  destruct (step_turns s programs t u c th Hi Hu) as (th1 & Hu1 & Hle).
  destruct (IH (step t c) th1 (step_inv _ _ _ _ Hi) Hu1) as (th2 & Hu2 & Hle2).
  exists th2. split; [done|]. unfold turns in *. simpl. destruct (Nat.eqb u t); simpl; lia.
Qed.

(** ** Sums *)
Definition total {A} (f : A -> Z) (l : list A) : Z := foldr (fun a => Z.add (f a)) 0 l.
Lemma total_app {A} (f : A -> Z) l l' : total f (l ++ l') = total f l + total f l'.
Proof. induction l as [|a l IH]; simpl; [done|]. rewrite IH. lia. Qed.
Lemma total_insert {A} (f : A -> Z) l i a a' : l !! i = Some a -> total f (<[i := a']> l) = total f l - f a + f a'.
Proof.
  revert i. induction l as [|b l IH]; intros [|i] Hi; try done; simpl in *.
  - injection Hi as ->. lia.
  - rewrite (IH i Hi). lia.
Qed.

(** What a call adds to [key]. *)
Definition amount_on (key : string) (o : op) : Z :=
  match o with Increment k a => if bool_decide (k = key) then a else 0 | _ => 0 end.
Definition only_increments (key : string) (o : op) : Prop :=
  match o with Increment _ _ => True | SetTo k _ => k <> key | Clear k => k <> key end.
Definition program_total (key : string) (p : list op) : Z := total (amount_on key) p.

Lemma step_total key t c :
  RegexUtil.lockstep (flat c) ->
  total (amount_on key) (event_op <$> log (step t c)) + total (fun th => program_total key (todo th)) (threads (step t c)) =
  total (amount_on key) (event_op <$> log c) + total (fun th => program_total key (todo th)) (threads c).
Proof.
  intros Hl. destruct (step_cases t c Hl) as [->|(o & rest & m & Ht & _ & Hc)]; [done|].
  destruct Hc as [(_ & _ & -> & ->)|(e & _ & Eo & -> & -> & _)].
  - rewrite (total_insert _ _ _ _ _ Ht). simpl. lia.
  - rewrite (total_insert _ _ _ _ _ Ht), fmap_app, total_app. simpl. rewrite Eo.
    unfold program_total at 2. simpl. unfold program_total. lia.
Qed.

Lemma schedule_total s programs key schedule c :
  run_inv s programs c ->
  let c' := run_schedule schedule c in
  total (amount_on key) (event_op <$> log c') + total (fun th => program_total key (todo th)) (threads c') =
  total (amount_on key) (event_op <$> log c) + total (fun th => program_total key (todo th)) (threads c).
Proof.
  revert c. induction schedule as [|t schedule IH]; intros c Hi; cbn zeta; cbn [run_schedule foldl]; [done|].
  etrans; [exact (IH (step t c) (step_inv _ _ _ _ Hi))|]. apply step_total, Hi.
Qed.

(** A log without throws adds up, as long as [key] is only incremented. *)
Definition no_failure (e : event) : Prop := match e with Done _ _ _ => True | Failed _ _ _ => False end.

Lemma legal_total key e (m m' : gmap string Z) (base sum : Z) :
  legal e m m' -> no_failure e -> only_increments key (event_op e) ->
  default 0 (m !! key) = wraps 64 (base + sum) ->
  default 0 (m' !! key) = wraps 64 (base + (sum + amount_on key (event_op e))).
Proof.
  intros Hleg Hno Hinc Heq. destruct Hleg as [t o r m m' Hrun|]; [|done]. unfold spec_run in Hrun.
  destruct o as [k a|k v|k]; simpl in *; injection Hrun as _ <-.
  - case_bool_decide as Hk; [subst k|by rewrite lookup_insert_ne, Z.add_0_r].
    rewrite lookup_insert_eq. simpl. unfold upsert_old.
    by rewrite Heq, wraps_idemp_add, Z.add_assoc by lia.
  - by rewrite lookup_insert_ne, Z.add_0_r.
  - by rewrite lookup_delete_ne, Z.add_0_r.
Qed.

Lemma explains_total key (m m' : gmap string Z) es :
  explains m es m' -> Forall no_failure es -> Forall (only_increments key) (event_op <$> es) ->
  in_s 64 (default 0 (m !! key)) ->
  default 0 (m' !! key) = wraps 64 (default 0 (m !! key) + total (amount_on key) (event_op <$> es)).
Proof.
  intros Hex Hno Hinc Hr. induction Hex as [|es m1 e m2 He IH Hleg].
  { simpl. by rewrite Z.add_0_r, wraps_small by (done || lia). }
  rewrite fmap_app in *. apply Forall_app in Hno as [Hno Hno1], Hinc as [Hinc Hinc1].
  apply Forall_inv in Hno1, Hinc1. rewrite total_app. cbn [fmap list_fmap total foldr]. rewrite Z.add_0_r.
  apply (legal_total key e m1 m2); [done..|]. by apply IH.
Qed.

(** ** Complete runs *)
Definition fair (programs : list (list op)) (schedule : list nat) : Prop :=
  forall t p, programs !! t = Some p -> (2 * length p <= turns t schedule)%nat.

Lemma fair_completes s programs schedule t :
  RegexUtil.lockstep s -> fair programs schedule ->
  forall th, threads (run_schedule schedule (start s programs)) !! t = Some th -> todo th = [].
Proof.
  intros Hs Hf th Ht. pose proof (start_inv s programs Hs) as Hi.
  pose proof (run_schedule_inv s programs schedule _ Hi) as [_ _ Hp]. specialize (Hp t). rewrite Ht in Hp. simpl in Hp.
  assert (Hu : threads (start s programs) !! t = Some (Thread (calls_of t (log (run_schedule schedule (start s programs))) ++ todo th) false))
    by (simpl; by rewrite list_lookup_fmap, Hp).
  destruct (schedule_turns s programs schedule t _ _ Hi Hu) as (th' & Ht' & Hle).
  rewrite Ht in Ht'. injection Ht' as <-. specialize (Hf t _ Hp).
  unfold turns_left in Hle. simpl in *. apply length_zero_iff_nil. destruct (missed th); lia.
Qed.

Lemma idle_total key (ths : list thread) :
  (forall (t : nat) th, ths !! t = Some th -> todo th = []) -> total (fun th => program_total key (todo th)) ths = 0.
Proof.
  induction ths as [|th ths IH]; intros Hi; simpl; [done|]. rewrite (Hi 0%nat th eq_refl), IH; [done|].
  intros t. apply (Hi (S t)).
Qed.
Lemma start_total key (s : counters) programs :
  total (amount_on key) (event_op <$> log (start s programs)) +
    total (fun th => program_total key (todo th)) (threads (start s programs)) = total (program_total key) programs.
Proof. simpl. induction programs as [|p programs IH]; [done|]. unfold total, program_total in *. cbn in *. unfold total in *. lia. Qed.

(** A property of every call of the programs. *)
Definition all_calls (P : op -> Prop) (c : config (M := M)) : Prop :=
  Forall P (event_op <$> log c) /\ Forall (fun th => Forall P (todo th)) (threads c).
Lemma step_all_calls P t c : RegexUtil.lockstep (flat c) -> all_calls P c -> all_calls P (step t c).
Proof.
  intros Hl [He Ht]. destruct (step_cases t c Hl) as [->|(o & rest & m & Hth & _ & Hc)]; [done|].
  pose proof (Forall_lookup_1 _ _ _ _ Ht Hth) as Ho. cbn [todo] in Ho.
  destruct Hc as [(_ & _ & El & Et)|(e & _ & Eo & El & Et & _)]; unfold all_calls; rewrite El, Et.
  - split; [done|]. by apply Forall_insert.
  - apply Forall_cons in Ho as [Ho Hr]. split; [|by apply Forall_insert].
    rewrite fmap_app. apply Forall_app. split; [done|]. cbn. rewrite Eo. by repeat constructor.
Qed.
Lemma run_all_calls P s programs schedule :
  RegexUtil.lockstep s -> Forall (Forall P) programs -> all_calls P (run_schedule schedule (start s programs)).
Proof.
  intros Hs HP. pose proof (start_inv s programs Hs) as Hi.
  assert (Ha : all_calls P (start s programs)).
  { split; [constructor|]. simpl. apply Forall_fmap. by eapply Forall_impl. }
  revert Hi Ha. generalize (start s programs). unfold run_schedule.
  induction schedule as [|t schedule IH]; intros c Hi Ha; [done|]. simpl.
  apply IH; [by apply step_inv|]. apply step_all_calls; [apply Hi|done].
Qed.
End Runs.

(** ** Properties *)

(** C6: concurrent calls on the flat counters are linearizable.  Whatever the
    schedule of the lock regions of incrementCounter, setCounter and clearCounter
    in any number of threads, the counters are what the logged calls leave when
    they run one at a time on a finite map, each with the result it returned (a
    call that threw out of the regex cache at most created its counter at zero);
    each thread's calls are logged once each, in its program order, at a step of
    that thread; and the regex cache stays in step with the names. *)
Theorem concurrent_counters_linearizable {M} `{RegexMatchCache M}
    (s : RegexUtil.syncmap (M := M) (V := Z)) (programs : list (list op)) (schedule : list nat) :
  RegexUtil.lockstep s ->
  let c := run_schedule schedule (start s programs) in
  RegexUtil.lockstep (flat c) /\
  explains (RegexUtil.map s) (log c) (RegexUtil.map (flat c)) /\
  forall t p, programs !! t = Some p ->
    exists th, threads c !! t = Some th /\ calls_of t (log c) ++ todo th = p.
Proof.
  intros Hs c. destruct (run_schedule_inv s programs schedule _ (start_inv s programs Hs)) as [Hl He Hp].
  split; [done|]. split; [done|]. intros t p Ht. rewrite Hp in Ht. fold c in Ht.
  destruct (threads c !! t) as [th|]; [|done]. injection Ht as <-. by exists th.
Qed.

(** C32: every call on a flat counter ends: a thread that gets two turns per call
    has finished its program, whatever the other threads do in between (an
    optimistic miss is followed by one upsert, never by another attempt). *)
Theorem counter_calls_complete {M} `{RegexMatchCache M}
    (s : RegexUtil.syncmap (M := M) (V := Z)) (programs : list (list op)) (schedule : list nat) (t : nat) (p : list op) :
  RegexUtil.lockstep s -> programs !! t = Some p -> (2 * length p <= turns t schedule)%nat ->
  calls_of t (log (run_schedule schedule (start s programs))) = p.
Proof.
  intros Hs Ht Hle. pose proof (start_inv s programs Hs) as Hi.
  pose proof (ri_programs _ _ _ (run_schedule_inv s programs schedule _ Hi) t) as Hp. rewrite Ht in Hp.
  assert (Hu : threads (start s programs) !! t = Some (Thread p false)) by (simpl; by rewrite list_lookup_fmap, Ht).
  destruct (schedule_turns s programs schedule t _ _ Hi Hu) as (th & Hth & Hn). rewrite Hth in Hp.
  injection Hp as ->. assert (E : todo th = []); [|by rewrite E, app_nil_r].
  unfold turns_left in Hn. simpl in *. apply length_zero_iff_nil. destruct (missed th); lia.
Qed.

(** C23: no increment is lost.  When threads have done all their calls, a counter
    that they only incremented holds the sum of its old value (zero if it was
    absent) and of every amount of every thread, wrapped to 64 bits, whatever the
    interleaving, also when several of them found the counter absent. *)
Theorem no_increment_lost {M} `{RegexMatchCache M}
    (s : RegexUtil.syncmap (M := M) (V := Z)) (programs : list (list op)) (schedule : list nat) (key : string) :
  RegexUtil.lockstep s -> fair programs schedule ->
  Forall (Forall (only_increments key)) programs -> in_s 64 (default 0 (RegexUtil.map s !! key)) ->
  let c := run_schedule schedule (start s programs) in
  Forall no_failure (log c) ->
  default 0 (RegexUtil.map (flat c) !! key) =
    wraps 64 (default 0 (RegexUtil.map s !! key) + total (program_total key) programs).
Proof.
  intros Hs Hf Hinc Hr c Hno. pose proof (start_inv s programs Hs) as Hi.
  rewrite (explains_total key (RegexUtil.map s) _ (log c)); [|apply (run_schedule_inv _ _ schedule _ Hi)|done| |done].
  2: by apply (run_all_calls (only_increments key) s programs schedule Hs).
  do 2 f_equal. pose proof (schedule_total s programs key schedule _ Hi) as Ht. cbn zeta in Ht. fold c in Ht.
  rewrite (idle_total key (threads c)) in Ht by (intros t th; by apply (fair_completes s programs schedule t)).
  rewrite Z.add_0_r in Ht. rewrite Ht. apply start_total.
Qed.

(** Two threads that both miss a counter, and a third that clears another. *)
Section Example_.
Import PrefixCache.
Definition example_start : RegexUtil.syncmap (M := cache) (V := Z) :=
  (RegexUtil.cachedAddString "idle" 7 RegexUtil.empty_syncmap).2.
Definition example_programs : list (list op) :=
  [[Increment "hits" 5; SetTo "idle" 1]; [Increment "hits" 7]; [Clear "idle"; Increment "hits" (-2)]].
Definition example_schedule : list nat := [0; 1; 2; 1; 0; 0; 2; 0; 2; 2]%nat.

Lemma example_lockstep : RegexUtil.lockstep example_start.
Proof. apply RegexUtil.lockstep_add, RegexUtil.lockstep_empty. Qed.

Lemma concurrent_counters_linearizable_witness :
  let c := run_schedule example_schedule (start example_start example_programs) in
  RegexUtil.lockstep (flat c) /\
  explains (RegexUtil.map example_start) (log c) (RegexUtil.map (flat c)) /\
  forall t p, example_programs !! t = Some p ->
    exists th, threads c !! t = Some th /\ calls_of t (log c) ++ todo th = p.
Proof. exact (concurrent_counters_linearizable _ example_programs example_schedule example_lockstep). Defined.

Lemma counter_calls_complete_witness :
  calls_of 2 (log (run_schedule example_schedule (start example_start example_programs))) =
  [Clear "idle"; Increment "hits" (-2)].
Proof.
  apply (counter_calls_complete example_start example_programs example_schedule 2 _ example_lockstep eq_refl).
  vm_compute. lia.
Defined.

Lemma no_increment_lost_witness :
  default 0 (RegexUtil.map (flat (run_schedule example_schedule (start example_start example_programs))) !! "hits") = 10.
Proof.
  apply (no_increment_lost example_start example_programs example_schedule "hits" example_lockstep).
  - intros t p Ht. do 3 (destruct t as [|t]; [injection Ht as <-; vm_compute; lia|]). done.
  - repeat constructor; done.
  - vm_compute. split; done.
  - vm_compute. repeat constructor.
Defined.
End Example_.
