(* ===== verification/ServiceOptions.v ===== *)
(** * ServiceOptions: the options of [ServiceData]

    [options_], [dynamicOptions_] and [useOptionsAsFlags_] of
    [src/fb303/ServiceData.h] with their operations in [ServiceData.cpp].  gflags,
    glog and [folly::split] are not part of the repository: they are the classes
    [GoogleFlags] and [FollySplit], whose laws state what they document.  A
    dynamic option's getter and setter are program code run under the shared
    lock: they act on the options and on the rest of the program. *)
From S2P Require Import Prelude CounterNames.
From Stdlib Require Import ZArith Lia Ascii String.
From stdpp Require Import base gmap list strings.

Open Scope Z_scope.
Open Scope fb303_scope.

(** ** What the code relies on of gflags and glog

    [W] holds the flags of the program.  [flag_id] is the registry's name of a
    flag: two spellings with one [flag_id] name one flag. *)
Class GoogleFlags (W : Type) := {
  SetCommandLineOption : string -> string -> W -> string * W;    (** empty: nothing was set *)
  GetCommandLineOption : string -> W -> option string;
  GetAllFlags : W -> list (string * string);                     (** name, current value *)
  SetVLOGLevel : string -> Z -> W -> W;
  flag_id : string -> string;

  gf_set : forall n v w m, flag_id m <> flag_id n ->
    GetCommandLineOption m (SetCommandLineOption n v w).2 = GetCommandLineOption m w;
  gf_fail : forall n v w m, (SetCommandLineOption n v w).1 = "" ->
    GetCommandLineOption m (SetCommandLineOption n v w).2 = GetCommandLineOption m w;
  gf_all : forall w, NoDup (GetAllFlags w).*1 /\
    forall n v, (n, v) ∈ GetAllFlags w -> GetCommandLineOption n w = Some v;
  gf_vlog : forall module level w m,
    GetCommandLineOption m (SetVLOGLevel module level w) = GetCommandLineOption m w
}.

(** ** [folly::split] with a one-character delimiter, empty tokens kept *)
Fixpoint join_with (delim : ascii) (tokens : list string) : string :=
  match tokens with
  | [] => ""
  | [t] => t
  | t :: tokens' => t +:+ String delim (join_with delim tokens')
  end.
Class FollySplit := {
  split_on : ascii -> string -> list string;
  fs_join : forall c s, join_with c (split_on c s) = s;
  fs_tokens : forall c s, Forall (fun t => no_char c t = true) (split_on c s);
  fs_nonempty : forall c s, split_on c s <> []
}.

(** ** [atoi] of the C library *)
Definition is_space (c : ascii) : bool :=
  let n := N_of_ascii c in (N.eqb n 32 || (N.leb 9 n && N.leb n 13))%N.
Definition digit_value (c : ascii) : option Z :=
  let n := N_of_ascii c in if (N.leb 48 n && N.leb n 57)%N then Some (Z.of_N n - 48) else None.
Fixpoint digits (acc : Z) (l : list ascii) : Z :=
  match l with
  | [] => acc
  | c :: l' => match digit_value c with Some d => digits (10 * acc + d) l' | None => acc end
  end.
Fixpoint skip_spaces (l : list ascii) : list ascii :=
  match l with c :: l' => if is_space c then skip_spaces l' else l | [] => [] end.
Definition signed_digits (l : list ascii) : Z :=
  match l with
  | [] => 0
  | c :: l' =>
      if Ascii.eqb c "-" then - digits 0 l' else if Ascii.eqb c "+" then digits 0 l' else digits 0 l
  end.
(** Undefined out of the range of [int]. *)
Definition atoi (s : string) : outcome Z :=
  let v := signed_digits (skip_spaces (chars (c_str s))) in
  if (smin 32 <=? v) && (v <=? smax 32) then Ret v else Throw undefined_behaviour.

(** [what()] of a [std::exception]; the others are no exceptions. *)
Definition what (e : exn) : option string :=
  match e with
  | out_of_range m | length_error m | invalid_argument m | runtime_error m => Some m
  | _ => None
  end.

Module ServiceOptions.
Inductive SetOptionResult := Dynamic | CmdlineBlacklisted | CmdlineDisabled | CmdlineNoUpdate | CmdlineUpdated.

Section Model.
Context {W Getter Setter : Type} `{GoogleFlags W} `{FollySplit}.

(** ** State *)
Record DynamicOption := MkDynamic { getter : option Getter; setter : option Setter }.
Record service_options := Options {
  useOptionsAsFlags_ : bool;
  options_ : gmap string string;
  dynamicOptions_ : gmap string DynamicOption
}.
Abbreviation state := (service_options * W)%type.

Definition make : service_options := Options false ∅ ∅.
Definition with_options (m : gmap string string) (s : service_options) : service_options :=
  Options (useOptionsAsFlags_ s) m (dynamicOptions_ s).
Definition with_dynamic (m : gmap string DynamicOption) (s : service_options) : service_options :=
  Options (useOptionsAsFlags_ s) (options_ s) m.

Definition on_options (f : service_options -> service_options) : SE state unit := fun s => (Ret tt, (f s.1, s.2)).
Definition on_flags {A} (f : W -> A * W) : SE state A := fun s => let '(r, w) := f s.2 in (Ret r, (s.1, w)).

Context (run_getter : Getter -> SE state string) (run_setter : Setter -> string -> SE state unit).

(** ** Setting *)
Definition setUseOptionsAsFlags (b : bool) : SE state unit :=
  on_options (fun s => Options b (options_ s) (dynamicOptions_ s)).
Definition getUseOptionsAsFlags (s : state) : bool := useOptionsAsFlags_ s.1.

(** The [<module>=<int>] entries; another entry is only logged. *)
Definition set_vlog (val : string) : SE state unit :=
  match split_on "="%char val with
  | [module; value] =>
      match atoi value with
      | Ret level => on_flags (fun w => (tt, SetVLOGLevel (c_str module) level w))
      | Throw e => se_throw e
      end
  | _ => se_ret tt
  end.
Fixpoint set_vlogs (values : list string) : SE state unit :=
  match values with [] => se_ret tt | v :: values' => set_vlog v >>> set_vlogs values' end.
Definition set_minloglevel : SE state unit :=
  let* _ := on_flags (SetCommandLineOption "minloglevel" "0") in se_ret tt.
Definition setVModuleOption (value : string) : SE state unit :=
  set_vlogs (split_on ","%char value) >>> set_minloglevel.

Definition blacklisted (key : string) : bool := bool_decide (key = "logmailer") || bool_decide (key = "whitelist_flags").
Definition always_flag (key : string) : bool := bool_decide (key = "v") || bool_decide (key = "vmodule").

(** After the static option is stored. *)
Definition set_flag (key value : string) : SE state SetOptionResult :=
  let* s := se_get in
  if blacklisted key then se_ret CmdlineBlacklisted
  else if negb (useOptionsAsFlags_ s.1 || always_flag key) then se_ret CmdlineDisabled
  else
    let* res := on_flags (SetCommandLineOption (c_str key) (c_str value)) in
    if bool_decide (res = "") then se_ret CmdlineNoUpdate
    else
      (if bool_decide (key = "vmodule") then setVModuleOption value
       else if bool_decide (key = "v") then set_minloglevel
       else se_ret tt) >>> se_ret CmdlineUpdated.

Definition setOptionWithResult (key value : string) : SE state SetOptionResult :=
  let* s := se_get in
  match dynamicOptions_ s.1 !! key with
  | Some o =>
      match setter o with Some f => run_setter f value | None => se_ret tt end >>> se_ret Dynamic
  | None =>
      on_options (fun s => with_options (<[key := value]> (options_ s)) s) >>> set_flag key value
  end.
Definition setOption (key value : string) : SE state unit :=
  let* _ := setOptionWithResult key value in se_ret tt.
Definition registerDynamicOption (name : string) (g : option Getter) (f : option Setter) : SE state unit :=
  on_options (fun s => with_dynamic (<[name := MkDynamic g f]> (dynamicOptions_ s)) s).

(** ** Reading *)
Definition no_such_option (key : string) : exn :=
  invalid_argument ("no such option " +:+ String (ascii_of_nat 34) (key +:+ String (ascii_of_nat 34) "")).
Definition getOption (key : string) : SE state string :=
  let* s := se_get in
  match dynamicOptions_ s.1 !! key with
  | Some o => match getter o with Some g => run_getter g | None => se_ret "" end
  | None =>
      match options_ s.1 !! key with
      | Some v => se_ret v
      | None =>
          match GetCommandLineOption (c_str key) s.2 with
          | Some v => se_ret v
          | None => se_throw (no_such_option key)
          end
      end
  end.

(** One entry of [getOptions]: an exception of the getter becomes the value. *)
Definition dynamic_value (o : DynamicOption) : SE state string := fun s =>
  match getter o with
  | None => (Ret "", s)
  | Some g =>
      match run_getter g s with
      | (Ret v, s') => (Ret v, s')
      | (Throw e, s') =>
          match what e with
          | Some m => (Ret ("<error: " +:+ m +:+ ">"), s')
          | None => (Throw e, s')
          end
      end
  end.
Fixpoint add_dynamic (l : list (string * DynamicOption)) (out : gmap string string) : SE state (gmap string string) :=
  match l with
  | [] => se_ret out
  | (k, o) :: l' => let* v := dynamic_value o in add_dynamic l' (<[k := v]> out)
  end.
Definition mergeOptionsWithGflags (w : W) (out : gmap string string) : gmap string string :=
  foldl (fun out nv => <[nv.1 := nv.2]> out) out (GetAllFlags w).
(** The caller's map is cleared first: the static options start it. *)
Definition getOptions : SE state (gmap string string) :=
  let* s := se_get in
  let* out := add_dynamic (map_to_list (dynamicOptions_ s.1)) (options_ s.1) in
  let* s := se_get in
  se_ret (if useOptionsAsFlags_ s.1 then mergeOptionsWithGflags s.2 out else out).
End Model.
Arguments service_options : clear implicits.
Arguments DynamicOption : clear implicits.
End ServiceOptions.
