(* ===== verification/ServiceOptionsCorrect.v ===== *)
(** * ServiceOptionsCorrect: what setting and reading options does

    The result of [setOptionWithResult] on every branch, the flags it may change,
    what the two readers return, and the [vmodule] syntax. *)
From S2P Require Import Prelude CounterNames ServiceOptions.
From Stdlib Require Import ZArith Lia Ascii String.
From stdpp Require Import base gmap list strings pretty.
Import ServiceOptions.

Open Scope Z_scope.
Open Scope fb303_scope.

(** ** Splitting what was joined *)
Lemma first_char_inj (c : ascii) (l l' d d' : list ascii) :
  c ∉ l -> c ∉ l' -> l ++ c :: d = l' ++ c :: d' -> l = l' /\ d = d'.
Proof.
  revert l'. induction l as [|x l IH]; intros [|x' l'] Hl Hl' Heq; simpl in Heq; injection Heq.
  - done.
  - intros _ ->. set_solver.
  - intros _ ->. set_solver.
  - intros Heq' ->. destruct (IH l' ltac:(set_solver) ltac:(set_solver) Heq') as [-> ->]. done.
Qed.

Lemma split_first c (t t' r r' : string) :
  no_char c t = true -> no_char c t' = true ->
  t +:+ String c r = t' +:+ String c r' -> t = t' /\ r = r'.
Proof.
  intros Ht%no_char_not_in Ht'%no_char_not_in E. apply (f_equal list_ascii_of_string) in E.
  rewrite !chars_app in E. simpl in E. apply first_char_inj in E as [E1 E2]; [|done..].
  split; by apply chars_inj.
Qed.

Lemma no_char_cons c t r : no_char c (t +:+ String c r) = false.
Proof. rewrite no_char_app. unfold no_char at 2. simpl. rewrite Ascii.eqb_refl. simpl. apply andb_false_r. Qed.

Lemma join_inj c l l' :
  Forall (fun t => no_char c t = true) l -> Forall (fun t => no_char c t = true) l' ->
  l <> [] -> l' <> [] -> join_with c l = join_with c l' -> l = l'.
Proof.
  revert l'. induction l as [|t l IH]; intros [|t' l'] Hl Hl' Hn Hn' E; try done.
  apply Forall_cons in Hl as [Ht Hl], Hl' as [Ht' Hl'].
  destruct l as [|u l], l' as [|u' l']; cbn [join_with] in E.
  - by subst.
  - exfalso. subst t. by rewrite no_char_cons in Ht.
  - exfalso. subst t'. by rewrite no_char_cons in Ht'.
  - apply split_first in E as [-> E]; [|done..]. f_equal. by apply IH.
Qed.

Lemma split_join `{FollySplit} c l :
  Forall (fun t => no_char c t = true) l -> l <> [] -> split_on c (join_with c l) = l.
Proof. intros Hl Hn. apply (join_inj c); auto using fs_tokens, fs_nonempty. apply fs_join. Qed.

(** ** Reading back a printed integer *)
Lemma digit_of_char n : (n < 10)%N -> digit_value (pretty_N_char n) = Some (Z.of_N n).
Proof.
  intros Hn. destruct n as [|p]; [done|].
  do 4 (destruct p as [p|p|]; try reflexivity; try (exfalso; lia)).
Qed.

Lemma digits_pretty n s : digits 0 (chars (pretty_N_go n s)) = digits (Z.of_N n) (chars s).
Proof.
  revert s. induction (N.lt_wf_0 n) as [n _ IH]; intros s. destruct (decide (0 < n)%N) as [Hn|Hn].
  - rewrite pretty_N_go_step, IH by (done || by apply N.div_lt). simpl.
    rewrite digit_of_char by (by apply N.mod_lt). f_equal.
    pose proof (N.div_mod n 10 ltac:(done)). lia.
  - assert (n = 0%N) as -> by lia. by rewrite pretty_N_go_0.
Qed.

Lemma digits_positive p : digits 0 (chars (pretty (N.pos p))) = Z.pos p.
Proof. unfold pretty, pretty_N. case_decide; [done|]. by rewrite digits_pretty. Qed.

Lemma numeral_not_space c : numeral c = true -> is_space c = false.
Proof. unfold numeral. destruct c as [[] [] [] [] [] [] [] []]; try done. Qed.

Lemma decimal_no_char c z : numeral c = false -> no_char c (decimal z) = true.
Proof.
  intros Hc. unfold no_char. pose proof (decimal_numerals z) as Hn. rewrite !forallb_forall in *.
  intros x Hx. specialize (Hn x Hx). destruct (Ascii.eqb_spec x c) as [->|]; [congruence|done].
Qed.

Lemma signed_decimal z : signed_digits (chars (decimal z)) = z.
Proof.
  destruct z as [|p|p]; [done| |].
  - pose proof (digits_positive p) as Hd. change (pretty (N.pos p)) with (decimal (Z.pos p)) in Hd.
    destruct (chars (decimal (Z.pos p))) as [|c l]; [done|]. simpl in Hd |- *.
    destruct (Ascii.eqb_spec c "-"); [by subst|]. by destruct (Ascii.eqb_spec c "+"); [by subst|].
  - change (decimal (Z.neg p)) with (String "-" (pretty (N.pos p))). simpl. by rewrite digits_positive.
Qed.

Lemma atoi_decimal z : in_s 32 z -> atoi (decimal z) = Ret z.
Proof.
  intros Hz. unfold atoi. rewrite c_str_id by (by apply decimal_no_char).
  assert (Es : skip_spaces (chars (decimal z)) = chars (decimal z)).
  { destruct (decimal_head z) as (c & s & -> & Hc). simpl. by rewrite numeral_not_space. }
  rewrite Es, signed_decimal. by replace (_ && _) with true by (unfold in_s in Hz; lia).
Qed.

(** ** Setting options *)
Section Setting.
Context {W Getter Setter : Type} `{GoogleFlags W} `{FollySplit}.
Abbreviation state := (service_options Getter Setter * W)%type (only parsing).
Context (run_getter : Getter -> SE state string) (run_setter : Setter -> string -> SE state unit).

Definition flag (m : string) (s : state) : option string := GetCommandLineOption m s.2.

(** The flags a call with a non-dynamic [key] may change. *)
Definition may_change (flags_on : bool) (key m : string) : Prop :=
  blacklisted key = false /\ flags_on || always_flag key = true /\
  (flag_id m = flag_id (c_str key) \/ (always_flag key = true /\ flag_id m = flag_id "minloglevel")).

Lemma may_change_always b key m :
  always_flag key = true -> flag_id m = flag_id "minloglevel" -> may_change b key m.
Proof.
  intros Ha Hm. unfold may_change. rewrite Ha, orb_true_r. split; [|auto]. unfold always_flag, blacklisted in *.
  apply orb_true_iff in Ha as [Ha%bool_decide_eq_true|Ha%bool_decide_eq_true]; by subst.
Qed.

(** Setting one flag: the options stay, the other flags stay. *)
Lemma on_set_flag n v (s : state) :
  on_flags (SetCommandLineOption n v) s =
    (Ret (SetCommandLineOption n v s.2).1, (s.1, (SetCommandLineOption n v s.2).2)).
Proof. unfold on_flags. by destruct (SetCommandLineOption n v s.2). Qed.

Lemma set_minloglevel_eq (s : state) :
  set_minloglevel s = (Ret tt, (s.1, (SetCommandLineOption "minloglevel" "0" s.2).2)).
Proof. unfold set_minloglevel, se_bind. by rewrite on_set_flag. Qed.

Definition only_vlog (s : state) (r : outcome unit * state) : Prop :=
  r.2.1 = s.1 /\ (forall m, flag m r.2 = flag m s) /\ (r.1 = Ret tt \/ r.1 = Throw undefined_behaviour).

Lemma set_vlog_effect val (s : state) : only_vlog s (set_vlog val s).
Proof.
  unfold set_vlog. destruct (split_on "=" val) as [|m [|v [|]]]; try (split; [done|]; by auto).
  unfold atoi. case_if; (split; [done|]); split; simpl; auto. intros x. apply gf_vlog.
Qed.

Lemma set_vlogs_effect values (s : state) : only_vlog s (set_vlogs values s).
Proof.
  revert s. induction values as [|v values IH]; intros s; simpl; [by split; auto|].
  unfold se_bind. destruct (set_vlog_effect v s) as (E1 & E2 & E3).
  destruct (set_vlog v s) as [r s1]; cbn [fst snd] in *. destruct E3 as [->| ->]; [|by split; auto].
  destruct (IH s1) as (F1 & F2 & F3). split; [congruence|]. split; [|done]. intros m. by rewrite F2, E2.
Qed.

(** The rest of [set_flag] once gflags has taken the value. *)
Definition after_set (key value : string) : SE state SetOptionResult :=
  (if bool_decide (key = "vmodule") then setVModuleOption value
   else if bool_decide (key = "v") then set_minloglevel
   else se_ret tt) >>> se_ret CmdlineUpdated.

Lemma after_set_effect key value (s : state) :
  let '(r, s') := after_set key value s in
  s'.1 = s.1 /\ (r = Ret CmdlineUpdated \/ (r = Throw undefined_behaviour /\ key = "vmodule")) /\
  forall m, flag m s' <> flag m s -> always_flag key = true /\ flag_id m = flag_id "minloglevel".
Proof.
  assert (Hmin : forall (s : state) m, flag m (s.1, (SetCommandLineOption "minloglevel" "0" s.2).2) <> flag m s ->
            flag_id m = flag_id "minloglevel").
  { intros s0 m Hm. destruct (String.eqb_spec (flag_id m) (flag_id "minloglevel")) as [|Hne]; [done|].
    exfalso. apply Hm. by apply gf_set. }
  unfold after_set, se_bind. case_bool_decide as Hk; [|case_bool_decide as Hv].
  - unfold setVModuleOption, se_bind. destruct (set_vlogs_effect (split_on "," value) s) as (E1 & E2 & E3).
    destruct (set_vlogs (split_on "," value) s) as [r s1]; cbn [fst snd] in *. destruct E3 as [->| ->].
    + rewrite set_minloglevel_eq. cbn [fst snd se_ret]. split; [done|]. split; [auto|]. intros m Hm.
      split; [by subst|]. apply (Hmin s1). by rewrite E2.
    + split; [done|]. split; [auto|]. intros m Hm. by rewrite E2 in Hm.
  - rewrite set_minloglevel_eq. split; [done|]. split; [auto|]. intros m Hm. split; [by subst|]. by apply (Hmin s).
  - split; [done|]. split; [auto|]. done.
Qed.

(** What [set_flag] returns. *)
Definition flag_result (key value : string) (s : state) (r : outcome SetOptionResult) : Prop :=
  if blacklisted key then r = Ret CmdlineBlacklisted
  else if negb (useOptionsAsFlags_ s.1 || always_flag key) then r = Ret CmdlineDisabled
  else if bool_decide ((SetCommandLineOption (c_str key) (c_str value) s.2).1 = "") then r = Ret CmdlineNoUpdate
  else r = Ret CmdlineUpdated \/ (r = Throw undefined_behaviour /\ key = "vmodule").

Lemma set_flag_effect key value (s : state) :
  let '(r, s') := set_flag key value s in
  s'.1 = s.1 /\ flag_result key value s r /\
  (forall m, flag m s' <> flag m s -> may_change (useOptionsAsFlags_ s.1) key m) /\
  (r <> Ret CmdlineUpdated -> r <> Throw undefined_behaviour -> forall m, flag m s' = flag m s).
Proof.
  unfold set_flag, flag_result. unfold se_bind at 1, se_get.
  destruct (blacklisted key) eqn:Hb; [by repeat split|].
  destruct (useOptionsAsFlags_ s.1 || always_flag key) eqn:Ho; simpl negb; cbn iota; [|by repeat split].
  cbn [negb]. cbn iota. rewrite (se_bind_ret _ _ _ _ _ (on_set_flag (c_str key) (c_str value) s)).
  set (s1 := (s.1, (SetCommandLineOption (c_str key) (c_str value) s.2).2)).
  assert (H1 : forall m, flag m s1 <> flag m s -> may_change (useOptionsAsFlags_ s.1) key m).
  { intros m Hm. split; [done|]. split; [done|]. left.
    destruct (String.eqb_spec (flag_id m) (flag_id (c_str key))) as [|Hne]; [done|]. exfalso. apply Hm. by apply gf_set. }
  case_bool_decide as Hres.
  - split; [done|]. split; [done|]. split; [done|]. intros _ _ m. by apply gf_fail.
  - fold (after_set key value). pose proof (after_set_effect key value s1) as Ha.
    destruct (after_set key value s1) as [r s']. destruct Ha as (E1 & E2 & E3).
    split; [done|]. split; [done|]. split; [|by destruct E2 as [->|[-> _]]].
    intros m Hm. destruct (decide (flag m s' = flag m s1)) as [E|E].
    + apply H1. by rewrite <- E.
    + destruct (E3 m E). by apply may_change_always.
Qed.

Lemma setOption_static key value (s : state) :
  dynamicOptions_ s.1 !! key = None ->
  let '(r, s') := setOptionWithResult run_setter key value s in
  s'.1 = with_options (<[key := value]> (options_ s.1)) s.1 /\ flag_result key value s r /\
  (forall m, flag m s' <> flag m s -> may_change (useOptionsAsFlags_ s.1) key m) /\
  (r <> Ret CmdlineUpdated -> r <> Throw undefined_behaviour -> forall m, flag m s' = flag m s).
Proof.
  intros Hd. unfold setOptionWithResult, se_bind at 1, se_get at 1. rewrite Hd.
  unfold se_bind, on_options. exact (set_flag_effect key value (with_options (<[key := value]> (options_ s.1)) s.1, s.2)).
Qed.

(** A run of calls with non-dynamic keys. *)
Fixpoint set_all (l : list (string * string)) : SE state unit :=
  match l with [] => se_ret tt | (k, v) :: l' => setOption run_setter k v >>> set_all l' end.

Lemma set_all_confined l (s : state) :
  (forall k, k ∈ l.*1 -> dynamicOptions_ s.1 !! k = None) ->
  forall m, flag m (set_all l s).2 <> flag m s -> exists k, k ∈ l.*1 /\ may_change (useOptionsAsFlags_ s.1) k m.
Proof.
  revert s. induction l as [|[k v] l IH]; intros s Hd m Hm; [done|]. cbn [set_all] in Hm.
  unfold setOption, se_bind in Hm.
  pose proof (setOption_static k v s (Hd k ltac:(set_solver))) as He.
  destruct (setOptionWithResult run_setter k v s) as [r s1]. destruct He as (E1 & _ & E2 & _).
  destruct (decide (flag m s1 = flag m s)) as [E|E]; [|exists k; split; [set_solver|by apply E2]].
  assert (Hm1 : flag m (set_all l s1).2 <> flag m s1) by (rewrite E; destruct r; [exact Hm|by rewrite <- E in Hm]).
  destruct (IH s1) with (m := m) as (k' & Hk' & Hc); [by rewrite E1; set_solver|done|].
  exists k'. split; [set_solver|]. by rewrite E1 in Hc.
Qed.

(** ** [vmodule] *)
Definition vmodule_text (l : list (string * Z)) : string :=
  join_with "," ((fun ml => ml.1 +:+ String "=" (decimal ml.2)) <$> l).
Definition plain_module (ml : string * Z) : Prop :=
  no_char "," ml.1 = true /\ no_char "=" ml.1 = true /\ no_char nul ml.1 = true /\ in_s 32 ml.2.

Lemma set_vlog_token m level (s : state) :
  plain_module (m, level) -> set_vlog (m +:+ String "=" (decimal level)) s = (Ret tt, (s.1, SetVLOGLevel m level s.2)).
Proof.
  intros (_ & He & Hn & Hr). unfold set_vlog.
  change (m +:+ String "=" (decimal level)) with (join_with "=" [m; decimal level]).
  rewrite split_join by (done || by repeat constructor; [|apply decimal_no_char]).
  rewrite atoi_decimal by done. unfold on_flags. by rewrite c_str_id.
Qed.

Lemma set_vlogs_tokens l (s : state) :
  Forall plain_module l ->
  set_vlogs ((fun ml => ml.1 +:+ String "=" (decimal ml.2)) <$> l) s =
    (Ret tt, (s.1, foldl (fun w ml => SetVLOGLevel ml.1 ml.2 w) s.2 l)).
Proof.
  intros Hl. revert s. induction Hl as [|[m level] l Hm Hl IH]; intros s; [by destruct s|].
  rewrite fmap_cons. cbn [set_vlogs]. rewrite (se_bind_ret _ _ _ _ _ (set_vlog_token m level s Hm)). apply IH.
Qed.

(** ** Getters that only compute *)
Context (val : Getter -> outcome string).
Definition observers : Prop := forall g s, run_getter g s = (val g, s).
(** What [getOptions] shows of a dynamic option; [None]: it does not return. *)
Definition shown (o : DynamicOption Getter Setter) : option string :=
  match getter o with
  | None => Some ""
  | Some g => match val g with
              | Ret v => Some v
              | Throw e => (fun m => "<error: " +:+ m +:+ ">") <$> what e
              end
  end.

Lemma dynamic_value_eq o v (s : state) : observers -> shown o = Some v -> dynamic_value run_getter o s = (Ret v, s).
Proof.
  intros Ho. unfold shown, dynamic_value. destruct (getter o) as [g|]; [|by intros [= <-]].
  rewrite Ho. destruct (val g) as [x|e]; [by intros [= <-]|]. by destruct (what e); intros [= <-].
Qed.

Lemma add_dynamic_eq (l : list (string * DynamicOption Getter Setter)) out (s : state) :
  observers -> NoDup l.*1 -> (forall k o, (k, o) ∈ l -> is_Some (shown o)) ->
  exists out', add_dynamic run_getter l out s = (Ret out', s) /\
    (forall k o, (k, o) ∈ l -> out' !! k = shown o) /\ (forall k, k ∉ l.*1 -> out' !! k = out !! k).
Proof.
  intros Ho. revert out. induction l as [|[k o] l IH]; intros out Hnd Hsh; cbn [add_dynamic].
  { exists out. split; [done|]. split; [|done]. intros k o Hk. by apply elem_of_nil in Hk. }
  apply NoDup_cons in Hnd as [Hk Hnd]. destruct (Hsh k o ltac:(set_solver)) as [v Hv].
  rewrite (se_bind_ret _ _ _ _ _ (dynamic_value_eq o v s Ho Hv)).
  destruct (IH (<[k := v]> out) Hnd ltac:(set_solver)) as (out' & -> & Hin & Hout).
  exists out'. split; [done|]. split.
  - intros k' o' [[= -> ->]|Hk']%elem_of_cons; [|by apply Hin]. rewrite Hout by done. by rewrite lookup_insert_eq.
  - intros k' Hk'. simpl in Hk'. rewrite Hout by set_solver. apply lookup_insert_ne. set_solver.
Qed.

Lemma foldl_flags (l : list (string * string)) (out : gmap string string) k :
  NoDup l.*1 ->
  (forall v, (k, v) ∈ l -> foldl (fun out nv => <[nv.1 := nv.2]> out) out l !! k = Some v) /\
  (k ∉ l.*1 -> foldl (fun out nv => <[nv.1 := nv.2]> out) out l !! k = out !! k).
Proof.
  revert out. induction l as [|[n v] l IH]; intros out Hnd; simpl.
  { split; [|done]. intros v Hv. by apply elem_of_nil in Hv. }
  apply NoDup_cons in Hnd as [Hn Hnd]. destruct (IH (<[n := v]> out) Hnd) as [I1 I2]. split.
  - intros v' [[= -> ->]|Hv]%elem_of_cons; [|by apply I1]. rewrite I2 by done. by rewrite lookup_insert_eq.
  - intros Hk. rewrite I2 by set_solver. apply lookup_insert_ne. set_solver.
Qed.

(** The flag of that very name, if gflags lists it. *)
Definition listed_flag (s : state) (k : string) : option string :=
  if bool_decide (k ∈ (GetAllFlags s.2).*1) then flag k s else None.

Lemma merge_flags (s : state) out k :
  mergeOptionsWithGflags s.2 out !! k = match listed_flag s k with Some v => Some v | None => out !! k end.
Proof.
  unfold mergeOptionsWithGflags, listed_flag. destruct (gf_all s.2) as [Hnd Hall].
  destruct (foldl_flags (GetAllFlags s.2) out k Hnd) as [I1 I2]. case_bool_decide as Hk; [|by apply I2].
  apply list_elem_of_fmap in Hk as ([n v] & -> & Hv). cbn [fst] in *. rewrite (I1 v Hv).
  unfold flag. by rewrite (Hall n v Hv).
Qed.
End Setting.
