(* ===== verification/ServiceOptionsTheorems.v ===== *)
(** * ServiceOptionsTheorems: the contract of the options

    The properties of [ServiceOptions], with a gflags registry kept in a table
    and a splitting function that satisfy the laws. *)
From S2P Require Import Prelude CounterNames ServiceOptions ServiceOptionsCorrect.
From Stdlib Require Import ZArith Lia Ascii String.
From stdpp Require Import base gmap list strings pretty.
Import ServiceOptions.

Open Scope Z_scope.
Open Scope fb303_scope.

(** ** A table of flags, and splitting by recursion *)
Module TableFlags.
Record flags := Flags { table : gmap string string; vlog : list (string * Z) }.
Definition set_flag (n v : string) (w : flags) : string * flags :=
  match table w !! n with
  | Some _ => (n +:+ " set to " +:+ v, Flags (<[n := v]> (table w)) (vlog w))
  | None => ("", w)
  end.
#[local] Obligation Tactic := idtac.
#[export] Program Instance table_flags : GoogleFlags flags := {|
  SetCommandLineOption := set_flag;
  GetCommandLineOption := fun n w => table w !! n;
  GetAllFlags := fun w => map_to_list (table w);
  SetVLOGLevel := fun m l w => Flags (table w) (vlog w ++ [(m, l)]);
  flag_id := id
|}.
Next Obligation.
  intros n v w m Hm. unfold set_flag. destruct (table w !! n); [|done]. simpl. apply lookup_insert_ne. by intros ->.
Qed.
Next Obligation.
  intros n v w m. unfold set_flag. destruct (table w !! n); [|done]. destruct n; done.
Qed.
Next Obligation.
  intros w. split; [apply NoDup_fst_map_to_list|]. intros n v Hn. by apply elem_of_map_to_list in Hn.
Qed.
Next Obligation. done. Qed.

Fixpoint split_chars (c : ascii) (s : string) : list string :=
  match s with
  | EmptyString => [""]
  | String x s' =>
      if Ascii.eqb x c then "" :: split_chars c s'
      else match split_chars c s' with t :: ts => String x t :: ts | [] => [String x ""] end
  end.
Lemma split_chars_facts c s :
  split_chars c s <> [] /\ join_with c (split_chars c s) = s /\ Forall (fun t => no_char c t = true) (split_chars c s).
Proof.
  induction s as [|x s (Hn & Hj & Ht)]; simpl; [by repeat constructor|].
  destruct (Ascii.eqb_spec x c) as [->|Hx].
  - split; [done|]. split; [|by constructor]. rewrite <- Hj at 2. by destruct (split_chars c s).
  - destruct (split_chars c s) as [|t ts]; [done|]. split; [done|]. split.
    + rewrite <- Hj. by destruct ts.
    + apply Forall_cons in Ht as [Ht Hts]. constructor; [|done]. unfold no_char in *. simpl.
      rewrite Ht, andb_true_r. apply negb_true_iff. by apply Ascii.eqb_neq.
Qed.
#[export] Program Instance folly_split : FollySplit := {| split_on := split_chars |}.
Next Obligation. intros. apply split_chars_facts. Qed.
Next Obligation. intros. apply split_chars_facts. Qed.
Next Obligation. intros. apply split_chars_facts. Qed.
End TableFlags.

(** ** Properties *)

(** C28: setOptionWithResult, on every branch.  A key with a dynamic option runs
    its setter, if there is one, and nothing else, and returns Dynamic.  Any other
    key is stored among the static options, and the result says what became of the
    flags: CmdlineBlacklisted for the two refused names, CmdlineDisabled when
    flags are off and the key is neither v nor vmodule, CmdlineNoUpdate when
    gflags refused the value - in these cases no flag has changed - and
    CmdlineUpdated otherwise, the only failure being a vmodule level that no int
    holds. *)
Theorem setOption_results {W G S} `{GoogleFlags W} `{FollySplit}
    (run_setter : S -> string -> SE (service_options G S * W) unit) (key value : string) (s : service_options G S * W) :
  let '(r, s') := setOptionWithResult run_setter key value s in
  match dynamicOptions_ s.1 !! key with
  | Some (MkDynamic _ (Some f)) =>
      s' = (run_setter f value s).2 /\
      r = match (run_setter f value s).1 with Ret _ => Ret Dynamic | Throw e => Throw e end
  | Some (MkDynamic _ None) => r = Ret Dynamic /\ s' = s
  | None =>
      s'.1 = with_options (<[key := value]> (options_ s.1)) s.1 /\ flag_result key value s r /\
      (r <> Ret CmdlineUpdated -> r <> Throw undefined_behaviour -> forall m, flag m s' = flag m s)
  end.
Proof.
  pose proof (setOption_static run_setter key value s) as Hs.
  destruct (dynamicOptions_ s.1 !! key) as [[g [f|]]|] eqn:Ed.
  - unfold setOptionWithResult, se_bind, se_get. rewrite Ed. simpl. by destruct (run_setter f value s) as [[u|e] s'].
  - unfold setOptionWithResult, se_bind, se_get. by rewrite Ed.
  - destruct (setOptionWithResult run_setter key value s). destruct (Hs eq_refl) as (? & ? & _ & ?). done.
Qed.

(** Setting options changes only the flags it is allowed to.  Whatever
    options are set with static keys, a flag that has changed is the one gflags
    resolves one of the keys to, that key not being refused, and being v or
    vmodule unless flags were switched on; or it is minloglevel, changed along
    with v or vmodule. *)
Theorem option_flags_confined {W G S} `{GoogleFlags W} `{FollySplit}
    (run_setter : S -> string -> SE (service_options G S * W) unit)
    (calls : list (string * string)) (s : service_options G S * W) (m : string) :
  (forall k, k ∈ calls.*1 -> dynamicOptions_ s.1 !! k = None) ->
  flag m (set_all run_setter calls s).2 <> flag m s ->
  exists k, k ∈ calls.*1 /\ blacklisted k = false /\ useOptionsAsFlags_ s.1 || always_flag k = true /\
    (flag_id m = flag_id (c_str k) \/ (always_flag k = true /\ flag_id m = flag_id "minloglevel")).
Proof. intros Hd Hm. exact (set_all_confined run_setter calls s Hd m Hm). Qed.

(** GetOption and getOptions, with getters that only compute.  getOption
    prefers the dynamic option, then the static one, then the flag.  getOptions
    lets the dynamic options replace the static ones, shows an exception of a
    getter as an error text, and, when flags are on, lets every flag gflags lists
    replace both.  So the two agree on a key that has an option as long as flags
    are off. *)
Theorem option_readers {W G S} `{GoogleFlags W}
    (run_getter : G -> SE (service_options G S * W) string) (val : G -> outcome string) (s : service_options G S * W) :
  observers run_getter val ->
  (forall k o, dynamicOptions_ s.1 !! k = Some o -> is_Some (shown val o)) ->
  (exists out, getOptions run_getter s = (Ret out, s) /\
    forall k, out !! k =
      match (if useOptionsAsFlags_ s.1 then listed_flag s k else None) with
      | Some v => Some v
      | None => match dynamicOptions_ s.1 !! k with Some o => shown val o | None => options_ s.1 !! k end
      end) /\
  forall k, getOption run_getter k s =
    (match dynamicOptions_ s.1 !! k with
     | Some o => match getter o with Some g => val g | None => Ret "" end
     | None => match options_ s.1 !! k with
               | Some v => Ret v
               | None => match flag (c_str k) s with Some v => Ret v | None => Throw (no_such_option k) end
               end
     end, s).
Proof.
  intros Ho Hsh. split.
  - destruct (add_dynamic_eq run_getter val (map_to_list (dynamicOptions_ s.1)) (options_ s.1) s Ho
      (NoDup_fst_map_to_list _)) as (out & Ea & Hin & Hout).
    { intros k o Hk%elem_of_map_to_list. by apply (Hsh k). }
    exists (if useOptionsAsFlags_ s.1 then mergeOptionsWithGflags s.2 out else out). split.
    + unfold getOptions, se_bind, se_get. by rewrite Ea.
    + intros k. assert (Hk : out !! k = match dynamicOptions_ s.1 !! k with Some o => shown val o | None => options_ s.1 !! k end).
      { destruct (dynamicOptions_ s.1 !! k) as [o|] eqn:E; [by apply Hin, elem_of_map_to_list|]. apply Hout.
        intros Hk. apply list_elem_of_fmap in Hk as ([k' o] & -> & Hk). apply elem_of_map_to_list in Hk. by simpl in E; rewrite Hk in E. }
      destruct (useOptionsAsFlags_ s.1); [|done]. by rewrite merge_flags, Hk.
  - intros k. unfold getOption, se_bind, se_get, flag.
    destruct (dynamicOptions_ s.1 !! k) as [o|]; [by destruct (getter o)|].
    destruct (options_ s.1 !! k); [done|]. by destruct (GetCommandLineOption (c_str k) s.2).
Qed.

(** The vmodule syntax round-trips.  Setting vmodule to the text
    [m1=l1,m2=l2,...] of a non-empty list of plain module names and int levels
    sets exactly these log levels, in that order, and then minloglevel. *)
Theorem vmodule_round_trip {W G S} `{GoogleFlags W} `{FollySplit} (l : list (string * Z)) (s : service_options G S * W) :
  l <> [] -> Forall plain_module l ->
  setVModuleOption (vmodule_text l) s =
    (Ret tt, (s.1, (SetCommandLineOption "minloglevel" "0" (foldl (fun w ml => SetVLOGLevel ml.1 ml.2 w) s.2 l)).2)).
Proof.
  intros Hl Hp. unfold setVModuleOption, vmodule_text. rewrite split_join.
  - rewrite (se_bind_ret _ _ _ _ _ (set_vlogs_tokens l s Hp)). by rewrite set_minloglevel_eq.
  - apply Forall_fmap. eapply Forall_impl; [exact Hp|]. intros [m level] (Hc & _). cbn [fst snd] in Hc |- *.
    unfold compose. cbn [fst snd] in Hc |- *. rewrite no_char_app, Hc. unfold no_char. simpl. by apply (decimal_no_char ",").
  - by destruct l.
Qed.

(** The refused names hold no NUL, and as C strings end at the first one. *)
Lemma c_str_nul (k rest : string) : no_char nul k = true -> c_str (k +:+ String nul rest) = k.
Proof.
  induction k as [|c k IH]; [done|]. unfold no_char in *. cbn [list_ascii_of_string forallb].
  rewrite andb_true_iff, negb_true_iff, str_cons_app. intros [Hc Hk]. cbn [c_str]. by rewrite Hc, (IH Hk).
Qed.
Lemma c_str_split (key : string) : key = c_str key \/ exists rest, key = c_str key +:+ String nul rest.
Proof.
  induction key as [|c key IH]; [by left|]. cbn [c_str]. destruct (Ascii.eqb_spec c nul) as [->|_]; [right; by exists key|].
  destruct IH as [IH|[rest IH]]; [left; by rewrite <- IH|right; exists rest]. by rewrite str_cons_app, <- IH.
Qed.
Lemma blacklisted_cases k : blacklisted k = true -> k = "logmailer" \/ k = "whitelist_flags".
Proof. unfold blacklisted. rewrite orb_true_iff, !bool_decide_eq_true. done. Qed.

(** C35: the refused names can be reached.  Let [k] be a refused name and flags be
    on.  The keys whose C string is [k] are [k] itself and [k] followed by a NUL
    byte and any other bytes.  setOptionWithResult of [k] returns
    CmdlineBlacklisted and sets no flag; but of any of the others, if it is no
    dynamic option, it makes gflags set the flag [k] to the value and returns
    CmdlineUpdated, or CmdlineNoUpdate when gflags refused the value. *)
Theorem blacklist_bypassed_by_nul {W G S} `{GoogleFlags W} `{FollySplit}
    (run_setter : S -> string -> SE (service_options G S * W) unit) (k value : string) (s : service_options G S * W) :
  blacklisted k = true -> useOptionsAsFlags_ s.1 = true ->
  (forall key, c_str key = k <-> key = k \/ exists rest, key = k +:+ String nul rest) /\
  (dynamicOptions_ s.1 !! k = None ->
     setOptionWithResult run_setter k value s =
       (Ret CmdlineBlacklisted, (with_options (<[k := value]> (options_ s.1)) s.1, s.2))) /\
  (forall rest, let key := k +:+ String nul rest in
     dynamicOptions_ s.1 !! key = None ->
     setOptionWithResult run_setter key value s =
       let '(res, w) := SetCommandLineOption k (c_str value) s.2 in
       (Ret (if bool_decide (res = "") then CmdlineNoUpdate else CmdlineUpdated),
        (with_options (<[key := value]> (options_ s.1)) s.1, w))).
Proof.
  intros Hk Hon. assert (Hn : no_char nul k = true) by (by destruct (blacklisted_cases k Hk) as [-> | ->]).
  split; [|split].
  - intros key. split.
    + intros <-. destruct (c_str_split key) as [E|[rest E]]; [by left|right; by exists rest].
    + intros [->|[rest ->]]; [|by apply c_str_nul]. by destruct (blacklisted_cases k Hk) as [-> | ->].
  - intros Hd. unfold setOptionWithResult, set_flag, on_options, se_bind, se_get. rewrite Hd. cbn. by rewrite Hk.
  - intros rest key Hd. assert (Hkey : blacklisted key = false /\ always_flag key = false /\ c_str key = k).
    { split; [|split; [|by apply c_str_nul]]; unfold key; by destruct (blacklisted_cases k Hk) as [-> | ->]. }
    destruct Hkey as (Hb & Ha & Hc). unfold setOptionWithResult, set_flag, on_options, on_flags, se_bind, se_get.
    rewrite Hd. cbn. rewrite Hb, Ha, Hon, Hc. cbn. destruct (SetCommandLineOption k (c_str value) s.2) as [res w]. cbn.
    case_bool_decide; [done|]. apply orb_false_iff in Ha as [-> ->]. done.
Qed.

(** ** Examples *)
Section Example_.
Import TableFlags.
Definition example_flags : flags :=
  Flags {[ "v" := "0"; "logmailer" := "mail"; "minloglevel" := "1"; "port" := "80" ]} [].
Definition example_getter (g : bool) : outcome string :=
  if g then Ret "up" else Throw (runtime_error "down").
Definition run_example (g : bool) : SE (service_options bool string * flags) string := fun s => (example_getter g, s).
(** A setter that stores under its own name. *)
Definition run_example_setter (f value : string) : SE (service_options bool string * flags) unit := fun s =>
  (Ret tt, (with_options (<[f := value]> (options_ s.1)) s.1, s.2)).
Definition example_state (on : bool) : service_options bool string * flags :=
  (Options on {[ "port" := "8080"; "name" := "x" ]}
     {[ "health" := MkDynamic (Some true) (Some "last"); "disk" := MkDynamic (Some false) None ]}, example_flags).

Lemma blacklist_bypassed_by_nul_witness :
  let key := "logmailer" +:+ String nul "!" in
  blacklisted "logmailer" = true /\ useOptionsAsFlags_ (example_state true).1 = true /\
  (setOptionWithResult run_example_setter key "sh" (example_state true)).1 = Ret CmdlineUpdated /\
  flag "logmailer" (setOptionWithResult run_example_setter key "sh" (example_state true)).2 = Some "sh" /\
  setOptionWithResult run_example_setter "logmailer" "sh" (example_state true) =
    (Ret CmdlineBlacklisted,
     (with_options (<["logmailer" := "sh"]> (options_ (example_state true).1)) (example_state true).1, example_flags)).
Proof.
  intros key. split; [reflexivity|]. split; [reflexivity|].
  destruct (blacklist_bypassed_by_nul run_example_setter "logmailer" "sh" (example_state true)) as (_ & Hk & Hkey);
    [reflexivity|reflexivity|].
  unfold key. rewrite (Hkey "!") by reflexivity. split; [vm_compute; reflexivity|]. split; [vm_compute; reflexivity|].
  apply Hk. reflexivity.
Defined.

Lemma option_flags_confined_witness :
  exists k, k ∈ ["name"; "port"; "v"; "logmailer"] /\ blacklisted k = false /\
    useOptionsAsFlags_ (example_state false).1 || always_flag k = true /\
    (flag_id (W := flags) "v" = flag_id (c_str k) \/ (always_flag k = true /\ flag_id "v" = flag_id "minloglevel")).
Proof.
  apply (option_flags_confined run_example_setter [("name", "y"); ("port", "1"); ("v", "3"); ("logmailer", "z")] (example_state false) "v").
  - intros k Hk. simpl in Hk. repeat (apply elem_of_cons in Hk as [->|Hk]; [done|]). by apply elem_of_nil in Hk.
  - vm_compute. done.
Defined.

Lemma option_readers_witness :
  observers run_example example_getter /\
  (exists out, getOptions run_example (example_state true) = (Ret out, example_state true) /\
    forall k, out !! k =
      match (if useOptionsAsFlags_ (example_state true).1 then listed_flag (example_state true) k else None) with
      | Some v => Some v
      | None => match dynamicOptions_ (example_state true).1 !! k with
                | Some o => shown example_getter o | None => options_ (example_state true).1 !! k end
      end) /\
  forall k, getOption run_example k (example_state true) =
    (match dynamicOptions_ (example_state true).1 !! k with
     | Some o => match getter o with Some g => example_getter g | None => Ret "" end
     | None => match options_ (example_state true).1 !! k with
               | Some v => Ret v
               | None => match flag (c_str k) (example_state true) with
                         | Some v => Ret v | None => Throw (no_such_option k) end
               end
     end, example_state true).
Proof.
  assert (Ho : observers run_example example_getter) by done. split; [exact Ho|].
  apply (option_readers run_example example_getter (example_state true) Ho).
  intros k o Hk. unfold shown. destruct (getter o) as [[]|]; vm_compute; eauto.
Defined.

Lemma vmodule_round_trip_witness :
  setVModuleOption (vmodule_text [("net*", 2); ("disk", -1)]) (example_state false) =
    (Ret tt, ((example_state false).1,
      Flags {[ "v" := "0"; "logmailer" := "mail"; "minloglevel" := "0"; "port" := "80" ]} [("net*", 2); ("disk", -1)])).
Proof.
  etransitivity; [apply (vmodule_round_trip [("net*", 2); ("disk", -1)] (example_state false)); [done|]|by vm_compute].
  repeat constructor; vm_compute; congruence.
Defined.
End Example_.
