(* ===== verification/ServiceData.v ===== *)
(** * ServiceData: the service's counters, statistics, strings and options

    [src/fb303/ServiceData.h] and [ServiceData.cpp], which own one of each of the
    other components: flat counters, the maps of time series, of histograms and
    of quantile stats, the dynamic counters and strings those export to, the
    exported values and the options.  The state is the [ServiceData] object with
    the legacy clock and the rest of the program, [W]; a component's operation
    runs on its part of it.  A dynamic counter is a closure of one of the
    exporters or one the program registered. *)
From S2P Require Import Prelude RegexUtil FlatCounters CallbackValuesMap CallbackRegistry ExportType Timeseries CounterNames NamedCallbacks TimeseriesExporter HistogramExporter HistogramNames ExportedStatMap ExportedHistogramMap QuantileStat QuantileStatMap ServiceOptions.
From Stdlib Require Import ZArith Lia Ascii String SpecFloat.
From stdpp Require Import base gmap list strings.

Open Scope Z_scope.
Open Scope fb303_scope.
Import LegacyClock.

(** [folly::to<int32_t>] and boost's regular expressions. *)
Class TextParsers := {
  to_int32 : string -> outcome Z;
  boost_regex : Type;
  make_boost_regex : string -> outcome boost_regex;
  regex_match : string -> boost_regex -> bool
}.

(** A dynamic counter and a dynamic string. *)
Inductive counter_callback (U : Type) :=
  | StatCounter (v : TimeseriesExporter.stat_value)
  | HistogramCounter (v : HistogramExporter.hist_value)
  | UserCounter (u : U).
Arguments StatCounter {U} v.
Arguments HistogramCounter {U} v.
Arguments UserCounter {U} u.
Inductive string_callback (U : Type) :=
  | HistogramString (v : HistogramExporter.hist_buckets)
  | UserString (u : U).
Arguments HistogramString {U} v.
Arguments UserString {U} u.

Module ServiceData.
Section Model.
Context {M : Type} `{RegexMatchCache M} {TS Hg HV : Type} `{FollyHistogram TS Hg HV}.
Context {E : Type} `{QuantileEstimator E} `{NumberFormat}.
Context {U US Getter Setter W : Type} `{GoogleFlags W} `{FollySplit} `{TextParsers}.
Context (hash : string -> Z).

Abbreviation counters := (RegexUtil.syncmap (M := M) (V := Z)).
Abbreviation dynamic_counters := (CallbackValuesMap.cvm (counter_callback U) M).
Abbreviation dynamic_strings := (CallbackValuesMap.cvm (string_callback US) M).

(** ** State *)
Record state := State {
  aliveSince_ : Z;
  options : ServiceOptions.service_options Getter Setter;          (** the three option fields *)
  counters_ : counters;
  exportedValues_ : gmap string string;
  dynamicCounters_ : dynamic_counters;
  dynamicStrings_ : dynamic_strings;
  statsMap_ : ExportedStatMap.statmap TS;
  quantileMap_ : QuantileStatMap.state E M;
  histMap_ : ExportedHistogramMap.histmap TS Hg;
  stats_clock : clock;                              (** outside the object *)
  world : W
}.

Definition with_options o s := State (aliveSince_ s) o (counters_ s) (exportedValues_ s) (dynamicCounters_ s)
  (dynamicStrings_ s) (statsMap_ s) (quantileMap_ s) (histMap_ s) (stats_clock s) (world s).
Definition with_counters c s := State (aliveSince_ s) (options s) c (exportedValues_ s) (dynamicCounters_ s)
  (dynamicStrings_ s) (statsMap_ s) (quantileMap_ s) (histMap_ s) (stats_clock s) (world s).
Definition with_values v s := State (aliveSince_ s) (options s) (counters_ s) v (dynamicCounters_ s)
  (dynamicStrings_ s) (statsMap_ s) (quantileMap_ s) (histMap_ s) (stats_clock s) (world s).
Definition with_dynamic c s := State (aliveSince_ s) (options s) (counters_ s) (exportedValues_ s) c
  (dynamicStrings_ s) (statsMap_ s) (quantileMap_ s) (histMap_ s) (stats_clock s) (world s).
Definition with_strings c s := State (aliveSince_ s) (options s) (counters_ s) (exportedValues_ s) (dynamicCounters_ s)
  c (statsMap_ s) (quantileMap_ s) (histMap_ s) (stats_clock s) (world s).
Definition with_statsMap m s := State (aliveSince_ s) (options s) (counters_ s) (exportedValues_ s) (dynamicCounters_ s)
  (dynamicStrings_ s) m (quantileMap_ s) (histMap_ s) (stats_clock s) (world s).
Definition with_quantileMap m s := State (aliveSince_ s) (options s) (counters_ s) (exportedValues_ s) (dynamicCounters_ s)
  (dynamicStrings_ s) (statsMap_ s) m (histMap_ s) (stats_clock s) (world s).
Definition with_histMap m s := State (aliveSince_ s) (options s) (counters_ s) (exportedValues_ s) (dynamicCounters_ s)
  (dynamicStrings_ s) (statsMap_ s) (quantileMap_ s) m (stats_clock s) (world s).
Definition with_clock c s := State (aliveSince_ s) (options s) (counters_ s) (exportedValues_ s) (dynamicCounters_ s)
  (dynamicStrings_ s) (statsMap_ s) (quantileMap_ s) (histMap_ s) c (world s).
Definition with_world w s := State (aliveSince_ s) (options s) (counters_ s) (exportedValues_ s) (dynamicCounters_ s)
  (dynamicStrings_ s) (statsMap_ s) (quantileMap_ s) (histMap_ s) (stats_clock s) w.

(** ** Running a component's operation on its part *)
Definition on_part {P A} (get : state -> P) (set : P -> state -> state) (f : SE P A) : SE state A := fun s =>
  let '(r, p) := f (get s) in (r, set p s).
Definition on_flat {A} : SE counters A -> SE state A := on_part counters_ with_counters.
Definition on_quantiles {A} : SE (QuantileStatMap.state E M) A -> SE state A := on_part quantileMap_ with_quantileMap.
Definition on_stats {A} : SE (ExportedStatMap.statmap TS * dynamic_counters) A -> SE state A :=
  on_part (fun s => (statsMap_ s, dynamicCounters_ s)) (fun p s => with_dynamic p.2 (with_statsMap p.1 s)).
Definition on_hists {A} : SE (ExportedHistogramMap.histmap TS Hg * (dynamic_counters * dynamic_strings)) A -> SE state A :=
  on_part (fun s => (histMap_ s, (dynamicCounters_ s, dynamicStrings_ s)))
    (fun p s => with_strings p.2.2 (with_dynamic p.2.1 (with_histMap p.1 s))).
Definition on_clock {A} : SE clock A -> SE state A := on_part stats_clock with_clock.
(** Code that runs callbacks sees its own part and everything. *)
Definition on_dynamic {A} : SE (dynamic_counters * state) A -> SE state A :=
  on_part (fun s => (dynamicCounters_ s, s)) (fun p _ => with_dynamic p.1 p.2).
Definition on_strings {A} : SE (dynamic_strings * state) A -> SE state A :=
  on_part (fun s => (dynamicStrings_ s, s)) (fun p _ => with_strings p.1 p.2).
Definition on_opts {A} : SE (ServiceOptions.service_options Getter Setter * state) A -> SE state A :=
  on_part (fun s => (options s, s)) (fun p _ => with_options p.1 p.2).
(** The other way round: a callback of the whole program inside such code. *)
Definition in_dynamic {A} : SE state A -> SE (dynamic_counters * state) A :=
  fun f p => let '(r, s) := f (with_dynamic p.1 p.2) in (r, (dynamicCounters_ s, s)).
Definition in_strings {A} : SE state A -> SE (dynamic_strings * state) A :=
  fun f p => let '(r, s) := f (with_strings p.1 p.2) in (r, (dynamicStrings_ s, s)).
Definition in_opts {A} : SE state A -> SE (ServiceOptions.service_options Getter Setter * state) A :=
  fun f p => let '(r, s) := f (with_options p.1 p.2) in (r, (options s, s)).

(** The exporters' view of the two maps of callbacks. *)
#[local] Instance counters_registry : NamedCallbacks dynamic_counters (counter_callback U) := callback_values_map hash.
#[local] Instance strings_registry : NamedCallbacks dynamic_strings (string_callback US) := callback_values_map hash.

(** The flags are those of the world. *)
#[local] Obligation Tactic := idtac.
#[local] Program Instance state_flags : GoogleFlags state := {|
  SetCommandLineOption := fun n v s =>
    ((SetCommandLineOption n v (world s)).1, with_world (SetCommandLineOption n v (world s)).2 s);
  GetCommandLineOption := fun n s => GetCommandLineOption n (world s);
  GetAllFlags := fun s => GetAllFlags (world s);
  SetVLOGLevel := fun m l s => with_world (SetVLOGLevel m l (world s)) s;
  flag_id := flag_id (W := W)
|}.
Next Obligation. intros n v s m. apply gf_set. Qed.
Next Obligation. intros n v s m. apply gf_fail. Qed.
Next Obligation. intros s. apply gf_all. Qed.
Next Obligation. intros. apply gf_vlog. Qed.

(** What other threads do between the lock regions of an operation. *)
Context (gap_flat : counters -> counters) (gap_values : gmap string string -> gmap string string).
Context (gap_stats : ExportedStatMap.statmap TS * dynamic_counters -> ExportedStatMap.statmap TS * dynamic_counters).
Context (gap_hists : ExportedHistogramMap.histmap TS Hg * (dynamic_counters * dynamic_strings) ->
                     ExportedHistogramMap.histmap TS Hg * (dynamic_counters * dynamic_strings)).
Context (gap_quantiles : QuantileStatMap.state E M -> QuantileStatMap.state E M).
Context (time_source : nat -> Z).

(** ** Construction *)
Definition statsMap_make : outcome (ExportedStatMap.statmap TS) :=
  match construct MinuteTenMinuteHourTimeSeries with
  | Ret t => Ret (ExportedStatMap.make [AVG] t)
  | Throw e => Throw e
  end.
(** [ExportedHistogram(1000, 0, 10000)] with its default container. *)
Definition histMap_make : outcome (ExportedHistogramMap.histmap TS Hg) :=
  match construct HistogramMinuteTenMinuteHourTimeSeries with
  | Ret c => match th_make 1000 0 10000 c with
             | Ret h => Ret (ExportedHistogramMap.make c h)
             | Throw e => Throw e
             end
  | Throw e => Throw e
  end.
Definition make (now : Z) (w : W) : outcome state :=
  match statsMap_make, histMap_make with
  | Ret m, Ret h => Ret (State now ServiceOptions.make RegexUtil.empty_syncmap ∅ CallbackValuesMap.make
                           CallbackValuesMap.make m QuantileStatMap.empty_state h (Clock 0) w)
  | Throw e, _ => Throw e
  | _, Throw e => Throw e
  end.

(** ** All data *)
Definition modify (f : state -> state) : SE state unit := fun s => (Ret tt, f s).
Definition flushAllData : SE state unit :=
  on_stats ExportedStatMap.flushAllStats >>>
  modify (fun s => with_quantileMap (QuantileStatMap.flushAll (quantileMap_ s)) s).
Definition resetAllData : SE state unit :=
  modify (fun s => with_options (ServiceOptions.with_options ∅ (options s)) s) >>>
  modify (fun s => with_counters (RegexUtil.cachedClearStrings (counters_ s)) s) >>>
  modify (with_values ∅) >>>
  on_stats ExportedStatMap.forgetAllStats >>>
  modify (fun s => with_quantileMap (QuantileStatMap.forgetAll (quantileMap_ s)) s) >>>
  on_hists ExportedHistogramMap.forgetAllHistograms >>>
  on_part dynamicStrings_ with_strings CallbackValuesMap.clear >>>
  on_part dynamicCounters_ with_dynamic CallbackValuesMap.clear.
Definition zeroStats : SE state unit :=
  modify (fun s => with_counters (FlatCounters.zero_all (counters_ s)) s) >>>
  on_stats ExportedStatMap.clearAllStats >>>
  on_hists ExportedHistogramMap.clearAllHistograms.

(** ** Time series and histograms *)
Definition addStatExportType (key : string) (type : ExportType) (statPrototype : option TS) (updateOnRead : bool)
  : SE state unit := on_stats (ExportedStatMap.exportStat_type StatCounter gap_stats key type statPrototype updateOnRead).

Definition addHistogram (key : string) (hist : Hg) : SE state bool :=
  on_hists (ExportedHistogramMap.addHistogram HistogramString gap_hists key hist).
Definition addHistogram_width (key : string) (bucketSize min max : Z) : SE state bool :=
  on_hists (ExportedHistogramMap.addHistogram_width HistogramString key bucketSize min max).
Definition exportHistogramPercentile (key : string) (pct : Z) : SE state unit :=
  let* _ := on_hists (ExportedHistogramMap.exportPercentile HistogramCounter key pct) in se_ret tt.
Definition exportHistogram (key : string) (it : HistogramNames.item) : SE state unit :=
  let* _ := on_hists (ExportedHistogramMap.export_one HistogramCounter key it) in se_ret tt.
(** The overloads with several arguments. *)
Fixpoint exportHistograms (key : string) (it : HistogramNames.item) (more : list HistogramNames.item) : SE state unit :=
  match more with
  | [] => exportHistogram key it
  | it' :: more' => exportHistogram key it >>> exportHistograms key it' more'
  end.

(** [addStatExports]: token by token. *)
Definition stat_token (stat : string) : option ExportType :=
  if bool_decide (stat = "AVG") then Some AVG
  else if bool_decide (stat = "RATE") then Some RATE
  else if bool_decide (stat = "SUM") then Some SUM
  else if bool_decide (stat = "COUNT") then Some COUNT
  else None.
Definition lift {A} (o : outcome A) : SE state A := fun s => (o, s).
Definition add_token_histogram (key : string) (bucketSize min max : Z) : SE state unit :=
  if bucketSize <=? 0 then
    se_throw (runtime_error ("bucketSize for " +:+ key +:+ " must be greater than zero (" +:+ decimal bucketSize +:+ ")"))
  else
    let* c := on_hists ExportedHistogramMap.getDefaultStat in
    let* hist := lift (th_make bucketSize min max c) in
    let* _ := addHistogram key hist in se_ret tt.
Fixpoint export_tokens (key : string) (bucketSize min max : Z) (addedHist : bool) (tokens : list string) : SE state unit :=
  match tokens with
  | [] => se_ret tt
  | stat :: tokens' =>
      match stat_token stat with
      | Some type =>
          addStatExportType key type None true >>> export_tokens key bucketSize min max addedHist tokens'
      | None =>
          (if addedHist then se_ret tt else add_token_histogram key bucketSize min max) >>>
          let* pct := lift (to_int32 stat) in
          exportHistogramPercentile key pct >>> export_tokens key bucketSize min max true tokens'
      end
  end.
Definition addStatExports (key stats : string) (bucketSize min max : Z) : SE state unit :=
  let* present := on_hists (ExportedHistogramMap.contains key) in
  if present : bool then se_ret tt else export_tokens key bucketSize min max false (split_on ","%char stats).

Definition addStatValue (key : string) (value now : Z) : SE state unit :=
  on_stats (ExportedStatMap.addValue StatCounter gap_stats key now value 1).
Definition addStatValue_type (key : string) (value : Z) (exportType : ExportType) (now : Z) : SE state unit :=
  on_stats (ExportedStatMap.addValue_type StatCounter gap_stats key now value exportType).
Definition addStatValue_types (key : string) (value : Z) (exportTypes : list ExportType) (now : Z) : SE state unit :=
  on_stats (ExportedStatMap.addValue_types StatCounter gap_stats key now value exportTypes).
Definition addStatValueAggregated (key : string) (sum numSamples now : Z) : SE state unit :=
  on_stats (ExportedStatMap.addValueAggregated StatCounter gap_stats key now sum numSamples).

(** [!checkContains || histMap_.contains(key)], then [add] at the legacy time. *)
Definition if_contained (checkContains : bool) (key : string) (m : SE state unit) : SE state unit :=
  let* present := (if checkContains then on_hists (ExportedHistogramMap.contains key) else se_ret true) in
  if present : bool then m else se_ret tt.
Definition add_now (key : string) (value times : Z) : SE state unit :=
  let* now := on_clock (get_legacy_stats_time time_source) in
  on_hists (ExportedHistogramMap.addValue key now value times).
Definition addHistogramValue (key : string) (value : Z) (checkContains : bool) : SE state unit :=
  if_contained checkContains key (add_now key value 1).
Definition addHistogramValueMult (key : string) (value times : Z) (checkContains : bool) : SE state unit :=
  if_contained checkContains key (add_now key value times).
Definition addHistAndStatValue (key : string) (value : Z) (checkContains : bool) (now : Z) : SE state unit :=
  addStatValue key value now >>> if_contained checkContains key (add_now key value 1).
(** The time is in seconds; the series of the stat map count milliseconds. *)
Definition addHistAndStatValues (key : string) (values : HV) (now sum nsamples : Z) (checkContains : bool) : SE state unit :=
  addStatValueAggregated key sum nsamples (now * milliseconds) >>>
  if_contained checkContains key (on_hists (ExportedHistogramMap.addValues key now values)).

(** ** Quantile stats *)

(** A period of a minute or more is cut into sixty windows. *)
Fixpoint window_defs (periods : list Z) : outcome (list (Z * Z)) :=
  match periods with
  | [] => Ret []
  | slidingWindowLength :: periods' =>
      let duration := wraps 64 slidingWindowLength in
      if (60 <=? slidingWindowLength) && negb (Z.rem duration 60 =? 0) then Throw check_failed
      else
        match window_defs periods' with
        | Ret l => Ret ((if 60 <=? slidingWindowLength then (Z.quot duration 60, 60) else (1, slidingWindowLength)) :: l)
        | Throw e => Throw e
        end
  end.
Definition stat_defs (types : list ExportType) (quantiles : list double) : list QuantileStatMap.StatDef :=
  ((fun t => QuantileStatMap.MkDef t (S754_zero false)) <$> types) ++
  ((fun q => QuantileStatMap.MkDef PERCENT q) <$> quantiles).
Definition getQuantileStat (name : string) (types : list ExportType) (quantiles : list double)
    (slidingWindowPeriods : list Z) (now : Z) : SE state nat :=
  let* s := se_get in
  match QuantileStatMap.get name (quantileMap_ s) with
  | Some stat => se_ret stat
  | None =>
      let* defs := lift (window_defs slidingWindowPeriods) in
      let* stat := on_quantiles (QuantileStatMap.make_stat defs now) in
      on_quantiles (QuantileStatMap.registerQuantileStat gap_quantiles name stat (stat_defs types quantiles))
  end.

(** ** Flat counters *)
Definition incrementCounter (key : string) (amount : Z) : SE state Z := on_flat (FlatCounters.incrementCounter gap_flat key amount).
Definition setCounter (key : string) (value : Z) : SE state Z := on_flat (FlatCounters.setCounter gap_flat key value).
Definition clearCounter (key : string) : SE state unit := on_flat (FlatCounters.clearCounter key).

(** ** Exported values; writing *)
Definition setExportedValue (key value : string) : SE state unit := modify (fun s =>
  match exportedValues_ s !! key with
  | Some _ => with_values (<[key := value]> (exportedValues_ s)) s
  | None => with_values (<[key := value]> (gap_values (exportedValues_ s))) s
  end).
Definition deleteExportedKey (key : string) : SE state unit := modify (fun s =>
  match exportedValues_ s !! key with
  | None => s
  | Some _ => with_values (delete key (gap_values (exportedValues_ s))) s
  end).

(** ** Options *)
Context (run_getter : Getter -> SE state string) (run_setter : Setter -> string -> SE state unit).
Definition setOptionWithResult (key value : string) : SE state ServiceOptions.SetOptionResult :=
  on_opts (ServiceOptions.setOptionWithResult (fun f v => in_opts (run_setter f v)) key value).
Definition getOption (key : string) : SE state string :=
  on_opts (ServiceOptions.getOption (fun g => in_opts (run_getter g)) key).
Definition getOptions : SE state (gmap string string) :=
  on_opts (ServiceOptions.getOptions (fun g => in_opts (run_getter g))).
End Model.
Arguments state : clear implicits.
End ServiceData.
