(* ===== verification/ServiceReads.v ===== *)
(** * ServiceReads: reading the counters and exported values of [ServiceData]

    The getters of [src/fb303/ServiceData.cpp].  A counter may be flat, come from
    a quantile stat or be dynamic; reading a dynamic one runs its callback, which
    may change anything.  The callbacks the exporters register are those of
    [ExportedStatMap] and [ExportedHistogramMap]. *)
From S2P Require Import Prelude RegexUtil FlatCounters CallbackValuesMap NamedCallbacks TimeseriesExporter HistogramExporter ExportedStatMap ExportedHistogramMap QuantileStat QuantileStatMap ServiceOptions ServiceData.
From Stdlib Require Import ZArith Lia Ascii String.
From stdpp Require Import base gmap list strings.
Import ServiceData.

Open Scope Z_scope.
Open Scope fb303_scope.
Import LegacyClock.

Module ServiceReads.
Section Model.
Context {M : Type} `{RegexMatchCache M} {TS Hg HV : Type} `{FollyHistogram TS Hg HV}.
Context {E : Type} `{QuantileEstimator E} `{NumberFormat} `{TextParsers}.
Context {U US Getter Setter W : Type}.
Context (hash : string -> Z).
Abbreviation state := (ServiceData.state M TS Hg E U US Getter Setter W).

(** The callbacks the program registered, and the clock. *)
Context (run_user : U -> SE state Z) (run_user_string : US -> SE state string).
Context (time_source : nat -> Z).
(** [FLAGS_fb303_qstat_legacy_use_count_for_rate], and the heap operations. *)
Context (legacy : bool).
Context (make_heap down_heap :
  (list (string * nat) -> list (string * nat) -> bool) ->
  list (list (string * nat)) -> list (list (string * nat))).

(** ** Callbacks *)
Definition read_stat (v : TimeseriesExporter.stat_value) : SE state Z :=
  on_part (fun s => (stats_clock s, (statsMap_ s, dynamicCounters_ s)))
    (fun p s => with_clock p.1 (with_dynamic p.2.2 (with_statsMap p.2.1 s)))
    (ExportedStatMap.read_counter time_source v).
Definition hist_part (s : state) := (stats_clock s, (histMap_ s, (dynamicCounters_ s, dynamicStrings_ s))).
Definition set_hist_part (p : clock * (ExportedHistogramMap.histmap TS Hg * (_ * _))) (s : state) : state :=
  with_clock p.1 (with_strings p.2.2.2 (with_dynamic p.2.2.1 (with_histMap p.2.1 s))).
Definition read_hist (v : HistogramExporter.hist_value) : SE state Z :=
  on_part hist_part set_hist_part (ExportedHistogramMap.read_counter time_source v).
Definition read_buckets (v : HistogramExporter.hist_buckets) : SE state string :=
  on_part hist_part set_hist_part (ExportedHistogramMap.read_string time_source v).
Definition run_counter (cb : counter_callback U) : SE state Z :=
  match cb with
  | StatCounter v => read_stat v
  | HistogramCounter v => read_hist v
  | UserCounter u => run_user u
  end.
Definition run_string (cb : string_callback US) : SE state string :=
  match cb with HistogramString v => read_buckets v | UserString u => run_user_string u end.

(** [dynamicCounters_.getValue] and [getCounters], [dynamicStrings_.getValue] and [getValues]. *)
Definition dynamic_value (key : string) : SE state (option Z) :=
  on_dynamic (CallbackValuesMap.getValue hash (fun cb => in_dynamic (run_counter cb)) key).
Definition string_value (key : string) : SE state (option string) :=
  on_strings (CallbackValuesMap.getValue hash (fun cb => in_strings (run_string cb)) key).
(** The values are added to [out].  When a callback throws, the caller's map keeps
    what was added before, and here it is dropped with the result. *)
Definition dynamic_values (out : gmap string Z) : SE state (gmap string Z) := fun s =>
  let '(r, (p, out')) :=
    CallbackValuesMap.getValues (fun cb => in_dynamic (run_counter cb)) make_heap down_heap (dynamicCounters_ s, s, out) in
  (match r with Ret _ => Ret out' | Throw e => Throw e end, with_dynamic p.1 p.2).
Definition string_values (out : gmap string string) : SE state (gmap string string) := fun s =>
  let '(r, (p, out')) :=
    CallbackValuesMap.getValues (fun cb => in_strings (run_string cb)) make_heap down_heap (dynamicStrings_ s, s, out) in
  (match r with Ret _ => Ret out' | Throw e => Throw e end, with_strings p.1 p.2).

(** ** One counter; [now] and [later] are the two reads of the steady clock. *)
Definition getCounterIfExists (now later : Z) (key : string) : SE state (option Z) :=
  let* ret := dynamic_value key in
  match ret with
  | Some v => se_ret (Some v)
  | None =>
      let* quantileValue := on_quantiles (QuantileStatMap.getValue legacy now later key) in
      match quantileValue with
      | Some v => se_ret (Some v)
      | None => let* s := se_get in se_ret (FlatCounters.lookup_flat key (counters_ s))
      end
  end.
Definition no_such_counter (key : string) : exn :=
  invalid_argument ("no such counter " +:+ String (ascii_of_nat 34) (key +:+ String (ascii_of_nat 34) "")).
Definition getCounter (now later : Z) (key : string) : SE state Z :=
  let* ret := getCounterIfExists now later key in
  match ret with Some v => se_ret v | None => se_throw (no_such_counter key) end.
Definition hasCounter (key : string) : SE state bool :=
  let* dynamic := on_part dynamicCounters_ with_dynamic (CallbackValuesMap.contains hash key) in
  if dynamic : bool then se_ret true
  else
    let* s := se_get in
    if QuantileStatMap.contains key (quantileMap_ s) then se_ret true
    else se_ret (bool_decide (is_Some (FlatCounters.lookup_flat key (counters_ s)))).

(** ** Many counters *)
Definition getCounters (now : Z) (out : gmap string Z) : SE state (gmap string Z) :=
  let* s := se_get in
  let* out := on_quantiles (QuantileStatMap.getValues legacy now (FlatCounters.add_flat out (counters_ s))) in
  dynamic_values out.

Fixpoint select_dynamic (keys : list string) (out : gmap string Z) : SE state (gmap string Z) :=
  match keys with
  | [] => se_ret out
  | key :: keys' =>
      let* ret := dynamic_value key in
      select_dynamic keys' (match ret with Some v => <[key := v]> out | None => out end)
  end.
Definition getSelectedCounters (now : Z) (keys : list string) (out : gmap string Z) : SE state (gmap string Z) :=
  let* s := se_get in
  let* out := select_dynamic keys (FlatCounters.select_flat keys (counters_ s) out) in
  on_quantiles (QuantileStatMap.getSelectedValues legacy now keys out).

Definition getKeys (s : state) (keys : list string) : list string := FlatCounters.getKeys keys (counters_ s).
Definition getCounterKeys (s : state) : list string :=
  getKeys s [] ++ QuantileStatMap.getKeys (quantileMap_ s) ++ CallbackValuesMap.getKeys (dynamicCounters_ s).
Definition getNumCounters (s : state) : Z :=
  Z.of_nat (size (RegexUtil.map (counters_ s))) + Z.of_nat (QuantileStatMap.getNumKeys (quantileMap_ s)) +
  Z.of_nat (CallbackValuesMap.getNumKeys (dynamicCounters_ s)).

(** The keys of the three sources that match, then their values. *)
Context (gaps_flat : nat -> RegexUtil.syncmap (M := M) (V := Z) -> RegexUtil.syncmap (M := M) (V := Z)).
Context (gaps_quantiles : nat -> RegexUtil.syncmap (M := M) (V := QuantileStatMap.CounterMapEntry) ->
         RegexUtil.syncmap (M := M) (V := QuantileStatMap.CounterMapEntry)).
Context (gaps_dynamic : nat -> RegexUtil.syncmap (M := M) (V := nat) -> RegexUtil.syncmap (M := M) (V := nat)).
Definition getRegexCounters (r : regex) (regex_now : time_point) (now : Z) (out : gmap string Z) : SE state (gmap string Z) :=
  let* flat := on_flat (RegexUtil.cachedFindMatchesSnapshot (gaps_flat 0%nat) (gaps_flat 1%nat) (gaps_flat 2%nat) r regex_now None) in
  let* quantile := on_quantiles (QuantileStatMap.getRegexKeys gaps_quantiles r regex_now) in
  let* dynamic := on_part dynamicCounters_ with_dynamic (CallbackValuesMap.getRegexKeys gaps_dynamic r regex_now) in
  getSelectedCounters now (flat.1 ++ quantile ++ dynamic) out.
Definition trimRegexCache (expiry : time_point) (s : state) : state :=
  with_dynamic (CallbackValuesMap.trimRegexCache expiry (dynamicCounters_ s))
    (with_quantileMap (QuantileStatMap.trimRegexCache expiry (quantileMap_ s))
       (with_counters (RegexUtil.cachedTrimStale expiry (counters_ s)) s)).

(** ** Exported values *)

(** [_return] is left alone when the key has no value. *)
Definition getExportedValue (_return key : string) : SE state string :=
  let* v := string_value key in
  match v with
  | Some x => se_ret x
  | None => let* s := se_get in se_ret (default _return (exportedValues_ s !! key))
  end.
(** [operator[]] then an assignment: the values replace. *)
Definition getExportedValues (out : gmap string string) : SE state (gmap string string) :=
  let* s := se_get in string_values (exportedValues_ s ∪ out).
Fixpoint select_values (keys : list string) (m out : gmap string string) : gmap string string :=
  match keys with
  | [] => out
  | k :: keys' => select_values keys' m (match m !! k with Some v => <[k := v]> out | None => out end)
  end.
Fixpoint select_strings (keys : list string) (out : gmap string string) : SE state (gmap string string) :=
  match keys with
  | [] => se_ret out
  | key :: keys' =>
      let* v := string_value key in
      select_strings keys' (match v with Some x => <[key := x]> out | None => out end)
  end.
Definition getSelectedExportedValues (keys : list string) (out : gmap string string) : SE state (gmap string string) :=
  let* s := se_get in select_strings keys (select_values keys (exportedValues_ s) out).
Definition getRegexExportedValues (regex : string) (out : gmap string string) : SE state (gmap string string) :=
  let* regexObject := lift (make_boost_regex regex) in
  let* all := getExportedValues ∅ in
  se_ret (filter (fun kv => regex_match kv.1 regexObject = true) all ∪ out).
End Model.
End ServiceReads.
