(* ===== verification/ServiceCorrect.v ===== *)
(** * ServiceCorrect: where the value of a counter comes from

    The readers of [ServiceReads] when no name changes hands while they run: a
    dynamic counter [k] reports [dyn k], and its callback leaves the flat
    counters, the quantile stats and the registrations alone. *)
From S2P Require Import Prelude RegexUtil FlatCounters CallbackValuesMap CallbackRegistry CallbackMerge CallbackCorrect NamedCallbacks TimeseriesExporter HistogramExporter QuantileStat QuantileStatMap QuantileCorrect QuantileReads ServiceOptions ServiceData ServiceReads.
From Stdlib Require Import ZArith Lia Ascii String.
From stdpp Require Import base gmap list strings.
Import ServiceData ServiceReads.

Open Scope Z_scope.
Open Scope fb303_scope.

Section Reads.
Context {M : Type} `{RegexMatchCache M} {TS Hg HV : Type} `{FollyHistogram TS Hg HV}.
Context {E : Type} `{QuantileEstimator E} `{NumberFormat} `{TextParsers}.
Context {U US Getter Setter W : Type} (hash : string -> Z).
Abbreviation state := (ServiceData.state M TS Hg E U US Getter Setter W).
Context (run_user : U -> SE state Z) (time_source : nat -> Z).
Context (make_heap down_heap :
  (list (string * nat) -> list (string * nat) -> bool) ->
  list (list (string * nat)) -> list (list (string * nat))).
Abbreviation run_counter := (ServiceReads.run_counter run_user time_source).
Abbreviation invoke := (fun cb => in_dynamic (run_counter cb)).

(** ** Quiet callbacks *)
Definition same_sources (s s' : state) : Prop :=
  dynamicCounters_ s' = dynamicCounters_ s /\ counters_ s' = counters_ s /\ quantileMap_ s' = quantileMap_ s.

(** [calm] is kept while the counters are read. *)
Record quiet_callbacks (calm : state -> Prop) (dyn : string -> option Z) : Prop := {
  qc_wf : forall s, calm s -> CallbackRegistry.wf hash (dynamicCounters_ s);
  qc_quantiles : forall s q, calm s -> calm (with_quantileMap q s);
  qc_run : forall s k, calm s ->
    match lookup_cb hash (dynamicCounters_ s) k with
    | None => dyn k = None
    | Some cb => exists v s', dyn k = Some v /\ run_counter cb s = (Ret v, s') /\ calm s' /\ same_sources s s'
    end
}.

Lemma same_refl (s : state) : same_sources s s.
Proof. by repeat split. Qed.
Lemma same_trans (s1 s2 s3 : state) : same_sources s1 s2 -> same_sources s2 s3 -> same_sources s1 s3.
Proof. intros (? & ? & ?) (? & ? & ?). repeat split; congruence. Qed.
Lemma with_own_dynamic (s : state) : with_dynamic (dynamicCounters_ s) s = s.
Proof. by destruct s. Qed.

Context (calm : state -> Prop) (dyn : string -> option Z) (Hq : quiet_callbacks calm dyn).

Lemma invoke_eq cb s v s' :
  run_counter cb s = (Ret v, s') -> invoke cb (dynamicCounters_ s, s) = (Ret v, (dynamicCounters_ s', s')).
Proof. intros Er. unfold in_dynamic. cbn [fst snd]. by rewrite with_own_dynamic, Er. Qed.

Lemma dynamic_value_reads k s :
  calm s -> exists s', dynamic_value hash run_user time_source k s = (Ret (dyn k), s') /\ calm s' /\ same_sources s s'.
Proof.
  intros Hc. unfold dynamic_value, on_dynamic, on_part.
  rewrite (getValue_effect hash invoke _ s k (qc_wf _ _ Hq s Hc)). pose proof (qc_run _ _ Hq s k Hc) as Hr.
  destruct (lookup_cb hash (dynamicCounters_ s) k) as [cb|].
  - destruct Hr as (v & s' & -> & Er & Hc' & Hs). rewrite (se_bind_ret _ _ _ _ _ (invoke_eq cb s v s' Er)).
    cbn. rewrite with_own_dynamic. by exists s'.
  - cbn. rewrite Hr, with_own_dynamic. exists s. by split; [|split; [|apply same_refl]].
Qed.

(** A registered entry and its callback. *)
Lemma registered_entry (c : CallbackValuesMap.cvm (counter_callback U) M) n p :
  CallbackRegistry.wf hash c -> registered hash c n p ->
  exists cb, CallbackValuesMap.entries c !! p = Some (CallbackValuesMap.Entry n (Some cb)) /\ lookup_cb hash c n = Some cb.
Proof.
  intros Hw (sm & Hsm & Hp). pose proof (lookup_cb_shard hash c n sm Hw Hsm) as Hl. by rewrite Hp in Hl.
Qed.

Lemma visit_entry_reads n p s out :
  calm s -> registered hash (dynamicCounters_ s) n p ->
  exists v s', dyn n = Some v /\ calm s' /\ same_sources s s' /\
    CallbackValuesMap.visit_entry invoke (n, p) (dynamicCounters_ s, s, out) =
      (Ret tt, (dynamicCounters_ s', s', <[n := v]> out)).
Proof.
  intros Hc Hr. destruct (registered_entry _ n p (qc_wf _ _ Hq s Hc) Hr) as (cb & He & Hl).
  pose proof (qc_run _ _ Hq s n Hc) as Hrun. rewrite Hl in Hrun. destruct Hrun as (v & s' & Ev & Er & Hc' & Hs).
  exists v, s'. split; [done|]. split; [done|]. split; [done|].
  unfold CallbackValuesMap.visit_entry, CallbackValuesMap.on_state, CallbackValuesMap.entry_getValue, CallbackValuesMap.entry_name, CallbackValuesMap.write_output, se_bind, se_get, se_ret.
  cbn [fst snd]. rewrite He. cbn [CallbackValuesMap.callback_]. rewrite (invoke_eq cb s v s' Er).
  cbn [fst snd]. destruct Hs as (-> & _). by rewrite He.
Qed.

Lemma visit_reads l s out :
  calm s -> (forall n p, (n, p) ∈ l -> registered hash (dynamicCounters_ s) n p) ->
  exists out' s', visit invoke l (dynamicCounters_ s, s, out) = (Ret tt, (dynamicCounters_ s', s', out')) /\
    calm s' /\ same_sources s s' /\
    forall k, out' !! k = if bool_decide (k ∈ l.*1) then dyn k else out !! k.
Proof.
  revert s out. induction l as [|[n p] l IH]; intros s out Hc Hr; cbn [visit].
  { exists out, s. split; [done|]. split; [done|]. split; [apply same_refl|]. intros k. by rewrite bool_decide_eq_false_2 by apply not_elem_of_nil. }
  destruct (visit_entry_reads n p s out Hc (Hr n p ltac:(left))) as (v & s1 & Ev & Hc1 & Hs1 & E1).
  rewrite (se_bind_ret _ _ _ _ _ E1).
  destruct (IH s1 (<[n := v]> out) Hc1) as (out' & s' & -> & Hc' & Hs' & Hout).
  { intros n' p' Hn'. rewrite (proj1 Hs1). apply Hr. by right. }
  exists out', s'. split; [done|]. split; [done|]. split; [by apply (same_trans s s1)|]. intros k. rewrite Hout.
  rewrite fmap_cons. cbn [fst]. destruct (decide (k = n)) as [->|Hne].
  - rewrite lookup_insert_eq, (bool_decide_eq_true_2 (n ∈ n :: _)) by left. case_bool_decide; done.
  - rewrite lookup_insert_ne by done. rewrite (bool_decide_ext (k ∈ n :: l.*1) (k ∈ l.*1)); [done|]. rewrite elem_of_cons. tauto.
Qed.

Lemma dynamic_values_reads `{HeapOps make_heap down_heap} s out :
  calm s ->
  exists out' s', dynamic_values run_user time_source make_heap down_heap out s = (Ret out', s') /\
    calm s' /\ same_sources s s' /\
    forall k, out' !! k = match dyn k with Some v => Some v | None => out !! k end.
Proof.
  intros Hc. pose proof (qc_wf _ _ Hq s Hc) as Hw. unfold dynamic_values.
  destruct (getValues_visit hash invoke make_heap down_heap (dynamicCounters_ s) s out Hw) as (l & _ & Hl & ->).
  destruct (visit_reads l s out Hc) as (out' & s' & -> & Hc' & Hs' & Hout); [intros n p; apply Hl|].
  cbn [fst snd]. rewrite with_own_dynamic. exists out', s'. split; [done|]. split; [done|]. split; [done|].
  intros k. rewrite Hout. pose proof (qc_run _ _ Hq s k Hc) as Hr. case_bool_decide as Hk.
  - apply list_elem_of_fmap in Hk as ([n p] & -> & Hn). cbn [fst] in *. apply Hl in Hn.
    destruct (registered_entry _ n p Hw Hn) as (cb & _ & E1). rewrite E1 in Hr. by destruct Hr as (v & s1 & -> & _).
  - destruct (lookup_cb hash (dynamicCounters_ s) k) as [cb|] eqn:El; [|by rewrite Hr]. exfalso. apply Hk.
    unfold lookup_cb in El. destruct (CallbackValuesMap.callbackMaps_ (dynamicCounters_ s) !! _) as [sm|] eqn:Esm; [|done].
    simpl in El. destruct (RegexUtil.map sm !! k) as [p|] eqn:Ep; [|done].
    apply list_elem_of_fmap. exists (k, p). split; [done|]. apply Hl. by exists sm.
Qed.

Lemma select_dynamic_reads keys s out :
  calm s ->
  exists out' s', select_dynamic hash run_user time_source keys out s = (Ret out', s') /\ calm s' /\ same_sources s s' /\
    forall k, out' !! k = if bool_decide (k ∈ keys) then overwrite (dyn k) (out !! k) else out !! k.
Proof.
  revert s out. induction keys as [|n keys IH]; intros s out Hc; cbn [select_dynamic].
  { exists out, s. split; [done|]. split; [done|]. split; [apply same_refl|]. done. }
  destruct (dynamic_value_reads n s Hc) as (s1 & E1 & Hc1 & Hs1). rewrite (se_bind_ret _ _ _ _ _ E1).
  destruct (IH s1 (match dyn n with Some v => <[n := v]> out | None => out end) Hc1) as (out' & s' & -> & Hc' & Hs' & Hout).
  exists out', s'. split; [done|]. split; [done|]. split; [by apply (same_trans s s1)|]. intros k. rewrite Hout.
  destruct (decide (k = n)) as [->|Hne].
  - rewrite (bool_decide_eq_true_2 (n ∈ n :: _)) by left.
    assert (Eo : match dyn n with Some v => <[n := v]> out | None => out end !! n = overwrite (dyn n) (out !! n))
      by (destruct (dyn n); [by rewrite lookup_insert_eq|done]).
    rewrite Eo, overwrite_again. by case_bool_decide.
  - rewrite (bool_decide_ext (k ∈ n :: keys) (k ∈ keys)) by (rewrite elem_of_cons; tauto).
    destruct (dyn n); [by rewrite lookup_insert_ne|done].
Qed.

Lemma select_flat_lookup keys (c : RegexUtil.syncmap (M := M) (V := Z)) out k :
  FlatCounters.select_flat keys c out !! k =
    if bool_decide (k ∈ keys) then overwrite (RegexUtil.map c !! k) (out !! k) else out !! k.
Proof.
  revert out. induction keys as [|n keys IH]; intros out; cbn [FlatCounters.select_flat]; [done|]. rewrite IH.
  destruct (decide (k = n)) as [->|Hne].
  - rewrite (bool_decide_eq_true_2 (n ∈ n :: _)) by left.
    assert (Eo : match RegexUtil.map c !! n with Some v => <[n := v]> out | None => out end !! n = overwrite (RegexUtil.map c !! n) (out !! n))
      by (destruct (RegexUtil.map c !! n); [by rewrite lookup_insert_eq|done]).
    rewrite Eo, overwrite_again. by case_bool_decide.
  - rewrite (bool_decide_ext (k ∈ n :: keys) (k ∈ keys)) by (rewrite elem_of_cons; tauto).
    destruct (RegexUtil.map c !! n); [by rewrite lookup_insert_ne|done].
Qed.
End Reads.
