(* ===== verification/ServiceTheorems.v ===== *)
(** * ServiceTheorems: the contract of [ServiceData]

    Which source a counter is read from, what [getQuantileStat] creates, how
    [addStatExports] refuses a histogram, and what [resetAllData] leaves. *)
From S2P Require Import Prelude RegexUtil FlatCounters CallbackValuesMap CallbackRegistry CallbackMerge CallbackCorrect ExportType Timeseries CounterNames NamedCallbacks TimeseriesExporter HistogramExporter ExportedStatMap ExportedHistogramMap QuantileStat QuantileStatMap QuantileCorrect QuantileReads QuantileTheorems ServiceOptions ServiceOptionsTheorems ServiceData ServiceReads ServiceCorrect.
From Stdlib Require Import ZArith Lia Ascii String SpecFloat.
From stdpp Require Import base gmap list strings.
Import ServiceData ServiceReads.

Open Scope Z_scope.
Open Scope fb303_scope.

(** ** Sliding windows *)
Definition period_ok (p : Z) : bool := (p <? 60) || (p mod 60 =? 0).
Definition period_range (p : Z) : Prop := 0 < p < 2 ^ 63.

Lemma in_u_in_s x : 0 <= x < 2 ^ 63 -> in_u 64 x /\ in_s 64 x.
Proof. intros Hx. unfold in_u, in_s, smin, smax. lia. Qed.

Lemma window_length_eq d n : 0 <= d * n < 2 ^ 63 -> QuantileStat.slidingWindowLength (QuantileStat.Window d n) = d * n.
Proof.
  intros [Hu Hs]%in_u_in_s. unfold QuantileStat.slidingWindowLength. simpl.
  rewrite wrapu_small by done. by apply wraps_small.
Qed.

Lemma make_cons d l now {E} `{QuantileEstimator E} :
  QuantileStat.getSlidingWindowLengths (QuantileStat.make (d :: l) now) =
    QuantileStat.slidingWindowLength (QuantileStat.Window d.1 d.2) ::
    QuantileStat.getSlidingWindowLengths (QuantileStat.make l now).
Proof. reflexivity. Qed.

Lemma window_defs_eq periods now {E} `{QuantileEstimator E} :
  Forall period_range periods ->
  match window_defs periods with
  | Ret defs => forallb period_ok periods = true /\
      QuantileStat.getSlidingWindowLengths (QuantileStat.make defs now) = periods
  | Throw e => e = check_failed /\ forallb period_ok periods = false
  end.
Proof.
  intros Hp. induction Hp as [|p periods Hp Hps IH]; [done|]. cbn [window_defs forallb]. unfold period_range in Hp.
  rewrite (wraps_small 64 p) by (lia || by apply in_u_in_s; lia). rewrite Z.rem_mod_nonneg by lia.
  change (period_ok p) with ((p <? 60) || (p mod 60 =? 0)).
  destruct (Z.leb_spec 60 p) as [H60|H60].
  - rewrite (proj2 (Z.ltb_ge p 60)) by lia. simpl. destruct (Z.eqb_spec (p mod 60) 0) as [Em|Em]; [|done]. simpl.
    destruct (window_defs periods) as [l|e]; [|done]. destruct IH as [-> IH]. split; [done|].
    rewrite make_cons, IH. cbn [fst snd]. f_equal. rewrite Z.quot_div_nonneg by lia. pose proof (Z.div_mod p 60 ltac:(lia)). rewrite window_length_eq; lia.
  - rewrite (proj2 (Z.ltb_lt p 60)) by lia. simpl. destruct (window_defs periods) as [l|e]; [|done].
    destruct IH as [-> IH]. split; [done|].
    rewrite make_cons, IH. cbn [fst snd]. f_equal. rewrite window_length_eq; lia.
Qed.

Section Theorems.
Context {M : Type} `{RegexMatchCache M} {TS Hg HV : Type} `{FollyHistogram TS Hg HV}.
Context {E : Type} `{QuantileEstimator E} `{NumberFormat} `{TextParsers} `{FollySplit}.
Context {U US Getter Setter W : Type} (hash : string -> Z).
Abbreviation state := (ServiceData.state M TS Hg E U US Getter Setter W).
Context (run_user : U -> SE state Z) (time_source : nat -> Z) (legacy : bool).
Context (make_heap down_heap :
  (list (string * nat) -> list (string * nat) -> bool) ->
  list (list (string * nat)) -> list (list (string * nat))).

(** C21: where a counter's value comes from.  While the dynamic counters only
    report ([dyn]) and touch neither the flat counters nor the quantile stats, no
    reader fails, and for every name: getCounterIfExists and hasCounter take the
    dynamic counter, else the quantile, else the flat counter, and getCounter
    throws exactly when there is none; getCounters lets the dynamic counter win
    over the flat one and that over the quantile; getSelectedCounters the
    quantile over the dynamic one and that over the flat one.  So all readers
    agree on a name that only one source has. *)
Theorem counters_by_source (calm : state -> Prop) (dyn : string -> option Z) (now : Z) (s : state) :
  HeapOps make_heap down_heap -> quiet_callbacks hash run_user time_source calm dyn -> calm s ->
  inv (quantileMap_ s) -> ordered_defs (quantileMap_ s) ->
  let quant := value_at legacy now (quantileMap_ s) in
  let flat := fun k => FlatCounters.lookup_flat k (counters_ s) in
  let one := fun k => overwrite (dyn k) (overwrite (quant k) (flat k)) in
  (forall k, (getCounterIfExists hash run_user time_source legacy now now k s).1 = Ret (one k)) /\
  (forall k, (getCounter hash run_user time_source legacy now now k s).1 =
     match one k with Some v => Ret v | None => Throw (no_such_counter k) end) /\
  (forall k, (hasCounter hash k s).1 = Ret (bool_decide (is_Some (one k)))) /\
  (exists all, (getCounters run_user time_source legacy make_heap down_heap now ∅ s).1 = Ret all /\
     forall k, all !! k = overwrite (dyn k) (overwrite (flat k) (quant k))) /\
  (forall keys, exists out, (getSelectedCounters hash run_user time_source legacy now keys ∅ s).1 = Ret out /\
     forall k, out !! k = if bool_decide (k ∈ keys) then overwrite (quant k) (overwrite (dyn k) (flat k)) else None).
Proof.
  intros Hh Hq Hc Hi Ho quant flat one.
  assert (Hone : forall k, (getCounterIfExists hash run_user time_source legacy now now k s).1 = Ret (one k)).
  { intros k. unfold getCounterIfExists, one.
    destruct (dynamic_value_reads hash run_user time_source calm dyn Hq k s Hc) as (s1 & E1 & Hc1 & Ed & Ec & Eq).
    rewrite (se_bind_ret _ _ _ _ _ E1). destruct (dyn k) as [v|]; [done|]. simpl overwrite.
    destruct (getValue_reads legacy now (quantileMap_ s) k Hi Ho) as (q' & E2 & _).
    unfold se_bind, on_quantiles, on_part. rewrite Eq, E2. fold quant.
    destruct (quant k); [done|]. unfold se_get, se_ret. simpl. by rewrite Ec. }
  split; [done|]. split; [|split; [|split]].
  - intros k. specialize (Hone k). unfold getCounter, se_bind.
    destruct (getCounterIfExists hash run_user time_source legacy now now k s) as [[o|e] s']; [|done].
    injection Hone as ->. by destruct (one k).
  - intros k. unfold hasCounter, se_bind, on_part. rewrite (contains_eq hash _ k (qc_wf _ _ _ _ _ Hq s Hc)).
    pose proof (qc_run _ _ _ _ _ Hq s k Hc) as Hr. unfold one.
    destruct (lookup_cb hash (dynamicCounters_ s) k) as [cb|].
    { destruct Hr as (v & s1 & -> & _). done. }
    rewrite Hr. rewrite bool_decide_eq_false_2 by (intros [? ?]; done). cbn [se_get overwrite].
    rewrite with_own_dynamic. pose proof (value_exists legacy now (quantileMap_ s) k Hi) as Hv.
    unfold quant. destruct (QuantileStatMap.contains k (quantileMap_ s)).
    + destruct (proj2 Hv eq_refl) as [v ->]. done.
    + destruct (value_at legacy now (quantileMap_ s) k) eqn:Ev; [exfalso; by assert (false = true) by (apply Hv; eauto)|]. done.
  - unfold getCounters, se_bind, se_get, on_quantiles, on_part.
    destruct (getValues_into legacy now (quantileMap_ s) (FlatCounters.add_flat ∅ (counters_ s)) Hi Ho) as (out & q' & -> & _ & Hout).
    destruct (dynamic_values_reads hash run_user time_source make_heap down_heap calm dyn Hq (with_quantileMap q' s) out
      (qc_quantiles _ _ _ _ _ Hq s q' Hc)) as (all & s' & -> & _ & _ & Hall).
    exists all. split; [done|]. intros k. rewrite Hall, Hout. unfold FlatCounters.add_flat, flat, FlatCounters.lookup_flat.
    rewrite (left_id_L ∅ (∪)). by destruct (dyn k).
  - intros keys. unfold getSelectedCounters, se_bind, se_get.
    destruct (select_dynamic_reads hash run_user time_source calm dyn Hq keys s
      (FlatCounters.select_flat keys (counters_ s) ∅) Hc) as (out & s1 & -> & _ & (_ & _ & Eq) & Hout).
    unfold on_quantiles, on_part. rewrite Eq.
    destruct (getSelectedValues_into legacy now (quantileMap_ s) keys out Hi Ho) as (out' & q' & -> & _ & Hout').
    exists out'. split; [done|]. intros k. rewrite Hout', Hout, select_flat_lookup, lookup_empty.
    case_bool_decide; [|done]. fold (quant k). unfold flat, FlatCounters.lookup_flat.
    by destruct (RegexUtil.map (counters_ s) !! k).
Qed.

Context (gap_stats : ExportedStatMap.statmap TS * CallbackValuesMap.cvm (counter_callback U) M ->
                     ExportedStatMap.statmap TS * CallbackValuesMap.cvm (counter_callback U) M).
Context (gap_hists : ExportedHistogramMap.histmap TS Hg *
                       (CallbackValuesMap.cvm (counter_callback U) M * CallbackValuesMap.cvm (string_callback US) M) ->
                     ExportedHistogramMap.histmap TS Hg *
                       (CallbackValuesMap.cvm (counter_callback U) M * CallbackValuesMap.cvm (string_callback US) M)).

(** GetQuantileStat.  For periods of type size_t in the range of seconds, the
    call aborts, changing nothing, if the name is new and a period of a minute or
    more is no multiple of a minute.  A call that returns has registered the stat it
    returns, so that a later call for the name returns it again and changes
    nothing; and if the name was not registered, here or by another thread in
    between, the stat's sliding windows have exactly the periods asked for. *)
Theorem quantile_stat_as_requested (gap : QuantileStatMap.state E M -> QuantileStatMap.state E M)
    (name : string) (types : list ExportType) (quantiles : list double) (periods : list Z) (now : Z) (s : state) :
  (forall q, inv q -> inv (gap q) /\ keeps q (gap q)) -> inv (quantileMap_ s) -> Forall period_range periods ->
  let get := fun s : state => QuantileStatMap.get name (quantileMap_ s) in
  match getQuantileStat gap name types quantiles periods now s with
  | (Ret p, s') =>
      get s' = Some p /\ inv (quantileMap_ s') /\
      getQuantileStat gap name types quantiles periods now s' = (Ret p, s') /\
      (get s = None -> forallb period_ok periods = true) /\
      (get s = None -> (forall q, QuantileStatMap.bases q !! name = None -> QuantileStatMap.bases (gap q) !! name = None) ->
       exists q, QuantileStatMap.stats (quantileMap_ s') !! p = Some q /\ QuantileStat.getSlidingWindowLengths q = periods)
  | (Throw e, s') => get s = None /\ (forallb period_ok periods = false -> e = check_failed /\ s' = s)
  end.
Proof.
  intros Hgap Hi Hp get. unfold getQuantileStat, se_bind at 1, se_get at 1. fold (get s).
  destruct (get s) as [p|] eqn:Eg.
  { split; [done|]. split; [done|]. split; [|by split]. unfold getQuantileStat, se_bind, se_get. fold (get s). by rewrite Eg. }
  pose proof (window_defs_eq periods now Hp) as Hd. unfold se_bind at 1, lift.
  destruct (window_defs periods) as [defs|e] eqn:Ed; [|by destruct Hd as [-> ->]]. destruct Hd as [Hok Hw].
  pose proof (make_stat_unchanged defs now (quantileMap_ s) Hi) as Hu. unfold se_bind, on_quantiles, on_part.
  destruct (QuantileStatMap.make_stat defs now (quantileMap_ s)) as [r q1] eqn:Em.
  assert (Hq1 : exists p, r = Ret p /\ QuantileStatMap.stats q1 !! p = Some (QuantileStat.make defs now)).
  { unfold QuantileStatMap.make_stat in Em. injection Em as <- <-. eexists. split; [done|]. simpl. apply lookup_insert_eq. }
  destruct Hq1 as (p1 & -> & Hp1). destruct Hu as [Hi1 _ Hb1 _]. cbn [fst snd] in *.
  change (quantileMap_ (with_quantileMap q1 s)) with q1.
  destruct (QuantileStatMap.registerQuantileStat gap name p1 (stat_defs types quantiles) q1) as [[p|e] q2] eqn:Er.
  2: { split; [done|]. by rewrite Hok. }
  destruct (register_refines gap name p1 _ q1 p q2 Hgap Hi1 Er) as (Hi2 & Hk2 & Hb2 & b & Eb & [= ->]).
  unfold get. change (quantileMap_ (with_quantileMap q2 (with_quantileMap q1 s))) with q2.
  assert (Eg2 : QuantileStatMap.get name q2 = Some (QuantileStatMap.sme_stat b)) by (unfold QuantileStatMap.get; by rewrite Eb).
  split; [done|]. split; [done|]. split.
  - unfold getQuantileStat, se_bind, se_get. change (quantileMap_ (with_quantileMap q2 _)) with q2. by rewrite Eg2.
  - split; [done|]. intros _ Hnone. assert (En : QuantileStatMap.bases q1 !! name = None).
    { rewrite Hb1. unfold get, QuantileStatMap.get in Eg. by destruct (QuantileStatMap.bases (quantileMap_ s) !! name). }
    simpl in Hb2. rewrite En, (Hnone q1 En) in Hb2. rewrite Hb2, lookup_insert_eq in Eb. injection Eb as <-. simpl.
    destruct (Hk2 p1 _ Hp1) as (q & Hq & Ev). exists q. split; [done|].
    unfold QuantileStat.getSlidingWindowLengths in *. by rewrite Ev.
Qed.

(** ** [addStatExports] *)
Definition bucket_error (key : string) (bucketSize : Z) : exn :=
  runtime_error ("bucketSize for " +:+ key +:+ " must be greater than zero (" +:+ decimal bucketSize +:+ ")").
Definition no_histogram_change (s s' : state) : Prop := histMap_ s' = histMap_ s /\ dynamicStrings_ s' = dynamicStrings_ s.

Lemma addStatExportType_hists key type proto up (s : state) :
  no_histogram_change s (addStatExportType hash gap_stats key type proto up s).2.
Proof. unfold addStatExportType, on_stats, on_part. by destruct (ExportedStatMap.exportStat_type _ _ _ _ _ _ _). Qed.

Lemma export_tokens_refused key bucketSize min max tokens (s : state) :
  bucketSize <= 0 ->
  let '(r, s') := export_tokens hash gap_stats gap_hists key bucketSize min max false tokens s in
  no_histogram_change s s' /\ (r = Ret tt -> Forall (fun t => is_Some (stat_token t)) tokens) /\
  (forall t rest, tokens = t :: rest -> stat_token t = None -> r = Throw (bucket_error key bucketSize)).
Proof.
  intros Hb. revert s. induction tokens as [|t tokens IH]; intros s; cbn [export_tokens]; [by repeat split|].
  destruct (stat_token t) as [ty|] eqn:Et.
  - unfold se_bind. pose proof (addStatExportType_hists key ty None true s) as Ha.
    destruct (addStatExportType hash gap_stats key ty None true s) as [[u|e] s1]; cbn [snd] in Ha.
    + specialize (IH s1). destruct (export_tokens hash gap_stats gap_hists key bucketSize min max false tokens s1) as [r s'].
      destruct IH as ((E1 & E2) & Hr & _), Ha as [E3 E4]. split; [split; congruence|]. split.
      * intros Hret. apply Forall_cons. split; [by exists ty|]. by apply Hr.
      * intros ? ? [= <- <-]. by rewrite Et.
    + split; [done|]. split; [done|]. intros ? ? [= <- <-]. by rewrite Et.
  - unfold add_token_histogram. rewrite (proj2 (Z.leb_le bucketSize 0)) by done.
    by split; [|split; [|intros ? ? [= <- <-]]].
Qed.

(** AddStatExports without a positive bucket size.  It adds no histogram and
    changes none, and returns normally only if the key already has a histogram or
    every token names a kind of statistic (AVG, RATE, SUM, COUNT); when the first
    token asks for a percentile it throws the runtime_error that names the key and
    the size. *)
Theorem addStatExports_needs_bucket_size (key stats : string) (bucketSize min max : Z) (s : state) :
  bucketSize <= 0 ->
  let '(r, s') := addStatExports hash gap_stats gap_hists key stats bucketSize min max s in
  no_histogram_change s s' /\
  (r = Ret tt -> is_Some (ExportedHistogramMap.histMap_ (histMap_ s) !! key) \/
                 Forall (fun t => is_Some (stat_token t)) (split_on ","%char stats)) /\
  (ExportedHistogramMap.histMap_ (histMap_ s) !! key = None ->
   forall t rest, split_on ","%char stats = t :: rest -> stat_token t = None -> r = Throw (bucket_error key bucketSize)).
Proof.
  intros Hb. unfold addStatExports, se_bind, on_hists, on_part, ExportedHistogramMap.contains, se_get, se_ret, se_bind.
  cbn [fst snd].
  replace (with_strings (dynamicStrings_ s) (with_dynamic (dynamicCounters_ s) (with_histMap (histMap_ s) s))) with s
    by (by destruct s).
  case_bool_decide as Hin.
  - split; [done|]. split; [auto|]. intros Hn. rewrite Hn in Hin. by destruct Hin.
  - pose proof (export_tokens_refused key bucketSize min max (split_on ","%char stats) s Hb) as Ht.
    destruct (export_tokens hash gap_stats gap_hists key bucketSize min max false (split_on ","%char stats) s) as [r s'].
    destruct Ht as (Hn & Hr & Hx). split; [done|]. split; [by right; apply Hr|]. intros _. exact Hx.
Qed.

(** C34: resetAllData forgets counters, quantile stats, time series, histograms,
    dynamic counters and strings, exported values and static options - and keeps
    the dynamic options and the switch that lets options set flags. *)
Theorem reset_forgets_all_but_dynamic_options (s : state) :
  CallbackRegistry.wf hash (dynamicCounters_ s) -> CallbackRegistry.wf hash (dynamicStrings_ s) ->
  exists s', resetAllData s = (Ret tt, s') /\
    RegexUtil.map (counters_ s') = ∅ /\ exportedValues_ s' = ∅ /\ ServiceOptions.options_ (options s') = ∅ /\
    ExportedStatMap.statMap_ (statsMap_ s') = ∅ /\ ExportedHistogramMap.histMap_ (histMap_ s') = ∅ /\
    RegexUtil.map (QuantileStatMap.counters_ (quantileMap_ s')) = ∅ /\ QuantileStatMap.bases (quantileMap_ s') = ∅ /\
    (forall k, lookup_cb hash (dynamicCounters_ s') k = None) /\ (forall k, lookup_cb hash (dynamicStrings_ s') k = None) /\
    ServiceOptions.dynamicOptions_ (options s') = ServiceOptions.dynamicOptions_ (options s) /\
    ServiceOptions.useOptionsAsFlags_ (options s') = ServiceOptions.useOptionsAsFlags_ (options s).
Proof.
  intros Hc Hs. destruct (clear_effect hash _ Hc) as (c & Ec & _ & Hlc), (clear_effect hash _ Hs) as (d & Ed & _ & Hld).
  unfold resetAllData, modify, on_stats, on_hists, on_part, ExportedStatMap.forgetAllStats, ExportedHistogramMap.forgetAllHistograms,
    ExportedStatMap.modify_map, ExportedHistogramMap.modify_map, se_bind.
  cbn [fst snd dynamicStrings_ dynamicCounters_ with_options with_counters with_values with_statsMap with_dynamic with_quantileMap with_histMap with_strings].
  rewrite Ed. cbn [dynamicCounters_ with_strings with_dynamic]. rewrite Ec. eexists. split; [reflexivity|]. by repeat split.
Qed.
End Theorems.

(** ** A service with one name in two sources *)
Section Example_.
Import EventSeries CoarseHistogram SampleEstimator PrefixCache TableFlags.
#[local] Instance example_format : NumberFormat := QuantileTheorems.tenths_format.
Definition example_int32 (s : string) : outcome Z :=
  if bool_decide (s = "95") then Ret 95 else Throw (invalid_argument s).
#[local] Instance example_parsers : TextParsers := {|
  to_int32 := example_int32;
  boost_regex := string; make_boost_regex := Ret; regex_match := fun s r => String.prefix r s
|}.
Abbreviation example_state := (ServiceData.state cache series histogram est Z string bool string unit) (only parsing).
Abbreviation example_counters := (CallbackValuesMap.cvm (counter_callback Z) cache) (only parsing).

Definition example_dynamic : example_counters :=
  (run_all example_hash [CallbackCorrect.ORegister "cpu" (UserCounter 42) true; CallbackCorrect.ORegister "latency.p99.60" (UserCounter 5) true] CallbackValuesMap.make).2.
Definition example_flat : RegexUtil.syncmap (M := cache) (V := Z) :=
  (RegexUtil.cachedAddString "latency.sum" 3 (RegexUtil.cachedAddString "hits" 1 RegexUtil.empty_syncmap).2).2.
Definition example_series : series := ts_make 60 (in_ticks seconds [60; 600]).
Definition example_options : ServiceOptions.service_options bool string :=
  ServiceOptions.Options true {[ "name" := "x" ]} {[ "health" := ServiceOptions.MkDynamic (Some true) None ]}.
Definition example_service : example_state :=
  State 0 example_options example_flat {[ "version" := "1" ]} example_dynamic CallbackValuesMap.make
    (ExportedStatMap.make [AVG] example_series) with_samples
    (ExportedHistogramMap.make example_series (Hist 10 0 100 example_series)) (LegacyClock.Clock 0) tt.

Definition example_user (v : Z) : SE example_state Z := se_ret v.
Definition example_calm (s : example_state) : Prop := dynamicCounters_ s = example_dynamic.
Definition example_dyn (k : string) : option Z :=
  match lookup_cb example_hash example_dynamic k with Some (UserCounter v) => Some v | _ => None end.

Definition is_user (e : CallbackValuesMap.CallbackEntry (counter_callback Z)) : bool :=
  match CallbackValuesMap.callback_ e with Some (UserCounter _) => true | _ => false end.
Lemma example_entries p e : CallbackValuesMap.entries example_dynamic !! p = Some e -> is_user e = true.
Proof.
  assert (Hall : map_Forall (fun _ e => is_user e = true) (CallbackValuesMap.entries example_dynamic))
    by (apply (bool_decide_unpack _); vm_compute; exact I).
  apply Hall.
Qed.
Lemma example_wf : CallbackRegistry.wf example_hash example_dynamic.
Proof.
  pose proof (run_all_history example_hash [CallbackCorrect.ORegister "cpu" (UserCounter 42) true; CallbackCorrect.ORegister "latency.p99.60" (UserCounter 5) true]
    CallbackValuesMap.make ∅ (registry_wf_make example_hash) (registry_make example_hash)) as Hh.
  unfold example_dynamic. destruct (run_all example_hash _ _) as [xs d]. apply Hh.
Qed.
Lemma example_quiet : quiet_callbacks example_hash example_user (fun _ => 0) example_calm example_dyn.
Proof.
  split; unfold example_calm.
  - intros s ->. apply example_wf.
  - intros s q Hc. by destruct s.
  - intros s k Hc. rewrite Hc. unfold example_dyn. destruct (lookup_cb example_hash example_dynamic k) as [cb|] eqn:El; [|done].
    unfold lookup_cb in El. destruct (CallbackValuesMap.callbackMaps_ example_dynamic !! _) as [sm|]; [|done]. simpl in El.
    destruct (RegexUtil.map sm !! k) as [p|]; [|done]. simpl in El.
    destruct (CallbackValuesMap.entries example_dynamic !! p) as [e|] eqn:Ep; [|done]. simpl in El.
    apply example_entries in Ep. unfold is_user in Ep. rewrite El in Ep. destruct cb as [|?|v]; try done.
    exists v, s. split; [done|]. split; [done|]. split; [done|]. apply same_refl.
Qed.

Lemma counters_by_source_witness :
  example_calm example_service /\
  (forall k, (getCounterIfExists example_hash example_user (fun _ => 0) false (10 * nanoseconds) (10 * nanoseconds) k example_service).1 =
     Ret (overwrite (example_dyn k) (overwrite (value_at false (10 * nanoseconds) with_samples k)
       (FlatCounters.lookup_flat k example_flat)))).
Proof.
  split; [reflexivity|].
  exact (proj1 (counters_by_source example_hash example_user (fun _ => 0) false SortedHeap.sorted_heap SortedHeap.sorted_heap
    example_calm example_dyn (10 * nanoseconds) example_service SortedHeap.sorted_heap_ops example_quiet eq_refl
    with_samples_inv with_samples_ordered)).
Defined.

(** The readers disagree on a name that two sources have.  In this service
    "latency.p99.60" is a dynamic counter (5) and a quantile (0), "latency.sum" a
    flat counter (3) and a quantile (7): getCounterIfExists reports 5 and 7,
    getSelectedCounters 0 and 7, getCounters 5 and 3. *)
Theorem readers_disagree :
  let now := 10 * nanoseconds in
  let one := fun k => (getCounterIfExists example_hash example_user (fun _ => 0) false now now k example_service).1 in
  let both := fun r : outcome (gmap string Z) * example_state =>
    match r.1 with Ret m => Some (m !! "latency.p99.60", m !! "latency.sum") | Throw _ => None end in
  one "latency.p99.60" = Ret (Some 5) /\ one "latency.sum" = Ret (Some 7) /\
  both (getSelectedCounters example_hash example_user (fun _ => 0) false now ["latency.p99.60"; "latency.sum"] ∅ example_service) =
    Some (Some 0, Some 7) /\
  both (getCounters example_user (fun _ => 0) false SortedHeap.sorted_heap SortedHeap.sorted_heap now ∅ example_service) =
    Some (Some 5, Some 3).
Proof. vm_compute. repeat split. Qed.

Lemma quantile_stat_as_requested_witness :
  match getQuantileStat id "load" [AVG] [quantile 99 100] [10; 120; 3600] 5 example_service with
  | (Ret p, s') => QuantileStatMap.get "load" (quantileMap_ s') = Some p
  | (Throw _, _) => False
  end.
Proof.
  assert (Hp : Forall period_range [10; 120; 3600]) by (repeat constructor; done).
  pose proof (quantile_stat_as_requested id "load" [AVG] [quantile 99 100] [10; 120; 3600] 5 example_service
    (fun q Hi => conj Hi (keeps_refl q)) with_samples_inv Hp) as Ht.
  destruct (getQuantileStat id "load" [AVG] [quantile 99 100] [10; 120; 3600] 5 example_service) as [[p|e] s'] eqn:Er.
  - exact (proj1 Ht).
  - apply (f_equal (fun r => match r.1 with Ret _ => true | Throw _ => false end)) in Er. vm_compute in Er. discriminate.
Defined.

Lemma addStatExports_needs_bucket_size_witness :
  (addStatExports example_hash id id "rpc" "95,AVG" 0 0 100 example_service).1 = Throw (bucket_error "rpc" 0).
Proof.
  pose proof (addStatExports_needs_bucket_size example_hash id id "rpc" "95,AVG" 0 0 100 example_service ltac:(lia)) as Ht.
  destruct (addStatExports example_hash id id "rpc" "95,AVG" 0 0 100 example_service) as [r s'].
  destruct Ht as (_ & _ & Ht). exact (Ht eq_refl "95" ["AVG"] eq_refl eq_refl).
Defined.

Lemma reset_forgets_all_but_dynamic_options_witness :
  exists s', resetAllData example_service = (Ret tt, s') /\
    ServiceOptions.options_ (options s') = ∅ /\ is_Some (ServiceOptions.dynamicOptions_ (options s') !! "health").
Proof.
  destruct (reset_forgets_all_but_dynamic_options example_hash example_service example_wf (registry_wf_make example_hash))
    as (s' & Er & _ & _ & Eo & _ & _ & _ & _ & _ & _ & Ed & _).
  exists s'. split; [exact Er|]. split; [exact Eo|]. rewrite Ed. eexists. reflexivity.
Defined.
End Example_.
