(* ===== verification/TLStatNames.v ===== *)
(** * TLStatNames: the interned names of thread-local stats

    [TLStatNameSet] of [src/fb303/ThreadLocalStats.cpp].  A name is a string owned
    by [std::shared_ptr]s; the set holds weak pointers to it and reads the string
    through the address inside the weak pointer, so the string has to be alive
    whenever a shard is searched.  The deleter of the last owner takes the key out
    and then frees the string; between the last owner's going and the deleter's
    lock region another thread may ask for the name.

    A step is one lock region of one thread, the copying or dropping of one
    owner, or the freeing of one string.  An address may be used again once it is
    freed; control blocks have names that are not. *)
From S2P Require Import Prelude.
From Stdlib Require Import ZArith Lia String.
From stdpp Require Import base gmap list strings.

Open Scope Z_scope.
Open Scope fb303_scope.

Module TLStatNames.
(** [Key]: a [weak_ptr], seen through [WpLayout]. *)
Record key := Key { object : nat; control : nat }.
#[export] Instance key_eq_dec : EqDecision key.
Proof. solve_decision. Defined.
(** A control block: the string it owns and the number of owners. *)
Record block := Block { b_object : nat; strong : nat }.
(** Where a thread is: outside, between [getFast] and [getSlow], or in
    [SpDeleter] before [clean] and before [delete]. *)
Inductive pc := Slow (name : string) | Cleaning (b : nat) | Freeing (b : nat).
Record state := State {
  objects : gmap nat string;
  blocks : gmap nat block;
  sets_ : gmap Z (list key);
  threads : gmap nat pc;
  returned : list (string * nat)             (** what [get] was asked for and returned *)
}.
Definition empty_state : state := State ∅ ∅ ∅ ∅ [].
Definition with_objects o s := State o (blocks s) (sets_ s) (threads s) (returned s).
Definition with_blocks b s := State (objects s) b (sets_ s) (threads s) (returned s).
Definition with_sets m s := State (objects s) (blocks s) m (threads s) (returned s).
Definition with_threads m s := State (objects s) (blocks s) (sets_ s) m (returned s).
Definition with_returned l s := State (objects s) (blocks s) (sets_ s) (threads s) l.
Definition modify (f : state -> state) : SE state unit := fun s => (Ret tt, f s).
Definition goto (t : nat) (p : option pc) : SE state unit :=
  modify (fun s => with_threads (partial_alter (fun _ => p) t (threads s)) s).

Section Model.
Context (hash : string -> Z) (nextPowTwo : Z -> Z) (spine : Z).

(** [sets_.size() - 1]; a shard that was never written is empty. *)
Definition mask : Z := nextPowTwo spine - 1.
Definition set_index (name : string) : Z := Z.land (hash name) mask.
Definition keys_of (name : string) (s : state) : list key := default [] (sets_ s !! set_index name).
Definition put_keys (name : string) (l : list key) : SE state unit :=
  modify (fun s => with_sets (<[set_index name := l]> (sets_ s)) s).

(** [operator std::string_view]: the string at the address, not asking its owners. *)
Definition deref (k : key) : SE state string := fun s =>
  match objects s !! object k with Some n => (Ret n, s) | None => (Throw undefined_behaviour, s) end.
(** Any key of the shard may be compared with [name]. *)
Fixpoint find_in (name : string) (l : list key) : SE state (option key) :=
  match l with
  | [] => se_ret None
  | k :: l' =>
      let* n := deref k in
      let* r := find_in name l' in
      se_ret (if bool_decide (n = name) then Some k else r)
  end.
Definition find (name : string) : SE state (option key) := let* s := se_get in find_in name (keys_of name s).
Definition erase (name : string) (k : key) : SE state unit :=
  let* s := se_get in put_keys name (filter (fun k' => k' <> k) (keys_of name s)).
(** [insert] keeps an equal key that is there. *)
Definition insert (name : string) (k : key) : SE state unit :=
  let* it := find name in
  match it with
  | Some _ => se_ret tt
  | None => let* s := se_get in put_keys name (k :: keys_of name s)
  end.

(** [weak_ptr::lock]: one more owner, if there is one. *)
Definition lock_weak (k : key) : SE state (option nat) := fun s =>
  match blocks s !! control k with
  | Some (Block o (S n)) => (Ret (Some (control k)), with_blocks (<[control k := Block o (S (S n))]> (blocks s)) s)
  | _ => (Ret None, s)
  end.
(** [Sp{new std::string(name), SpDeleter{}}] *)
Definition new_name (name : string) : SE state key := fun s =>
  let o := fresh (dom (objects s)) in
  let b := fresh (dom (blocks s)) in
  (Ret (Key o b), with_objects (<[o := name]> (objects s)) (with_blocks (<[b := Block o 1]> (blocks s)) s)).

Definition return_name (t : nat) (name : string) (b : nat) : SE state unit :=
  goto t None >>> modify (fun s => with_returned ((name, b) :: returned s) s).

(** ** The lock regions *)
Definition getFast (name : string) : SE state (option nat) :=
  let* it := find name in
  match it with Some k => lock_weak k | None => se_ret None end.
Definition getSlow (name : string) : SE state nat :=
  let* it := find name in
  let* found :=
    match it with
    | Some k =>
        let* sp := lock_weak k in
        match sp with
        | Some b => se_ret (Some b)
        | None => erase name k >>> se_ret None
        end
    | None => se_ret None
    end in
  match found with
  | Some b => se_ret b
  | None => let* k := new_name name in insert name k >>> se_ret (control k)
  end.
(** The deleter is handed the string of the block. *)
Definition clean (b : nat) : SE state unit := fun s =>
  match blocks s !! b with
  | None => (Throw undefined_behaviour, s)
  | Some bl =>
      (let* name := deref (Key (b_object bl) b) in
       let* it := find name in
       match it with
       | Some k =>
           if Nat.eqb (object k) (b_object bl) then
             let* sp := lock_weak k in
             match sp with Some _ => se_throw check_failed | None => erase name k end
           else se_ret tt
       | None => se_ret tt
       end) s
  end.
Definition free (b : nat) : SE state unit := fun s =>
  match blocks s !! b with
  | Some bl =>
      match objects s !! b_object bl with
      | Some _ => (Ret tt, with_objects (delete (b_object bl) (objects s)) s)
      | None => (Throw undefined_behaviour, s)
      end
  | None => (Throw undefined_behaviour, s)
  end.

(** ** Steps

    An idle thread calls [get], copies an owner or drops one; a thread inside
    goes on.  What the program cannot do is no step. *)
Inductive event := Get (t : nat) (name : string) | Copy (b : nat) | Drop (t b : nat) | Go (t : nat).
Definition step (e : event) : SE state unit :=
  let* s := se_get in
  match e with
  | Get t name =>
      match threads s !! t with
      | None =>
          let* r := getFast name in
          match r with Some b => return_name t name b | None => goto t (Some (Slow name)) end
      | Some _ => se_ret tt
      end
  | Copy b =>
      match blocks s !! b with
      | Some (Block o (S n)) => modify (fun s => with_blocks (<[b := Block o (S (S n))]> (blocks s)) s)
      | _ => se_ret tt
      end
  | Drop t b =>
      match threads s !! t, blocks s !! b with
      | None, Some (Block o (S n)) =>
          modify (fun s => with_blocks (<[b := Block o n]> (blocks s)) s) >>>
          match n with O => goto t (Some (Cleaning b)) | S _ => se_ret tt end
      | _, _ => se_ret tt
      end
  | Go t =>
      match threads s !! t with
      | None => se_ret tt
      | Some (Slow name) => let* b := getSlow name in return_name t name b
      | Some (Cleaning b) => clean b >>> goto t (Some (Freeing b))
      | Some (Freeing b) => free b >>> goto t None
      end
  end.
Fixpoint run (l : list event) : SE state unit :=
  match l with [] => se_ret tt | e :: l' => step e >>> run l' end.
End Model.
End TLStatNames.
