(* ===== verification/TLStatNamesCorrect.v ===== *)
(** * TLStatNamesCorrect: interning is safe and exact

    The invariant of [TLStatNames] over every run, what its lock regions do under
    it, and the theorem: no freed string is read, a name has one live string, and
    nothing is left when the owners are gone. *)
From S2P Require Import Prelude TLStatNames.
From Stdlib Require Import ZArith Lia String.
From stdpp Require Import base gmap list strings.
Import TLStatNames.

Open Scope Z_scope.
Open Scope fb303_scope.

Lemma lookup_goto {A} (m : gmap nat A) (t t' : nat) (p : option A) :
  partial_alter (fun _ => p) t m !! t' = if decide (t' = t) then p else m !! t'.
Proof. case_decide as Ht; [subst; apply lookup_partial_alter_eq|by apply lookup_partial_alter_ne]. Qed.

Section Interned.
Context (hash : string -> Z) (nextPowTwo : Z -> Z) (spine : Z).
Abbreviation keys_of := (keys_of hash nextPowTwo spine).
Abbreviation set_index := (set_index hash nextPowTwo spine).

(** ** The invariant *)
Definition dying (t b : nat) (s : state) : Prop := threads s !! t = Some (Cleaning b) \/ threads s !! t = Some (Freeing b).
(** A string is somebody's: of an owner, or of the deleter. *)
Definition held (b m : nat) (s : state) : Prop := (0 < m)%nat \/ exists t, dying t b s.

Record inv (s : state) : Prop := {
  i_key : forall n k, k ∈ keys_of n s -> exists m n',
    blocks s !! control k = Some (Block (object k) m) /\ objects s !! object k = Some n' /\ set_index n' = set_index n /\
    ((0 < m)%nat \/ exists t, threads s !! t = Some (Cleaning (control k)));
  i_unique : forall n k k', k ∈ keys_of n s -> k' ∈ keys_of n s -> objects s !! object k = objects s !! object k' -> k = k';
  i_live : forall b o m, blocks s !! b = Some (Block o (S m)) -> exists n, objects s !! o = Some n /\ Key o b ∈ keys_of n s;
  i_dying : forall t b, dying t b s -> exists o n, blocks s !! b = Some (Block o 0) /\ objects s !! o = Some n;
  i_freeing : forall t b n k, threads s !! t = Some (Freeing b) -> k ∈ keys_of n s -> control k <> b;
  i_once : forall t t' b, dying t b s -> dying t' b s -> t = t';
  i_owner : forall b b' o m m', blocks s !! b = Some (Block o m) -> blocks s !! b' = Some (Block o m') ->
    held b m s -> held b' m' s -> b = b';
  i_returned : forall n b, (n, b) ∈ returned s -> exists o m, blocks s !! b = Some (Block o m) /\ (held b m s -> objects s !! o = Some n);
  i_memory : forall o n, objects s !! o = Some n -> exists b m, blocks s !! b = Some (Block o m) /\ held b m s
}.

Lemma names_inv_empty : inv empty_state.
Proof.
  split; cbn; try (by intros; set_solver); unfold dying; try (by intros; naive_solver).
  all: intros n k; unfold TLStatNames.keys_of; cbn; rewrite lookup_empty; set_solver.
Qed.

(** *** A thread goes in or out of [get] *)
Definition idle (p : option pc) : Prop := match p with Some (Slow _) | None => True | _ => False end.
Lemma dying_idle t p s t' b : idle (threads s !! t) -> idle p ->
  dying t' b (with_threads (partial_alter (fun _ => p) t (threads s)) s) <-> dying t' b s.
Proof.
  intros Ho Hp. unfold dying. cbn. rewrite lookup_goto. case_decide as Ht; [subst|done].
  destruct p as [[]|], (threads s !! t) as [[]|]; naive_solver.
Qed.
Lemma inv_idle t p s : idle (threads s !! t) -> idle p -> inv s ->
  inv (with_threads (partial_alter (fun _ => p) t (threads s)) s).
Proof.
  intros Ho Hp [Ik Iu Il Id If Io Iw Ir Im]. set (s' := with_threads _ s).
  assert (Hd : forall t' b, dying t' b s' <-> dying t' b s) by (intros; by apply dying_idle).
  assert (Hh : forall b m, held b m s' <-> held b m s) by (intros; unfold held; by setoid_rewrite Hd).
  assert (Hc : forall t' b, threads s' !! t' = Some (Cleaning b) <-> threads s !! t' = Some (Cleaning b)).
  { intros t' b. cbn. rewrite lookup_goto. case_decide; [subst|done]. destruct p as [[]|], (threads s !! t) as [[]|]; naive_solver. }
  split; unfold s'; cbn; try done.
  - intros n k Hk. destruct (Ik n k Hk) as (m & n' & H1 & H2 & H3 & H4). exists m, n'. split; [done|]. split; [done|]. split; [done|].
    destruct H4 as [?|[t' Ht]]; [by left|right]. exists t'. by apply Hc.
  - intros t' b Hb. apply (Id t' b). by apply Hd.
  - intros t' b n k Ht Hk. rewrite lookup_goto in Ht. case_decide; [subst; destruct Hp|]. by apply (If t' b n k).
  - intros t1 t2 b H1 H2. apply (Io t1 t2 b); by apply Hd.
  - intros b b' o m m' H1 H2 H3 H4. apply (Iw b b' o m m'); try done; by apply Hh.
  - intros n b Hr. destruct (Ir n b Hr) as (o & m & Hb & Hn). exists o, m. split; [done|]. intros Hx. apply Hn. by apply Hh.
  - intros o n Hn. destruct (Im o n Hn) as (b & m & Hb & Hx). exists b, m. split; [done|]. by apply Hh.
Qed.
Lemma names_inv_return s name b o m :
  blocks s !! b = Some (Block o m) -> objects s !! o = Some name -> inv s -> inv (with_returned ((name, b) :: returned s) s).
Proof.
  intros Hb Ho [Ik Iu Il Id If Io Iw Ir Im]. split; try done.
  intros n b'. cbn. rewrite elem_of_cons. intros [[= -> ->]|Hr]; [by exists o, m|by apply Ir].
Qed.

(** *** The number of owners, above zero *)
Lemma inv_count s b o m m' :
  blocks s !! b = Some (Block o (S m)) -> inv s -> inv (with_blocks (<[b := Block o (S m')]> (blocks s)) s).
Proof.
  intros Hb [Ik Iu Il Id If Io Iw Ir Im]. set (s' := with_blocks _ s).
  assert (Hf : forall b' bl', blocks s' !! b' = Some bl' -> exists m2, blocks s !! b' = Some (Block (b_object bl') m2) /\
    ((0 < strong bl')%nat <-> (0 < m2)%nat)).
  { intros b' [o' n']. cbn. rewrite lookup_insert_Some. intros [[<- [= <- <-]]|[Hne Hb']]; [exists (S m); split; [done|lia]|by exists n']. }
  assert (Hg : forall b' bl, blocks s !! b' = Some bl -> exists m2, blocks s' !! b' = Some (Block (b_object bl) m2) /\
    ((0 < m2)%nat <-> (0 < strong bl)%nat)).
  { intros b' [o' n'] Hb'. cbn. destruct (decide (b' = b)) as [->|Hne].
    - rewrite Hb in Hb'. injection Hb' as <- <-. rewrite lookup_insert_eq. exists (S m'). split; [done|cbn; lia].
    - rewrite lookup_insert_ne by done. by exists n'. }
  assert (Hh : forall b' x y, ((0 < x)%nat <-> (0 < y)%nat) -> held b' x s' -> held b' y s) by (intros b' x y Hxy [?|?]; [left; by apply Hxy|by right]).
  assert (Hh' : forall b' x y, ((0 < x)%nat <-> (0 < y)%nat) -> held b' x s -> held b' y s') by (intros b' x y Hxy [?|?]; [left; by apply Hxy|by right]).
  split; try done.
  - intros n k Hk. destruct (Ik n k Hk) as (x & n' & H1 & H2 & H3 & H4). destruct (Hg _ _ H1) as (y & Hy & Hxy). cbn in Hy, Hxy.
    exists y, n'. split; [done|]. split; [done|]. split; [done|]. destruct H4 as [?|?]; [left; by apply Hxy|by right].
  - intros b' o' x Hx. destruct (Hf b' _ Hx) as ([|y] & Hy & Hxy); [cbn in Hxy; lia|]. by apply (Il b' o' y).
  - intros t b' Ht. destruct (Id t b' Ht) as (o' & n & H1 & H2). exists o', n. split; [|done]. cbn.
    rewrite lookup_insert_ne; [done|]. intros ->. rewrite Hb in H1. done.
  - intros b1 b2 o' x y H1 H2 H3 H4. destruct (Hf b1 _ H1) as (x' & H1' & Hx), (Hf b2 _ H2) as (y' & H2' & Hy). cbn in *.
    apply (Iw b1 b2 o' x' y'); try done; [by apply (Hh b1 x x')|by apply (Hh b2 y y')].
  - intros n b' Hr. destruct (Ir n b' Hr) as (o' & x & H1 & H2). destruct (Hg _ _ H1) as (y & Hy & Hxy). exists o', y.
    split; [done|]. intros Hl. apply H2. by apply (Hh b' y x).
  - intros o' n Hn. destruct (Im o' n Hn) as (b' & x & H1 & H2). destruct (Hg _ _ H1) as (y & Hy & Hxy). exists b', y.
    split; [done|]. by apply (Hh' b' x y).
Qed.

(** *** The last owner goes: its thread runs the deleter *)
Lemma inv_last s t b o :
  threads s !! t = None -> blocks s !! b = Some (Block o 1) -> inv s ->
  inv (with_threads (partial_alter (fun _ => Some (Cleaning b)) t (threads s)) (with_blocks (<[b := Block o 0]> (blocks s)) s)).
Proof.
  intros Ht Hb [Ik Iu Il Id If Io Iw Ir Im]. set (s' := with_threads _ _).
  assert (Hn : forall t', ~ dying t' b s) by (intros t' Hd; destruct (Id t' b Hd) as (o' & n & H1 & _); congruence).
  assert (Hd : forall t' b', dying t' b' s' <-> (t' = t /\ b' = b) \/ dying t' b' s).
  { intros t' b'. unfold dying. cbn. rewrite lookup_goto. case_decide; [subst; rewrite Ht|]; naive_solver. }
  assert (Hh : forall b' x, held b' (if decide (b' = b) then 1 else x)%nat s <-> held b' x s' \/ (b' = b)).
  { intros b' x. unfold held. setoid_rewrite Hd. case_decide; [subst; naive_solver lia|naive_solver]. }
  assert (Hf : forall b' o' x, blocks s' !! b' = Some (Block o' x) -> blocks s !! b' = Some (Block o' (if decide (b' = b) then 1 else x)%nat)).
  { intros b' o' x. cbn. rewrite lookup_insert_Some. intros [[<- [= <- <-]]|[Hne Hb']]; [by rewrite decide_True|by rewrite decide_False]. }
  assert (Hg : forall b' o' x, blocks s !! b' = Some (Block o' x) -> blocks s' !! b' = Some (Block o' (if decide (b' = b) then 0 else x)%nat)).
  { intros b' o' x Hb'. cbn. case_decide; [subst; rewrite lookup_insert_eq; congruence|by rewrite lookup_insert_ne]. }
  split.
  - intros n k Hk. destruct (Ik n k Hk) as (x & n' & H1 & H2 & H3 & H4). eexists _, n'. split; [by apply Hg|]. split; [done|]. split; [done|].
    case_decide as Hx; [right; exists t; cbn; rewrite lookup_goto, decide_True by done; by rewrite Hx|].
    destruct H4 as [?|[t' Ht']]; [by left|right]. exists t'. cbn. rewrite lookup_goto, decide_False; [done|congruence].
  - done.
  - intros b' o' x Hx. destruct (decide (b' = b)) as [->|Hne]; [cbn in Hx; rewrite lookup_insert_eq in Hx; congruence|].
    apply Hf in Hx. rewrite decide_False in Hx by done. by apply (Il b' o' x).
  - intros t' b' [[-> ->]|Hx]%Hd.
    + destruct (Il b o 0%nat Hb) as (n & Hn' & _). exists o, n. split; [cbn; by rewrite lookup_insert_eq|done].
    + destruct (Id t' b' Hx) as (o' & n & H1 & H2). exists o', n. split; [|done]. apply Hg in H1. by case_decide.
  - intros t' b' n k. cbn. rewrite lookup_goto. case_decide; [done|]. apply If.
  - intros t1 t2 b' [[-> ->]|H1]%Hd [[-> E]|H2]%Hd; [done|by destruct (Hn t2)|subst; by destruct (Hn t1)|by apply (Io t1 t2 b')].
  - intros b1 b2 o' x y H1 H2 H3 H4. apply (Iw b1 b2 o' _ _ (Hf _ _ _ H1) (Hf _ _ _ H2)); apply Hh; by left.
  - intros n b' Hr. destruct (Ir n b' Hr) as (o' & x & H1 & H2). eexists o', _. split; [by apply Hg|]. intros Hl.
    apply H2. destruct (decide (b' = b)) as [->|Hne]; [left; rewrite Hb in H1; injection H1 as <- <-; lia|].
    destruct Hl as [?|[t' [[_ ?]|?]%Hd]]; [by left|done|right; by exists t'].
  - intros o' n Hn'. destruct (Im o' n Hn') as (b' & x & H1 & H2). eexists b', _. split; [by apply Hg|].
    case_decide as Hx; [right; exists t; apply Hd; by left|]. destruct H2 as [?|[t' ?]]; [by left|right; exists t'; apply Hd; by right].
Qed.

(** *** A key goes *)
Definition put (name : string) (l : list key) (s : state) : state := with_sets (<[set_index name := l]> (sets_ s)) s.
Lemma keys_put name l s n : keys_of n (put name l s) = if decide (set_index n = set_index name) then l else keys_of n s.
Proof.
  unfold TLStatNames.keys_of, put. cbn. case_decide as Hn; [by rewrite Hn, lookup_insert_eq|by rewrite lookup_insert_ne].
Qed.
Lemma keys_erased name k s n x :
  x ∈ keys_of n (put name (filter (fun k' => k' <> k) (keys_of name s)) s) <->
  x ∈ keys_of n s /\ (set_index n = set_index name -> x <> k).
Proof.
  rewrite keys_put. case_decide as Hn; [|naive_solver]. rewrite list_elem_of_filter.
  unfold TLStatNames.keys_of. rewrite Hn. naive_solver.
Qed.
Lemma names_inv_erase s name o b :
  blocks s !! b = Some (Block o 0) -> inv s -> inv (put name (filter (fun k' => k' <> Key o b) (keys_of name s)) s).
Proof.
  intros Hb [Ik Iu Il Id If Io Iw Ir Im]. split; try done.
  - intros n k [Hk _]%keys_erased. by apply Ik.
  - intros n k k' [Hk _]%keys_erased [Hk' _]%keys_erased. by apply (Iu n).
  - intros b' o' m Hm. destruct (Il b' o' m Hm) as (n & Hn & Hk). exists n. split; [done|]. apply keys_erased. split; [done|].
    intros _ [= -> ->]. cbn in Hm. congruence.
  - intros t b' n k Ht [Hk _]%keys_erased. by apply (If t b' n).
Qed.

(** *** The deleter *)
Lemma inv_freeing s t b :
  threads s !! t = Some (Cleaning b) -> (forall n k, k ∈ keys_of n s -> control k <> b) -> inv s ->
  inv (with_threads (partial_alter (fun _ => Some (Freeing b)) t (threads s)) s).
Proof.
  intros Ht Hk [Ik Iu Il Id If Io Iw Ir Im]. set (s' := with_threads _ s).
  assert (Hd : forall t' b', dying t' b' s' <-> dying t' b' s).
  { intros t' b'. unfold dying. cbn. rewrite lookup_goto. case_decide; [subst; rewrite Ht|done]. naive_solver. }
  assert (Hh : forall b' m, held b' m s' <-> held b' m s) by (intros; unfold held; by setoid_rewrite Hd).
  split; unfold s'; cbn; try done.
  - intros n k Hn. destruct (Ik n k Hn) as (m & n' & H1 & H2 & H3 & H4). exists m, n'. split; [done|]. split; [done|]. split; [done|].
    destruct H4 as [?|[t' Ht']]; [by left|right]. exists t'. rewrite lookup_goto, decide_False; [done|].
    intros ->. rewrite Ht in Ht'. injection Ht' as E. by apply (Hk n k Hn).
  - intros t' b' Hb. apply (Id t' b'). by apply Hd.
  - intros t' b' n k. rewrite lookup_goto. case_decide; [intros [= <-]; apply Hk|apply If].
  - intros t1 t2 b' H1 H2. apply (Io t1 t2 b'); by apply Hd.
  - intros b1 b2 o m m' H1 H2 H3 H4. apply (Iw b1 b2 o m m'); try done; by apply Hh.
  - intros n b' Hr. destruct (Ir n b' Hr) as (o & m & Hb & Hn). exists o, m. split; [done|]. intros Hx. apply Hn. by apply Hh.
  - intros o n Hn. destruct (Im o n Hn) as (b' & m & Hb & Hx). exists b', m. split; [done|]. by apply Hh.
Qed.
Lemma inv_free s t b o :
  threads s !! t = Some (Freeing b) -> blocks s !! b = Some (Block o 0) -> inv s ->
  inv (with_threads (partial_alter (fun _ => None) t (threads s)) (with_objects (delete o (objects s)) s)).
Proof.
  intros Ht Hb [Ik Iu Il Id If Io Iw Ir Im]. set (s' := with_threads _ _).
  assert (Hd : forall t' b', dying t' b' s' <-> t' <> t /\ dying t' b' s).
  { intros t' b'. unfold dying. cbn. rewrite lookup_goto. case_decide; [subst|]; naive_solver. }
  assert (Hown : held b 0 s) by (right; exists t; by right).
  assert (Hh : forall b' m, held b' m s' -> held b' m s).
  { intros b' m [?|[t' [_ ?]%Hd]]; [by left|right; by exists t']. }
  assert (Hne : forall b' o' m, blocks s !! b' = Some (Block o' m) -> held b' m s' -> o' <> o).
  { intros b' o' m Hb' Hl ->. pose proof (Iw b' b o m 0%nat Hb' Hb (Hh _ _ Hl) Hown) as ->.
    rewrite Hb in Hb'. injection Hb' as <-. destruct Hl as [?|[t' [Hn Hx]%Hd]]; [lia|]. apply Hn. apply (Io t' t b Hx). by right. }
  assert (Hkey : forall n k, k ∈ keys_of n s -> object k <> o).
  { intros n k Hk E. destruct (Ik n k Hk) as (m & n' & H1 & _ & _ & H4). apply (If t b n k Ht Hk). rewrite E in H1.
    apply (Iw (control k) b o m 0%nat H1 Hb); [|done]. destruct H4 as [?|[t' ?]]; [by left|right; exists t'; by left]. }
  split; cbn.
  - intros n k Hk. destruct (Ik n k Hk) as (m & n' & H1 & H2 & H3 & H4). exists m, n'. split; [done|].
    rewrite lookup_delete_ne by (intros E; by destruct (Hkey n k Hk)). split; [done|]. split; [done|].
    destruct H4 as [?|[t' Ht']]; [by left|right]. exists t'. rewrite lookup_goto, decide_False; [done|congruence].
  - intros n k k' Hk Hk'. rewrite !lookup_delete_ne; [by apply (Iu n)| |]; intros E; [by destruct (Hkey n k' Hk')|by destruct (Hkey n k Hk)].
  - intros b' o' m Hm. destruct (Il b' o' m Hm) as (n & Hn & Hk). exists n. split; [|done].
    rewrite lookup_delete_ne; [done|]. intros E. by destruct (Hkey n _ Hk).
  - intros t' b' Hx. pose proof (proj1 (Hd t' b') Hx) as [Hn Hx']. destruct (Id t' b' Hx') as (o' & n & H1 & H2). exists o', n. split; [done|].
    rewrite lookup_delete_ne; [done|]. intros E. apply (Hne b' o' 0%nat H1); [right; by exists t'|done].
  - intros t' b' n k. rewrite lookup_goto. case_decide; [done|apply If].
  - intros t1 t2 b' [_ H1]%Hd [_ H2]%Hd. by apply (Io t1 t2 b').
  - intros b1 b2 o' m m' H1 H2 H3 H4. apply (Iw b1 b2 o' m m'); try done; by apply Hh.
  - intros n b' Hr. destruct (Ir n b' Hr) as (o' & m & H1 & H2). exists o', m. split; [done|]. intros Hl.
    rewrite lookup_delete_ne; [by apply H2, Hh|]. intros E. by destruct (Hne b' o' m H1 Hl).
  - intros o' n [Ho Hn]%lookup_delete_Some. destruct (Im o' n Hn) as (b' & m & H1 & H2). exists b', m. split; [done|].
    destruct H2 as [?|[t' Hx]]; [by left|right]. exists t'. apply Hd. split; [|done]. intros ->.
    destruct Hx as [Hx|Hx]; rewrite Ht in Hx; [done|]. injection Hx as <-. rewrite Hb in H1. injection H1 as <- <-. done.
Qed.

(** *** A new string *)
Lemma names_inv_new s name o b :
  objects s !! o = None -> blocks s !! b = None -> (forall k, k ∈ keys_of name s -> objects s !! object k <> Some name) -> inv s ->
  inv (put name (Key o b :: keys_of name s) (with_objects (<[o := name]> (objects s)) (with_blocks (<[b := Block o 1]> (blocks s)) s))).
Proof.
  intros Ho Hb Hnew [Ik Iu Il Id If Io Iw Ir Im]. set (s' := put _ _ _).
  assert (Hd : forall t b' , dying t b' s' <-> dying t b' s) by done.
  assert (Hko : forall n x, x ∈ keys_of n s' <-> x ∈ keys_of n s \/ (set_index n = set_index name /\ x = Key o b)).
  { intros n x. unfold s'. rewrite keys_put. case_decide as Hn; [|naive_solver].
    rewrite elem_of_cons. unfold TLStatNames.keys_of. rewrite Hn. naive_solver. }
  assert (Hob : forall o' n, objects s !! o' = Some n -> objects s' !! o' = Some n).
  { intros o' n Hn. cbn. rewrite lookup_insert_ne; [done|congruence]. }
  assert (Hbb : forall b' bl, blocks s !! b' = Some bl -> blocks s' !! b' = Some bl).
  { intros b' bl Hn. cbn. rewrite lookup_insert_ne; [done|congruence]. }
  assert (Hbi : forall b' o' m, blocks s' !! b' = Some (Block o' m) -> (b' = b /\ o' = o /\ m = 1%nat) \/ blocks s !! b' = Some (Block o' m)).
  { intros b' o' m. cbn. rewrite lookup_insert_Some. intros [[<- [= <- <-]]|[_ ?]]; [by left|by right]. }
  assert (Hkey : forall n k, k ∈ keys_of n s -> exists n', objects s !! object k = Some n').
  { intros n k Hk. destruct (Ik n k Hk) as (m & n' & _ & H2 & _). by exists n'. }
  assert (Hheld : forall b' o' m, blocks s !! b' = Some (Block o' m) -> held b' m s -> o' <> o).
  { intros b' o' m Hb' [Hl|[t Ht]] ->.
    - destruct m as [|m]; [lia|]. destruct (Il b' o m Hb') as (n & Hn & _). congruence.
    - destruct (Id t b' Ht) as (o2 & n & H1 & H2). congruence. }
  split.
  - intros n k [Hk|[Hn ->]]%Hko.
    + destruct (Ik n k Hk) as (m & n' & H1 & H2 & H3 & H4). exists m, n'. split; [by apply Hbb|]. split; [by apply Hob|done].
    + exists 1%nat, name. cbn. rewrite !lookup_insert_eq. split; [done|]. split; [done|]. split; [done|]. left; lia.
  - assert (Hx : forall n k, k ∈ keys_of n s -> set_index n = set_index name -> objects s' !! object k <> Some name).
    { intros n k Hk Hn E. apply (Hnew k); [unfold TLStatNames.keys_of in Hk |- *; by rewrite <- Hn|].
      destruct (Hkey n k Hk) as (n' & Hn'). rewrite (Hob _ _ Hn') in E. congruence. }
    intros n k k' [Hk|[Hn ->]]%Hko [Hk'|[Hn' ->]]%Hko; [| | |done].
    + destruct (Hkey n k Hk) as (x & Hx1), (Hkey n k' Hk') as (y & Hy). intros E.
      rewrite (Hob _ _ Hx1), (Hob _ _ Hy) in E. apply (Iu n); [done|done|congruence].
    + intros E. exfalso. apply (Hx n k Hk Hn'). rewrite E. cbn. by rewrite lookup_insert_eq.
    + intros E. exfalso. apply (Hx n k' Hk' Hn). rewrite <- E. cbn. by rewrite lookup_insert_eq.
  - intros b' o' m [(-> & -> & [= ->])|Hb']%Hbi.
    + exists name. split; [cbn; by rewrite lookup_insert_eq|]. apply Hko. by right.
    + destruct (Il b' o' m Hb') as (n & Hn & Hk). exists n. split; [by apply Hob|]. apply Hko. by left.
  - intros t b' Ht. destruct (Id t b' Ht) as (o' & n & H1 & H2). exists o', n. split; [by apply Hbb|by apply Hob].
  - intros t b' n k Ht [Hk|[Hn ->]]%Hko; [by apply (If t b' n k)|]. cbn. intros <-.
    destruct (Id t b) as (o' & n' & H1 & _); [by right|congruence].
  - exact Io.
  - intros b1 b2 o' m m' [(-> & -> & ->)|H1]%Hbi [(-> & E2 & ->)|H2]%Hbi H3 H4; [done| | |by apply (Iw b1 b2 o' m m')].
    + by destruct (Hheld _ _ _ H2 H4).
    + subst. by destruct (Hheld _ _ _ H1 H3).
  - intros n b' Hr. destruct (Ir n b' Hr) as (o' & m & H1 & H2). exists o', m. split; [by apply Hbb|]. intros Hl. by apply Hob, H2.
  - intros o' n. cbn. rewrite lookup_insert_Some. intros [[<- <-]|[_ Hn]].
    + exists b, 1%nat. rewrite lookup_insert_eq. split; [done|]. left; lia.
    + destruct (Im o' n Hn) as (b' & m & H1 & H2). exists b', m. split; [by apply Hbb|done].
Qed.

(** ** The regions *)
Definition found_in (name : string) (r : option key) (l : list key) (s : state) : Prop :=
  match r with
  | Some k => k ∈ l /\ objects s !! object k = Some name
  | None => forall k, k ∈ l -> objects s !! object k <> Some name
  end.
Lemma find_in_found name l s : (forall k, k ∈ l -> is_Some (objects s !! object k)) ->
  exists r, find_in name l s = (Ret r, s) /\ found_in name r l s.
Proof.
  induction l as [|k l IH]; intros Hl; [exists None; split; [done|]; intros k; set_solver|].
  destruct IH as (r & Er & Hr); [intros k' Hk'; apply Hl; set_solver|]. destruct (Hl k) as [n Hn]; [set_solver|].
  cbn. unfold se_bind, deref. rewrite Hn, Er. case_bool_decide as Hx; eexists; (split; [reflexivity|]).
  - subst. cbn. split; [set_solver|done].
  - destruct r as [k'|]; cbn in *; [destruct Hr; split; [set_solver|done]|].
    intros k' [->|Hk']%elem_of_cons; [congruence|auto].
Qed.
Lemma find_found name s : inv s -> exists r, TLStatNames.find hash nextPowTwo spine name s = (Ret r, s) /\ found_in name r (keys_of name s) s.
Proof.
  intros Hi. apply find_in_found. intros k Hk. destruct (i_key s Hi name k Hk) as (m & n & _ & Hn & _). by exists n.
Qed.

(** [lock] succeeds on a live string and makes one more owner. *)
Lemma lock_weak_live k s o m : blocks s !! control k = Some (Block o (S m)) ->
  lock_weak k s = (Ret (Some (control k)), with_blocks (<[control k := Block o (S (S m))]> (blocks s)) s).
Proof. intros Hb. unfold lock_weak. by rewrite Hb. Qed.
Lemma lock_weak_dead k s o : blocks s !! control k = Some (Block o 0) -> lock_weak k s = (Ret None, s).
Proof. intros Hb. unfold lock_weak. by rewrite Hb. Qed.

(** What a region that hands out [name] leaves. *)
Definition handed (name : string) (b : nat) (s s' : state) : Prop :=
  inv s' /\ threads s' = threads s /\ returned s' = returned s /\
  exists o m, blocks s' !! b = Some (Block o (S m)) /\ objects s' !! o = Some name.

Lemma lock_found k s name :
  inv s -> k ∈ keys_of name s -> objects s !! object k = Some name ->
  (exists s', lock_weak k s = (Ret (Some (control k)), s') /\ handed name (control k) s s') \/
  (lock_weak k s = (Ret None, s) /\ blocks s !! control k = Some (Block (object k) 0)).
Proof.
  intros Hi Hk Hn. destruct (i_key s Hi name k Hk) as ([|m] & n' & Hb & _); [right; split; [by apply (lock_weak_dead k s (object k))|done]|left].
  rewrite (lock_weak_live k s _ m Hb). eexists. split; [reflexivity|]. split; [by apply (inv_count s _ _ m)|]. split; [done|]. split; [done|].
  exists (object k), (S m). cbn. by rewrite lookup_insert_eq.
Qed.

Lemma getFast_effect name s : inv s -> exists r s', getFast hash nextPowTwo spine name s = (Ret r, s') /\
  match r with Some b => handed name b s s' | None => s' = s end.
Proof.
  intros Hi. unfold getFast, se_bind. destruct (find_found name s Hi) as ([k|] & -> & Hr); [|by exists None, s].
  destruct Hr as [Hk Hn]. destruct (lock_found k s name Hi Hk Hn) as [(s' & -> & Hh)|[-> _]]; [by exists (Some (control k)), s'|by exists None, s].
Qed.

Lemma create_effect name s : inv s -> (forall k, k ∈ keys_of name s -> objects s !! object k <> Some name) ->
  exists b s', (let* k := new_name name in TLStatNames.insert hash nextPowTwo spine name k >>> se_ret (control k)) s = (Ret b, s') /\
    handed name b s s'.
Proof.
  intros Hi Hnew. unfold se_bind at 1, new_name. set (o := fresh (dom (objects s))). set (b := fresh (dom (blocks s))).
  assert (Ho : objects s !! o = None) by (apply not_elem_of_dom, is_fresh).
  assert (Hb : blocks s !! b = None) by (apply not_elem_of_dom, is_fresh).
  set (s1 := with_objects _ _). assert (Hk1 : keys_of name s1 = keys_of name s) by done.
  assert (Hsame : forall k, k ∈ keys_of name s -> objects s1 !! object k = objects s !! object k).
  { intros k Hk. destruct (i_key s Hi name k Hk) as (m & n & _ & Hn & _). cbn. apply lookup_insert_ne. congruence. }
  destruct (find_in_found name (keys_of name s1) s1) as (r & Er & Hr).
  { intros k Hk. rewrite Hk1 in Hk. rewrite Hsame by done. destruct (i_key s Hi name k Hk) as (m & n & _ & Hn & _). by exists n. }
  destruct r as [k|]; [destruct Hr as [Hk Hn]; rewrite Hk1 in Hk; rewrite Hsame in Hn by done; by destruct (Hnew k Hk)|].
  exists b. unfold TLStatNames.insert, TLStatNames.find, se_bind, se_get. rewrite Er. eexists. split; [reflexivity|].
  split; [exact (names_inv_new s name o b Ho Hb Hnew Hi)|]. split; [done|]. split; [done|]. exists o, 0%nat. cbn. by rewrite !lookup_insert_eq.
Qed.

Lemma getSlow_effect name s : inv s -> exists b s', getSlow hash nextPowTwo spine name s = (Ret b, s') /\ handed name b s s'.
Proof.
  intros Hi. unfold getSlow. unfold se_bind at 1. destruct (find_found name s Hi) as ([k|] & -> & Hr).
  - destruct Hr as [Hk Hn]. unfold se_bind at 1. unfold se_bind at 1.
    destruct (lock_found k s name Hi Hk Hn) as [(s' & -> & Hh)|[-> Hb]]; [by exists (control k), s'|].
    set (s1 := put name (filter (fun k' => k' <> k) (keys_of name s)) s).
    assert (Hi1 : inv s1) by (destruct k as [o b]; by apply (names_inv_erase s name o b)).
    destruct (create_effect name s1 Hi1) as (b & s' & Ec & Hh).
    { intros k' [Hk' Hne]%keys_erased Hn'. cbn in Hn'. apply Hne; [done|]. apply (i_unique s Hi name k' k); [done|done|congruence]. }
    exists b, s'. split; [exact Ec|]. exact Hh.
  - destruct (create_effect name s Hi Hr) as (b & s' & Ec & Hh). exists b, s'. split; [exact Ec|done].
Qed.

(** [clean] takes out the key of its own string, or finds that [getSlow] has. *)
Lemma clean_effect t b s : inv s -> threads s !! t = Some (Cleaning b) -> exists s', clean hash nextPowTwo spine b s = (Ret tt, s') /\
  inv s' /\ threads s' = threads s /\ forall n k, k ∈ keys_of n s' -> control k <> b.
Proof.
  intros Hi Ht. destruct (i_dying s Hi t b) as (o & name & Hb & Ho); [by left|].
  assert (Hheld : held b 0 s) by (right; exists t; by left).
  assert (Hown : forall n k, k ∈ keys_of n s -> object k = o -> control k = b).
  { intros n k Hk E. destruct (i_key s Hi n k Hk) as (m & n' & H1 & _ & _ & H4). rewrite E in H1.
    apply (i_owner s Hi (control k) b o m 0%nat H1 Hb); [|done]. destruct H4 as [?|[t' ?]]; [by left|right; exists t'; by left]. }
  assert (Hobj : forall n k, k ∈ keys_of n s -> control k = b -> k = Key o b /\ k ∈ keys_of name s).
  { intros n [o' b'] Hk E. cbn in E. subst b'. destruct (i_key s Hi n _ Hk) as (m & n' & H1 & H2 & H3 & _). cbn in H1, H2.
    rewrite Hb in H1. injection H1 as -> <-. split; [done|]. unfold TLStatNames.keys_of in Hk |- *.
    assert (n' = name) as -> by congruence. by rewrite H3. }
  unfold clean. rewrite Hb. cbn [b_object]. unfold se_bind at 1, deref. cbn [object]. rewrite Ho. cbn iota.
  unfold se_bind at 1. destruct (find_found name s Hi) as ([k|] & -> & Hr).
  - destruct Hr as [Hk Hn]. destruct (Nat.eqb_spec (object k) o) as [Eo|Eo].
    + pose proof (Hown name k Hk Eo) as Eb. assert (Ek : k = Key o b) by (destruct k; cbn in *; by subst).
      unfold se_bind at 1. rewrite (lock_weak_dead k s o) by congruence. cbn iota.
      eexists. split; [reflexivity|]. split; [rewrite Ek; by apply names_inv_erase|]. split; [done|].
      intros n k' [Hk' Hne]%keys_erased Ec. destruct (Hobj n k' Hk' Ec) as [-> Hkn]. apply Hne; [|done].
      destruct (i_key s Hi n _ Hk') as (m & n' & _ & H2 & H3 & _). cbn in H2. congruence.
    + exists s. split; [done|]. split; [done|]. split; [done|]. intros n k' Hk' Ec.
      destruct (Hobj n k' Hk' Ec) as [-> Hkn]. apply Eo. rewrite (i_unique s Hi name k (Key o b) Hk Hkn); [done|]. cbn. congruence.
  - exists s. split; [done|]. split; [done|]. split; [done|]. intros n k' Hk' Ec.
    destruct (Hobj n k' Hk' Ec) as [-> Hkn]. by apply (Hr _ Hkn).
Qed.

(** ** Steps and runs *)
Lemma inv_handed t name b s s' : inv s -> idle (threads s !! t) -> handed name b s s' ->
  exists s2, return_name t name b s' = (Ret tt, s2) /\ inv s2.
Proof.
  intros Hi Ht (Hi' & Et & Er & o & m & Hb & Ho). eexists. split; [reflexivity|].
  apply (names_inv_return _ name b o (S m)); [done|done|]. apply inv_idle; [by rewrite Et|done|done].
Qed.
Lemma names_step_inv e s : inv s -> exists s', step hash nextPowTwo spine e s = (Ret tt, s') /\ inv s'.
Proof.
  intros Hi. destruct e as [t name|b|t b|t]; unfold step; unfold se_bind at 1, se_get.
  - destruct (threads s !! t) eqn:Ht; [by exists s|]. destruct (getFast_effect name s Hi) as (r & s' & Eg & Hr).
    unfold se_bind. rewrite Eg. destruct r as [b|].
    + apply (inv_handed t name b s s'); [done|by rewrite Ht|done].
    + subst s'. eexists. split; [reflexivity|]. apply inv_idle; [by rewrite Ht|done|done].
  - destruct (blocks s !! b) as [[o [|n]]|] eqn:Hb; [by exists s| |by exists s].
    eexists. split; [reflexivity|]. by apply (inv_count s b o n).
  - destruct (threads s !! t) eqn:Ht; [by exists s|]. destruct (blocks s !! b) as [[o [|n]]|] eqn:Hb; [by exists s| |by exists s].
    destruct n as [|n]; (eexists; split; [reflexivity|]); [exact (inv_last s t b o Ht Hb Hi)|exact (inv_count s b o (S n) n Hb Hi)].
  - destruct (threads s !! t) as [[name|b|b]|] eqn:Ht; [| | |by exists s].
    + destruct (getSlow_effect name s Hi) as (b & s' & Eg & Hh). unfold se_bind. rewrite Eg.
      apply (inv_handed t name b s s'); [done|by rewrite Ht|done].
    + destruct (clean_effect t b s Hi Ht) as (s' & Ec & Hi' & Et & Hk). unfold se_bind. rewrite Ec.
      eexists. split; [reflexivity|]. apply inv_freeing; [by rewrite Et|done|done].
    + destruct (i_dying s Hi t b) as (o & n & Hb & Ho); [by right|]. unfold se_bind, free. rewrite Hb. cbn [b_object]. rewrite Ho.
      eexists. split; [reflexivity|]. by apply (inv_free s t b o).
Qed.
Lemma run_inv l s : inv s -> exists s', run hash nextPowTwo spine l s = (Ret tt, s') /\ inv s'.
Proof.
  revert s. induction l as [|e l IH]; intros s Hi; [by exists s|]. destruct (names_step_inv e s Hi) as (s1 & E1 & Hi1).
  cbn. unfold se_bind. rewrite E1. by apply IH.
Qed.

(** C13: whatever the threads do with names - ask for them, copy and drop their
    owners, run the deleter in three parts - and in whatever order, no freed string
    is ever read and the deleter's assertion holds; what [get] returned is a string
    of that name as long as it has an owner; two owned strings with the same text
    are the same string; and when every owner is gone and no thread is inside, every
    string is freed and every shard of the set is empty. *)
Theorem names_interned (l : list event) :
  exists s, run hash nextPowTwo spine l empty_state = (Ret tt, s) /\
    (forall name b o m, (name, b) ∈ returned s -> blocks s !! b = Some (Block o (S m)) -> objects s !! o = Some name) /\
    (forall b b' o o' m m' name, blocks s !! b = Some (Block o (S m)) -> blocks s !! b' = Some (Block o' (S m')) ->
       objects s !! o = Some name -> objects s !! o' = Some name -> b = b') /\
    (threads s = ∅ -> (forall b o m, blocks s !! b = Some (Block o m) -> m = 0%nat) ->
       objects s = ∅ /\ forall n, keys_of n s = []).
Proof.
  destruct (run_inv l empty_state (names_inv_empty)) as (s & Er & Hi). exists s. split; [done|]. split; [|split].
  - intros name b o m Hr Hb. destruct (i_returned s Hi name b Hr) as (o' & m' & H1 & H2). rewrite Hb in H1. injection H1 as <- <-.
    apply H2. left. lia.
  - intros b b' o o' m m' name Hb Hb' Ho Ho'.
    destruct (i_live s Hi b o m Hb) as (n & Hn & Hk), (i_live s Hi b' o' m' Hb') as (n' & Hn' & Hk').
    assert (n = name) as -> by congruence. assert (n' = name) as -> by congruence.
    assert (E : Key o b = Key o' b') by (apply (i_unique s Hi name); [done|done|cbn; congruence]). by injection E.
  - intros Ht Hz. assert (Hno : forall b m, held b m s -> (0 < m)%nat).
    { intros b m [?|(t & [Hx|Hx])]; [done|by rewrite Ht in Hx|by rewrite Ht in Hx]. }
    split.
    + apply map_eq. intros o. rewrite lookup_empty. destruct (objects s !! o) as [n|] eqn:Ho; [|done].
      destruct (i_memory s Hi o n Ho) as (b & m & Hb & Hh). apply Hno in Hh. rewrite (Hz b o m Hb) in Hh. lia.
    + intros n. destruct (keys_of n s) as [|k l'] eqn:Ek; [done|].
      destruct (i_key s Hi n k) as (m & n' & Hb & _ & _ & Hh); [rewrite Ek; set_solver|].
      rewrite (Hz _ _ m Hb) in Hh. destruct Hh as [?|[t Hx]]; [lia|by rewrite Ht in Hx].
Qed.
End Interned.

(** ** The race of a deleter with a new request

    Thread 0 drops the only owner of "cpu"; before its deleter takes the key out,
    thread 1 asks for the name and makes a new string; the deleter then finds a key
    that is not its own and leaves it. *)
Example race_with_deleter :
  let l := [Get 0 "cpu"; Go 0; Drop 0 0; Get 1 "cpu"; Go 1; Go 0; Go 0; Get 2 "cpu"] in
  let '(r, s) := run (fun n => Z.of_nat (String.length n)) (fun n => 2 ^ Z.log2_up n) 6 l empty_state in
  r = Ret tt /\ returned s = [("cpu", 1); ("cpu", 1); ("cpu", 0)]%nat /\ map_to_list (objects s) = [(1%nat, "cpu")] /\
  map_to_list (blocks s) = [(1%nat, Block 1 2); (0%nat, Block 0 0)] /\ sets_ s !! 3 = Some [Key 1 1].
Proof. vm_compute. repeat split. Qed.
