(* ===== verification/FunctionStats.v ===== *)
(** * FunctionStats: statistics of the functions of a service

    [src/fb303/TFunctionStatHandler.h] and [TFunctionStatHandler.cpp], with the
    standard handler's [StandardStatsPerThread].  The thrift server calls the
    handler around each request; what it learns is kept per thread and function
    and moved into two maps of time series by [consolidate].

    Operations run one after the other (each works under [mutex_] or
    [statMutex_]).  A thread has a name of its own that is never used again.  A
    [TStatsPerThread] belongs to the entry of one thread's map, so its address is
    the thread with the function; contexts have addresses.  Times are readings of
    [steady_clock], in ticks, handed in by the caller.  At the end, the life of a
    [StandardStatHandler]: the thread that consolidates, and the scope in which
    thrift has the handler. *)
From S2P Require Import Prelude RegexUtil FlatCounters CallbackValuesMap NamedCallbacks ExportType Timeseries TimeseriesExporter HistogramExporter ExportedStatMap ExportedHistogramMap QuantileStat QuantileStatMap ServiceOptions ServiceData.
From Stdlib Require Import ZArith Lia String SpecFloat.
From stdpp Require Import base gmap list strings.

Open Scope Z_scope.
Open Scope fb303_scope.
Import LegacyClock.

Definition double_add (a b : double) : double := SFadd 53 1024 a b.
Definition double_sub (a b : double) : double := SFsub 53 1024 a b.
Definition double_divide (a b : double) : double := SFdiv 53 1024 a b.

(** ** [TStatsRequestContext] *)
Record context := Context_ {
  measureTime_ : bool;
  readBeginCalled_ : bool;
  readEndCalled_ : bool;
  writeBeginCalled_ : bool;
  writeEndCalled_ : bool;
  exception : bool;
  userException : bool;
  rBytes_ : Z;
  wBytes_ : Z;
  readBeginTime_ : Z;
  readEndTime_ : Z;
  writeBeginTime_ : Z;
  writeEndTime_ : Z;
  stats_ : nat * string;
  originThreadId_ : Z
}.
Definition timed (x : context) (now old : Z) : Z := if measureTime_ x then now else old.
Definition readBegin (now : Z) (x : context) : context :=
  Context_ (measureTime_ x) true (readEndCalled_ x) (writeBeginCalled_ x) (writeEndCalled_ x) (exception x) (userException x)
    (rBytes_ x) (wBytes_ x) (timed x now (readBeginTime_ x)) (readEndTime_ x) (writeBeginTime_ x) (writeEndTime_ x)
    (stats_ x) (originThreadId_ x).
Definition readEnd (bytes now : Z) (x : context) : context :=
  Context_ (measureTime_ x) (readBeginCalled_ x) true (writeBeginCalled_ x) (writeEndCalled_ x) (exception x) (userException x)
    bytes (wBytes_ x) (readBeginTime_ x) (timed x now (readEndTime_ x)) (writeBeginTime_ x) (writeEndTime_ x)
    (stats_ x) (originThreadId_ x).
Definition writeBegin (now : Z) (x : context) : context :=
  Context_ (measureTime_ x) (readBeginCalled_ x) (readEndCalled_ x) true (writeEndCalled_ x) (exception x) (userException x)
    (rBytes_ x) (wBytes_ x) (readBeginTime_ x) (readEndTime_ x) (timed x now (writeBeginTime_ x)) (writeEndTime_ x)
    (stats_ x) (originThreadId_ x).
Definition writeEnd (bytes now : Z) (x : context) : context :=
  Context_ (measureTime_ x) (readBeginCalled_ x) (readEndCalled_ x) (writeBeginCalled_ x) true (exception x) (userException x)
    (rBytes_ x) bytes (readBeginTime_ x) (readEndTime_ x) (writeBeginTime_ x) (timed x now (writeEndTime_ x))
    (stats_ x) (originThreadId_ x).
Definition exceptionThrown (x : context) : context :=
  Context_ (measureTime_ x) (readBeginCalled_ x) (readEndCalled_ x) (writeBeginCalled_ x) (writeEndCalled_ x) true (userException x)
    (rBytes_ x) (wBytes_ x) (readBeginTime_ x) (readEndTime_ x) (writeBeginTime_ x) (writeEndTime_ x)
    (stats_ x) (originThreadId_ x).
Definition userExceptionThrown (x : context) : context :=
  Context_ (measureTime_ x) (readBeginCalled_ x) (readEndCalled_ x) (writeBeginCalled_ x) (writeEndCalled_ x) (exception x) true
    (rBytes_ x) (wBytes_ x) (readBeginTime_ x) (readEndTime_ x) (writeBeginTime_ x) (writeEndTime_ x)
    (stats_ x) (originThreadId_ x).

(** ** [TStatsPerThread] *)
Record time_series := TimeSeries { ts_n : Z; ts_total : Z; quantileStat : option nat }.
Definition clear_series (x : time_series) : time_series := TimeSeries 0 0 (quantileStat x).
Record per_thread := PerThread {
  calls_ : Z;
  processed_ : Z;
  exceptions_ : Z;
  userExceptions_ : Z;
  readData_ : time_series;
  writeData_ : time_series;
  samples_ : Z;
  readTime_ : time_series;
  writeTime_ : time_series;
  processTime_ : time_series;
  totalCpuTime_ : time_series;
  totalWorkedTime_ : time_series;
  sampleRate_ : double;
  sampleTimer_ : double;
  requestStatsMeasureRate_ : double;
  requestStatsLogRate_ : double
}.
Definition one : double := double_of_Z 1.
Definition zero : double := S754_zero false.
Definition no_series : time_series := TimeSeries 0 0 None.
(** [std::make_shared<StandardStatsPerThread>()]: the counts start at zero. *)
Definition createStatsPerThread : per_thread :=
  PerThread 0 0 0 0 no_series no_series 0 no_series no_series no_series no_series no_series one zero zero zero.
Definition with_rate (rate : double) (x : per_thread) : per_thread :=
  PerThread (calls_ x) (processed_ x) (exceptions_ x) (userExceptions_ x) (readData_ x) (writeData_ x) (samples_ x) (readTime_ x)
    (writeTime_ x) (processTime_ x) (totalCpuTime_ x) (totalWorkedTime_ x) rate (sampleTimer_ x)
    (requestStatsMeasureRate_ x) (requestStatsLogRate_ x).
Definition with_timer (timer : double) (x : per_thread) : per_thread :=
  PerThread (calls_ x) (processed_ x) (exceptions_ x) (userExceptions_ x) (readData_ x) (writeData_ x) (samples_ x) (readTime_ x)
    (writeTime_ x) (processTime_ x) (totalCpuTime_ x) (totalWorkedTime_ x) (sampleRate_ x) timer
    (requestStatsMeasureRate_ x) (requestStatsLogRate_ x).
Definition setQuantileStats (processTime : nat) (x : per_thread) : per_thread :=
  PerThread (calls_ x) (processed_ x) (exceptions_ x) (userExceptions_ x) (readData_ x) (writeData_ x) (samples_ x) (readTime_ x)
    (writeTime_ x) (TimeSeries (ts_n (processTime_ x)) (ts_total (processTime_ x)) (Some processTime)) (totalCpuTime_ x)
    (totalWorkedTime_ x) (sampleRate_ x) (sampleTimer_ x) (requestStatsMeasureRate_ x) (requestStatsLogRate_ x).
Definition clear (x : per_thread) : per_thread :=
  PerThread 0 0 0 0 (clear_series (readData_ x)) (clear_series (writeData_ x)) 0 (clear_series (readTime_ x))
    (clear_series (writeTime_ x)) (clear_series (processTime_ x)) (totalCpuTime_ x) (totalWorkedTime_ x)
    (sampleRate_ x) (sampleTimer_ x) (requestStatsMeasureRate_ x) (requestStatsLogRate_ x).
Definition setSampleRate (rate : double) (x : per_thread) : per_thread :=
  with_rate (if SFltb one rate || SFltb rate zero then one else rate) x.
(** The timer, and whether this request is measured. *)
Definition evaluate_sampling (x : per_thread) : bool * per_thread :=
  let timer := double_add (sampleTimer_ x) (sampleRate_ x) in
  if SFleb one timer then (true, with_timer (double_sub timer one) x) else (false, with_timer timer x).

Definition microseconds : Z := 1000000.
Definition count_usec (d : Z) : Z := duration_cast QuantileStatMap.nanoseconds microseconds d.

Module FunctionStats.
Section Model.
Context {M : Type} `{RegexMatchCache M} {TS Hg HV : Type} `{FollyHistogram TS Hg HV}.
Context {E : Type} `{QuantileEstimator E} `{NumberFormat}.
Context {U US Getter Setter W : Type} (hash : string -> Z).
Abbreviation service := (ServiceData.state M TS Hg E U US Getter Setter W).
Abbreviation dynamic_counters := (CallbackValuesMap.cvm (counter_callback U) M).
#[local] Instance counters_registry : NamedCallbacks dynamic_counters (counter_callback U) := callback_values_map hash.
Context (gap_stats : ExportedStatMap.statmap TS * dynamic_counters -> ExportedStatMap.statmap TS * dynamic_counters).
Context (gap_quantiles : QuantileStatMap.state E M -> QuantileStatMap.state E M).
Context (time_source : nat -> Z).

(** ** Adding to a series and to its quantile stat *)
Definition on_quantile (q : option nat) (value now : Z) : SE service unit :=
  match q with
  | Some p => ServiceData.on_quantiles (QuantileStatMap.add_to p (double_of_Z value) now)
  | None => se_ret tt
  end.
Definition add (value now : Z) (x : time_series) : SE service time_series :=
  on_quantile (quantileStat x) value now >>>
  se_ret (TimeSeries (wrapu 32 (ts_n x + 1)) (wrapu 64 (ts_total x + value)) (quantileStat x)).
Definition add_if (b : bool) (value now : Z) (x : time_series) : SE service time_series :=
  if b then add value now x else se_ret x.
Definition check (b : bool) : SE service unit := if b then se_ret tt else se_throw check_failed.
Definition b2z (b : bool) : Z := if b then 1 else 0.

(** [StandardStatsPerThread::logContextDataProcessed]: the count and the series. *)
Definition logContextDataProcessed (c : context) (now : Z) (x : per_thread) : SE service (Z * time_series) :=
  if negb (writeBeginCalled_ c) then se_ret (processed_ x, processTime_ x)
  else
    check (readEndCalled_ c) >>>
    let* t := add_if (measureTime_ c) (count_usec (writeBeginTime_ c - readEndTime_ c)) now (processTime_ x) in
    se_ret (wrapu 32 (processed_ x + 1), t).
Definition logContextData (c : context) (now : Z) (x : per_thread) : SE service per_thread :=
  check (negb (readEndCalled_ c) || readBeginCalled_ c) >>>
  let* rd := add_if (readEndCalled_ c) (rBytes_ c) now (readData_ x) in
  let* rt := add_if (readEndCalled_ c && measureTime_ c) (count_usec (readEndTime_ c - readBeginTime_ c)) now (readTime_ x) in
  check (negb (writeEndCalled_ c) || writeBeginCalled_ c) >>>
  let* wd := add_if (writeEndCalled_ c) (wBytes_ c) now (writeData_ x) in
  let* wt := add_if (writeEndCalled_ c && measureTime_ c) (count_usec (writeEndTime_ c - writeBeginTime_ c)) now (writeTime_ x) in
  let* p := logContextDataProcessed c now x in
  se_ret (PerThread (wrapu 32 (calls_ x + 1)) p.1 (wrapu 32 (exceptions_ x + b2z (exception c)))
    (wrapu 32 (userExceptions_ x + b2z (userException c))) rd wd (wrapu 32 (samples_ x + b2z (measureTime_ c))) rt wt p.2
    (totalCpuTime_ x) (totalWorkedTime_ x) (sampleRate_ x) (sampleTimer_ x) (requestStatsMeasureRate_ x) (requestStatsLogRate_ x)).

(** ** State of the handler *)
Record aggregator := Aggregator {
  map : gmap string per_thread;
  cached : option (string * (nat * string))          (** [cachedFnName], [cachedStats] *)
}.
Record handler := Handler {
  tlFunctionMap_ : gmap nat aggregator;
  contexts : gmap nat context;
  counterNamePrefix_ : string;
  nThreads_ : Z;
  desiredSamplesPerPeriod_ : double;
  statMapSum_ : ExportedStatMap.statmap TS;
  statMapAvg_ : ExportedStatMap.statmap TS;
  counter : Z;                                       (** of [currentThreadStatsId] *)
  ids : gmap nat Z
}.
Abbreviation state := (handler * service)%type.
Definition with_map m h := Handler m (contexts h) (counterNamePrefix_ h) (nThreads_ h) (desiredSamplesPerPeriod_ h)
  (statMapSum_ h) (statMapAvg_ h) (counter h) (ids h).
Definition with_contexts c h := Handler (tlFunctionMap_ h) c (counterNamePrefix_ h) (nThreads_ h) (desiredSamplesPerPeriod_ h)
  (statMapSum_ h) (statMapAvg_ h) (counter h) (ids h).
Definition with_nThreads n h := Handler (tlFunctionMap_ h) (contexts h) (counterNamePrefix_ h) n (desiredSamplesPerPeriod_ h)
  (statMapSum_ h) (statMapAvg_ h) (counter h) (ids h).
Definition with_sum m h := Handler (tlFunctionMap_ h) (contexts h) (counterNamePrefix_ h) (nThreads_ h) (desiredSamplesPerPeriod_ h)
  m (statMapAvg_ h) (counter h) (ids h).
Definition with_avg m h := Handler (tlFunctionMap_ h) (contexts h) (counterNamePrefix_ h) (nThreads_ h) (desiredSamplesPerPeriod_ h)
  (statMapSum_ h) m (counter h) (ids h).
Definition with_ids n m h := Handler (tlFunctionMap_ h) (contexts h) (counterNamePrefix_ h) (nThreads_ h) (desiredSamplesPerPeriod_ h)
  (statMapSum_ h) (statMapAvg_ h) n m.

Definition modify (f : handler -> handler) : SE state unit := fun s => (Ret tt, (f s.1, s.2)).
Definition on_service {A} (f : SE service A) : SE state A := fun s => let '(r, d) := f s.2 in (r, (s.1, d)).
(** The two maps of time series export to the service's dynamic counters. *)
Definition on_sum {A} (f : SE (ExportedStatMap.statmap TS * dynamic_counters) A) : SE state A := fun s =>
  let '(r, (m, c)) := f (statMapSum_ s.1, ServiceData.dynamicCounters_ s.2) in (r, (with_sum m s.1, ServiceData.with_dynamic c s.2)).
Definition on_avg {A} (f : SE (ExportedStatMap.statmap TS * dynamic_counters) A) : SE state A := fun s =>
  let '(r, (m, c)) := f (statMapAvg_ s.1, ServiceData.dynamicCounters_ s.2) in (r, (with_avg m s.1, ServiceData.with_dynamic c s.2)).

(** A stats object through its address. *)
Definition lookup (p : nat * string) (s : state) : option per_thread :=
  a ← tlFunctionMap_ s.1 !! p.1; map a !! p.2.
Definition get (p : nat * string) : SE state per_thread := fun s =>
  match lookup p s with Some x => (Ret x, s) | None => (Throw undefined_behaviour, s) end.
Definition put (p : nat * string) (x : per_thread) : SE state unit :=
  modify (fun h => with_map (alter (fun a => Aggregator (<[p.2 := x]> (map a)) (cached a)) p.1 (tlFunctionMap_ h)) h).

(** [currentThreadStatsId]: drawn from the counter on a thread's first call. *)
Definition currentThreadStatsId (t : nat) : SE state Z := fun s =>
  match ids s.1 !! t with
  | Some n => (Ret n, s)
  | None =>
      let n := wrapu 64 (counter s.1 + 1) in
      (Ret n, (with_ids n (<[t := n]> (ids s.1)) s.1, s.2))
  end.

(** ** Consolidation *)
Definition tiny : double := double_divide one (double_of_Z 1000000000).
(** What is added to [statMapSum_], as name suffix and value. *)
Definition sum_reports (x : per_thread) : list (string * Z) :=
  [(".num_calls", calls_ x); (".num_reads", ts_n (readData_ x)); (".num_writes", ts_n (writeData_ x));
   (".num_processed", processed_ x); (".num_all_exceptions", userExceptions_ x); (".num_exceptions", exceptions_ x);
   (".num_samples", samples_ x); (".bytes_read", wraps 64 (ts_total (readData_ x)));
   (".bytes_written", wraps 64 (ts_total (writeData_ x)))].
(** What is added to [statMapAvg_]: suffix, sum and count. *)
Definition avg_reports (x : per_thread) : list (string * (Z * Z)) :=
  [(".bytes_read", (wraps 64 (ts_total (readData_ x)), ts_n (readData_ x)));
   (".bytes_written", (wraps 64 (ts_total (writeData_ x)), ts_n (writeData_ x)));
   (".time_read_us", (wraps 64 (ts_total (readTime_ x)), ts_n (readTime_ x)));
   (".time_write_us", (wraps 64 (ts_total (writeTime_ x)), ts_n (writeTime_ x)));
   (".time_process_us", (wraps 64 (ts_total (processTime_ x)), ts_n (processTime_ x)));
   (".total_cpu_us", (wraps 64 (ts_total (totalCpuTime_ x)), ts_n (totalCpuTime_ x)));
   (".total_worked_us", (wraps 64 (ts_total (totalWorkedTime_ x)), ts_n (totalWorkedTime_ x)))].
Fixpoint add_sums (prefix : string) (now : Z) (l : list (string * Z)) : SE state unit :=
  match l with
  | [] => se_ret tt
  | (suffix, v) :: l' =>
      on_sum (ExportedStatMap.addValue StatCounter gap_stats (prefix +:+ suffix) now v 1) >>> add_sums prefix now l'
  end.
Fixpoint add_avgs (prefix : string) (now : Z) (l : list (string * (Z * Z))) : SE state unit :=
  match l with
  | [] => se_ret tt
  | (suffix, (sum, n)) :: l' =>
      on_avg (ExportedStatMap.addValueAggregated StatCounter gap_stats (prefix +:+ suffix) now sum n) >>> add_avgs prefix now l'
  end.
(** [addValue(name, now, 1 / rate)]: the quotient becomes an integer. *)
Definition add_rate (name : string) (now : Z) (rate : double) : SE state unit :=
  if SFltb tiny rate then
    match double_to_int64 (double_divide one rate) with
    | Some v => on_avg (ExportedStatMap.addValue StatCounter gap_stats name now v 1)
    | None => se_throw undefined_behaviour
    end
  else se_ret tt.
Definition addAllValues (prefix : string) (now : Z) (x : per_thread) : SE state unit :=
  add_sums prefix now (sum_reports x) >>>
  add_rate (prefix +:+ ".request_stats_rate") now (requestStatsMeasureRate_ x) >>>
  add_rate (prefix +:+ ".request_stats_log_rate") now (requestStatsLogRate_ x) >>>
  add_avgs prefix now (avg_reports x).

Definition new_rate (h : handler) (x : per_thread) : double :=
  if 0 <? calls_ x
  then double_divide (double_divide (desiredSamplesPerPeriod_ h) (double_of_Z (nThreads_ h))) (double_of_Z (calls_ x))
  else one.
Definition consolidateStats (nowSec : Z) (p : nat * string) : SE state Z :=
  let* x := get p in
  let* s := se_get in
  addAllValues (counterNamePrefix_ s.1 +:+ p.2) (nowSec * milliseconds) x >>>
  put p (clear (setSampleRate (new_rate s.1 x) x)) >>>
  se_ret (wraps 32 (calls_ x)).
(** [calls += ...]: of type [int]. *)
Definition add_int (a b : Z) : SE state Z :=
  if (smin 32 <=? a + b) && (a + b <=? smax 32) then se_ret (a + b) else se_throw undefined_behaviour.
Fixpoint consolidate_each (now : Z) (t : nat) (fns : list string) (calls : Z) : SE state Z :=
  match fns with
  | [] => se_ret calls
  | fn :: fns' =>
      let* n := consolidateStats now (t, fn) in
      let* calls := add_int calls n in
      consolidate_each now t fns' calls
  end.
Definition functions_of (t : nat) (h : handler) : list string :=
  match tlFunctionMap_ h !! t with Some a => (map_to_list (map a)).*1 | None => [] end.
Definition consolidateThread (now : Z) (t : nat) : SE state Z :=
  let* s := se_get in consolidate_each now t (functions_of t s.1) 0.
Definition legacy_now : SE state Z := on_service (ServiceData.on_clock (get_legacy_stats_time time_source)).
Fixpoint consolidate_threads (now : Z) (ts : list nat) (threadCounter : Z) : SE state Z :=
  match ts with
  | [] => se_ret threadCounter
  | t :: ts' =>
      let* calls := consolidateThread now t in
      consolidate_threads now ts' (threadCounter + b2z (0 <? calls))
  end.
Definition consolidate : SE state unit :=
  let* now := legacy_now in
  let* s := se_get in
  let* threadCounter := consolidate_threads now (map_to_list (tlFunctionMap_ s.1)).*1 0 in
  if 0 <? threadCounter then modify (with_nThreads threadCounter) else se_ret tt.

(** ** Stats of a function in the current thread *)
Definition quantile_literal (q : Z) : double := double_divide (double_of_Z q) (double_of_Z 10000).
Definition getSharedQuantileStats (fnName : string) (now : Z) : SE state nat :=
  let* s := se_get in
  on_service (ServiceData.getQuantileStat gap_quantiles (counterNamePrefix_ s.1 +:+ fnName +:+ ".time_process_us")
    [] (quantile_literal <$> QuantileConsts.kP10_P50_P90_P95_P99_P100) [60] now).
Definition put_aggregator (t : nat) (a : aggregator) : SE state unit :=
  modify (fun h => with_map (<[t := a]> (tlFunctionMap_ h)) h).
Definition get_aggregator (t : nat) : SE state aggregator := fun s =>
  match tlFunctionMap_ s.1 !! t with Some a => (Ret a, s) | None => (Throw undefined_behaviour, s) end.
(** The single-entry cache, matched by content. *)
Definition cache_hit (fnName : string) (a : aggregator) : option (nat * string) :=
  match cached a with
  | Some (cachedFnName, cachedStats) => if bool_decide (fnName = cachedFnName) then Some cachedStats else None
  | None => None
  end.
Definition getStats (t : nat) (fnName : string) (now : Z) : SE state (nat * string) :=
  let* s := se_get in
  (match tlFunctionMap_ s.1 !! t with Some _ => se_ret tt | None => put_aggregator t (Aggregator ∅ None) end) >>>
  let* a := get_aggregator t in
  match cache_hit fnName a with
  | Some p => se_ret p
  | None =>
      (match map a !! fnName with
       | Some _ => se_ret tt
       | None =>
           let* q := getSharedQuantileStats fnName now in
           let* a := get_aggregator t in
           put_aggregator t (Aggregator (<[fnName := setQuantileStats q createStatsPerThread]> (map a)) (cached a))
       end) >>>
      let* a := get_aggregator t in
      put_aggregator t (Aggregator (map a) (Some (fnName, (t, fnName)))) >>>
      se_ret (t, fnName)
  end.

(** ** What the server calls; a null context is [None] *)
Definition new_context (x : context) : SE state nat := fun s =>
  let c := fresh (dom (contexts s.1)) in
  (Ret c, (with_contexts (<[c := x]> (contexts s.1)) s.1, s.2)).
Definition get_context (c : nat) : SE state context := fun s =>
  match contexts s.1 !! c with Some x => (Ret x, s) | None => (Throw undefined_behaviour, s) end.
Definition on_context (ctx : option nat) (f : context -> context) : SE state unit :=
  match ctx with
  | None => se_ret tt
  | Some c => let* x := get_context c in modify (fun h => with_contexts (<[c := f x]> (contexts h)) h)
  end.
Definition getContext (t : nat) (fnName : string) (now : Z) : SE state (option nat) :=
  let* p := getStats t fnName now in
  let* id := currentThreadStatsId t in
  let* x := get p in
  let '(measure, x') := evaluate_sampling x in
  put p x' >>>
  let* c := new_context (Context_ measure false false false false false false 0 0 0 0 0 0 p id) in
  se_ret (Some c).
Definition preRead (ctx : option nat) (now : Z) : SE state unit := on_context ctx (readBegin now).
Definition postRead (ctx : option nat) (bytes now : Z) : SE state unit := on_context ctx (readEnd bytes now).
Definition preWrite (ctx : option nat) (now : Z) : SE state unit := on_context ctx (writeBegin now).
Definition postWrite (ctx : option nat) (bytes now : Z) : SE state unit := on_context ctx (writeEnd bytes now).
Definition handlerError (ctx : option nat) : SE state unit := on_context ctx exceptionThrown.
Definition userExceptionWrapped (ctx : option nat) : SE state unit := on_context ctx userExceptionThrown.
Definition freeContext (t : nat) (ctx : option nat) (fn_name : string) (now : Z) : SE state unit :=
  match ctx with
  | None => se_ret tt
  | Some c =>
      let* x := get_context c in
      let* id := currentThreadStatsId t in
      let* p := (if originThreadId_ x =? id then se_ret (stats_ x) else getStats t fn_name now) in
      let* y := get p in
      let* y' := on_service (logContextData x now y) in
      put p y' >>>
      modify (fun h => with_contexts (delete c (contexts h)) h)
  end.

(** ** A thread ends: its map is consolidated and deleted, by the deleter of
    [tlFunctionMap_] *)
Definition thread_exit (t : nat) : SE state unit :=
  let* s := se_get in
  match tlFunctionMap_ s.1 !! t with
  | None => se_ret tt
  | Some _ =>
      let* now := legacy_now in
      let* _ := consolidateThread now t in
      modify (fun h => with_map (delete t (tlFunctionMap_ h)) h)
  end.

(** ** Construction, and the default series *)
Definition kFiveSecondMinuteTenMinuteHourDurations : list Z := in_ticks milliseconds [5; 60; 600; 3600; 0].
Definition FiveSecondMinuteTenMinuteHourTimeSeries : level_table :=
  Table milliseconds 60 kFiveSecondMinuteTenMinuteHourDurations ["FIVE_SECOND"; "MINUTE"; "TEN_MINUTE"; "HOUR"; "ALLTIME"].
Definition kDefaultCounterNamePrefix : string := "thrift.".
(** [secondsPerPeriod * sampPerSecond] is of type [int]. *)
Definition make (sampPerSecond secondsPerPeriod : Z) (prefix : string) (useSubMinuteIntervalCounters : bool) : outcome handler :=
  let samples := secondsPerPeriod * sampPerSecond in
  if negb ((smin 32 <=? samples) && (samples <=? smax 32)) then Throw undefined_behaviour
  else
    match construct (if useSubMinuteIntervalCounters then FiveSecondMinuteTenMinuteHourTimeSeries else MinuteTenMinuteHourTimeSeries) with
    | Throw e => Throw e
    | Ret t =>
        if samples <=? 0 then Throw check_failed
        else Ret (Handler ∅ ∅ prefix 1 (double_of_Z samples) (ExportedStatMap.make [SUM; RATE] t) (ExportedStatMap.make [AVG] t) 0 ∅)
    end.
Definition setDefaultStat (defaultStat : TS) : SE state unit :=
  on_sum (ExportedStatMap.setDefaultStat defaultStat) >>> on_avg (ExportedStatMap.setDefaultStat defaultStat).
(** [preDestroy], the scheduler thread being gone. *)
Definition preDestroy : SE state unit := consolidate.
End Model.
End FunctionStats.

(** ** The life of a handler *)
(** [folly::FunctionScheduler]: starting fails when it runs, shutting down when it
    does not. *)
Class FunctionScheduler (Sch : Type) := {
  sch_new : Sch;
  sch_running : Sch -> bool;
  sch_functions : Sch -> list (string * Z);                       (** name, interval in milliseconds *)
  sch_addFunction : string -> Z -> Sch -> Sch;
  sch_setThreadName : string -> Sch -> Sch;
  sch_start : Sch -> bool * Sch;
  sch_shutdown : Sch -> bool * Sch;
  sch_new_spec : sch_running sch_new = false /\ sch_functions sch_new = [];
  sch_add_spec : forall n i s, sch_running (sch_addFunction n i s) = sch_running s /\
    sch_functions (sch_addFunction n i s) = sch_functions s ++ [(n, i)];
  sch_name_spec : forall n s, sch_running (sch_setThreadName n s) = sch_running s /\
    sch_functions (sch_setThreadName n s) = sch_functions s;
  sch_start_spec : forall s, (sch_start s).1 = negb (sch_running s) /\ sch_running (sch_start s).2 = true /\
    sch_functions (sch_start s).2 = sch_functions s;
  sch_shutdown_spec : forall s, (sch_shutdown s).1 = sch_running s /\ sch_running (sch_shutdown s).2 = false
}.
(** [TProcessorBase]'s event handlers, in the order they were added. *)
Class ProcessorHandlers (P : Type) := {
  ph_handlers : P -> list nat;
  ph_add : nat -> P -> P;
  ph_remove : nat -> P -> P;
  ph_add_spec : forall h p, ph_handlers (ph_add h p) = ph_handlers p ++ [h];
  ph_remove_spec : forall h p, ph_handlers (ph_remove h p) = filter (fun k => k <> h) (ph_handlers p)
}.

Module StandardHandler.
Section Model.
Context {M : Type} `{RegexMatchCache M} {TS Hg : Type} `{FollyTimeseries TS}.
Context {E U US Getter Setter W : Type} (hash : string -> Z).
Context {Sch P : Type} `{FunctionScheduler Sch} `{ProcessorHandlers P}.
Abbreviation service := (ServiceData.state M TS Hg E U US Getter Setter W).
Abbreviation dynamic_counters := (CallbackValuesMap.cvm (counter_callback U) M).
Context (gap_stats : ExportedStatMap.statmap TS * dynamic_counters -> ExportedStatMap.statmap TS * dynamic_counters).
Context (time_source : nat -> Z).

(** ** State: thrift's handlers, and one handler with its scheduler *)
Record host := Host {
  processors : P;
  scheduler_ : Sch;
  stats_ : FunctionStats.handler (TS := TS);
  fbData : service
}.
Definition with_processors (p : P) (s : host) : host := Host p (scheduler_ s) (stats_ s) (fbData s).
Definition with_scheduler (c : Sch) (s : host) : host := Host (processors s) c (stats_ s) (fbData s).
Definition with_stats (x : FunctionStats.handler * service) (s : host) : host := Host (processors s) (scheduler_ s) x.1 x.2.
Definition modify_host (f : host -> host) : SE host unit := fun s => (Ret tt, f s).
Definition on_stats {A} (f : SE (FunctionStats.handler * service) A) : SE host A := fun s =>
  let '(r, x) := f (stats_ s, fbData s) in (r, with_stats x s).
Definition on_scheduler {A} (f : Sch -> A * Sch) : SE host A := fun s =>
  let '(a, c) := f (scheduler_ s) in (Ret a, with_scheduler c s).
Definition dcheck (b : bool) : SE host unit := if b then se_ret tt else se_throw check_failed.

Definition kSamplesPerSecond : Z := 100.
Definition kSecondsPerPeriod : Z := 5.
Definition consolidate_name : string := "fb303-consolidate".

(** ** Construction and destruction *)
Definition postConstruct (secondsPerPeriod_ : Z) : SE host unit :=
  on_scheduler (fun c => (tt, sch_addFunction consolidate_name (duration_cast seconds milliseconds secondsPerPeriod_) c)) >>>
  on_scheduler (fun c => (tt, sch_setThreadName consolidate_name c)) >>>
  let* started := on_scheduler sch_start in
  dcheck started.
Definition preDestroy : SE host unit :=
  let* shutdown := on_scheduler sch_shutdown in
  dcheck shutdown >>>
  on_stats (FunctionStats.consolidate hash gap_stats time_source).
(** [StandardStatHandler(serviceName)]; the name of the service is not used. *)
Definition construct_handler (serviceName : string) : SE host unit :=
  let* s := se_get in
  match FunctionStats.make kSamplesPerSecond kSecondsPerPeriod FunctionStats.kDefaultCounterNamePrefix false with
  | Ret x => modify_host (fun s => Host (processors s) sch_new x (fbData s)) >>> postConstruct kSecondsPerPeriod
  | Throw e => se_throw e
  end.

(** ** Among thrift's handlers; [h] is the address of the handler *)
Definition addThriftFunctionStatHandler (h : nat) (serviceName : string) : SE host unit :=
  construct_handler serviceName >>> modify_host (fun s => with_processors (ph_add h (processors s)) s).
(** [fn], then the end of the scope, whether [fn] returned or threw. *)
Definition scope_exit (leave fn : SE host unit) : SE host unit := fun s =>
  let '(r, s1) := fn s in
  match leave s1 with
  | (Ret _, s2) => (r, s2)
  | (Throw e, s2) => (Throw e, s2)
  end.
(** The handler goes last, with the only pointer to it when nothing else keeps one. *)
Definition withThriftFunctionStats (h : nat) (serviceName : string) (fn : SE host unit) : SE host unit :=
  construct_handler serviceName >>>
  modify_host (fun s => with_processors (ph_add h (processors s)) s) >>>
  scope_exit (modify_host (fun s => with_processors (ph_remove h (processors s)) s) >>> preDestroy) fn.

(** ** What a scope is worth *)
Lemma construct_handler_runs n (s : host) : exists x c,
  construct_handler n s = (Ret tt, Host (processors s) c x (fbData s)) /\ sch_running c = true /\
  sch_functions c = [(consolidate_name, 5000)] /\
  FunctionStats.make kSamplesPerSecond kSecondsPerPeriod FunctionStats.kDefaultCounterNamePrefix false = Ret x.
Proof.
  unfold construct_handler. rewrite (se_bind_ret _ _ _ s s) by done.
  destruct (FunctionStats.make _ _ _ _) as [x|e] eqn:Em; [|done]. exists x.
  set (c1 := sch_setThreadName consolidate_name (sch_addFunction consolidate_name 5000 sch_new)).
  destruct sch_new_spec as [R0 F0], (sch_add_spec consolidate_name 5000 sch_new) as [R1 F1].
  destruct (sch_name_spec consolidate_name (sch_addFunction consolidate_name 5000 sch_new)) as [R2 F2]. fold c1 in R2, F2.
  destruct (sch_start_spec c1) as (Es & R3 & F3). exists (sch_start c1).2. split_and!; try done.
  - unfold postConstruct, se_bind, modify_host, on_scheduler. cbn.
    change (duration_cast seconds milliseconds kSecondsPerPeriod) with 5000. fold c1.
    destruct (sch_start c1) as [b c2]. cbn in Es |- *. rewrite Es, R2, R1, R0. done.
  - by rewrite F3, F2, F1, F0.
Qed.

(** While [fn] runs the handler is registered and its thread consolidates every
    five seconds; however [fn] ends - provided it leaves the scheduler alone - the
    handler is out of thrift's list, the thread is stopped, what the requests left
    is consolidated, and an exception of [fn] goes on. *)
Theorem with_stats_scope h n fn (s : host) :
  (forall s1, sch_running (scheduler_ (fn s1).2) = sch_running (scheduler_ s1)) ->
  exists s0, ph_handlers (processors s0) = ph_handlers (processors s) ++ [h] /\ sch_running (scheduler_ s0) = true /\
    sch_functions (scheduler_ s0) = [(consolidate_name, 5000)] /\
    let '(r, s1) := fn s0 in
    let '(rc, x) := FunctionStats.consolidate hash gap_stats time_source (stats_ s1, fbData s1) in
    let '(r', s') := withThriftFunctionStats h n fn s in
    r' = match rc with Ret _ => r | Throw e => Throw e end /\ (stats_ s', fbData s') = x /\
    ph_handlers (processors s') = filter (fun k => k <> h) (ph_handlers (processors s1)) /\ sch_running (scheduler_ s') = false.
Proof.
  intros Hfn. destruct (construct_handler_runs n s) as (x & c & Ec & Hr & Hf & _).
  exists (Host (ph_add h (processors s)) c x (fbData s)). split; [apply ph_add_spec|]. split; [done|]. split; [done|].
  unfold withThriftFunctionStats. rewrite (se_bind_ret _ _ _ _ _ Ec). unfold se_bind at 1, modify_host at 1. cbn iota.
  set (s0 := Host (ph_add h (processors s)) c x (fbData s)).
  change (with_processors (ph_add h (processors (Host (processors s) c x (fbData s)))) (Host (processors s) c x (fbData s))) with s0.
  unfold scope_exit. specialize (Hfn s0). destruct (fn s0) as [r s1]. cbn in Hfn. rewrite Hr in Hfn.
  unfold preDestroy. generalize (FunctionStats.consolidate (M := M) (Hg := Hg) (E := E) (US := US) (Getter := Getter) (Setter := Setter) (W := W) hash gap_stats time_source).
  intros last. unfold se_bind, modify_host, on_scheduler. cbn. destruct (sch_shutdown_spec (scheduler_ s1)) as [E1 E2].
  destruct (sch_shutdown (scheduler_ s1)) as [b c2]. cbn in E1, E2 |- *. rewrite E1, Hfn. cbn. unfold on_stats. cbn.
  destruct (last (stats_ s1, fbData s1)) as [[[]|e] [x1 d1]]; cbn; (split; [done|]).
  - split; [done|]. split; [apply ph_remove_spec|done].
  - split; [done|]. split; [apply ph_remove_spec|done].
Qed.
End Model.
End StandardHandler.

(** Thrift's list and a scheduler that keep to the interfaces. *)
#[refine, local] Instance list_handlers : ProcessorHandlers (list nat) := {|
  ph_handlers p := p; ph_add h p := p ++ [h]; ph_remove h p := filter (fun k => k <> h) p |}.
Proof. all: done. Defined.
#[refine, local] Instance list_scheduler : FunctionScheduler (bool * list (string * Z)) := {|
  sch_new := (false, []); sch_running := fst; sch_functions := snd; sch_addFunction n i s := (s.1, s.2 ++ [(n, i)]);
  sch_setThreadName _ s := s; sch_start s := (negb s.1, (true, s.2)); sch_shutdown s := (s.1, (false, s.2)) |}.
Proof. all: done. Defined.
