(* ===== verification/FunctionStatsCorrect.v ===== *)
(** * FunctionStatsCorrect: no request is lost or counted twice

    For each number that [FunctionStats] sums: what the published series holds and
    what threads have not handed over yet add up to what requests brought. *)
From S2P Require Import Prelude CountedRuns RegexUtil FlatCounters CallbackValuesMap CallbackRegistry NamedCallbacks ExportType Timeseries CounterNames TimeseriesExporter HistogramExporter ExportedStatMap StatMapCorrect StatMapTheorems ExportedHistogramMap QuantileStat QuantileStatMap ServiceOptions ServiceData FunctionStats.
From Stdlib Require Import ZArith Lia String SpecFloat Ascii.
From stdpp Require Import base gmap list strings.
Import FunctionStats.

Open Scope Z_scope.
Open Scope fb303_scope.

(** ** The sums *)
Inductive metric :=
  | NumCalls | NumReads | NumWrites | NumProcessed | AllExceptions | Exceptions | NumSamples | BytesRead | BytesWritten.
#[export] Instance metric_eq_dec : EqDecision metric.
Proof. solve_decision. Defined.
Definition token (m : metric) : string :=
  match m with
  | NumCalls => "num_calls" | NumReads => "num_reads" | NumWrites => "num_writes" | NumProcessed => "num_processed"
  | AllExceptions => "num_all_exceptions" | Exceptions => "num_exceptions" | NumSamples => "num_samples"
  | BytesRead => "bytes_read" | BytesWritten => "bytes_written"
  end.
Definition value (m : metric) (x : per_thread) : Z :=
  match m with
  | NumCalls => calls_ x | NumReads => ts_n (readData_ x) | NumWrites => ts_n (writeData_ x) | NumProcessed => processed_ x
  | AllExceptions => userExceptions_ x | Exceptions => exceptions_ x | NumSamples => samples_ x
  | BytesRead => ts_total (readData_ x) | BytesWritten => ts_total (writeData_ x)
  end.
(** What one request brings. *)
Definition brings (m : metric) (c : context) : Z :=
  match m with
  | NumCalls => 1 | NumReads => b2z (readEndCalled_ c) | NumWrites => b2z (writeEndCalled_ c) | NumProcessed => b2z (writeBeginCalled_ c)
  | AllExceptions => b2z (userException c) | Exceptions => b2z (exception c) | NumSamples => b2z (measureTime_ c)
  | BytesRead => if readEndCalled_ c then rBytes_ c else 0
  | BytesWritten => if writeEndCalled_ c then wBytes_ c else 0
  end.
(** Below this the per-thread field and the series are exact. *)
Definition limit (m : metric) : Z := match m with BytesRead | BytesWritten => 2 ^ 63 | _ => 2 ^ 32 end.
Definition metrics : list metric :=
  [NumCalls; NumReads; NumWrites; NumProcessed; AllExceptions; Exceptions; NumSamples; BytesRead; BytesWritten].
Definition suffix (m : metric) : string := String dot (token m).
Definition counter_of (prefix fn : string) (m : metric) : string := (prefix +:+ fn) +:+ suffix m.

Lemma token_no_dot m : no_char dot (token m) = true.
Proof. by destruct m. Qed.
Lemma token_inj m m' : token m = token m' -> m = m'.
Proof. by destruct m, m'. Qed.
Lemma str_prefix_inj (p a b : string) : p +:+ a = p +:+ b -> a = b.
Proof. induction p as [|c p IH]; [done|]. rewrite !str_cons_app. intros [= E]. by apply IH. Qed.
Lemma counter_of_inj prefix fn fn' m m' : counter_of prefix fn m = counter_of prefix fn' m' -> fn = fn' /\ m = m'.
Proof.
  intros [E1 E2]%last_dot_inj; [|apply token_no_dot..]. split; [by apply str_prefix_inj in E1|by apply token_inj].
Qed.

(** What is reported of a metric: the value itself, a byte count cut to 64 bits. *)
Definition reported (m : metric) (x : per_thread) : Z :=
  match m with BytesRead | BytesWritten => wraps 64 (value m x) | _ => value m x end.
Lemma sum_reports_eq x : sum_reports x = (fun m => (suffix m, reported m x)) <$> metrics.
Proof. done. Qed.
Lemma reported_exact m x : 0 <= value m x < limit m -> reported m x = value m x.
Proof. destruct m; cbn; try done; intros; apply wraps_small; unfold in_s, smin, smax; lia. Qed.
Lemma limit_le m : limit m <= 2 ^ 63.
Proof. by destruct m. Qed.

Lemma clear_value m x : value m (clear x) = 0.
Proof. by destruct m. Qed.
Lemma fresh_value m q : value m (setQuantileStats q createStatsPerThread) = 0.
Proof. by destruct m. Qed.
Lemma rate_value m r x : value m (setSampleRate r x) = value m x.
Proof. unfold setSampleRate. by destruct m. Qed.
Lemma sampling_value m x : value m (evaluate_sampling x).2 = value m x.
Proof. unfold evaluate_sampling. destruct (SFleb _ _); by destruct m. Qed.

(** ** Adding to a stat map keeps its default *)
Section Defaults.
Context {TS CM Cb : Type} `{FollyTimeseries TS} `{NamedCallbacks CM Cb} (callback : TimeseriesExporter.stat_value -> Cb).
Definition keeps_default {A} (f : SE (ExportedStatMap.statmap TS * CM) A) : Prop := forall s,
  ExportedStatMap.defaultStat_ (f s).2.1 = ExportedStatMap.defaultStat_ s.1.
Lemma default_bind {A B} (f : SE _ A) (k : A -> SE _ B) : keeps_default f -> (forall a, keeps_default (k a)) -> keeps_default (se_bind f k).
Proof. intros Hf Hk s. unfold se_bind. specialize (Hf s). destruct (f s) as [[a|e] s1]; [|done]. by rewrite Hk. Qed.
Lemma default_ret {A} (a : A) : keeps_default (se_ret a).
Proof. done. Qed.
Lemma default_deref p : keeps_default (ExportedStatMap.deref p).
Proof. intros s. unfold ExportedStatMap.deref. by destruct (ExportedStatMap.stats s.1 !! p). Qed.
Lemma default_counters {A} (f : SE CM A) : keeps_default (ExportedStatMap.on_counters f).
Proof. intros s. unfold ExportedStatMap.on_counters. by destruct (f s.2). Qed.
Lemma default_locked f p : keeps_default (ExportedStatMap.locked f p).
Proof. apply default_bind; [apply default_deref|done]. Qed.
Lemma default_export p n upd types : keeps_default (ExportedStatMap.export_types callback p n upd types).
Proof.
  induction types as [|ty types IH]; [done|]. apply default_bind; [apply default_deref|]. intros t.
  apply default_bind; [apply default_counters|done].
Qed.
Lemma default_noexport n copyMe : keeps_default (ExportedStatMap.getStatPtrNoExport id n copyMe).
Proof.
  apply default_bind; [done|]. intros [p|]; [done|]. apply default_bind; [done|intros _]. apply default_bind; [done|].
  intros [p|]; [done|]. apply default_bind.
  - unfold ExportedStatMap.blueprint. destruct copyMe; [done|]. apply default_bind; [done|]. intros s. by destruct (ExportedStatMap.defaultStat_ s.1).
  - intros t. apply default_bind; [done|]. intros p. by apply default_bind.
Qed.
Lemma default_getStatPtr n types : keeps_default (ExportedStatMap.getStatPtr callback id n types).
Proof.
  apply default_bind; [apply default_noexport|]. intros [p []]; [|done]. apply default_bind; [apply default_export|done].
Qed.
Lemma default_add n now v k : keeps_default (ExportedStatMap.addValue callback id n now v k).
Proof.
  apply default_bind; [|intros p; apply default_locked]. apply default_bind; [done|]. intros s. apply default_getStatPtr.
Qed.

(** What adding to one series does, with no other thread in between. *)
Lemma add_value_effect n now v k (s s' : ExportedStatMap.statmap TS * CM) :
  StatMapCorrect.inv callback false s -> name_ok n -> ExportedStatMap.addValue callback id n now v k s = (Ret tt, s') ->
  StatMapCorrect.inv callback false s' /\ touch n (ExportedStatMap.defaultStat_ s.1) (ts_addValue now v k) (view s) (view s').
Proof.
  intros Hi Hn Ha. pose proof (run_step callback false id (fun s Hs => Hs) (OAddValue n now v k) s Hi Hn) as Hr. cbn in Hr.
  rewrite Ha in Hr. destruct Hr as (Hi' & s0 & Hs0 & Ht). split; [done|]. by destruct Hs0 as [->| ->].
Qed.
Lemma add_aggregated_effect n now v k (s s' : ExportedStatMap.statmap TS * CM) :
  StatMapCorrect.inv callback false s -> name_ok n -> ExportedStatMap.addValueAggregated callback id n now v k s = (Ret tt, s') ->
  StatMapCorrect.inv callback false s'.
Proof.
  intros Hi Hn Ha. pose proof (run_step callback false id (fun s Hs => Hs) (OAddValueAggregated n now v k) s Hi Hn) as Hr. cbn in Hr.
  rewrite Ha in Hr. by destruct Hr as (Hi' & _).
Qed.
(** Somebody else changes the counters. *)
Lemma inv_other_counters (sm : ExportedStatMap.statmap TS) (c c' : CM) :
  StatMapCorrect.inv callback false (sm, c) -> nc_wf c' -> StatMapCorrect.inv callback false (sm, c').
Proof. intros Hi Hc. split; cbn; try apply Hi; done. Qed.
End Defaults.

Section Correct.
Context {M : Type} `{RegexMatchCache M} {TS Hg HV : Type} `{FollyHistogram TS Hg HV}.
Context {E : Type} `{QuantileEstimator E} `{NumberFormat}.
Context {U US Getter Setter W : Type} (hash : string -> Z).
Abbreviation service := (ServiceData.state M TS Hg E U US Getter Setter W).
Abbreviation dynamic_counters := (CallbackValuesMap.cvm (counter_callback U) M).
#[local] Instance counters_registry : NamedCallbacks dynamic_counters (counter_callback U) := callback_values_map hash.

(** ** A request is added to the stats of its thread *)
Definition keeps_counters {A} (f : SE service A) : Prop := forall d, ServiceData.dynamicCounters_ (f d).2 = ServiceData.dynamicCounters_ d.
Lemma handler_keeps_ret {A} (a : A) : keeps_counters (se_ret a).
Proof. done. Qed.
Lemma keeps_throw {A} e : keeps_counters (A := A) (se_throw e).
Proof. done. Qed.
Lemma handler_keeps_bind {A B} (f : SE service A) (k : A -> SE service B) :
  keeps_counters f -> (forall a, keeps_counters (k a)) -> keeps_counters (se_bind f k).
Proof. intros Hf Hk d. unfold se_bind. specialize (Hf d). destruct (f d) as [[a|e] d']; [|done]. by rewrite Hk. Qed.
Lemma keeps_on_quantiles {A} f : keeps_counters (A := A) (ServiceData.on_quantiles f).
Proof. intros d. unfold ServiceData.on_quantiles, ServiceData.on_part. by destruct (f _). Qed.
Lemma handler_keeps_on_clock {A} f : keeps_counters (A := A) (ServiceData.on_clock f).
Proof. intros d. unfold ServiceData.on_clock, ServiceData.on_part. by destruct (f _). Qed.

Lemma add_if_eq b v now x (d d' : service) y : add_if b v now x d = (Ret y, d') ->
  ts_n y = (if b then wrapu 32 (ts_n x + 1) else ts_n x) /\ ts_total y = (if b then wrapu 64 (ts_total x + v) else ts_total x).
Proof.
  destruct b; cbn; [|by intros [= <- _]]. unfold add, se_bind. destruct (on_quantile _ _ _ d) as [[u|e] d1]; [|done]. by intros [= <- _].
Qed.
Lemma keeps_add_if b v now x : keeps_counters (add_if b v now x).
Proof.
  destruct b; [|done]. apply handler_keeps_bind; [|done]. unfold on_quantile. destruct (quantileStat x); [apply keeps_on_quantiles|done].
Qed.
Lemma keeps_check b : keeps_counters (check b).
Proof. by destruct b. Qed.
Lemma keeps_log c now x : keeps_counters (logContextData c now x).
Proof.
  repeat (apply handler_keeps_bind; [first [apply keeps_check|apply keeps_add_if]|intros ?]). apply handler_keeps_bind; [|done].
  unfold logContextDataProcessed. destruct (negb _); [done|]. apply handler_keeps_bind; [apply keeps_check|intros _].
  apply handler_keeps_bind; [apply keeps_add_if|done].
Qed.
Lemma log_processed_eq c now x (d d' : service) p : logContextDataProcessed c now x d = (Ret p, d') ->
  p.1 = if writeBeginCalled_ c then wrapu 32 (processed_ x + 1) else processed_ x.
Proof.
  unfold logContextDataProcessed. destruct (writeBeginCalled_ c); cbn; [|by intros [= <- _]].
  unfold se_bind. destruct (check _ d) as [[u|e] d1]; [|done]. destruct (add_if _ _ _ _ d1) as [[y|e] d2]; [|done]. by intros [= <- _].
Qed.

(** Whether a field is written, and its width. *)
Definition written (m : metric) (c : context) : bool :=
  match m with
  | NumReads | BytesRead => readEndCalled_ c
  | NumWrites | BytesWritten => writeEndCalled_ c
  | NumProcessed => writeBeginCalled_ c
  | _ => true
  end.
Definition bits (m : metric) : Z := match m with BytesRead | BytesWritten => 64 | _ => 32 end.
Lemma log_eq c now x (d d' : service) y m : logContextData c now x d = (Ret y, d') ->
  value m y = if written m c then wrapu (bits m) (value m x + brings m c) else value m x.
Proof.
  unfold logContextData. intros (_ & d1 & _ & E1)%se_bind_inv. apply se_bind_inv in E1 as (rd & d2 & Hrd & E2).
  apply se_bind_inv in E2 as (rt & d3 & _ & E3). apply se_bind_inv in E3 as (_ & d4 & _ & E4).
  apply se_bind_inv in E4 as (wd & d5 & Hwd & E5). apply se_bind_inv in E5 as (wt & d6 & _ & E6).
  apply se_bind_inv in E6 as (p & d7 & Hp & E7). injection E7 as <- _.
  apply add_if_eq in Hrd as [Hr1 Hr2], Hwd as [Hw1 Hw2]. apply log_processed_eq in Hp.
  destruct m; cbn; rewrite ?Hr1, ?Hr2, ?Hw1, ?Hw2, ?Hp; try done; by destruct (readEndCalled_ c), (writeEndCalled_ c), (writeBeginCalled_ c).
Qed.
Lemma not_written m c : written m c = false -> brings m c = 0.
Proof. by destruct m; cbn; intros E1; rewrite ?E1. Qed.
Lemma log_value c now x (d d' : service) y m : logContextData c now x d = (Ret y, d') ->
  0 <= value m x + brings m c < limit m -> value m y = value m x + brings m c.
Proof.
  intros Hl Hr. rewrite (log_eq c now x d d' y m Hl). destruct (written m c) eqn:Hw; [|rewrite (not_written m c Hw); lia].
  apply wrapu_small. unfold in_u. destruct m; cbn in *; lia.
Qed.
Lemma log_nonneg c now x (d d' : service) y m : logContextData c now x d = (Ret y, d') -> 0 <= value m x -> 0 <= value m y.
Proof.
  intros Hl Hx. rewrite (log_eq c now x d d' y m Hl). destruct (written m c); [|done]. apply wrapu_range. by destruct m.
Qed.

(** ** The invariant, for one number of one function *)
Abbreviation state := (handler (TS := TS) * service)%type.
Abbreviation statmap_inv := (StatMapCorrect.inv (StatCounter (U := U)) false).
Context (all_time : TS -> Z).
(** The all-time sum of a series is exact while it fits. *)
Hypothesis at_add : forall now v k t, in_s 64 (all_time t + v * k) -> all_time (ts_addValue now v k t) = all_time t + v * k.
Context (prefix fn : string) (m : metric).

Definition suffixes : list string :=
  (sum_reports createStatsPerThread).*1 ++ (avg_reports createStatsPerThread).*1 ++ [".request_stats_rate"; ".request_stats_log_rate"].
Definition fn_ok (f : string) : Prop := forall sfx, sfx ∈ suffixes -> name_ok ((prefix +:+ f) +:+ sfx).
Definition sums (s : state) : ExportedStatMap.statmap TS * dynamic_counters := (statMapSum_ s.1, ServiceData.dynamicCounters_ s.2).
Definition avgs (s : state) : ExportedStatMap.statmap TS * dynamic_counters := (statMapAvg_ s.1, ServiceData.dynamicCounters_ s.2).
Definition series_total (k : string) (v : gmap string TS) : Z := default 0 (all_time <$> v !! k).
Definition published (s : state) : Z := series_total (counter_of prefix fn m) (view (sums s)).
Definition in_thread (a : aggregator) : Z := default 0 (value m <$> map a !! fn).
Definition pending (s : state) : Z := map_sum in_thread (tlFunctionMap_ s.1).
Definition total (s : state) : Z := published s + pending s.

Record inv (s : state) : Prop := {
  i_sum : statmap_inv (sums s);
  i_avg : statmap_inv (avgs s);
  i_default : forall t, ExportedStatMap.defaultStat_ (statMapSum_ s.1) = Some t -> all_time t = 0;
  i_prefix : counterNamePrefix_ s.1 = prefix;
  i_maps : forall t a f x, tlFunctionMap_ s.1 !! t = Some a -> map a !! f = Some x -> fn_ok f /\ 0 <= value m x;
  i_cache : forall t a f p, tlFunctionMap_ s.1 !! t = Some a -> cached a = Some (f, p) -> p = (t, f);
  i_contexts : forall c x, contexts s.1 !! c = Some x -> 0 <= rBytes_ x /\ 0 <= wBytes_ x;
  i_published : 0 <= published s
}.

Lemma in_thread_nonneg s t a : inv s -> tlFunctionMap_ s.1 !! t = Some a -> 0 <= in_thread a.
Proof.
  intros Hi Ha. unfold in_thread. destruct (map a !! fn) as [x|] eqn:Hx; [|done]. by apply (i_maps s Hi t a fn x).
Qed.
Lemma pending_nonneg s : inv s -> 0 <= pending s.
Proof. intros Hi. apply map_sum_nonneg. intros t a Ha. by apply (in_thread_nonneg s t a). Qed.
Lemma value_le_pending s t x : inv s -> lookup (t, fn) s = Some x -> value m x <= pending s.
Proof.
  intros Hi. unfold lookup. cbn. destruct (tlFunctionMap_ s.1 !! t) as [a|] eqn:Ha; [|done]. cbn. intros Hx.
  transitivity (in_thread a); [unfold in_thread; by rewrite Hx|]. apply (map_sum_at_least in_thread (tlFunctionMap_ s.1) t a Ha).
  intros t' a' Ha'. by apply (in_thread_nonneg s t' a').
Qed.

(** *** What leaves the sums alone *)
Definition same (s s' : state) : Prop := inv s' /\ total s' = total s.
Definition conserves {A} (f : SE state A) : Prop := forall s a s', inv s -> total s < limit m -> f s = (Ret a, s') -> same s s'.
Lemma handler_same_refl s : inv s -> same s s.
Proof. by split. Qed.
Lemma handler_same_trans s1 s2 s3 : same s1 s2 -> same s2 s3 -> same s1 s3.
Proof. intros [_ E1] [Hi E2]. split; [done|congruence]. Qed.
Lemma handler_conserves_ret {A} (a : A) : conserves (se_ret a).
Proof. intros s b s' Hi _ [= _ <-]. by apply handler_same_refl. Qed.
Lemma handler_conserves_throw {A} e : conserves (A := A) (se_throw e).
Proof. by intros s b s' _ _ ?. Qed.
Lemma handler_conserves_bind {A B} (f : SE state A) (k : A -> SE state B) :
  conserves f -> (forall a, conserves (k a)) -> conserves (se_bind f k).
Proof.
  intros Hf Hk s b s' Hi Ht (a & s1 & E1 & E2)%se_bind_inv. pose proof (Hf s a s1 Hi Ht E1) as Hs.
  apply (handler_same_trans s s1); [done|]. destruct Hs as [Hi1 Et]. apply (Hk a s1 b s' Hi1); [lia|done].
Qed.

Record untouched (s s' : state) : Prop := {
  u_map : tlFunctionMap_ s'.1 = tlFunctionMap_ s.1;
  u_contexts : contexts s'.1 = contexts s.1;
  u_prefix : counterNamePrefix_ s'.1 = counterNamePrefix_ s.1;
  u_sum : statMapSum_ s'.1 = statMapSum_ s.1;
  u_avg : statMapAvg_ s'.1 = statMapAvg_ s.1;
  u_counters : ServiceData.dynamicCounters_ s'.2 = ServiceData.dynamicCounters_ s.2
}.
Lemma untouched_same s s' : untouched s s' -> inv s -> same s s'.
Proof.
  intros [E1 E2 E3 E4 E5 E6] [I1 I2 I3 I4 I5 I6 I7 I8].
  assert (Es : sums s' = sums s) by (unfold sums; by rewrite E4, E6). assert (Ea : avgs s' = avgs s) by (unfold avgs; by rewrite E5, E6).
  split; [split|].
  - by rewrite Es.
  - by rewrite Ea.
  - by rewrite E4.
  - by rewrite E3.
  - by rewrite E1.
  - by rewrite E1.
  - by rewrite E2.
  - unfold published. by rewrite Es.
  - unfold total, published, pending. by rewrite Es, E1.
Qed.
Definition aside {A} (f : SE state A) : Prop := forall s a s', f s = (Ret a, s') -> untouched s s'.
Lemma handler_aside_conserves {A} (f : SE state A) : aside f -> conserves f.
Proof. intros Hf s a s' Hi _ Ef. by apply untouched_same; [apply (Hf s a)|]. Qed.
Lemma aside_get : aside se_get.
Proof. by intros s a s' [= _ <-]. Qed.
Lemma aside_get_stats p : aside (FunctionStats.get p).
Proof. intros s x s'. unfold get. destruct (lookup p s); [|done]. by intros [= _ <-]. Qed.
Lemma aside_get_context c : aside (get_context c).
Proof. intros s x s'. unfold get_context. destruct (contexts s.1 !! c); [|done]. by intros [= _ <-]. Qed.
Lemma aside_get_aggregator t : aside (get_aggregator t).
Proof. intros s x s'. unfold get_aggregator. destruct (tlFunctionMap_ s.1 !! t); [|done]. by intros [= _ <-]. Qed.
Lemma aside_thread_id t : aside (currentThreadStatsId t).
Proof. intros s x s'. unfold currentThreadStatsId. destruct (ids s.1 !! t); by intros [= _ <-]. Qed.
Lemma handler_aside_service {A} (f : SE service A) : keeps_counters f -> aside (on_service f).
Proof.
  intros Hf s a s'. unfold on_service. specialize (Hf s.2). destruct (f s.2) as [r d]. intros [= _ <-]. by split.
Qed.
Lemma aside_nThreads n : aside (modify (with_nThreads n)).
Proof. by intros s a s' [= _ <-]. Qed.

(** *** Writing one stats object *)
Lemma alter_known {A} (f : A -> A) t (mp : gmap nat A) a : mp !! t = Some a -> alter f t mp = <[t := f a]> mp.
Proof.
  intros Ha. apply map_eq. intros t'. destruct (decide (t' = t)) as [->|Hne].
  - by rewrite lookup_alter_eq, Ha, lookup_insert_eq.
  - by rewrite lookup_alter_ne, lookup_insert_ne.
Qed.
Lemma lookup_inv t f (s : state) x : lookup (t, f) s = Some x -> exists a, tlFunctionMap_ s.1 !! t = Some a /\ map a !! f = Some x.
Proof. unfold lookup. cbn. intros (a & Ha & Hx)%bind_Some. by exists a. Qed.
(** A new map for one thread. *)
Lemma inv_put_map t a' (s : state) d :
  inv s -> (forall f x, map a' !! f = Some x -> fn_ok f /\ 0 <= value m x) -> (forall f p, cached a' = Some (f, p) -> p = (t, f)) ->
  in_thread a' = (match tlFunctionMap_ s.1 !! t with Some a => in_thread a | None => 0 end) + d ->
  let s' := (with_map (<[t := a']> (tlFunctionMap_ s.1)) s.1, s.2) in
  inv s' /\ published s' = published s /\ pending s' = pending s + d.
Proof.
  intros Hi Hm Hc Hd s'. split; [|split; [done|]].
  - split; try apply Hi.
    + intros t' b f x. cbn. rewrite lookup_insert_Some. intros [[<- <-]|[_ Hb]]; [by apply Hm|by apply (i_maps s Hi t' b)].
    + intros t' b f p. cbn. rewrite lookup_insert_Some. intros [[<- <-]|[_ Hb]]; [by apply Hc|by apply (i_cache s Hi t' b)].
  - unfold pending, s'. cbn. destruct (tlFunctionMap_ s.1 !! t) as [a|] eqn:Ha.
    + rewrite (map_sum_update in_thread _ t a a' Ha). lia.
    + rewrite map_sum_insert by done. lia.
Qed.
Lemma put_effect t f x x' (s s' : state) :
  inv s -> lookup (t, f) s = Some x -> 0 <= value m x' -> put (t, f) x' s = (Ret tt, s') ->
  inv s' /\ published s' = published s /\ pending s' = pending s + (if decide (f = fn) then value m x' - value m x else 0).
Proof.
  intros Hi (a & Ha & Hx)%lookup_inv Hx' [= <-]. cbn. rewrite (alter_known _ t _ a Ha).
  apply (inv_put_map t (Aggregator (<[f := x']> (map a)) (cached a)) s); [done| | |].
  - intros g y. cbn. rewrite lookup_insert_Some. intros [[<- <-]|[_ Hy]]; [|by apply (i_maps s Hi t a)].
    split; [|done]. by apply (i_maps s Hi t a f x).
  - intros g p Hp. by apply (i_cache s Hi t a).
  - rewrite Ha. unfold in_thread. cbn. case_decide as Hf; [subst f; rewrite lookup_insert_eq, Hx; cbn; lia|].
    rewrite lookup_insert_ne by done. lia.
Qed.
Lemma put_same t f x x' (s s' : state) :
  inv s -> lookup (t, f) s = Some x -> value m x' = value m x -> put (t, f) x' s = (Ret tt, s') -> same s s'.
Proof.
  intros Hi Hx Hv Hp. destruct (put_effect t f x x' s s' Hi Hx) as (Hi' & E1 & E2); [|done|].
  - rewrite Hv. apply lookup_inv in Hx as (a & Ha & Hx). by apply (i_maps s Hi t a f x).
  - split; [done|]. unfold total. rewrite E1, E2. case_decide; lia.
Qed.

(** *** Publishing *)
Lemma touch_total k k' bp f (v v' : gmap string TS) :
  touch k bp f v v' -> series_total k' v' = if decide (k' = k) then default 0 (all_time <$> v' !! k) else series_total k' v.
Proof.
  intros (t & _ & ->). unfold series_total. case_decide as Hk; [by subst|]. by rewrite lookup_insert_ne.
Qed.
Lemma on_sum_inv {A} (f : SE (ExportedStatMap.statmap TS * dynamic_counters) A) (s s' : state) a :
  on_sum f s = (Ret a, s') -> exists r, f (sums s) = (Ret a, r) /\ s' = (with_sum r.1 s.1, ServiceData.with_dynamic r.2 s.2).
Proof. unfold on_sum, sums. destruct (f _) as [r [mp c]]. intros [= -> <-]. by exists (mp, c). Qed.
Lemma on_avg_inv {A} (f : SE (ExportedStatMap.statmap TS * dynamic_counters) A) (s s' : state) a :
  on_avg f s = (Ret a, s') -> exists r, f (avgs s) = (Ret a, r) /\ s' = (with_avg r.1 s.1, ServiceData.with_dynamic r.2 s.2).
Proof. unfold on_avg, avgs. destruct (f _) as [r [mp c]]. intros [= -> <-]. by exists (mp, c). Qed.
Lemma sums_after r (s : state) : sums (with_sum r.1 s.1, ServiceData.with_dynamic r.2 s.2) = r.
Proof. by destruct r. Qed.

(** A state that differs in the published sums only. *)
Definition published_more (s s' : state) (k : string) (v : Z) : Prop :=
  inv s' /\ tlFunctionMap_ s'.1 = tlFunctionMap_ s.1 /\ contexts s'.1 = contexts s.1 /\
  published s' = published s + (if decide (k = counter_of prefix fn m) then v else 0).
Lemma add_sum_effect k now v (s s' : state) :
  inv s -> name_ok k -> (k = counter_of prefix fn m -> 0 <= v /\ published s + v < 2 ^ 63) ->
  on_sum (ExportedStatMap.addValue StatCounter id k now v 1) s = (Ret tt, s') -> published_more s s' k v.
Proof.
  intros Hi Hk Hlim (r & Ha & ->)%on_sum_inv. pose proof (add_value_effect StatCounter k now v 1 (sums s) r (i_sum s Hi) Hk Ha) as [Hr Ht].
  assert (Hpub : published (with_sum r.1 s.1, ServiceData.with_dynamic r.2 s.2) = published s + (if decide (k = counter_of prefix fn m) then v else 0)).
  { unfold published at 1. rewrite sums_after, (touch_total k _ _ _ _ _ Ht). destruct (decide (k = _)) as [Ek|Ek].
    - rewrite decide_True by done. destruct Ht as (t & Hcase & ->). rewrite lookup_insert_eq. cbn. pose proof (i_published s Hi) as Hp.
      assert (Hz : all_time t = published s).
      { unfold published, series_total. rewrite <- Ek. destruct Hcase as [->|[-> Hdef]]; [done|]. by apply (i_default s Hi). }
      rewrite at_add; [lia|]. unfold in_s, smin, smax. specialize (Hlim Ek). lia.
    - rewrite decide_False by done. unfold published. lia. }
  split; [|done]. split; try apply Hi.
  - by rewrite sums_after.
  - apply (inv_other_counters StatCounter _ (ServiceData.dynamicCounters_ s.2)); [apply (i_avg s Hi)|apply (inv_counters _ _ _ Hr)].
  - intros t. cbn. pose proof (default_add StatCounter k now v 1 (sums s)) as Hd. rewrite Ha in Hd. cbn in Hd. rewrite Hd. apply (i_default s Hi).
  - rewrite Hpub. pose proof (i_published s Hi). case_decide as Ek; [destruct (Hlim Ek)|]; lia.
Qed.

(** The sums of one function, for any metrics: this one is published if it is
    among them and the function is this one. *)
Lemma add_sums_effect f now x ms (s s' : state) :
  inv s -> fn_ok f -> NoDup ms -> 0 <= reported m x -> (f = fn -> m ∈ ms -> published s + reported m x < 2 ^ 63) ->
  add_sums hash id (prefix +:+ f) now ((fun m' => (suffix m', reported m' x)) <$> ms) s = (Ret tt, s') ->
  inv s' /\ tlFunctionMap_ s'.1 = tlFunctionMap_ s.1 /\ contexts s'.1 = contexts s.1 /\
  published s' = published s + (if decide (f = fn /\ m ∈ ms) then reported m x else 0).
Proof.
  intros Hi Hok Hnd Hx. revert s Hi. induction Hnd as [|m' ms Hm' Hnd IH]; intros s Hi Hlim.
  { intros [= <-]. rewrite decide_False by set_solver. split; [done|]. split; [done|]. split; [done|lia]. }
  cbn [fmap list_fmap add_sums]. intros ([] & s1 & E1 & E2)%se_bind_inv.
  assert (Hk : (prefix +:+ f) +:+ suffix m' = counter_of prefix fn m <-> f = fn /\ m' = m).
  { split; [apply counter_of_inj|]. by intros [-> ->]. }
  destruct (add_sum_effect ((prefix +:+ f) +:+ suffix m') now (reported m' x) s s1 Hi) as (Hi1 & M1 & C1 & P1); [| |done|].
  { apply Hok. unfold suffixes. rewrite sum_reports_eq. apply elem_of_app. left. rewrite <- list_fmap_compose.
    apply list_elem_of_fmap. exists m'. split; [done|]. destruct m'; set_solver. }
  { intros [-> ->]%Hk. split; [done|]. apply Hlim; [done|left]. }
  assert (E1' : published s1 = published s + (if decide (f = fn /\ m' = m) then reported m x else 0)).
  { rewrite P1. repeat case_decide; try tauto; naive_solver lia. }
  destruct (IH s1 Hi1) as (Hi' & M2 & C2 & P2); [|done|].
  { intros -> Hm. rewrite E1', decide_False by (intros [_ ->]; done). rewrite Z.add_0_r. apply Hlim; [done|by right]. }
  split; [done|]. split; [congruence|]. split; [congruence|]. rewrite P2, E1'.
  repeat case_decide; try lia; set_solver.
Qed.

(** Another function's sums. *)
Lemma add_sums_effect_other f now x (s s' : state) :
  inv s -> fn_ok f -> f <> fn -> add_sums hash id (prefix +:+ f) now ((fun m' => (suffix m', reported m' x)) <$> metrics) s = (Ret tt, s') ->
  inv s' /\ tlFunctionMap_ s'.1 = tlFunctionMap_ s.1 /\ published s' = published s.
Proof.
  intros Hi Hok Hne. generalize metrics. intros ms. revert s Hi. induction ms as [|m' ms IH]; intros s Hi; [by intros [= <-]|].
  cbn [fmap list_fmap add_sums]. intros ([] & s1 & E1 & E2)%se_bind_inv.
  assert (Hk : (prefix +:+ f) +:+ suffix m' <> counter_of prefix fn m) by (by intros [-> _]%counter_of_inj).
  destruct (add_sum_effect ((prefix +:+ f) +:+ suffix m') now (reported m' x) s s1 Hi) as (Hi1 & M1 & C1 & P1); [|done|done|].
  { apply Hok. unfold suffixes. rewrite sum_reports_eq. apply elem_of_app. left. rewrite <- list_fmap_compose.
    apply list_elem_of_fmap. exists m'. split; [done|]. destruct m'; set_solver. }
  destruct (IH s1 Hi1 E2) as (Hi' & M2 & P2). split; [done|]. split; [congruence|]. rewrite P2, P1, decide_False by done. lia.
Qed.

Definition unpublished (s s' : state) : Prop :=
  inv s' /\ tlFunctionMap_ s'.1 = tlFunctionMap_ s.1 /\ contexts s'.1 = contexts s.1 /\ published s' = published s.
Lemma unpublished_same s s' : unpublished s s' -> same s s'.
Proof. intros (Hi & E1 & _ & E2). split; [done|]. unfold total, pending. by rewrite E1, E2. Qed.
Lemma unpublished_trans s1 s2 s3 : unpublished s1 s2 -> unpublished s2 s3 -> unpublished s1 s3.
Proof. intros (_ & ? & ? & ?) (? & ? & ? & ?). split; [done|]. split; [congruence|]. split; congruence. Qed.
Lemma on_avg_effect f (s s' : state) :
  inv s -> (forall r, f (avgs s) = (Ret tt, r) -> statmap_inv r) -> on_avg f s = (Ret tt, s') -> unpublished s s'.
Proof.
  intros Hi Hf (r & Ha & ->)%on_avg_inv. specialize (Hf r Ha). split; [|done]. split; try apply Hi.
  - apply (inv_other_counters StatCounter _ (ServiceData.dynamicCounters_ s.2)); [apply (i_sum s Hi)|apply (inv_counters _ _ _ Hf)].
  - by destruct r.
Qed.
Lemma add_avgs_effect f now l (s s' : state) :
  inv s -> (forall sfx, sfx ∈ l.*1 -> name_ok ((prefix +:+ f) +:+ sfx)) -> add_avgs hash id (prefix +:+ f) now l s = (Ret tt, s') -> unpublished s s'.
Proof.
  revert s. induction l as [|[sfx [v n]] l IH]; intros s Hi Hok; [by intros [= <-]|]. cbn [add_avgs].
  intros ([] & s1 & E1 & E2)%se_bind_inv. assert (Hs1 : unpublished s s1).
  { revert E1. apply on_avg_effect; [done|]. intros r. apply (add_aggregated_effect StatCounter); [apply (i_avg s Hi)|].
    apply Hok. set_solver. }
  apply (unpublished_trans s s1); [done|]. apply IH; [apply Hs1| |done]. intros sfx' Hs. apply Hok. set_solver.
Qed.
Lemma add_rate_effect k now r (s s' : state) : inv s -> name_ok k -> add_rate hash id k now r s = (Ret tt, s') -> unpublished s s'.
Proof.
  intros Hi Hk. unfold add_rate. destruct (SFltb _ _); [|by intros [= <-]]. destruct (double_to_int64 _) as [v|]; [|done].
  apply on_avg_effect; [done|]. intros q Hq. by apply (add_value_effect StatCounter k now v 1 (avgs s) q (i_avg s Hi) Hk).
Qed.

Lemma NoDup_metrics : NoDup metrics.
Proof. unfold metrics. repeat constructor; set_solver. Qed.
Lemma in_metrics m' : m' ∈ metrics.
Proof. destruct m'; set_solver. Qed.

(** *** Consolidation *)
Lemma limit_range x (s : state) t f : inv s -> total s < limit m -> lookup (t, f) s = Some x -> f = fn ->
  0 <= value m x < limit m /\ published s + value m x < 2 ^ 63.
Proof.
  intros Hi Ht Hx ->. pose proof (value_le_pending s t x Hi Hx) as Hv. pose proof (i_published s Hi) as Hp. pose proof (limit_le m).
  unfold total in Ht. apply lookup_inv in Hx as (a & Ha & Hx). pose proof (proj2 (i_maps s Hi t a fn x Ha Hx)). lia.
Qed.
Lemma addAllValues_effect t f now x (s s' : state) :
  inv s -> total s < limit m -> lookup (t, f) s = Some x -> addAllValues hash id (prefix +:+ f) now x s = (Ret tt, s') ->
  inv s' /\ tlFunctionMap_ s'.1 = tlFunctionMap_ s.1 /\ published s' = published s + (if decide (f = fn) then value m x else 0).
Proof.
  intros Hi Ht Hx Ha. assert (Hok : fn_ok f) by (apply lookup_inv in Hx as (a & Hm & Hf); by apply (i_maps s Hi t a f x)).
  unfold addAllValues in Ha. rewrite sum_reports_eq in Ha. apply se_bind_inv in Ha as ([] & s1 & E1 & Ha).
  assert (H1s : inv s1 /\ tlFunctionMap_ s1.1 = tlFunctionMap_ s.1 /\ published s1 = published s + (if decide (f = fn) then value m x else 0)).
  { destruct (decide (f = fn)) as [Ef|Ef].
    - destruct (limit_range x s t f Hi Ht Hx Ef) as [Hv Hl]. pose proof (reported_exact m x Hv) as Hr.
      destruct (add_sums_effect f now x metrics s s1 Hi Hok NoDup_metrics) as (I1 & M1 & _ & P1); [lia|intros _ _; lia|done|].
      rewrite decide_True in P1 by (split; [done|apply in_metrics]). rewrite Hr in P1. done.
    - destruct (add_sums_effect_other f now x s s1) as (I1 & M1 & P1); [done..|]. split; [done|]. split; [done|lia]. }
  destruct H1s as (I1 & M1 & P1). apply se_bind_inv in Ha as ([] & s2 & E2 & Ha). apply se_bind_inv in Ha as ([] & s3 & E3 & Ha).
  apply add_rate_effect in E2; [|done|apply Hok, elem_of_app; right; apply elem_of_app; right; left].
  apply add_rate_effect in E3; [|apply E2|apply Hok, elem_of_app; right; apply elem_of_app; right; right; left].
  apply add_avgs_effect in Ha; [|apply E3|intros sfx Hs; apply Hok, elem_of_app; right; apply elem_of_app; by left].
  destruct (unpublished_trans _ _ _ E2 (unpublished_trans _ _ _ E3 Ha)) as (I4 & M4 & _ & P4). split; [done|]. split; congruence.
Qed.
Lemma conserves_consolidateStats now p : conserves (consolidateStats hash id now p).
Proof.
  destruct p as [t f]. intros s n s' Hi Ht (x & s0 & Eg & Ec)%se_bind_inv. unfold FunctionStats.get in Eg.
  destruct (lookup (t, f) s) as [x'|] eqn:Hx; [|done]. injection Eg as -> <-.
  apply se_bind_inv in Ec as (sx & s0' & Es & Ec). injection Es as <- <-. apply se_bind_inv in Ec as ([] & s1 & Ea & Ec).
  cbn [snd] in Ea. rewrite (i_prefix _ Hi) in Ea.
  destruct (addAllValues_effect t f _ x s s1 Hi Ht Hx Ea) as (Hi1 & M1 & P1).
  apply se_bind_inv in Ec as ([] & s2 & Ep & [= _ <-]).
  assert (Hx1 : lookup (t, f) s1 = Some x) by (unfold lookup in *; by rewrite M1).
  destruct (put_effect t f x (clear (setSampleRate (new_rate s.1 x) x)) s1 s2 Hi1 Hx1) as (Hi2 & P2 & D2); [|exact Ep|]; [by rewrite clear_value|].
  split; [done|]. unfold total. rewrite P2, D2, P1, clear_value. unfold pending at 1. rewrite M1. fold (pending s). case_decide; lia.
Qed.

Create HintDb stats.
#[local] Hint Resolve handler_conserves_ret handler_conserves_throw handler_conserves_bind handler_aside_conserves aside_get aside_get_stats aside_get_context
  aside_get_aggregator aside_thread_id handler_aside_service aside_nThreads handler_keeps_on_clock keeps_on_quantiles conserves_consolidateStats : stats.

Lemma conserves_add_int a b : conserves (add_int (TS := TS) (M := M) (Hg := Hg) a b).
Proof. unfold add_int. destruct (_ && _); auto with stats. Qed.
#[local] Hint Resolve conserves_add_int : stats.
Lemma conserves_consolidate_each now t fns calls : conserves (consolidate_each hash id now t fns calls).
Proof. revert calls. induction fns as [|f fns IH]; intros calls; cbn; auto with stats. Qed.
Lemma conserves_consolidateThread now t : conserves (consolidateThread hash id now t).
Proof. apply handler_conserves_bind; [auto with stats|]. intros s. apply conserves_consolidate_each. Qed.
Lemma conserves_legacy_now time_source : conserves (legacy_now (TS := TS) time_source).
Proof. apply handler_aside_conserves, handler_aside_service, handler_keeps_on_clock. Qed.
#[local] Hint Resolve conserves_consolidateThread conserves_legacy_now : stats.
Lemma conserves_consolidate_threads now ts n : conserves (consolidate_threads hash id now ts n).
Proof. revert n. induction ts as [|t ts IH]; intros n; cbn; auto with stats. Qed.
#[local] Hint Resolve conserves_consolidate_threads : stats.
Lemma conserves_consolidate time_source : conserves (consolidate hash id time_source).
Proof.
  apply handler_conserves_bind; [auto with stats|]. intros now. apply handler_conserves_bind; [auto with stats|]. intros s.
  apply handler_conserves_bind; [auto with stats|]. intros n. destruct (0 <? n); auto with stats.
Qed.

(** *** The stats of a function *)
Lemma conserves_put_aggregator t a' (s s' : state) :
  inv s -> (forall f x, map a' !! f = Some x -> fn_ok f /\ 0 <= value m x) -> (forall f p, cached a' = Some (f, p) -> p = (t, f)) ->
  in_thread a' = (match tlFunctionMap_ s.1 !! t with Some a => in_thread a | None => 0 end) ->
  put_aggregator t a' s = (Ret tt, s') -> same s s'.
Proof.
  intros Hi Hm Hc Hd [= <-]. destruct (inv_put_map t a' s 0 Hi Hm Hc) as (Hi' & E1 & E2); [lia|].
  split; [done|]. unfold total. rewrite E1, E2. lia.
Qed.
Lemma keeps_getQuantileStat gap n types qs periods now : keeps_counters (ServiceData.getQuantileStat gap n types qs periods now).
Proof.
  apply handler_keeps_bind; [done|]. intros s. destruct (QuantileStatMap.get _ _); [done|]. apply handler_keeps_bind.
  - intros d. done.
  - intros defs. apply handler_keeps_bind; [apply keeps_on_quantiles|]. intros p. apply keeps_on_quantiles.
Qed.
Lemma aside_quantiles gap f now : aside (getSharedQuantileStats gap f now).
Proof.
  intros s q s' (s0 & s1 & [= <- <-] & Eq)%se_bind_inv. revert Eq. apply handler_aside_service, keeps_getQuantileStat.
Qed.
Lemma get_aggregator_inv t (s s' : state) a : get_aggregator t s = (Ret a, s') -> s' = s /\ tlFunctionMap_ s.1 !! t = Some a.
Proof. unfold get_aggregator. destruct (tlFunctionMap_ s.1 !! t); [|done]. by intros [= -> <-]. Qed.
Lemma getStats_create gap t f now (s s' : state) a :
  inv s -> fn_ok f -> tlFunctionMap_ s.1 !! t = Some a ->
  (match map a !! f with
   | Some _ => se_ret tt
   | None =>
       let* q := getSharedQuantileStats gap f now in
       let* a := get_aggregator t in
       put_aggregator t (Aggregator (<[f := setQuantileStats q createStatsPerThread]> (map a)) (cached a))
   end) s = (Ret tt, s') -> same s s' /\ contexts s'.1 = contexts s.1.
Proof.
  intros Hi Hok Ha. destruct (map a !! f) as [x|] eqn:Hx; [intros [= <-]; split; [by apply handler_same_refl|done]|].
  intros (q & s1 & Eq & Er)%se_bind_inv. pose proof (aside_quantiles gap f now s q s1 Eq) as Hu.
  destruct (untouched_same s s1 Hu Hi) as [Hi1 T1]. apply se_bind_inv in Er as (b & s1' & Eb & Ep).
  apply get_aggregator_inv in Eb as [-> Hb]. assert (b = a) as -> by (rewrite (u_map _ _ Hu), Ha in Hb; by injection Hb).
  split; [|injection Ep as <-; apply (u_contexts _ _ Hu)]. apply (handler_same_trans s s1); [done|].
  apply (conserves_put_aggregator t (Aggregator (<[f := setQuantileStats q createStatsPerThread]> (map a)) (cached a)) s1 s' Hi1); [| | |exact Ep].
  - intros g y. cbn. rewrite lookup_insert_Some. intros [[<- <-]|[_ Hy]]; [split; [done|by rewrite fresh_value]|by apply (i_maps s1 Hi1 t a)].
  - intros g p Hp. by apply (i_cache s1 Hi1 t a).
  - rewrite Hb. unfold in_thread. cbn [map]. destruct (decide (f = fn)) as [->|Hne]; [rewrite lookup_insert_eq, Hx; cbn; apply fresh_value|].
    by rewrite lookup_insert_ne.
Qed.
Lemma getStats_cache t f (s s' : state) a :
  inv s -> tlFunctionMap_ s.1 !! t = Some a -> put_aggregator t (Aggregator (map a) (Some (f, (t, f)))) s = (Ret tt, s') -> same s s'.
Proof.
  intros Hi Ha. apply conserves_put_aggregator; [done| | |].
  - intros g x Hx. by apply (i_maps s Hi t a).
  - by intros g p [= <- <-].
  - by rewrite Ha.
Qed.
Lemma getStats_effect gap t f now (s s' : state) p :
  inv s -> fn_ok f -> getStats gap t f now s = (Ret p, s') -> p = (t, f) /\ same s s' /\ contexts s'.1 = contexts s.1.
Proof.
  intros Hi Hok (sx & s0 & Es & Eg)%se_bind_inv. injection Es as <- <-. apply se_bind_inv in Eg as ([] & s1 & E1 & Eg).
  assert (H1s : same s s1 /\ contexts s1.1 = contexts s.1).
  { destruct (tlFunctionMap_ s.1 !! t) as [a|] eqn:Ha; [injection E1 as <-; split; [by apply handler_same_refl|done]|].
    split; [|by injection E1 as <-]. apply (conserves_put_aggregator t (Aggregator ∅ None) s s1 Hi); try done; by rewrite Ha. }
  destruct H1s as [Hs1 C1]. pose proof (proj1 Hs1) as Hi1. clear E1.
  apply se_bind_inv in Eg as (a & s1' & Ea & Eg). apply get_aggregator_inv in Ea as [-> Ha].
  unfold cache_hit in Eg. destruct (cached a) as [[cf cp]|] eqn:Hcache; [case_bool_decide as Hf|]; cbn beta iota in Eg.
  { injection Eg as <- <-. subst cf. split; [by apply (i_cache s1 Hi1 t a f)|done]. }
  all: apply se_bind_inv in Eg as ([] & s2 & E2 & Eg).
  all: assert (H2s : same s1 s2 /\ contexts s2.1 = contexts s1.1) by (by apply (getStats_create gap t f now s1 s2 a)).
  all: destruct H2s as [Hs2 C2]; pose proof (proj1 Hs2) as Hi2.
  all: apply se_bind_inv in Eg as (a2 & s2' & Ea2 & Eg); apply get_aggregator_inv in Ea2 as [-> Ha2].
  all: apply se_bind_inv in Eg as ([] & s3 & E3 & [= <- <-]); split; [done|].
  all: assert (C3 : contexts s3.1 = contexts s2.1) by (by injection E3 as <-).
  all: assert (Hs3 : same s2 s3) by (by apply (getStats_cache t f s2 s3 a2)).
  all: split; [by apply (handler_same_trans s s1), (handler_same_trans s1 s2)|congruence].
Qed.
End Correct.
