(* ===== verification/FunctionStatsTheorems.v ===== *)
(** * FunctionStatsTheorems: what the function statistics promise

    Runs of what the thrift server calls, of consolidations and of thread ends, in
    any order. *)
From S2P Require Import Prelude CountedRuns RegexUtil FlatCounters CallbackValuesMap CallbackRegistry NamedCallbacks ExportType Timeseries CounterNames TimeseriesExporter ExporterNames HistogramExporter ExportedStatMap StatMapCorrect StatMapTheorems ExportedHistogramMap QuantileStat QuantileStatMap QuantileTheorems ServiceOptions ServiceData FunctionStats FunctionStatsCorrect.
From Stdlib Require Import ZArith Lia String SpecFloat Ascii.
From stdpp Require Import base gmap list strings.
Import FunctionStats.

Open Scope Z_scope.
Open Scope fb303_scope.

Section Calls.
Context {M : Type} `{RegexMatchCache M} {TS Hg HV : Type} `{FollyHistogram TS Hg HV}.
Context {E : Type} `{QuantileEstimator E} `{NumberFormat}.
Context {U US Getter Setter W : Type} (hash : string -> Z).
Abbreviation service := (ServiceData.state M TS Hg E U US Getter Setter W).
Abbreviation state := (handler (TS := TS) * service)%type.
#[local] Instance counters_registry : NamedCallbacks (CallbackValuesMap.cvm (counter_callback U) M) (counter_callback U) :=
  callback_values_map hash.
Context (gap_quantiles : QuantileStatMap.state E M -> QuantileStatMap.state E M).
Context (time_source : nat -> Z).

(** ** Operations *)
Inductive op :=
  | OGetContext (t : nat) (fn : string) (now : Z)
  | OPreRead (c : nat) (now : Z) | OPostRead (c : nat) (bytes now : Z)
  | OPreWrite (c : nat) (now : Z) | OPostWrite (c : nat) (bytes now : Z)
  | OHandlerError (c : nat) | OUserException (c : nat)
  | OFreeContext (t c : nat) (fn : string) (now : Z)
  | OConsolidate | OThreadExit (t : nat).
Definition exec (o : op) : SE state unit :=
  match o with
  | OGetContext t fn now => let* _ := getContext gap_quantiles t fn now in se_ret tt
  | OPreRead c now => preRead (Some c) now
  | OPostRead c bytes now => postRead (Some c) bytes now
  | OPreWrite c now => preWrite (Some c) now
  | OPostWrite c bytes now => postWrite (Some c) bytes now
  | OHandlerError c => handlerError (Some c)
  | OUserException c => userExceptionWrapped (Some c)
  | OFreeContext t c fn now => freeContext gap_quantiles t (Some c) fn now
  | OConsolidate => consolidate hash id time_source
  | OThreadExit t => thread_exit hash id time_source t
  end.

Context (prefix fn : string) (m : metric).
#[export] Instance fn_ok_dec f : Decision (fn_ok prefix f).
Proof.
  refine (cast_if (decide (Forall (fun sfx => name_ok ((prefix +:+ f) +:+ sfx)) suffixes))); unfold fn_ok; by rewrite <- Forall_forall.
Defined.

(** Names fit their buffers, byte counts are unsigned, and a context is freed under
    the name it was made for. *)
Definition good (o : op) (s : state) : bool :=
  match o with
  | OGetContext _ f _ => bool_decide (fn_ok prefix f)
  | OPostRead _ bytes _ | OPostWrite _ bytes _ => 0 <=? bytes
  | OFreeContext _ c f _ =>
      bool_decide (fn_ok prefix f) && match contexts s.1 !! c with
                                      | Some x => bool_decide ((stats_ x).2 = f) && (0 <=? brings m x)
                                      | None => false
                                      end
  | _ => true
  end.
(** What a request brings when it is freed. *)
Definition count (o : op) (s : state) : Z :=
  match o with
  | OFreeContext _ c f _ => match contexts s.1 !! c with Some x => if bool_decide (f = fn) then brings m x else 0 | None => 0 end
  | _ => 0
  end.

(** ** What each call does *)
Context (all_time : TS -> Z).
Hypothesis at_add : forall now v k t, in_s 64 (all_time t + v * k) -> all_time (ts_addValue now v k t) = all_time t + v * k.
Abbreviation inv := (FunctionStatsCorrect.inv hash all_time prefix fn m).
Abbreviation total := (FunctionStatsCorrect.total all_time prefix fn m).
Abbreviation same := (FunctionStatsCorrect.same hash all_time prefix fn m).
Abbreviation published := (FunctionStatsCorrect.published all_time prefix fn m).
Abbreviation pending := (FunctionStatsCorrect.pending fn m).
Abbreviation conserves := (FunctionStatsCorrect.conserves (M := M) (Hg := Hg) (E := E) (U := U) (US := US) (Getter := Getter) (Setter := Setter) (W := W) hash all_time prefix fn m).

Lemma same_contexts (s : state) cs :
  inv s -> (forall c x, cs !! c = Some x -> 0 <= rBytes_ x /\ 0 <= wBytes_ x) -> same s (with_contexts cs s.1, s.2).
Proof. intros Hi Hc. split; [|done]. split; try apply Hi. exact Hc. Qed.
Lemma conserves_context c f : (forall x, 0 <= rBytes_ x /\ 0 <= wBytes_ x -> 0 <= rBytes_ (f x) /\ 0 <= wBytes_ (f x)) ->
  conserves (on_context (Some c) f).
Proof.
  intros Hf s a s' Hi _ (x & s0 & Eg & Em)%se_bind_inv. unfold get_context in Eg. destruct (contexts s.1 !! c) as [y|] eqn:Hc; [|done].
  injection Eg as -> <-. injection Em as _ <-. apply same_contexts; [done|]. intros c' z.
  rewrite lookup_insert_Some. intros [[<- <-]|[_ Hz]]; [by apply Hf, (i_contexts _ _ _ _ _ s Hi c)|by apply (i_contexts _ _ _ _ _ s Hi c')].
Qed.

Lemma conserves_getContext t f now : fn_ok prefix f -> conserves (getContext gap_quantiles t f now).
Proof.
  intros Hok s oc s' Hi Ht (p & s1 & Eg & E1)%se_bind_inv.
  destruct (getStats_effect hash all_time prefix fn m gap_quantiles t f now s s1 p Hi Hok Eg) as (-> & Hs1 & _).
  apply se_bind_inv in E1 as (id & s2 & Eid & E2).
  pose proof (untouched_same hash all_time prefix fn m s1 s2 (aside_thread_id t s1 id s2 Eid) (proj1 Hs1)) as Hs2.
  apply se_bind_inv in E2 as (x & s2' & Ex & E3). unfold FunctionStats.get in Ex.
  destruct (lookup (t, f) s2) as [y|] eqn:Hx; [|done]. injection Ex as -> <-.
  destruct (evaluate_sampling x) as [b x'] eqn:Es. pose proof (sampling_value m x) as Hv. rewrite Es in Hv. cbn [snd] in Hv.
  apply se_bind_inv in E3 as ([] & s3 & Ep & E4).
  pose proof (put_same hash all_time prefix fn m t f x x' s2 s3 (proj1 Hs2) Hx Hv Ep) as Hs3.
  apply se_bind_inv in E4 as (c & s4 & Ec & [= _ <-]). injection Ec as _ <-.
  apply (handler_same_trans _ _ _ _ _ s s1); [done|]. apply (handler_same_trans _ _ _ _ _ s1 s2); [done|]. apply (handler_same_trans _ _ _ _ _ s2 s3); [done|].
  apply same_contexts; [apply Hs3|]. intros c' z. rewrite lookup_insert_Some.
  intros [[_ <-]|[_ Hz]]; [done|by apply (i_contexts _ _ _ _ _ s3 (proj1 Hs3) c')].
Qed.

Lemma brings_nonneg x : 0 <= rBytes_ x /\ 0 <= wBytes_ x -> 0 <= brings m x.
Proof. intros [Hr Hw]. unfold brings, b2z. destruct m; try case_match; lia. Qed.

(** A request is freed: its numbers go to the stats object it resolves to. *)
Lemma freeContext_effect t c f now (s s' : state) x :
  inv s -> fn_ok prefix f -> contexts s.1 !! c = Some x -> (stats_ x).2 = f ->
  total s + (if bool_decide (f = fn) then brings m x else 0) < limit m ->
  freeContext gap_quantiles t (Some c) f now s = (Ret tt, s') ->
  inv s' /\ total s' = total s + (if bool_decide (f = fn) then brings m x else 0).
Proof.
  intros Hi Hok Hc Hf Hlim (x' & s0 & Eg & E1)%se_bind_inv. unfold get_context in Eg. rewrite Hc in Eg. injection Eg as <- <-.
  apply se_bind_inv in E1 as (id & s1 & Eid & E1).
  pose proof (aside_thread_id t s id s1 Eid) as Hu1. pose proof (untouched_same hash all_time prefix fn m s s1 Hu1 Hi) as Hs1.
  apply se_bind_inv in E1 as (p & s2 & Ep & E2).
  assert (Hs2 : p.2 = f /\ same s1 s2 /\ contexts s2.1 = contexts s1.1).
  { destruct (originThreadId_ x =? id); [injection Ep as <- <-; split; [done|]; split; [apply handler_same_refl, Hs1|done]|].
    destruct (getStats_effect hash all_time prefix fn m gap_quantiles t f now s1 s2 p (proj1 Hs1) Hok Ep) as (-> & Hs & Ec). done. }
  destruct p as [t' f']. cbn [snd] in Hs2. destruct Hs2 as (-> & Hs2 & C2). pose proof (proj1 Hs2) as Hi2.
  apply se_bind_inv in E2 as (y & s2' & Ey & E3). unfold FunctionStats.get in Ey.
  destruct (lookup (t', f) s2) as [z|] eqn:Hy; [|done]. injection Ey as -> <-.
  apply se_bind_inv in E3 as (y' & s3 & El & E4). unfold on_service in El.
  destruct (logContextData x now y s2.2) as [r d] eqn:Elog. injection El as -> <-.
  assert (Hu3 : untouched s2 (s2.1, d)).
  { apply (handler_aside_service (logContextData x now y) (keeps_log x now y) s2 y'). unfold on_service. by rewrite Elog. }
  pose proof (untouched_same hash all_time prefix fn m s2 _ Hu3 Hi2) as Hs3.
  apply se_bind_inv in E4 as ([] & s4 & Eput & Efin).
  pose proof (brings_nonneg x (i_contexts _ _ _ _ _ s Hi c x Hc)) as Hb.
  assert (Ht2 : total s2 = total s) by (rewrite (proj2 Hs2); apply Hs1).
  assert (Hny : 0 <= value m y) by (apply lookup_inv in Hy as (a & Ha & Hm); by apply (i_maps _ _ _ _ _ s2 Hi2 t' a f y)).
  destruct (put_effect hash all_time prefix fn m t' f y y' (s2.1, d) s4 (proj1 Hs3) Hy) as (Hi4 & P4 & D4);
    [by apply (log_nonneg x now y s2.2 d)|exact Eput|].
  assert (Ht4 : total s4 = total s + (if bool_decide (f = fn) then brings m x else 0)).
  { unfold FunctionStatsCorrect.total at 1. rewrite P4, D4. pose proof (proj2 Hs3) as Et3. rewrite Ht2 in Et3.
    unfold FunctionStatsCorrect.total in Et3 at 1. rewrite <- Et3. case_decide as Ef; [|rewrite bool_decide_eq_false_2 by done; lia].
    rewrite bool_decide_eq_true_2 in Hlim |- * by done. rewrite (log_value x now y s2.2 d y' m Elog); [lia|]. rewrite Ef in Hy.
    pose proof (value_le_pending hash all_time prefix fn m s2 t' y Hi2 Hy) as Hle. pose proof (i_published _ _ _ _ _ s2 Hi2) as Hp.
    unfold FunctionStatsCorrect.total in Ht2 at 1. lia. }
  injection Efin as <-. destruct (same_contexts s4 (delete c (contexts s4.1)) Hi4) as [Hi5 Ht5].
  { intros c' z [_ Hz]%lookup_delete_Some. by apply (i_contexts _ _ _ _ _ s4 Hi4 c'). }
  split; [done|]. by rewrite Ht5.
Qed.

(** ** What consolidation leaves in a thread: nothing *)
Definition handed_over (t : nat) (s : state) : Prop := forall x, lookup (t, fn) s = Some x -> value m x = 0.
Definition hands_over {A} (f : SE state A) : Prop := forall s a s', inv s -> total s < limit m -> f s = (Ret a, s') ->
  same s s' /\ forall t, handed_over t s -> handed_over t s'.

Lemma consolidateStats_effect now t f (s s' : state) n :
  inv s -> total s < limit m -> consolidateStats hash id now (t, f) s = (Ret n, s') ->
  same s s' /\ (forall t', handed_over t' s -> handed_over t' s') /\ (f = fn -> handed_over t s').
Proof.
  intros Hi Ht Ec. split; [by apply (conserves_consolidateStats hash all_time at_add prefix fn m now (t, f) s n s')|].
  apply se_bind_inv in Ec as (x & s0 & Eg & Ec). unfold FunctionStats.get in Eg.
  destruct (lookup (t, f) s) as [x'|] eqn:Hx; [|done]. injection Eg as -> <-.
  apply se_bind_inv in Ec as (sx & s0' & Es & Ec). injection Es as <- <-. apply se_bind_inv in Ec as ([] & s1 & Ea & Ec).
  cbn [snd] in Ea. rewrite (i_prefix _ _ _ _ _ s Hi) in Ea.
  destruct (addAllValues_effect hash all_time at_add prefix fn m t f _ x s s1 Hi Ht Hx Ea) as (_ & M1 & _).
  apply se_bind_inv in Ec as ([] & s2 & Ep & [= _ <-]). injection Ep as <-.
  set (y := clear (setSampleRate (new_rate s.1 x) x)).
  assert (Hl : forall t' z, lookup (t', fn) (with_map (alter (fun a => Aggregator (<[f := y]> (map a)) (cached a)) t (tlFunctionMap_ s1.1)) s1.1, s1.2) = Some z ->
    (t' = t /\ f = fn /\ z = y) \/ lookup (t', fn) s = Some z).
  { intros t' z. unfold lookup. cbn. rewrite M1. destruct (decide (t' = t)) as [->|Hne].
    - rewrite lookup_alter_eq. destruct (tlFunctionMap_ s.1 !! t) as [a|]; [|done]. cbn.
      rewrite lookup_insert_Some. intros [[-> <-]|[_ Hz]]; [by left|by right].
    - rewrite lookup_alter_ne by done. by right. }
  split.
  - intros t' Ho z [(_ & _ & ->)|Hz]%Hl; [apply clear_value|by apply Ho].
  - intros -> z Hz. unfold lookup in Hz. cbn in Hz. rewrite lookup_alter_eq in Hz.
    destruct (tlFunctionMap_ s1.1 !! t) as [a|]; [|done]. cbn in Hz. rewrite lookup_insert_eq in Hz. injection Hz as <-. apply clear_value.
Qed.
Lemma add_int_inv a b n (s s' : state) : add_int a b s = (Ret n, s') -> s' = s.
Proof. unfold add_int. destruct (_ && _); [|done]. by intros [= _ <-]. Qed.
Lemma consolidate_each_effect now t fns calls (s s' : state) n :
  inv s -> total s < limit m -> consolidate_each hash id now t fns calls s = (Ret n, s') ->
  same s s' /\ (forall t', handed_over t' s -> handed_over t' s') /\ (fn ∈ fns -> handed_over t s').
Proof.
  revert calls s. induction fns as [|f fns IH]; intros calls s Hi Ht; cbn.
  { intros [= _ <-]. split; [by apply handler_same_refl|]. split; [done|]. set_solver. }
  intros (n1 & s1 & E1 & E2)%se_bind_inv. destruct (consolidateStats_effect now t f s s1 n1 Hi Ht E1) as (Hs1 & Hk1 & Hf1).
  apply se_bind_inv in E2 as (n2 & s2 & E2 & E3). apply add_int_inv in E2 as ->.
  destruct (IH n2 s1 (proj1 Hs1)) as (Hs2 & Hk2 & Hf2); [rewrite (proj2 Hs1); done|exact E3|].
  split; [by apply (handler_same_trans _ _ _ _ _ s s1)|]. split; [auto|]. intros [->|Hin]%elem_of_cons; auto.
Qed.
Lemma functions_of_spec t (s : state) x : lookup (t, fn) s = Some x -> fn ∈ functions_of t s.1.
Proof.
  intros (a & Ha & Hx)%lookup_inv. unfold functions_of. rewrite Ha. apply list_elem_of_fmap. exists (fn, x).
  split; [done|]. by apply elem_of_map_to_list.
Qed.
Lemma consolidateThread_effect now t (s s' : state) n :
  inv s -> total s < limit m -> consolidateThread hash id now t s = (Ret n, s') ->
  same s s' /\ (forall t', handed_over t' s -> handed_over t' s') /\ handed_over t s'.
Proof.
  intros Hi Ht (sx & s0 & Es & Ec)%se_bind_inv. injection Es as <- <-.
  destruct (consolidate_each_effect now t (functions_of t s.1) 0 s s' n Hi Ht Ec) as (Hs & Hk & Hf). split; [done|]. split; [done|].
  destruct (lookup (t, fn) s) as [x|] eqn:Hx; [by apply Hf, (functions_of_spec t s x)|]. apply Hk. intros y Hy. congruence.
Qed.
Lemma consolidate_threads_effect now ts k (s s' : state) n :
  inv s -> total s < limit m -> consolidate_threads hash id now ts k s = (Ret n, s') ->
  same s s' /\ (forall t', handed_over t' s -> handed_over t' s') /\ forall t, t ∈ ts -> handed_over t s'.
Proof.
  revert k s. induction ts as [|t ts IH]; intros k s Hi Ht; cbn.
  { intros [= _ <-]. split; [by apply handler_same_refl|]. split; [done|]. set_solver. }
  intros (n1 & s1 & E1 & E2)%se_bind_inv. destruct (consolidateThread_effect now t s s1 n1 Hi Ht E1) as (Hs1 & Hk1 & Hf1).
  destruct (IH (k + b2z (0 <? n1)) s1 (proj1 Hs1)) as (Hs2 & Hk2 & Hf2); [rewrite (proj2 Hs1); done|exact E2|].
  split; [by apply (handler_same_trans _ _ _ _ _ s s1)|]. split; [auto|]. intros t' [->|Hin]%elem_of_cons; auto.
Qed.
Lemma aside_now (s s' : state) now : legacy_now time_source s = (Ret now, s') -> untouched s s'.
Proof. apply handler_aside_service, handler_keeps_on_clock. Qed.
Lemma in_thread_zero t a (s : state) : handed_over t s -> tlFunctionMap_ s.1 !! t = Some a -> in_thread fn m a = 0.
Proof.
  intros Ho Ha. unfold in_thread. destruct (map a !! fn) as [x|] eqn:Hx; [|done]. apply Ho. unfold lookup. cbn. by rewrite Ha.
Qed.
Lemma consolidate_effect (s s' : state) :
  inv s -> total s < limit m -> consolidate hash id time_source s = (Ret tt, s') -> same s s' /\ pending s' = 0.
Proof.
  intros Hi Ht (now & s1 & E1 & E2)%se_bind_inv. pose proof (aside_now s s1 now E1) as Hu.
  pose proof (untouched_same hash all_time prefix fn m s s1 Hu Hi) as Hs1.
  apply se_bind_inv in E2 as (sx & s1' & Es & E3). injection Es as <- <-. apply se_bind_inv in E3 as (n & s2 & E3 & E4).
  destruct (consolidate_threads_effect now (map_to_list (tlFunctionMap_ s1.1)).*1 0 s1 s2 n (proj1 Hs1)) as (Hs2 & Hk & Hf); [rewrite (proj2 Hs1); done|exact E3|].
  assert (Hu2 : untouched s2 s') by (destruct (0 <? n); injection E4 as <-; by split).
  assert (Hall : forall t, handed_over t s2).
  { intros t. destruct (tlFunctionMap_ s1.1 !! t) as [a|] eqn:Ha.
    - apply Hf. apply list_elem_of_fmap. exists (t, a). split; [done|]. by apply elem_of_map_to_list.
    - apply Hk. intros x Hx. apply lookup_inv in Hx as (a & Ha' & _). congruence. }
  split; [apply (handler_same_trans _ _ _ _ _ s s1); [done|]; apply (handler_same_trans _ _ _ _ _ s1 s2); [done|]; apply untouched_same; [done|apply Hs2]|].
  unfold FunctionStatsCorrect.pending. rewrite (u_map _ _ Hu2). apply Z.le_antisymm; [|apply (pending_nonneg hash all_time prefix fn m s2), Hs2].
  assert (Hz : forall mp : gmap nat aggregator, (forall t a, mp !! t = Some a -> in_thread fn m a = 0) -> map_sum (in_thread fn m) mp = 0).
  { intros mp. induction mp as [|t a mp Hn IH] using map_ind; intros Hmp; [apply map_sum_empty|].
    rewrite map_sum_insert by done. rewrite (Hmp t a) by apply lookup_insert_eq. rewrite IH; [done|].
    intros t' a' Ha'. apply (Hmp t' a'). rewrite lookup_insert_ne; [done|congruence]. }
  rewrite Hz; [done|]. intros t a Ha. by apply (in_thread_zero t a s2).
Qed.
Lemma conserves_thread_exit t : conserves (thread_exit hash id time_source t).
Proof.
  intros s [] s' Hi Ht (sx & s0 & Es & E1)%se_bind_inv. injection Es as <- <-.
  destruct (tlFunctionMap_ s.1 !! t) as [a0|] eqn:Ha0; [|injection E1 as <-; by apply handler_same_refl].
  apply se_bind_inv in E1 as (now & s1 & E1 & E2). pose proof (aside_now s s1 now E1) as Hu.
  pose proof (untouched_same hash all_time prefix fn m s s1 Hu Hi) as Hs1.
  apply se_bind_inv in E2 as (n & s2 & E2 & E3).
  destruct (consolidateThread_effect now t s1 s2 n (proj1 Hs1)) as (Hs2 & _ & Ho); [rewrite (proj2 Hs1); done|exact E2|].
  apply (handler_same_trans _ _ _ _ _ s s1); [done|]. apply (handler_same_trans _ _ _ _ _ s1 s2); [done|]. injection E3 as <-. pose proof (proj1 Hs2) as Hi2.
  split.
  - split; try apply Hi2.
    + intros t' a f x Ha. cbn in Ha. apply lookup_delete_Some in Ha as [_ Ha]. by apply (i_maps _ _ _ _ _ s2 Hi2 t').
    + intros t' a f p Ha. cbn in Ha. apply lookup_delete_Some in Ha as [_ Ha]. by apply (i_cache _ _ _ _ _ s2 Hi2 t').
  - unfold FunctionStatsCorrect.total. change (published _) with (published s2). f_equal. unfold FunctionStatsCorrect.pending. cbn.
    destruct (tlFunctionMap_ s2.1 !! t) as [a|] eqn:Ha; [|by rewrite delete_id].
    rewrite (map_sum_delete _ _ t a Ha), (in_thread_zero t a s2 Ho Ha). lia.
Qed.

(** ** Runs *)
Lemma handler_exec_effect o (s s' : state) :
  inv s -> good o s = true -> total s + count o s < limit m -> exec o s = (Ret tt, s') ->
  inv s' /\ total s' = total s + count o s.
Proof.
  intros Hi Hgood Hlim He. assert (Hcons : count o s = 0 -> conserves (exec o) -> inv s' /\ total s' = total s + count o s).
  { intros Ez Hc. rewrite Ez in *. destruct (Hc s tt s' Hi) as [Hi' Ht]; [lia|done|]. split; [done|lia]. }
  destruct o as [t f now|c now|c b now|c now|c b now|c|c|t c f now| |t]; cbn [good count] in Hgood, Hlim, Hcons |- *.
  - apply Hcons; [done|]. apply handler_conserves_bind; [|intros; apply handler_conserves_ret]. apply conserves_getContext. by apply bool_decide_eq_true in Hgood.
  - apply Hcons; [done|]. by apply conserves_context.
  - apply Hcons; [done|]. apply conserves_context. intros x. cbn. lia.
  - apply Hcons; [done|]. by apply conserves_context.
  - apply Hcons; [done|]. apply conserves_context. intros x. cbn. lia.
  - apply Hcons; [done|]. by apply conserves_context.
  - apply Hcons; [done|]. by apply conserves_context.
  - apply andb_prop in Hgood as [Hok%bool_decide_eq_true Hgood]. destruct (contexts s.1 !! c) as [x|] eqn:Hc; [|done].
    apply andb_prop in Hgood as [Hgood%bool_decide_eq_true _]. by apply (freeContext_effect t c f now s s' x).
  - apply Hcons; [done|]. intros s1 [] s2 Hi1 Hl1 He1. by apply consolidate_effect.
  - apply Hcons; [done|]. apply conserves_thread_exit.
Qed.
Lemma count_nonneg o (s : state) : good o s = true -> 0 <= count o s.
Proof.
  destruct o as [| | | | | | |t c f now| |]; cbn; try done. destruct (contexts s.1 !! c) as [x|] eqn:Hc; [|done].
  intros [_ [_ Hb]%andb_prop]%andb_prop. case_bool_decide; [|done]. by apply Z.leb_le.
Qed.
Lemma runs_nonneg s l n s' : runs exec good count s l n s' -> 0 <= n.
Proof. induction 1 as [s|s o s1 l n s' Hgood He Hr IH]; [done|]. pose proof (count_nonneg o s Hgood). lia. Qed.
Lemma handler_runs_effect s l n s' : runs exec good count s l n s' -> inv s -> total s + n < limit m -> inv s' /\ total s' = total s + n.
Proof.
  induction 1 as [s|s o s1 l n s' Hgood He Hr IH]; intros Hi Hlim; [split; [done|lia]|].
  pose proof (runs_nonneg s1 l n s' Hr) as Hn. destruct (handler_exec_effect o s s1 Hi Hgood) as [Hi1 Ht1]; [lia|done|].
  destruct (IH Hi1) as [Hi' Ht']; [lia|]. split; [done|lia].
Qed.

Ltac named_list := split; [by apply (bool_decide_unpack _)|]; repeat (apply Forall_cons; split); try apply Forall_nil;
  unfold in_s, smin, smax, milliseconds; try lia; by (split; [lia|split; [lia|reflexivity]]).
Lemma five_second_named : ExporterNames.named_durations milliseconds [5000; 60000; 600000; 3600000; 0].
Proof. named_list. Qed.
Lemma minute_named : ExporterNames.named_durations milliseconds [60000; 600000; 3600000; 0].
Proof. named_list. Qed.
Lemma handler_inv_start samp secs sub (h : handler (TS := TS)) (d : service) :
  (forall k ds, all_time (ts_make k ds) = 0) -> CallbackRegistry.wf hash (ServiceData.dynamicCounters_ d) ->
  FunctionStats.make samp secs prefix sub = Ret h -> inv (h, d) /\ total (h, d) = 0.
Proof.
  intros Hz Hw. unfold FunctionStats.make. destruct (negb _); [done|].
  set (tbl := if sub then _ else _). assert (Hc : exists t, construct (TS := TS) tbl = Ret t /\ named t /\ all_time t = 0).
  { destruct sub; eexists; (split; [reflexivity|]); (split; [|apply Hz]); unfold named; rewrite (proj2 (ts_make_levels _ _));
      [exact five_second_named|exact minute_named]. }
  destruct Hc as (t & -> & Hn & Ht). destruct (_ <=? 0); [done|]. intros [= <-].
  assert (Hm : forall types, StatMapCorrect.inv (H0 := counters_registry) (StatCounter (U := U)) false
      (ExportedStatMap.make types t, ServiceData.dynamicCounters_ d)).
  { intros types. split; cbn; try done.
    - by intros p [? Hp].
    - by intros t' [= <-].
    - by intros f [? Hf]. }
  split; [split|]; cbn; try done.
  - apply Hm.
  - apply Hm.
  - by intros t' [= <-].
Qed.
End Calls.

Section Properties.
Context {M : Type} `{RegexMatchCache M} {TS Hg HV : Type} `{FollyHistogram TS Hg HV}.
Context {E : Type} `{QuantileEstimator E} `{NumberFormat}.
Context {U US Getter Setter W : Type} (hash : string -> Z).
Abbreviation service := (ServiceData.state M TS Hg E U US Getter Setter W).

(** C9: no request is lost or counted twice.  From a new handler, let the server
    call it around any requests from any threads, consolidations and thread ends
    coming in between, every call returning.  Then for each function and each of
    the nine numbers (calls, reads, writes, processed, exceptions of two kinds,
    samples, bytes read and written), what its series in statMapSum_ has received
    and what the threads still hold add up to what the freed requests brought, as
    long as that stays below 2^32 (2^63 for bytes); and one more consolidation
    brings all of it into the series. *)
Theorem no_request_lost (gap_quantiles : QuantileStatMap.state E M -> QuantileStatMap.state E M) (time_source : nat -> Z)
    (all_time : TS -> Z) (prefix fn : string) (m : metric) (samp secs : Z) (sub : bool) (h : handler (TS := TS)) (d : service)
    (l : list op) (n : Z) (s' : handler * service) :
  (forall now v k t, in_s 64 (all_time t + v * k) -> all_time (ts_addValue now v k t) = all_time t + v * k) ->
  (forall k ds, all_time (ts_make k ds) = 0) ->
  CallbackRegistry.wf hash (ServiceData.dynamicCounters_ d) -> FunctionStats.make samp secs prefix sub = Ret h ->
  runs (exec hash gap_quantiles time_source) (good prefix m) (count fn m) (h, d) l n s' -> n < limit m ->
  published all_time prefix fn m s' + pending fn m s' = n /\
  forall s2, consolidate hash id time_source s' = (Ret tt, s2) -> published all_time prefix fn m s2 = n /\ pending fn m s2 = 0.
Proof.
  intros Hadd Hz Hw Hm Hr Hn. destruct (handler_inv_start hash prefix fn m all_time samp secs sub h d Hz Hw Hm) as [Hi Ht].
  destruct (handler_runs_effect hash gap_quantiles time_source prefix fn m all_time Hadd _ _ _ _ Hr Hi) as [Hi' Ht']; [lia|].
  assert (Hlim : FunctionStatsCorrect.total all_time prefix fn m s' < limit m) by lia.
  split; [unfold FunctionStatsCorrect.total in Ht', Ht; lia|]. intros s2 Hc.
  destruct (consolidate_effect hash time_source prefix fn m all_time Hadd s' s2 Hi' Hlim Hc) as [[_ Hs] Hp].
  unfold FunctionStatsCorrect.total in Hs, Ht', Ht. lia.
Qed.

(** ** What one consolidation leaves in the thread *)
Lemma keeps_on_sum {A} f (s s' : handler (TS := TS) * service) (a : A) : on_sum f s = (Ret a, s') -> tlFunctionMap_ s'.1 = tlFunctionMap_ s.1.
Proof. unfold on_sum. destruct (f _) as [r [sm c]]. by intros [= _ <-]. Qed.
Lemma keeps_on_avg {A} f (s s' : handler (TS := TS) * service) (a : A) : on_avg f s = (Ret a, s') -> tlFunctionMap_ s'.1 = tlFunctionMap_ s.1.
Proof. unfold on_avg. destruct (f _) as [r [sm c]]. by intros [= _ <-]. Qed.
Lemma keeps_add_sums gap k now l (s s' : handler (TS := TS) * service) : add_sums hash gap k now l s = (Ret tt, s') -> tlFunctionMap_ s'.1 = tlFunctionMap_ s.1.
Proof.
  revert s. induction l as [|[sfx v] l IH]; intros s; cbn; [by intros [= <-]|].
  intros ([] & s1 & E1 & E2)%se_bind_inv. rewrite (IH s1 E2). by apply keeps_on_sum in E1.
Qed.
Lemma keeps_add_avgs gap k now l (s s' : handler (TS := TS) * service) : add_avgs hash gap k now l s = (Ret tt, s') -> tlFunctionMap_ s'.1 = tlFunctionMap_ s.1.
Proof.
  revert s. induction l as [|[sfx [v n]] l IH]; intros s; cbn; [by intros [= <-]|].
  intros ([] & s1 & E1 & E2)%se_bind_inv. rewrite (IH s1 E2). by apply keeps_on_avg in E1.
Qed.
Lemma keeps_add_rate gap k now r (s s' : handler (TS := TS) * service) : add_rate hash gap k now r s = (Ret tt, s') -> tlFunctionMap_ s'.1 = tlFunctionMap_ s.1.
Proof.
  unfold add_rate. destruct (SFltb _ _); [|by intros [= <-]]. destruct (double_to_int64 _); [|done]. apply keeps_on_avg.
Qed.
Lemma keeps_addAllValues gap k now x (s s' : handler (TS := TS) * service) : addAllValues hash gap k now x s = (Ret tt, s') -> tlFunctionMap_ s'.1 = tlFunctionMap_ s.1.
Proof.
  unfold addAllValues. intros ([] & s1 & E1%keeps_add_sums & Hr)%se_bind_inv. apply se_bind_inv in Hr as ([] & s2 & E2%keeps_add_rate & Hr).
  apply se_bind_inv in Hr as ([] & s3 & E3%keeps_add_rate & E4%keeps_add_avgs). congruence.
Qed.

(** C38: a consolidation clears what it reported, but not the CPU and worked times:
    right after it each of the nine sums of the thread is zero and so is every
    average - except [.total_cpu_us] and [.total_worked_us], which the next
    consolidation reports again, the same sum with the same count. *)
Theorem cpu_time_reported_again gap now (p : nat * string) (x : per_thread) n (s s' : handler (TS := TS) * service) :
  lookup p s = Some x -> consolidateStats hash gap now p s = (Ret n, s') ->
  exists x', lookup p s' = Some x' /\ (forall m, value m x' = 0) /\
    avg_reports x' = (fun r => if bool_decide (r.1 = ".total_cpu_us") || bool_decide (r.1 = ".total_worked_us") then r else (r.1, (0, 0)))
                       <$> avg_reports x.
Proof.
  intros Hx (y & s0 & Eg & Hc)%se_bind_inv. unfold FunctionStats.get in Eg. rewrite Hx in Eg. injection Eg as <- <-.
  apply se_bind_inv in Hc as (sx & s0' & Es & Hc). injection Es as <- <-. apply se_bind_inv in Hc as ([] & s1 & Ea & Hc).
  apply keeps_addAllValues in Ea. apply se_bind_inv in Hc as ([] & s2 & Ep & [= _ <-]). injection Ep as <-.
  exists (clear (setSampleRate (new_rate s.1 x) x)). split; [|split].
  - unfold lookup in *. cbn. rewrite Ea, lookup_alter_eq. destruct (tlFunctionMap_ s.1 !! p.1) as [a|]; [|done]. apply lookup_insert_eq.
  - intros m. apply clear_value.
  - unfold setSampleRate. by destruct x.
Qed.
End Properties.

(** ** Two functions, two threads *)
Section Example_.
Import EventSeries CoarseHistogram SampleEstimator PrefixCache.
#[local] Instance example_format : NumberFormat := QuantileTheorems.tenths_format.
Abbreviation example_service := (ServiceData.state cache series histogram est Z string bool string unit) (only parsing).
Definition function_hash (n : string) : Z := Z.of_nat (String.length n).
Definition event_sum (t : series) : Z := foldr (fun e s => ev_sum e + s) 0 (events t).
Definition in_milliseconds : series := ts_make 60 (in_ticks milliseconds [60; 600]).
Definition function_service : example_service :=
  ServiceData.State 0 (ServiceOptions.Options false ∅ ∅) RegexUtil.empty_syncmap ∅
    CallbackValuesMap.make CallbackValuesMap.make (ExportedStatMap.make [AVG] in_milliseconds) QuantileStatMap.empty_state
    (ExportedHistogramMap.make (ts_make 60 (in_ticks seconds [60; 600])) (Hist 10 0 100 (ts_make 60 (in_ticks seconds [60; 600]))))
    (LegacyClock.Clock 0) tt.
(** A request read, written and freed in its thread; one freed by another thread;
    one of another function; consolidations and a thread's end in between. *)
Definition function_ops : list op :=
  [OGetContext 0 "get" 0; OPreRead 0 10; OPostRead 0 100 20; OPreWrite 0 30; OPostWrite 0 7 40; OFreeContext 0 0 "get" 50;
   OGetContext 0 "get" 60; OConsolidate; OPreRead 0 70; OPostRead 0 23 80; OHandlerError 0; OGetContext 0 "put" 81;
   OPreRead 1 82; OPostRead 1 1000 83; OFreeContext 1 0 "get" 90; OFreeContext 0 1 "put" 91; OThreadExit 1;
   OGetContext 2 "get" 92; OPreRead 0 93; OPostRead 0 5 94; OFreeContext 2 0 "get" 95].
Definition function_run (fn : string) (m : metric) (h : handler (TS := series)) : option (Z * (handler (TS := series) * example_service)) :=
  run_counted (exec function_hash id (fun n => Z.of_nat n)) (good "thrift." m) (count fn m) function_ops (h, function_service).
Lemma event_sum_add now v k t : event_sum (ts_addValue now v k t) = event_sum t + v * k.
Proof. change (v * k + event_sum t = event_sum t + v * k). lia. Qed.
Definition function_start : handler (TS := series) :=
  match FunctionStats.make (TS := series) 10 60 "thrift." true with
  | Ret h => h
  | Throw _ => Handler ∅ ∅ "" 0 FunctionStats.zero (ExportedStatMap.make [] in_milliseconds) (ExportedStatMap.make [] in_milliseconds) 0 ∅
  end.

Lemma no_request_lost_witness :
  match function_run "get" BytesRead function_start with
  | Some (n, s') => n = 128 /\ pending "get" BytesRead s' = 5 /\ published event_sum "thrift." "get" BytesRead s' = 123
  | None => False
  end.
Proof.
  assert (Hv : match function_run "get" BytesRead function_start with
    | Some (n, s') => Some (n, pending "get" BytesRead s') | None => None end = Some (128, 5)) by (vm_compute; reflexivity).
  unfold function_run in *.
  destruct (run_counted _ _ _ function_ops (function_start, function_service)) as [[n s']|] eqn:Er; [|discriminate Hv].
  injection Hv as Hn Hp. split; [exact Hn|]. split; [exact Hp|].
  assert (Ht : published event_sum "thrift." "get" BytesRead s' + pending "get" BytesRead s' = n).
  { apply (proj1 (no_request_lost function_hash id (fun n => Z.of_nat n) event_sum "thrift." "get" BytesRead 10 60 true function_start
      function_service function_ops n s' (fun now v k t _ => event_sum_add now v k t) (fun _ _ => eq_refl)
      (registry_wf_make function_hash) eq_refl (run_counted_runs _ _ _ _ _ _ _ Er) ltac:(rewrite Hn; reflexivity))). }
  rewrite Hp, Hn in Ht. lia.
Defined.

Definition cpu_bound : per_thread :=
  PerThread 3 0 0 0 (TimeSeries 2 40 None) no_series 0 no_series no_series no_series (TimeSeries 3 900 None) no_series FunctionStats.one FunctionStats.zero FunctionStats.zero FunctionStats.zero.
Definition cpu_start : handler (TS := series) * example_service :=
  (with_map {[ 0%nat := Aggregator {[ "get" := cpu_bound ]} None ]} function_start, function_service).
Lemma cpu_time_reported_again_witness :
  match consolidateStats function_hash id 7 (0%nat, "get") cpu_start with
  | (Ret n, s') => n = 3 /\ exists x', lookup (0%nat, "get") s' = Some x' /\ calls_ x' = 0 /\ (".total_cpu_us", (900, 3)) ∈ avg_reports x'
  | (Throw _, _) => False
  end.
Proof.
  assert (Hv : match (consolidateStats function_hash id 7 (0%nat, "get") cpu_start).1 with Ret n => Some n | Throw _ => None end = Some 3)
    by (vm_compute; reflexivity).
  destruct (consolidateStats function_hash id 7 (0%nat, "get") cpu_start) as [[n|e] s'] eqn:Er; [|discriminate Hv].
  injection Hv as Hn. split; [exact Hn|].
  destruct (cpu_time_reported_again function_hash id 7 (0%nat, "get") cpu_bound n cpu_start s' eq_refl Er) as (x' & Hx & Hm & Ha).
  exists x'. split; [exact Hx|]. split; [exact (Hm NumCalls)|]. rewrite Ha. apply list_elem_of_fmap.
  exists (".total_cpu_us", (900, 3)). split; [reflexivity|]. do 5 right. left.
Defined.
End Example_.
