(* ===== verification/TLStats.v ===== *)
(** * TLStats: the thread-local statistics themselves

    [TLTimeseriesT], [TLHistogramT] and [TLCounterT] of
    [src/fb303/ThreadLocalStats.h] and [ThreadLocalStats-inl.h]: construction,
    recording, aggregation into [ServiceData], moves and destruction, and the
    containers.  [ThreadLocalStats] models how concurrent threads register a
    stat; here the operations run one after the other, so the registry lock is
    always free and the pending list empty.  Stats and containers live in stores
    and are named by addresses; a [TLStatLink] is the address of its container,
    whose [alive] says whether [container_] is still set. *)
From S2P Require Import Prelude RegexUtil FlatCounters CallbackValuesMap NamedCallbacks TLStatsLockTraits ExportType Timeseries TimeseriesExporter HistogramExporter HistogramNames ExportedStatMap ExportedHistogramMap QuantileStat QuantileStatMap ServiceOptions ServiceData.
From Stdlib Require Import ZArith Lia Ascii String.
From stdpp Require Import base gmap sets list strings.
Import ServiceData.

Open Scope Z_scope.
Open Scope fb303_scope.
Import LegacyClock.

(** ** What the stats rely on of [LockTraits]

    [value_] of a counter and of a time series, for counters of 64 bits. *)
Class LockTraits := {
  tl_counter : Type;
  ctr_new : tl_counter;
  ctr_increment : Z -> tl_counter -> outcome tl_counter;
  ctr_reset : tl_counter -> Z * tl_counter;
  ctr_value : tl_counter -> Z;
  tl_series : Type;
  ser_new : tl_series;
  ser_addValue : Z -> Z -> tl_series -> tl_series;        (** value, count *)
  ser_reset : tl_series -> (Z * Z) * tl_series;           (** count, sum *)

  lt_new : ctr_value ctr_new = 0;
  lt_increment : forall n c c', ctr_increment n c = Ret c' ->
    wraps 64 (ctr_value c') = wraps 64 (ctr_value c + n);
  lt_reset : forall c, (ctr_reset c).1 = ctr_value c /\ ctr_value (ctr_reset c).2 = 0
}.

(** [folly::Histogram<int64_t>], as far as [TLHistogramT] uses it. *)
Class SimpleHistogram (HV : Type) := {
  sh_make : Z -> Z -> Z -> outcome HV;                    (** bucket size, min, max *)
  sh_addValue : Z -> HV -> HV;
  sh_addRepeatedValue : Z -> Z -> HV -> HV;
  sh_clear : HV -> HV;
  sh_getBucketSize : HV -> Z;
  sh_getMin : HV -> Z;
  sh_getMax : HV -> Z
}.

Module TLStats.
Section Model.
Context {M : Type} `{RegexMatchCache M} {TS Hg HV : Type} `{FollyHistogram TS Hg HV} `{SimpleHistogram HV}.
Context {E U US Getter Setter W : Type} (hash : string -> Z) `{LockTraits}.
Abbreviation service := (ServiceData.state M TS Hg E U US Getter Setter W).

(** ** State *)
Inductive data :=
  | TLTimeseries (globalStat : option nat) (value : tl_series)
  | TLHistogram (globalStat : option nat) (simpleHistogram : HV) (dirty : bool)
  | TLCounter (value : tl_counter).
Record tlstat := Stat {
  link_ : nat;
  isLinked : bool;
  name_ : option string;                 (** null once moved from *)
  contents : data
}.
Record container := Container {
  alive : bool;
  tlStats_ : gset nat;
  tlStatsEmpty_ : bool;
  updateGlobalStatsOnRead_ : bool
}.
Record tls := TLS { stats : gmap nat tlstat; containers : gmap nat container }.
Abbreviation state := (tls * service)%type.

Definition name (x : tlstat) : string := default "" (name_ x).
Definition set_linked (b : bool) (x : tlstat) : tlstat := Stat (link_ x) b (name_ x) (contents x).
Definition set_name (n : option string) (x : tlstat) : tlstat := Stat (link_ x) (isLinked x) n (contents x).
Definition set_link (l : nat) (x : tlstat) : tlstat := Stat l (isLinked x) (name_ x) (contents x).
Definition set_contents (d : data) (x : tlstat) : tlstat := Stat (link_ x) (isLinked x) (name_ x) d.

Definition with_stats (m : gmap nat tlstat) (s : tls) : tls := TLS m (containers s).
Definition with_containers (m : gmap nat container) (s : tls) : tls := TLS (stats s) m.

(** ** Access *)
Definition modify_tls (f : tls -> tls) : SE state unit := fun s => (Ret tt, (f s.1, s.2)).
Definition on_service {A} (f : SE service A) : SE state A := fun s => let '(r, d) := f s.2 in (r, (s.1, d)).
Definition get_stat (p : nat) : SE state tlstat := fun s =>
  match stats s.1 !! p with Some x => (Ret x, s) | None => (Throw undefined_behaviour, s) end.
Definition put_stat (p : nat) (x : tlstat) : SE state unit := modify_tls (fun s => with_stats (<[p := x]> (stats s)) s).
Definition update_stat (p : nat) (f : tlstat -> tlstat) : SE state unit := let* x := get_stat p in put_stat p (f x).
(** The [TLStatLink] outlives its container. *)
Definition get_link (c : nat) : SE state container := fun s =>
  match containers s.1 !! c with Some x => (Ret x, s) | None => (Throw undefined_behaviour, s) end.
Definition put_link (c : nat) (x : container) : SE state unit :=
  modify_tls (fun s => with_containers (<[c := x]> (containers s)) s).

(** What other threads do to the service's maps between two lock regions. *)
Context (gap_flat : RegexUtil.syncmap (M := M) (V := Z) -> RegexUtil.syncmap (M := M) (V := Z)).
Abbreviation dynamic_counters := (CallbackValuesMap.cvm (counter_callback U) M).
Abbreviation dynamic_strings := (CallbackValuesMap.cvm (string_callback US) M).
Context (gap_stats : ExportedStatMap.statmap TS * dynamic_counters -> ExportedStatMap.statmap TS * dynamic_counters).
Context (gap_hists : ExportedHistogramMap.histmap TS Hg * (dynamic_counters * dynamic_strings) ->
                     ExportedHistogramMap.histmap TS Hg * (dynamic_counters * dynamic_strings)).
Context (time_source : nat -> Z).
#[local] Instance counters_registry : NamedCallbacks dynamic_counters (counter_callback U) := callback_values_map hash.
#[local] Instance strings_registry : NamedCallbacks dynamic_strings (string_callback US) := callback_values_map hash.

(** [TimePoint{std::chrono::seconds(get_legacy_stats_time())}], in milliseconds. *)
Definition legacy_now : SE state Z :=
  let* t := on_service (on_clock (get_legacy_stats_time time_source)) in se_ret (t * milliseconds).

(** ** Aggregating one stat *)
Definition when (b : bool) (m : SE state unit) : SE state unit := if b then m else se_ret tt.
Definition lock_global (p : option nat) : SE state nat :=
  match p with
  | Some a => let* _ := on_service (on_stats (ExportedStatMap.deref a)) in se_ret a
  | None => se_throw undefined_behaviour
  end.
Definition aggregate_series (p : nat) (x : tlstat) (globalStat : option nat) (value : tl_series) (now : Z) : SE state unit :=
  let '((currentCount, currentSum), value') := ser_reset value in
  put_stat p (set_contents (TLTimeseries globalStat value') x) >>>
  let* link := get_link (link_ x) in
  let update := negb (updateGlobalStatsOnRead_ link) in
  if (currentCount =? 0) && negb update then se_ret tt
  else
    let* a := lock_global globalStat in
    when (negb (currentCount =? 0))
      (on_service (on_stats (ExportedStatMap.locked (ts_addValueAggregated now currentSum currentCount) a))) >>>
    when update (on_service (on_stats (ExportedStatMap.locked (ts_update now) a))).
Definition aggregate_histogram (p : nat) (x : tlstat) (globalStat : option nat) (h : HV) (dirty : bool) (now : Z) : SE state unit :=
  if negb dirty then se_ret tt
  else
    on_service (on_hists (ExportedHistogramMapImpl.addValues (ExportedHistogramMapImpl.Lockable globalStat)
      (duration_cast milliseconds seconds now) h)) >>>
    put_stat p (set_contents (TLHistogram globalStat (sh_clear h) false) x).
Definition aggregate_counter (p : nat) (x : tlstat) (value : tl_counter) : SE state unit :=
  let '(delta, value') := ctr_reset value in
  put_stat p (set_contents (TLCounter value') x) >>>
  if delta =? 0 then se_ret tt
  else let* _ := on_service (ServiceData.incrementCounter gap_flat (name x) delta) in se_ret tt.
Definition aggregate_stat (p : nat) (now : Z) : SE state unit :=
  let* x := get_stat p in
  match contents x with
  | TLTimeseries g v => aggregate_series p x g v now
  | TLHistogram g h dirty => aggregate_histogram p x g h dirty now
  | TLCounter v => aggregate_counter p x v
  end.

(** ** Registration *)
Definition link (p : nat) : SE state unit :=
  let* x := get_stat p in
  if isLinked x then se_ret tt
  else
    let* c := get_link (link_ x) in
    (if alive c then
       if bool_decide (p ∈ tlStats_ c) then se_throw check_failed
       else
         let l := {[ p ]} ∪ tlStats_ c in
         put_link (link_ x) (Container true l (if Nat.eqb (size l) 1 then false else tlStatsEmpty_ c) (updateGlobalStatsOnRead_ c))
     else se_ret tt) >>>
    update_stat p (set_linked true).
(** A last aggregation, then out of the container. *)
Definition unlink (p : nat) : SE state unit :=
  let* x := get_stat p in
  if negb (isLinked x) then se_ret tt
  else
    let* now := legacy_now in
    aggregate_stat p now >>>
    let* c := get_link (link_ x) in
    (if alive c then
       if bool_decide (p ∈ tlStats_ c) then
         let l := tlStats_ c ∖ {[ p ]} in
         put_link (link_ x) (Container true l (if Nat.eqb (size l) 0 then true else tlStatsEmpty_ c) (updateGlobalStatsOnRead_ c))
       else se_throw check_failed
     else se_ret tt) >>>
    update_stat p (set_linked false).

(** [withContainerChecked]: the error names the stat. *)
Definition container_gone (x : tlstat) (errorMsg : string) : exn :=
  runtime_error (name x +:+ ": ThreadLocalStats container has already been destroyed while " +:+ errorMsg).
Definition withContainerChecked {A} (p : nat) (errorMsg : string) (fn : SE state A) : SE state A :=
  let* x := get_stat p in
  let* c := get_link (link_ x) in
  if alive c then fn else se_throw (container_gone x errorMsg).

(** ** Construction; the address is new *)
Definition new_stat (c : nat) (n : option string) (d : data) : SE state nat := fun s =>
  let p := fresh (dom (stats s.1)) in
  (Ret p, (with_stats (<[p := Stat c false n d]> (stats s.1)) s.1, s.2)).
Definition export_series (p : nat) (exportType : ExportType) : SE state unit :=
  withContainerChecked p "exporting a stat" (se_ret tt) >>>
  let* x := get_stat p in
  let* c := get_link (link_ x) in
  match contents x with
  | TLTimeseries g _ =>
      on_service (on_stats (ExportedStatMapImpl.exportStat StatCounter
        (ExportedStatMapImpl.Lockable g) (name x) exportType (updateGlobalStatsOnRead_ c)))
  | _ => se_throw undefined_behaviour
  end.
Fixpoint exportStats (p : nat) (types : list ExportType) : SE state unit :=
  match types with [] => se_ret tt | t :: types' => export_series p t >>> exportStats p types' end.

(** [levels] is the prototype of the constructors that give the levels. *)
Definition new_timeseries (c : nat) (n : string) (levels : option TS) (types : list ExportType) : SE state nat :=
  let* r := on_service (on_stats (ExportedStatMapImpl.getLockableStatNoExport gap_stats n levels)) in
  let* p := new_stat c (Some n) (TLTimeseries (ExportedStatMapImpl.stat_ r.1) ser_new) in
  link p >>> exportStats p types >>> se_ret p.
(** [TLTimeseriesT(stats, other)] *)
Definition copy_timeseries (c : nat) (other : nat) : SE state nat :=
  let* x := get_stat other in
  match contents x with
  | TLTimeseries (Some g) _ =>
      let* p := new_stat c (Some (name x)) (TLTimeseries (Some g) ser_new) in link p >>> se_ret p
  | TLTimeseries None _ => se_throw check_failed
  | _ => se_throw undefined_behaviour
  end.

Definition lift {A} (o : outcome A) : SE state A := fun s => (o, s).
Definition get_histogram (n : string) (h : HV) : SE service (option nat) :=
  let* l := on_hists (ExportedHistogramMapImpl.getOrCreateLockableHistogram HistogramString gap_hists n
    (fun s => match construct HistogramMinuteTenMinuteHourTimeSeries with
              | Ret t => (th_make (sh_getBucketSize h) (sh_getMin h) (sh_getMax h) t, s)
              | Throw e => (Throw e, s)
              end)) in
  se_ret (ExportedHistogramMapImpl.hist_ l).
(** [getHistogramMap(errorMsg)], then a call on it under the stat's name. *)
Definition on_histogram_map {A} (p : nat) (errorMsg : string) (f : string -> SE service A) : SE state A :=
  let* x := get_stat p in withContainerChecked p errorMsg (on_service (f (name x))).
Definition exportPercentile (p : nat) (percentile : Z) (more : list Z) : SE state bool :=
  on_histogram_map p "exporting a percentile" (fun n =>
    on_hists (ExportedHistogramMap.exportPercentiles HistogramCounter n percentile more)).
Definition unexportPercentile (p : nat) (percentile : Z) (more : list Z) : SE state unit :=
  on_histogram_map p "unexporting a percentile" (fun n =>
    on_hists (ExportedHistogramMap.unexportPercentiles n percentile more)).
Definition exportStat (p : nat) (it : HistogramNames.item) (more : list HistogramNames.item) : SE state bool :=
  on_histogram_map p "exporting a stat" (fun n => on_hists (ExportedHistogramMap.exportStats HistogramCounter n it more)).
Definition unexportStat (p : nat) (it : HistogramNames.item) (more : list HistogramNames.item) : SE state unit :=
  on_histogram_map p "unexporting a percentiles" (fun n => on_hists (ExportedHistogramMap.unexportStats n it more)).
(** The exports come before the registration. *)
Definition new_histogram (c : nat) (n : string) (bucketWidth min max : Z) (exports : list HistogramNames.item) : SE state nat :=
  let* h := lift (sh_make bucketWidth min max) in
  let* g := on_service (get_histogram n h) in
  let* p := new_stat c (Some n) (TLHistogram g h false) in
  (match exports with
   | [] => se_ret tt
   | it :: more => let* _ := exportStat p it more in se_ret tt
   end) >>>
  link p >>> se_ret p.
(** [TLHistogramT(stats, name, globalStat)] *)
Definition new_histogram_from (c : nat) (n : string) (globalStat : option nat) : SE state nat :=
  let l := ExportedHistogramMapImpl.Lockable globalStat in
  let* w := on_service (on_hists (ExportedHistogramMapImpl.getBucketSize l)) in
  let* lo := on_service (on_hists (ExportedHistogramMapImpl.getMin l)) in
  let* hi := on_service (on_hists (ExportedHistogramMapImpl.getMax l)) in
  let* h := lift (sh_make w lo hi) in
  let* p := new_stat c (Some n) (TLHistogram globalStat h false) in
  link p >>> se_ret p.
Definition new_counter (c : nat) (n : string) : SE state nat :=
  let* p := new_stat c (Some n) (TLCounter ctr_new) in link p >>> se_ret p.

(** ** Recording *)
Definition addValue (p : nat) (value : Z) : SE state unit :=
  let* x := get_stat p in
  match contents x with
  | TLTimeseries g v => put_stat p (set_contents (TLTimeseries g (ser_addValue value 1 v)) x)
  | TLHistogram g h _ => put_stat p (set_contents (TLHistogram g (sh_addValue value h) true) x)
  | TLCounter _ => se_throw undefined_behaviour
  end.
Definition addValueAggregated (p : nat) (value nsamples : Z) : SE state unit :=
  let* x := get_stat p in
  match contents x with
  | TLTimeseries g v => put_stat p (set_contents (TLTimeseries g (ser_addValue value nsamples v)) x)
  | _ => se_throw undefined_behaviour
  end.
Definition addRepeatedValue (p : nat) (value nsamples : Z) : SE state unit :=
  let* x := get_stat p in
  match contents x with
  | TLHistogram g h _ => put_stat p (set_contents (TLHistogram g (sh_addRepeatedValue value nsamples h) true) x)
  | _ => se_throw undefined_behaviour
  end.
Definition incrementValue (p : nat) (amount : Z) : SE state unit :=
  let* x := get_stat p in
  match contents x with
  | TLCounter v => let* v' := lift (ctr_increment amount v) in put_stat p (set_contents (TLCounter v') x)
  | _ => se_throw undefined_behaviour
  end.

(** ** Moves and destruction *)

(** Move construction: the new stat takes link, name and global stat. *)
Definition moved_contents (d : data) : SE state data :=
  match d with
  | TLTimeseries g _ => se_ret (TLTimeseries g ser_new)
  | TLHistogram g h _ =>
      let* h' := lift (sh_make (sh_getBucketSize h) (sh_getMin h) (sh_getMax h)) in se_ret (TLHistogram g h' false)
  | TLCounter _ => se_ret (TLCounter ctr_new)
  end.
(** What [std::move] leaves of the global stat: null. *)
Definition moved_from (d : data) : data :=
  match d with
  | TLTimeseries _ v => TLTimeseries None v
  | TLHistogram _ h b => TLHistogram None h b
  | TLCounter v => TLCounter v
  end.
Definition move_construct (other : nat) : SE state nat :=
  unlink other >>>
  let* y := get_stat other in
  let* d := moved_contents (contents y) in
  let* p := new_stat (link_ y) (name_ y) d in
  put_stat other (set_contents (moved_from (contents y)) (set_name None y)) >>>
  link p >>> se_ret p.

(** The contents of the two stats after [moveContents]: the global stats are
    swapped. *)
Definition move_contents (this other : data) : SE state (data * data) :=
  match this, other with
  | TLTimeseries g v, TLTimeseries g' v' => se_ret (TLTimeseries g' v, TLTimeseries g v')
  | TLHistogram g h b, TLHistogram g' h' b' =>
      let* h1 := lift (sh_make (sh_getBucketSize h') (sh_getMin h') (sh_getMax h')) in
      se_ret (TLHistogram g' h1 b, TLHistogram g h' b')
  | TLCounter v, TLCounter v' => se_ret (TLCounter v, TLCounter v')
  | _, _ => se_throw undefined_behaviour
  end.
Definition move_assign (this other : nat) : SE state unit :=
  if Nat.eqb this other then se_ret tt
  else
    unlink this >>> unlink other >>>
    let* x := get_stat this in
    let* y := get_stat other in
    put_stat this (set_link (link_ y) (set_name (name_ y) x)) >>>
    put_stat other (set_name None y) >>>
    let* d := move_contents (contents x) (contents y) in
    update_stat this (set_contents d.1) >>> update_stat other (set_contents d.2) >>>
    link this.

Definition destroy (p : nat) : SE state unit :=
  unlink p >>> modify_tls (fun s => with_stats (delete p (stats s)) s).

(** ** Containers *)
Definition new_container (updateOnRead : bool) : SE state nat := fun s =>
  let c := fresh (dom (containers s.1)) in
  (Ret c, (with_containers (<[c := Container true ∅ true updateOnRead]> (containers s.1)) s.1, s.2)).
Definition destroy_container (c : nat) : SE state unit :=
  let* x := get_link c in put_link c (Container false ∅ true (updateGlobalStatsOnRead_ x)).
Fixpoint aggregate_each (ps : list nat) (now : Z) : SE state unit :=
  match ps with [] => se_ret tt | p :: ps' => aggregate_stat p now >>> aggregate_each ps' now end.
(** [aggregate]: how many stats. *)
Definition aggregate (c : nat) : SE state nat :=
  let* x := get_link c in
  if tlStatsEmpty_ x then se_ret O
  else
    let* now := legacy_now in
    aggregate_each (elements (tlStats_ x)) now >>>
    let* x' := get_link c in se_ret (size (tlStats_ x')).
End Model.
End TLStats.
