(* ===== verification/TLStatsLedger.v ===== *)
(** * TLStatsLedger: what no operation on a thread-local stat may lose

    A ledger says what is counted in the stats of a thread and in [ServiceData]
    together: a relation between states that no operation but recording may leave,
    and when a stat holds nothing of it.  Registration, moves, destruction and
    aggregation are followed once, for every ledger; [TLStatsConserve] is the one
    of the counters and [TLStatsSeries] the one of the time series. *)
From S2P Require Import Prelude RegexUtil FlatCounters CallbackValuesMap NamedCallbacks TLStatsLockTraits ExportType Timeseries TimeseriesExporter HistogramExporter HistogramNames ExportedStatMap ExportedHistogramMap QuantileStat QuantileStatMap ServiceOptions ServiceData TLStats.
From Stdlib Require Import ZArith Lia Ascii String.
From stdpp Require Import base gmap sets list strings.
Import TLStats.

Open Scope Z_scope.
Open Scope fb303_scope.

Section Effects.
Context {M : Type} `{RegexMatchCache M} {TS Hg HV : Type} `{FollyHistogram TS Hg HV} `{SimpleHistogram HV}.
Context {E U US Getter Setter W : Type} `{LockTraits}.
Abbreviation service := (ServiceData.state M TS Hg E U US Getter Setter W).
Abbreviation state := (tls (HV := HV) * service)%type.

(** What happened to one stat, the others being as before. *)
Record at_stat (R : state -> state -> Prop) (p : nat) (x x' : tlstat) (s s' : state) : Prop := {
  as_before : stats s.1 !! p = Some x;
  as_after : stats s'.1 !! p = Some x';
  as_others : forall q, q <> p -> stats s'.1 !! q = stats s.1 !! q;
  as_kept : R s s'
}.
Definition same_meta (x x' : tlstat (HV := HV)) : Prop :=
  link_ x' = link_ x /\ isLinked x' = isLinked x /\ name_ x' = name_ x.
(** An aggregation of one stat. *)
Definition emptied (R : state -> state -> Prop) (void : data -> Prop) (p : nat) (s s' : state) : Prop :=
  exists x x', at_stat R p x x' s s' /\ same_meta x x' /\ void (contents x') /\ containers s'.1 = containers s.1.

Lemma at_stat_trans R `{!PreOrder R} p x1 x2 x3 s1 s2 s3 :
  at_stat R p x1 x2 s1 s2 -> at_stat R p x2 x3 s2 s3 -> at_stat R p x1 x3 s1 s3.
Proof.
  intros [B1 A1 O1 C1] [B2 A2 O2 C2]. split; [done|done| |by etrans]. intros q Hq. by rewrite O2, O1.
Qed.
Lemma at_stat_refl R `{!PreOrder R} p x s : stats s.1 !! p = Some x -> at_stat R p x x s s.
Proof. by split. Qed.
Lemma at_stat_then (R : state -> state -> Prop) `{!PreOrder R} p x x' s s1 s2 :
  at_stat R p x x' s s1 -> stats s2.1 = stats s1.1 -> R s1 s2 -> at_stat R p x x' s s2.
Proof. intros [B A O C] E1 HR. split; rewrite ?E1; try done. by etrans. Qed.
Lemma at_stat_put (R : state -> state -> Prop) p x x' s :
  stats s.1 !! p = Some x -> R s (put_stat p x' s).2 -> at_stat R p x x' s (put_stat p x' s).2.
Proof.
  intros Hp HR. split; [done|simpl; by rewrite lookup_insert_eq|intros q Hq; simpl; by rewrite lookup_insert_ne|done].
Qed.

(** What [update_stat] does when it returns. *)
Lemma update_stat_eq p f (s s' : state) a : update_stat p f s = (Ret a, s') ->
  exists x, stats s.1 !! p = Some x /\ s' = (put_stat p (f x) s).2.
Proof.
  unfold update_stat, se_bind, get_stat. destruct (stats s.1 !! p) as [x|]; [|done]. intros [= _ <-]. by exists x.
Qed.
Lemma get_stat_eq p (s s' : state) x : get_stat p s = (Ret x, s') -> stats s.1 !! p = Some x /\ s' = s.
Proof. unfold get_stat. destruct (stats s.1 !! p); [|done]. by intros [= <- <-]. Qed.
Lemma get_link_eq c (s s' : state) x : get_link c s = (Ret x, s') -> s' = s.
Proof. unfold get_link. destruct (containers s.1 !! c); [|done]. by intros [= _ <-]. Qed.

(** ** Ledgers *)
Context {hash : string -> Z}.
Context {gap_stats : ExportedStatMap.statmap TS * CallbackValuesMap.cvm (counter_callback U) M ->
                     ExportedStatMap.statmap TS * CallbackValuesMap.cvm (counter_callback U) M}.
Class Ledger := {
  void : data (HV := HV) -> Prop;                (** holds nothing of what is counted *)
  sound : state -> Prop;
  kept : state -> state -> Prop;                 (** nothing of it was lost or added *)
  quiet : service -> service -> Prop;            (** [ServiceData]'s side of it was not touched *)

  kept_preorder : PreOrder kept;
  quiet_preorder : PreOrder quiet;
  kept_sound : forall s s', sound s -> kept s s' -> sound s';
  kept_quiet : forall s s', stats s'.1 = stats s.1 -> quiet s.2 s'.2 -> kept s s';
  kept_meta : forall s p x x', stats s.1 !! p = Some x -> contents x' = contents x -> name_ x' = name_ x ->
    kept s (put_stat p x' s).2;
  kept_void : forall s p x x', stats s.1 !! p = Some x -> void (contents x) -> void (contents x') -> kept s (put_stat p x' s).2;
  kept_insert : forall (s : state) p x, stats s.1 !! p = None -> void (contents x) ->
    kept s (with_stats (<[p := x]> (stats s.1)) s.1, s.2);
  kept_delete : forall (s : state) p x, stats s.1 !! p = Some x -> void (contents x) ->
    kept s (with_stats (delete p (stats s.1)) s.1, s.2);
  void_counter : void (TLCounter ctr_new);
  void_series : forall g, void (TLTimeseries g ser_new);
  void_histogram : forall g h dirty, void (TLHistogram g h dirty);
  void_retarget : forall g g' v, void (TLTimeseries g v) -> void (TLTimeseries g' v);
  aggregate_kept : forall p now s s', sound s -> aggregate_stat (fun c => c) p now s = (Ret tt, s') -> emptied kept void p s s';
  quiet_clock : forall A (f : SE _ A) d, quiet d (ServiceData.on_clock f d).2;
  quiet_hists : forall A (f : SE _ A) d, quiet d (ServiceData.on_hists f d).2;
  quiet_create : forall n levels d,
    quiet d (ServiceData.on_stats (ExportedStatMapImpl.getLockableStatNoExport gap_stats n levels) d).2;
  quiet_export : forall l n t u d,
    quiet d (ServiceData.on_stats (@ExportedStatMapImpl.exportStat TS _ _ _ (callback_values_map hash) StatCounter l n t u) d).2
}.
End Effects.
#[export] Existing Instances kept_preorder quiet_preorder.

(** ** Every ledger is kept *)
Section Operations.
Context {M : Type} `{RegexMatchCache M} {TS Hg HV : Type} `{FollyHistogram TS Hg HV} `{SimpleHistogram HV}.
Context {E U US Getter Setter W : Type} {hash : string -> Z} `{LockTraits}.
Abbreviation service := (ServiceData.state M TS Hg E U US Getter Setter W).
Abbreviation state := (tls (HV := HV) * service)%type.
Context {gap_stats : ExportedStatMap.statmap TS * CallbackValuesMap.cvm (counter_callback U) M ->
                     ExportedStatMap.statmap TS * CallbackValuesMap.cvm (counter_callback U) M}.
Context (gap_hists : ExportedHistogramMap.histmap TS Hg *
                       (CallbackValuesMap.cvm (counter_callback U) M * CallbackValuesMap.cvm (string_callback US) M) ->
                     ExportedHistogramMap.histmap TS Hg *
                       (CallbackValuesMap.cvm (counter_callback U) M * CallbackValuesMap.cvm (string_callback US) M)).
Context (time_source : nat -> Z).
Context {L : Ledger (E := E) (US := US) (Getter := Getter) (Setter := Setter) (W := W) (hash := hash) (gap_stats := gap_stats)}.
Abbreviation at_stat := (at_stat kept).

(** A stat that is not linked holds nothing. *)
Definition unlinked_void (s : state) : Prop := forall p x, stats s.1 !! p = Some x -> isLinked x = false -> void (contents x).
Definition invariant (s : state) : Prop := sound s /\ unlinked_void s.
Definition keeps {A} (m : SE state A) : Prop := forall s a s', invariant s -> m s = (Ret a, s') -> invariant s' /\ kept s s'.

Lemma keeps_return {A} (a : A) : keeps (se_ret a).
Proof. by intros s b s' Hi [= _ <-]. Qed.
Lemma ledger_keeps_throw {A} e : keeps (A := A) (se_throw e).
Proof. by intros s b s' _ ?. Qed.
Lemma keeps_then {A B} (m : SE state A) (k : A -> SE state B) : keeps m -> (forall a, keeps (k a)) -> keeps (se_bind m k).
Proof.
  intros Hm Hk s b s' Hi (a & s1 & E1 & E2)%se_bind_inv. destruct (Hm s a s1 Hi E1) as [Hi1 K1].
  destruct (Hk a s1 b s' Hi1 E2) as [Hi' K2]. split; [done|by etrans].
Qed.

(** Code that changes no stat and is quiet. *)
Definition beside {A} (m : SE state A) : Prop := forall s a s', m s = (Ret a, s') -> stats s'.1 = stats s.1 /\ quiet s.2 s'.2.
Lemma beside_return {A} (a : A) : beside (se_ret a).
Proof. by intros s b s' [= _ <-]. Qed.
Lemma beside_throw {A} e : beside (A := A) (se_throw e).
Proof. by intros s b s' ?. Qed.
Lemma beside_then {A B} (m : SE state A) (k : A -> SE state B) : beside m -> (forall a, beside (k a)) -> beside (se_bind m k).
Proof.
  intros Hm Hk s b s' (a & s1 & E1 & E2)%se_bind_inv. destruct (Hm s a s1 E1) as [F1 Q1], (Hk a s1 b s' E2) as [F2 Q2].
  split; [congruence|by etrans].
Qed.
Lemma beside_service {A} (f : SE service A) : (forall d, quiet d (f d).2) -> beside (on_service f).
Proof. intros Hf s a s'. unfold on_service. specialize (Hf s.2). destruct (f s.2) as [r d]. by intros [= _ <-]. Qed.
Lemma beside_get_stat p : beside (get_stat p).
Proof. by intros s x s' [_ ->]%get_stat_eq. Qed.
Lemma beside_get_link c : beside (get_link c).
Proof. by intros s x s' ->%get_link_eq. Qed.
Lemma beside_put_link c x : beside (put_link c x).
Proof. by intros s a s' [= _ <-]. Qed.
Lemma beside_lift {A} (o : outcome A) : beside (TLStats.lift o).
Proof. by intros s a s' [= _ <-]. Qed.
Lemma beside_keeps {A} (m : SE state A) : beside m -> keeps m.
Proof.
  intros Hm s a s' [Hs Hu] [F Q]%Hm. assert (K : kept s s') by by apply kept_quiet.
  split; [|done]. split; [by apply (kept_sound s)|]. intros p x. rewrite F. apply Hu.
Qed.
Create HintDb ledger.
#[local] Hint Resolve keeps_return ledger_keeps_throw keeps_then beside_return beside_throw beside_then beside_service beside_get_stat
  beside_get_link beside_put_link beside_lift beside_keeps quiet_clock quiet_hists quiet_create quiet_export : ledger.

Lemma beside_legacy_now : beside (legacy_now (HV := HV) time_source).
Proof. unfold legacy_now. auto with ledger. Qed.
Lemma beside_checked {A} p msg (fn : SE state A) : beside fn -> beside (withContainerChecked p msg fn).
Proof. intros Hf. apply beside_then; [auto with ledger|]. intros x. apply beside_then; [auto with ledger|]. intros c. destruct (alive c); auto with ledger. Qed.
#[local] Hint Resolve beside_legacy_now beside_checked : ledger.

(** *** Registration *)
Lemma link_kept p (s s' : state) : link p s = (Ret tt, s') ->
  exists x, stats s.1 !! p = Some x /\ at_stat p x (set_linked true x) s s'.
Proof.
  unfold link. intros (x & s1 & [Hp ->]%get_stat_eq & El)%se_bind_inv. exists x. split; [done|].
  destruct (isLinked x) eqn:Hl.
  { injection El as <-. replace (set_linked true x) with x by (destruct x; simpl in *; by subst). by apply at_stat_refl; [apply _|]. }
  apply se_bind_inv in El as (c & s1 & ->%get_link_eq & El). apply se_bind_inv in El as (u & s2 & E2 & El).
  assert (Hn : stats s2.1 = stats s.1 /\ s2.2 = s.2).
  { destruct (alive c); [case_bool_decide; [done|]|]; by injection E2 as _ <-. }
  destruct Hn as [F2 G2]. apply update_stat_eq in El as (x2 & Hx2 & ->). rewrite F2, Hp in Hx2. injection Hx2 as <-.
  apply (at_stat_trans _ p x x _ s s2).
  - apply (at_stat_then _ p x x s s); [by apply at_stat_refl; [apply _|]|done|]. apply kept_quiet; [done|by rewrite G2].
  - apply at_stat_put; [by rewrite F2|]. apply (kept_meta s2 p x); [by rewrite F2|done..].
Qed.

Definition detached (p : nat) (s s' : state) : Prop :=
  exists x x', at_stat p x x' s s' /\ link_ x' = link_ x /\ name_ x' = name_ x /\ isLinked x' = false /\ void (contents x').
Abbreviation unlink := (TLStats.unlink (fun c => c) time_source).
Lemma unlink_kept p (s s' : state) : invariant s -> unlink p s = (Ret tt, s') -> detached p s s'.
Proof.
  intros [Hs Hu]. unfold TLStats.unlink. intros (x & s1 & [Hp ->]%get_stat_eq & El)%se_bind_inv.
  destruct (isLinked x) eqn:Hl; cbn [negb] in El.
  2: { injection El as <-. exists x, x. split; [by apply at_stat_refl; [apply _|]|]. split_and!; try done. by apply (Hu p). }
  apply se_bind_inv in El as (now & s1 & E1 & El). destruct (beside_legacy_now s now s1 E1) as [F1 Q1].
  assert (K1 : kept s s1) by by apply kept_quiet.
  apply se_bind_inv in El as ([] & s2 & E2 & El).
  destruct (aggregate_kept p now s1 s2 (kept_sound s s1 Hs K1) E2) as (y & x2 & Ha & (M1 & M2 & M3) & Hz & _).
  assert (Ey : y = x) by (pose proof (as_before _ _ _ _ _ _ Ha) as B; rewrite F1, Hp in B; by injection B). subst y.
  apply se_bind_inv in El as (c & s3 & ->%get_link_eq & El). apply se_bind_inv in El as (u & s4 & E4 & El).
  assert (Hn : stats s4.1 = stats s2.1 /\ s4.2 = s2.2).
  { destruct (alive c); [case_bool_decide; [|done]|]; by injection E4 as _ <-. }
  destruct Hn as [F4 G4]. apply update_stat_eq in El as (x4 & Hx4 & ->).
  rewrite F4, (as_after _ _ _ _ _ _ Ha) in Hx4. injection Hx4 as <-.
  exists x, (set_linked false x2). split; [|split_and!; done].
  apply (at_stat_trans _ p x x2 _ s s4).
  - apply (at_stat_trans _ p x x x2 s s1).
    + apply (at_stat_then _ p x x s s); [by apply at_stat_refl; [apply _|]|done|done].
    + apply (at_stat_then _ p x x2 s1 s2); [done|done|]. apply kept_quiet; [done|by rewrite G4].
  - assert (Hp4 : stats s4.1 !! p = Some x2) by by rewrite F4, (as_after _ _ _ _ _ _ Ha).
    apply at_stat_put; [done|]. by apply (kept_meta s4 p x2).
Qed.

(** One stat was rewritten; linked or void, the invariant holds. *)
Lemma at_stat_invariant p x x' (s s' : state) :
  invariant s -> at_stat p x x' s s' -> (isLinked x' = false -> void (contents x')) -> invariant s' /\ kept s s'.
Proof.
  intros [Hs Hu] [B A O C] Hx. split; [|done]. split; [by apply (kept_sound s)|]. intros q y Hq Hl.
  destruct (decide (q = p)) as [->|Hne]; [|rewrite O in Hq by done; by apply (Hu q y)].
  rewrite A in Hq. injection Hq as <-. auto.
Qed.
Lemma keeps_link p : keeps (link p).
Proof.
  intros s [] s' Hi El. destruct (link_kept p s s' El) as (x & Hp & Ha). by apply (at_stat_invariant p x (set_linked true x)).
Qed.
Lemma detached_invariant p (s s' : state) : invariant s -> detached p s s' -> invariant s' /\ kept s s'.
Proof. intros Hi (x & x' & Ha & _ & _ & _ & Hz). by apply (at_stat_invariant p x x'). Qed.
Lemma keeps_aggregate_stat p now : keeps (aggregate_stat (fun c => c) p now).
Proof.
  intros s [] s' Hi Ea. destruct (aggregate_kept p now s s' (proj1 Hi) Ea) as (x & x' & Ha & _ & Hz & _). by apply (at_stat_invariant p x x').
Qed.

(** *** Stats that hold nothing *)
Definition void_at (p : nat) (s : state) : Prop := exists x, stats s.1 !! p = Some x /\ void (contents x).
Lemma detached_void p s s' : detached p s s' -> void_at p s'.
Proof. intros (x & x' & [_ A _ _] & _ & _ & _ & Hz). by exists x'. Qed.
Lemma detached_others p q s s' : detached p s s' -> q <> p -> void_at q s -> void_at q s'.
Proof. intros (x & x' & [_ _ O _] & _) Hq (y & Hy & Hz). exists y. by rewrite O. Qed.
Lemma put_void p x' (s : state) :
  invariant s -> void_at p s -> void (contents x') ->
  let s' := (put_stat p x' s).2 in (invariant s' /\ kept s s') /\ (forall q, void_at q s -> void_at q s').
Proof.
  intros Hi (x & Hp & Hz) Hz'. split.
  - apply (at_stat_invariant p x x'); [done| |done]. apply at_stat_put; [done|]. by apply (kept_void s p x).
  - intros q (y & Hy & Hzy). unfold void_at. simpl. destruct (decide (q = p)) as [->|Hne].
    + exists x'. by rewrite lookup_insert_eq.
    + exists y. by rewrite lookup_insert_ne.
Qed.
Lemma update_void p f (s s' : state) a :
  invariant s -> void_at p s -> (forall x, void (contents (f x))) -> update_stat p f s = (Ret a, s') ->
  (invariant s' /\ kept s s') /\ (forall q, void_at q s -> void_at q s').
Proof. intros Hi He Hf (x & Hx & ->)%update_stat_eq. by apply put_void. Qed.

Lemma new_stat_kept c n d (s : state) :
  invariant s -> void d ->
  exists p, TLStats.new_stat c n d s = (Ret p, (with_stats (<[p := Stat c false n d]> (stats s.1)) s.1, s.2)) /\
    stats s.1 !! p = None /\ invariant (with_stats (<[p := Stat c false n d]> (stats s.1)) s.1, s.2) /\
    kept s (with_stats (<[p := Stat c false n d]> (stats s.1)) s.1, s.2).
Proof.
  intros [Hs Hu] Hz. unfold TLStats.new_stat. set (p := fresh (dom (stats s.1))). exists p.
  assert (Hp : stats s.1 !! p = None) by (apply not_elem_of_dom, is_fresh). split; [done|]. split; [done|].
  pose proof (kept_insert s p (Stat c false n d) Hp Hz) as K. split; [|done]. split; [by apply (kept_sound s)|].
  intros q x Hq Hl. cbn in Hq. destruct (decide (q = p)) as [->|Hne].
  - rewrite lookup_insert_eq in Hq. by injection Hq as <-.
  - rewrite lookup_insert_ne in Hq by done. by apply (Hu q x).
Qed.
Lemma keeps_new_stat c n d : void d -> keeps (TLStats.new_stat c n d).
Proof.
  intros Hz s p s' Hi En. destruct (new_stat_kept c n d s Hi Hz) as (q & Eq & _ & Hc). rewrite Eq in En. by injection En as _ <-.
Qed.
Lemma keeps_unlink p : keeps (unlink p).
Proof. intros s [] s' Hi Eu. apply (detached_invariant p s s' Hi). by apply unlink_kept. Qed.
#[local] Hint Resolve keeps_link keeps_new_stat keeps_unlink keeps_aggregate_stat void_counter void_series void_histogram : ledger.

(** *** Construction *)
Lemma keeps_export_series p t : keeps (export_series hash p t).
Proof.
  apply keeps_then; [auto with ledger|]. intros []. apply keeps_then; [auto with ledger|]. intros x.
  apply keeps_then; [auto with ledger|]. intros c. destruct (contents x); auto with ledger.
Qed.
Lemma keeps_exportStats p types : keeps (exportStats hash p types).
Proof. induction types as [|t types IH]; cbn; [auto with ledger|]. apply keeps_then; [apply keeps_export_series|done]. Qed.
Lemma keeps_new_timeseries c n levels types : keeps (new_timeseries hash gap_stats c n levels types).
Proof.
  apply keeps_then; [auto with ledger|]. intros r. apply keeps_then; [auto with ledger|]. intros p.
  apply keeps_then; [auto with ledger|]. intros []. apply keeps_then; [apply keeps_exportStats|auto with ledger].
Qed.
Lemma keeps_copy_timeseries c other : keeps (copy_timeseries c other).
Proof. apply keeps_then; [auto with ledger|]. intros x. destruct (contents x) as [[g|] v| |]; auto 6 with ledger. Qed.
Lemma quiet_then {A B} (m : SE service A) (k : A -> SE service B) d :
  quiet d (m d).2 -> (forall a d', quiet d' (k a d').2) -> quiet d (se_bind m k d).2.
Proof.
  intros Hm Hk. unfold se_bind. destruct (m d) as [[a|e] d']; [|done]. cbn in Hm. by etrans; [|apply Hk].
Qed.
Lemma keeps_new_histogram c n w lo hi exports : keeps (new_histogram hash gap_hists c n w lo hi exports).
Proof.
  apply keeps_then; [auto with ledger|]. intros h. apply keeps_then.
  { apply beside_keeps, beside_service. intros d. apply quiet_then; [apply quiet_hists|done]. }
  intros g. apply keeps_then; [auto with ledger|]. intros p. apply keeps_then; [|auto with ledger].
  destruct exports as [|it more]; [auto with ledger|]. apply keeps_then; [|auto with ledger].
  unfold exportStat, on_histogram_map. auto with ledger.
Qed.
Lemma keeps_new_histogram_from c n g : keeps (new_histogram_from c n g).
Proof.
  do 3 (apply keeps_then; [auto with ledger|]; intros ?). apply keeps_then; [auto with ledger|]. intros h.
  apply keeps_then; auto with ledger.
Qed.
Lemma keeps_new_counter c n : keeps (new_counter c n).
Proof. apply keeps_then; auto with ledger. Qed.
Lemma keeps_addRepeatedValue p v n : keeps (addRepeatedValue p v n).
Proof.
  intros s [] s' Hi. unfold addRepeatedValue. intros (x & s1 & [Hp ->]%get_stat_eq & Ea)%se_bind_inv.
  destruct (contents x) eqn:Hx; [done| |done]. injection Ea as <-.
  apply (put_void p _ s Hi); [exists x; split; [done|rewrite Hx; apply void_histogram]|apply void_histogram].
Qed.

(** *** Moves and destruction *)
Lemma moved_void (d d' : data) (s s' : state) : moved_contents d s = (Ret d', s') -> s' = s /\ void d'.
Proof.
  unfold moved_contents. destruct d as [g v|g h b|v].
  - intros [= <- <-]. split; [done|apply void_series].
  - intros (h' & s1 & E1 & E2)%se_bind_inv. unfold TLStats.lift in E1. injection E1 as _ ->. injection E2 as <- <-.
    split; [done|apply void_histogram].
  - intros [= <- <-]. split; [done|apply void_counter].
Qed.
Lemma moved_from_void (d : data) : void d -> void (moved_from d).
Proof. destruct d; cbn; [by apply void_retarget|intros; apply void_histogram|done]. Qed.
Lemma keeps_move_construct other : keeps (move_construct (fun c => c) time_source other).
Proof.
  intros s p s' Hi. unfold move_construct. intros ([] & s1 & E1 & El)%se_bind_inv.
  pose proof (unlink_kept other s s1 Hi E1) as Hu. destruct (detached_invariant other s s1 Hi Hu) as [Hi1 K1].
  destruct (detached_void _ _ _ Hu) as (y & Hy & Hz).
  apply se_bind_inv in El as (y' & s2 & [Hy' ->]%get_stat_eq & El). rewrite Hy in Hy'. injection Hy' as <-.
  apply se_bind_inv in El as (d & s2 & [-> Hd]%moved_void & El).
  destruct (new_stat_kept (link_ y) (name_ y) d s1 Hi1 Hd) as (q & Eq & Hq & Hi2 & K2).
  apply se_bind_inv in El as (q' & s2 & Eq' & El). rewrite Eq in Eq'. injection Eq' as <- <-. set (s2 := (with_stats _ _, _)) in *.
  destruct (put_void other (set_contents (moved_from (contents y)) (set_name None y)) s2 Hi2) as [[Hi3 K3] _].
  { exists y. split; [|done]. cbn. rewrite lookup_insert_ne; [done|congruence]. }
  { by apply moved_from_void. }
  apply se_bind_inv in El as ([] & s3 & [= <-] & El).
  assert (Hl : keeps (let* _ := link q in se_ret q)) by auto with ledger.
  destruct (Hl _ _ _ Hi3 El) as [Hi' K']. split; [done|]. by etrans; [apply K1|etrans; [apply K2|etrans; [apply K3|]]].
Qed.
Lemma move_contents_void (d1 d2 : data) r (s s' : state) :
  void d1 -> void d2 -> move_contents d1 d2 s = (Ret r, s') -> s' = s /\ void r.1 /\ void r.2.
Proof.
  intros H1' H2' Em. unfold move_contents in Em. destruct d1, d2; try done.
  - injection Em as <- <-. split_and!; [done|by eapply void_retarget|by eapply void_retarget].
  - apply se_bind_inv in Em as (h' & s1 & E1 & E2). unfold TLStats.lift in E1. injection E1 as _ ->. injection E2 as <- <-.
    split_and!; [done|apply void_histogram|apply void_histogram].
  - injection Em as <- <-. done.
Qed.
Lemma keeps_move_assign this other : keeps (move_assign (fun c => c) time_source this other).
Proof.
  unfold move_assign. destruct (Nat.eqb_spec this other) as [|Hne]; [auto with ledger|].
  intros s [] s' Hi ([] & s1 & E1 & El)%se_bind_inv.
  pose proof (unlink_kept this s s1 Hi E1) as Hu1. destruct (detached_invariant this s s1 Hi Hu1) as [Hi1 K1].
  apply se_bind_inv in El as ([] & s2 & E2 & El).
  pose proof (unlink_kept other s1 s2 Hi1 E2) as Hu2. destruct (detached_invariant other s1 s2 Hi1 Hu2) as [Hi2 K2].
  pose proof (detached_others other this s1 s2 Hu2 Hne (detached_void _ _ _ Hu1)) as Hvx. pose proof (detached_void _ _ _ Hu2) as Hvy.
  apply se_bind_inv in El as (x & s3 & [Hx ->]%get_stat_eq & El). apply se_bind_inv in El as (y & s3 & [Hy ->]%get_stat_eq & El).
  assert (Hzx : void (contents x)) by (destruct Hvx as (x0 & E0 & Hz); rewrite Hx in E0; by injection E0 as <-).
  assert (Hzy : void (contents y)) by (destruct Hvy as (y0 & E0 & Hz); rewrite Hy in E0; by injection E0 as <-).
  apply se_bind_inv in El as ([] & s3 & [= <-] & El).
  destruct (put_void this (set_link (link_ y) (set_name (name_ y) x)) s2 Hi2 Hvx Hzx) as [[Hi3 K3] V3]. set (s3 := (put_stat this _ s2).2) in *.
  apply se_bind_inv in El as ([] & s4 & [= <-] & El).
  destruct (put_void other (set_name None y) s3 Hi3 (V3 _ Hvy) Hzy) as [[Hi4 K4] V4]. set (s4 := (put_stat other _ s3).2) in *.
  apply se_bind_inv in El as (d & s5 & [-> [Hd1 Hd2]]%move_contents_void & El); [|done|done].
  apply se_bind_inv in El as ([] & s5 & E5 & El).
  destruct (update_void this (set_contents d.1) s4 s5 tt Hi4 (V4 _ (V3 _ Hvx)) (fun _ => Hd1) E5) as [[Hi5 K5] V5].
  apply se_bind_inv in El as ([] & s6 & E6 & El).
  destruct (update_void other (set_contents d.2) s5 s6 tt Hi5 (V5 _ (V4 _ (V3 _ Hvy))) (fun _ => Hd2) E6) as [[Hi6 K6] _].
  destruct (keeps_link this s6 tt s' Hi6 El) as [Hi' K']. split; [done|].
  etrans; [apply K1|]. etrans; [apply K2|]. etrans; [apply K3|]. etrans; [apply K4|]. etrans; [apply K5|]. by etrans.
Qed.
Lemma keeps_destroy p : keeps (destroy (fun c => c) time_source p).
Proof.
  intros s [] s' Hi. unfold destroy. intros ([] & s1 & E1 & [= <-])%se_bind_inv.
  pose proof (unlink_kept p s s1 Hi E1) as Hu. destruct (detached_invariant p s s1 Hi Hu) as [[Hs1 Hu1] K1].
  destruct (detached_void _ _ _ Hu) as (x & Hx & Hz). pose proof (kept_delete s1 p x Hx Hz) as K2.
  split; [split|by etrans]; [by apply (kept_sound s1)|].
  intros q y Hq. cbn in Hq. apply lookup_delete_Some in Hq as [_ Hq]. by apply (Hu1 q y).
Qed.

(** *** Containers *)
Lemma keeps_new_container b : keeps (new_container b).
Proof. apply beside_keeps. by intros s c s' [= _ <-]. Qed.
Lemma keeps_destroy_container c : keeps (destroy_container c).
Proof. apply keeps_then; auto with ledger. Qed.
Lemma keeps_aggregate_each ps now : keeps (aggregate_each (fun c => c) ps now).
Proof. induction ps as [|p ps IH]; cbn; [auto with ledger|]. apply keeps_then; [apply keeps_aggregate_stat|done]. Qed.
Lemma keeps_aggregate c : keeps (aggregate (fun c => c) time_source c).
Proof.
  apply keeps_then; [auto with ledger|]. intros x. destruct (tlStatsEmpty_ x); [auto with ledger|].
  apply keeps_then; [auto with ledger|]. intros now. apply keeps_then; [apply keeps_aggregate_each|auto with ledger].
Qed.

End Operations.

Section Ops.
Context {M : Type} `{RegexMatchCache M} {TS Hg HV : Type} `{FollyHistogram TS Hg HV} `{SimpleHistogram HV}.
Context {E U US Getter Setter W : Type} (hash : string -> Z) `{LockTraits}.
Abbreviation service := (ServiceData.state M TS Hg E U US Getter Setter W).
Abbreviation state := (tls (HV := HV) * service)%type.
Context (gap_stats : ExportedStatMap.statmap TS * CallbackValuesMap.cvm (counter_callback U) M ->
                     ExportedStatMap.statmap TS * CallbackValuesMap.cvm (counter_callback U) M).
Context (gap_hists : ExportedHistogramMap.histmap TS Hg *
                       (CallbackValuesMap.cvm (counter_callback U) M * CallbackValuesMap.cvm (string_callback US) M) ->
                     ExportedHistogramMap.histmap TS Hg *
                       (CallbackValuesMap.cvm (counter_callback U) M * CallbackValuesMap.cvm (string_callback US) M)).
Context (time_source : nat -> Z).
Context {L : Ledger (E := E) (US := US) (Getter := Getter) (Setter := Setter) (W := W) (hash := hash) (gap_stats := gap_stats)}.

(** ** Operations *)
Inductive op :=
  | ONewContainer (updateOnRead : bool) | ODestroyContainer (c : nat) | OAggregate (c : nat)
  | ONewTimeseries (c : nat) (n : string) (levels : option TS) (types : list ExportType) | OCopyTimeseries (c other : nat)
  | ONewHistogram (c : nat) (n : string) (bucketWidth min max : Z) (exports : list HistogramNames.item)
  | ONewHistogramFrom (c : nat) (n : string) (globalStat : option nat) | ONewCounter (c : nat) (n : string)
  | OAddValue (p : nat) (value : Z) | OAddValueAggregated (p : nat) (value nsamples : Z)
  | OAddRepeatedValue (p : nat) (value nsamples : Z) | OIncrement (p : nat) (amount : Z)
  | OMoveConstruct (other : nat) | OMoveAssign (this other : nat) | ODestroy (p : nat).

Definition discard {A} (m : SE state A) : SE state unit := let* _ := m in se_ret tt.
Definition exec (o : op) : SE state unit :=
  match o with
  | ONewContainer u => discard (new_container u)
  | ODestroyContainer c => destroy_container c
  | OAggregate c => discard (aggregate (fun c => c) time_source c)
  | ONewTimeseries c n levels types => discard (new_timeseries hash gap_stats c n levels types)
  | OCopyTimeseries c q => discard (copy_timeseries c q)
  | ONewHistogram c n w lo hi exports => discard (new_histogram hash gap_hists c n w lo hi exports)
  | ONewHistogramFrom c n g => discard (new_histogram_from c n g)
  | ONewCounter c n => discard (new_counter c n)
  | OAddValue p v => addValue p v
  | OAddValueAggregated p v n => addValueAggregated p v n
  | OAddRepeatedValue p v n => addRepeatedValue p v n
  | OIncrement p amount => incrementValue p amount
  | OMoveConstruct q => discard (move_construct (fun c => c) time_source q)
  | OMoveAssign p q => move_assign (fun c => c) time_source p q
  | ODestroy p => destroy (fun c => c) time_source p
  end.
(** What records into the kinds of stat that a ledger may count. *)
Definition records (o : op) : bool :=
  match o with OAddValue _ _ | OAddValueAggregated _ _ _ | OIncrement _ _ => true | _ => false end.

Lemma keeps_discard {A} (m : SE state A) : keeps m -> keeps (discard m).
Proof. intros Hm. apply keeps_then; [done|]. intros a. apply keeps_return. Qed.
Lemma exec_keeps o : records o = false -> keeps (exec o).
Proof.
  destruct o; intros Ho; try done; cbn [exec]; try apply keeps_discard; first
    [ apply keeps_new_container | apply keeps_destroy_container | apply keeps_aggregate
    | apply keeps_new_timeseries | apply keeps_copy_timeseries | apply keeps_new_histogram
    | apply keeps_new_histogram_from | apply keeps_new_counter | apply keeps_addRepeatedValue | apply keeps_move_construct
    | apply keeps_move_assign | apply keeps_destroy ].
Qed.
End Ops.
