(* ===== verification/TLStatsConserve.v ===== *)
(** * TLStatsConserve: thread-local counts are neither lost nor counted twice

    The count of a name is what the flat counter of [ServiceData] holds plus what
    the thread-local counters of that name hold.  It is a ledger, so no operation
    on stats and containers changes it but [incrementValue]. *)
From S2P Require Import Prelude CountedRuns RegexUtil FlatCounters CallbackValuesMap NamedCallbacks TLStatsLockTraits ExportType Timeseries TimeseriesExporter HistogramExporter HistogramNames ExportedStatMap ExportedHistogramMap QuantileStat QuantileStatMap ServiceOptions ServiceData TLStats TLStatsLedger.
From Stdlib Require Import ZArith Lia Ascii String.
From stdpp Require Import base gmap sets list strings.
Import TLStats.

Open Scope Z_scope.
Open Scope fb303_scope.

Section Conserve.
Context {M : Type} `{RegexMatchCache M} {TS Hg HV : Type} `{FollyHistogram TS Hg HV} `{SimpleHistogram HV}.
Context {E U US Getter Setter W : Type} `{LockTraits}.
Abbreviation service := (ServiceData.state M TS Hg E U US Getter Setter W).
Abbreviation state := (tls (HV := HV) * service)%type.
Context (time_source : nat -> Z).

(** ** The count of a name *)
Definition data_value (d : data (HV := HV)) : Z := match d with TLCounter v => ctr_value v | _ => 0 end.
Definition local_value (x : tlstat (HV := HV)) : Z := data_value (contents x).
Definition part (k : string) (x : tlstat (HV := HV)) : Z := if bool_decide (name x = k) then local_value x else 0.
Definition flat_value (k : string) (d : service) : Z := default 0 (RegexUtil.map (ServiceData.counters_ d) !! k).
Definition total (k : string) (s : state) : Z := flat_value k s.2 + map_sum (part k) (stats s.1).

(** A stat that is not linked holds nothing. *)
Definition inv (s : state) : Prop := forall p x, stats s.1 !! p = Some x -> isLinked x = false -> local_value x = 0.

Definition same_total (s s' : state) : Prop := forall k, wraps 64 (total k s') = wraps 64 (total k s).
Definition same_count (s s' : state) : Prop := inv s' /\ same_total s s'.
Definition conserves {A} (m : SE state A) : Prop := forall s a s', inv s -> m s = (Ret a, s') -> same_count s s'.

Lemma same_count_trans s1 s2 s3 : same_count s1 s2 -> same_count s2 s3 -> same_count s1 s3.
Proof. intros [_ E1] [Hi E2]. split; [done|]. intros k. by rewrite E2. Qed.
#[local] Instance same_total_preorder : PreOrder same_total.
Proof. split; [by intros s k|]. intros s1 s2 s3 E1 E2 k. by rewrite E2. Qed.

(** Operations of the service that leave the flat counters alone. *)
Definition keeps_flat {A} (f : SE service A) : Prop := forall d, ServiceData.counters_ (f d).2 = ServiceData.counters_ d.
Lemma keeps_on_stats {A} f : keeps_flat (A := A) (ServiceData.on_stats f).
Proof. intros d. unfold ServiceData.on_stats, ServiceData.on_part. by destruct (f _). Qed.
Lemma keeps_on_hists {A} f : keeps_flat (A := A) (ServiceData.on_hists f).
Proof. intros d. unfold ServiceData.on_hists, ServiceData.on_part. by destruct (f _). Qed.
Lemma keeps_on_clock {A} f : keeps_flat (A := A) (ServiceData.on_clock f).
Proof. intros d. unfold ServiceData.on_clock, ServiceData.on_part. by destruct (f _). Qed.
Lemma keeps_bind {A B} (m : SE service A) (k : A -> SE service B) :
  keeps_flat m -> (forall a, keeps_flat (k a)) -> keeps_flat (se_bind m k).
Proof.
  intros Hm Hk d. unfold se_bind. specialize (Hm d). destruct (m d) as [[a|e] d']; [|done]. by rewrite Hk.
Qed.
Lemma keeps_ret {A} (a : A) : keeps_flat (se_ret a).
Proof. done. Qed.

Create HintDb aside.
(** *** Code that only works on the service, flat counters apart *)
Definition aside {A} (m : SE state A) : Prop := forall s a s', m s = (Ret a, s') ->
  s'.1 = s.1 /\ ServiceData.counters_ s'.2 = ServiceData.counters_ s.2.
Lemma aside_ret {A} (a : A) : aside (se_ret a).
Proof. by intros s b s' [= _ <-]. Qed.
Lemma aside_throw {A} e : aside (A := A) (se_throw e).
Proof. by intros s b s' ?. Qed.
Lemma aside_bind {A B} (m : SE state A) (k : A -> SE state B) : aside m -> (forall a, aside (k a)) -> aside (se_bind m k).
Proof.
  intros Hm Hk s b s'. unfold se_bind. destruct (m s) as [[a|e] s1] eqn:Em; [|done]. intros Ek.
  destruct (Hm s a s1 Em) as [E1 E2], (Hk a s1 b s' Ek) as [E3 E4]. split; congruence.
Qed.
Lemma aside_service {A} (f : SE service A) : keeps_flat f -> aside (on_service f).
Proof. intros Hf s a s'. unfold on_service. specialize (Hf s.2). destruct (f s.2) as [r d]. by intros [= _ <-]. Qed.
Lemma aside_get_link c : aside (get_link c).
Proof. intros s x s'. unfold get_link. destruct (containers s.1 !! c); [|done]. by intros [= _ <-]. Qed.
Lemma aside_get_stat p : aside (get_stat p).
Proof. intros s x s'. unfold get_stat. destruct (stats s.1 !! p); [|done]. by intros [= _ <-]. Qed.
Lemma aside_lift {A} (o : outcome A) : aside (TLStats.lift o).
Proof. by intros s a s' [= _ <-]. Qed.
#[local] Hint Resolve aside_ret aside_throw aside_bind aside_service aside_get_link aside_get_stat aside_lift
  keeps_on_stats keeps_on_hists keeps_on_clock keeps_bind keeps_ret : aside.

Lemma aside_conserves {A} (m : SE state A) : aside m -> conserves m.
Proof.
  intros Hm s a s' Hi Em. destruct (Hm s a s' Em) as [E1 E2]. split; [unfold inv; by rewrite E1|].
  intros k. unfold total, flat_value. by rewrite E1, E2.
Qed.

Lemma aside_lock_global g : aside (lock_global (HV := HV) g).
Proof. destruct g; cbn; auto with aside. Qed.
Lemma aside_when b (m : SE state unit) : aside m -> aside (when b m).
Proof. destruct b; cbn; auto with aside. Qed.
Lemma aside_legacy_now : aside (legacy_now (HV := HV) time_source).
Proof. unfold legacy_now. auto with aside. Qed.
Lemma aside_container_checked {A} p msg (fn : SE state A) : aside fn -> aside (withContainerChecked p msg fn).
Proof. intros Hf. unfold withContainerChecked. apply aside_bind; [auto with aside|]. intros x. apply aside_bind; [auto with aside|]. intros c. destruct (alive c); auto with aside. Qed.
#[local] Hint Resolve aside_lock_global aside_when aside_legacy_now aside_container_checked : aside.

(** ** Writing one stat *)
Lemma total_put k p x x' (s : state) :
  stats s.1 !! p = Some x -> total k (put_stat p x' s).2 = total k s - part k x + part k x'.
Proof. intros Hp. unfold total. simpl. rewrite (map_sum_update _ _ _ _ _ Hp). unfold flat_value. simpl. lia. Qed.
Lemma part_zero k x : local_value x = 0 -> part k x = 0.
Proof. intros Hz. unfold part. rewrite Hz. by case_bool_decide. Qed.

Abbreviation at_stat := (at_stat same_total).
Lemma total_same (s s' : state) : stats s'.1 = stats s.1 -> ServiceData.counters_ s'.2 = ServiceData.counters_ s.2 -> same_total s s'.
Proof. intros E1 E2 k. unfold total, flat_value. by rewrite E1, E2. Qed.
Lemma count_put_same p x x' (s : state) : stats s.1 !! p = Some x -> (forall k, part k x' = part k x) -> same_total s (put_stat p x' s).2.
Proof. intros Hp Hx k. rewrite (total_put k p x x' s Hp), Hx. f_equal. lia. Qed.
Lemma at_stat_aside p x x' s s1 s2 :
  at_stat p x x' s s1 -> stats s2.1 = stats s1.1 -> ServiceData.counters_ s2.2 = ServiceData.counters_ s1.2 -> at_stat p x x' s s2.
Proof. intros Ha E1 E2. apply (at_stat_then _ p x x' s s1); [done|done|by apply total_same]. Qed.

(** *** The flat counter after an increment that returned *)
Lemma incremented key delta (d : service) v d' :
  ServiceData.incrementCounter (fun c => c) key delta d = (Ret v, d') ->
  RegexUtil.map (ServiceData.counters_ d') =
    <[key := wraps 64 (default 0 (RegexUtil.map (ServiceData.counters_ d) !! key) + delta)]> (RegexUtil.map (ServiceData.counters_ d)).
Proof.
  unfold ServiceData.incrementCounter, ServiceData.on_flat, ServiceData.on_part, FlatCounters.incrementCounter, FlatCounters.modifyCounter, se_bind.
  set (c := ServiceData.counters_ d). unfold FlatCounters.try_modify, FlatCounters.apply_at at 1.
  destruct (RegexUtil.map c !! key) as [old|] eqn:Eo.
  - destruct (FlatCounters.add_amount delta old) as [[r|e] new] eqn:Ef; [|done]. intros [= _ <-]. simpl.
    unfold FlatCounters.add_amount in Ef. by injection Ef as _ <-.
  - unfold se_get, se_put. pose proof (FlatCounters.upsert_effect key (FlatCounters.add_amount delta) c) as Hu.
    destruct (FlatCounters.upsert key (FlatCounters.add_amount delta) c) as [r c'].
    destruct (RegexUtil.cachedAddString key 0 c) as [[b|e] c1]; cbn [fst] in Hu.
    + destruct Hu as [_ Hm]. unfold FlatCounters.upsert_old in Hm. rewrite Eo in Hm. intros [= _ <-]. exact Hm.
    + destruct Hu as (-> & _). done.
Qed.

Lemma count_published k key delta (s : state) v (d' : service) :
  ServiceData.incrementCounter (fun c => c) key delta s.2 = (Ret v, d') ->
  wraps 64 (total k (s.1, d')) = wraps 64 (total k s + (if bool_decide (key = k) then delta else 0)).
Proof.
  intros Ei. apply incremented in Ei. unfold total, flat_value. cbn [fst snd]. rewrite Ei. case_bool_decide as Hk.
  - subst k. rewrite lookup_insert_eq. simpl. rewrite wraps_idemp_add by lia. f_equal. lia.
  - rewrite lookup_insert_ne by done. f_equal. lia.
Qed.

(** ** Aggregation empties one stat *)
Definition void (d : data (HV := HV)) : Prop := data_value d = 0.
Abbreviation emptied := (emptied same_total void).
Abbreviation aggregate_stat := (TLStats.aggregate_stat (fun c => c)).

(** A write that leaves nothing local, then work on the service. *)
Lemma emptied_put p x x' (s s' : state) (m : SE state unit) :
  stats s.1 !! p = Some x -> same_meta x x' -> local_value x = 0 -> local_value x' = 0 -> aside m ->
  (put_stat p x' >>> m) s = (Ret tt, s') -> emptied p s s'.
Proof.
  intros Hp Hm Hz Hz' Ha. unfold se_bind. intros Es. destruct (Ha _ _ _ Es) as [E1 E2]. exists x, x'.
  split; [|split; [done|split; [done|by rewrite E1]]].
  apply (at_stat_aside p x x' s (put_stat p x' s).2); [|by rewrite E1|done].
  apply at_stat_put; [done|]. apply (count_put_same p x); [done|]. intros k. by rewrite !part_zero.
Qed.

Lemma emptied_series p x g v now (s s' : state) :
  stats s.1 !! p = Some x -> contents x = TLTimeseries g v -> aggregate_series p x g v now s = (Ret tt, s') -> emptied p s s'.
Proof.
  intros Hp Hx. unfold aggregate_series. destruct (ser_reset v) as [[c sm] v'].
  apply (emptied_put p x); try done; [unfold local_value; by rewrite Hx|].
  apply aside_bind; [auto with aside|]. intros l. case_match; [auto with aside|].
  apply aside_bind; [auto with aside|]. intros a. apply aside_bind; auto with aside.
Qed.

Lemma emptied_histogram p x g h dirty now (s s' : state) :
  stats s.1 !! p = Some x -> contents x = TLHistogram g h dirty -> aggregate_histogram p x g h dirty now s = (Ret tt, s') -> emptied p s s'.
Proof.
  intros Hp Hx. assert (Hz : local_value x = 0) by (unfold local_value; by rewrite Hx).
  unfold aggregate_histogram. destruct dirty; cbn [negb].
  - unfold se_bind, on_service. pose proof (keeps_on_hists (ExportedHistogramMapImpl.addValues (ExportedHistogramMapImpl.Lockable g) (duration_cast milliseconds seconds now) h) s.2) as Hk.
    destruct (ServiceData.on_hists _ s.2) as [[u|e] d]; [|done]. intros [= <-]. cbn [snd] in Hk.
    exists x, (set_contents (TLHistogram g (sh_clear h) false) x). split; [|by split].
    pose proof (at_stat_put same_total p x (set_contents (TLHistogram g (sh_clear h) false) x) (s.1, d) Hp) as [B A O C].
    { apply (count_put_same p x); [done|]. intros k. by rewrite !part_zero. }
    split; [done|done|done|]. intros k. etrans; [apply C|]. unfold total, flat_value. cbn [fst snd]. by rewrite Hk.
  - intros [= <-]. exists x, x. split; [|by split]. by apply at_stat_refl; [apply _|].
Qed.

Lemma emptied_counter p x v (s s' : state) :
  stats s.1 !! p = Some x -> contents x = TLCounter v -> aggregate_counter (fun c => c) p x v s = (Ret tt, s') -> emptied p s s'.
Proof.
  intros Hp Hx. unfold aggregate_counter. destruct (ctr_reset v) as [delta v'] eqn:Er.
  pose proof (lt_reset v) as [Hd Hv]. rewrite Er in Hd, Hv. cbn [fst snd] in Hd, Hv. subst delta.
  set (x' := set_contents (TLCounter v') x). set (s1 := (put_stat p x' s).2).
  assert (Hl : local_value x' = 0) by done. assert (Ep : local_value x = ctr_value v) by (unfold local_value; by rewrite Hx).
  assert (Hput : forall k, total k s1 = total k s - (if bool_decide (name x = k) then ctr_value v else 0)).
  { intros k. unfold s1. rewrite (total_put k p x x' s Hp), (part_zero k x' Hl). unfold part. rewrite Ep. lia. }
  assert (Hat : forall s2 : state, stats s2.1 = stats s1.1 -> (forall k, wraps 64 (total k s2) = wraps 64 (total k s)) -> at_stat p x x' s s2).
  { intros s2 E1 E2. split; [done|rewrite E1; simpl; by rewrite lookup_insert_eq|intros q Hq; rewrite E1; simpl; by rewrite lookup_insert_ne|done]. }
  unfold se_bind at 1. change (put_stat p x' s) with (Ret tt, s1). cbn iota. destruct (Z.eqb_spec (ctr_value v) 0) as [E0|E0].
  - intros [= <-]. exists x, x'. split; [|by split]. apply Hat; [done|]. intros k. rewrite Hput, E0. case_bool_decide; f_equal; lia.
  - unfold se_bind, on_service.
    destruct (ServiceData.incrementCounter (fun c => c) (name x) (ctr_value v) s1.2) as [[r|e] d] eqn:Ei; [|done].
    intros [= <-]. exists x, x'. split; [|by split]. apply Hat; [done|]. intros k.
    etrans; [exact (count_published k (name x) (ctr_value v) s1 r d Ei)|]. rewrite Hput. f_equal. case_bool_decide; lia.
Qed.

Lemma aggregate_stat_effect p now (s s' : state) : aggregate_stat p now s = (Ret tt, s') -> emptied p s s'.
Proof.
  unfold TLStats.aggregate_stat, se_bind, get_stat. destruct (stats s.1 !! p) as [x|] eqn:Hp; [|done].
  destruct (contents x) as [g v|g h d|v] eqn:Hx.
  - by apply emptied_series.
  - by apply emptied_histogram.
  - by apply emptied_counter.
Qed.

Lemma emptied_count p (s s' : state) : inv s -> emptied p s s' -> same_count s s'.
Proof.
  intros Hi (x & x' & [B A O C] & _ & Hz & _). split; [|done]. intros q y Hq Hl.
  destruct (decide (q = p)) as [->|Hne]; [by simplify_eq|]. rewrite O in Hq by done. by apply (Hi q y).
Qed.

(** ** The ledger *)
#[refine, local] Instance counters_ledger (hash : string -> Z)
    (gap_stats : ExportedStatMap.statmap TS * CallbackValuesMap.cvm (counter_callback U) M ->
                 ExportedStatMap.statmap TS * CallbackValuesMap.cvm (counter_callback U) M) :
    Ledger (E := E) (US := US) (Getter := Getter) (Setter := Setter) (W := W) (hash := hash) (gap_stats := gap_stats) := {|
  TLStatsLedger.void := void;
  sound _ := True;
  kept := same_total;
  quiet d d' := ServiceData.counters_ d' = ServiceData.counters_ d
|}.
Proof.
  - split; [done|]. intros d1 d2 d3 E1 E2. congruence.
  - done.
  - apply total_same.
  - intros s p x x' Hp Hc Hn. apply (count_put_same p x); [done|]. intros k. unfold part, local_value, name. by rewrite Hc, Hn.
  - intros s p x x' Hp Hz Hz'. apply (count_put_same p x); [done|]. intros k. by rewrite !part_zero.
  - intros s p x Hp Hz k. unfold total. cbn [fst snd stats with_stats]. rewrite map_sum_insert, part_zero by done. f_equal.
  - intros s p x Hp Hz k. unfold total. cbn [fst snd stats with_stats]. rewrite (map_sum_delete _ _ _ _ Hp), part_zero by done.
    f_equal. unfold flat_value. simpl. lia.
  - apply lt_new.
  - done.
  - done.
  - done.
  - intros p now s s' _. apply aggregate_stat_effect.
  - intros A. apply keeps_on_clock.
  - intros A. apply keeps_on_hists.
  - intros n levels. apply keeps_on_stats.
  - intros l n t u. apply keeps_on_stats.
Defined.
Lemma ledger_conserves hash gap_stats {A} (m : SE state A) : keeps (L := counters_ledger hash gap_stats) m -> conserves m.
Proof. intros Hm s a s' Hi Em. destruct (Hm s a s' (conj I Hi) Em) as [[_ Hi'] K]. done. Qed.
Abbreviation any_ledger := (counters_ledger (fun _ => 0) (fun s => s)).

(** Registering in a container: neither stats nor service change. *)
Definition no_stat_change {A} (m : SE state A) : Prop := forall s a s', m s = (Ret a, s') ->
  stats s'.1 = stats s.1 /\ ServiceData.counters_ s'.2 = ServiceData.counters_ s.2.
Lemma no_change_put_link c x : no_stat_change (put_link c x).
Proof. by intros s a s' [= _ <-]. Qed.
Lemma no_change_conserves {A} (m : SE state A) : no_stat_change m -> conserves m.
Proof. intros Hm. apply (ledger_conserves (fun _ => 0) (fun s => s)), beside_keeps, Hm. Qed.

Lemma link_effect p (s s' : state) : link p s = (Ret tt, s') ->
  exists x, stats s.1 !! p = Some x /\ at_stat p x (set_linked true x) s s'.
Proof. exact (link_kept (L := any_ledger) p s s'). Qed.
Lemma conserves_link p : conserves (link p).
Proof. exact (ledger_conserves _ _ _ (keeps_link (L := any_ledger) p)). Qed.
Lemma unlink_effect p (s s' : state) : inv s -> unlink (fun c => c) time_source p s = (Ret tt, s') ->
  exists x x', at_stat p x x' s s' /\ link_ x' = link_ x /\ name_ x' = name_ x /\ isLinked x' = false /\ local_value x' = 0.
Proof. intros Hi. exact (unlink_kept _ (L := any_ledger) p s s' (conj I Hi)). Qed.
Lemma new_stat_effect c n d (s : state) :
  inv s -> local_value (Stat c false n d) = 0 ->
  exists p, TLStats.new_stat c n d s = (Ret p, (with_stats (<[p := Stat c false n d]> (stats s.1)) s.1, s.2)) /\
    stats s.1 !! p = None /\ same_count s (with_stats (<[p := Stat c false n d]> (stats s.1)) s.1, s.2).
Proof.
  intros Hi Hz. destruct (new_stat_kept (L := any_ledger) c n d s (conj I Hi) Hz) as (p & Ep & Hp & [_ Hi'] & K). by exists p.
Qed.
Lemma conserves_destroy p : conserves (destroy (fun c => c) time_source p).
Proof. exact (ledger_conserves _ _ _ (keeps_destroy _ (L := any_ledger) p)). Qed.

(** *** Recording *)
Lemma put_recorded p x x' (s s' : state) :
  inv s -> stats s.1 !! p = Some x -> local_value x = 0 -> local_value x' = 0 ->
  put_stat p x' s = (Ret tt, s') -> same_count s s'.
Proof.
  intros Hi Hp Hz Hz' [= <-].
  by destruct (put_void (L := any_ledger) p x' s (conj I Hi) (ex_intro _ x (conj Hp Hz)) Hz') as [[[_ Hi'] K] _].
Qed.
Lemma conserves_addValue p v : conserves (addValue p v).
Proof.
  intros s [] s' Hi (x & s1 & [Hp ->]%get_stat_eq & Ea)%se_bind_inv.
  destruct (contents x) eqn:Hx; [| |done]; apply (put_recorded p x) in Ea; try done; unfold local_value; by rewrite Hx.
Qed.
Lemma conserves_addValueAggregated p v n : conserves (addValueAggregated p v n).
Proof.
  intros s [] s' Hi (x & s1 & [Hp ->]%get_stat_eq & Ea)%se_bind_inv.
  destruct (contents x) eqn:Hx; [|done..]. apply (put_recorded p x) in Ea; try done. unfold local_value. by rewrite Hx.
Qed.

Lemma increment_effect p amount (s s' : state) x :
  inv s -> stats s.1 !! p = Some x -> isLinked x = true -> incrementValue p amount s = (Ret tt, s') ->
  inv s' /\ forall k, wraps 64 (total k s') = wraps 64 (total k s + (if bool_decide (name x = k) then amount else 0)).
Proof.
  intros Hi Hp Hl. unfold incrementValue, se_bind at 1, get_stat. rewrite Hp.
  destruct (contents x) as [| |v] eqn:Hx; [done..|]. unfold se_bind, TLStats.lift.
  destruct (ctr_increment amount v) as [v'|e] eqn:Ei; [|done]. intros [= <-]. split.
  - intros q y Hq Hly. cbn in Hq. destruct (decide (q = p)) as [->|Hne].
    + rewrite lookup_insert_eq in Hq. injection Hq as <-. cbn in Hly. congruence.
    + rewrite lookup_insert_ne in Hq by done. by apply (Hi q y).
  - intros k. etrans; [apply (f_equal (wraps 64)), (total_put k p x (set_contents (TLCounter v') x) s Hp)|].
    unfold part, local_value, data_value, name. simpl. rewrite Hx. case_bool_decide; [|f_equal; lia].
    pose proof (lt_increment amount v v' Ei) as Hv.
    rewrite Z.add_comm, <- wraps_idemp_add, Hv, wraps_idemp_add by lia. f_equal. lia.
Qed.

End Conserve.
