(* ===== verification/TLStatsCounts.v ===== *)
(** * TLStatsCounts: what reaches [ServiceData] is what was counted

    Sequences of operations on stats and containers.  Both lock policies of
    [src/fb303/TLStatsLockTraits.h] keep the promises of [LockTraits]. *)
From S2P Require Import Prelude CountedRuns RegexUtil FlatCounters CallbackValuesMap NamedCallbacks TLStatsLockTraits ExportType Timeseries TimeseriesExporter HistogramExporter HistogramNames ExportedStatMap ExportedHistogramMap QuantileStat QuantileStatMap ServiceOptions ServiceData TLStats TLStatsLedger TLStatsConserve.
From Stdlib Require Import ZArith Lia Ascii String.
From stdpp Require Import base gmap sets list strings.
Import TLStats.

Open Scope Z_scope.
Open Scope fb303_scope.

(** ** The lock policies *)
Lemma wraps_increment n v : wraps 64 (wraps 64 (v + n)) = wraps 64 (v + n).
Proof. pose proof (wraps_idemp_add 64 (v + n) 0 ltac:(lia)) as Hw. by rewrite !Z.add_0_r in Hw. Qed.
(** [nothrow] allocation of the surplus block succeeds when [alloc]. *)
#[refine, local] Instance thread_safe (alloc : bool) : LockTraits := {|
  tl_counter := Z;
  ctr_new := 0;
  ctr_increment n v := Ret (TLStatsThreadSafe.increment 64 n v);
  ctr_reset := TLStatsThreadSafe.counter_reset;
  ctr_value := TLStatsThreadSafe.counter_value;
  tl_series := TLStatsThreadSafe.series;
  ser_new := TLStatsThreadSafe.new_series;
  ser_addValue := TLStatsThreadSafe.addValue 64 alloc;
  ser_reset := TLStatsThreadSafe.reset 64
|}.
Proof.
  - done.
  - intros n v v' [= <-]. apply wraps_increment.
  - done.
Defined.

#[refine, local] Instance no_locking (constexpr_add_overflow_clamped : Z -> Z -> Z) : LockTraits := {|
  tl_counter := Z;
  ctr_new := 0;
  ctr_increment n v := let '(r, v') := TLStatsNoLocking.increment 64 n v in
    match r with Ret _ => Ret v' | Throw e => Throw e end;
  ctr_reset v := (v, (TLStatsNoLocking.counter_reset v).2);
  ctr_value := TLStatsNoLocking.counter_value;
  tl_series := TLStatsNoLocking.series;
  ser_new := TLStatsNoLocking.new_series;
  ser_addValue := TLStatsNoLocking.addValue constexpr_add_overflow_clamped;
  ser_reset := TLStatsNoLocking.reset
|}.
Proof.
  - done.
  - intros n v v'. unfold TLStatsNoLocking.increment, se_bind, se_get. destruct (_ && _); [|done]. by intros [= <-].
  - done.
Defined.

Section Counts.
Context {M : Type} `{RegexMatchCache M} {TS Hg HV : Type} `{FollyHistogram TS Hg HV} `{SimpleHistogram HV}.
Context {E U US Getter Setter W : Type} (hash : string -> Z) `{LockTraits}.
Abbreviation service := (ServiceData.state M TS Hg E U US Getter Setter W).
Abbreviation state := (tls (HV := HV) * service)%type.
Context (gap_stats : ExportedStatMap.statmap TS * CallbackValuesMap.cvm (counter_callback U) M ->
                     ExportedStatMap.statmap TS * CallbackValuesMap.cvm (counter_callback U) M).
Context (gap_hists : ExportedHistogramMap.histmap TS Hg *
                       (CallbackValuesMap.cvm (counter_callback U) M * CallbackValuesMap.cvm (string_callback US) M) ->
                     ExportedHistogramMap.histmap TS Hg *
                       (CallbackValuesMap.cvm (counter_callback U) M * CallbackValuesMap.cvm (string_callback US) M)).
Context (time_source : nat -> Z).

Abbreviation exec := (exec (E := E) (US := US) (Getter := Getter) (Setter := Setter) (W := W) hash gap_stats gap_hists time_source).

(** A stat that is incremented is linked: a moved-from stat is not used. *)
Definition used_well (o : op (TS := TS)) (s : state) : bool :=
  match o with OIncrement p _ => match stats s.1 !! p with Some x => isLinked x | None => false end | _ => true end.
Definition counted (k : string) (o : op (TS := TS)) (s : state) : Z :=
  match o with
  | OIncrement p amount => match stats s.1 !! p with Some x => if bool_decide (name x = k) then amount else 0 | None => 0 end
  | _ => 0
  end.

Abbreviation runs k := (CountedRuns.runs exec used_well (counted k)).

Lemma exec_conserves o : match o with OIncrement _ _ => False | _ => True end -> conserves (exec o).
Proof.
  intros Ho. destruct (records o) eqn:Hr.
  - destruct o; try done; [apply conserves_addValue|apply conserves_addValueAggregated].
  - apply (ledger_conserves hash gap_stats). by apply exec_keeps.
Qed.

Lemma exec_counts (k : string) o (s s' : state) :
  inv s -> used_well o s = true -> exec o s = (Ret tt, s') ->
  inv s' /\ wraps 64 (TLStatsConserve.total k s') = wraps 64 (TLStatsConserve.total k s + counted k o s).
Proof.
  intros Hi Hu He. assert (Hc : (exists p a, o = OIncrement p a) \/ match o with OIncrement _ _ => False | _ => True end)
    by (destruct o; eauto). destruct Hc as [(p & a & ->)|Ho].
  - cbn in Hu |- *. destruct (stats s.1 !! p) as [x|] eqn:Hp; [|done].
    destruct (increment_effect p a s s' x Hi Hp Hu He) as [Hi' Ht]. split; [done|apply Ht].
  - destruct (exec_conserves o Ho s tt s' Hi He) as [Hi' Ht]. split; [done|]. rewrite Ht. f_equal.
    destruct o; cbn; lia || done.
Qed.

Lemma runs_counts k s l n s' : runs k s l n s' -> inv s ->
  inv s' /\ wraps 64 (TLStatsConserve.total k s') = wraps 64 (TLStatsConserve.total k s + n).
Proof.
  induction 1 as [s|s o s1 l n s' Hu He Hr IH]; intros Hi.
  - split; [done|]. f_equal. lia.
  - destruct (exec_counts k o s s1 Hi Hu He) as [Hi1 Hs1]. destruct (IH Hi1) as [Hi' ->]. split; [done|].
    rewrite <- wraps_idemp_add, Hs1, wraps_idemp_add by lia. f_equal. lia.
Qed.

(** C7: a run of any operations on thread-local stats and containers, started with
    no stat and ended with none - each moved, aggregated and destroyed at whatever
    point, its container gone or not - leaves in every flat counter of [ServiceData]
    exactly what it held plus what [incrementValue] was asked for, to 64 bits; and
    before the end, what is missing is in the stats still there. *)
Theorem counts_delivered (k : string) (s : state) (l : list (op (TS := TS))) (n : Z) (s' : state) :
  stats s.1 = ∅ -> runs k s l n s' ->
  wraps 64 (flat_value k s'.2 + map_sum (part k) (stats s'.1)) = wraps 64 (flat_value k s.2 + n) /\
  (stats s'.1 = ∅ -> wraps 64 (flat_value k s'.2) = wraps 64 (flat_value k s.2 + n)).
Proof.
  intros Hs Hr. assert (Hi : inv s) by (intros p x; by rewrite Hs, lookup_empty).
  destruct (runs_counts k s l n s' Hr Hi) as [_ Ht]. unfold TLStatsConserve.total in Ht.
  rewrite Hs in Ht. unfold map_sum in Ht at 2. rewrite map_fold_empty, Z.add_0_r in Ht. split; [done|].
  intros He. rewrite He in Ht. unfold map_sum in Ht. rewrite map_fold_empty, Z.add_0_r in Ht. done.
Qed.
End Counts.

(** ** A concrete run *)
Section Example_.
Import EventSeries CoarseHistogram SampleEstimator PrefixCache.
Record simple := Simple { s_width : Z; s_min : Z; s_max : Z; s_values : list (Z * Z) }.
#[refine, local] Instance example_histogram : FollyHistogram series histogram simple := {|
  th_make := th_make;
  th_getBucketSize := th_getBucketSize;
  th_getMin := th_getMin;
  th_getMax := th_getMax;
  th_getNumBuckets := th_getNumBuckets;
  th_getBucket := th_getBucket;
  th_update := th_update;
  th_addValue := th_addValue;
  th_addValues now h := th_addValues now (s_values h);
  th_clear := th_clear;
  th_sum := th_sum;
  th_count := th_count;
  th_avg := th_avg;
  th_avg_double := th_avg_double;
  th_rate := th_rate;
  th_getPercentileEstimate := th_getPercentileEstimate;
  th_getString := th_getString
|}.
Proof.
  - apply th_buckets.
  - apply th_make_spec.
  - apply th_update_levels.
  - apply th_addValue_levels.
  - intros now h. apply th_addValues_levels.
  - apply th_clear_levels.
  - apply th_clear_shape.
Defined.
#[local] Instance example_simple : SimpleHistogram simple := {|
  sh_make w lo hi := if (0 <? w) && (lo <=? hi) then Ret (Simple w lo hi []) else Throw check_failed;
  sh_addValue v h := Simple (s_width h) (s_min h) (s_max h) (s_values h ++ [(v, 1)]);
  sh_addRepeatedValue v n h := Simple (s_width h) (s_min h) (s_max h) (s_values h ++ [(v, n)]);
  sh_clear h := Simple (s_width h) (s_min h) (s_max h) [];
  sh_getBucketSize := s_width;
  sh_getMin := s_min;
  sh_getMax := s_max
|}.
#[local] Instance example_locks : LockTraits := thread_safe true.
Abbreviation example_state := (tls (HV := simple) * ServiceData.state cache series histogram est Z string bool string unit)%type (only parsing).
Definition name_hash (n : string) : Z := Z.of_nat (String.length n).
Definition in_unit (unit : Z) : series := ts_make 60 (in_ticks unit [60; 600]).
Definition example_start : example_state :=
  (TLS ∅ ∅,
   ServiceData.State 0 (ServiceOptions.Options false ∅ ∅) (RegexUtil.cachedAddString "hits" 7 RegexUtil.empty_syncmap).2 ∅
     CallbackValuesMap.make CallbackValuesMap.make (ExportedStatMap.make [AVG] (in_unit milliseconds)) QuantileStatMap.empty_state
     (ExportedHistogramMap.make (in_unit seconds) (Hist 10 0 100 (in_unit seconds))) (LegacyClock.Clock 0) tt).
(** Two counters of one name, a time series and a histogram; one counter is moved
    over the other, the container goes first. *)
Definition example_ops : list (op (TS := series)) :=
  [ONewContainer true; ONewCounter 0 "hits"; ONewCounter 0 "hits"; ONewTimeseries 0 "load" None [AVG];
   ONewHistogram 0 "size" 10 0 100 [HistogramNames.PercentileItem 50]; OIncrement 0 5; OIncrement 1 (-2); OAddValue 2 30;
   OAddValue 3 55; OAggregate 0; OIncrement 1 4; OMoveAssign 0 1; OIncrement 0 10; OMoveConstruct 2; ODestroyContainer 0;
   ODestroy 0; ODestroy 1; ODestroy 2; ODestroy 3; ODestroy 4].
Lemma counts_delivered_witness :
  match run_counted (exec name_hash id id (fun n => Z.of_nat n)) used_well (counted "hits") example_ops example_start with
  | Some (n, s') => n = 17 /\ stats s'.1 = ∅ /\ wraps 64 (flat_value "hits" s'.2) = wraps 64 (7 + n)
  | None => False
  end.
Proof.
  assert (Hv : match run_counted (exec name_hash id id (fun n => Z.of_nat n)) used_well (counted "hits") example_ops example_start with
    | Some (n, s') => Some (n, size (stats s'.1)) | None => None end = Some (17, 0%nat)) by (vm_compute; reflexivity).
  destruct (run_counted (exec name_hash id id (fun n => Z.of_nat n)) used_well (counted "hits") example_ops example_start) as [[n s']|] eqn:Er; [|discriminate Hv].
  pose proof (counts_delivered name_hash id id (fun n => Z.of_nat n) "hits" example_start example_ops n s' eq_refl
    (run_counted_runs _ _ _ _ _ _ _ Er)) as [_ Ht].
  injection Hv as Hn He. apply map_size_empty_iff in He.
  split; [exact Hn|]. split; [exact He|]. exact (Ht He).
Defined.
End Example_.
