(* ===== verification/TLStatsSeries.v ===== *)
(** * TLStatsSeries: what a thread-local time series recorded reaches the global one

    For a time series of the stat map: the counts and sums that the thread-local
    series over it hold, plus those it was given, are what was recorded.  The
    storage of the global series is folly's, so what it was given is the sequence
    of calls on it. *)
From S2P Require Import Prelude CountedRuns RegexUtil FlatCounters CallbackValuesMap NamedCallbacks TLStatsLockTraits TimeSeriesExact ExportType Timeseries TimeseriesExporter HistogramExporter HistogramNames ExportedStatMap ExportedHistogramMap QuantileStat QuantileStatMap ServiceOptions ServiceData TLStats TLStatsLedger TLStatsCounts.
From Stdlib Require Import ZArith Lia Ascii String.
From stdpp Require Import base gmap sets list strings.
Import TLStats.

Open Scope Z_scope.
Open Scope fb303_scope.

(** ** What a lock policy promises of its series

    While the count and the sum since the last reset fit 64 bits; every call has
    at least one sample. *)
Class SeriesLaws `{LockTraits} := {
  pending_is : tl_series -> Z -> Z -> Prop;                 (** count, sum *)
  pending_new : pending_is ser_new 0 0;
  pending_add : forall v c s value n, pending_is v c s -> 0 <= c -> in_s 64 value -> 1 <= n -> in_s 64 (c + n) -> in_s 64 (s + value) ->
    pending_is (ser_addValue value n v) (c + n) (s + value);
  pending_reset : forall v c s, pending_is v c s -> (ser_reset v).1 = (c, s) /\ pending_is (ser_reset v).2 0 0
}.

(** *** [TLStatsThreadSafe], while the surplus blocks can be allocated *)
Section Policies.
Import TLStatsThreadSafe.
Definition small_call (c : call) : Prop := valid_call 64 c /\ c_alloc c = true /\ 1 <= c_count c.
Definition window (v : series) (c s : Z) : Prop :=
  exists base t cs, represents 64 base base t /\ v = foldl (add_one 64) t cs /\ Forall small_call cs /\
    c = foldr Z.add 0 (c_count <$> cs) /\ s = window_sum cs /\ in_s 64 c /\ in_s 64 s.

Lemma in_s_zero : in_s 64 0.
Proof. unfold in_s, smin, smax. lia. Qed.
Lemma samples_length cs : Forall small_call cs -> Z.of_nat (length cs) <= foldr Z.add 0 (c_count <$> cs).
Proof.
  induction 1 as [|c cs (_ & _ & Hc) _ IH]; [done|]. rewrite fmap_cons. cbn [foldr length]. lia.
Qed.
Lemma samples_app cs c : foldr Z.add 0 (c_count <$> cs ++ [c]) = foldr Z.add 0 (c_count <$> cs) + c_count c.
Proof. induction cs as [|c1 cs IH]; cbn in *; lia. Qed.
Lemma window_sum_app cs c : window_sum (cs ++ [c]) = window_sum cs + c_value c.
Proof. induction cs as [|c1 cs IH]; cbn in *; [lia|]. unfold window_sum in *. cbn. lia. Qed.
#[refine, local] Instance thread_safe_laws : @SeriesLaws (thread_safe true) := {|
  pending_is := (window : @tl_series (thread_safe true) -> Z -> Z -> Prop)
|}.
Proof.
  - exists (Totals 0 0 0), new_series, []. split; [apply represents_new; lia|]. repeat split; try done; apply in_s_zero.
  - intros v c s value n (base & t & cs & Hr & -> & Hcs & -> & -> & _) Hc Hv Hn Fc Fs.
    assert (Hsmall : small_call (Call true value n)).
    { split; [|by split]. split; [done|]. cbn. unfold in_s, smin, smax in *. lia. }
    exists base, t, (cs ++ [Call true value n]). split; [done|]. rewrite foldl_app, samples_app, window_sum_app.
    split; [done|]. split; [|done]. apply Forall_app. split; [done|]. by apply Forall_singleton.
  - intros v c s (base & t & cs & Hr & -> & Hcs & Ec & Es & Fc & Fs).
    assert (Hlen : Z.of_nat (length cs) < 2 ^ 63).
    { pose proof (samples_length cs Hcs). unfold in_s, smin, smax in Fc. simpl in Fc. lia. }
    assert (Hvalid : Forall (valid_call 64) cs) by (eapply Forall_impl; [exact Hcs|by intros ? []]).
    assert (Halloc : Forall (fun c => c_alloc c = true) cs) by (eapply Forall_impl; [exact Hcs|by intros ? (_ & ? & _)]).
    destruct (window_reset 64 ltac:(lia) cs base t Hvalid Hlen Hr) as (_ & Hres & [now Hnow] & _).
    rewrite window_count_all_alloc in Hres by done. rewrite <- Ec, <- Es, !clamps_small in Hres by done. split; [exact Hres|].
    exists now, (reset 64 (foldl (add_one 64) t cs)).2, []. split; [done|]. repeat split; try done; apply in_s_zero.
Defined.

(** *** [TLStatsNoLocking], given what folly documents of its clamped addition *)
#[refine, local] Instance no_locking_laws (cadd : Z -> Z -> Z)
    (clamped : forall a b, in_s 64 a -> in_s 64 b -> cadd a b = clamps 64 (a + b)) : @SeriesLaws (no_locking cadd) := {|
  pending_is (v : @tl_series (no_locking cadd)) c s := v = TLStatsNoLocking.Series c s /\ in_s 64 c /\ in_s 64 s
|}.
Proof.
  - split; [done|]. split; apply in_s_zero.
  - intros v c s value n (-> & Fc & Fs) Hc Hv Hn Fc' Fs'. split; [|done]. cbn. unfold TLStatsNoLocking.addValue. cbn.
    assert (Hn' : in_s 64 n) by (unfold in_s, smin, smax in *; lia).
    by rewrite !clamped, !clamps_small by done.
  - intros v c s (-> & Fc & Fs). split; [done|]. split; [done|]. split; apply in_s_zero.
Defined.
End Policies.

(** ** The ledger of one global series *)
Section Series.
Context {M : Type} `{RegexMatchCache M} {TS Hg HV : Type} `{FollyHistogram TS Hg HV} `{SimpleHistogram HV}.
Context {E U US Getter Setter W : Type} (hash : string -> Z) `{LockTraits} `{!SeriesLaws}.
Abbreviation service := (ServiceData.state M TS Hg E U US Getter Setter W).
Abbreviation state := (tls (HV := HV) * service)%type.
Abbreviation shared := (ExportedStatMap.statmap TS * CallbackValuesMap.cvm (counter_callback U) M)%type.
Context (gap_stats : shared -> shared).
Context (gap_hists : ExportedHistogramMap.histmap TS Hg *
                       (CallbackValuesMap.cvm (counter_callback U) M * CallbackValuesMap.cvm (string_callback US) M) ->
                     ExportedHistogramMap.histmap TS Hg *
                       (CallbackValuesMap.cvm (counter_callback U) M * CallbackValuesMap.cvm (string_callback US) M)).
Context (time_source : nat -> Z) (g : nat).

(** The calls that reach a global series: what they add, between updates. *)
Inductive posted (t : TS) : list (Z * Z) -> TS -> Prop :=
  | posted_none : posted t [] t
  | posted_add es t' now c s : posted t es t' -> posted t (es ++ [(c, s)]) (ts_addValueAggregated now s c t')
  | posted_update es t' now : posted t es t' -> posted t es (ts_update now t').
Lemma posted_trans t es1 t1 es2 t2 : posted t es1 t1 -> posted t1 es2 t2 -> posted t (es1 ++ es2) t2.
Proof.
  intros H1'. induction 1 as [|es t' now c s _ IH|es t' now _ IH].
  - by rewrite app_nil_r.
  - rewrite app_assoc. by constructor.
  - by constructor.
Qed.

(** Counts and sums alike. *)
Inductive measure := Samples | Amount.
Definition of_pair (m : measure) (e : Z * Z) : Z := match m with Samples => e.1 | Amount => e.2 end.
Definition added (m : measure) (es : list (Z * Z)) : Z := foldr (fun e n => of_pair m e + n) 0 es.
Lemma added_app m es1 es2 : added m (es1 ++ es2) = added m es1 + added m es2.
Proof. unfold added. induction es1 as [|e es1 IH]; cbn in *; lia. Qed.

(** What a stat holds for the series. *)
Definition pending (m : measure) (x : tlstat (HV := HV)) : Z :=
  match contents x with
  | TLTimeseries (Some a) v => if Nat.eqb a g then of_pair m (ser_reset v).1 else 0
  | _ => 0
  end.
Definition live (t : TS) (sm : ExportedStatMap.statmap TS) : Prop :=
  ExportedStatMap.stats sm !! g = Some t /\ (g < ExportedStatMap.next_stat sm)%nat.
Definition empty_data (d : data (HV := HV)) : Prop := match d with TLTimeseries _ v => pending_is v 0 0 | _ => True end.
(** Every series holds what its policy says of it, within these bounds. *)
Definition within (bc bs : Z) (d : data (HV := HV)) : Prop :=
  match d with
  | TLTimeseries _ v => exists c s, pending_is v c s /\ 0 <= c <= bc /\ Z.abs s <= bs /\ (c = 0 -> s = 0)
  | _ => True
  end.
Definition all_within (bc bs : Z) (s : state) : Prop :=
  (exists t, live t (ServiceData.statsMap_ s.2)) /\ forall p x, stats s.1 !! p = Some x -> within bc bs (contents x).
Definition balanced (bc bs : Z) (s s' : state) : Prop := all_within bc bs s ->
  all_within bc bs s' /\ forall t, live t (ServiceData.statsMap_ s.2) -> exists es t',
    live t' (ServiceData.statsMap_ s'.2) /\ posted t es t' /\
    forall m, added m es + map_sum (pending m) (stats s'.1) = map_sum (pending m) (stats s.1).
Definition undisturbed (d d' : service) : Prop :=
  forall t, live t (ServiceData.statsMap_ d) -> live t (ServiceData.statsMap_ d').

#[local] Instance balanced_preorder bc bs : PreOrder (balanced bc bs).
Proof.
  split.
  - intros s Hw. split; [done|]. intros t Ht. exists [], t. split; [done|]. split; [constructor|done].
  - intros s1 s2 s3 B1 B2 Hw. destruct (B1 Hw) as [Hw2 P1]. destruct (B2 Hw2) as [Hw3 P2]. split; [done|].
    intros t Ht. destruct (P1 t Ht) as (es1 & t1 & Ht1 & Po1 & A1). destruct (P2 t1 Ht1) as (es2 & t2 & Ht2 & Po2 & A2).
    exists (es1 ++ es2), t2. split; [done|]. split; [by apply (posted_trans t es1 t1)|]. intros m. rewrite added_app, <- A1, <- A2. lia.
Qed.
#[local] Instance undisturbed_preorder : PreOrder undisturbed.
Proof. split; [by intros d t|]. intros d1 d2 d3 E1 E2 t Ht. by apply E2, E1. Qed.

Lemma pending_empty m x : empty_data (contents x) -> pending m x = 0.
Proof.
  unfold pending. destruct (contents x) as [[a|] v| |]; try done. cbn. intros Hv. destruct (pending_reset v 0 0 Hv) as [-> _].
  destruct m, (Nat.eqb a g); done.
Qed.
Lemma empty_within bc bs d : 0 <= bc -> 0 <= bs -> empty_data d -> within bc bs d.
Proof. destruct d as [a v| |]; [|done..]. cbn. intros. exists 0, 0. repeat split; try done; lia. Qed.

(** A stat is written, and what it held for the series is posted. *)
Lemma balanced_put bc bs p x x' (s s' : state) :
  stats s.1 !! p = Some x -> stats s'.1 = <[p := x']> (stats s.1) -> within bc bs (contents x') ->
  (forall t, live t (ServiceData.statsMap_ s.2) -> exists es t', live t' (ServiceData.statsMap_ s'.2) /\ posted t es t' /\
     forall m, added m es + pending m x' = pending m x) ->
  balanced bc bs s s'.
Proof.
  intros Hp Hs Hx' Hpost [[t Ht] Hw]. split.
  - split; [destruct (Hpost t Ht) as (_ & t' & Ht' & _); by exists t'|]. rewrite Hs. intros q y Hq.
    destruct (decide (q = p)) as [->|Hne]; [rewrite lookup_insert_eq in Hq; by injection Hq as <-|].
    rewrite lookup_insert_ne in Hq by done. by apply (Hw q).
  - intros u Hu. destruct (Hpost u Hu) as (es & t' & Ht' & Po & A). exists es, t'. split; [done|]. split; [done|]. intros m.
    rewrite Hs, (map_sum_update _ _ _ _ _ Hp), <- (A m). lia.
Qed.
Lemma balanced_same bc bs (s s' : state) : stats s'.1 = stats s.1 -> undisturbed s.2 s'.2 -> balanced bc bs s s'.
Proof.
  intros Hs Hd [[t Ht] Hw]. split; [split; [exists t; by apply Hd|by rewrite Hs]|]. intros u Hu. exists [], u.
  split; [by apply Hd|]. split; [constructor|]. by rewrite Hs.
Qed.
Lemma silent_put bc bs p x x' (s : state) :
  stats s.1 !! p = Some x -> (all_within bc bs s -> within bc bs (contents x')) -> (forall m, pending m x' = pending m x) ->
  balanced bc bs s (put_stat p x' s).2.
Proof.
  intros Hp Hx' Hm Hs. apply (balanced_put bc bs p x x'); try done; [by apply Hx'|].
  intros t Ht. exists [], t. split; [done|]. split; [constructor|]. intros m. by rewrite Hm.
Qed.

(** *** Aggregation posts what a series holds *)
Abbreviation stat_map := (fun s : state => ServiceData.statsMap_ s.2).
Definition after_calls (es : list (Z * Z)) (s s' : state) : Prop :=
  s'.1 = s.1 /\ forall t, live t (stat_map s) -> exists t', live t' (stat_map s') /\ posted t es t'.
Lemma after_calls_trans es1 es2 s1 s2 s3 : after_calls es1 s1 s2 -> after_calls es2 s2 s3 -> after_calls (es1 ++ es2) s1 s3.
Proof.
  intros [F1 P1] [F2 P2]. split; [congruence|]. intros t Ht. destruct (P1 t Ht) as (t1 & Ht1 & Po1).
  destruct (P2 t1 Ht1) as (t2 & Ht2 & Po2). exists t2. split; [done|]. by apply (posted_trans t es1 t1).
Qed.
Lemma after_nothing s : after_calls [] s s.
Proof. split; [done|]. intros t Ht. exists t. split; [done|constructor]. Qed.
Lemma locked_calls f a es (s s' : state) :
  on_service (ServiceData.on_stats (ExportedStatMap.locked f a)) s = (Ret tt, s') ->
  (forall t, posted t es (f t)) -> after_calls (if Nat.eqb a g then es else []) s s'.
Proof.
  unfold on_service, ServiceData.on_stats, ServiceData.on_part, ExportedStatMap.locked, ExportedStatMap.deref, se_bind. cbn [fst].
  destruct (ExportedStatMap.stats (ServiceData.statsMap_ s.2) !! a) as [u|] eqn:Hu; [|done]. intros [= <-] Hf.
  split; [done|]. intros t [Ht Hn]. unfold live. cbn. destruct (Nat.eqb_spec a g) as [->|Hne].
  - rewrite Hu in Ht. injection Ht as ->. exists (f t). rewrite lookup_insert_eq. by split.
  - exists t. rewrite lookup_insert_ne by done. repeat split; try done. constructor.
Qed.
Lemma deref_calls a (s s' : state) b : lock_global (Some a) s = (Ret b, s') -> b = a /\ s' = s.
Proof.
  unfold lock_global, on_service, ServiceData.on_stats, ServiceData.on_part, ExportedStatMap.deref, se_bind. cbn [fst].
  destruct (ExportedStatMap.stats (ServiceData.statsMap_ s.2) !! a); [|done]. intros [= <- <-]. split; [done|].
  by destruct s as [? []].
Qed.
Lemma when_calls b f a es (s s' : state) :
  when b (on_service (ServiceData.on_stats (ExportedStatMap.locked f a))) s = (Ret tt, s') ->
  (forall t, posted t es (f t)) -> after_calls (if b && Nat.eqb a g then es else []) s s'.
Proof.
  destruct b; cbn [andb]; [apply locked_calls|]. intros [= <-] _. apply after_nothing.
Qed.
(** The calls of one aggregation, if the stat leads to the series. *)
Definition calls (ga : option nat) (c sm : Z) : list (Z * Z) :=
  match ga with Some a => if negb (c =? 0) && Nat.eqb a g then [(c, sm)] else [] | None => [] end.
Lemma aggregated_calls ga c sm now (update : bool) (s s' : state) :
  (if (c =? 0) && negb update then se_ret tt
   else
     let* a := lock_global ga in
     when (negb (c =? 0)) (on_service (ServiceData.on_stats (ExportedStatMap.locked (ts_addValueAggregated now sm c) a))) >>>
     when update (on_service (ServiceData.on_stats (ExportedStatMap.locked (ts_update now) a)))) s = (Ret tt, s') ->
  after_calls (calls ga c sm) s s' /\ (ga = None -> c = 0).
Proof.
  destruct ((c =? 0) && negb update) eqn:Hb.
  - intros [= <-]. apply andb_true_iff in Hb as [Hc _]. unfold calls. rewrite Hc. split; [|by apply Z.eqb_eq in Hc].
    destruct ga; apply after_nothing.
  - destruct ga as [a|]; [|done]. intros (b & s1 & [-> ->]%deref_calls & Ea)%se_bind_inv.
    apply se_bind_inv in Ea as ([] & s2 & E1 & E2). split; [|done]. rewrite <- (app_nil_r (calls (Some a) c sm)).
    apply (after_calls_trans _ _ _ s2).
    + apply (when_calls _ _ _ [(c, sm)]) in E1; [done|]. intros t. apply (posted_add t [] t). constructor.
    + apply (when_calls _ _ _ []) in E2; [by destruct (update && Nat.eqb a g)|]. intros t. constructor. constructor.
Qed.

Section Bounds.
Context (bc bs : Z) (Hbc : 0 <= bc) (Hbs : 0 <= bs).
Abbreviation emptied := (emptied (balanced bc bs) empty_data).

Lemma emptied_at p x x' (s s' : state) :
  stats s.1 !! p = Some x -> same_meta x x' -> empty_data (contents x') -> balanced bc bs s s' ->
  stats s'.1 = <[p := x']> (stats s.1) -> containers s'.1 = containers s.1 -> emptied p s s'.
Proof.
  intros Hp Hm He Hb Hs Hc. exists x, x'. split; [|done]. split; [done| | |done].
  - rewrite Hs. by rewrite lookup_insert_eq.
  - intros q Hq. rewrite Hs. by rewrite lookup_insert_ne.
Qed.
Lemma series_posted p x ga v now (s s' : state) :
  all_within bc bs s -> stats s.1 !! p = Some x -> contents x = TLTimeseries ga v ->
  aggregate_series p x ga v now s = (Ret tt, s') -> emptied p s s'.
Proof.
  intros Hall Hp Hx. pose proof (proj2 Hall p x Hp) as Hw. rewrite Hx in Hw. destruct Hw as (c & sm & Hv & Hc & Hsm & Hz).
  destruct (pending_reset v c sm Hv) as [Er Hv']. unfold aggregate_series. destruct (ser_reset v) as [r v'] eqn:Ers.
  cbn [fst snd] in Er, Hv'. subst r. set (x' := set_contents (TLTimeseries ga v') x).
  intros ([] & s1 & [= <-] & Ea)%se_bind_inv. apply se_bind_inv in Ea as (l & s1 & ->%get_link_eq & Ea).
  apply aggregated_calls in Ea as [[F P] Hnone]. set (s1 := (put_stat p x' s).2) in *.
  apply (emptied_at p x x'); try done; [|by rewrite F|by rewrite F].
  apply (balanced_put bc bs p x x'); [done|by rewrite F|by apply empty_within|].
  intros t Ht. destruct (P t Ht) as (t' & Ht' & Po). exists (calls ga c sm), t'. split; [done|]. split; [done|].
  intros m. rewrite (pending_empty m x') by done. unfold pending. rewrite Hx, Ers. unfold calls. destruct ga as [a|]; [|done].
  destruct (Z.eqb_spec c 0) as [E0|_], (Nat.eqb a g); cbn; try done; destruct m; cbn; try rewrite Hz by done; lia.
Qed.

Lemma histogram_posted p x ga h dirty now (s s' : state) :
  stats s.1 !! p = Some x -> contents x = TLHistogram ga h dirty ->
  aggregate_histogram p x ga h dirty now s = (Ret tt, s') -> emptied p s s'.
Proof.
  intros Hp Hx. unfold aggregate_histogram. destruct dirty; cbn [negb].
  - intros ([] & s1 & E1 & [= <-])%se_bind_inv. set (x' := set_contents (TLHistogram ga (sh_clear h) false) x).
    assert (Hs1 : s1.1 = s.1 /\ stat_map s1 = stat_map s).
    { revert E1. unfold on_service, ServiceData.on_hists, ServiceData.on_part. destruct (ExportedHistogramMapImpl.addValues _ _ _ _) as [r h']. by intros [= _ <-]. }
    destruct Hs1 as [F1 G1]. apply (emptied_at p x x'); try done; [|cbn; by rewrite F1|cbn; by rewrite F1].
    etrans; [apply (balanced_same bc bs s s1); [by rewrite F1|intros t; by rewrite G1]|].
    apply (silent_put bc bs p x); [by rewrite F1|done|]. intros m. unfold pending. by rewrite Hx.
  - intros [= <-]. apply (emptied_at p x x); try done; [by rewrite Hx|by rewrite insert_id].
Qed.
Lemma counter_posted p x v (s s' : state) :
  stats s.1 !! p = Some x -> contents x = TLCounter v -> aggregate_counter (fun c => c) p x v s = (Ret tt, s') -> emptied p s s'.
Proof.
  intros Hp Hx. unfold aggregate_counter. destruct (ctr_reset v) as [delta v']. set (x' := set_contents (TLCounter v') x).
  intros ([] & s1 & [= <-] & Ea)%se_bind_inv. set (s1 := (put_stat p x' s).2) in *.
  assert (Hs1 : s'.1 = s1.1 /\ stat_map s' = stat_map s1).
  { destruct (delta =? 0); [by injection Ea as <-|]. apply se_bind_inv in Ea as (r & s2 & E1 & [= <-]). revert E1.
    unfold on_service, ServiceData.incrementCounter, ServiceData.on_flat, ServiceData.on_part.
    destruct (FlatCounters.incrementCounter _ _ _ _) as [o c]. by intros [= _ <-]. }
  destruct Hs1 as [F1 G1]. apply (emptied_at p x x'); try done; [|by rewrite F1|by rewrite F1].
  etrans; [apply (silent_put bc bs p x x' s Hp); [done|]|apply balanced_same; [by rewrite F1|intros t; by rewrite G1]].
  intros m. unfold pending. by rewrite Hx.
Qed.

(** Other threads, between the lock regions of a creation, leave the series be. *)
Context (gap_leaves : forall p t, live t p.1 -> live t (gap_stats p).1).
Lemma create_undisturbed n levels (d : service) :
  undisturbed d (ServiceData.on_stats (ExportedStatMapImpl.getLockableStatNoExport gap_stats n levels) d).2.
Proof.
  intros t Ht. unfold ServiceData.on_stats, ServiceData.on_part. set (p := (ServiceData.statsMap_ d, ServiceData.dynamicCounters_ d)).
  assert (Hp : live t (ExportedStatMapImpl.getLockableStatNoExport gap_stats n levels p).2.1).
  2: { by destruct (ExportedStatMapImpl.getLockableStatNoExport gap_stats n levels p) as [r p']. }
  change (live t p.1) in Ht. generalize dependent p. intros p Ht.
  unfold ExportedStatMapImpl.getLockableStatNoExport, ExportedStatMap.getStatPtrNoExport, ExportedStatMap.find, se_bind.
  destruct (ExportedStatMap.statMap_ p.1 !! n); [done|]. cbn. pose proof (gap_leaves p t Ht) as Hlive. set (q := gap_stats p) in *.
  destruct (ExportedStatMap.statMap_ q.1 !! n); [done|].
  assert (Hnew : forall u, live t (ExportedStatMap.new_stat u q).2.1).
  { intros u. destruct Hlive as [Hl1 Hl2]. split; cbn; [rewrite lookup_insert_ne by lia; done|lia]. }
  unfold ExportedStatMap.blueprint, se_bind, se_get. destruct levels as [u|]; [apply Hnew|].
  destruct (ExportedStatMap.defaultStat_ q.1); [apply Hnew|done].
Qed.
Lemma export_undisturbed l n t u (d : service) :
  undisturbed d (ServiceData.on_stats (@ExportedStatMapImpl.exportStat TS _ _ _ (callback_values_map hash) StatCounter l n t u) d).2.
Proof.
  intros v Hv. unfold ServiceData.on_stats, ServiceData.on_part, ExportedStatMapImpl.exportStat, ExportedStatMap.deref, ExportedStatMap.on_counters, se_bind.
  destruct (ExportedStatMapImpl.stat_ l); [|done]. cbn [fst snd]. destruct (ExportedStatMap.stats (ServiceData.statsMap_ d) !! n0); [|done].
  by destruct (TimeseriesExporter.exportStat _ _ _ _ _ _ _).
Qed.

#[refine, local] Instance series_ledger : Ledger (E := E) (US := US) (Getter := Getter) (Setter := Setter) (W := W)
    (hash := hash) (gap_stats := gap_stats) := {|
  void := empty_data; sound := all_within bc bs; kept := balanced bc bs; quiet := undisturbed
|}.
Proof.
  - intros s s' Hs Hb. by apply Hb.
  - apply balanced_same.
  - intros s p x x' Hp Hc Hn. apply (silent_put bc bs p x); [done| |].
    + intros [_ Hw]. rewrite Hc. by apply (Hw p).
    + intros m. unfold pending. by rewrite Hc.
  - intros s p x x' Hp Hz Hz'. apply (silent_put bc bs p x); [done| |].
    + intros _. by apply empty_within.
    + intros m. by rewrite !pending_empty.
  - intros s p x Hp Hz [[t Ht] Hw]. split.
    + split; [by exists t|]. intros q y Hq. cbn in Hq. destruct (decide (q = p)) as [->|Hne].
      * rewrite lookup_insert_eq in Hq. injection Hq as <-. by apply empty_within.
      * rewrite lookup_insert_ne in Hq by done. by apply (Hw q).
    + intros u Hu. exists [], u. split; [done|]. split; [constructor|]. intros m. cbn [fst snd stats with_stats].
      by rewrite map_sum_insert, pending_empty by done.
  - intros s p x Hp Hz [[t Ht] Hw]. split.
    + split; [by exists t|]. intros q y Hq. cbn in Hq. apply lookup_delete_Some in Hq as [_ Hq]. by apply (Hw q).
    + intros u Hu. exists [], u. split; [done|]. split; [constructor|]. intros m. cbn [fst snd stats with_stats].
      rewrite (map_sum_delete _ _ _ _ Hp), pending_empty by done. cbn. lia.
  - done.
  - intros ga. apply pending_new.
  - done.
  - done.
  - intros p now s s' Hall. unfold aggregate_stat. intros (x & s1 & [Hp ->]%get_stat_eq & Ea)%se_bind_inv.
    destruct (contents x) eqn:Hx; [by eapply series_posted|by eapply histogram_posted|by eapply counter_posted].
  - intros A f d t. unfold ServiceData.on_clock, ServiceData.on_part. by destruct (f _).
  - intros A f d t. unfold ServiceData.on_hists, ServiceData.on_part. by destruct (f _).
  - apply create_undisturbed.
  - apply export_undisturbed.
Defined.
End Bounds.

(** *** Recording *)
Definition series_inv (bc bs : Z) (s : state) : Prop :=
  all_within bc bs s /\ forall p x, stats s.1 !! p = Some x -> isLinked x = false -> empty_data (contents x).
(** A stat that is recorded into is linked, and every call has a sample: a sum
    without one may be lost ([sum_without_samples_dropped]), and what is recorded
    into a stat that was moved from goes to no series. *)
Definition linked (p : nat) (s : state) : bool := match stats s.1 !! p with Some x => isLinked x | None => false end.
Definition used_well (o : op (TS := TS)) (s : state) : bool :=
  match o with
  | OAddValue p _ => linked p s
  | OAddValueAggregated p _ n => linked p s && (1 <=? n)
  | _ => true
  end.
Definition samples (o : op (TS := TS)) : Z := match o with OAddValue _ _ => 1 | OAddValueAggregated _ _ n => n | _ => 0 end.
Definition magnitude (o : op (TS := TS)) : Z :=
  match o with OAddValue _ v => Z.abs v | OAddValueAggregated _ v _ => Z.abs v | _ => 0 end.
Definition leads_here (p : nat) (s : state) : bool :=
  match stats s.1 !! p with
  | Some x => match contents x with TLTimeseries (Some a) _ => Nat.eqb a g | _ => false end
  | None => false
  end.
(** What an operation records for the series. *)
Definition recorded (m : measure) (o : op (TS := TS)) (s : state) : Z :=
  match o with
  | OAddValue p v => if leads_here p s then of_pair m (1, v) else 0
  | OAddValueAggregated p v n => if leads_here p s then of_pair m (n, v) else 0
  | _ => 0
  end.
Abbreviation exec := (exec (E := E) (US := US) (Getter := Getter) (Setter := Setter) (W := W) hash gap_stats gap_hists time_source).

(** What an operation did: [now] is what is pending, [es] what was posted. *)
Definition accounted (r : measure -> Z) (s s' : state) : Prop :=
  forall t, live t (stat_map s) -> exists es t', live t' (stat_map s') /\ posted t es t' /\
    forall m, added m es + map_sum (pending m) (stats s'.1) = map_sum (pending m) (stats s.1) + r m.
Lemma within_mono bc bs bc' bs' d : bc <= bc' -> bs <= bs' -> within bc bs d -> within bc' bs' d.
Proof.
  intros Hc Hs. destruct d as [a v| |]; [|done..]. intros (c & sm & Hv & Hb & Hsm & Hz). exists c, sm. repeat split; try done; lia.
Qed.
Lemma record_put bc bs p x x' (s : state) (r : measure -> Z) bc' bs' :
  series_inv bc bs s -> stats s.1 !! p = Some x -> bc <= bc' -> bs <= bs' -> within bc' bs' (contents x') ->
  isLinked x' = true -> (forall m, pending m x' = pending m x + r m) ->
  series_inv bc' bs' (put_stat p x' s).2 /\ accounted r s (put_stat p x' s).2.
Proof.
  intros [[Hlive Hw] Hu] Hp Hc Hs Hx' Hl Hm. split; [split; [split; [done|]|]|].
  - intros q y Hq. cbn in Hq. destruct (decide (q = p)) as [->|Hne].
    + rewrite lookup_insert_eq in Hq. by injection Hq as <-.
    + rewrite lookup_insert_ne in Hq by done. by apply (within_mono bc bs), (Hw q).
  - intros q y Hq Hly. cbn in Hq. destruct (decide (q = p)) as [->|Hne].
    + rewrite lookup_insert_eq in Hq. injection Hq as <-. congruence.
    + rewrite lookup_insert_ne in Hq by done. by apply (Hu q).
  - intros t Ht. exists [], t. split; [done|]. split; [constructor|]. intros m. cbn. rewrite (map_sum_update _ _ _ _ _ Hp), Hm. lia.
Qed.
(** One call on a linked series. *)
Lemma record_series bc bs p x ga v n value (s : state) :
  series_inv bc bs s -> stats s.1 !! p = Some x -> isLinked x = true -> contents x = TLTimeseries ga v ->
  0 <= bc -> 0 <= bs -> 1 <= n -> bc + n < 2 ^ 63 -> bs + Z.abs value < 2 ^ 63 ->
  let s' := (put_stat p (set_contents (TLTimeseries ga (ser_addValue value n v)) x) s).2 in
  series_inv (bc + n) (bs + Z.abs value) s' /\ accounted (fun m => if leads_here p s then of_pair m (n, value) else 0) s s'.
Proof.
  intros Hi Hp Hl Hx Hbc Hbs Hn Fc Fs. pose proof (proj2 (proj1 Hi) p x Hp) as Hw. rewrite Hx in Hw.
  destruct Hw as (c & sm & Hv & Hc & Hsm & Hz).
  assert (Hadd : pending_is (ser_addValue value n v) (c + n) (sm + value)).
  { apply pending_add; try done; unfold in_s, smin, smax; simpl; lia. }
  apply (record_put bc bs p x); try done; [lia|lia| |].
  - exists (c + n), (sm + value). split; [done|]. lia.
  - intros m. unfold leads_here, pending. rewrite Hp, Hx. cbn. destruct ga as [a|]; [|done]. destruct (Nat.eqb a g); [|done].
    destruct (pending_reset _ _ _ Hadd) as [-> _], (pending_reset _ _ _ Hv) as [-> _]. by destruct m.
Qed.
Lemma accounted_kept bc bs (s s' : state) : all_within bc bs s -> balanced bc bs s s' -> accounted (fun _ => 0) s s'.
Proof.
  intros Hw Hb t Ht. destruct (proj2 (Hb Hw) t Ht) as (es & t' & Ht' & Po & A). exists es, t'. split; [done|]. split; [done|].
  intros m. rewrite A. lia.
Qed.
Lemma accounted_trans r1 r2 s1 s2 s3 : accounted r1 s1 s2 -> accounted r2 s2 s3 -> accounted (fun m => r1 m + r2 m) s1 s3.
Proof.
  intros A1 A2 t Ht. destruct (A1 t Ht) as (es1 & t1 & Ht1 & Po1 & S1). destruct (A2 t1 Ht1) as (es2 & t2 & Ht2 & Po2 & S2).
  exists (es1 ++ es2), t2. split; [done|]. split; [by apply (posted_trans t es1 t1)|]. intros m. rewrite added_app.
  specialize (S1 m). specialize (S2 m). lia.
Qed.

(** *** Every operation *)
Context (gap_leaves : forall p t, live t p.1 -> live t (gap_stats p).1).
Lemma samples_nonneg o s : used_well o s = true -> 0 <= samples o /\ 0 <= magnitude o.
Proof. destruct o; cbn; lia. Qed.
Lemma exec_silent bc bs (Hbc : 0 <= bc) (Hbs : 0 <= bs) o (s s' : state) :
  series_inv bc bs s -> keeps (L := series_ledger bc bs Hbc Hbs gap_leaves) (exec o) -> exec o s = (Ret tt, s') ->
  series_inv bc bs s' /\ accounted (fun _ => 0) s s'.
Proof.
  intros Hi Hk He. destruct (Hk s tt s' Hi He) as [Hi' K]. split; [done|].
  by apply (accounted_kept bc bs); [apply Hi|].
Qed.
Lemma exec_accounted bc bs o (s s' : state) :
  0 <= bc -> 0 <= bs -> series_inv bc bs s -> used_well o s = true -> exec o s = (Ret tt, s') ->
  bc + samples o < 2 ^ 63 -> bs + magnitude o < 2 ^ 63 ->
  series_inv (bc + samples o) (bs + magnitude o) s' /\ accounted (fun m => recorded m o s) s s'.
Proof.
  intros Hbc Hbs Hi Hu He Fc Fs. destruct (records o) eqn:Hr.
  2: { pose proof (exec_keeps (L := series_ledger bc bs Hbc Hbs gap_leaves) hash gap_stats gap_hists time_source o Hr) as Hk.
       replace (bc + samples o) with bc by (destruct o; cbn; lia || done). replace (bs + magnitude o) with bs by (destruct o; cbn; lia || done).
       destruct (exec_silent bc bs Hbc Hbs o s s' Hi Hk He) as [Hi' A]. split; [done|]. by destruct o. }
  assert (Hvoid : forall p x d, stats s.1 !! p = Some x -> empty_data (contents x) -> empty_data d -> leads_here p s = false ->
    series_inv bc bs (put_stat p (set_contents d x) s).2 /\ accounted (fun _ => 0) s (put_stat p (set_contents d x) s).2).
  { intros p x d Hp Hz Hz' Hh. destruct (put_void (L := series_ledger bc bs Hbc Hbs gap_leaves) p (set_contents d x) s Hi) as [[Hi' K] _];
      [by exists x|done|]. split; [done|]. apply (accounted_kept bc bs); [apply Hi|done]. }
  destruct o as [| | | | | | | |p v|p v n| |p a| | |]; try done; cbn [TLStatsLedger.exec] in He.
  - unfold addValue in He. apply se_bind_inv in He as (x & s1 & [Hp ->]%get_stat_eq & Ea).
    cbn in Hu. unfold linked in Hu. rewrite Hp in Hu. cbn [samples magnitude recorded] in *.
    destruct (contents x) as [ga w|ga h b|w] eqn:Hx; [| |done]; injection Ea as <-; [by apply (record_series bc bs p x ga w 1 v s)|].
    destruct (Hvoid p x (TLHistogram ga (sh_addValue v h) true) Hp ltac:(by rewrite Hx) I) as [[[Hl Hw] Hu'] A].
    { unfold leads_here. by rewrite Hp, Hx. }
    split; [split; [split; [done|]|done]|].
    + intros q y Hq. by apply (within_mono bc bs); [lia|lia|apply (Hw q)].
    + unfold leads_here. by rewrite Hp, Hx.
  - unfold addValueAggregated in He. apply se_bind_inv in He as (x & s1 & [Hp ->]%get_stat_eq & Ea).
    cbn in Hu. apply andb_true_iff in Hu as [Hu Hn%Z.leb_le]. unfold linked in Hu. rewrite Hp in Hu. cbn [samples magnitude recorded] in *.
    destruct (contents x) as [ga w| |] eqn:Hx; [|done..]. injection Ea as <-. by apply (record_series bc bs p x ga w n v s).
  - unfold incrementValue in He. apply se_bind_inv in He as (x & s1 & [Hp ->]%get_stat_eq & Ea). cbn [samples magnitude] in *.
    rewrite !Z.add_0_r. destruct (contents x) as [| |w] eqn:Hx; [done..|]. apply se_bind_inv in Ea as (w' & s2 & E1 & E2).
    unfold TLStats.lift in E1. injection E1 as _ ->. injection E2 as <-.
    apply (Hvoid p x (TLCounter w') Hp ltac:(by rewrite Hx) I). unfold leads_here. by rewrite Hp, Hx.
Qed.

Definition total_samples (l : list (op (TS := TS))) : Z := foldr (fun o n => samples o + n) 0 l.
Definition total_magnitude (l : list (op (TS := TS))) : Z := foldr (fun o n => magnitude o + n) 0 l.
Abbreviation runs m := (CountedRuns.runs exec used_well (recorded m)).
Lemma recorded_nonneg m s l n s' : runs m s l n s' -> 0 <= total_samples l /\ 0 <= total_magnitude l.
Proof.
  induction 1 as [s|s o s1 l n s' Hused He Hr IH]; [done|]. destruct (samples_nonneg o s Hused). cbn. unfold total_samples, total_magnitude in *. lia.
Qed.
Lemma runs_accounted l bc bs (n : measure -> Z) (s s' : state) :
  (forall m, runs m s l (n m) s') -> 0 <= bc -> 0 <= bs -> series_inv bc bs s ->
  bc + total_samples l < 2 ^ 63 -> bs + total_magnitude l < 2 ^ 63 -> accounted n s s'.
Proof.
  revert bc bs n s. induction l as [|o l IH]; intros bc bs n s Hr Hbc Hbs Hi Fc Fs.
  - assert (Hn : forall m, n m = 0 /\ s' = s) by (intros m; pose proof (Hr m) as Hm; inversion Hm; by subst).
    destruct (Hn Samples) as [_ ->]. intros t Ht. exists [], t. split; [done|]. split; [constructor|]. intros m. destruct (Hn m) as [-> _]. cbn. lia.
  - assert (Hstep : exists s1, used_well o s = true /\ exec o s = (Ret tt, s1) /\
      forall m, runs m s1 l (n m - recorded m o s) s').
    { pose proof (Hr Samples) as H1'. inversion H1' as [|? ? s1 ? k ? Hused He Hrest]; subst. exists s1. split; [done|]. split; [done|].
      intros m. pose proof (Hr m) as Hm. inversion Hm as [|? ? s2 ? k2 ? Hg2 He2 Hrest2]; subst. rewrite He in He2. injection He2 as <-.
      by replace (recorded m o s + k2 - recorded m o s) with k2 by lia. }
    destruct Hstep as (s1 & Hused & He & Hrest). destruct (samples_nonneg o s Hused) as [Hs0 Hm0]. destruct (recorded_nonneg _ _ _ _ _ (Hrest Samples)) as [Hs1 Hm1].
    cbn [total_samples total_magnitude foldr] in Fc, Fs. fold (total_samples l) in Fc. fold (total_magnitude l) in Fs.
    destruct (exec_accounted bc bs o s s1 Hbc Hbs Hi Hused He ltac:(lia) ltac:(lia)) as [Hi1 A1].
    assert (A2 : accounted (fun m => n m - recorded m o s) s1 s').
    { apply (IH (bc + samples o) (bs + magnitude o)); try done; lia. }
    intros t Ht. destruct (accounted_trans _ _ _ _ _ A1 A2 t Ht) as (es & t' & Ht' & Po & S). exists es, t'. split; [done|]. split; [done|].
    intros m. specialize (S m). lia.
Qed.

(** [TLTimeseriesT::aggregate] has emptied the stat when it finds no sample: a sum
    recorded with none then goes nowhere (in a container whose global stats are
    updated when read; another one still updates the global series). *)
Lemma sum_without_samples_dropped p x c a v sum now (s : state) :
  stats s.1 !! p = Some x -> contents x = TLTimeseries a v -> (ser_reset v).1 = (0, sum) ->
  containers s.1 !! link_ x = Some c -> updateGlobalStatsOnRead_ c = true ->
  aggregate_stat (fun c => c) p now s = put_stat p (set_contents (TLTimeseries a (ser_reset v).2) x) s.
Proof.
  intros Hp Hx Hr Hc Hu. unfold aggregate_stat, se_bind at 1, get_stat. rewrite Hp, Hx. unfold aggregate_series.
  destruct (ser_reset v) as [r v']. cbn in Hr. subst r. unfold se_bind. cbn. unfold get_link. cbn. by rewrite Hc, Hu.
Qed.

(** C8: what thread-local time series record reaches the global one.  Run operations
    on thread-local stats and containers, one after the other and all of them
    returning, beginning with no stat, such that a stat is linked - not moved from -
    whenever a value is added to it and every [addValueAggregated] has at least one
    sample ([used_well]); let the samples, and the magnitudes of the values, stay below
    [2 ^ 63] in total, and what other threads do to the stat map meanwhile leave the
    live series alone ([gap_leaves]).  Then a live global time series got exactly what
    was recorded for it: what it went through is a sequence of [addValueAggregated]
    calls, between updates, whose counts and sums, together with those still held by
    the thread-local series that lead to it, are the samples and the values recorded;
    with no stat left, all of them.  Stats may be moved, swapped, copied, aggregated
    and destroyed at whatever point, and containers too. *)
Theorem series_delivered (t : TS) (s : state) (l : list (op (TS := TS))) (n : measure -> Z) (s' : state) :
  stats s.1 = ∅ -> live t (stat_map s) -> total_samples l < 2 ^ 63 -> total_magnitude l < 2 ^ 63 ->
  (forall m, runs m s l (n m) s') ->
  exists es t', live t' (stat_map s') /\ posted t es t' /\
    (forall m, added m es + map_sum (pending m) (stats s'.1) = n m) /\
    (stats s'.1 = ∅ -> added Samples es = n Samples /\ added Amount es = n Amount).
Proof.
  intros Hs Ht Fc Fs Hr. assert (Hi : series_inv 0 0 s).
  { split; [split; [by exists t|]|]; intros p x; by rewrite Hs, lookup_empty. }
  destruct (runs_accounted l 0 0 n s s' Hr ltac:(lia) ltac:(lia) Hi ltac:(lia) ltac:(lia) t Ht) as (es & t' & Ht' & Po & A).
  assert (Ha : forall m, added m es + map_sum (pending m) (stats s'.1) = n m) by (intros m; rewrite A, Hs, map_sum_empty; lia).
  exists es, t'. split; [done|]. split; [done|]. split; [done|]. intros He. pose proof (Ha Samples) as H1'. pose proof (Ha Amount) as H2'.
  rewrite He, map_sum_empty, Z.add_0_r in H1', H2'. done.
Qed.
End Series.

(** ** A concrete run *)
Section Example_.
Import EventSeries CoarseHistogram SampleEstimator PrefixCache.
#[local] Existing Instances example_histogram example_simple example_locks thread_safe_laws.
Abbreviation example_state := (tls (HV := simple) * ServiceData.state cache series histogram est Z string bool string unit)%type (only parsing).
Definition loaded_start : example_state :=
  (TLS ∅ ∅,
   ServiceData.State 0 (ServiceOptions.Options false ∅ ∅) RegexUtil.empty_syncmap ∅
     CallbackValuesMap.make CallbackValuesMap.make
     (ExportedStatMap.StatMap {[ "load" := 0%nat ]} {[ 0%nat := in_unit milliseconds ]} 1 [AVG] (Some (in_unit milliseconds)))
     QuantileStatMap.empty_state (ExportedHistogramMap.make (in_unit seconds) (Hist 10 0 100 (in_unit seconds))) (LegacyClock.Clock 0) tt).
(** Three series over "load", one of them over "idle" before it is assigned from a
    copy; a series is moved, and the container goes before the last values. *)
Definition loaded_ops : list (op (TS := series)) :=
  [ONewContainer true; ONewTimeseries 0 "load" None [AVG]; ONewTimeseries 0 "idle" None []; OAddValue 0 30; OAddValueAggregated 1 9 3;
   OAggregate 0; OCopyTimeseries 0 0; OAddValueAggregated 2 (-50) 4; OMoveAssign 1 2; OAddValue 1 7; OMoveConstruct 0;
   ODestroyContainer 0; OAddValue 3 100; ODestroy 0; ODestroy 1; ODestroy 2; ODestroy 3].
Abbreviation loaded_run m :=
  (run_counted (exec name_hash id id (fun n => Z.of_nat n)) used_well (recorded 0 m) loaded_ops loaded_start).
Definition loaded_end : example_state := match loaded_run Samples with Some r => r.2 | None => loaded_start end.
Definition loaded_total (m : measure) : Z := match m with Samples => 7 | Amount => 87 end.
Lemma loaded_runs m : CountedRuns.runs (exec name_hash id id (fun n => Z.of_nat n)) used_well (recorded 0 m) loaded_start loaded_ops (loaded_total m) loaded_end.
Proof. apply run_counted_ends. destruct m; vm_compute; reflexivity. Qed.
(** A sum given with no sample: 50 is recorded, the stat is gone, and no call
    has reached the global series. *)
Definition unsampled_ops : list (op (TS := series)) :=
  [ONewContainer true; ONewTimeseries 0 "load" None [AVG]; OAddValueAggregated 0 50 0; OAggregate 0; ODestroy 0].
Abbreviation unsampled_run :=
  (run_counted (exec name_hash id id (fun n => Z.of_nat n)) (fun _ _ => true) (recorded 0 Amount) unsampled_ops loaded_start).
Example sum_lost :
  fst <$> unsampled_run = Some 50 /\
  (fun r => map_to_list (stats r.2.1)) <$> unsampled_run = Some [] /\
  (fun r => ExportedStatMap.stats (ServiceData.statsMap_ r.2.2) !! 0%nat) <$> unsampled_run = Some (Some (in_unit milliseconds)).
Proof. repeat split; vm_compute; reflexivity. Qed.
Lemma series_delivered_witness :
  stats loaded_end.1 = ∅ /\ exists es t', live 0 t' (ServiceData.statsMap_ loaded_end.2) /\ posted (in_unit milliseconds) es t' /\
    added Samples es = 7 /\ added Amount es = 87.
Proof.
  assert (He : stats loaded_end.1 = ∅) by (apply map_size_empty_iff; vm_compute; reflexivity). split; [exact He|].
  destruct (series_delivered name_hash id id (fun n => Z.of_nat n) 0 (fun p t H => H) (in_unit milliseconds) loaded_start loaded_ops
    loaded_total loaded_end) as (es & t' & Ht' & Po & _ & Hall).
  - reflexivity.
  - split; [vm_compute; reflexivity|vm_compute; constructor].
  - vm_compute; reflexivity.
  - vm_compute; reflexivity.
  - exact loaded_runs.
  - exists es, t'. split; [exact Ht'|]. split; [exact Po|]. exact (Hall He).
Defined.
End Example_.
