(* ===== verification/TLStatsRegistered.v ===== *)
(** * TLStatsRegistered: containers know their stats

    A linked stat is registered in its container for as long as that container is
    there, and an empty flag is only set over an empty set.  So one aggregation of a
    container leaves nothing in the stats that point to it.  At the end,
    [TLStatsAsyncAggregator] of [src/fb303/TLStatsAsyncAggregator.h] and
    [TLStatsAsyncAggregator.cpp]: a timeout of a [folly::EventBase] that aggregates
    one [ThreadLocalStats] and is scheduled again each time it expires. *)
From S2P Require Import Prelude CountedRuns RegexUtil FlatCounters CallbackValuesMap NamedCallbacks TLStatsLockTraits ExportType Timeseries TimeseriesExporter HistogramExporter HistogramNames ExportedStatMap ExportedHistogramMap QuantileStat QuantileStatMap ServiceOptions ServiceData TLStats TLStatsLedger TLStatsConserve.
From Stdlib Require Import ZArith Lia Ascii String.
From stdpp Require Import base gmap sets list strings.
Import TLStats.

Open Scope Z_scope.
Open Scope fb303_scope.

Section Registered.
Context {M : Type} `{RegexMatchCache M} {TS Hg HV : Type} `{FollyHistogram TS Hg HV} `{SimpleHistogram HV}.
Context {E U US Getter Setter W : Type} (hash : string -> Z) `{LockTraits}.
Abbreviation service := (ServiceData.state M TS Hg E U US Getter Setter W).
Abbreviation state := (tls (HV := HV) * service)%type.
Context (gap_stats : ExportedStatMap.statmap TS * CallbackValuesMap.cvm (counter_callback U) M ->
                     ExportedStatMap.statmap TS * CallbackValuesMap.cvm (counter_callback U) M).
Context (time_source : nat -> Z).

Definition alive_at (i : nat) (s : state) : Prop := exists c, containers s.1 !! i = Some c /\ alive c = true.
Record registered (s : state) : Prop := {
  r_stat : forall p x, stats s.1 !! p = Some x -> isLinked x = true ->
    exists c, containers s.1 !! link_ x = Some c /\ (alive c = true -> p ∈ tlStats_ c);
  r_empty : forall i c, containers s.1 !! i = Some c -> alive c = true -> tlStatsEmpty_ c = true -> tlStats_ c = ∅
}.
Definition same_alive (s s' : state) : Prop := forall i, alive_at i s' <-> alive_at i s.
Definition orderly {A} (m : SE state A) : Prop := forall s a s', registered s -> m s = (Ret a, s') -> registered s' /\ same_alive s s'.

Lemma orderly_bind {A B} (m : SE state A) (k : A -> SE state B) : orderly m -> (forall a, orderly (k a)) -> orderly (se_bind m k).
Proof.
  intros Hm Hk s b s' Hr (a & s1 & E1 & E2)%se_bind_inv. destruct (Hm s a s1 Hr E1) as [Hr1 A1].
  destruct (Hk a s1 b s' Hr1 E2) as [Hr2 A2]. split; [done|]. intros i. by rewrite (A2 i), (A1 i).
Qed.

(** ** Work that leaves registrations alone *)
Definition still (s s' : state) : Prop := containers s'.1 = containers s.1 /\
  forall p x', stats s'.1 !! p = Some x' -> exists x, stats s.1 !! p = Some x /\ link_ x' = link_ x /\ isLinked x' = isLinked x.
Lemma still_registered s s' : registered s -> still s s' -> registered s' /\ same_alive s s'.
Proof.
  intros [Rs Re] [Ec F]. split; [split|].
  - intros p x' Hx' Hl. destruct (F p x' Hx') as (x & Hx & -> & El). rewrite Ec. apply (Rs p x); [done|congruence].
  - intros i c. rewrite Ec. apply Re.
  - intros i. unfold alive_at. by rewrite Ec.
Qed.
Lemma orderly_still {A} (m : SE state A) : (forall s a s', m s = (Ret a, s') -> still s s') -> orderly m.
Proof. intros Hm s a s' Hr Em. apply (still_registered s s' Hr), (Hm s a s' Em). Qed.
Lemma still_same (s s' : state) : s'.1 = s.1 -> still s s'.
Proof. intros E1. split; [by rewrite E1|]. intros p x. rewrite E1. intros Hx. by exists x. Qed.
Lemma still_trans s1 s2 s3 : still s1 s2 -> still s2 s3 -> still s1 s3.
Proof.
  intros [C1 F1] [C2 F2]. split; [congruence|]. intros p x Hx. destruct (F2 p x Hx) as (y & Hy & L2 & I2).
  destruct (F1 p y Hy) as (z & Hz & L1 & I1). exists z. split; [done|]. split; congruence.
Qed.
Lemma orderly_aside {A} (m : SE state A) : aside m -> orderly m.
Proof. intros Hm. apply orderly_still. intros s a s' Em. destruct (Hm s a s' Em) as [E1 _]. by apply still_same. Qed.
Lemma orderly_ret {A} (a : A) : orderly (se_ret a).
Proof. apply orderly_still. intros s b s' [= _ <-]. by apply still_same. Qed.
Lemma orderly_service {A} (f : SE service A) : orderly (on_service f).
Proof.
  apply orderly_still. intros s a s' Es. unfold on_service in Es. destruct (f s.2). injection Es as _ <-. by apply still_same.
Qed.
(** Writing the contents of a stat. *)
Lemma still_put p x d (s : state) : stats s.1 !! p = Some x -> still s (put_stat p (set_contents d x) s).2.
Proof.
  intros Hp. split; [done|]. intros q y. cbn. rewrite lookup_insert_Some. intros [[<- <-]|[_ Hy]]; [by exists x|by exists y].
Qed.
Lemma orderly_write p (f : tlstat -> SE state unit) :
  (forall x, (exists e, f x = se_throw e) \/ (exists o, f x = (let* d := TLStats.lift o in put_stat p (set_contents d x)))) ->
  orderly (let* x := get_stat p in f x).
Proof.
  intros Hf. apply orderly_still. intros s [] s' (x & s1 & Eg & E2)%se_bind_inv. unfold get_stat in Eg.
  destruct (stats s.1 !! p) as [y|] eqn:Hp; [|done]. injection Eg as -> <-.
  destruct (Hf x) as [[e Ef]|[o Ef]]; rewrite Ef in E2; [done|]. apply se_bind_inv in E2 as (d & s2 & Eo & E2).
  injection Eo as -> <-. injection E2 as <-. exact (still_put p x d s Hp).
Qed.
Lemma put_written p d (x : tlstat) : exists o, (put_stat p (set_contents d x) : SE state unit) = (let* d' := TLStats.lift o in put_stat p (set_contents d' x)).
Proof. by exists (Ret d). Qed.
Lemma orderly_addValue p v : orderly (addValue p v).
Proof.
  apply orderly_write. intros x. destruct (contents x); [right; apply put_written..|left; by eexists].
Qed.
Lemma orderly_addValueAggregated p v n : orderly (addValueAggregated p v n).
Proof.
  apply orderly_write. intros x. destruct (contents x); [right; apply put_written|left; by eexists..].
Qed.
Lemma orderly_incrementValue p a : orderly (incrementValue p a).
Proof.
  apply orderly_still. intros s [] s' (x & s1 & Eg & E2)%se_bind_inv. unfold get_stat in Eg.
  destruct (stats s.1 !! p) as [y|] eqn:Hp; [|done]. injection Eg as -> <-. destruct (contents x); [done..|].
  apply se_bind_inv in E2 as (d & s2 & Eo & E2). injection Eo as _ <-. injection E2 as <-. by apply still_put.
Qed.
Lemma emptied_still p s s' : emptied same_total void p s s' -> still s s'.
Proof.
  intros (x & x' & [B A O _] & (L & I & _) & _ & Ec). split; [done|]. intros q y Hq. destruct (decide (q = p)) as [->|Hne].
  - rewrite A in Hq. injection Hq as <-. by exists x.
  - rewrite O in Hq by done. by exists y.
Qed.
Lemma aggregate_each_still ps now (s s' : state) : aggregate_each (fun c => c) ps now s = (Ret tt, s') -> still s s'.
Proof.
  revert s. induction ps as [|p ps IH]; intros s; [intros [= <-]; by apply still_same|].
  intros ([] & s1 & E1 & E2)%se_bind_inv. apply (still_trans s s1); [|by apply IH].
  by apply (emptied_still p), (aggregate_stat_effect p now).
Qed.
Lemma orderly_aggregate_each ps now : orderly (aggregate_each (fun c => c) ps now).
Proof. apply orderly_still. intros s [] s' Ea. by apply (aggregate_each_still ps now). Qed.
Lemma orderly_get_link c : orderly (get_link c).
Proof. apply orderly_aside, aside_get_link. Qed.
Lemma orderly_aggregate c : orderly (aggregate (fun c => c) time_source c).
Proof.
  apply orderly_bind; [apply orderly_get_link|]. intros x. destruct (tlStatsEmpty_ x); [apply orderly_ret|].
  apply orderly_bind; [apply orderly_aside, aside_legacy_now|]. intros now. apply orderly_bind; [apply orderly_aggregate_each|]. intros [].
  apply orderly_bind; [apply orderly_get_link|intros; apply orderly_ret].
Qed.

(** ** Registration *)
Lemma get_link_inv i (s s' : state) c : get_link i s = (Ret c, s') -> s' = s /\ containers s.1 !! i = Some c.
Proof. unfold get_link. destruct (containers s.1 !! i); [|done]. by intros [= -> <-]. Qed.
Lemma get_stat_inv p (s s' : state) x : get_stat p s = (Ret x, s') -> s' = s /\ stats s.1 !! p = Some x.
Proof. unfold get_stat. destruct (stats s.1 !! p); [|done]. by intros [= -> <-]. Qed.
(** The container of [p] is rewritten, and its link flag set. *)
Lemma relink p x c l e b (s : state) :
  registered s -> stats s.1 !! p = Some x -> containers s.1 !! link_ x = Some c -> alive c = true ->
  (forall q, q <> p -> q ∈ tlStats_ c -> q ∈ l) -> (b = true -> p ∈ l) -> (e = true -> l = ∅) ->
  let s1 := (put_link (link_ x) (Container true l e (updateGlobalStatsOnRead_ c)) s).2 in
  registered (put_stat p (set_linked b x) s1).2 /\ same_alive s (put_stat p (set_linked b x) s1).2.
Proof.
  intros [Rs Re] Hx Hc Ha Hl Hb He s1. split; [split|]; cbn.
  - intros q y. rewrite lookup_insert_Some. intros [[<- <-]|[Hne Hy]] Hly.
    + rewrite lookup_insert_eq. eexists. split; [done|]. intros _. by apply Hb.
    + destruct (Rs q y Hy Hly) as (d & Hd & Hq). destruct (decide (link_ y = link_ x)) as [El|El].
      * rewrite El, lookup_insert_eq. eexists. split; [done|]. intros _. apply Hl; [congruence|]. rewrite El, Hc in Hd. injection Hd as <-. by apply Hq.
      * rewrite lookup_insert_ne by congruence. by exists d.
  - intros i d. rewrite lookup_insert_Some. intros [[_ <-]|[_ Hd]]; [intros _; apply He|by apply (Re i)].
  - intros i. unfold alive_at. cbn. destruct (decide (i = link_ x)) as [->|Hne]; [|by rewrite lookup_insert_ne].
    rewrite lookup_insert_eq. split; intros _; eexists; eauto.
Qed.
(** Its container is gone: only the flag changes. *)
Lemma unlink_dead p x c b (s : state) :
  registered s -> stats s.1 !! p = Some x -> containers s.1 !! link_ x = Some c -> alive c = false ->
  registered (put_stat p (set_linked b x) s).2 /\ same_alive s (put_stat p (set_linked b x) s).2.
Proof.
  intros [Rs Re] Hx Hc Ha. split; [split|done]; cbn; [|done]. intros q y. rewrite lookup_insert_Some.
  intros [[<- <-]|[Hne Hy]] Hly; [|by apply Rs]. exists c. split; [done|congruence].
Qed.
Lemma orderly_link p : orderly (link p).
Proof.
  intros s [] s' Hr (x & s1 & Eg & E1)%se_bind_inv. apply get_stat_inv in Eg as [-> Hx].
  destruct (isLinked x); [by injection E1 as <-|]. apply se_bind_inv in E1 as (c & s2 & Ec & E2). apply get_link_inv in Ec as [-> Hc].
  apply se_bind_inv in E2 as ([] & s3 & E3 & E4). apply update_stat_eq in E4 as (y & Hy & ->). destruct (alive c) eqn:Ha.
  - case_bool_decide as Hin; [done|]. injection E3 as <-. cbn in Hy. assert (y = x) as -> by congruence.
    apply (relink p x c); [done..| |by intros _; apply elem_of_union_l, elem_of_singleton|].
    + intros q _ Hq. by apply elem_of_union_r.
    + case_match eqn:Hs; [done|]. intros He. pose proof (r_empty s Hr _ _ Hc Ha He) as Hz. rewrite Hz, union_empty_r_L, size_singleton in Hs. done.
  - injection E3 as <-. assert (y = x) as -> by congruence. by apply (unlink_dead p x c).
Qed.
Lemma orderly_unlink p : orderly (unlink (fun c => c) time_source p).
Proof.
  intros s [] s' Hr (x & s1 & Eg & E1)%se_bind_inv. apply get_stat_inv in Eg as [-> Hx].
  destruct (isLinked x); cbn [negb] in E1; [|by injection E1 as <-].
  apply se_bind_inv in E1 as (now & s1 & En & E1). destruct (aside_legacy_now time_source s now s1 En) as [F1 _].
  destruct (still_registered s s1 Hr (still_same s s1 F1)) as [Hr1 A1].
  apply se_bind_inv in E1 as ([] & s2 & Ea & E2). pose proof (aggregate_stat_effect p now s1 s2 Ea) as He.
  destruct (still_registered s1 s2 Hr1 (emptied_still p s1 s2 He)) as [Hr2 A2].
  destruct He as (x1 & x2 & [B A _ _] & (L & _) & _). assert (x1 = x) as -> by (rewrite F1 in B; congruence).
  apply se_bind_inv in E2 as (c & s3 & Ec & E3). apply get_link_inv in Ec as [-> Hc]. rewrite <- L in Hc.
  assert (Hall : registered s' /\ same_alive s2 s').
  { apply se_bind_inv in E3 as ([] & s4 & E4 & E5). apply update_stat_eq in E5 as (y & Hy & ->). destruct (alive c) eqn:Ha.
    - case_bool_decide as Hin; [|done]. injection E4 as <-. cbn in Hy. assert (y = x2) as -> by congruence. rewrite <- L.
      apply (relink p x2 c); [done..| |done|].
      + intros q Hne Hq. set_solver.
      + case_match eqn:Hs.
        * intros _. apply Nat.eqb_eq in Hs. by apply leibniz_equiv, size_empty_inv.
        * intros He. pose proof (r_empty s2 Hr2 _ _ Hc Ha He). set_solver.
    - injection E4 as <-. assert (y = x2) as -> by congruence. by apply (unlink_dead p x2 c). }
  destruct Hall as [Hr' A']. split; [done|]. intros i. by rewrite (A' i), (A2 i), (A1 i).
Qed.
Lemma orderly_destroy p : orderly (TLStats.destroy (fun c => c) time_source p).
Proof.
  apply orderly_bind; [apply orderly_unlink|]. intros []. apply orderly_still. intros s [] s' [= <-]. split; [done|].
  intros q x. cbn. rewrite lookup_delete_Some. intros [_ Hx]. by exists x.
Qed.
Lemma orderly_new_stat c n d : orderly (new_stat c n d).
Proof.
  intros s p s' [Rs Re] [= _ <-]. split; [split; [|done]|done]. intros q x. cbn. rewrite lookup_insert_Some.
  intros [[_ <-]|[_ Hx]]; [done|by apply Rs].
Qed.
Lemma orderly_made c n d : orderly (let* p := new_stat c n d in link p >>> se_ret p).
Proof. apply orderly_bind; [apply orderly_new_stat|]. intros p. apply orderly_bind; [apply orderly_link|intros; apply orderly_ret]. Qed.
Lemma orderly_new_timeseries c n levels : orderly (new_timeseries hash gap_stats c n levels []).
Proof. apply orderly_bind; [apply orderly_service|]. intros r. apply (orderly_made c (Some n)). Qed.
Lemma orderly_new_histogram_from c n g : orderly (new_histogram_from c n g).
Proof.
  do 3 (apply orderly_bind; [apply orderly_service|]; intros ?). apply orderly_bind; [apply orderly_aside, aside_lift|].
  intros h. apply orderly_made.
Qed.
Lemma orderly_new_counter c n : orderly (new_counter c n).
Proof. apply orderly_made. Qed.

(** ** Containers *)
Lemma new_container_effect b (s s' : state) c : registered s -> new_container b s = (Ret c, s') ->
  registered s' /\ containers s.1 !! c = None /\ (forall i, alive_at i s' <-> i = c \/ alive_at i s).
Proof.
  intros [Rs Re] [= Ec <-]. assert (Hn : containers s.1 !! c = None) by (rewrite <- Ec; apply not_elem_of_dom, is_fresh).
  rewrite Ec. split; [split|split; [done|]]; cbn.
  - intros p x Hx Hl. destruct (Rs p x Hx Hl) as (d & Hd & Hp). exists d. split; [|done]. rewrite lookup_insert_ne; congruence.
  - intros i d. rewrite lookup_insert_Some. intros [[_ <-]|[_ Hd]]; [done|by apply (Re i)].
  - intros i. unfold alive_at. cbn. destruct (decide (i = c)) as [->|Hne].
    + rewrite lookup_insert_eq. split; [by left|]. intros _. by eexists.
    + rewrite lookup_insert_ne by done. split; [by right|]. by intros [->|].
Qed.
Lemma destroy_container_effect c (s s' : state) : registered s -> destroy_container c s = (Ret tt, s') ->
  registered s' /\ (forall i, alive_at i s' <-> i <> c /\ alive_at i s).
Proof.
  intros [Rs Re] (x & s1 & Eg & Ep)%se_bind_inv. apply get_link_inv in Eg as [-> Hc]. injection Ep as <-. split; [split|]; cbn.
  - intros p y Hy Hl. destruct (Rs p y Hy Hl) as (d & Hd & Hp). destruct (decide (link_ y = c)) as [->|Hne].
    + rewrite lookup_insert_eq. by eexists.
    + rewrite lookup_insert_ne by done. by exists d.
  - intros i d. rewrite lookup_insert_Some. intros [[_ <-]|[_ Hd]]; [done|by apply (Re i)].
  - intros i. unfold alive_at. cbn. destruct (decide (i = c)) as [->|Hne].
    + rewrite lookup_insert_eq. split; [by intros (d & [= <-] & ?)|by intros [? _]].
    + rewrite lookup_insert_ne by done. split; [done|by intros [_ ?]].
Qed.

(** ** One aggregation empties a container *)
Definition holds_nothing (p : nat) (s : state) : Prop := forall x, stats s.1 !! p = Some x -> local_value x = 0.
Lemma aggregate_stat_empties p now (s s' : state) : aggregate_stat (fun c => c) p now s = (Ret tt, s') ->
  holds_nothing p s' /\ (forall q, holds_nothing q s -> holds_nothing q s').
Proof.
  intros Ea. destruct (aggregate_stat_effect p now s s' Ea) as (x & x' & [B A O _] & _ & Hz & _).
  assert (Hp : holds_nothing p s') by (intros y Hy; rewrite A in Hy; by injection Hy as <-). split; [done|]. intros q Hq. destruct (decide (q = p)) as [->|Hne]; [done|].
  intros y. rewrite O by done. apply Hq.
Qed.
Lemma aggregate_each_empties ps now (s s' : state) : aggregate_each (fun c => c) ps now s = (Ret tt, s') ->
  (forall p, p ∈ ps -> holds_nothing p s') /\ (forall q, holds_nothing q s -> holds_nothing q s').
Proof.
  revert s. induction ps as [|p ps IH]; intros s; [intros [= <-]; split; [by intros p ?%elem_of_nil|done]|].
  intros ([] & s1 & E1 & E2)%se_bind_inv. destruct (aggregate_stat_empties p now s s1 E1) as [Hp Ho]. destruct (IH s1 E2) as [Hps Ho1].
  split; [|auto]. intros q [->|Hq]%elem_of_cons; auto.
Qed.
Definition drained (i : nat) (s : state) : Prop :=
  forall p x, stats s.1 !! p = Some x -> link_ x = i -> local_value x = 0.
Lemma aggregate_drains i (s s' : state) n :
  inv s -> registered s -> alive_at i s -> aggregate (fun c => c) time_source i s = (Ret n, s') ->
  drained i s' /\ (forall j, drained j s -> drained j s').
Proof.
  intros Hi Hr (c & Hc & Ha) (x & s1 & Eg & E1)%se_bind_inv. apply get_link_inv in Eg as [-> Hx]. assert (x = c) as -> by congruence.
  assert (Hmember : forall p y, stats s.1 !! p = Some y -> link_ y = i -> p ∉ tlStats_ c -> local_value y = 0).
  { intros p y Hy Hl Hp. destruct (isLinked y) eqn:El; [|by apply (Hi p)]. destruct (r_stat s Hr p y Hy El) as (d & Hd & Hin).
    rewrite Hl, Hc in Hd. injection Hd as <-. by destruct Hp; apply Hin. }
  destruct (tlStatsEmpty_ c) eqn:He.
  - injection E1 as _ <-. split; [|done]. intros p y Hy Hl. apply (Hmember p y Hy Hl). rewrite (r_empty s Hr i c Hc Ha He). set_solver.
  - apply se_bind_inv in E1 as (now & s1 & En & E1). destruct (aside_legacy_now time_source s now s1 En) as [F1 _].
    apply se_bind_inv in E1 as ([] & s2 & Ea & E2). destruct (aggregate_each_empties _ now s1 s2 Ea) as [Hin Hother].
    assert (s' = s2) as ->. { apply se_bind_inv in E2 as (x' & s3 & Eg & [= _ <-]). by apply get_link_inv in Eg as [-> _]. }
    assert (Hs : still s s2) by (apply (still_trans s s1); [by apply still_same|by apply (aggregate_each_still (elements (tlStats_ c)) now)]).
    split.
    + intros p y Hy Hl. destruct Hs as [_ Hs]. destruct (Hs p y Hy) as (z & Hz & L & _).
      destruct (decide (p ∈ tlStats_ c)) as [Hp|Hp]; [by apply (Hin p); [apply elem_of_elements|]|].
      apply (Hother p); [|done]. intros z'. rewrite F1. intros Hz'. apply (Hmember p z' Hz'); [congruence|done].
    + intros j Hj p y Hy Hl. destruct Hs as [_ Hs]. destruct (Hs p y Hy) as (z & Hz & L & _).
      apply (Hother p); [|done]. intros z'. rewrite F1. intros Hz'. apply (Hj p z' Hz'). congruence.
Qed.
End Registered.

(** ** Aggregating from an event loop *)
(** [folly::AsyncTimeout]: an [EventBase] is attached as an internal event, a
    timeout in milliseconds scheduled (unless there is no event base) or cancelled. *)
Class AsyncTimeout (T : Type) := {
  attachEventBase : nat -> T -> T;
  scheduleTimeout : Z -> T -> bool * T;
  cancelTimeout : T -> T
}.

Module AsyncAggregator.
Section Model.
Context {M : Type} `{RegexMatchCache M} {TS Hg HV : Type} `{FollyHistogram TS Hg HV} `{SimpleHistogram HV}.
Context {E U US Getter Setter W : Type} `{LockTraits} {T : Type} `{AsyncTimeout T}.
Context (time_source : nat -> Z).
Abbreviation local := (TLStats.tls (HV := HV) * ServiceData.state M TS Hg E U US Getter Setter W)%type.
Definition kDefaultIntervalMS : Z := 1000.
Record aggregator := Aggregator { intervalMS_ : Z; stats_ : nat; timeout : T }.
Abbreviation state := (aggregator * local)%type.
Definition new_aggregator (stats : nat) (t : T) : aggregator := Aggregator kDefaultIntervalMS stats t.
Definition modify (f : aggregator -> aggregator) : SE state unit := fun s => (Ret tt, (f s.1, s.2)).
Definition with_timeout (t : T) (a : aggregator) : aggregator := Aggregator (intervalMS_ a) (stats_ a) t.
Definition with_interval (i : Z) (a : aggregator) : aggregator := Aggregator i (stats_ a) (timeout a).
(** The result of [scheduleTimeout] is not looked at. *)
Definition scheduleAggregationTimeout : SE state unit :=
  modify (fun a => with_timeout (scheduleTimeout (intervalMS_ a) (timeout a)).2 a).
Definition scheduleAggregation (eventBase : nat) (intervalMS : Z) : SE state unit :=
  modify (fun a => with_timeout (attachEventBase eventBase (timeout a)) a) >>>
  modify (with_interval intervalMS) >>>
  scheduleAggregationTimeout.
Definition stopAggregation : SE state unit := modify (fun a => with_timeout (cancelTimeout (timeout a)) a).
(** [noexcept]: what leaves [aggregate] ends the program. *)
Definition timeoutExpired : SE state unit := fun s =>
  match TLStats.aggregate (fun c => c) time_source (stats_ s.1) s.2 with
  | (Ret _, x) => scheduleAggregationTimeout (s.1, x)
  | (Throw _, x) => (Throw check_failed, (s.1, x))
  end.

(** An expiry publishes everything the stats hold, and the timeout is on again with
    the interval asked for last. *)
Lemma expiry_publishes (s s' : state) : TLStatsConserve.inv s.2 -> registered s.2 -> alive_at (stats_ s.1) s.2 ->
  timeoutExpired s = (Ret tt, s') ->
  drained (stats_ s.1) s'.2 /\ s'.1 = with_timeout (scheduleTimeout (intervalMS_ s.1) (timeout s.1)).2 s.1.
Proof.
  intros Hi Hr Ha. unfold timeoutExpired. destruct (TLStats.aggregate (fun c => c) time_source (stats_ s.1) s.2) as [[n|e] x] eqn:Ea; [|done].
  intros [= <-]. cbn [fst snd]. split; [|done]. exact (proj1 (aggregate_drains time_source (stats_ s.1) s.2 x n Hi Hr Ha Ea)).
Qed.
End Model.
End AsyncAggregator.
