(* ===== verification/StatPtr.v ===== *)
(** * StatPtr: a shared pointer with its set of export types

    [StatPtrBase], [StatPtrFallback] and [StatPtrCompress] of
    [src/fb303/ThreadLocalStatsMap.h].  The second keeps the types in a word of
    their own, the third in the five high bits of the pointer's control-block
    address.  An object has an address of the store of stats; a control block has
    a 64-bit address. *)
From S2P Require Import Prelude ExportType.
From Stdlib Require Import ZArith Lia.
From stdpp Require Import base list.

Open Scope Z_scope.

(** [std::shared_ptr]: the object and the control block. *)
Record shared_ptr := Shared { object : option nat; control : Z }.
Definition null : shared_ptr := Shared None 0.
#[export] Instance shared_ptr_eq_dec : EqDecision shared_ptr.
Proof. solve_decision. Defined.

(** ** [StatPtrBase] *)
Module StatPtrBase.
Definition nbits : Z := 64.
Definition ntypes : Z := Z.of_nat ExportTypeMeta.kNumExportTypes.
Definition complement (x : Z) : Z := wrapu nbits (Z.lnot x).
Definition types_mask : Z := wrapu nbits (Z.shiftl (complement 0) (nbits - ntypes)).
Definition mask_ (key : ExportType) : Z := wrapu nbits (Z.shiftl 1 (nbits - ntypes + ExportType_to_Z key)).
Definition has (key : ExportType) (word : Z) : bool := negb (Z.land word (mask_ key) =? 0).
Definition assign (key : ExportType) (val : bool) (word : Z) : Z :=
  if val then Z.lor word (mask_ key) else Z.land word (complement (mask_ key)).
End StatPtrBase.
Import StatPtrBase.

Module StatPtrFallback.
Record rep := Rep { ptr_ : shared_ptr; exports_ : Z }.
Definition make : rep := Rep null 0.
Definition nonnull (r : rep) : bool := bool_decide (is_Some (object (ptr_ r))).
Definition ptr (r : rep) : shared_ptr := ptr_ r.
Definition set_ptr (val : shared_ptr) (r : rep) : rep := Rep val (exports_ r).
Definition raw (r : rep) : option nat := object (ptr_ r).
Definition type (key : ExportType) (r : rep) : bool := has key (exports_ r).
Definition set_type (key : ExportType) (val : bool) (r : rep) : rep := Rep (ptr_ r) (assign key val (exports_ r)).
(** What the destructor gives up. *)
Definition drop (r : rep) : shared_ptr := ptr_ r.
(** The implicit move constructor, member by member: the new one, and what is
    left, which has lost its pointer but not its word of types. *)
Definition move (that : rep) : rep * rep := (that, Rep null (exports_ that)).
End StatPtrFallback.

Module StatPtrCompress.
(** [SpLayout] *)
Record rep := Rep { raw : option nat; ctl : Z }.
Definition make : rep := Rep None 0.
Definition untyped (r : rep) : Z := Z.land (ctl r) (complement types_mask).
Definition cast (r : rep) : shared_ptr := Shared (raw r) (ctl r).
Definition nonnull (r : rep) : bool := bool_decide (is_Some (raw r)).
Definition ptr (r : rep) : shared_ptr := cast (Rep (raw r) (untyped r)).
Definition set_ptr (val : shared_ptr) (r : rep) : rep := Rep (object val) (control val).
Definition type (key : ExportType) (r : rep) : bool := has key (ctl r).
Definition set_type (key : ExportType) (val : bool) (r : rep) : rep := Rep (raw r) (assign key val (ctl r)).
Definition drop (r : rep) : shared_ptr := cast (Rep (raw r) (untyped r)).
(** The move constructor: the new one, and what is left. *)
Definition move (that : rep) : rep * rep := (that, make).
End StatPtrCompress.

(** ** Bits *)
Lemma types_mask_bits : complement types_mask = Z.ones 59.
Proof. reflexivity. Qed.
Lemma mask_bit key : mask_ key = 2 ^ (59 + ExportType_to_Z key).
Proof. by destruct key. Qed.
Lemma bit_bound key : 59 <= 59 + ExportType_to_Z key < 64.
Proof. destruct key; cbn; lia. Qed.
Lemma ExportType_to_Z_inj : Inj (=) (=) ExportType_to_Z.
Proof. by intros [] []. Qed.

Lemma has_testbit key w : has key w = Z.testbit w (59 + ExportType_to_Z key).
Proof.
  unfold has. rewrite mask_bit. pose proof (bit_bound key) as Hb. set (n := 59 + ExportType_to_Z key) in *.
  destruct (Z.testbit w n) eqn:Et.
  - destruct (Z.eqb_spec (Z.land w (2 ^ n)) 0) as [E|]; [|done].
    assert (Hz : Z.testbit (Z.land w (2 ^ n)) n = true) by (rewrite Z.land_spec, Et, Z.pow2_bits_true; [done|lia]).
    rewrite E, Z.bits_0 in Hz. done.
  - assert (E : Z.land w (2 ^ n) = 0); [|by rewrite E]. apply Z.bits_inj'. intros i Hi. rewrite Z.land_spec, Z.bits_0.
    destruct (Z.eq_dec i n) as [->|Hne]; [by rewrite Et|]. rewrite Z.pow2_bits_false by lia. apply andb_false_r.
Qed.
Lemma testbit_assign key val w i : 0 <= i < 64 ->
  Z.testbit (assign key val w) i = if decide (i = 59 + ExportType_to_Z key) then val else Z.testbit w i.
Proof.
  intros Hi. unfold assign, complement, wrapu, nbits. rewrite mask_bit. pose proof (bit_bound key) as Hb.
  set (n := 59 + ExportType_to_Z key) in *. destruct val.
  - rewrite Z.lor_spec. case_decide as E; [rewrite E, Z.pow2_bits_true by lia; apply orb_true_r|].
    rewrite Z.pow2_bits_false by lia. apply orb_false_r.
  - rewrite Z.land_spec, Z.mod_pow2_bits_low, Z.lnot_spec by lia. case_decide as E.
    + rewrite E, Z.pow2_bits_true by lia. apply andb_false_r.
    + rewrite Z.pow2_bits_false by lia. apply andb_true_r.
Qed.
Lemma has_assign key key' val w : has key (assign key' val w) = if decide (key = key') then val else has key w.
Proof.
  rewrite !has_testbit. pose proof (bit_bound key). rewrite testbit_assign by lia.
  destruct (decide (key = key')) as [->|Hne]; [by rewrite decide_True|]. rewrite decide_False; [done|].
  intros E. apply Hne, ExportType_to_Z_inj. lia.
Qed.
Lemma untyped_assign key val w : Z.land (assign key val w) (complement types_mask) = Z.land w (complement types_mask).
Proof.
  rewrite types_mask_bits. apply Z.bits_inj'. intros i Hi. rewrite !Z.land_spec. pose proof (bit_bound key).
  destruct (Z.lt_ge_cases i 59); [|rewrite Z.ones_spec_high by lia; by rewrite !andb_false_r].
  rewrite testbit_assign, decide_False by lia. done.
Qed.
(** An address below 2^59. *)
Definition fits (p : shared_ptr) : Prop := 0 <= control p < 2 ^ 59.
Lemma untyped_fits w : 0 <= w < 2 ^ 59 -> Z.land w (complement types_mask) = w.
Proof. intros Hw. rewrite types_mask_bits, Z.land_ones by lia. by apply Z.mod_small. Qed.
Lemma has_fits key w : 0 <= w < 2 ^ 59 -> has key w = false.
Proof.
  intros Hw. rewrite has_testbit. pose proof (bit_bound key). rewrite <- (untyped_fits w Hw), types_mask_bits, Z.land_spec, Z.ones_spec_high by lia.
  apply andb_false_r.
Qed.

(** ** What the maps rely on *)
Class TypedPtr := {
  sp : Type;
  sp_make : sp;
  sp_raw : sp -> option nat;
  sp_ptr : sp -> shared_ptr;
  sp_set_ptr : shared_ptr -> sp -> sp;
  sp_type : ExportType -> sp -> bool;
  sp_set_type : ExportType -> bool -> sp -> sp;
  sp_drop : sp -> shared_ptr;
  sp_move : sp -> sp * sp;                  (** the new one, and what is left *)
  sp_forgets : bool;                        (** a pointer is replaced with its types *)
  sp_holds : shared_ptr -> sp -> Prop;      (** the pointer inside *)

  sp_make_type : forall key, sp_type key sp_make = false;
  sp_make_holds : sp_holds null sp_make;
  sp_set_ptr_holds : forall p r, fits p -> sp_holds p (sp_set_ptr p r);
  sp_set_ptr_type : forall p key r, fits p ->
    sp_type key (sp_set_ptr p r) = if sp_forgets then false else sp_type key r;
  sp_set_type_holds : forall p key val r, sp_holds p r -> sp_holds p (sp_set_type key val r);
  sp_set_type_type : forall p key key' val r, sp_holds p r ->
    sp_type key (sp_set_type key' val r) = if decide (key = key') then val else sp_type key r;
  sp_move_new : forall p r, sp_holds p r ->
    sp_holds p (sp_move r).1 /\ forall key, sp_type key (sp_move r).1 = sp_type key r;
  sp_move_left : forall r,
    sp_holds null (sp_move r).2 /\ forall key, sp_type key (sp_move r).2 = if sp_forgets then false else sp_type key r;
  sp_holds_ptr : forall p r, sp_holds p r -> sp_raw r = object p /\ sp_ptr r = p /\ sp_drop r = p
}.

#[refine, local] Instance fallback : TypedPtr := {|
  sp := StatPtrFallback.rep;
  sp_make := StatPtrFallback.make;
  sp_raw := StatPtrFallback.raw;
  sp_ptr := StatPtrFallback.ptr;
  sp_set_ptr := StatPtrFallback.set_ptr;
  sp_type := StatPtrFallback.type;
  sp_set_type := StatPtrFallback.set_type;
  sp_drop := StatPtrFallback.drop;
  sp_move := StatPtrFallback.move;
  sp_forgets := false;
  sp_holds p r := StatPtrFallback.ptr_ r = p
|}.
Proof.
  - intros key. by apply has_fits.
  - done.
  - done.
  - done.
  - done.
  - intros p key key' val r _. apply has_assign.
  - done.
  - done.
  - by intros p r <-.
Defined.
#[refine, local] Instance compress : TypedPtr := {|
  sp := StatPtrCompress.rep;
  sp_make := StatPtrCompress.make;
  sp_raw := StatPtrCompress.raw;
  sp_ptr := StatPtrCompress.ptr;
  sp_set_ptr := StatPtrCompress.set_ptr;
  sp_type := StatPtrCompress.type;
  sp_set_type := StatPtrCompress.set_type;
  sp_drop := StatPtrCompress.drop;
  sp_move := StatPtrCompress.move;
  sp_forgets := true;
  sp_holds p r := StatPtrCompress.ptr r = p
|}.
Proof.
  - intros key. by apply has_fits.
  - done.
  - intros [o c] r Hp. unfold StatPtrCompress.ptr, StatPtrCompress.cast, StatPtrCompress.untyped. cbn. by rewrite untyped_fits.
  - intros p key r Hp. by apply has_fits.
  - intros p key val r <-. unfold StatPtrCompress.ptr, StatPtrCompress.cast, StatPtrCompress.untyped. cbn. by rewrite untyped_assign.
  - intros p key key' val r _. apply has_assign.
  - done.
  - intros r. split; [done|]. intros key. by apply has_fits.
  - by intros p r <-.
Defined.

(** ** What the two show *)
Inductive sp_op :=
  | SetPtr (p : shared_ptr)
  | SetType (key : ExportType) (val : bool)
  | MoveOn.                                 (** move it, and go on with the new one *)
Definition apply `{P : TypedPtr} (r : sp) (o : sp_op) : sp :=
  match o with
  | SetPtr p => sp_set_ptr p r
  | SetType key val => sp_set_type key val r
  | MoveOn => (sp_move r).1
  end.
Definition run `{P : TypedPtr} (l : list sp_op) : sp := foldl apply sp_make l.
Record observation := Observed { o_raw : option nat; o_ptr : shared_ptr; o_types : list bool; o_drop : shared_ptr }.
Definition observe `{P : TypedPtr} (r : sp) : observation :=
  Observed (sp_raw r) (sp_ptr r) ((fun key => sp_type key r) <$> ExportTypeMeta.kExportTypes) (sp_drop r).

(** What they should show: a pointer, and a set of types. *)
Definition shows (p : shared_ptr) (types : ExportType -> bool) : observation :=
  Observed (object p) p (types <$> ExportTypeMeta.kExportTypes) p.
Fixpoint stored (l : list sp_op) (p : shared_ptr) : shared_ptr :=
  match l with [] => p | SetPtr p' :: l' => stored l' p' | _ :: l' => stored l' p end.
Fixpoint types_of (forgets : bool) (l : list sp_op) (key : ExportType) (b : bool) : bool :=
  match l with
  | [] => b
  | SetType key' val :: l' => types_of forgets l' key (if decide (key = key') then val else b)
  | SetPtr _ :: l' => types_of forgets l' key (if forgets then false else b)
  | MoveOn :: l' => types_of forgets l' key b
  end.
(** Every stored pointer has a control block below 2^59. *)
Definition stores_fit (l : list sp_op) : Prop := Forall (fun o => match o with SetPtr p => fits p | _ => True end) l.
(** No pointer is stored after a type has been assigned. *)
Fixpoint stored_first (l : list sp_op) : bool :=
  match l with
  | [] => true
  | SetType _ _ :: l' => forallb (fun o => match o with SetPtr _ => false | _ => true end) l'
  | _ :: l' => stored_first l'
  end.

Lemma run_types `{P : TypedPtr} p l r : stores_fit l -> sp_holds p r ->
  sp_holds (stored l p) (foldl apply r l) /\
  forall key, sp_type key (foldl apply r l) = types_of sp_forgets l key (sp_type key r).
Proof.
  intros Hl. revert p r. induction Hl as [|o l Ho Hl IH]; intros p r Hr; [done|]. destruct o as [p'|key' val|]; cbn.
  - destruct (IH p' (sp_set_ptr p' r)) as [Hp Ht]; [by apply sp_set_ptr_holds|]. split; [done|].
    intros key. by rewrite Ht, sp_set_ptr_type.
  - destruct (IH p (sp_set_type key' val r)) as [Hp Ht]; [by apply sp_set_type_holds|]. split; [done|].
    intros key. by rewrite Ht, (sp_set_type_type p).
  - destruct (sp_move_new p r Hr) as [Hm Hk]. destruct (IH p (sp_move r).1 Hm) as [Hp Ht]. split; [done|].
    intros key. by rewrite Ht, Hk.
Qed.
Lemma observe_shows `{P : TypedPtr} p r types :
  sp_holds p r -> (forall key, sp_type key r = types key) -> observe r = shows p types.
Proof.
  intros Hr Ht. destruct (sp_holds_ptr p r Hr) as (E1 & E2 & E3). unfold observe, shows. rewrite E1, E2, E3. f_equal.
  apply list_fmap_ext. intros i key _. apply Ht.
Qed.
Lemma run_observed `{P : TypedPtr} l : stores_fit l ->
  observe (run l) = shows (stored l null) (fun key => types_of sp_forgets l key false) /\
  observe (sp_move (run l)).2 = shows null (fun key => if sp_forgets then false else types_of sp_forgets l key false).
Proof.
  intros Hl. destruct (run_types null l sp_make Hl sp_make_holds) as [Hp Hk].
  assert (Ht : forall key, sp_type key (run l) = types_of sp_forgets l key false) by (intros key; by rewrite <- (sp_make_type key), <- Hk).
  destruct (sp_move_left (run l)) as [Hm Hkm]. split; apply observe_shows; [done..|]. intros key. by rewrite Hkm, Ht.
Qed.
(** Stores that come first change no types. *)
Lemma types_of_no_store f l key b :
  forallb (fun o => match o with SetPtr _ => false | _ => true end) l = true -> types_of f l key b = types_of false l key b.
Proof. revert b. induction l as [|[p|key' val|] l IH]; intros b; cbn; [done|done|apply IH..]. Qed.
Lemma types_of_stored_first l key : stored_first l = true -> types_of true l key false = types_of false l key false.
Proof. induction l as [|[p|key' val|] l IH]; cbn; [done|done|apply types_of_no_store|done]. Qed.

(** C19: what packing the export types into the high bits of the control-block
    address keeps, and what it does not.  Store pointers, assign types and move the
    holder, in any order, every control block lying below 2^59.  The word-sized and
    the packed holder then both show, and give up when destroyed, the pointer stored
    last.  The first shows the types assigned; the packed one forgets them whenever
    a pointer is stored.  So the two show the same where no pointer is stored after
    a type is assigned, and differ where one is.  Moved from, both are null; the
    packed one shows no types either, the other keeps its own. *)
Theorem packed_types_agree (l : list sp_op) :
  stores_fit l ->
  observe (run (P := fallback) l) = shows (stored l null) (fun key => types_of false l key false) /\
  observe (run (P := compress) l) = shows (stored l null) (fun key => types_of true l key false) /\
  (stored_first l = true -> observe (run (P := fallback) l) = observe (run (P := compress) l)) /\
  (forall key p, fits p ->
     sp_type (TypedPtr := fallback) key (run (P := fallback) (l ++ [SetType key true; SetPtr p])) = true /\
     sp_type (TypedPtr := compress) key (run (P := compress) (l ++ [SetType key true; SetPtr p])) = false) /\
  observe (sp_move (TypedPtr := fallback) (run (P := fallback) l)).2 = shows null (fun key => types_of false l key false) /\
  observe (sp_move (TypedPtr := compress) (run (P := compress) l)).2 = observe (sp_make (TypedPtr := compress)).
Proof.
  intros Hl. destruct (run_observed (P := fallback) l Hl) as [E1 L1]. destruct (run_observed (P := compress) l Hl) as [E2 L2].
  split; [exact E1|]. split; [exact E2|]. split; [|split; [|split; [exact L1|exact L2]]].
  - intros Hf. rewrite E1, E2. unfold shows. f_equal. apply list_fmap_ext. intros i key _. symmetry. by apply types_of_stored_first.
  - intros key p Hp. unfold run. rewrite !foldl_app. split; [|by apply has_fits].
    set (r := foldl _ _ l). change (has key (assign key true (StatPtrFallback.exports_ r)) = true). by rewrite has_assign, decide_True.
Qed.
Lemma packed_types_agree_witness :
  let l := [SetPtr (Shared (Some 7%nat) 4096); MoveOn; SetType SUM true; SetType PERCENT true; SetType SUM false; MoveOn] in
  stores_fit l /\ stored_first l = true /\ observe (run (P := fallback) l) = observe (run (P := compress) l) /\
  o_types (observe (run (P := compress) l)) = [false; false; false; false; true].
Proof.
  intros l. assert (Hl : stores_fit l) by (repeat constructor; discriminate).
  split; [exact Hl|]. split; [reflexivity|]. split; [|vm_compute; reflexivity].
  apply (proj1 (proj2 (proj2 (packed_types_agree l Hl)))). reflexivity.
Defined.
