(* ===== verification/TLStatsMap.v ===== *)
(** * TLStatsMap: thread-local statistics by name

    [ThreadLocalStatsMapT] of [src/fb303/ThreadLocalStatsMap.h] and
    [ThreadLocalStatsMap-inl.h]: a container of [TLStats] with three maps from
    names to the stats of the thread.  An entry is a shared pointer with the
    export types the thread has set ([StatPtr]); the key of an entry is the name of
    its stat, which is the name it was made for.  A stat has a count of owners: its
    entry, and the shared pointers handed out; the last one destroys it.

    A map belongs to one thread ([NamedMapLock] only asserts that), so an operation
    is one step. *)
From S2P Require Import Prelude RegexUtil FlatCounters CallbackValuesMap NamedCallbacks TLStatsLockTraits ExportType Timeseries TimeseriesExporter HistogramExporter HistogramNames ExportedStatMap ExportedHistogramMap QuantileStat QuantileStatMap ServiceOptions ServiceData TLStats StatPtr.
From Stdlib Require Import ZArith Lia Ascii String.
From stdpp Require Import base gmap sets list strings.

Open Scope Z_scope.
Open Scope fb303_scope.

Module TLStatsMap.
Section Model.
Context {M : Type} `{RegexMatchCache M} {TS Hg HV : Type} `{FollyHistogram TS Hg HV} `{SimpleHistogram HV}.
Context {E U US Getter Setter W : Type} (hash : string -> Z) `{LockTraits} `{TypedPtr}.
Abbreviation service := (ServiceData.state M TS Hg E U US Getter Setter W).
Abbreviation dynamic_counters := (CallbackValuesMap.cvm (counter_callback U) M).
Abbreviation dynamic_strings := (CallbackValuesMap.cvm (string_callback US) M).
Context (gap_flat : RegexUtil.syncmap (M := M) (V := Z) -> RegexUtil.syncmap (M := M) (V := Z)).
Context (gap_stats : ExportedStatMap.statmap TS * dynamic_counters -> ExportedStatMap.statmap TS * dynamic_counters).
Context (gap_hists : ExportedHistogramMap.histmap TS Hg * (dynamic_counters * dynamic_strings) ->
                     ExportedHistogramMap.histmap TS Hg * (dynamic_counters * dynamic_strings)).
Context (time_source : nat -> Z).
(** The address of the control block [make_shared] allocates with a stat. *)
Context (control_block : nat -> Z).

(** ** State *)
Record named := State {
  namedTimeseries_ : gmap string sp;
  namedHistograms_ : gmap string sp;
  namedCounters_ : gmap string sp
}.
Definition no_names : named := State ∅ ∅ ∅.
(** The maps of a container that is still there, and the owners of a stat. *)
Record maps := Maps { state_ : gmap nat named; owners : gmap nat nat }.
Abbreviation local := (TLStats.tls (HV := HV) * service)%type.
Abbreviation state := (maps * local)%type.
Definition with_state m s := Maps m (owners s).
Definition with_owners o s := Maps (state_ s) o.
Definition modify (f : maps -> maps) : SE state unit := fun s => (Ret tt, (f s.1, s.2)).
Definition on_local {A} (f : SE local A) : SE state A := fun s => let '(r, l) := f s.2 in (r, (s.1, l)).
Definition on_service {A} (f : SE service A) : SE state A := on_local (TLStats.on_service f).

(** The three maps. *)
Inductive kind := Timeseries | Histograms | Counters.
#[export] Instance kind_eq_dec : EqDecision kind.
Proof. solve_decision. Defined.
Definition get_map (k : kind) (n : named) : gmap string sp :=
  match k with Timeseries => namedTimeseries_ n | Histograms => namedHistograms_ n | Counters => namedCounters_ n end.
Definition set_map (k : kind) (m : gmap string sp) (n : named) : named :=
  match k with
  | Timeseries => State m (namedHistograms_ n) (namedCounters_ n)
  | Histograms => State (namedTimeseries_ n) m (namedCounters_ n)
  | Counters => State (namedTimeseries_ n) (namedHistograms_ n) m
  end.
Definition get_state (c : nat) : SE state named := fun s =>
  match state_ s.1 !! c with Some n => (Ret n, s) | None => (Throw undefined_behaviour, s) end.
Definition put_state (c : nat) (n : named) : SE state unit := modify (fun s => with_state (<[c := n]> (state_ s)) s).
Definition update_map (c : nat) (k : kind) (f : gmap string sp -> gmap string sp) : SE state unit :=
  let* n := get_state c in put_state c (set_map k (f (get_map k n)) n).
Definition find (c : nat) (k : kind) (name : string) : SE state (option sp) :=
  let* n := get_state c in se_ret (get_map k n !! name).

(** ** Owners *)
Definition handle (p : nat) : shared_ptr := Shared (Some p) (control_block p).
Definition make_shared (make : SE local nat) : SE state shared_ptr :=
  let* p := on_local make in
  modify (fun s => with_owners (<[p := 1%nat]> (owners s)) s) >>> se_ret (handle p).
Definition acquire (v : shared_ptr) : SE state shared_ptr :=
  match object v with
  | None => se_ret v
  | Some p => modify (fun s => with_owners (alter S p (owners s)) s) >>> se_ret v
  end.
Definition release (v : shared_ptr) : SE state unit :=
  match object v with
  | None => se_ret tt
  | Some p =>
      let* s := se_get in
      match owners s.1 !! p with
      | Some (S (S n)) => modify (fun s => with_owners (<[p := S n]> (owners s)) s)
      | Some 1%nat =>
          modify (fun s => with_owners (delete p (owners s)) s) >>>
          on_local (TLStats.destroy gap_flat time_source p)
      | _ => se_throw undefined_behaviour
      end
  end.
Fixpoint release_each (l : list sp) : SE state unit :=
  match l with [] => se_ret tt | r :: l' => release (sp_drop r) >>> release_each l' end.

(** ** Finding or making an entry *)
Definition tryInsertLocked (c : nat) (k : kind) (name : string) (make : SE state shared_ptr) : SE state sp :=
  let* found := find c k name in
  match found with
  | Some entry => se_ret entry
  | None =>
      let* ptr := make in
      match object ptr with
      | Some _ =>
          let entry := sp_set_ptr ptr sp_make in
          update_map c k (insert name entry) >>> se_ret entry
      | None => se_ret sp_make
      end
  end.
(** [entry.raw()], where it is used as a stat. *)
Definition raw_stat (r : sp) : SE state nat :=
  match sp_raw r with Some p => se_ret p | None => se_throw undefined_behaviour end.
Definition set_type (c : nat) (k : kind) (name : string) (type : ExportType) (val : bool) : SE state unit :=
  update_map c k (alter (sp_set_type type val) name).

Definition make_timeseries (c : nat) (name : string) : SE state shared_ptr :=
  make_shared (TLStats.new_timeseries hash gap_stats c name None []).
Definition getTimeseriesLocked (c : nat) (name : string) : SE state nat :=
  let* entry := tryInsertLocked c Timeseries name (make_timeseries c name) in raw_stat entry.
Definition getTimeseriesLocked_typed (c : nat) (name : string) (exportType : ExportType) : SE state nat :=
  let* entry := tryInsertLocked c Timeseries name (make_timeseries c name) in
  (if sp_type exportType entry then se_ret tt
   else on_service (ServiceData.addStatExportType hash gap_stats name exportType None true) >>>
        set_type c Timeseries name exportType true) >>>
  raw_stat entry.
Definition createHistogramLocked (c : nat) (name : string) : SE state shared_ptr :=
  let* globalHist := on_service (ServiceData.on_hists (ExportedHistogramMapImpl.getLockableHistogram name)) in
  if ExportedHistogramMapImpl.isNull globalHist then se_ret null
  else make_shared (TLStats.new_histogram_from c name (ExportedHistogramMapImpl.hist_ globalHist)).
Definition getHistogramLockedPtr (c : nat) (name : string) : SE state (option nat) :=
  let* entry := tryInsertLocked c Histograms name (createHistogramLocked c name) in se_ret (sp_raw entry).
Definition getHistogramLocked (c : nat) (name : string) : SE state shared_ptr :=
  let* entry := tryInsertLocked c Histograms name (createHistogramLocked c name) in acquire (sp_ptr entry).
Definition getCounterLocked (c : nat) (name : string) : SE state nat :=
  let* entry := tryInsertLocked c Counters name (make_shared (TLStats.new_counter c name)) in raw_stat entry.

(** ** The public operations *)
Definition addStatValue (c : nat) (name : string) (value : Z) : SE state unit :=
  let* p := getTimeseriesLocked c name in on_local (TLStats.addValue p value).
Definition addStatValueAggregated (c : nat) (name : string) (sum numSamples : Z) : SE state unit :=
  let* p := getTimeseriesLocked c name in on_local (TLStats.addValueAggregated p sum numSamples).
Definition addStatValue_typed (c : nat) (name : string) (value : Z) (exportType : ExportType) : SE state unit :=
  let* p := getTimeseriesLocked_typed c name exportType in on_local (TLStats.addValue p value).
Definition clearStat (c : nat) (name : string) (exportType : ExportType) : SE state unit :=
  set_type c Timeseries name exportType false >>>
  on_service (ServiceData.addStatExportType hash gap_stats name exportType None true).
Definition addHistogramValue (c : nat) (name : string) (value : Z) : SE state unit :=
  let* histogram := getHistogramLockedPtr c name in
  match histogram with Some p => on_local (TLStats.addValue p value) | None => se_ret tt end.
Definition incrementCounter (c : nat) (name : string) (amount : Z) : SE state unit :=
  let* p := getCounterLocked c name in on_local (TLStats.incrementValue p amount).

(** The caller gets an owner of its own. *)
Definition getTimeseriesSafe (c : nat) (name : string) : SE state shared_ptr :=
  let* entry := tryInsertLocked c Timeseries name (make_timeseries c name) in acquire (sp_ptr entry).
Definition levels_of (numBuckets numLevels : nat) (levelDurations : list Z) : SE state TS :=
  if Nat.leb numLevels (length levelDurations) then se_ret (ts_make numBuckets (take numLevels levelDurations))
  else se_throw undefined_behaviour.
Definition getTimeseriesSafe_levels (c : nat) (name : string) (numBuckets numLevels : nat) (levelDurations : list Z) : SE state shared_ptr :=
  let* entry := tryInsertLocked c Timeseries name
    (let* levels := levels_of numBuckets numLevels levelDurations in
     make_shared (TLStats.new_timeseries hash gap_stats c name (Some levels) [])) in
  acquire (sp_ptr entry).
Definition getHistogramSafe (c : nat) (name : string) : SE state shared_ptr := getHistogramLocked c name.
Definition getCounterSafe (c : nat) (name : string) : SE state shared_ptr :=
  let* entry := tryInsertLocked c Counters name (make_shared (TLStats.new_counter c name)) in acquire (sp_ptr entry).
Definition erase (c : nat) (k : kind) (name : string) : SE state unit :=
  let* found := find c k name in
  match found with
  | Some entry => update_map c k (delete name) >>> release (sp_drop entry)
  | None => se_ret tt
  end.
Definition clearTimeseriesSafe (c : nat) (name : string) : SE state unit := erase c Timeseries name.
Definition clear_map (c : nat) (k : kind) : SE state unit :=
  let* n := get_state c in
  put_state c (set_map k ∅ n) >>> release_each (map_to_list (get_map k n)).*2.
Definition resetAllData (c : nat) : SE state unit :=
  clear_map c Counters >>> clear_map c Histograms >>> clear_map c Timeseries.

(** ** Construction and destruction; the maps go before the base class *)
Definition make (updateGlobalStatsOnRead : bool) : SE state nat :=
  let* c := on_local (TLStats.new_container updateGlobalStatsOnRead) in put_state c no_names >>> se_ret c.
Definition destroy (c : nat) : SE state unit :=
  resetAllData c >>>
  modify (fun s => with_state (delete c (state_ s)) s) >>>
  on_local (TLStats.destroy_container c).
End Model.
End TLStatsMap.
