(* ===== verification/TLStatsMapCorrect.v ===== *)
(** * TLStatsMapCorrect: the named stats are there, linked and owned

    An entry of a map points to a linked stat of its name for as long as the entry
    is there; what is counted by name is neither lost nor counted twice. *)
From S2P Require Import Prelude CountedRuns RegexUtil FlatCounters CallbackValuesMap NamedCallbacks TLStatsLockTraits ExportType Timeseries TimeseriesExporter HistogramExporter HistogramNames ExportedStatMap ExportedHistogramMap QuantileStat QuantileStatMap ServiceOptions ServiceData TLStats TLStatsLedger TLStatsConserve StatPtr TLStatsMap.
From Stdlib Require Import ZArith Lia Ascii String.
From stdpp Require Import base gmap sets list strings.
Import TLStats TLStatsMap.

Open Scope Z_scope.
Open Scope fb303_scope.

Section Correct.
Context {M : Type} `{RegexMatchCache M} {TS Hg HV : Type} `{FollyHistogram TS Hg HV} `{SimpleHistogram HV}.
Context {E U US Getter Setter W : Type} (hash : string -> Z) `{LockTraits} `{TypedPtr}.
Abbreviation service := (ServiceData.state M TS Hg E U US Getter Setter W).
Abbreviation dynamic_counters := (CallbackValuesMap.cvm (counter_callback U) M).
Abbreviation dynamic_strings := (CallbackValuesMap.cvm (string_callback US) M).
Context (gap_stats : ExportedStatMap.statmap TS * dynamic_counters -> ExportedStatMap.statmap TS * dynamic_counters).
Context (gap_hists : ExportedHistogramMap.histmap TS Hg * (dynamic_counters * dynamic_strings) ->
                     ExportedHistogramMap.histmap TS Hg * (dynamic_counters * dynamic_strings)).
Context (time_source : nat -> Z).
Context (control_block : nat -> Z).
(** Control blocks lie where addresses have no high bits. *)
Hypothesis low_addresses : forall p, 0 <= control_block p < 2 ^ 59.
Abbreviation local := (tls (HV := HV) * service)%type.
Abbreviation state := (maps * local)%type.
Abbreviation handle := (TLStatsMap.handle control_block).

(** ** Stats keep their name and registration *)
Definition frame (s s' : local) : Prop := forall p x, stats s.1 !! p = Some x ->
  exists x', stats s'.1 !! p = Some x' /\ isLinked x' = isLinked x /\ name_ x' = name_ x.
Definition quiet {A} (m : SE local A) : Prop := forall s a s', TLStatsConserve.inv s -> m s = (Ret a, s') ->
  same_count s s' /\ frame s s' /\ (forall p, stats s.1 !! p = None -> stats s'.1 !! p = None).
(** [m] makes one stat: linked, of this name, at a new address. *)
Definition makes (n : string) (m : SE local nat) : Prop := forall s p s', TLStatsConserve.inv s -> m s = (Ret p, s') ->
  same_count s s' /\ frame s s' /\ stats s.1 !! p = None /\
  (exists x, stats s'.1 !! p = Some x /\ isLinked x = true /\ name x = n) /\
  (forall q, q <> p -> stats s.1 !! q = None -> stats s'.1 !! q = None).

Lemma frame_refl s : frame s s.
Proof. intros p x Hp. by exists x. Qed.
Lemma frame_trans s1 s2 s3 : frame s1 s2 -> frame s2 s3 -> frame s1 s3.
Proof.
  intros F1 F2 p x Hp. destruct (F1 p x Hp) as (y & Hy & L1 & N1), (F2 p y Hy) as (z & Hz & L2 & N2).
  exists z. split; [done|]. split; congruence.
Qed.
Lemma quiet_bind {A B} (m : SE local A) (k : A -> SE local B) : quiet m -> (forall a, quiet (k a)) -> quiet (se_bind m k).
Proof.
  intros Hm Hk s b s' Hi (a & s1 & E1 & E2)%se_bind_inv. destruct (Hm s a s1 Hi E1) as (C1 & F1 & D1).
  destruct (Hk a s1 b s' (proj1 C1) E2) as (C2 & F2 & D2). split; [by apply (same_count_trans s s1)|].
  split; [by apply (frame_trans s s1)|auto].
Qed.
Lemma quiet_aside {A} (m : SE local A) : aside m -> quiet m.
Proof.
  intros Hm s a s' Hi Em. destruct (Hm s a s' Em) as [E1 _]. split; [by apply (aside_conserves m Hm s a)|].
  split; intros p; rewrite E1; [|done]. intros x Hx. by exists x.
Qed.
Lemma quiet_ret {A} (a : A) : quiet (se_ret a).
Proof. apply quiet_aside, aside_ret. Qed.
Lemma makes_after {A} n (m : SE local A) (k : A -> SE local nat) : quiet m -> (forall a, makes n (k a)) -> makes n (se_bind m k).
Proof.
  intros Hm Hk s p s' Hi (a & s1 & E1 & E2)%se_bind_inv. destruct (Hm s a s1 Hi E1) as (C1 & F1 & D1).
  destruct (Hk a s1 p s' (proj1 C1) E2) as (C2 & F2 & N2 & Hx & D2). split; [by apply (same_count_trans s s1)|].
  split; [by apply (frame_trans s s1)|]. split; [|split; [done|auto]].
  destruct (stats s.1 !! p) as [x|] eqn:Hp; [|done]. destruct (F1 p x Hp) as (y & Hy & _). congruence.
Qed.
Lemma makes_new_stat c n d : (forall l b nm, local_value (Stat l b nm d) = 0) ->
  makes n (let* p := new_stat c (Some n) d in link p >>> se_ret p).
Proof.
  intros Hz s p s' Hi (q & s1 & E1 & E2)%se_bind_inv. destruct (new_stat_effect c (Some n) d s Hi (Hz _ _ _)) as (q' & Eq & Hn & C1).
  rewrite Eq in E1. injection E1 as <- <-. apply se_bind_inv in E2 as ([] & s2 & El & [= <- <-]).
  destruct (link_effect _ _ _ El) as (x & Hx & Ha). cbn in Hx. rewrite lookup_insert_eq in Hx. injection Hx as <-.
  split; [|split; [|split; [done|split]]].
  - apply (same_count_trans _ _ _ C1). apply (conserves_link _ _ tt _ (proj1 C1) El).
  - intros r x Hr. assert (Hne : r <> q') by congruence. exists x. rewrite (as_others _ _ _ _ _ _ Ha) by done. cbn.
    by rewrite lookup_insert_ne.
  - eexists. split; [apply (as_after _ _ _ _ _ _ Ha)|]. done.
  - intros r Hne Hr. rewrite (as_others _ _ _ _ _ _ Ha) by done. cbn. by rewrite lookup_insert_ne.
Qed.
Lemma makes_timeseries c n levels : makes n (new_timeseries hash gap_stats c n levels []).
Proof.
  apply makes_after; [apply quiet_aside, aside_service, keeps_on_stats|]. intros r.
  apply (makes_new_stat c n (TLTimeseries _ ser_new)). done.
Qed.
Lemma makes_histogram c n g : makes n (new_histogram_from c n g).
Proof.
  do 3 (apply makes_after; [apply quiet_aside, aside_service, keeps_on_hists|]; intros ?).
  apply makes_after; [apply quiet_aside, aside_lift|]. intros h. apply makes_new_stat. done.
Qed.
Lemma makes_counter c n : makes n (new_counter c n).
Proof. apply makes_new_stat. intros l b nm. apply lt_new. Qed.

(** Writing a stat's contents. *)
Lemma quiet_put p x d (s s' : local) : TLStatsConserve.inv s -> stats s.1 !! p = Some x -> local_value x = 0 ->
  local_value (set_contents d x) = 0 -> put_stat p (set_contents d x) s = (Ret tt, s') ->
  same_count s s' /\ frame s s' /\ (forall q, stats s.1 !! q = None -> stats s'.1 !! q = None).
Proof.
  intros Hi Hp Hz Hz' Ep. split; [by apply (put_recorded p x (set_contents d x))|]. injection Ep as <-. split.
  - intros q y Hq. cbn. destruct (decide (q = p)) as [->|Hne]; [|exists y; by rewrite lookup_insert_ne].
    rewrite Hp in Hq. injection Hq as <-. eexists. by rewrite lookup_insert_eq.
  - intros q Hq. cbn. rewrite lookup_insert_ne; congruence.
Qed.
Lemma quiet_addValue p v : quiet (addValue p v).
Proof.
  intros s [] s' Hi (x & s1 & Eg & Ea)%se_bind_inv. unfold get_stat in Eg. destruct (stats s.1 !! p) as [y|] eqn:Hp; [|done].
  injection Eg as <- <-. destruct (contents y) as [g sv|g h b|] eqn:Hx; [| |done]; apply (quiet_put p y _ s s' Hi Hp) in Ea;
    try done; unfold local_value; by rewrite Hx.
Qed.
Lemma quiet_addValueAggregated p v n : quiet (addValueAggregated p v n).
Proof.
  intros s [] s' Hi (x & s1 & Eg & Ea)%se_bind_inv. unfold get_stat in Eg. destruct (stats s.1 !! p) as [y|] eqn:Hp; [|done].
  injection Eg as <- <-. destruct (contents y) as [g sv| |] eqn:Hx; [|done..]. apply (quiet_put p y _ s s' Hi Hp) in Ea;
    try done; unfold local_value; by rewrite Hx.
Qed.
Lemma increment_frame p n (s s' : local) : incrementValue p n s = (Ret tt, s') ->
  frame s s' /\ (forall q, stats s.1 !! q = None -> stats s'.1 !! q = None).
Proof.
  intros (x & s1 & Eg & Ea)%se_bind_inv. unfold get_stat in Eg. destruct (stats s.1 !! p) as [y|] eqn:Hp; [|done].
  injection Eg as <- <-. destruct (contents y) as [| |v] eqn:Hx; [done..|].
  apply se_bind_inv in Ea as (v' & s2 & El & Ep). unfold TLStats.lift in El. injection El as _ <-. injection Ep as <-. split.
  - intros q z Hq. cbn. destruct (decide (q = p)) as [->|Hne]; [|exists z; by rewrite lookup_insert_ne].
    rewrite Hp in Hq. injection Hq as <-. eexists. by rewrite lookup_insert_eq.
  - intros q Hq. cbn. rewrite lookup_insert_ne; congruence.
Qed.

(** Aggregation and destruction. *)
Lemma emptied_frame p (s s' : local) : emptied same_total void p s s' -> frame s s' /\ (forall q, stats s.1 !! q = None -> stats s'.1 !! q = None).
Proof.
  intros (x & x' & [B A O C] & (_ & L & N) & _). split.
  - intros q y Hq. destruct (decide (q = p)) as [->|Hne]; [|exists y; by rewrite O]. rewrite B in Hq. injection Hq as <-. by exists x'.
  - intros q Hq. rewrite O; congruence.
Qed.
Lemma quiet_aggregate_stat p now : quiet (aggregate_stat (fun c => c) p now).
Proof.
  intros s [] s' Hi Ea. pose proof (aggregate_stat_effect p now s s' Ea) as He. split; [by apply (emptied_count p)|by apply (emptied_frame p)].
Qed.
Lemma quiet_aggregate_each ps now : quiet (aggregate_each (fun c => c) ps now).
Proof. induction ps as [|p ps IH]; [apply quiet_ret|]. apply quiet_bind; [apply quiet_aggregate_stat|done]. Qed.
Lemma quiet_get_link c : quiet (get_link c).
Proof. apply quiet_aside, aside_get_link. Qed.
Lemma quiet_aggregate c : quiet (aggregate (fun c => c) time_source c).
Proof.
  apply quiet_bind; [apply quiet_get_link|]. intros x. destruct (tlStatsEmpty_ x); [apply quiet_ret|].
  apply quiet_bind; [apply quiet_aside, aside_legacy_now|]. intros now. apply quiet_bind; [apply quiet_aggregate_each|].
  intros []. apply quiet_bind; [apply quiet_get_link|]. intros x'. apply quiet_ret.
Qed.
Lemma quiet_no_change {A} (m : SE local A) : no_stat_change m -> quiet m.
Proof.
  intros Hm s a s' Hi Em. pose proof (no_change_conserves m Hm s a s' Hi Em) as Hc. destruct (Hm s a s' Em) as [E1 _].
  split; [done|]. split; intros p; rewrite E1; [|done]. intros x Hx. by exists x.
Qed.
Lemma quiet_new_container b : quiet (new_container b).
Proof. apply quiet_no_change. by intros s c s' [= _ <-]. Qed.
Lemma quiet_destroy_container c : quiet (destroy_container c).
Proof.
  apply quiet_bind; [apply quiet_get_link|]. intros x. apply quiet_no_change, no_change_put_link.
Qed.
Lemma destroy_effect p (s s' : local) : TLStatsConserve.inv s -> TLStats.destroy (fun c => c) time_source p s = (Ret tt, s') ->
  same_count s s' /\ stats s'.1 !! p = None /\
  forall q, q <> p -> stats s'.1 !! q = stats s.1 !! q.
Proof.
  intros Hi Ed. split; [by apply (conserves_destroy time_source p s tt)|]. apply se_bind_inv in Ed as ([] & s1 & Eu & [= <-]).
  destruct (unlink_effect time_source p s s1 Hi Eu) as (x & x' & Ha & _). split; [apply lookup_delete_eq|].
  intros q Hne. cbn. rewrite lookup_delete_ne by done. apply (as_others _ _ _ _ _ _ Ha q Hne).
Qed.

(** ** The invariant

    [ext p] owners of [p] are on their way into or out of an entry. *)
Definition points (p : nat) (r : sp) : Z := if bool_decide (sp_raw r = Some p) then 1 else 0.
Definition entries (p : nat) (n : named) : Z :=
  map_sum (points p) (namedTimeseries_ n) + map_sum (points p) (namedHistograms_ n) + map_sum (points p) (namedCounters_ n).
Definition held (p : nat) (s : state) : Z := map_sum (entries p) (state_ s.1).
Definition owner_count (p : nat) (s : state) : Z := Z.of_nat (default 0%nat (owners s.1 !! p)).
Definition entry_ok (s : state) (n : string) (r : sp) : Prop :=
  exists p x, sp_holds (handle p) r /\ stats s.2.1 !! p = Some x /\ isLinked x = true /\ name x = n.
Record inv (ext : nat -> Z) (s : state) : Prop := {
  i_local : TLStatsConserve.inv s.2;
  i_entry : forall c m k n r, state_ s.1 !! c = Some m -> get_map k m !! n = Some r -> entry_ok s n r;
  i_owned : forall p, held p s + ext p <= owner_count p s;
  i_ext : forall p, 0 <= ext p;
  i_live : forall p, is_Some (owners s.1 !! p) <-> is_Some (stats s.2.1 !! p);
  i_pos : forall p, owners s.1 !! p <> Some 0%nat
}.
(** Nothing counted is lost, and the stats that are owned from outside keep their
    name and registration. *)
Definition outside_kept (ext : nat -> Z) (s s' : state) : Prop := forall p x, 0 < ext p -> stats s.2.1 !! p = Some x ->
  exists x', stats s'.2.1 !! p = Some x' /\ isLinked x' = isLinked x /\ name_ x' = name_ x.
Definition counts_same (ext : nat -> Z) (s s' : state) : Prop :=
  (forall k, wraps 64 (TLStatsConserve.total k s'.2) = wraps 64 (TLStatsConserve.total k s.2)) /\ outside_kept ext s s'.
Definition none (p : nat) : Z := 0.
Definition plus (v : shared_ptr) (ext : nat -> Z) (p : nat) : Z := ext p + (if bool_decide (object v = Some p) then 1 else 0).

Lemma points_nonneg p r : 0 <= points p r.
Proof. unfold points. by case_bool_decide. Qed.
Lemma map_points_nonneg p (m : gmap string sp) : 0 <= map_sum (points p) m.
Proof. apply map_sum_nonneg. intros n r _. apply points_nonneg. Qed.
Lemma entries_nonneg p n : 0 <= entries p n.
Proof. unfold entries. pose proof (map_points_nonneg p (namedTimeseries_ n)). pose proof (map_points_nonneg p (namedHistograms_ n)). pose proof (map_points_nonneg p (namedCounters_ n)). lia. Qed.
Lemma held_nonneg p s : 0 <= held p s.
Proof. apply map_sum_nonneg. intros c n _. apply entries_nonneg. Qed.
Lemma entries_set_map p k m n :
  entries p (set_map k m n) = entries p n - map_sum (points p) (get_map k n) + map_sum (points p) m.
Proof. unfold entries. destruct k; cbn; lia. Qed.
Lemma get_set_map k k' m n : get_map k' (set_map k m n) = if decide (k' = k) then m else get_map k' n.
Proof. by destruct k, k'. Qed.
Lemma entry_held c m k n r p (s : state) : state_ s.1 !! c = Some m -> get_map k m !! n = Some r -> sp_raw r = Some p -> 1 <= held p s.
Proof.
  intros Hc Hn Hr. assert (Hp : points p r = 1) by (unfold points; by rewrite bool_decide_eq_true_2).
  assert (Hm : 1 <= map_sum (points p) (get_map k m)).
  { rewrite <- Hp. apply (map_sum_at_least (points p) _ n r Hn). intros n' r' _. apply points_nonneg. }
  assert (He : 1 <= entries p m).
  { unfold entries. pose proof (map_points_nonneg p (namedTimeseries_ m)). pose proof (map_points_nonneg p (namedHistograms_ m)).
    pose proof (map_points_nonneg p (namedCounters_ m)). destruct k; cbn in Hm; lia. }
  transitivity (entries p m); [done|]. apply (map_sum_at_least (entries p) _ c m Hc). intros c' m' _. apply entries_nonneg.
Qed.
Lemma counts_same_frame ext (s s' : state) : same_count s.2 s'.2 -> frame s.2 s'.2 -> counts_same ext s s'.
Proof. intros [_ C] F. split; [done|]. intros p x _. apply F. Qed.
Lemma counts_same_stats ext (s s' : state) : s'.2 = s.2 -> counts_same ext s s'.
Proof. intros E2. split; [by rewrite E2|]. intros p x _ Hx. rewrite E2. by exists x. Qed.
Lemma outside_trans ext s1 s2 s3 : outside_kept ext s1 s2 -> outside_kept ext s2 s3 -> outside_kept ext s1 s3.
Proof.
  intros F1 F2 p x Hp Hx. destruct (F1 p x Hp Hx) as (y & Hy & L1 & N1).
  destruct (F2 p y Hp Hy) as (z & Hz & L2 & N2). exists z. split; [done|]. split; congruence.
Qed.
Lemma counts_same_trans ext s1 s2 s3 : counts_same ext s1 s2 -> counts_same ext s2 s3 -> counts_same ext s1 s3.
Proof. intros [C1 F1] [C2 F2]. split; [intros k; by rewrite C2|]. by apply (outside_trans ext s1 s2). Qed.
Lemma counts_same_weaken ext ext' s s' : counts_same ext s s' -> (forall p, ext' p <= ext p) -> counts_same ext' s s'.
Proof. intros [C F] He. split; [done|]. intros p x Hp. apply F. specialize (He p). lia. Qed.
Lemma inv_weaken ext ext' s : inv ext s -> (forall p, 0 <= ext' p <= ext p) -> inv ext' s.
Proof.
  intros Hi He. split; try apply Hi; [|intros p; by destruct (He p)].
  intros p. pose proof (i_owned ext s Hi p). destruct (He p). lia.
Qed.
Lemma plus_nonneg v ext p : 0 <= ext p -> 0 <= plus v ext p.
Proof. unfold plus. case_bool_decide; lia. Qed.
Lemma entry_ok_frame (s s' : state) n r : frame s.2 s'.2 -> entry_ok s n r -> entry_ok s' n r.
Proof.
  intros Hf (p & x & Hh & Hx & Hl & Hn). destruct (Hf p x Hx) as (x' & Hx' & L & N). exists p, x'.
  split; [done|]. split; [done|]. split; [congruence|]. rewrite <- Hn. unfold name. by rewrite N.
Qed.

(** Work on the stats alone. *)
Lemma on_local_inv {A} (f : SE local A) (s s' : state) a : on_local f s = (Ret a, s') -> f s.2 = (Ret a, s'.2) /\ s'.1 = s.1.
Proof. unfold on_local. destruct (f s.2) as [r l]. by intros [= -> <-]. Qed.
Lemma inv_local ext (s s' : state) :
  inv ext s -> s'.1 = s.1 -> same_count s.2 s'.2 -> frame s.2 s'.2 ->
  (forall p, stats s.2.1 !! p = None -> stats s'.2.1 !! p = None) -> inv ext s' /\ counts_same ext s s'.
Proof.
  intros Hi E1 Hsame Hf Hd. pose proof Hsame as [Hl Hc]. split; [|by apply counts_same_frame]. split; [done| | |apply Hi| |].
  - intros c m k n r. rewrite E1. intros Hm Hr. apply (entry_ok_frame s); [done|]. by apply (i_entry ext s Hi c m k).
  - intros p. unfold held, owner_count. rewrite E1. apply (i_owned ext s Hi).
  - intros p. rewrite E1, (i_live ext s Hi p). split; intros [x Hx].
    + destruct (Hf p x Hx) as (y & Hy & _). by exists y.
    + destruct (stats s.2.1 !! p) as [y|] eqn:Hp; [done|]. rewrite Hd in Hx; done.
  - intros p. rewrite E1. apply (i_pos ext s Hi).
Qed.
Lemma quiet_effect {A} ext (f : SE local A) (s s' : state) a :
  quiet f -> inv ext s -> on_local f s = (Ret a, s') -> inv ext s' /\ counts_same ext s s' /\ s'.1 = s.1.
Proof.
  intros Hq Hi (Ef & E1)%on_local_inv. destruct (Hq s.2 a s'.2 (i_local ext s Hi) Ef) as (C & F & D).
  destruct (inv_local ext s s' Hi E1 C F D). done.
Qed.
Lemma service_effect {A} ext (f : SE service A) (s s' : state) a :
  keeps_flat f -> inv ext s -> TLStatsMap.on_service f s = (Ret a, s') -> inv ext s' /\ counts_same ext s s' /\ s'.1 = s.1.
Proof. intros Hf. apply quiet_effect, quiet_aside, aside_service, Hf. Qed.

(** A stat is made; its owner is the caller. *)
Lemma make_shared_effect ext n f (s s' : state) v :
  makes n f -> inv ext s -> make_shared control_block f s = (Ret v, s') ->
  inv (plus v ext) s' /\ counts_same ext s s' /\ state_ s'.1 = state_ s.1 /\
  exists p x, v = handle p /\ stats s'.2.1 !! p = Some x /\ isLinked x = true /\ name x = n.
Proof.
  intros Hf Hi (p & s1 & E1 & E2)%se_bind_inv. apply on_local_inv in E1 as [Ef E1].
  apply se_bind_inv in E2 as ([] & s2 & Em & [= <- <-]). injection Em as <-.
  destruct (Hf s.2 p s1.2 (i_local ext s Hi) Ef) as (C & F & N & (x & Hx & Hl & Hn) & D).
  assert (Ho : owners s.1 !! p = None).
  { destruct (owners s.1 !! p) as [k|] eqn:Hp; [|done]. assert (Hs : is_Some (stats s.2.1 !! p)) by (apply (i_live ext s Hi p); by exists k).
    rewrite N in Hs. by destruct Hs. }
  pose proof (i_owned ext s Hi p) as Hz. unfold owner_count in Hz. rewrite Ho in Hz. cbn in Hz.
  split; [|split; [by apply counts_same_frame|split; [by rewrite E1|by exists p, x]]].
  split; cbn.
  - apply C.
  - intros c m k n' r. rewrite E1. intros Hm Hr. apply (entry_ok_frame s); [done|]. by apply (i_entry ext s Hi c m k).
  - intros q. pose proof (i_owned ext s Hi q) as Hq. unfold held, owner_count, plus in *. cbn. rewrite E1.
    destruct (decide (q = p)) as [->|Hne].
    + rewrite lookup_insert_eq, bool_decide_eq_true_2 by done. cbn. lia.
    + rewrite lookup_insert_ne, bool_decide_eq_false_2 by congruence. lia.
  - intros q. apply plus_nonneg, (i_ext ext s Hi).
  - intros q. rewrite E1. destruct (decide (q = p)) as [->|Hne].
    + rewrite lookup_insert_eq, Hx. split; eauto.
    + rewrite lookup_insert_ne by done. rewrite (i_live ext s Hi q). split; intros [y Hy].
      * destruct (F q y Hy) as (z & Hz' & _). by exists z.
      * destruct (stats s.2.1 !! q) as [z|] eqn:Hq; [done|]. rewrite D in Hy; done.
  - intros q. rewrite E1. destruct (decide (q = p)) as [->|Hne]; [by rewrite lookup_insert_eq|].
    rewrite lookup_insert_ne by done. apply (i_pos ext s Hi).
Qed.

(** Writing one of the maps. *)
Lemma held_put c m m' (s : state) p : state_ s.1 !! c = Some m ->
  held p (with_state (<[c := m']> (state_ s.1)) s.1, s.2) = held p s - entries p m + entries p m'.
Proof. intros Hc. unfold held. cbn. by rewrite (map_sum_update (entries p) _ _ _ _ Hc). Qed.
Lemma update_map_inv c k f (s s' : state) a : update_map c k f s = (Ret a, s') ->
  exists m, state_ s.1 !! c = Some m /\ s' = (with_state (<[c := set_map k (f (get_map k m)) m]> (state_ s.1)) s.1, s.2).
Proof.
  intros (m & s1 & Eg & Ep)%se_bind_inv. unfold get_state in Eg. destruct (state_ s.1 !! c) as [m'|] eqn:Hc; [|done].
  injection Eg as -> <-. injection Ep as _ <-. by exists m.
Qed.
Lemma put_map_inv ext ext' c m k l (s : state) :
  inv ext s -> state_ s.1 !! c = Some m ->
  (forall n r, l !! n = Some r -> entry_ok s n r) ->
  (forall p, map_sum (points p) l + ext' p <= map_sum (points p) (get_map k m) + ext p) -> (forall p, 0 <= ext' p) ->
  inv ext' (with_state (<[c := set_map k l m]> (state_ s.1)) s.1, s.2).
Proof.
  intros Hi Hc He Hl Hx. split; try apply Hi; [| |done].
  - intros c' m' k' n r. cbn. rewrite lookup_insert_Some. intros [[<- <-]|[_ Hm]]; [|by apply (i_entry ext s Hi c' m' k')].
    rewrite get_set_map. case_decide as Ek; [intros Hr; by apply He|]. by apply (i_entry ext s Hi c m k').
  - intros p. rewrite (held_put c m _ s p Hc), entries_set_map. pose proof (i_owned ext s Hi p) as Ho. specialize (Hl p).
    change (owner_count p (with_state (<[c := set_map k l m]> (state_ s.1)) s.1, s.2)) with (owner_count p s). lia.
Qed.
Lemma fits_handle p : fits (handle p).
Proof. apply low_addresses. Qed.
Lemma entry_raw (s : state) n r : entry_ok s n r -> exists p x, sp_raw r = Some p /\ sp_ptr r = handle p /\ sp_drop r = handle p /\
  stats s.2.1 !! p = Some x /\ isLinked x = true /\ name x = n.
Proof.
  intros (p & x & Hh & Hx & Hl & Hn). destruct (sp_holds_ptr _ _ Hh) as (E1 & E2 & E3). by exists p, x.
Qed.

(** The entry that a search finds or makes: there, or empty when nothing was made. *)
Definition entry_at (c : nat) (k : kind) (n : string) (r : sp) (s : state) : Prop :=
  exists m, state_ s.1 !! c = Some m /\ get_map k m !! n = Some r.
Definition maker (n : string) (f : SE state shared_ptr) : Prop := forall ext s v s', inv ext s -> f s = (Ret v, s') ->
  counts_same ext s s' /\ state_ s'.1 = state_ s.1 /\
  ((v = null /\ inv ext s') \/
   (inv (plus v ext) s' /\ exists p x, v = handle p /\ stats s'.2.1 !! p = Some x /\ isLinked x = true /\ name x = n)).
Lemma maker_shared n f : makes n f -> maker n (make_shared control_block f).
Proof.
  intros Hf ext s v s' Hi Em. destruct (make_shared_effect ext n f s s' v Hf Hi Em) as (Hi' & C & E1 & Hx).
  split; [done|]. split; [done|]. by right.
Qed.
Lemma maker_histogram c n : maker n (createHistogramLocked control_block c n).
Proof.
  intros ext s v s' Hi (g & s1 & E1 & E2)%se_bind_inv.
  destruct (service_effect ext _ s s1 g (keeps_on_hists _) Hi E1) as (Hi1 & C1 & S1). destruct (ExportedHistogramMapImpl.isNull g).
  - injection E2 as <- <-. split; [done|]. split; [by rewrite S1|]. by left.
  - destruct (maker_shared n _ (makes_histogram c n _) ext s1 v s' Hi1 E2) as (C2 & S2 & Hv). split; [by apply (counts_same_trans ext s s1)|].
    split; [congruence|done].
Qed.

Lemma insert_effect ext c k n v p x (s s' : state) :
  inv (plus v ext) s -> (forall q, 0 <= ext q) -> v = handle p -> stats s.2.1 !! p = Some x -> isLinked x = true -> name x = n ->
  (forall m, state_ s.1 !! c = Some m -> get_map k m !! n = None) ->
  update_map c k (insert n (sp_set_ptr v sp_make)) s = (Ret tt, s') ->
  inv ext s' /\ counts_same ext s s' /\ entry_at c k n (sp_set_ptr v sp_make) s'.
Proof.
  intros Hi Hext -> Hx Hl Hn Hnone Eu. apply update_map_inv in Eu as (m & Hc & ->).
  pose proof (sp_set_ptr_holds (handle p) sp_make (fits_handle p)) as Hh. destruct (sp_holds_ptr _ _ Hh) as (Hraw & _).
  split; [|split; [by apply counts_same_stats|]].
  - apply (put_map_inv (plus (handle p) ext)); [done|done| | |done].
    + intros n' r. rewrite lookup_insert_Some. intros [[<- <-]|[_ Hr]]; [by exists p, x|by apply (i_entry _ s Hi c m k)].
    + intros q. rewrite map_sum_insert by (by apply Hnone). unfold plus, points at 1. rewrite Hraw. cbn. lia.
  - exists (set_map k (<[n := sp_set_ptr (handle p) sp_make]> (get_map k m)) m). cbn. rewrite lookup_insert_eq. split; [done|].
    rewrite get_set_map, decide_True by done. apply lookup_insert_eq.
Qed.
Lemma tryInsert_effect ext c k n f (s s' : state) r :
  maker n f -> inv ext s -> tryInsertLocked c k n f s = (Ret r, s') ->
  inv ext s' /\ counts_same ext s s' /\ (r = sp_make \/ entry_at c k n r s').
Proof.
  intros Hf Hi (found & s1 & E1 & E2)%se_bind_inv. apply se_bind_inv in E1 as (m & s0 & Eg & [= <- <-]).
  unfold get_state in Eg. destruct (state_ s.1 !! c) as [m'|] eqn:Hc; [|done]. injection Eg as -> <-.
  destruct (get_map k m !! n) as [r'|] eqn:Hn.
  { injection E2 as -> <-. split; [done|]. split; [by apply counts_same_stats|]. right. by exists m. }
  apply se_bind_inv in E2 as (v & s1 & Ev & E3). destruct (Hf ext s v s1 Hi Ev) as (C1 & S1 & [[-> Hi1]|(Hi1 & p & x & Hv & Hx & Hl & Hm)]).
  { injection E3 as <- <-. split; [done|]. split; [done|by left]. }
  rewrite Hv in E3. cbn [object TLStatsMap.handle] in E3. apply se_bind_inv in E3 as ([] & s2 & Eu & [= <- <-]). rewrite <- Hv in Eu.
  destruct (insert_effect ext c k n v p x s1 s2 Hi1 (i_ext ext s Hi) Hv Hx Hl Hm) as (Hi2 & C2 & He); [|exact Eu|].
  { intros m1. rewrite S1, Hc. by intros [= <-]. }
  split; [done|]. split; [by apply (counts_same_trans ext s s1)|]. right. by rewrite <- Hv.
Qed.
Lemma raw_stat_inv r (s s' : state) p : raw_stat r s = (Ret p, s') -> s' = s /\ sp_raw r = Some p.
Proof. unfold raw_stat. destruct (sp_raw r); [|done]. by intros [= -> <-]. Qed.
Lemma entry_at_ok ext c k n r (s : state) : inv ext s -> entry_at c k n r s -> entry_ok s n r.
Proof. intros Hi (m & Hc & Hn). by apply (i_entry ext s Hi c m k). Qed.
Lemma sp_make_raw : sp_raw sp_make = None /\ sp_ptr sp_make = null /\ sp_drop sp_make = null.
Proof. destruct (sp_holds_ptr null sp_make sp_make_holds) as (-> & -> & ->). done. Qed.

(** *** Owners *)
Lemma owners_inv ext (s : state) p n n' :
  inv ext s -> owners s.1 !! p = Some n -> (0 < n')%nat -> (held p s + ext p <= Z.of_nat n') ->
  inv ext (with_owners (<[p := n']> (owners s.1)) s.1, s.2).
Proof.
  intros Hi Hp Hn' Hle. split; try apply Hi.
  - intros q. pose proof (i_owned ext s Hi q) as Hq. unfold held, owner_count in *. cbn. destruct (decide (q = p)) as [->|Hne].
    + by rewrite lookup_insert_eq.
    + by rewrite lookup_insert_ne.
  - intros q. cbn. rewrite <- (i_live ext s Hi q). destruct (decide (q = p)) as [->|Hne].
    + rewrite lookup_insert_eq, Hp. split; eauto.
    + by rewrite lookup_insert_ne.
  - intros q. cbn. rewrite lookup_insert_Some. intros [[_ E0]|[_ Hq]]; [lia|by apply (i_pos ext s Hi q)].
Qed.
(** A pointer is copied: an owner more. *)
Lemma acquire_effect ext v (s s' : state) v' : inv ext s -> acquire v s = (Ret v', s') ->
  inv ext s' /\ counts_same ext s s' /\ v' = v /\
  ((forall p, object v = Some p -> is_Some (stats s.2.1 !! p)) -> inv (plus v ext) s') /\ s'.2 = s.2.
Proof.
  unfold acquire. intros Hi. destruct (object v) as [p|] eqn:Hv.
  2: { intros [= <- <-]. split; [done|]. split; [by apply counts_same_stats|]. split; [done|]. split; [intros _|done].
       apply (inv_weaken ext); [done|]. intros q. unfold plus. rewrite Hv, bool_decide_eq_false_2 by done. pose proof (i_ext ext s Hi q). lia. }
  intros ([] & s1 & Em & [= <- <-])%se_bind_inv. injection Em as <-.
  assert (Hp' : inv ext (with_owners (alter S p (owners s.1)) s.1, s.2) /\
                (is_Some (owners s.1 !! p) -> inv (plus v ext) (with_owners (alter S p (owners s.1)) s.1, s.2))).
  2: { destruct Hp' as [Hp1 Hp2]. split; [done|]. split; [by apply counts_same_stats|]. split; [done|]. split; [|done].
       intros Hl. by apply Hp2, (i_live ext s Hi), Hl. }
  destruct (owners s.1 !! p) as [n|] eqn:Hp.
  - assert (Ea : alter S p (owners s.1) = <[p := S n]> (owners s.1)).
    { apply map_eq. intros q. destruct (decide (q = p)) as [->|]; [rewrite lookup_alter_eq, lookup_insert_eq, Hp|rewrite lookup_alter_ne, lookup_insert_ne]; done. }
    rewrite Ea. pose proof (i_owned ext s Hi p) as Ho. unfold owner_count in Ho. rewrite Hp in Ho. cbn in Ho.
    assert (Hi' : inv ext (with_owners (<[p := S n]> (owners s.1)) s.1, s.2)) by (apply (owners_inv ext s p n (S n) Hi Hp); lia).
    split; [done|]. intros _. split; try apply Hi'; [|intros q; apply plus_nonneg, (i_ext ext s Hi)].
    intros q. pose proof (i_owned ext s Hi q) as Hq. unfold held, owner_count, plus in *. rewrite Hv. cbn. destruct (decide (q = p)) as [->|Hne].
    + rewrite lookup_insert_eq, bool_decide_eq_true_2 by done. cbn. lia.
    + rewrite lookup_insert_ne, bool_decide_eq_false_2 by congruence. lia.
  - assert (Ea : alter S p (owners s.1) = owners s.1) by (apply map_eq; intros q; destruct (decide (q = p)) as [->|]; [rewrite lookup_alter_eq, Hp|rewrite lookup_alter_ne]; done).
    rewrite Ea. split; [destruct s as [m l], m; exact Hi|by intros [? ?]].
Qed.
Lemma release_effect ext v (s s' : state) :
  inv (plus v ext) s -> (forall p, 0 <= ext p) -> release (fun c => c) time_source v s = (Ret tt, s') ->
  inv ext s' /\ counts_same ext s s' /\ state_ s'.1 = state_ s.1.
Proof.
  intros Hi Hx. unfold release. destruct (object v) as [p|] eqn:Hv.
  2: { intros [= <-]. split; [|split; [by apply counts_same_stats|done]]. apply (inv_weaken (plus v ext)); [done|]. intros q. unfold plus. rewrite Hv, bool_decide_eq_false_2 by done. specialize (Hx q). lia. }
  assert (Hw : inv ext s).
  { apply (inv_weaken (plus v ext)); [done|]. intros q. specialize (Hx q). unfold plus. case_bool_decide; lia. }
  intros (sx & s0 & Es & E1)%se_bind_inv. injection Es as <- <-. pose proof (i_owned _ s Hi p) as Ho. unfold owner_count, plus in Ho.
  rewrite bool_decide_eq_true_2 in Ho by done. destruct (owners s.1 !! p) as [[|[|n]]|] eqn:Hp; try done.
  - apply se_bind_inv in E1 as ([] & s1 & Em & E2). injection Em as <-. apply on_local_inv in E2 as [Ed E2]. cbn [fst snd] in Ed, E2.
    destruct (destroy_effect p _ _ (i_local _ s Hw) Ed) as (C & Dp & D). cbn in Ho. pose proof (held_nonneg p s) as Hh. specialize (Hx p).
    assert (Hz : held p s = 0) by lia. assert (Hx0 : ext p = 0) by lia. split; [|split; [|by rewrite E2]].
    2: { split; [exact (proj2 C)|]. intros q y Hq Hy. rewrite D by (intros ->; lia). by exists y. }
    split.
    + apply C.
    + intros c m k n r. rewrite E2. cbn. intros Hc Hn. destruct (i_entry ext s Hw c m k n r Hc Hn) as (q & x & Hq & Hs & Hl & Hm).
      exists q, x. split; [done|]. split; [|done]. rewrite D; [done|]. intros ->. destruct (sp_holds_ptr _ _ Hq) as (Hr & _).
      pose proof (entry_held c m k n r p s Hc Hn Hr). lia.
    + intros q. pose proof (i_owned ext s Hw q) as Hq. unfold held, owner_count in *. rewrite E2. cbn. destruct (decide (q = p)) as [->|Hne].
      * rewrite lookup_delete_eq. cbn. lia.
      * by rewrite lookup_delete_ne.
    + apply Hw.
    + intros q. rewrite E2. cbn. destruct (decide (q = p)) as [->|Hne].
      * rewrite lookup_delete_eq, Dp. split; by intros [? ?].
      * rewrite lookup_delete_ne, D by done. apply (i_live ext s Hw).
    + intros q. rewrite E2. cbn. rewrite lookup_delete_Some. intros [_ Hq]. by apply (i_pos ext s Hw q).
  - injection E1 as <-. split; [|split; [by apply counts_same_stats|done]]. apply (owners_inv ext s p (S (S n)) (S n) Hw Hp); [lia|]. cbn in Ho. lia.
Qed.
(** At the start. *)
Lemma inv_start (s : state) : owners s.1 = ∅ -> state_ s.1 = ∅ -> stats s.2.1 = ∅ -> inv none s.
Proof.
  intros Ho Hs Hl. split.
  - intros p x. by rewrite Hl.
  - intros c m k n r. by rewrite Hs.
  - intros p. unfold held, owner_count, none. rewrite Hs, Ho, map_sum_empty. done.
  - done.
  - intros p. rewrite Ho, Hl. split; by intros [? ?].
  - intros p. by rewrite Ho.
Qed.

End Correct.
