(* ===== verification/TLStatsMapTidy.v ===== *)
(** * TLStatsMapTidy: the maps of names and their containers

    The containers that are there are those with maps, and each knows its stats:
    what every operation on the maps keeps. *)
From S2P Require Import Prelude CountedRuns RegexUtil FlatCounters CallbackValuesMap NamedCallbacks TLStatsLockTraits ExportType Timeseries TimeseriesExporter HistogramExporter HistogramNames ExportedStatMap ExportedHistogramMap QuantileStat QuantileStatMap ServiceOptions ServiceData TLStats TLStatsLedger TLStatsConserve TLStatsRegistered StatPtr TLStatsMap TLStatsMapCorrect.
From Stdlib Require Import ZArith Lia Ascii String.
From stdpp Require Import base gmap sets list strings.
Import TLStats TLStatsMap.

Open Scope Z_scope.
Open Scope fb303_scope.

Section Tidy.
Context {M : Type} `{RegexMatchCache M} {TS Hg HV : Type} `{FollyHistogram TS Hg HV} `{SimpleHistogram HV}.
Context {E U US Getter Setter W : Type} (hash : string -> Z) `{LockTraits} `{TypedPtr}.
Abbreviation service := (ServiceData.state M TS Hg E U US Getter Setter W).
Abbreviation dynamic_counters := (CallbackValuesMap.cvm (counter_callback U) M).
Context (gap_stats : ExportedStatMap.statmap TS * dynamic_counters -> ExportedStatMap.statmap TS * dynamic_counters).
Context (time_source : nat -> Z) (control_block : nat -> Z).
Abbreviation local := (tls (HV := HV) * service)%type.
Abbreviation state := (maps * local)%type.

Record tidy (s : state) : Prop := {
  t_registered : registered s.2;
  t_alive : forall i, alive_at i s.2 <-> is_Some (state_ s.1 !! i)
}.
Definition same_maps (s s' : state) : Prop := forall i, is_Some (state_ s'.1 !! i) <-> is_Some (state_ s.1 !! i).
Definition tidy_op {A} (m : SE state A) : Prop := forall s a s', tidy s -> m s = (Ret a, s') -> tidy s' /\ same_maps s s'.

Lemma tidy_bind {A B} (m : SE state A) (k : A -> SE state B) : tidy_op m -> (forall a, tidy_op (k a)) -> tidy_op (se_bind m k).
Proof.
  intros Hm Hk s b s' Hr (a & s1 & E1 & E2)%se_bind_inv. destruct (Hm s a s1 Hr E1) as [Hr1 A1].
  destruct (Hk a s1 b s' Hr1 E2) as [Hr2 A2]. split; [done|]. intros i. by rewrite (A2 i), (A1 i).
Qed.
Lemma tidy_ret {A} (a : A) : tidy_op (se_ret a).
Proof. by intros s b s' Hr [= _ <-]. Qed.
Lemma tidy_throw {A} e : tidy_op (se_throw (A := A) e).
Proof. by intros s b s' Hr. Qed.
Lemma tidy_local {A} (f : SE local A) : orderly f -> tidy_op (on_local f).
Proof.
  intros Hf s a s' [Hr Ha] (Ef & E1)%on_local_inv. destruct (Hf s.2 a s'.2 Hr Ef) as [Hr' Al]. split; [|by intros i; rewrite E1].
  split; [done|]. intros i. by rewrite E1, (Al i).
Qed.
Lemma tidy_keep {A} (m : SE state A) : (forall s a s', m s = (Ret a, s') -> s'.2 = s.2 /\ same_maps s s') -> tidy_op m.
Proof.
  intros Hm s a s' [Hr Ha] Em. destruct (Hm s a s' Em) as [E2 Hs]. split; [|done]. split; rewrite ?E2; [done|].
  intros i. by rewrite (Ha i), (Hs i).
Qed.
Lemma tidy_get_state c : tidy_op (get_state c).
Proof. apply tidy_keep. intros s m s'. unfold get_state. destruct (state_ s.1 !! c); [|done]. by intros [= _ <-]. Qed.
Lemma same_maps_put c m m' (s : state) : state_ s.1 !! c = Some m -> same_maps s (with_state (<[c := m']> (state_ s.1)) s.1, s.2).
Proof.
  intros Hc i. cbn. destruct (decide (i = c)) as [->|]; [rewrite lookup_insert_eq, Hc|rewrite lookup_insert_ne by done; done].
  split; intros _; by eexists.
Qed.
Lemma tidy_update_map c k f : tidy_op (update_map c k f).
Proof. apply tidy_keep. intros s a s' (m & Hc & ->)%update_map_inv. split; [done|]. by apply (same_maps_put c m). Qed.
Lemma tidy_owners f : tidy_op (modify (fun s => with_owners (f s) s)).
Proof. apply tidy_keep. by intros s [] s' [= <-]. Qed.
Lemma tidy_find c k n : tidy_op (TLStatsMap.find c k n).
Proof. apply tidy_bind; [apply tidy_get_state|intros; apply tidy_ret]. Qed.

(** ** Pointers *)
Lemma tidy_make_shared f : orderly f -> tidy_op (make_shared control_block f).
Proof. intros Hf. apply tidy_bind; [by apply tidy_local|]. intros p. apply tidy_bind; [apply (tidy_owners (fun s => <[p := 1%nat]> (owners s)))|intros; apply tidy_ret]. Qed.
Lemma tidy_acquire v : tidy_op (acquire v).
Proof.
  unfold acquire. destruct (object v) as [p|]; [|apply tidy_ret].
  apply tidy_bind; [apply (tidy_owners (fun s => alter S p (owners s)))|intros; apply tidy_ret].
Qed.
Lemma tidy_release v : tidy_op (release (fun c => c) time_source v).
Proof.
  unfold release. destruct (object v) as [p|]; [|apply tidy_ret]. intros s [] s' Hr (t & s1 & [= <- <-] & E1)%se_bind_inv.
  destruct (owners s.1 !! p) as [[|[|n]]|]; [done| | |done]; revert E1; revert s Hr.
  - intros s Hr E1. revert E1. apply tidy_bind; [apply (tidy_owners (fun s => delete p (owners s)))|intros []; apply tidy_local, orderly_destroy|done].
  - intros s Hr E1. revert E1. by apply (tidy_owners (fun s => <[p := S n]> (owners s))).
Qed.
Lemma tidy_release_each l : tidy_op (release_each (fun c => c) time_source l).
Proof. induction l as [|r l IH]; [apply tidy_ret|]. apply tidy_bind; [apply tidy_release|by intros []]. Qed.

(** ** Entries *)
Lemma tidy_insert c k n f : tidy_op f -> tidy_op (tryInsertLocked c k n f).
Proof.
  intros Hf. apply tidy_bind; [apply tidy_find|]. intros [r|]; [apply tidy_ret|]. apply tidy_bind; [done|]. intros v.
  destruct (object v); [|apply tidy_ret]. apply tidy_bind; [apply tidy_update_map|intros; apply tidy_ret].
Qed.
Lemma tidy_raw r : tidy_op (raw_stat r).
Proof. unfold raw_stat. destruct (sp_raw r); [apply tidy_ret|apply tidy_throw]. Qed.
Lemma tidy_service {A} (f : SE service A) : tidy_op (TLStatsMap.on_service f).
Proof. apply tidy_local, orderly_service. Qed.
Lemma tidy_timeseries c n : tidy_op (tryInsertLocked c Timeseries n (make_timeseries hash gap_stats control_block c n)).
Proof. apply tidy_insert, tidy_make_shared, orderly_new_timeseries. Qed.
Lemma tidy_histogram c n : tidy_op (tryInsertLocked c Histograms n (createHistogramLocked control_block c n)).
Proof.
  apply tidy_insert, tidy_bind; [apply tidy_service|]. intros g. destruct (ExportedHistogramMapImpl.isNull g); [apply tidy_ret|].
  apply tidy_make_shared, orderly_new_histogram_from.
Qed.
Lemma tidy_counter c n : tidy_op (tryInsertLocked c Counters n (make_shared control_block (TLStats.new_counter c n))).
Proof. apply tidy_insert, tidy_make_shared, orderly_new_counter. Qed.
#[local] Hint Resolve tidy_bind tidy_ret tidy_throw tidy_local tidy_service tidy_timeseries tidy_histogram tidy_counter tidy_acquire tidy_raw
  tidy_update_map tidy_release tidy_release_each orderly_addValue orderly_addValueAggregated orderly_incrementValue orderly_aggregate : core.

Lemma tidy_addStatValue c n v : tidy_op (addStatValue hash gap_stats control_block c n v).
Proof. apply tidy_bind; [unfold getTimeseriesLocked; auto|auto]. Qed.
Lemma tidy_addStatValueAggregated c n v m : tidy_op (addStatValueAggregated hash gap_stats control_block c n v m).
Proof. apply tidy_bind; [unfold getTimeseriesLocked; auto|auto]. Qed.
Lemma tidy_addStatValue_typed c n v t : tidy_op (addStatValue_typed hash gap_stats control_block c n v t).
Proof.
  apply tidy_bind; [|auto]. apply tidy_bind; [auto|]. intros r. apply tidy_bind; [|auto].
  destruct (sp_type t r); [auto|]. apply tidy_bind; [auto|intros; apply tidy_update_map].
Qed.
Lemma tidy_clearStat c n t : tidy_op (clearStat hash gap_stats c n t).
Proof. apply tidy_bind; [apply tidy_update_map|auto]. Qed.
Lemma tidy_addHistogramValue c n v : tidy_op (addHistogramValue control_block c n v).
Proof. apply tidy_bind; [apply tidy_bind; auto|intros [p|]; auto]. Qed.
Lemma tidy_incrementCounter c n a : tidy_op (incrementCounter control_block c n a).
Proof. apply tidy_bind; [apply tidy_bind; auto|auto]. Qed.
Lemma tidy_getTimeseriesSafe c n : tidy_op (getTimeseriesSafe hash gap_stats control_block c n).
Proof. apply tidy_bind; auto. Qed.
Lemma tidy_getTimeseriesSafe_levels c n nb nl ds : tidy_op (getTimeseriesSafe_levels hash gap_stats control_block c n nb nl ds).
Proof.
  apply tidy_bind; [|auto]. apply tidy_insert, tidy_bind; [unfold levels_of; case_match; auto|].
  intros t. apply tidy_make_shared, orderly_new_timeseries.
Qed.
Lemma tidy_getHistogramSafe c n : tidy_op (getHistogramSafe control_block c n).
Proof. apply tidy_bind; auto. Qed.
Lemma tidy_getCounterSafe c n : tidy_op (getCounterSafe control_block c n).
Proof. apply tidy_bind; auto. Qed.
Lemma tidy_erase c k n : tidy_op (erase (fun c => c) time_source c k n).
Proof. apply tidy_bind; [apply tidy_find|]. intros [r|]; auto. Qed.
Lemma tidy_clear_map c k : tidy_op (clear_map (fun c => c) time_source c k).
Proof.
  intros s [] s' Hr (m & s1 & Eg & E1)%se_bind_inv. unfold get_state in Eg. destruct (state_ s.1 !! c) as [m'|] eqn:Hc; [|done].
  injection Eg as -> <-. apply se_bind_inv in E1 as ([] & s2 & Ep & E2).
  assert (Hp : tidy s2 /\ same_maps s s2).
  { injection Ep as <-. destruct Hr as [R A]. pose proof (same_maps_put c m (set_map k ∅ m) s Hc) as Hs. split; [|done]. split; [done|].
    intros i. rewrite (A i). symmetry. apply Hs. }
  destruct Hp as [Hr2 S2]. destruct (tidy_release_each _ s2 tt s' Hr2 E2) as [Hr' S']. split; [done|]. intros i. by rewrite (S' i), (S2 i).
Qed.
Lemma tidy_resetAllData c : tidy_op (resetAllData (fun c => c) time_source c).
Proof. do 2 (apply tidy_bind; [apply tidy_clear_map|intros []]). apply tidy_clear_map. Qed.

(** ** Maps come and go *)
Lemma tidy_make b (s s' : state) c : tidy s -> make b s = (Ret c, s') ->
  tidy s' /\ state_ s.1 !! c = None /\ (forall i, is_Some (state_ s'.1 !! i) <-> i = c \/ is_Some (state_ s.1 !! i)).
Proof.
  intros [Hr Ha] (c' & s1 & E1 & E2)%se_bind_inv. apply on_local_inv in E1 as [En E1].
  destruct (new_container_effect b s.2 s1.2 c' Hr En) as (Hr1 & Hc & A1). apply se_bind_inv in E2 as ([] & s2 & Ep & [= <- <-]).
  injection Ep as <-. assert (Hs : forall i, is_Some (<[c' := no_names]> (state_ s1.1) !! i) <-> i = c' \/ is_Some (state_ s.1 !! i)).
  { intros i. rewrite E1. destruct (decide (i = c')) as [->|Hne]; [rewrite lookup_insert_eq; split; [by left|by eexists]|].
    rewrite lookup_insert_ne by done. split; [by right|by intros [->|]]. }
  split; [split; [done|]|split; [|done]].
  - intros i. rewrite (A1 i), (Ha i). symmetry. apply Hs.
  - destruct (state_ s.1 !! c') eqn:Hc'; [|done]. assert (alive_at c' s.2) as (d & Hd & _) by (apply Ha; by eexists). congruence.
Qed.
Lemma tidy_destroy c (s s' : state) : tidy s -> TLStatsMap.destroy (fun c => c) time_source c s = (Ret tt, s') ->
  tidy s' /\ (forall i, is_Some (state_ s'.1 !! i) <-> i <> c /\ is_Some (state_ s.1 !! i)).
Proof.
  intros Hr ([] & s1 & E1 & E2)%se_bind_inv. destruct (tidy_resetAllData c s tt s1 Hr E1) as [[Hr1 Ha1] S1].
  apply se_bind_inv in E2 as ([] & s2 & Em & E3). injection Em as <-. apply on_local_inv in E3 as [Ed E3].
  destruct (destroy_container_effect c _ _ Hr1 Ed) as [Hr' A'].
  assert (Hs : forall i, is_Some (state_ s'.1 !! i) <-> i <> c /\ is_Some (state_ s1.1 !! i)).
  { intros i. rewrite E3. cbn. destruct (decide (i = c)) as [->|Hne].
    - rewrite lookup_delete_eq. split; [by intros [? ?]|by intros [? _]].
    - rewrite lookup_delete_ne by done. split; [done|by intros [_ ?]]. }
  split; [split; [done|]|].
  - intros i. rewrite (A' i), (Hs i). cbn. by rewrite (Ha1 i).
  - intros i. by rewrite (Hs i), (S1 i).
Qed.
End Tidy.
