(* ===== verification/TLStatsMapSteps.v ===== *)
(** * TLStatsMapSteps: what an operation on the maps of names keeps

    Every operation of [TLStatsMap] keeps its invariant, the counts, and the stats
    that are owned from outside. *)
From S2P Require Import Prelude CountedRuns RegexUtil FlatCounters CallbackValuesMap NamedCallbacks TLStatsLockTraits ExportType Timeseries TimeseriesExporter HistogramExporter HistogramNames ExportedStatMap ExportedHistogramMap QuantileStat QuantileStatMap ServiceOptions ServiceData TLStats TLStatsLedger TLStatsConserve TLStatsCounts StatPtr TLStatsMap TLStatsMapCorrect.
From Stdlib Require Import ZArith Lia Ascii String.
From stdpp Require Import base gmap sets list strings.
Import TLStats TLStatsMap.

Open Scope Z_scope.
Open Scope fb303_scope.

Section Steps.
Context {M : Type} `{RegexMatchCache M} {TS Hg HV : Type} `{FollyHistogram TS Hg HV} `{SimpleHistogram HV}.
Context {E U US Getter Setter W : Type} (hash : string -> Z) `{LockTraits} `{TypedPtr}.
Abbreviation service := (ServiceData.state M TS Hg E U US Getter Setter W).
Abbreviation dynamic_counters := (CallbackValuesMap.cvm (counter_callback U) M).
Abbreviation dynamic_strings := (CallbackValuesMap.cvm (string_callback US) M).
Context (gap_stats : ExportedStatMap.statmap TS * dynamic_counters -> ExportedStatMap.statmap TS * dynamic_counters).
Context (gap_hists : ExportedHistogramMap.histmap TS Hg * (dynamic_counters * dynamic_strings) ->
                     ExportedHistogramMap.histmap TS Hg * (dynamic_counters * dynamic_strings)).
Context (time_source : nat -> Z) (control_block : nat -> Z).
Hypothesis low_addresses : forall p, 0 <= control_block p < 2 ^ 59.
Abbreviation local := (tls (HV := HV) * service)%type.
Abbreviation state := (maps * local)%type.
Abbreviation inv := (TLStatsMapCorrect.inv control_block).

(** Owners outside the maps. *)
Context (ext : nat -> Z).

(** ** Every operation keeps the invariant and the counts *)
Definition good_op {A} (m : SE state A) : Prop := forall s a s', inv ext s -> m s = (Ret a, s') -> inv ext s' /\ counts_same ext s s'.
Lemma good_bind {A B} (m : SE state A) (k : A -> SE state B) : good_op m -> (forall a, good_op (k a)) -> good_op (se_bind m k).
Proof.
  intros Hm Hk s b s' Hi (a & s1 & E1 & E2)%se_bind_inv. destruct (Hm s a s1 Hi E1) as [Hi1 C1].
  destruct (Hk a s1 b s' Hi1 E2) as [Hi2 C2]. split; [done|]. by apply (counts_same_trans ext s s1).
Qed.
Lemma good_ret {A} (a : A) : good_op (se_ret a).
Proof. intros s b s' Hi [= _ <-]. split; [done|by apply counts_same_stats]. Qed.
Lemma good_quiet {A} (f : SE local A) : quiet f -> good_op (on_local f).
Proof. intros Hf s a s' Hi Ef. destruct (quiet_effect control_block ext f s s' a Hf Hi Ef) as (Hi' & C & _). done. Qed.
Lemma good_service {A} (f : SE service A) : keeps_flat f -> good_op (TLStatsMap.on_service f).
Proof. intros Hf. by apply good_quiet, quiet_aside, aside_service. Qed.
Lemma good_insert c k n f : maker control_block n f -> good_op (tryInsertLocked c k n f).
Proof.
  intros Hf s r s' Hi Ei. destruct (tryInsert_effect control_block low_addresses ext c k n f s s' r Hf Hi Ei) as (Hi' & C & _). done.
Qed.
Lemma good_acquire v : good_op (acquire v).
Proof. intros s a s' Hi Ea. destruct (acquire_effect control_block ext v s s' a Hi Ea) as (Hi' & C & _). done. Qed.
Lemma good_raw r : good_op (raw_stat r).
Proof. intros s p s' Hi [-> _]%raw_stat_inv. split; [done|by apply counts_same_stats]. Qed.
Lemma good_get_state c : good_op (get_state c).
Proof. intros s m s' Hi. unfold get_state. destruct (state_ s.1 !! c); [|done]. intros [= _ <-]. split; [done|by apply counts_same_stats]. Qed.
Lemma good_set_type c n t b : good_op (set_type c Timeseries n t b).
Proof.
  intros s a s' Hi (m & Hc & ->)%update_map_inv. split; [|by apply counts_same_stats].
  assert (Ht : forall r, entry_ok control_block s n r -> sp_raw (sp_set_type t b r) = sp_raw r).
  { intros r (p & x & Hh & _). destruct (sp_holds_ptr _ _ Hh) as (-> & _).
    destruct (sp_holds_ptr _ _ (sp_set_type_holds _ t b r Hh)) as (-> & _). done. }
  assert (Hok : forall r, entry_ok control_block s n r -> entry_ok control_block s n (sp_set_type t b r)).
  { intros r (p & x & Hh & Hx). exists p, x. split; [by apply sp_set_type_holds|done]. }
  destruct (get_map Timeseries m !! n) as [r|] eqn:Hr.
  - assert (Ea : alter (sp_set_type t b) n (get_map Timeseries m) = <[n := sp_set_type t b r]> (get_map Timeseries m)).
    { apply map_eq. intros q. destruct (decide (q = n)) as [->|]; [rewrite lookup_alter_eq, lookup_insert_eq, Hr|rewrite lookup_alter_ne, lookup_insert_ne]; done. }
    pose proof (i_entry _ ext s Hi c m Timeseries n r Hc Hr) as He. rewrite Ea. apply (put_map_inv control_block ext); [done|done| | |apply (i_ext _ ext s Hi)].
    + intros n' r'. rewrite lookup_insert_Some. intros [[<- <-]|[_ Hn]]; [by apply Hok|by apply (i_entry _ ext s Hi c m Timeseries)].
    + intros p. rewrite (map_sum_update (points p) _ _ _ _ Hr). unfold points at 2 3. rewrite (Ht r He). lia.
  - assert (Ea : alter (sp_set_type t b) n (get_map Timeseries m) = get_map Timeseries m).
    { apply map_eq. intros q. destruct (decide (q = n)) as [->|]; [by rewrite lookup_alter_eq, Hr|by rewrite lookup_alter_ne]. }
    rewrite Ea. apply (put_map_inv control_block ext); [done|done| |lia|apply (i_ext _ ext s Hi)]. intros n' r'. by apply (i_entry _ ext s Hi c m Timeseries).
Qed.
Lemma good_timeseries c n : good_op (tryInsertLocked c Timeseries n (make_timeseries hash gap_stats control_block c n)).
Proof. apply good_insert, maker_shared, makes_timeseries. Qed.
Lemma good_getTimeseriesLocked c n : good_op (getTimeseriesLocked hash gap_stats control_block c n).
Proof. apply good_bind; [apply good_timeseries|apply good_raw]. Qed.
Lemma keeps_addStatExportType n t p u : keeps_flat (ServiceData.addStatExportType (M := M) (Hg := Hg) (E := E) (U := U) (US := US) (Getter := Getter) (Setter := Setter) (W := W) hash gap_stats n t p u).
Proof. apply keeps_on_stats. Qed.

(** An entry's counter is incremented. *)
Definition counts_more (n : string) (a : Z) (s s' : state) : Prop :=
  (forall k, wraps 64 (TLStatsConserve.total k s'.2) = wraps 64 (TLStatsConserve.total k s.2 + (if bool_decide (n = k) then a else 0))) /\
  outside_kept ext s s'.
Lemma counts_more_after n a (s s1 s' : state) : counts_same ext s s1 -> counts_more n a s1 s' -> counts_more n a s s'.
Proof.
  intros [C1 F1] [C2 F2]. split; [|by apply (outside_trans ext s s1)].
  intros k. rewrite C2, <- wraps_idemp_add, (C1 k), wraps_idemp_add by lia. done.
Qed.
Lemma increment_entry p x a (s s' : state) :
  inv ext s -> stats s.2.1 !! p = Some x -> isLinked x = true -> on_local (TLStats.incrementValue p a) s = (Ret tt, s') ->
  inv ext s' /\ counts_more (name x) a s s'.
Proof.
  intros Hi Hx Hl (Ei & E1)%on_local_inv. destruct (increment_effect p a s.2 s'.2 x (i_local _ ext s Hi) Hx Hl Ei) as [Hi' Ht].
  destruct (increment_frame p a s.2 s'.2 Ei) as [Hf Hd]. split; [|split; [apply Ht|intros q y _; apply Hf]].
  split; try (rewrite E1; apply Hi).
  - done.
  - intros c m k' n r. rewrite E1. intros Hm Hr. apply (entry_ok_frame control_block s); [done|]. by apply (i_entry _ ext s Hi c m k').
  - intros q. unfold held, owner_count. rewrite E1. apply (i_owned _ ext s Hi).
  - apply Hi.
  - intros q. rewrite E1, (i_live _ ext s Hi q). split; intros [y Hy].
    + destruct (Hf q y Hy) as (z & Hz & _). by exists z.
    + destruct (stats s.2.1 !! q) as [z|] eqn:Hq; [done|]. rewrite Hd in Hy; done.
Qed.
Lemma incrementCounter_effect c n a (s s' : state) :
  inv ext s -> incrementCounter control_block c n a s = (Ret tt, s') -> inv ext s' /\ counts_more n a s s'.
Proof.
  intros Hi (p & s2 & E1 & E2)%se_bind_inv. apply se_bind_inv in E1 as (r & s1 & E0 & E1).
  destruct (tryInsert_effect control_block low_addresses ext c Counters n _ s s1 r (maker_shared control_block n _ (makes_counter c n)) Hi E0) as (Hi1 & C1 & Hr).
  apply raw_stat_inv in E1 as [-> Hp]. destruct Hr as [->|Hr]; [destruct sp_make_raw; congruence|].
  destruct (entry_raw control_block s1 n r (entry_at_ok control_block ext c Counters n r s1 Hi1 Hr)) as (p' & x & Hp' & _ & _ & Hx & Hl & <-).
  assert (p' = p) as -> by congruence. destruct (increment_entry p x a s1 s' Hi1 Hx Hl E2) as [Hi2 Ht]. split; [done|]. by apply (counts_more_after _ _ s s1).
Qed.

(** Entries leave a map with their owners. *)
Fixpoint plus_each (l : list sp) (e : nat -> Z) (p : nat) : Z :=
  match l with [] => e p | r :: l' => plus_each l' e p + points p r end.
Lemma plus_each_nonneg l e p : 0 <= e p -> 0 <= plus_each l e p.
Proof. intros He. induction l as [|r l IH]; [done|]. cbn. pose proof (points_nonneg p r). lia. Qed.
Lemma plus_each_sum (m : gmap string sp) e p : plus_each (map_to_list m).*2 e p = map_sum (points p) m + e p.
Proof.
  induction m as [|n r m Hn IH] using map_ind; [by rewrite map_to_list_empty, map_sum_empty|].
  rewrite map_sum_insert by done.
  assert (Hp : forall l1 l2 : list sp, l1 ≡ₚ l2 -> plus_each l1 e p = plus_each l2 e p) by (induction 1; cbn; lia).
  rewrite (Hp _ (r :: (map_to_list m).*2)) by (change (r :: (map_to_list m).*2) with ((n, r) :: map_to_list m).*2; apply fmap_Permutation; by apply map_to_list_insert).
  cbn. lia.
Qed.
Lemma plus_each_least l e p : 0 <= e p -> e p <= plus_each l e p.
Proof. intros He. induction l as [|r l IH]; [done|]. cbn. pose proof (points_nonneg p r). lia. Qed.
Lemma release_each_effect l (s s' : state) :
  (forall q, 0 <= ext q) -> inv (plus_each l ext) s -> Forall (fun r => exists p, sp_holds (handle control_block p) r) l ->
  release_each (fun c => c) time_source l s = (Ret tt, s') -> inv ext s' /\ counts_same ext s s' /\ state_ s'.1 = state_ s.1.
Proof.
  intros Hx Hi Hl. revert s Hi. induction Hl as [|r l (p & Hr) Hl IH]; intros s Hi; [intros [= <-]; split; [done|]; split; [by apply counts_same_stats|done]|]. cbn [release_each].
  intros ([] & s1 & E1 & E2)%se_bind_inv. destruct (sp_holds_ptr _ _ Hr) as (Hraw & _ & Hdrop). rewrite Hdrop in E1.
  destruct (release_effect time_source control_block (plus_each l ext) (handle control_block p) s s1) as (Hi1 & C1 & S1).
  - apply (inv_weaken control_block (plus_each (r :: l) ext)); [done|]. intros q. cbn [plus_each]. unfold TLStatsMapCorrect.plus, points. rewrite Hraw.
    pose proof (plus_each_nonneg l ext q (Hx q)). repeat case_bool_decide; lia.
  - intros q. by apply plus_each_nonneg.
  - exact E1.
  - destruct (IH s1 Hi1 E2) as (Hi2 & C2 & S2). split; [done|]. split; [|congruence]. apply (counts_same_trans ext s s1); [|done].
    apply (counts_same_weaken (plus_each l ext)); [done|]. intros q. by apply plus_each_least.
Qed.
Lemma entry_ok_holds (s : state) n r : entry_ok control_block s n r -> exists p, sp_holds (handle control_block p) r.
Proof. intros (p & x & Hh & _). by exists p. Qed.
Lemma good_clear_map c k : good_op (clear_map (fun c => c) time_source c k).
Proof.
  intros s [] s' Hi (m & s1 & Eg & E1)%se_bind_inv. unfold get_state in Eg. destruct (state_ s.1 !! c) as [m'|] eqn:Hc; [|done].
  injection Eg as -> <-. apply se_bind_inv in E1 as ([] & s2 & Ep & E2). injection Ep as <-.
  apply release_each_effect in E2 as (Hi' & C & _); [done|apply (i_ext _ ext s Hi)| |].
  - apply (put_map_inv control_block ext); [done|done|by intros n r| |].
    + intros p. rewrite plus_each_sum, map_sum_empty. lia.
    + intros p. apply plus_each_nonneg, (i_ext _ ext s Hi).
  - apply Forall_forall. intros r (nr & -> & Hn)%list_elem_of_fmap. destruct nr as [n r]. apply elem_of_map_to_list in Hn.
    apply (entry_ok_holds s n). by apply (i_entry _ ext s Hi c m k).
Qed.
Lemma good_erase c k n : good_op (erase (fun c => c) time_source c k n).
Proof.
  intros s [] s' Hi (found & s1 & E1 & E2)%se_bind_inv. apply se_bind_inv in E1 as (m & s0 & Eg & [= <- <-]).
  unfold get_state in Eg. destruct (state_ s.1 !! c) as [m'|] eqn:Hc; [|done]. injection Eg as -> <-.
  destruct (get_map k m !! n) as [r|] eqn:Hn; [|injection E2 as <-; split; [done|by apply counts_same_stats]].
  apply se_bind_inv in E2 as ([] & s1 & Eu & E2). apply update_map_inv in Eu as (m' & Hc' & ->). assert (m' = m) as -> by congruence.
  destruct (entry_ok_holds s n r (i_entry _ ext s Hi c m k n r Hc Hn)) as (p & Hh).
  destruct (sp_holds_ptr _ _ Hh) as (Hraw & _ & Hdrop). rewrite Hdrop in E2.
  apply (release_effect time_source control_block ext) in E2 as (Hi' & C & _); [done| |apply (i_ext _ ext s Hi)].
  apply (put_map_inv control_block ext); [done|done| | |intros q; apply plus_nonneg, (i_ext _ ext s Hi)].
  - intros n' r' [_ Hr']%lookup_delete_Some. by apply (i_entry _ ext s Hi c m k).
  - intros q. rewrite (map_sum_delete (points q) _ _ _ Hn). unfold TLStatsMapCorrect.plus, points at 2. rewrite Hraw. lia.
Qed.
Lemma good_resetAllData c : good_op (resetAllData (fun c => c) time_source c).
Proof. do 2 (apply good_bind; [apply good_clear_map|intros []]). apply good_clear_map. Qed.
Lemma clear_map_state c k (s s' : state) m : inv ext s -> state_ s.1 !! c = Some m -> clear_map (fun c => c) time_source c k s = (Ret tt, s') ->
  state_ s'.1 = <[c := set_map k ∅ m]> (state_ s.1).
Proof.
  intros Hi Hc (m' & s1 & Eg & E1)%se_bind_inv. unfold get_state in Eg. rewrite Hc in Eg. injection Eg as <- <-.
  apply se_bind_inv in E1 as ([] & s2 & Ep & E2). injection Ep as <-.
  apply release_each_effect in E2 as (_ & _ & ->); [done|apply (i_ext _ ext s Hi)| |].
  - apply (put_map_inv control_block ext); [done|done|by intros n r| |].
    + intros p. rewrite plus_each_sum, map_sum_empty. lia.
    + intros p. apply plus_each_nonneg, (i_ext _ ext s Hi).
  - apply Forall_forall. intros r (nr & -> & Hn)%list_elem_of_fmap. destruct nr as [n r]. apply elem_of_map_to_list in Hn.
    apply (entry_ok_holds s n). by apply (i_entry _ ext s Hi c m k).
Qed.
Lemma resetAllData_state c (s s' : state) : inv ext s -> resetAllData (fun c => c) time_source c s = (Ret tt, s') ->
  state_ s'.1 !! c = Some no_names /\ forall d, d <> c -> state_ s'.1 !! d = state_ s.1 !! d.
Proof.
  intros Hi Er. assert (Hc : is_Some (state_ s.1 !! c)).
  { apply se_bind_inv in Er as ([] & s1 & (m & s0 & Eg & _)%se_bind_inv & _). unfold get_state in Eg. by destruct (state_ s.1 !! c). }
  destruct Hc as [m Hc]. apply se_bind_inv in Er as ([] & s1 & E1 & Er). apply se_bind_inv in Er as ([] & s2 & E2 & E3).
  pose proof (good_clear_map c Counters s tt s1 Hi E1) as [Hi1 _]. pose proof (good_clear_map c Histograms s1 tt s2 Hi1 E2) as [Hi2 _].
  pose proof (clear_map_state c _ s s1 m Hi Hc E1) as S1.
  pose proof (clear_map_state c _ s1 s2 _ Hi1 ltac:(by rewrite S1, lookup_insert_eq) E2) as S2.
  pose proof (clear_map_state c _ s2 s' _ Hi2 ltac:(by rewrite S2, lookup_insert_eq) E3) as S3.
  rewrite S3, S2, S1. split; [by rewrite lookup_insert_eq|]. intros d Hne. by rewrite !lookup_insert_ne.
Qed.
Lemma good_drop_state c : forall s : state, inv ext s -> state_ s.1 !! c = Some no_names ->
  inv ext (with_state (delete c (state_ s.1)) s.1, s.2).
Proof.
  intros s Hi Hc. split; try apply Hi.
  - intros c' m k n r. cbn. rewrite lookup_delete_Some. intros [_ Hm]. by apply (i_entry _ ext s Hi c' m k).
  - intros p. pose proof (i_owned _ ext s Hi p) as Ho. unfold held, owner_count in *. cbn. rewrite (map_sum_delete (entries p) _ _ _ Hc).
    pose proof (entries_nonneg p no_names). lia.
Qed.
Lemma good_destroy c : good_op (TLStatsMap.destroy (fun c => c) time_source c).
Proof.
  intros s [] s' Hi ([] & s1 & E1 & E2)%se_bind_inv. pose proof (good_resetAllData c s tt s1 Hi E1) as [Hi1 C1].
  destruct (resetAllData_state c s s1 Hi E1) as [Hc _]. apply se_bind_inv in E2 as ([] & s2 & Em & E3). injection Em as <-.
  destruct (good_quiet _ (quiet_destroy_container c) _ tt s' (good_drop_state c s1 Hi1 Hc) E3) as [Hi2 C2].
  split; [done|]. by apply (counts_same_trans ext s s1).
Qed.
Lemma made_at b (s s' : state) c : make b s = (Ret c, s') -> c = fresh (dom (containers s.2.1)).
Proof.
  intros (c' & s1 & E1 & (u & s2 & _ & [= <- _])%se_bind_inv)%se_bind_inv. apply on_local_inv in E1 as [[= E1 _] _]. by symmetry.
Qed.
Lemma good_make b (s s' : state) c : inv ext s -> state_ s.1 !! c = None -> make b s = (Ret c, s') ->
  inv ext s' /\ counts_same ext s s'.
Proof.
  intros Hi Hn (c' & s1 & E1 & E2)%se_bind_inv. apply on_local_inv in E1 as [En E1]. apply se_bind_inv in E2 as ([] & s2 & Ep & [= <- <-]).
  injection Ep as <-. pose proof (quiet_new_container b s.2 c' s1.2 (i_local _ ext s Hi) En) as (C & F & D).
  destruct (inv_local control_block ext s s1 Hi E1 C F D) as [Hi1 C1]. split; [|done].
  split; try apply Hi1.
  - intros c m k n r. cbn. rewrite lookup_insert_Some. intros [[_ <-]|[_ Hm]]; [by destruct k|by apply (i_entry _ ext s1 Hi1 c m k)].
  - intros p. pose proof (i_owned _ ext s1 Hi1 p) as Ho. unfold held, owner_count in *. cbn. rewrite map_sum_insert by (by rewrite E1).
    unfold entries at 1. cbn. rewrite !map_sum_empty. lia.
Qed.


(** ** The operations on a map *)
Lemma good_addStatValue c n v : good_op (addStatValue hash gap_stats control_block c n v).
Proof. apply good_bind; [apply good_getTimeseriesLocked|intros p; apply good_quiet, quiet_addValue]. Qed.
Lemma good_addStatValueAggregated c n v m : good_op (addStatValueAggregated hash gap_stats control_block c n v m).
Proof. apply good_bind; [apply good_getTimeseriesLocked|intros p; apply good_quiet, quiet_addValueAggregated]. Qed.
Lemma good_addStatValue_typed c n v t : good_op (addStatValue_typed hash gap_stats control_block c n v t).
Proof.
  apply good_bind; [|intros p; apply good_quiet, quiet_addValue].
  apply good_bind; [apply good_timeseries|]. intros r. apply good_bind; [|intros []; apply good_raw].
  destruct (sp_type t r); [apply good_ret|]. apply good_bind; [apply good_service, keeps_addStatExportType|intros []; apply good_set_type].
Qed.
Lemma good_clearStat c n t : good_op (clearStat hash gap_stats c n t).
Proof. apply good_bind; [apply good_set_type|intros []; apply good_service, keeps_addStatExportType]. Qed.
Lemma good_addHistogramValue c n v : good_op (addHistogramValue control_block c n v).
Proof.
  apply good_bind; [|intros [p|]; [apply good_quiet, quiet_addValue|apply good_ret]].
  apply good_bind; [apply good_insert, maker_histogram|intros; apply good_ret].
Qed.

(** *** The pointers that are handed out *)
Definition gives (n : string) (m : SE state shared_ptr) : Prop := forall s v s', inv ext s -> m s = (Ret v, s') ->
  inv (TLStatsMapCorrect.plus v ext) s' /\ counts_same ext s s' /\
  (forall p, object v = Some p -> exists x, stats s'.2.1 !! p = Some x /\ isLinked x = true /\ name x = n).
Lemma gives_good n m : gives n m -> good_op m.
Proof.
  intros Hm s v s' Hi Em. destruct (Hm s v s' Hi Em) as (Hi' & C & _). split; [|done].
  apply (inv_weaken control_block (TLStatsMapCorrect.plus v ext)); [done|]. intros p. pose proof (i_ext _ ext s Hi p).
  unfold TLStatsMapCorrect.plus. case_bool_decide; lia.
Qed.
Lemma gives_entry c k n f : maker control_block n f -> gives n (let* entry := tryInsertLocked c k n f in acquire (sp_ptr entry)).
Proof.
  intros Hf s v s' Hi (r & s1 & E1 & E2)%se_bind_inv.
  destruct (tryInsert_effect control_block low_addresses ext c k n f s s1 r Hf Hi E1) as (Hi1 & C1 & Hr).
  assert (Hl : forall p, object (sp_ptr r) = Some p -> exists x, stats s1.2.1 !! p = Some x /\ isLinked x = true /\ name x = n).
  { destruct Hr as [->|Hr]; [destruct sp_make_raw as (_ & -> & _); by intros p|].
    destruct (entry_raw control_block s1 n r (entry_at_ok control_block ext c k n r s1 Hi1 Hr)) as (p & x & _ & -> & _ & Hx & Hl & Hn).
    intros q [= <-]. by exists x. }
  destruct (acquire_effect control_block ext (sp_ptr r) s1 s' v Hi1 E2) as (_ & C2 & -> & Hi2 & E3).
  split; [apply Hi2; intros p Hp; destruct (Hl p Hp) as (x & Hx & _); by exists x|]. split; [by apply (counts_same_trans ext s s1)|].
  intros p Hp. rewrite E3. by apply Hl.
Qed.
Lemma gives_getTimeseriesSafe c n : gives n (getTimeseriesSafe hash gap_stats control_block c n).
Proof. apply gives_entry, maker_shared, makes_timeseries. Qed.
Lemma gives_getTimeseriesSafe_levels c n nb nl ds : gives n (getTimeseriesSafe_levels hash gap_stats control_block c n nb nl ds).
Proof.
  apply gives_entry. intros e s1 w s2 Hi1 (l & s3 & El & Em)%se_bind_inv.
  unfold levels_of in El. destruct (Nat.leb nl (length ds)); [|done]. injection El as <- <-.
  by apply (maker_shared control_block n _ (makes_timeseries hash gap_stats c n (Some (ts_make nb (take nl ds)))) e s1 w s2 Hi1).
Qed.
Lemma gives_getHistogramSafe c n : gives n (getHistogramSafe control_block c n).
Proof. apply gives_entry, maker_histogram. Qed.
Lemma gives_getCounterSafe c n : gives n (getCounterSafe control_block c n).
Proof. apply gives_entry, maker_shared, makes_counter. Qed.
End Steps.
