(* ===== verification/TLStatsMapTheorems.v ===== *)
(** * TLStatsMapTheorems: counting by name

    Runs of operations on the maps of any number of threads, with shared pointers
    handed out, used and dropped. *)
From S2P Require Import Prelude CountedRuns RegexUtil FlatCounters CallbackValuesMap NamedCallbacks TLStatsLockTraits ExportType Timeseries TimeseriesExporter HistogramExporter HistogramNames ExportedStatMap ExportedHistogramMap QuantileStat QuantileStatMap ServiceOptions ServiceData TLStats TLStatsLedger TLStatsConserve TLStatsCounts StatPtr TLStatsMap TLStatsMapCorrect TLStatsMapSteps.
From Stdlib Require Import ZArith Lia Ascii String.
From stdpp Require Import base gmap sets list strings.
Import TLStats TLStatsMap.

Open Scope Z_scope.
Open Scope fb303_scope.

Section Runs.
Context {M : Type} `{RegexMatchCache M} {TS Hg HV : Type} `{FollyHistogram TS Hg HV} `{SimpleHistogram HV}.
Context {E U US Getter Setter W : Type} (hash : string -> Z) `{LockTraits} `{TypedPtr}.
Abbreviation service := (ServiceData.state M TS Hg E U US Getter Setter W).
Abbreviation dynamic_counters := (CallbackValuesMap.cvm (counter_callback U) M).
Abbreviation dynamic_strings := (CallbackValuesMap.cvm (string_callback US) M).
Context (gap_stats : ExportedStatMap.statmap TS * dynamic_counters -> ExportedStatMap.statmap TS * dynamic_counters).
Context (gap_hists : ExportedHistogramMap.histmap TS Hg * (dynamic_counters * dynamic_strings) ->
                     ExportedHistogramMap.histmap TS Hg * (dynamic_counters * dynamic_strings)).
Context (time_source : nat -> Z) (control_block : nat -> Z).
Hypothesis low_addresses : forall p, 0 <= control_block p < 2 ^ 59.
Abbreviation local := (tls (HV := HV) * service)%type.
Abbreviation state := (maps * local)%type.
Abbreviation inv := (TLStatsMapCorrect.inv control_block).

(** ** Operations *)
Inductive op :=
  | OMake (updateOnRead : bool) | ODestroyMap (c : nat) | OAggregateMap (c : nat)
  | OAddStatValue (c : nat) (n : string) (value : Z) | OAddStatValueAggregated (c : nat) (n : string) (sum numSamples : Z)
  | OAddStatValueTyped (c : nat) (n : string) (value : Z) (t : ExportType) | OClearStat (c : nat) (n : string) (t : ExportType)
  | OAddHistogramValue (c : nat) (n : string) (value : Z) | OIncrementCounter (c : nat) (n : string) (amount : Z)
  | OGetTimeseries (c : nat) (n : string)
  | OGetTimeseriesLevels (c : nat) (n : string) (numBuckets numLevels : nat) (levelDurations : list Z)
  | OGetHistogram (c : nat) (n : string) | OGetCounter (c : nat) (n : string)
  | OClearTimeseries (c : nat) (n : string) | OResetAllData (c : nat)
  | OUseValue (p : nat) (value : Z) | OUseAggregated (p : nat) (sum numSamples : Z) | OUseCounter (p : nat) (amount : Z)
  | ODropPtr (p : nat).
Definition exec (o : op) : SE state unit :=
  match o with
  | OMake b => let* _ := make b in se_ret tt
  | ODestroyMap c => TLStatsMap.destroy (fun c => c) time_source c
  | OAggregateMap c => let* _ := on_local (TLStats.aggregate (fun c => c) time_source c) in se_ret tt
  | OAddStatValue c n v => addStatValue hash gap_stats control_block c n v
  | OAddStatValueAggregated c n v k => addStatValueAggregated hash gap_stats control_block c n v k
  | OAddStatValueTyped c n v t => addStatValue_typed hash gap_stats control_block c n v t
  | OClearStat c n t => clearStat hash gap_stats c n t
  | OAddHistogramValue c n v => addHistogramValue control_block c n v
  | OIncrementCounter c n a => incrementCounter control_block c n a
  | OGetTimeseries c n => let* _ := getTimeseriesSafe hash gap_stats control_block c n in se_ret tt
  | OGetTimeseriesLevels c n nb nl ds => let* _ := getTimeseriesSafe_levels hash gap_stats control_block c n nb nl ds in se_ret tt
  | OGetHistogram c n => let* _ := getHistogramSafe control_block c n in se_ret tt
  | OGetCounter c n => let* _ := getCounterSafe control_block c n in se_ret tt
  | OClearTimeseries c n => clearTimeseriesSafe (fun c => c) time_source c n
  | OResetAllData c => resetAllData (fun c => c) time_source c
  | OUseValue p v => on_local (TLStats.addValue p v)
  | OUseAggregated p v k => on_local (TLStats.addValueAggregated p v k)
  | OUseCounter p a => on_local (TLStats.incrementValue p a)
  | ODropPtr p => release (fun c => c) time_source (handle control_block p)
  end.

(** A container is made with a new address; a pointer that is used or dropped was
    handed out and not yet dropped. *)
Definition handed_out (p : nat) (s : state) : bool := held p s + 1 <=? owner_count p s.
Definition good (o : op) (s : state) : bool :=
  match o with
  | OUseCounter p _ => handed_out p s && match stats s.2.1 !! p with Some x => isLinked x | None => false end
  | OUseValue p _ | OUseAggregated p _ _ | ODropPtr p => handed_out p s
  | OMake _ => bool_decide (state_ s.1 !! fresh (dom (containers s.2.1)) = None)
  | _ => true
  end.
Definition count (k : string) (o : op) (s : state) : Z :=
  match o with
  | OIncrementCounter _ n a => if bool_decide (n = k) then a else 0
  | OUseCounter p a => match stats s.2.1 !! p with Some x => if bool_decide (name x = k) then a else 0 | None => 0 end
  | _ => 0
  end.

Lemma map_exec_effect k o (s s' : state) :
  inv none s -> good o s = true -> exec o s = (Ret tt, s') ->
  inv none s' /\ wraps 64 (TLStatsConserve.total k s'.2) = wraps 64 (TLStatsConserve.total k s.2 + count k o s).
Proof.
  intros Hi Hgood He. assert (Hsame : count k o s = 0 -> inv none s' /\ counts_same none s s' -> inv none s' /\
    wraps 64 (TLStatsConserve.total k s'.2) = wraps 64 (TLStatsConserve.total k s.2 + count k o s)).
  { intros -> [Hi' [C _]]. split; [done|]. by rewrite C, Z.add_0_r. }
  assert (Hgives : forall n (m : SE state shared_ptr), gives control_block none n m -> good_op control_block none (let* _ := m in se_ret tt)).
  { intros n m Hm. apply good_bind; [by apply (gives_good control_block none n)|intros; apply good_ret]. }
  destruct o as [b|c|c|c n v|c n v m|c n v t|c n t|c n v|c n a|c n|c n nb nl ds|c n|c n|c n|c|p v|p v m|p a|p];
    cbn [exec good count] in He, Hgood, Hsame |- *.
  - apply Hsame; [done|]. apply se_bind_inv in He as (c & s1 & Em & [= <-]). apply (good_make control_block none b s s1 c Hi); [|done].
    apply bool_decide_eq_true in Hgood. by rewrite (made_at b s s1 c Em).
  - apply Hsame; [done|]. exact (good_destroy time_source control_block none c s tt s' Hi He).
  - apply Hsame; [done|]. revert He. apply good_bind; [apply good_quiet, quiet_aggregate|intros; apply good_ret|done].
  - apply Hsame; [done|]. exact (good_addStatValue hash gap_stats control_block low_addresses none c n v s tt s' Hi He).
  - apply Hsame; [done|]. exact (good_addStatValueAggregated hash gap_stats control_block low_addresses none c n v m s tt s' Hi He).
  - apply Hsame; [done|]. exact (good_addStatValue_typed hash gap_stats control_block low_addresses none c n v t s tt s' Hi He).
  - apply Hsame; [done|]. exact (good_clearStat hash gap_stats control_block none c n t s tt s' Hi He).
  - apply Hsame; [done|]. exact (good_addHistogramValue control_block low_addresses none c n v s tt s' Hi He).
  - destruct (incrementCounter_effect control_block low_addresses none c n a s s' Hi He) as [Hi' [Ht _]]. split; [done|apply Ht].
  - apply Hsame; [done|]. exact (Hgives _ _ (gives_getTimeseriesSafe hash gap_stats control_block low_addresses none c n) s tt s' Hi He).
  - apply Hsame; [done|]. exact (Hgives _ _ (gives_getTimeseriesSafe_levels hash gap_stats control_block low_addresses none c n nb nl ds) s tt s' Hi He).
  - apply Hsame; [done|]. exact (Hgives _ _ (gives_getHistogramSafe control_block low_addresses none c n) s tt s' Hi He).
  - apply Hsame; [done|]. exact (Hgives _ _ (gives_getCounterSafe control_block low_addresses none c n) s tt s' Hi He).
  - apply Hsame; [done|]. exact (good_erase time_source control_block none c Timeseries n s tt s' Hi He).
  - apply Hsame; [done|]. exact (good_resetAllData time_source control_block none c s tt s' Hi He).
  - apply Hsame; [done|]. exact (good_quiet control_block none _ (quiet_addValue p v) s tt s' Hi He).
  - apply Hsame; [done|]. exact (good_quiet control_block none _ (quiet_addValueAggregated p v m) s tt s' Hi He).
  - apply andb_prop in Hgood as [_ Hl]. destruct (stats s.2.1 !! p) as [x|] eqn:Hx; [|done].
    destruct (increment_entry control_block none p x a s s' Hi Hx Hl He) as [Hi' [Ht _]]. split; [done|apply Ht].
  - apply Hsame; [done|]. apply Z.leb_le in Hgood.
    destruct (release_effect time_source control_block none (handle control_block p) s s') as (Hi' & C & _); try done.
    apply (TLStatsMapCorrect.Build_inv _ _ _ (i_local _ none s Hi)); try apply Hi.
    + intros q. unfold TLStatsMapCorrect.plus, none. pose proof (i_owned _ none s Hi q) as Ho. unfold none in Ho. case_bool_decide as Eq; [|lia].
      injection Eq as ->. lia.
    + intros q. by apply plus_nonneg.
Qed.

Abbreviation runs k := (CountedRuns.runs exec good (count k)).
Lemma map_runs_effect k s l n s' : runs k s l n s' -> inv none s ->
  inv none s' /\ wraps 64 (TLStatsConserve.total k s'.2) = wraps 64 (TLStatsConserve.total k s.2 + n).
Proof.
  induction 1 as [s|s o s1 l n s' Hgood He Hr IH]; intros Hi; [split; [done|f_equal; lia]|].
  destruct (map_exec_effect k o s s1 Hi Hgood He) as [Hi1 Ht1]. destruct (IH Hi1) as [Hi' ->]. split; [done|].
  rewrite <- wraps_idemp_add, Ht1, wraps_idemp_add by lia. f_equal. lia.
Qed.
(** What is counted by name reaches [ServiceData], to 64 bits.  Start with no
    map and no stat; make, use, reset and destroy the maps of any threads, take
    shared pointers out of them, use and drop those, aggregate - in any order, every
    operation returning.  For each name, the flat counter and the thread-local
    counters of that name hold together what the counter held plus every amount
    asked for; once the last owner is gone all of it is in the flat counter; and an
    entry of a map always points to a registered, living stat of its own name. *)
Theorem named_counts_delivered (k : string) (s : state) (l : list op) (n : Z) (s' : state) :
  owners s.1 = ∅ -> state_ s.1 = ∅ -> stats s.2.1 = ∅ -> runs k s l n s' ->
  wraps 64 (flat_value k s'.2.2 + map_sum (part k) (stats s'.2.1)) = wraps 64 (flat_value k s.2.2 + n) /\
  (owners s'.1 = ∅ -> wraps 64 (flat_value k s'.2.2) = wraps 64 (flat_value k s.2.2 + n)) /\
  (forall c m kd name r, state_ s'.1 !! c = Some m -> get_map kd m !! name = Some r ->
     exists p x, sp_raw r = Some p /\ stats s'.2.1 !! p = Some x /\ TLStats.name x = name /\ isLinked x = true).
Proof.
  intros Ho Hs Hl Hr. destruct (map_runs_effect k s l n s' Hr (inv_start control_block s Ho Hs Hl)) as [Hi Ht]. unfold TLStatsConserve.total in Ht.
  rewrite Hl, map_sum_empty, Z.add_0_r in Ht. split; [done|]. split.
  - intros Ho'. assert (He : stats s'.2.1 = ∅).
    { apply map_eq. intros p. rewrite lookup_empty. destruct (stats s'.2.1 !! p) as [x|] eqn:Hp; [|done].
      destruct (proj2 (i_live _ none s' Hi p)) as [o Hp']; [by exists x|]. by rewrite Ho' in Hp'. }
    by rewrite He, map_sum_empty, Z.add_0_r in Ht.
  - intros c m kd nm r Hc Hn. destruct (entry_raw control_block s' nm r (i_entry _ none s' Hi c m kd nm r Hc Hn)) as (p & x & ? & _ & _ & ? & ? & ?).
    by exists p, x.
Qed.
End Runs.

(** ** Two threads *)
Section Example_.
Import EventSeries CoarseHistogram SampleEstimator PrefixCache.
#[local] Existing Instance TLStatsCounts.example_histogram.
#[local] Existing Instance TLStatsCounts.example_simple.
#[local] Existing Instance TLStatsCounts.example_locks.
#[local] Existing Instance StatPtr.compress.
(** One thread counts by name and through a pointer that outlives its map; the
    other resets its maps. *)
Definition example_blocks (p : nat) : Z := (64 * Z.of_nat p) mod 2 ^ 59.
Definition named_start : maps * (tls (HV := TLStatsCounts.simple) * _) := (Maps ∅ ∅, TLStatsCounts.example_start).
Definition named_ops : list op :=
  [OMake true; OMake true; OIncrementCounter 0 "hits" 5; OGetCounter 0 "hits"; OUseCounter 0 3; OIncrementCounter 1 "hits" 4;
   OAddStatValueTyped 1 "load" 30 SUM; OAddHistogramValue 0 "missing" 7; OAggregateMap 0; OIncrementCounter 0 "hits" (-1);
   OResetAllData 1; OIncrementCounter 1 "hits" 6; ODestroyMap 0; OUseCounter 0 10; ODropPtr 0; ODestroyMap 1].
Lemma named_counts_delivered_witness :
  match run_counted (exec TLStatsCounts.name_hash id (fun n => Z.of_nat n) example_blocks) good (count "hits") named_ops named_start with
  | Some (n, s') => n = 27 /\ owners s'.1 = ∅ /\ wraps 64 (flat_value "hits" s'.2.2) = wraps 64 (7 + n)
  | None => False
  end.
Proof.
  assert (Hb : forall p, 0 <= example_blocks p < 2 ^ 59) by (intros p; apply Z.mod_pos_bound; reflexivity).
  assert (Hv : match run_counted (exec TLStatsCounts.name_hash id (fun n => Z.of_nat n) example_blocks) good (count "hits") named_ops named_start with
    | Some (n, s') => Some (n, size (owners s'.1)) | None => None end = Some (27, 0%nat)) by (vm_compute; reflexivity).
  destruct (run_counted (exec TLStatsCounts.name_hash id (fun n => Z.of_nat n) example_blocks) good (count "hits") named_ops named_start) as [[n s']|] eqn:Er;
    [|discriminate Hv].
  pose proof (named_counts_delivered TLStatsCounts.name_hash id (fun n => Z.of_nat n) example_blocks Hb "hits" named_start named_ops n s'
    eq_refl eq_refl eq_refl (run_counted_runs _ _ _ _ _ _ _ Er)) as (_ & Ht & _).
  injection Hv as Hn Ho. apply map_size_empty_iff in Ho. split; [exact Hn|]. split; [exact Ho|]. exact (Ht Ho).
Defined.
End Example_.
