(* ===== verification/FormattedKey.v ===== *)
(** * FormattedKey: keys with subkeys

    [SubkeyUtilsBase], [SubkeyUtils] and [FormattedKeyHolder] of
    [src/fb303/ThreadCachedServiceData.h].  A global map from arrays of subkeys to
    formatted keys, filled under an upgradable lock; per thread a map to entries
    of the global map with a value of the thread, and the last entry found.

    The global map is node-based and never erased from, so a pointer to one of its
    keys or strings is named by the array.  [world] is the rest of the program:
    [prepareKey_] and [CacheFun] are code of the holder's user.  A step is a part
    of [getFormattedEntry] between two actions on the global map's lock.  At the end,
    how many subkeys a format takes: [count_placeholders], which the
    [DEFINE_dynamic_*] macros run at compile time. *)
From S2P Require Import Prelude.
From Stdlib Require Import ZArith Lia Ascii String.
From stdpp Require Import base gmap list strings pretty.

Open Scope Z_scope.
Open Scope fb303_scope.

(** ** [SubkeyUtilsBase::Subkey], [SubkeyArray], and the tuples it is found by *)
Inductive subkey := Int64 (v : Z) | Str (v : string).
#[export] Instance subkey_eq_dec : EqDecision subkey.
Proof. solve_decision. Defined.
#[export] Program Instance subkey_countable : Countable subkey :=
  inj_countable' (fun k => match k with Int64 v => inl v | Str v => inr v end)
    (fun x => match x with inl v => Int64 v | inr v => Str v end) _.
Next Obligation. by intros []. Qed.
Abbreviation subkey_array := (list subkey).
(** [decaySubkeys]: an integer or a view of a string. *)
Inductive view := VInt (v : Z) | VStr (v : string).

Module SubkeyUtils.
Section Model.
(** [folly::hasher<int64_t>] and [folly::hash::rapidhashNano]. *)
Context (int64_hasher : Z -> Z) (string_view_hasher : string -> Z).
Definition hash_subkey (k : subkey) : Z := match k with Int64 v => int64_hasher v | Str v => string_view_hasher v end.
Definition hash_view (k : view) : Z := match k with VInt v => int64_hasher v | VStr v => string_view_hasher v end.
Definition hash_array (a : subkey_array) : Z := foldl (fun h k => Z.lxor h (hash_subkey k)) 0 a.
Definition hash_tuple (t : list view) : Z := foldl (fun h k => Z.lxor h (hash_view k)) 0 t.
End Model.

(** [SubkeyArrayEqualTo::eq] *)
Definition eq_one (a : view) (b : subkey) : bool :=
  match a, b with
  | VInt a, Int64 p => Z.eqb a p
  | VStr a, Str p => bool_decide (a = p)
  | _, _ => false
  end.
Fixpoint eq (a : list view) (b : subkey_array) : bool :=
  match a, b with
  | [], [] => true
  | x :: a', y :: b' => eq_one x y && eq a' b'
  | _, _ => false
  end.
Definition makeSubkey (k : view) : subkey := match k with VInt v => Int64 v | VStr v => Str v end.
Definition makeSubkeyArray (t : list view) : subkey_array := makeSubkey <$> t.
Definition subkeyString (k : subkey) : string := match k with Int64 v => pretty v | Str v => v end.
(** [fmt::format(fmt::runtime(keyFormat), subkeyStrings...)] *)
Definition formatKey (fmt_format : string -> list string -> outcome string) (keyFormat : string) (a : subkey_array) : outcome string :=
  fmt_format keyFormat (subkeyString <$> a).
End SubkeyUtils.

Lemma make_one_eq k b : SubkeyUtils.eq_one k b = bool_decide (SubkeyUtils.makeSubkey k = b).
Proof.
  destruct k as [v|v], b as [w|w]; cbn; try (symmetry; by apply bool_decide_eq_false_2).
  - destruct (Z.eqb_spec v w) as [->|Hne]; symmetry; [by apply bool_decide_eq_true_2|apply bool_decide_eq_false_2; congruence].
  - apply bool_decide_ext. split; congruence.
Qed.
(** Searching by the tuple is searching by the array made of it. *)
Lemma tuple_eq t b : SubkeyUtils.eq t b = bool_decide (SubkeyUtils.makeSubkeyArray t = b).
Proof.
  revert b. induction t as [|k t IH]; intros [|y b]; try done. cbn [SubkeyUtils.eq].
  rewrite make_one_eq, IH. change (SubkeyUtils.makeSubkeyArray (k :: t)) with (SubkeyUtils.makeSubkey k :: SubkeyUtils.makeSubkeyArray t).
  repeat case_bool_decide; cbn; try done; congruence.
Qed.
Lemma tuple_hash hi hs t : SubkeyUtils.hash_tuple hi hs t = SubkeyUtils.hash_array hi hs (SubkeyUtils.makeSubkeyArray t).
Proof.
  unfold SubkeyUtils.hash_tuple, SubkeyUtils.hash_array. generalize 0. induction t as [|k t IH]; intros h; [done|]. cbn. rewrite <- IH. by destruct k.
Qed.

Module FormattedKeyHolder.
Section Model.
Context (int64_hasher : Z -> Z) (string_view_hasher : string -> Z).
Context (fmt_format : string -> list string -> outcome string) (keyFormat_ : string).
Context {world value : Type}.
Context (prepareKey_ : string -> SE world unit).
(** The value a thread caches with a key, and what happens when it is let go. *)
Context (CacheFun : nat -> string -> SE world value) (release : value -> SE world unit).
Abbreviation hash_tuple := (SubkeyUtils.hash_tuple int64_hasher string_view_hasher).

(** ** State: [ValueType], [LocalEntry], [LocalMapItemRef], [LocalMapAndLast] *)
Record local_entry := LocalEntry { key : subkey_array; cached : value }.
Record item_ref := ItemRef { i_hash : Z; i_key : subkey_array; i_entry : local_entry }.
Record local_map := LocalMapAndLast { last : option item_ref; map : gmap subkey_array local_entry }.
Record holder := Holder { globalMap_ : gmap subkey_array string; localMap_ : gmap nat local_map }.
Abbreviation state := (holder * world)%type.
Definition empty_holder : holder := Holder ∅ ∅.
Definition no_local : local_map := LocalMapAndLast None ∅.
Definition local (t : nat) (h : holder) : local_map := default no_local (localMap_ h !! t).
Definition with_local (t : nat) (l : local_map) (h : holder) : holder := Holder (globalMap_ h) (<[t := l]> (localMap_ h)).
Definition with_global (g : gmap subkey_array string) (h : holder) : holder := Holder g (localMap_ h).
Definition modify (f : holder -> holder) : SE state unit := fun s => (Ret tt, (f s.1, s.2)).
Definition on_world {A} (f : SE world A) : SE state A := fun s => let '(r, w) := f s.2 in (r, (s.1, w)).
(** A key through its pointer. *)
Definition deref (a : subkey_array) : SE state string := fun s =>
  match globalMap_ s.1 !! a with Some k => (Ret k, s) | None => (Throw undefined_behaviour, s) end.

(** ** The parts of [getFormattedEntry] *)
Definition last_matches (l : local_map) (t : list view) : option local_entry :=
  match last l with
  | Some i => if Z.eqb (hash_tuple t) (i_hash i) && SubkeyUtils.eq t (i_key i) then Some (i_entry i) else None
  | None => None
  end.
Definition set_last (t : nat) (keytup : list view) (a : subkey_array) (e : local_entry) : SE state unit :=
  modify (fun h => with_local t (LocalMapAndLast (Some (ItemRef (hash_tuple keytup) a e)) (map (local t h))) h).
(** In the thread: the last entry, then its map. *)
Definition find_local (t : nat) (keytup : list view) : SE state (option local_entry) :=
  let* s := se_get in
  let l := local t s.1 in
  match last_matches l keytup with
  | Some e => se_ret (Some e)
  | None =>
      match map l !! SubkeyUtils.makeSubkeyArray keytup with
      | Some e => set_last t keytup (key e) e >>> se_ret (Some e)
      | None => se_ret None
      end
  end.
Definition find_global (a : subkey_array) : SE state bool :=
  let* s := se_get in se_ret (bool_decide (is_Some (globalMap_ s.1 !! a))).
(** Under the upgrade lock, others may still read. *)
Definition format_and_prepare (a : subkey_array) : SE state string := fun s =>
  match SubkeyUtils.formatKey fmt_format keyFormat_ a with
  | Throw e => (Throw e, s)
  | Ret formattedKey => (on_world (prepareKey_ formattedKey) >>> se_ret formattedKey) s
  end.
Definition insert_global (a : subkey_array) (formattedKey : string) : SE state unit :=
  modify (fun h => with_global (match globalMap_ h !! a with Some _ => globalMap_ h | None => <[a := formattedKey]> (globalMap_ h) end) h).
(** Back in the thread; [emplace] keeps an entry that is there. *)
Definition remember (t : nat) (keytup : list view) : SE state local_entry :=
  let a := SubkeyUtils.makeSubkeyArray keytup in
  let* v := deref a in
  let* c := on_world (CacheFun t v) in
  let* s := se_get in
  match map (local t s.1) !! a with
  | Some e => on_world (release c) >>> set_last t keytup (key e) e >>> se_ret e
  | None =>
      let e := LocalEntry a c in
      modify (fun h => with_local t (LocalMapAndLast (last (local t h)) (<[a := e]> (map (local t h)))) h) >>>
      set_last t keytup a e >>>
      se_ret e
  end.

(** ** One thread at a time *)
Definition getFormattedKeyGlobal (a : subkey_array) : SE state unit :=
  let* found := find_global a in
  if found then se_ret tt
  else
    let* found := find_global a in
    if found then se_ret tt
    else let* formattedKey := format_and_prepare a in insert_global a formattedKey.
Definition getFormattedKeySlow (t : nat) (keytup : list view) : SE state local_entry :=
  getFormattedKeyGlobal (SubkeyUtils.makeSubkeyArray keytup) >>> remember t keytup.
Definition getFormattedEntry (t : nat) (keytup : list view) : SE state local_entry :=
  let* found := find_local t keytup in
  match found with Some e => se_ret e | None => getFormattedKeySlow t keytup end.
Definition getFormattedKeyWithExtra (t : nat) (keytup : list view) : SE state (string * value) :=
  let* e := getFormattedEntry t keytup in let* k := deref (key e) in se_ret (k, cached e).
Definition getFormattedKey (t : nat) (keytup : list view) : SE state string :=
  let* e := getFormattedEntry t keytup in deref (key e).
Definition eraseFormattedKey (t : nat) (keytup : list view) : SE state unit :=
  let a := SubkeyUtils.makeSubkeyArray keytup in
  let* s := se_get in
  let l := local t s.1 in
  modify (with_local t (LocalMapAndLast None (delete a (map l)))) >>>
  match map l !! a with Some e => on_world (release (cached e)) | None => se_ret tt end.
Definition getMap : SE state (gmap subkey_array string) := let* s := se_get in se_ret (globalMap_ s.1).
(** A thread ends: its [localMap_] goes. *)
Fixpoint release_each (l : list local_entry) : SE state unit :=
  match l with [] => se_ret tt | e :: l' => on_world (release (cached e)) >>> release_each l' end.
Definition end_thread (t : nat) : SE state unit :=
  let* s := se_get in
  modify (fun h => Holder (globalMap_ h) (delete t (localMap_ h))) >>> release_each (map_to_list (map (local t s.1))).*2.

(** ** Threads *)
Inductive pc :=
  | Read (t : list view)                          (** to take the read lock *)
  | Upgrade (t : list view)                       (** to take the upgrade lock *)
  | Write (t : list view) (formattedKey : string) (** holding it, to write *)
  | Emplace (t : list view).                      (** to fill the local map *)
Record config := Config {
  st : state;
  lock : option nat;                              (** who holds the upgrade lock *)
  pcs : gmap nat pc;
  prepared : list (subkey_array * string);        (** calls of [prepareKey_] that returned, latest first *)
  results : list (nat * list view * local_entry)
}.
Definition start (w : world) : config := Config (empty_holder, w) None ∅ [] [].
Definition set_pc (t : nat) (p : option pc) (s : state) (c : config) : config :=
  Config s (lock c) (partial_alter (fun _ => p) t (pcs c)) (prepared c) (results c).
Definition return_to (t : nat) (k : list view) (e : local_entry) (s : state) (c : config) : config :=
  Config s (lock c) (delete t (pcs c)) (prepared c) ((t, k, e) :: results c).

(** An idle thread calls or erases; a thread inside goes on; a thread ends idle.
    A call that throws leaves the thread idle and the lock free. *)
Inductive event := Call (t : nat) (k : list view) | Go (t : nat) | Erase (t : nat) (k : list view) | End (t : nat).
Definition settle (t : nat) {A} (r : outcome A * state) (k : A -> state -> config) (c : config) : config :=
  match r with (Ret a, s) => k a s | (Throw _, s) => set_pc t None s c end.
Definition go (t : nat) (p : pc) (c : config) : config :=
  match p with
  | Read k =>
      settle t (find_global (SubkeyUtils.makeSubkeyArray k) (st c))
        (fun found s => set_pc t (Some (if found then Emplace k else Upgrade k)) s c) c
  | Upgrade k =>
      match lock c with
      | Some _ => c
      | None =>
          let a := SubkeyUtils.makeSubkeyArray k in
          settle t (find_global a (st c)) (fun found s =>
            if found then set_pc t (Some (Emplace k)) s c
            else settle t (format_and_prepare a s) (fun formattedKey s' =>
                   Config s' (Some t) (<[t := Write k formattedKey]> (pcs c)) ((a, formattedKey) :: prepared c) (results c)) c) c
      end
  | Write k formattedKey =>
      settle t (insert_global (SubkeyUtils.makeSubkeyArray k) formattedKey (st c))
        (fun _ s => Config s None (<[t := Emplace k]> (pcs c)) (prepared c) (results c)) c
  | Emplace k => settle t (remember t k (st c)) (fun e s => return_to t k e s c) c
  end.
Definition step (c : config) (e : event) : config :=
  match e with
  | Call t k =>
      match pcs c !! t with
      | Some _ => c
      | None =>
          settle t (find_local t k (st c)) (fun found s =>
            match found with Some e => return_to t k e s c | None => set_pc t (Some (Read k)) s c end) c
      end
  | Erase t k =>
      match pcs c !! t with Some _ => c | None => settle t (eraseFormattedKey t k (st c)) (fun _ s => set_pc t None s c) c end
  | End t =>
      match pcs c !! t with Some _ => c | None => settle t (end_thread t (st c)) (fun _ s => set_pc t None s c) c end
  | Go t => match pcs c !! t with Some p => go t p c | None => c end
  end.
Definition run (c : config) (l : list event) : config := foldl step c l.
End Model.
End FormattedKeyHolder.

(** ** Key formats; an assertion that fails is an error of the compiler. *)
Module KeyFormat.
Definition open_brace : ascii := "{"%char.
Definition close_brace : ascii := "}"%char.

(** The loop looks at every character, the closing braces included. *)
Fixpoint count_placeholders (keyformat : string) : outcome nat :=
  match keyformat with
  | EmptyString => Ret 0%nat
  | String c rest =>
      if Ascii.eqb c open_brace then
        match rest with
        | String d _ =>
            if Ascii.eqb d close_brace then
              match count_placeholders rest with Ret n => Ret (S n) | Throw e => Throw e end
            else Throw check_failed
        | EmptyString => Throw check_failed
        end
      else count_placeholders rest
  end.
(** The [static_assert] of [DEFINE_dynamic_timeseries] and its two siblings, and
    the number of subkeys the wrapper is instantiated with. *)
Definition dynamic_arity (keyformat : string) : outcome nat :=
  match count_placeholders keyformat with
  | Ret n => if Nat.ltb 0 n then Ret n else Throw check_failed
  | Throw e => Throw e
  end.

(** ** Against the shape of a format: literal pieces with a placeholder between
    any two. *)
Fixpoint plain (s : string) : Prop :=
  match s with EmptyString => True | String c rest => c <> open_brace /\ plain rest end.
Fixpoint with_placeholders (piece : string) (pieces : list string) : string :=
  match pieces with
  | [] => piece
  | piece' :: pieces' => piece +:+ "{}" +:+ with_placeholders piece' pieces'
  end.

Lemma plain_then p s : plain p -> count_placeholders (p +:+ s) = count_placeholders s.
Proof.
  induction p as [|c p IH]; [done|]. intros [Hc Hp]. change (String c p +:+ s) with (String c (p +:+ s)). cbn [count_placeholders].
  destruct (Ascii.eqb_spec c open_brace); [done|]. by apply IH.
Qed.
Lemma plain_none p : plain p -> count_placeholders p = Ret 0%nat.
Proof.
  induction p as [|c p IH]; [done|]. intros [Hc Hp]. cbn [count_placeholders].
  destruct (Ascii.eqb_spec c open_brace); [done|]. by apply IH.
Qed.
Lemma pieces_counted piece pieces : plain piece -> Forall plain pieces ->
  count_placeholders (with_placeholders piece pieces) = Ret (length pieces).
Proof.
  intros Hp Hps. revert piece Hp. induction Hps as [|q qs Hq _ IH]; intros piece Hp; cbn.
  - by apply plain_none.
  - rewrite plain_then by done. change ("{}" +:+ ?s) with (String open_brace (String close_brace s)). cbn [count_placeholders Ascii.eqb].
    by rewrite IH.
Qed.
Lemma counted_pieces s : (forall n, count_placeholders s = Ret n -> exists piece pieces,
  plain piece /\ Forall plain pieces /\ length pieces = n /\ s = with_placeholders piece pieces).
Proof.
  induction s as [|c s IH]; intros n; cbn [count_placeholders].
  { intros [= <-]. exists "", []. by repeat split. }
  destruct (Ascii.eqb_spec c open_brace) as [->|Hc].
  - destruct s as [|d s]; [done|]. destruct (Ascii.eqb_spec d close_brace) as [->|]; [|done].
    destruct (count_placeholders (String close_brace s)) as [m|e] eqn:Em; [|done]. intros [= <-].
    destruct (IH m eq_refl) as (piece & pieces & Hp & Hps & Hl & Hs). destruct piece as [|d piece].
    + destruct pieces as [|q qs]; [done|]. cbn in Hs. by injection Hs.
    + assert (Ed : d = close_brace /\ s = with_placeholders piece pieces) 
        by (destruct pieces; injection Hs as E1 E2; (split; [by symmetry|exact E2])).
      destruct Ed as [-> Es]. exists "", (piece :: pieces). cbn. split; [done|]. split; [constructor; [apply Hp|done]|]. split; [by rewrite Hl|].
      by rewrite Es.
  - intros En. destruct (IH n En) as (piece & pieces & Hp & Hps & Hl & Hs). exists (String c piece), pieces.
    split; [by split|]. split; [done|]. split; [done|]. rewrite Hs. by destruct pieces.
Qed.
(** A format compiles with [n] subkeys exactly when it is [n + 1] literal pieces, free
    of opening braces, joined by placeholders, and has a placeholder. *)
Lemma dynamic_arity_spec keyformat n : dynamic_arity keyformat = Ret n <->
  (0 < n)%nat /\ exists piece pieces, plain piece /\ Forall plain pieces /\ length pieces = n /\ keyformat = with_placeholders piece pieces.
Proof.
  unfold dynamic_arity. split.
  - destruct (count_placeholders keyformat) as [m|e] eqn:Em; [|done]. destruct (Nat.ltb_spec 0 m); [|done]. intros [= <-].
    split; [done|]. by apply counted_pieces.
  - intros (Hn & piece & pieces & Hp & Hps & <- & ->). rewrite pieces_counted by done. by destruct (Nat.ltb_spec 0 (length pieces)); [|lia].
Qed.
Example two_subkeys : dynamic_arity "hits.{}.by.{}" = Ret 2%nat.
Proof. reflexivity. Qed.
Example escaped_brace_refused : dynamic_arity "hits.{{{}" = Throw check_failed.
Proof. reflexivity. Qed.
End KeyFormat.
