(* ===== verification/FormattedKeyCorrect.v ===== *)
(** * FormattedKeyCorrect: one formatted key per array, prepared once

    Any number of threads, any interleaving of what they do between the actions on
    the global map's lock. *)
From S2P Require Import Prelude FormattedKey.
From Stdlib Require Import ZArith Lia Ascii String.
From stdpp Require Import base gmap list strings pretty.
Import FormattedKeyHolder.

Open Scope Z_scope.
Open Scope fb303_scope.

Section Correct.
Context (int64_hasher : Z -> Z) (string_view_hasher : string -> Z).
Context (fmt_format : string -> list string -> outcome string) (keyFormat : string).
Context {world value : Type}.
Context (prepareKey : string -> SE world unit).
Context (CacheFun : nat -> string -> SE world value) (release : value -> SE world unit).
Abbreviation make := SubkeyUtils.makeSubkeyArray.
Abbreviation format a := (SubkeyUtils.formatKey fmt_format keyFormat a).
Abbreviation hash := (SubkeyUtils.hash_array int64_hasher string_view_hasher).
Abbreviation state := (holder (value := value) * world)%type.
Abbreviation config := (FormattedKeyHolder.config (world := world) (value := value)).
Abbreviation find_local := (FormattedKeyHolder.find_local (world := world) (value := value) int64_hasher string_view_hasher).
Abbreviation step := (FormattedKeyHolder.step int64_hasher string_view_hasher fmt_format keyFormat prepareKey CacheFun release).
Abbreviation run := (FormattedKeyHolder.run int64_hasher string_view_hasher fmt_format keyFormat prepareKey CacheFun release).
Abbreviation remember := (FormattedKeyHolder.remember int64_hasher string_view_hasher CacheFun release).

(** ** The maps of the threads *)
Definition local_ok (g : gmap subkey_array string) (l : local_map (value := value)) : Prop :=
  (forall a e, map l !! a = Some e -> key e = a /\ is_Some (g !! a)) /\
  (forall i, last l = Some i -> map l !! i_key i = Some (i_entry i) /\ i_hash i = hash (i_key i)).
Definition holder_ok (h : holder (value := value)) : Prop := forall t, local_ok (globalMap_ h) (local t h).

Lemma local_with t t' l (h : holder (value := value)) : local t (with_local t' l h) = if decide (t = t') then l else local t h.
Proof. unfold local. cbn. destruct (decide (t = t')) as [->|Hne]; [by rewrite lookup_insert_eq|by rewrite lookup_insert_ne]. Qed.
Lemma holder_with_local t l (h : holder (value := value)) : holder_ok h -> local_ok (globalMap_ h) l -> holder_ok (with_local t l h).
Proof. intros Hh Hl t'. rewrite local_with. cbn. case_decide; [done|apply Hh]. Qed.
(** The last entry is the map's entry, or there is none. *)
Lemma last_matches_spec g l k e : local_ok g l -> last_matches int64_hasher string_view_hasher l k = Some e -> map l !! make k = Some e.
Proof.
  intros [_ Hl]. unfold last_matches. destruct (last l) as [i|] eqn:Ei; [|done]. destruct (_ && _) eqn:Eb; [|done]. intros [= <-].
  apply andb_prop in Eb as [_ Eb]. rewrite tuple_eq in Eb. apply bool_decide_eq_true in Eb. rewrite Eb. by apply Hl.
Qed.
Lemma set_last_ok t k e (s s' : state) : holder_ok s.1 -> map (local t s.1) !! make k = Some e ->
  set_last int64_hasher string_view_hasher t k (make k) e s = (Ret tt, s') ->
  holder_ok s'.1 /\ globalMap_ s'.1 = globalMap_ s.1 /\ s'.2 = s.2.
Proof.
  intros Hh Hm [= <-]. split; [|done]. apply holder_with_local; [done|]. destruct (Hh t) as [Hk _]. split; [done|].
  cbn. intros i [= <-]. cbn. split; [done|]. apply tuple_hash.
Qed.
Lemma find_local_effect t k (s s' : state) r : holder_ok s.1 -> find_local t k s = (r, s') ->
  r = Ret (map (local t s.1) !! make k) /\ holder_ok s'.1 /\ globalMap_ s'.1 = globalMap_ s.1 /\ s'.2 = s.2.
Proof.
  intros Hh. unfold FormattedKeyHolder.find_local, se_bind at 1, se_get.
  destruct (last_matches _ _ _ k) as [e|] eqn:El.
  - intros [= <- <-]. split; [|done]. f_equal. symmetry. by apply (last_matches_spec (globalMap_ s.1)).
  - destruct (map (local t s.1) !! make k) as [e|] eqn:Hm; [|by intros [= <- <-]].
    destruct (proj1 (Hh t) _ _ Hm) as [Ek _]. rewrite Ek. intros Eb.
    destruct (set_last int64_hasher string_view_hasher t k (make k) e s) as [[[]|x] s1] eqn:Es; [|done].
    unfold se_bind in Eb. rewrite Es in Eb. injection Eb as <- <-. split; [done|]. by apply (set_last_ok t k e).
Qed.
Lemma global_grows g g' l : (forall a, is_Some (g !! a) -> is_Some (g' !! a)) -> local_ok g l -> local_ok g' l.
Proof. intros Hg [Hk Hl]. split; [|done]. intros a e Ha. destruct (Hk a e Ha). auto. Qed.
Lemma remember_effect t k (s s' : state) r : holder_ok s.1 -> remember t k s = (r, s') ->
  holder_ok s'.1 /\ globalMap_ s'.1 = globalMap_ s.1 /\
  forall e, r = Ret e -> key e = make k /\ is_Some (globalMap_ s.1 !! make k) /\ map (local t s'.1) !! make k = Some e.
Proof.
  intros Hh. unfold FormattedKeyHolder.remember, se_bind at 1, deref.
  destruct (globalMap_ s.1 !! make k) as [v|] eqn:Hg; [|by intros [= <- <-]]. unfold se_bind at 1, on_world.
  destruct (CacheFun t v s.2) as [[c|x] w]; [|by intros [= <- <-]].
  unfold se_bind at 1, se_get. cbn [fst snd]. destruct (map (local t s.1) !! make k) as [e|] eqn:Hm.
  - unfold se_bind. cbn [fst snd]. destruct (release c w) as [[[]|x] w']; [|by intros [= <- <-]].
    destruct (proj1 (Hh t) _ _ Hm) as [Ek _]. rewrite Ek.
    destruct (set_last int64_hasher string_view_hasher t k (make k) e (s.1, w')) as [[[]|x] s1] eqn:Es; [|done].
    intros [= <- <-]. destruct (set_last_ok t k e (s.1, w') s1 Hh Hm Es) as (Hh1 & Eg & _). split; [done|]. split; [done|].
    intros e' [= <-]. split; [done|]. split; [by exists v|]. injection Es as <-. cbn. by rewrite local_with, decide_True.
  - intros [= <- <-]. cbn [fst snd]. assert (Hl : local_ok (globalMap_ s.1) (LocalMapAndLast (last (local t s.1)) (<[make k := LocalEntry (make k) c]> (map (local t s.1))))).
    { destruct (Hh t) as [Hk Hl]. split; cbn.
      - intros a e. rewrite lookup_insert_Some. intros [[<- <-]|[_ Ha]]; [split; [done|by exists v]|by apply Hk].
      - intros i Hi. destruct (Hl i Hi) as [Hi1 Hi2]. split; [|done]. rewrite lookup_insert_ne; [done|congruence]. }
    pose proof (holder_with_local t _ s.1 Hh Hl) as Hh1.
    set (h1 := with_local t _ s.1) in *. split; [|split; [done|]].
    + destruct (set_last_ok t k (LocalEntry (make k) c) (h1, w) (with_local t (LocalMapAndLast (Some (ItemRef (SubkeyUtils.hash_tuple int64_hasher string_view_hasher k) (make k) (LocalEntry (make k) c))) (map (local t h1))) h1, w)) as (Hh2 & _ & _); try done.
      cbn [fst]. unfold h1. rewrite local_with, decide_True by done. cbn. apply lookup_insert_eq.
    + intros e [= <-]. split; [done|]. split; [by exists v|]. rewrite local_with, decide_True by done. cbn.
      unfold h1. rewrite local_with, decide_True by done. cbn. apply lookup_insert_eq.
Qed.
Lemma erase_effect t k (s s' : state) r : holder_ok s.1 -> eraseFormattedKey release t k s = (r, s') ->
  holder_ok s'.1 /\ globalMap_ s'.1 = globalMap_ s.1.
Proof.
  intros Hh Ee. assert (E1 : s'.1 = with_local t (LocalMapAndLast None (delete (make k) (map (local t s.1)))) s.1).
  { unfold eraseFormattedKey, se_bind, se_get, modify in Ee. destruct (map (local t s.1) !! make k) as [e|]; [|by injection Ee as _ <-].
    unfold on_world in Ee. destruct (release _ _) as [x w]. by injection Ee as _ <-. }
  rewrite E1. split; [|done]. apply holder_with_local; [done|]. destruct (Hh t) as [Hk _]. split; [|done]. cbn.
  intros a e [_ Ha]%lookup_delete_Some. by apply Hk.
Qed.
Lemma release_each_holder l (s s' : state) r : FormattedKeyHolder.release_each release l s = (r, s') -> s'.1 = s.1.
Proof.
  revert s. induction l as [|e l IH]; intros s; cbn; [by intros [= _ <-]|]. unfold se_bind, on_world.
  destruct (release (cached e) s.2) as [[[]|x] w]; [|by intros [= _ <-]]. intros Er. by rewrite (IH _ Er).
Qed.
Lemma end_thread_effect t (s s' : state) r : holder_ok s.1 -> end_thread release t s = (r, s') ->
  holder_ok s'.1 /\ globalMap_ s'.1 = globalMap_ s.1.
Proof.
  intros Hh Ee. unfold end_thread, se_bind, se_get, modify in Ee. apply release_each_holder in Ee. rewrite Ee. split; [|done].
  intros t'. cbn. destruct (decide (t' = t)) as [->|Hne].
  - unfold local. cbn. rewrite lookup_delete_eq. by split.
  - unfold local. cbn. rewrite lookup_delete_ne by done. apply (Hh t').
Qed.

(** ** Invariant of the threads *)
Record inv (c : config) : Prop := {
  v_holder : holder_ok (st c).1;
  v_global : forall a k, globalMap_ (st c).1 !! a = Some k -> format a = Ret k /\ (a, k) ∈ prepared c;
  v_once : NoDup (prepared c).*1;
  v_prepared : forall a k, (a, k) ∈ prepared c ->
    globalMap_ (st c).1 !! a = Some k \/ exists t kt, pcs c !! t = Some (Write kt k) /\ make kt = a;
  v_write : forall t kt k, pcs c !! t = Some (Write kt k) -> lock c = Some t /\
    format (make kt) = Ret k /\ (make kt, k) ∈ prepared c /\ globalMap_ (st c).1 !! make kt = None;
  v_lock : forall t, lock c = Some t -> exists kt k, pcs c !! t = Some (Write kt k);
  v_results : forall t k e, (t, k, e) ∈ results c -> key e = make k /\ is_Some (globalMap_ (st c).1 !! make k)
}.

(** The holder's maps change, the global map does not; [t] was not writing. *)
Lemma inv_set_pc c t p s :
  inv c -> holder_ok s.1 -> globalMap_ s.1 = globalMap_ (st c).1 ->
  (forall kt k, pcs c !! t <> Some (Write kt k)) -> (forall kt k, p <> Some (Write kt k)) ->
  inv (set_pc t p s c).
Proof.
  intros Hi Hh Hg Ht Hp. unfold set_pc. split; cbn; try (rewrite Hg; apply Hi).
  - done.
  - apply Hi.
  - intros a k Hin. rewrite Hg. destruct (v_prepared c Hi a k Hin) as [Ha|(t' & kt & Hw & Hm)]; [by left|]. right. exists t', kt.
    split; [|done]. rewrite lookup_partial_alter_ne; [done|]. intros ->. by destruct (Ht kt k).
  - intros t' kt k. rewrite Hg. destruct (decide (t' = t)) as [->|Hne]; [rewrite lookup_partial_alter_eq; intros E; by destruct (Hp kt k)|].
    rewrite lookup_partial_alter_ne by done. apply (v_write c Hi).
  - intros t' Hl. destruct (v_lock c Hi t' Hl) as (kt & k & Hw). exists kt, k. rewrite lookup_partial_alter_ne; [done|].
    intros ->. by destruct (Ht kt k).
Qed.
Lemma inv_return c t k e s :
  inv c -> holder_ok s.1 -> globalMap_ s.1 = globalMap_ (st c).1 -> (forall kt k, pcs c !! t <> Some (Write kt k)) ->
  key e = make k -> is_Some (globalMap_ s.1 !! make k) -> inv (return_to t k e s c).
Proof.
  intros Hi Hh Hg Ht Hk Hs. pose proof (inv_set_pc c t None s Hi Hh Hg Ht ltac:(done)) as Hj.
  split; try apply Hj. cbn. intros t' k' e'. rewrite elem_of_cons. intros [[= -> -> ->]|Hin]; [done|]. rewrite Hg. by apply (v_results c Hi t').
Qed.
Lemma find_global_eq a (s : state) : find_global a s = (Ret (bool_decide (is_Some (globalMap_ s.1 !! a))), s).
Proof. done. Qed.
Lemma format_and_prepare_effect a (s s' : state) r : format_and_prepare fmt_format keyFormat prepareKey a s = (r, s') ->
  s'.1 = s.1 /\ forall k, r = Ret k -> format a = Ret k.
Proof.
  unfold format_and_prepare. destruct (format a) as [k|x]; [|by intros [= <- <-]]. unfold se_bind, on_world.
  destruct (prepareKey k s.2) as [[[]|x] w]; intros [= <- <-]; by split.
Qed.

Lemma inv_go c t p : inv c -> pcs c !! t = Some p ->
  inv (go int64_hasher string_view_hasher fmt_format keyFormat prepareKey CacheFun release t p c).
Proof.
  intros Hi Hp. destruct p as [k|k|k fk|k]; cbn [go].
  - rewrite find_global_eq. cbn [settle]. apply inv_set_pc; try done; [apply Hi|intros kt k'; by rewrite Hp|].
    intros kt k'. by case_bool_decide.
  - destruct (lock c) as [t'|] eqn:Hl; [done|]. rewrite find_global_eq. cbn [settle]. case_bool_decide as Hg.
    { apply inv_set_pc; try done; [apply Hi|intros kt k'; by rewrite Hp]. }
    destruct (format_and_prepare _ _ _ (make k) (st c)) as [[fk|x] s] eqn:Ef; cbn [settle]; destruct (format_and_prepare_effect _ _ _ _ Ef) as [Es Hf].
    + specialize (Hf fk eq_refl). assert (Hng : globalMap_ (st c).1 !! make k = None) by (destruct (globalMap_ (st c).1 !! make k) eqn:E; [|done]; exfalso; apply Hg; by eexists).
      assert (Hnw : forall u kt k', pcs c !! u <> Some (Write kt k')) by (intros u kt k' Hw; destruct (v_write c Hi u kt k' Hw); congruence).
      assert (Hnp : make k ∉ (prepared c).*1).
      { intros ([a k'] & Ea & Hin)%list_elem_of_fmap. cbn in Ea. subst a.
        destruct (v_prepared c Hi _ _ Hin) as [Hx|(u & kt & Hw & _)]; [congruence|by destruct (Hnw u kt k')]. }
      split; cbn; rewrite ?Es; try apply Hi.
      * intros a k' Ha. destruct (v_global c Hi a k' Ha). split; [done|by right].
      * constructor; [done|apply Hi].
      * intros a k'. rewrite elem_of_cons. intros [[= -> ->]|Hin]; [right; exists t, k; by rewrite lookup_insert_eq|].
        destruct (v_prepared c Hi a k' Hin) as [?|(u & kt & Hw & _)]; [by left|by destruct (Hnw u kt k')].
      * intros u kt k'. rewrite lookup_insert_Some. intros [[<- [= <- <-]]|[_ Hw]]; [|by destruct (Hnw u kt k')].
        split; [done|]. split; [done|]. split; [by left|done].
      * intros u [= <-]. exists k, fk. apply lookup_insert_eq.
    + apply inv_set_pc; try done; [by rewrite Es; apply Hi|by rewrite Es|intros kt k'; by rewrite Hp].
  - destruct (v_write c Hi t k fk Hp) as (Hl & Hf & Hin & Hn). cbn [settle insert_global modify]. rewrite Hn.
    assert (Hnw : forall u kt k', u <> t -> pcs c !! u <> Some (Write kt k')) by (intros u kt k' Hne Hw; destruct (v_write c Hi u kt k' Hw); congruence).
    split; cbn.
    + intros u. apply (global_grows (globalMap_ (st c).1)); [|apply (v_holder c Hi u)].
      intros a [x Hx]. destruct (decide (make k = a)) as [<-|Hne]; [congruence|]. exists x. cbn. by rewrite lookup_insert_ne.
    + intros a k'. rewrite lookup_insert_Some. intros [[<- <-]|[_ Ha]]; [done|by apply Hi].
    + apply Hi.
    + intros a k' Hin'. destruct (v_prepared c Hi a k' Hin') as [Ha|(u & kt & Hw & <-)].
      * left. rewrite lookup_insert_ne; [done|congruence].
      * left. destruct (decide (u = t)) as [->|Hne]; [|by destruct (Hnw u kt k' Hne)]. rewrite Hp in Hw. injection Hw as <- <-. apply lookup_insert_eq.
    + intros u kt k'. rewrite lookup_insert_Some. intros [[_ [=]]|[Hne Hw]]. by destruct (Hnw u kt k' (not_eq_sym Hne)).
    + done.
    + intros u k' e Hr. destruct (v_results c Hi u k' e Hr) as [Ek [x Hx]]. split; [done|].
      destruct (decide (make k = make k')) as [E|Hne]; [congruence|]. exists x. by rewrite lookup_insert_ne.
  - destruct (remember t k (st c)) as [r s] eqn:Er. destruct (remember_effect t k (st c) s r (v_holder c Hi) Er) as (Hh & Hg & He).
    destruct r as [e|x]; cbn [settle].
    + destruct (He e eq_refl) as (Ek & Hs & _). apply inv_return; try done; [|by rewrite Hg]. intros kt k'. by rewrite Hp.
    + apply inv_set_pc; try done. intros kt k'. by rewrite Hp.
Qed.
Lemma inv_step c e : inv c -> inv (step c e).
Proof.
  intros Hi. destruct e as [t k|t|t k|t]; cbn [FormattedKeyHolder.step].
  - destruct (pcs c !! t) eqn:Hp; [done|]. destruct (find_local t k (st c)) as [r s] eqn:Ef.
    destruct (find_local_effect t k (st c) s r (v_holder c Hi) Ef) as (-> & Hh & Hg & _). cbn [settle].
    destruct (map (local t (st c).1) !! make k) as [e|] eqn:Hm.
    + destruct (proj1 (v_holder c Hi t) _ _ Hm) as [Ek Hs]. apply inv_return; try done; [|by rewrite Hg]. intros kt k'. by rewrite Hp.
    + apply inv_set_pc; try done. intros kt k'. by rewrite Hp.
  - destruct (pcs c !! t) as [p|] eqn:Hp; [by apply inv_go|done].
  - destruct (pcs c !! t) eqn:Hp; [done|]. destruct (eraseFormattedKey release t k (st c)) as [r s] eqn:Ee.
    destruct (erase_effect t k (st c) s r (v_holder c Hi) Ee) as [Hh Hg].
    destruct r as [[]|x]; cbn [settle]; apply inv_set_pc; try done; intros kt k'; by rewrite Hp.
  - destruct (pcs c !! t) eqn:Hp; [done|]. destruct (end_thread release t (st c)) as [r s] eqn:Ee.
    destruct (end_thread_effect t (st c) s r (v_holder c Hi) Ee) as [Hh Hg].
    destruct r as [[]|x]; cbn [settle]; apply inv_set_pc; try done; intros kt k'; by rewrite Hp.
Qed.
Lemma inv_run c l : inv c -> inv (run c l).
Proof. revert c. induction l as [|e l IH]; intros c Hi; [done|]. cbn. by apply IH, inv_step. Qed.
Lemma inv_initial w : inv (start w).
Proof.
  split; cbn.
  - intros t. unfold local. cbn. rewrite lookup_empty. by split.
  - done.
  - constructor.
  - intros a k Hin. by apply elem_of_nil in Hin.
  - done.
  - done.
  - intros t k e Hin. by apply elem_of_nil in Hin.
Qed.

(** C11: however the threads' calls are interleaved, erasures and ends of threads
    included, and whatever [prepareKey], [CacheFun] and formatting do: a call that
    returns has the entry of the array it was asked for, whose string in the global
    map is the formatted key; this string was given to [prepareKey] before, once per
    array; at most one thread at a time stands between [prepareKey] and the
    insertion; and the last-found entry of a thread answers only what the thread's
    map would. *)
Theorem keys_prepared_once (w : world) (l : list event) :
  let c := run (start w) l in
  (forall t k e, (t, k, e) ∈ results c -> key e = make k /\
     exists s, globalMap_ (st c).1 !! make k = Some s /\ format (make k) = Ret s /\ (make k, s) ∈ prepared c) /\
  NoDup (prepared c).*1 /\
  (forall t t' k k' s s', pcs c !! t = Some (Write k s) -> pcs c !! t' = Some (Write k' s') -> t = t') /\
  (forall t k e, last_matches int64_hasher string_view_hasher (local t (st c).1) k = Some e -> map (local t (st c).1) !! make k = Some e).
Proof.
  intros c. pose proof (inv_run (start w) l (inv_initial w)) as Hi. fold c in Hi. split; [|split; [apply Hi|split]].
  - intros t k e Hr. destruct (v_results c Hi t k e Hr) as [Ek [s Hs]]. split; [done|]. exists s. split; [done|]. by apply Hi.
  - intros t t' k k' s s' Hw Hw'. destruct (v_write c Hi t k s Hw) as [E1 _], (v_write c Hi t' k' s' Hw') as [E2 _]. congruence.
  - intros t k e. apply (last_matches_spec (globalMap_ (st c).1)), (v_holder c Hi).
Qed.

(** ** A call with nobody in between *)
Abbreviation getFormattedEntry := (FormattedKeyHolder.getFormattedEntry int64_hasher string_view_hasher fmt_format keyFormat prepareKey CacheFun release).
Definition answered (c c' : config) (t : nat) (k : list view) (r : outcome local_entry * state) : Prop :=
  st c' = r.2 /\ results c' = match r.1 with Ret e => (t, k, e) :: results c | Throw _ => results c end /\
  pcs c' = pcs c /\ lock c' = None.
Lemma go_idle (c : config) t n : pcs c !! t = None -> run c (replicate n (Go t)) = c.
Proof. intros Hp. induction n as [|n IH]; [done|]. cbn. by rewrite Hp. Qed.
Lemma find_local_returns t k s : exists r s', find_local t k s = (Ret r, s').
Proof.
  unfold FormattedKeyHolder.find_local, se_bind at 1, se_get. destruct (last_matches _ _ _ k); [by eexists _, _|].
  destruct (map (local t s.1) !! make k); by eexists _, _.
Qed.
(** From the last part on. *)
Lemma solo_emplace (c0 c : config) t k n :
  pcs c0 !! t = None -> pcs c = <[t := Emplace k]> (pcs c0) -> results c = results c0 -> lock c = None ->
  answered c0 (run c (replicate (S n) (Go t))) t k (remember t k (st c)).
Proof.
  intros Hn Hp Hr Hl. cbn [replicate run FormattedKeyHolder.run foldl]. unfold FormattedKeyHolder.step at 2. rewrite Hp, lookup_insert_eq.
  cbn [go]. assert (Hd : delete t (pcs c) = pcs c0) by (rewrite Hp; by apply delete_insert_id).
  destruct (remember t k (st c)) as [[e|x] s] eqn:Er; cbn [settle].
  - change (answered c0 (run (return_to t k e s c) (replicate n (Go t))) t k (Ret e, s)). rewrite go_idle by apply lookup_delete_eq.
    split; [done|]. split; [cbn; congruence|]. by split.
  - change (answered c0 (run (set_pc t None s c) (replicate n (Go t))) t k (Throw x, s)). rewrite go_idle by apply lookup_partial_alter_eq.
    split; [done|]. split; [done|]. by split.
Qed.
(** The steps of one call, with no other thread in between, are
    [getFormattedEntry]: after the call and at most four more steps the thread is
    idle, the lock free, and result and state are those of the sequential
    function, exceptions included. *)
Theorem solo_call_is_sequential (c : config) (t : nat) (k : list view) :
  pcs c !! t = None -> lock c = None ->
  answered c (run c (Call t k :: replicate 4 (Go t))) t k (getFormattedEntry t k (st c)).
Proof.
  intros Hp Hl. change (run c (Call t k :: replicate 4 (Go t))) with (run (step c (Call t k)) (replicate 4 (Go t))).
  unfold FormattedKeyHolder.step at 1. rewrite Hp. unfold FormattedKeyHolder.getFormattedEntry, se_bind at 1.
  destruct (find_local_returns t k (st c)) as (found & s & Ef). rewrite Ef. cbn [settle]. destruct found as [e|].
  { rewrite go_idle by apply lookup_delete_eq. split; [done|]. split; [done|]. split; [|done]. by apply delete_id. }
  set (c1 := set_pc t (Some (Read k)) s c). assert (P1 : pcs c1 !! t = Some (Read k)) by apply lookup_partial_alter_eq.
  change (run c1 (replicate 4 (Go t))) with (run (step c1 (Go t)) (replicate 3 (Go t))). unfold FormattedKeyHolder.step at 1. rewrite P1. cbn [go].
  rewrite find_global_eq. cbn [settle]. unfold FormattedKeyHolder.getFormattedKeySlow, FormattedKeyHolder.getFormattedKeyGlobal.
  unfold se_bind at 1. unfold se_bind at 1. rewrite find_global_eq. change (st c1) with s.
  destruct (bool_decide (is_Some (globalMap_ s.1 !! make k))) eqn:Eg.
  { apply (solo_emplace c (set_pc t (Some (Emplace k)) s c1) t k 2); try done. cbn. unfold set_pc. cbn.
    apply map_eq. intros i. destruct (decide (i = t)) as [->|Hne]; [by rewrite lookup_partial_alter_eq, lookup_insert_eq|].
    by rewrite !lookup_partial_alter_ne, lookup_insert_ne. }
  set (c2 := set_pc t (Some (Upgrade k)) s c1). assert (P2 : pcs c2 !! t = Some (Upgrade k)) by apply lookup_partial_alter_eq.
  change (run c2 (replicate 3 (Go t))) with (run (step c2 (Go t)) (replicate 2 (Go t))). unfold FormattedKeyHolder.step at 1. rewrite P2. cbn [go].
  change (lock c2) with (lock c). rewrite Hl, find_global_eq. cbn [settle]. change (st c2) with s. rewrite Eg.
  unfold se_bind at 1. rewrite find_global_eq, Eg. unfold se_bind at 1.
  destruct (format_and_prepare fmt_format keyFormat prepareKey (make k) s) as [[fk|x] s2] eqn:Ep; cbn [settle].
  2: { rewrite go_idle by apply lookup_partial_alter_eq. split; [done|]. split; [done|]. split; [|done].
       cbn. unfold c2, c1, set_pc. cbn. apply map_eq. intros i. destruct (decide (i = t)) as [->|Hne].
       - by rewrite lookup_partial_alter_eq.
       - by rewrite !lookup_partial_alter_ne. }
  set (c3 := Config s2 (Some t) (<[t:=Write k fk]> (pcs c2)) ((make k, fk) :: prepared c2) (results c2)).
  assert (P3 : pcs c3 !! t = Some (Write k fk)) by apply lookup_insert_eq.
  change (run c3 (replicate 2 (Go t))) with (run (step c3 (Go t)) (replicate 1 (Go t))). unfold FormattedKeyHolder.step at 1. rewrite P3. cbn [go settle insert_global modify].
  apply (solo_emplace c (Config _ None (<[t:=Emplace k]> (pcs c3)) (prepared c3) (results c3)) t k 0); try done. cbn.
  rewrite insert_insert_eq. unfold c2, c1, set_pc. cbn. apply map_eq. intros i. destruct (decide (i = t)) as [->|Hne]; [by rewrite !lookup_insert_eq|].
  by rewrite !lookup_insert_ne, !lookup_partial_alter_ne.
Qed.
End Correct.

(** ** Two threads and one key

    The world is the list of keys prepared; a thread caches the key's text. *)
Section Example_.
Open Scope string_scope.
(** Each ["{}"] takes the next argument; too few of them is an error. *)
Fixpoint fill (f : string) (args : list string) : outcome string :=
  match f with
  | String "{"%char (String "}"%char f') =>
      match args with
      | a :: args' => match fill f' args' with Ret r => Ret (a +:+ r) | Throw e => Throw e end
      | [] => Throw (runtime_error "argument not found")
      end
  | String c f' => match fill f' args with Ret r => Ret (String c r) | Throw e => Throw e end
  | EmptyString => Ret ""
  end.
Definition note_prepared (k : string) : SE (list string) unit := fun w => (Ret tt, k :: w).
Definition text_of (t : nat) (k : string) : SE (list string) string := se_ret k.
Definition forget (v : string) : SE (list string) unit := se_ret tt.
Definition name_size (k : string) : Z := Z.of_nat (String.length k).
Definition run_keys (l : list event) : FormattedKeyHolder.config :=
  FormattedKeyHolder.run id name_size fill "pets.{}.{}" note_prepared text_of forget (start []) l.
Definition red_42 : list view := [VStr "red"; VInt (-42)].

(** Both threads miss; the second finds the key when it gets the lock. *)
Example race_to_prepare :
  let c := run_keys [Call 0 red_42; Call 1 red_42; Go 0; Go 1; Go 0; Go 1; Go 0; Go 1; Go 0; Go 1; Call 0 red_42; Erase 0 red_42] in
  (st c).2 = ["pets.red.-42"] /\ length (results c) = 3%nat /\ lock c = None.
Proof. vm_compute. repeat split. Qed.

Lemma solo_call_is_sequential_witness :
  (st (FormattedKeyHolder.run id name_size fill "pets.{}.{}" note_prepared text_of forget (start []) (Call 7 red_42 :: replicate 4 (Go 7)))).2 =
    ["pets.red.-42"].
Proof.
  destruct (solo_call_is_sequential id name_size fill "pets.{}.{}" note_prepared text_of forget (start []) 7 red_42 eq_refl eq_refl) as (E1 & _).
  rewrite E1. vm_compute. reflexivity.
Defined.
End Example_.
