(* ===== verification/ThreadCached.v ===== *)
(** * ThreadCached: the service's statistics through per-thread maps

    [ThreadCachedServiceData] of [src/fb303/ThreadCachedServiceData.h] and
    [ThreadCachedServiceData.cpp], its publishing thread, and the wrappers a
    program declares its counters, time series and histograms with.  The state is
    the [TLStatsMap] of every thread with the [ServiceData] they aggregate into; a
    thread has a name that is not used again.  A wrapper keeps per thread a shared
    pointer to the thread's stat.  Operations run one after the other; times are
    handed in by the caller. *)
From S2P Require Import Prelude RegexUtil FlatCounters CallbackValuesMap NamedCallbacks TLStatsLockTraits ExportType Timeseries TimeseriesExporter HistogramExporter HistogramNames ExportedStatMap ExportedHistogramMap QuantileStat QuantileStatMap ServiceOptions ServiceData TLStats StatPtr TLStatsMap.
From Stdlib Require Import ZArith Lia Ascii String.
From stdpp Require Import base gmap sets list strings.

Open Scope Z_scope.
Open Scope fb303_scope.

(** [dynamic_key] and [count_placeholders]. *)
Definition dynamic_key (value : bool) : string := if negb value then "false" else "true".
Fixpoint count_placeholders (keyformat : string) : outcome nat :=
  match keyformat with
  | EmptyString => Ret 0%nat
  | String c rest =>
      match count_placeholders rest with
      | Throw e => Throw e
      | Ret n =>
          if bool_decide (c = "{"%char) then
            match rest with
            | String d _ => if bool_decide (d = "}"%char) then Ret (S n) else Throw check_failed
            | EmptyString => Throw check_failed
            end
          else Ret n
      end
  end.

Module ThreadCached.
Section Model.
Context {M : Type} `{RegexMatchCache M} {TS Hg HV : Type} `{FollyHistogram TS Hg HV} `{SimpleHistogram HV}.
Context {E U US Getter Setter W : Type} (hash : string -> Z) `{LockTraits} `{TypedPtr}.
Abbreviation service := (ServiceData.state M TS Hg E U US Getter Setter W).
Abbreviation dynamic_counters := (CallbackValuesMap.cvm (counter_callback U) M).
Abbreviation dynamic_strings := (CallbackValuesMap.cvm (string_callback US) M).
Context (gap_flat : RegexUtil.syncmap (M := M) (V := Z) -> RegexUtil.syncmap (M := M) (V := Z)).
Context (gap_stats : ExportedStatMap.statmap TS * dynamic_counters -> ExportedStatMap.statmap TS * dynamic_counters).
Context (gap_hists : ExportedHistogramMap.histmap TS Hg * (dynamic_counters * dynamic_strings) ->
                     ExportedHistogramMap.histmap TS Hg * (dynamic_counters * dynamic_strings)).
Context (time_source : nat -> Z) (control_block : nat -> Z).
(** [FLAGS_fb303_tcData_dont_update_on_read] *)
Context (dont_update_on_read : bool).
Definition shouldUpdateGlobalStatOnRead : bool := negb dont_update_on_read.

(** ** State

    [publisherManager] is a folly singleton: not made yet, there with or without a
    worker (its interval), or destroyed. *)
Inductive singleton := Unborn | Living (worker_ : option Z) | Gone.
Record tcd := TCD {
  threadLocalStats_ : gmap nat nat;
  interval_ : Z;
  publisherManager : singleton
}.
Definition initial : tcd := TCD ∅ 0 Unborn.
Abbreviation mapstate := (TLStatsMap.maps * (TLStats.tls (HV := HV) * service))%type.
Abbreviation state := (tcd * mapstate)%type.
Definition with_threads m x := TCD m (interval_ x) (publisherManager x).
Definition with_interval i x := TCD (threadLocalStats_ x) i (publisherManager x).
Definition with_manager p x := TCD (threadLocalStats_ x) (interval_ x) p.
Definition modify (f : tcd -> tcd) : SE state unit := fun s => (Ret tt, (f s.1, s.2)).
Definition on_map {A} (f : SE mapstate A) : SE state A := fun s => let '(r, m) := f s.2 in (r, (s.1, m)).
Definition on_local {A} (f : SE (TLStats.tls (HV := HV) * service) A) : SE state A := on_map (TLStatsMap.on_local f).
Definition on_service {A} (f : SE service A) : SE state A := on_map (TLStatsMap.on_service f).

(** ** The map of a thread *)
Definition getThreadStats (t : nat) : SE state nat :=
  let* s := se_get in
  match threadLocalStats_ s.1 !! t with
  | Some c => se_ret c
  | None =>
      let* c := on_map (TLStatsMap.make shouldUpdateGlobalStatOnRead) in
      modify (fun x => with_threads (<[t := c]> (threadLocalStats_ x)) x) >>> se_ret c
  end.
Definition end_thread (t : nat) : SE state unit :=
  let* s := se_get in
  match threadLocalStats_ s.1 !! t with
  | Some c =>
      on_map (TLStatsMap.destroy gap_flat time_source c) >>>
      modify (fun x => with_threads (delete t (threadLocalStats_ x)) x)
  | None => se_ret tt
  end.

(** ** Updating, in the calling thread's map *)
Definition addStatValue (t : nat) (key : string) (value : Z) : SE state unit :=
  let* c := getThreadStats t in on_map (TLStatsMap.addStatValue hash gap_stats control_block c key value).
Definition addStatValue_typed (t : nat) (key : string) (value : Z) (exportType : ExportType) : SE state unit :=
  let* c := getThreadStats t in on_map (TLStatsMap.addStatValue_typed hash gap_stats control_block c key value exportType).
Definition clearStat (t : nat) (key : string) (exportType : ExportType) : SE state unit :=
  let* c := getThreadStats t in on_map (TLStatsMap.clearStat hash gap_stats c key exportType).
Definition addStatValueAggregated (t : nat) (key : string) (sum numSamples : Z) : SE state unit :=
  let* c := getThreadStats t in on_map (TLStatsMap.addStatValueAggregated hash gap_stats control_block c key sum numSamples).
Definition addHistogramValue (t : nat) (key : string) (value : Z) : SE state unit :=
  let* c := getThreadStats t in on_map (TLStatsMap.addHistogramValue control_block c key value).
Definition incrementCounter (t : nat) (key : string) (amount : Z) : SE state unit :=
  let* c := getThreadStats t in on_map (TLStatsMap.incrementCounter control_block c key amount).
Definition addHistAndStatValue (t : nat) (key : string) (value : Z) : SE state unit :=
  addStatValue t key value >>> addHistogramValue t key value.

(** ** Straight to [ServiceData] *)
Definition setCounter (key : string) (value : Z) : SE state Z := on_service (ServiceData.setCounter gap_flat key value).
Definition clearCounter (key : string) : SE state unit := on_service (ServiceData.clearCounter key).
Definition addHistAndStatValues (key : string) (values : HV) (now sum nsamples : Z) (checkContains : bool) : SE state unit :=
  on_service (ServiceData.addHistAndStatValues hash gap_stats key values now sum nsamples checkContains).
Definition addStatExportType (key : string) (exportType : ExportType) (statPrototype : option TS) : SE state unit :=
  on_service (ServiceData.addStatExportType hash gap_stats key exportType statPrototype true).
Definition addHistogram (key : string) (prototype : Hg) : SE state bool :=
  on_service (ServiceData.addHistogram hash gap_hists key prototype).
Definition addHistogram_width (key : string) (bucketWidth min max : Z) : SE state bool :=
  on_service (ServiceData.addHistogram_width hash key bucketWidth min max).
Definition exportHistogramPercentile (key : string) (pct : Z) : SE state unit :=
  on_service (ServiceData.exportHistogramPercentile hash key pct).
Definition exportHistogram (key : string) (it : HistogramNames.item) (more : list HistogramNames.item) : SE state unit :=
  on_service (ServiceData.exportHistograms hash key it more).

(** ** The publishing thread *)
Definition getPublisherInterval (x : tcd) : Z := interval_ x.
Definition publishThreadRunning (x : tcd) : bool := 0 <? getPublisherInterval x.
(** [PublisherManager::PublisherManager] *)
Definition new_manager (x : tcd) : singleton := Living (if publishThreadRunning x then Some (getPublisherInterval x) else None).
(** [folly::Singleton::try_get], and [vivify] *)
Definition try_get : SE state bool :=
  let* s := se_get in
  match publisherManager s.1 with
  | Unborn => modify (fun x => with_manager (new_manager x) x) >>> se_ret true
  | Living _ => se_ret true
  | Gone => se_ret false
  end.
Definition vivify : SE state unit := let* _ := try_get in se_ret tt.
Definition startPublishThread (interval : Z) : SE state unit :=
  let* s := se_get in
  if (interval <=? 0) && negb (interval_ s.1 =? 0) then se_ret tt
  else
    let interval := if interval <=? 0 then 1000 else interval in
    let* mgr := try_get in
    if mgr : bool then modify (fun x => with_manager (Living (Some interval)) (with_interval interval x)) else se_ret tt.
Definition stopPublishThread : SE state unit :=
  let* mgr := try_get in
  if mgr : bool then modify (fun x => with_manager (Living None) (with_interval 0 x)) else se_ret tt.
(** [SingletonVault::destroyInstances] and [reenableInstances]. *)
Definition destroyInstances : SE state unit := modify (with_manager Gone).
Definition reenableInstances : SE state unit :=
  modify (fun x => match publisherManager x with Gone => with_manager Unborn x | _ => x end).

(** ** Wrappers

    Per thread a shared pointer to the thread's stat. *)
Record wrapper := StatWrapper { key_ : string; tlStat_ : gmap nat shared_ptr }.
Definition new_wrapper (key : string) : wrapper := StatWrapper key ∅.
Definition on_state {X A} (f : SE state A) : SE (X * state) A := fun s => let '(r, x) := f s.2 in (r, (s.1, x)).
Definition getTcStatUnsafe (t : nat) (w : wrapper) : option nat := v ← tlStat_ w !! t; object v.
Section Base.
Context (getStatSafe : nat -> string -> SE state shared_ptr).
Definition tcStatSlow (t : nat) : SE (wrapper * state) (option nat) :=
  let* s := se_get in
  let* v := on_state (getStatSafe t (key_ s.1)) in
  (fun s => (Ret tt, (StatWrapper (key_ s.1) (<[t := v]> (tlStat_ s.1)), s.2))) >>>
  se_ret (object v).
Definition tcStat (t : nat) : SE (wrapper * state) (option nat) :=
  let* s := se_get in
  match getTcStatUnsafe t s.1 with Some p => se_ret (Some p) | None => tcStatSlow t end.
Definition on_stat (t : nat) (f : nat -> SE (TLStats.tls (HV := HV) * service) unit) : SE (wrapper * state) unit :=
  let* p := tcStat t in
  match p with Some p => on_state (on_local (f p)) | None => se_throw undefined_behaviour end.
End Base.
(** The thread ends: its pointer is let go. *)
Definition end_wrapper (t : nat) : SE (wrapper * state) unit :=
  let* s := se_get in
  match tlStat_ s.1 !! t with
  | Some v =>
      (fun s => (Ret tt, (StatWrapper (key_ s.1) (delete t (tlStat_ s.1)), s.2))) >>>
      on_state (on_map (TLStatsMap.release gap_flat time_source v))
  | None => se_ret tt
  end.

(** *** [CounterWrapper] *)
Definition counter_getStatSafe (t : nat) (key : string) : SE state shared_ptr :=
  let* c := getThreadStats t in on_map (TLStatsMap.getCounterSafe control_block c key).
Definition counter_incrementValue (t : nat) (amount : Z) : SE (wrapper * state) unit :=
  on_stat counter_getStatSafe t (fun p => TLStats.incrementValue p amount).

(** *** The wrappers of time series

    A class: the series its [exportStats] passes as blueprint, what its
    [getStatSafe] asks for, and whether the counters update the series they read;
    a series is given by buckets, number of levels and durations. *)
Abbreviation shape := (nat * nat * list Z)%type.
Record series_class := SeriesClass {
  templateExportedStat : option shape;
  levels : option shape;
  updateOnRead : bool
}.
Definition of_table (t : level_table) : shape := (num_buckets t, NUM_LEVELS t, durations t).
Definition TimeseriesWrapper : series_class := SeriesClass None None shouldUpdateGlobalStatOnRead.
Definition TimeseriesPolymorphicWrapper : series_class := SeriesClass None None true.
Definition MinuteTimeseriesWrapper : series_class :=
  SeriesClass (Some (of_table MinuteTimeSeries)) (Some (60%nat, 2%nat, kMinuteDurations)) true.
Definition QuarterMinuteOnlyTimeseriesWrapper : series_class :=
  SeriesClass (Some (of_table QuarterMinuteOnlyTimeSeries)) (Some (15%nat, 1%nat, kQuarterMinuteOnlyDurations)) true.
Definition MinuteOnlyTimeseriesWrapper : series_class :=
  SeriesClass (Some (of_table MinuteOnlyTimeSeries)) (Some (60%nat, 1%nat, kMinuteOnlyDurations)) true.
Definition SubminuteMinuteTimeseriesWrapper : series_class :=
  SeriesClass (Some (of_table SubminuteMinuteTimeSeries)) (Some (60%nat, 1%nat, kSubminuteMinuteDurations)) true.
Definition SubminuteMinuteOnlyTimeseriesWrapper : series_class :=
  SeriesClass (Some (of_table SubminuteMinuteOnlyTimeSeries)) (Some (60%nat, 1%nat, kSubminuteMinuteOnlyDurations)) true.
(** [MultiLevelTimeseriesWrapper<LevelDurations...>], durations in seconds; the
    [static_assert]. *)
Fixpoint is_sorted (l : list Z) : bool :=
  match l with a :: (b :: _) as l' => negb (b <? a) && is_sorted l' | _ => true end.
Fixpoint adjacent_find (l : list Z) : bool :=
  match l with a :: (b :: _) as l' => (a =? b) || adjacent_find l' | _ => false end.
Definition kDurations_ok (l : list Z) : bool := is_sorted l && negb (adjacent_find l).
Definition MultiLevelTimeseriesWrapper (LevelDurations : list Z) : series_class :=
  let s := (60%nat, length LevelDurations, in_ticks milliseconds LevelDurations) in SeriesClass (Some s) (Some s) true.

Definition make_series (s : shape) : SE mapstate TS := TLStatsMap.levels_of s.1.1 s.1.2 s.2.
Definition series_getStatSafe (cls : series_class) (t : nat) (key : string) : SE state shared_ptr :=
  let* c := getThreadStats t in
  match levels cls with
  | None => on_map (TLStatsMap.getTimeseriesSafe hash gap_stats control_block c key)
  | Some (b, n, ds) => on_map (TLStatsMap.getTimeseriesSafe_levels hash gap_stats control_block c key b n ds)
  end.
Fixpoint export_each (key : string) (types : list ExportType) (statPrototype : option TS) (update : bool) : SE state unit :=
  match types with
  | [] => se_ret tt
  | type :: types' =>
      on_service (ServiceData.addStatExportType hash gap_stats key type statPrototype update) >>>
      export_each key types' statPrototype update
  end.
(** The constructors; [statPrototype] is an argument of [TimeseriesWrapper]'s. *)
Definition new_series (cls : series_class) (key : string) (statPrototype : option TS) (types : list ExportType) : SE state wrapper :=
  let* proto := (match templateExportedStat cls with
                 | Some s => let* t := on_map (make_series s) in se_ret (Some t)
                 | None => se_ret statPrototype
                 end) in
  export_each key types proto (updateOnRead cls) >>> se_ret (new_wrapper key).
Definition series_add (cls : series_class) (t : nat) (value : Z) : SE (wrapper * state) unit :=
  on_stat (series_getStatSafe cls) t (fun p => TLStats.addValue p value).
Definition series_addAggregated (cls : series_class) (t : nat) (sum numSamples : Z) : SE (wrapper * state) unit :=
  on_stat (series_getStatSafe cls) t (fun p => TLStats.addValueAggregated p sum numSamples).
(** [TLMinuteOnlyTimeseries]: a series of the thread that no map names. *)
Definition new_TLMinuteOnlyTimeseries (t : nat) (name : string) (types : list ExportType) : SE state nat :=
  vivify >>>
  let* c := getThreadStats t in
  let* levels := on_map (TLStatsMap.levels_of 60 1 kMinuteOnlyDurations) in
  on_local (TLStats.new_timeseries hash gap_stats c name (Some levels) types).

(** [LazyTimeseries]: made by the first addition. *)
Definition lazy_make (cls : series_class) (key : string) (statPrototype : option TS) (types : list ExportType) : SE (option wrapper * state) wrapper :=
  let* s := se_get in
  match s.1 with
  | Some w => se_ret w
  | None => let* w := on_state (new_series cls key statPrototype types) in (fun s => (Ret tt, (Some w, s.2))) >>> se_ret w
  end.
Definition in_lazy {A} (w : wrapper) (f : SE (wrapper * state) A) : SE (option wrapper * state) A := fun s =>
  let '(r, (w', x)) := f (w, s.2) in (r, (Some w', x)).
Definition lazy_add (cls : series_class) (key : string) (statPrototype : option TS) (types : list ExportType) (t : nat) (value : Z)
  : SE (option wrapper * state) unit :=
  let* w := lazy_make cls key statPrototype types in in_lazy w (series_add cls t value).
Definition lazy_addAggregated (cls : series_class) (key : string) (statPrototype : option TS) (types : list ExportType) (t : nat)
  (sum numSamples : Z) : SE (option wrapper * state) unit :=
  let* w := lazy_make cls key statPrototype types in in_lazy w (series_addAggregated cls t sum numSamples).

(** ** Publishing

    The three series of the publisher itself; [publishStats] runs in thread [t] and
    reads the steady clock before and after. *)
Fixpoint aggregate_threads (cs : list nat) (totalAggregateCalls mapsAggregated : Z) : SE state (Z * Z) :=
  match cs with
  | [] => se_ret (totalAggregateCalls, mapsAggregated)
  | c :: cs' =>
      let* n := on_local (TLStats.aggregate gap_flat time_source c) in
      aggregate_threads cs' (wrapu 64 (totalAggregateCalls + Z.of_nat n)) (wrapu 64 (mapsAggregated + 1))
  end.
Record publisher_series := PublisherSeries { publish_time_usec : wrapper; aggregate_call_count : wrapper; tlmaps_aggregated : wrapper }.
Definition publishStats (t : nat) (start stop : Z) : SE (publisher_series * state) unit := fun s =>
  let on_first (f : SE (wrapper * state) unit) : SE (publisher_series * state) unit := fun s =>
    let '(r, (w, x)) := f (publish_time_usec s.1, s.2) in (r, (PublisherSeries w (aggregate_call_count s.1) (tlmaps_aggregated s.1), x)) in
  let on_second (f : SE (wrapper * state) unit) : SE (publisher_series * state) unit := fun s =>
    let '(r, (w, x)) := f (aggregate_call_count s.1, s.2) in (r, (PublisherSeries (publish_time_usec s.1) w (tlmaps_aggregated s.1), x)) in
  let on_third (f : SE (wrapper * state) unit) : SE (publisher_series * state) unit := fun s =>
    let '(r, (w, x)) := f (tlmaps_aggregated s.1, s.2) in (r, (PublisherSeries (publish_time_usec s.1) (aggregate_call_count s.1) w, x)) in
  (let* n := on_state (let* s := se_get in aggregate_threads (map_to_list (threadLocalStats_ s.1)).*2 0 0) in
   on_first (series_add TimeseriesWrapper t (duration_cast 1000000000 1000000 (stop - start))) >>>
   on_second (series_add TimeseriesWrapper t (wraps 64 n.1)) >>>
   on_third (series_add TimeseriesWrapper t (wraps 64 n.2))) s.
Definition zeroStats (t : nat) (start stop : Z) : SE (publisher_series * state) unit :=
  publishStats t start stop >>> on_state (on_service ServiceData.zeroStats).

(** ** Histograms: [internal::HistogramSpec] *)
Inductive spec_arg := StatArg (stat : ExportType) | PercentileArg (pctile : Z) | LevelsArg (levels : TS).
Record histogram_spec := HistogramSpec {
  bucketWidth : Z; s_min : Z; s_max : Z;
  stats : list ExportType;
  percentiles : list Z;
  s_levels : TS
}.
Definition ctorHandleArg (s : histogram_spec) (arg : spec_arg) : histogram_spec :=
  match arg with
  | StatArg stat => HistogramSpec (bucketWidth s) (s_min s) (s_max s) (stats s ++ [stat]) (percentiles s) (s_levels s)
  | PercentileArg pctile => HistogramSpec (bucketWidth s) (s_min s) (s_max s) (stats s) (percentiles s ++ [pctile]) (s_levels s)
  | LevelsArg l => HistogramSpec (bucketWidth s) (s_min s) (s_max s) (stats s) (percentiles s) l
  end.
Definition new_spec (width lo hi : Z) (args : list spec_arg) : outcome histogram_spec :=
  match construct HistogramMinuteTenMinuteHourTimeSeries with
  | Ret l => Ret (foldl ctorHandleArg (HistogramSpec width lo hi [] [] l) args)
  | Throw e => Throw e
  end.
Fixpoint export_stats (key : string) (l : list ExportType) : SE service unit :=
  match l with
  | [] => se_ret tt
  | stat :: l' => ServiceData.exportHistogram hash key (HistogramNames.StatItem stat) >>> export_stats key l'
  end.
Fixpoint export_percentiles (key : string) (l : list Z) : SE service unit :=
  match l with
  | [] => se_ret tt
  | pctile :: l' => ServiceData.exportHistogramPercentile hash key pctile >>> export_percentiles key l'
  end.
Definition apply_spec (s : histogram_spec) (key : string) : SE service unit :=
  let* prototype := ServiceData.lift (th_make (bucketWidth s) (s_min s) (s_max s) (s_levels s)) in
  let* _ := ServiceData.addHistogram hash gap_hists key prototype in
  export_stats key (stats s) >>> export_percentiles key (percentiles s).

(** *** [HistogramWrapper] *)
Record histogram_wrapper := HistogramWrapper {
  once_ : bool;
  h_key_ : string;
  spec_ : option histogram_spec;
  tlHistogram_ : gmap nat shared_ptr
}.
Definition new_histogram_wrapper (key : string) (width lo hi : Z) (args : list spec_arg) : outcome histogram_wrapper :=
  match new_spec width lo hi args with Ret s => Ret (HistogramWrapper false key (Some s) ∅) | Throw e => Throw e end.
(** [MinuteOnlyHistogram] and [SubminuteMinuteOnlyHistogram] add their levels last. *)
Definition with_levels (t : level_table) (args : list spec_arg) : outcome (list spec_arg) :=
  match construct t with Ret l => Ret (args ++ [LevelsArg l]) | Throw e => Throw e end.
Definition put_wrapper {X} (f : X -> X) : SE (X * state) unit := fun s => (Ret tt, (f s.1, s.2)).
(** [std::exchange(spec_, {})->apply(...)] *)
Definition doApplySpecLocked : SE (histogram_wrapper * state) unit :=
  let* s := se_get in
  put_wrapper (fun w => HistogramWrapper (once_ w) (h_key_ w) None (tlHistogram_ w)) >>>
  match spec_ s.1 with
  | Some spec => on_state (on_service (apply_spec spec (h_key_ s.1)))
  | None => se_throw undefined_behaviour
  end.
(** [folly::call_once]: an exception leaves the flag unset. *)
Definition call_once : SE (histogram_wrapper * state) unit :=
  let* s := se_get in
  if once_ s.1 then se_ret tt
  else doApplySpecLocked >>> put_wrapper (fun w => HistogramWrapper true (h_key_ w) (spec_ w) (tlHistogram_ w)).
Definition tcHistogramSlow (t : nat) : SE (histogram_wrapper * state) (option nat) :=
  call_once >>>
  let* s := se_get in
  let* histogram := on_state (let* c := getThreadStats t in on_map (TLStatsMap.getHistogramSafe control_block c (h_key_ s.1))) in
  put_wrapper (fun w => HistogramWrapper (once_ w) (h_key_ w) (spec_ w) (<[t := histogram]> (tlHistogram_ w))) >>>
  se_ret (object histogram).
Definition tcHistogram (t : nat) : SE (histogram_wrapper * state) (option nat) :=
  let* s := se_get in
  match v ← tlHistogram_ s.1 !! t; object v with Some p => se_ret (Some p) | None => tcHistogramSlow t end.
Definition histogram_add (t : nat) (value : Z) : SE (histogram_wrapper * state) unit :=
  let* p := tcHistogram t in
  match p with Some p => on_state (on_local (TLStats.addValue p value)) | None => se_throw undefined_behaviour end.
End Model.
End ThreadCached.
