(* ===== verification/ThreadCachedCorrect.v ===== *)
(** * ThreadCachedCorrect: what the per-thread operations keep

    The invariant of [ThreadCached]'s state - each thread has a map of its own, the
    maps and containers are in order - and the effect of an update through a
    wrapper, whose cached pointers are owners of living, registered stats of the
    wrapper's key. *)
From S2P Require Import Prelude CountedRuns RegexUtil FlatCounters CallbackValuesMap NamedCallbacks TLStatsLockTraits ExportType Timeseries TimeseriesExporter HistogramExporter HistogramNames ExportedStatMap ExportedHistogramMap QuantileStat QuantileStatMap ServiceOptions ServiceData TLStats TLStatsConserve TLStatsRegistered StatPtr TLStatsMap TLStatsMapCorrect TLStatsMapTidy TLStatsMapSteps ThreadCached.
From Stdlib Require Import ZArith Lia Ascii String.
From stdpp Require Import base gmap sets list strings.
Import TLStats TLStatsMap ThreadCached.

Open Scope Z_scope.
Open Scope fb303_scope.

Section Correct.
Context {M : Type} `{RegexMatchCache M} {TS Hg HV : Type} `{FollyHistogram TS Hg HV} `{SimpleHistogram HV}.
Context {E U US Getter Setter W : Type} (hash : string -> Z) `{LockTraits} `{TypedPtr}.
Abbreviation service := (ServiceData.state M TS Hg E U US Getter Setter W).
Abbreviation dynamic_counters := (CallbackValuesMap.cvm (counter_callback U) M).
Context (gap_stats : ExportedStatMap.statmap TS * dynamic_counters -> ExportedStatMap.statmap TS * dynamic_counters).
Context (time_source : nat -> Z) (control_block : nat -> Z) (dont_update_on_read : bool).
Hypothesis low_addresses : forall p, 0 <= control_block p < 2 ^ 59.
Abbreviation local := (tls (HV := HV) * service)%type.
Abbreviation mapstate := (maps * local)%type.
Abbreviation state := (tcd * mapstate)%type.
Abbreviation inv := (TLStatsMapCorrect.inv control_block).
Abbreviation counts := (TLStatsConserve.total).

(** ** What a step adds to the counts *)
Definition adds (ext : nat -> Z) (amount : string -> Z) (s s' : mapstate) : Prop :=
  (forall k, wraps 64 (counts k s'.2) = wraps 64 (counts k s.2 + amount k)) /\ outside_kept ext s s'.
Definition nothing (k : string) : Z := 0.
Definition only (n : string) (a : Z) (k : string) : Z := if bool_decide (n = k) then a else 0.
Lemma adds_same ext s s' : counts_same ext s s' -> adds ext nothing s s'.
Proof. intros [C F]. split; [|done]. intros k. by rewrite C, Z.add_0_r. Qed.
Lemma adds_trans ext f g s1 s2 s3 : adds ext f s1 s2 -> adds ext g s2 s3 -> adds ext (fun k => f k + g k) s1 s3.
Proof.
  intros [C1 F1] [C2 F2]. split; [|by apply (outside_trans ext s1 s2)]. intros k.
  rewrite C2, <- wraps_idemp_add, C1, wraps_idemp_add by lia. f_equal. lia.
Qed.
Lemma adds_ext ext f g s s' : (forall k, f k = g k) -> adds ext f s s' -> adds ext g s s'.
Proof. intros Hf [C F]. split; [|done]. intros k. by rewrite C, Hf. Qed.
Lemma adds_weaken ext ext' f s s' : (forall p, ext' p <= ext p) -> adds ext f s s' -> adds ext' f s s'.
Proof. intros He [C F]. split; [done|]. intros p x Hp. apply F. specialize (He p). lia. Qed.

(** ** The invariant *)
Record tinv (ext : nat -> Z) (s : state) : Prop := {
  ti_maps : inv ext s.2;
  ti_tidy : tidy s.2;
  ti_threads : forall c, is_Some (state_ s.2.1 !! c) <-> exists t, threadLocalStats_ s.1 !! t = Some c;
  ti_own : forall t t' c, threadLocalStats_ s.1 !! t = Some c -> threadLocalStats_ s.1 !! t' = Some c -> t = t'
}.
Definition step {A} (ext : nat -> Z) (amount : string -> Z) (m : SE state A) : Prop := forall s a s',
  tinv ext s -> m s = (Ret a, s') -> tinv ext s' /\ adds ext amount s.2 s'.2.
Lemma step_bind {A B} ext f g (m : SE state A) (k : A -> SE state B) :
  step ext f m -> (forall a, step ext g (k a)) -> step ext (fun n => f n + g n) (se_bind m k).
Proof.
  intros Hm Hk s b s' Hi (a & s1 & E1 & E2)%se_bind_inv. destruct (Hm s a s1 Hi E1) as [Hi1 A1].
  destruct (Hk a s1 b s' Hi1 E2) as [Hi2 A2]. split; [done|]. by apply (adds_trans ext f g s.2 s1.2).
Qed.
Lemma step_ext {A} ext f g (m : SE state A) : (forall k, f k = g k) -> step ext f m -> step ext g m.
Proof. intros Hf Hm s a s' Hi Em. destruct (Hm s a s' Hi Em) as [Hi' Ha]. split; [done|]. by apply (adds_ext ext f g). Qed.
Lemma step_then {A B} ext f (m : SE state A) (k : A -> SE state B) :
  step ext nothing m -> (forall a, step ext f (k a)) -> step ext f (se_bind m k).
Proof. intros Hm Hk. apply (step_ext ext (fun n => nothing n + f n)); [done|]. by apply step_bind. Qed.
Lemma step_ret {A} ext (a : A) : step ext nothing (se_ret a).
Proof. intros s b s' Hi [= _ <-]. split; [done|]. by apply adds_same, counts_same_stats. Qed.
Lemma on_map_inv {A} (f : SE mapstate A) (s s' : state) a : on_map f s = (Ret a, s') -> f s.2 = (Ret a, s'.2) /\ s'.1 = s.1.
Proof. unfold on_map. destruct (f s.2) as [r m]. by intros [= -> <-]. Qed.
(** The invariant holds again when the maps are in order and are the same ones. *)
Lemma tinv_maps ext ext' (s s' : state) : tinv ext s -> s'.1 = s.1 -> inv ext' s'.2 -> tidy s'.2 -> same_maps s.2 s'.2 -> tinv ext' s'.
Proof.
  intros [_ _ Ht Ho] E1 Hi Hy Hs. split; [done|done| |by rewrite E1]. intros c. rewrite (Hs c), (Ht c). by rewrite E1.
Qed.
Lemma step_map {A} ext (f : SE mapstate A) : good_op control_block ext f -> tidy_op f -> step ext nothing (on_map f).
Proof.
  intros Hgood Htidy s a s' Hi (Ef & E1)%on_map_inv. destruct (Hgood s.2 a s'.2 (ti_maps _ _ Hi) Ef) as [Hi' C].
  destruct (Htidy s.2 a s'.2 (ti_tidy _ _ Hi) Ef) as [Hy Hs]. split; [by apply (tinv_maps ext ext s)|by apply adds_same].
Qed.

(** ** The map of a thread *)
Lemma step_getThreadStats ext t : step ext nothing (getThreadStats dont_update_on_read t).
Proof.
  intros s c s' Hi. unfold getThreadStats. intros (s0 & s1 & [= <- <-] & E1)%se_bind_inv.
  destruct (threadLocalStats_ s.1 !! t) as [c'|] eqn:Ht; [injection E1 as -> <-; exact (step_ret ext c s c s Hi eq_refl)|].
  apply se_bind_inv in E1 as (c' & s1 & Em & E2). apply on_map_inv in Em as [Em E1].
  apply se_bind_inv in E2 as ([] & s2 & Ec & [= <- <-]). injection Ec as <-. cbn [fst snd].
  destruct (tidy_make (shouldUpdateGlobalStatOnRead dont_update_on_read) s.2 s1.2 c' (ti_tidy _ _ Hi) Em) as (Hy & Hn & Hs).
  destruct (good_make control_block ext (shouldUpdateGlobalStatOnRead dont_update_on_read) s.2 s1.2 c' (ti_maps _ _ Hi) Hn Em) as [Hi1 C1].
  split; [|by apply adds_same]. split; [done|done| |]; cbn.
  - intros d. rewrite (Hs d), (ti_threads _ _ Hi d). split.
    + intros [->|[t' Hd]]; [exists t; by rewrite lookup_insert_eq|]. exists t'. rewrite E1, lookup_insert_ne; [done|congruence].
    + intros [t' Hd]. rewrite E1, lookup_insert_Some in Hd. destruct Hd as [[_ <-]|[_ Hd]]; [by left|right; by exists t'].
  - intros t1 t2 d. rewrite E1, !lookup_insert_Some.
    assert (Hd : forall u, threadLocalStats_ s.1 !! u = Some c' -> False).
    { intros u Hu. destruct (proj2 (ti_threads _ _ Hi c')) as [? ?]; [by exists u|congruence]. }
    intros [[<- <-]|[_ H1']] [[<- E2]|[_ H2']]; [done|by destruct (Hd t2)|subst; by destruct (Hd t1)|].
    by apply (ti_own _ _ Hi t1 t2 d).
Qed.
Lemma step_in_thread {A} ext t (f : nat -> SE mapstate A) :
  (forall c, good_op control_block ext (f c)) -> (forall c, tidy_op (f c)) ->
  step ext nothing (let* c := getThreadStats dont_update_on_read t in on_map (f c)).
Proof. intros Hgood Htidy. apply step_then; [apply step_getThreadStats|]. intros c. by apply step_map. Qed.
Lemma step_addStatValue ext t k v : step ext nothing (addStatValue hash gap_stats control_block dont_update_on_read t k v).
Proof. apply step_in_thread; intros c; [by apply good_addStatValue|apply tidy_addStatValue]. Qed.
Lemma step_addStatValueAggregated ext t k v n : step ext nothing (addStatValueAggregated hash gap_stats control_block dont_update_on_read t k v n).
Proof. apply step_in_thread; intros c; [by apply good_addStatValueAggregated|apply tidy_addStatValueAggregated]. Qed.
Lemma step_addStatValue_typed ext t k v e : step ext nothing (addStatValue_typed hash gap_stats control_block dont_update_on_read t k v e).
Proof. apply step_in_thread; intros c; [by apply good_addStatValue_typed|apply tidy_addStatValue_typed]. Qed.
Lemma step_clearStat ext t k e : step ext nothing (clearStat hash gap_stats dont_update_on_read t k e).
Proof. apply step_in_thread; intros c; [by apply good_clearStat|apply tidy_clearStat]. Qed.
Lemma step_addHistogramValue ext t k v : step ext nothing (addHistogramValue control_block dont_update_on_read t k v).
Proof. apply step_in_thread; intros c; [by apply good_addHistogramValue|apply tidy_addHistogramValue]. Qed.
Lemma step_incrementCounter ext t k a : step ext (only k a) (incrementCounter control_block dont_update_on_read t k a).
Proof.
  apply step_then; [apply step_getThreadStats|]. intros c s [] s' Hi (Ef & E1)%on_map_inv.
  destruct (incrementCounter_effect control_block low_addresses ext c k a s.2 s'.2 (ti_maps _ _ Hi) Ef) as [Hi' [C F]].
  destruct (tidy_incrementCounter control_block c k a s.2 tt s'.2 (ti_tidy _ _ Hi) Ef) as [Hy Hs].
  split; [by apply (tinv_maps ext ext s)|]. split; [|done]. intros n. apply C.
Qed.
Lemma step_end_thread ext t : step ext nothing (end_thread (fun c => c) time_source t).
Proof.
  intros s [] s' Hi. unfold end_thread. intros (s0 & s1 & [= <- <-] & E1)%se_bind_inv.
  destruct (threadLocalStats_ s.1 !! t) as [c|] eqn:Ht; [|injection E1 as <-; exact (step_ret ext tt s tt s Hi eq_refl)].
  apply se_bind_inv in E1 as ([] & s1 & Ed & E2). injection E2 as <-. apply on_map_inv in Ed as [Ed E1]. cbn [fst snd].
  destruct (good_destroy time_source control_block ext c s.2 tt s1.2 (ti_maps _ _ Hi) Ed) as [Hi1 C1].
  destruct (tidy_destroy time_source c s.2 s1.2 (ti_tidy _ _ Hi) Ed) as [Hy Hs].
  split; [|by apply adds_same]. split; [done|done| |]; cbn.
  - intros d. rewrite (Hs d), (ti_threads _ _ Hi d), E1. split.
    + intros [Hne [u Hu]]. exists u. rewrite lookup_delete_ne; [done|congruence].
    + intros [u [Hne Hu]%lookup_delete_Some]. split; [|by exists u]. intros ->. by apply Hne, (ti_own _ _ Hi t u c).
  - intros u u' d. rewrite E1, !lookup_delete_Some. intros [_ Hu] [_ Hu']. by apply (ti_own _ _ Hi u u' d).
Qed.

(** ** Wrappers

    A wrapper owns what it caches. *)
Definition owns (v : shared_ptr) (p : nat) : Z := if bool_decide (object v = Some p) then 1 else 0.
Definition shares (w : wrapper) (p : nat) : Z := map_sum (fun v => owns v p) (tlStat_ w).
Definition with_shares (w : wrapper) (ext : nat -> Z) (p : nat) : Z := ext p + shares w p.
Definition cached_ok (w : wrapper) (s : mapstate) : Prop := forall t v p, tlStat_ w !! t = Some v -> object v = Some p ->
  exists x, TLStats.stats s.2.1 !! p = Some x /\ isLinked x = true /\ name x = key_ w.
Lemma owns_nonneg v p : 0 <= owns v p.
Proof. unfold owns. by case_bool_decide. Qed.
Lemma shares_nonneg w p : 0 <= shares w p.
Proof. apply map_sum_nonneg. intros t v _. apply owns_nonneg. Qed.
Lemma shares_cached w t v p : tlStat_ w !! t = Some v -> object v = Some p -> 1 <= shares w p.
Proof.
  intros Ht Hv. assert (Ho : owns v p = 1) by (unfold owns; by rewrite bool_decide_eq_true_2).
  rewrite <- Ho. apply (map_sum_at_least (fun v => owns v p) _ t v Ht). intros u v' _. apply owns_nonneg.
Qed.
Lemma shares_put w t v p : getTcStatUnsafe t w = None -> shares (StatWrapper (key_ w) (<[t := v]> (tlStat_ w))) p = shares w p + owns v p.
Proof.
  intros Hn. unfold shares, getTcStatUnsafe in *. cbn. destruct (tlStat_ w !! t) as [v0|] eqn:Ht; cbn in Hn.
  - rewrite (map_sum_update _ _ _ _ _ Ht). unfold owns at 2. rewrite Hn, bool_decide_eq_false_2 by done. lia.
  - rewrite map_sum_insert by done. lia.
Qed.
Lemma shares_delete w t v p : tlStat_ w !! t = Some v -> shares (StatWrapper (key_ w) (delete t (tlStat_ w))) p = shares w p - owns v p.
Proof. intros Ht. unfold shares. cbn. by rewrite (map_sum_delete _ _ _ _ Ht). Qed.
Lemma cached_kept w ext s s' : cached_ok w s -> outside_kept ext s s' -> (forall p, shares w p <= ext p) -> cached_ok w s'.
Proof.
  intros Hok F He t v p Ht Hv. destruct (Hok t v p Ht Hv) as (x & Hx & Hl & Hn).
  destruct (F p x) as (x' & Hx' & L & N); [pose proof (shares_cached w t v p Ht Hv); specialize (He p); lia|done|].
  exists x'. split; [done|]. split; [congruence|]. rewrite <- Hn. unfold name. by rewrite N.
Qed.
Lemma tinv_same ext ext' s : tinv ext s -> (forall p, ext' p = ext p) -> tinv ext' s.
Proof.
  intros Hi He. split; try apply Hi. apply (inv_weaken control_block ext); [apply Hi|]. intros p. rewrite He.
  pose proof (i_ext _ _ _ (ti_maps _ _ Hi) p). lia.
Qed.

(** What a wrapper gets from the maps, and what it does to a stat. *)
Definition provides (getStatSafe : nat -> string -> SE state shared_ptr) : Prop := forall ext t key s v s',
  tinv ext s -> getStatSafe t key s = (Ret v, s') ->
  tinv (TLStatsMapCorrect.plus v ext) s' /\ adds ext nothing s.2 s'.2 /\
  (forall p, object v = Some p -> exists x, TLStats.stats s'.2.2.1 !! p = Some x /\ isLinked x = true /\ name x = key).
Definition updates (amount : string -> string -> Z) (f : nat -> SE local unit) : Prop := forall ext p x s s',
  inv ext s -> TLStats.stats s.2.1 !! p = Some x -> isLinked x = true -> TLStatsMap.on_local (f p) s = (Ret tt, s') ->
  inv ext s' /\ adds ext (amount (name x)) s s'.
Definition untouched (key : string) : string -> Z := nothing.
Definition wstep (amount : string -> string -> Z) (m : SE (wrapper * state) unit) : Prop := forall ext w s w' s',
  (forall p, 0 <= ext p) -> tinv (with_shares w ext) s -> cached_ok w s.2 -> m (w, s) = (Ret tt, (w', s')) ->
  tinv (with_shares w' ext) s' /\ cached_ok w' s'.2 /\ key_ w' = key_ w /\ adds ext (amount (key_ w)) s.2 s'.2.

Lemma provides_in_thread (f : nat -> string -> SE mapstate shared_ptr) :
  (forall ext c n, gives control_block ext n (f c n)) -> (forall c n, tidy_op (f c n)) ->
  provides (fun t key => let* c := getThreadStats dont_update_on_read t in on_map (f c key)).
Proof.
  intros Hgives Htidy ext t key s v s' Hi (c & s1 & E1 & E2)%se_bind_inv.
  destruct (step_getThreadStats ext t s c s1 Hi E1) as [Hi1 A1]. apply on_map_inv in E2 as [Ef E2].
  destruct (Hgives ext c key s1.2 v s'.2 (ti_maps _ _ Hi1) Ef) as (Hi2 & C2 & Hx).
  destruct (Htidy c key s1.2 v s'.2 (ti_tidy _ _ Hi1) Ef) as [Hy Hs]. split; [by apply (tinv_maps ext _ s1)|]. split; [|done].
  apply (adds_ext ext (fun n => nothing n + nothing n)); [done|]. apply (adds_trans ext _ _ s.2 s1.2); [done|by apply adds_same].
Qed.
Lemma updates_quiet f : (forall p, quiet (f p)) -> updates untouched f.
Proof.
  intros Hf ext p x s s' Hi _ _ Ef. destruct (good_quiet control_block ext (f p) (Hf p) s tt s' Hi Ef) as [Hi' C].
  split; [done|]. by apply adds_same.
Qed.
Lemma updates_increment a : updates (fun key => only key a) (fun p => TLStats.incrementValue p a).
Proof. intros ext p x s s' Hi Hx Hl Ef. exact (increment_entry control_block ext p x a s s' Hi Hx Hl Ef). Qed.

Lemma tcStat_effect getStatSafe t ext w s w' s' r :
  provides getStatSafe -> (forall p, 0 <= ext p) -> tinv (with_shares w ext) s -> cached_ok w s.2 ->
  tcStat getStatSafe t (w, s) = (Ret r, (w', s')) ->
  tinv (with_shares w' ext) s' /\ cached_ok w' s'.2 /\ key_ w' = key_ w /\ adds ext nothing s.2 s'.2 /\
  (forall p, r = Some p -> exists x, TLStats.stats s'.2.2.1 !! p = Some x /\ isLinked x = true /\ name x = key_ w).
Proof.
  intros Hget Hext Hi Hok. unfold tcStat. intros (x0 & s1 & [= <- <-] & E1)%se_bind_inv. cbn [fst] in E1.
  destruct (getTcStatUnsafe t w) as [p|] eqn:Hc.
  { injection E1 as <- <- <-. split; [done|]. split; [done|]. split; [done|]. split; [by apply adds_same, counts_same_stats|].
    intros q [= <-]. unfold getTcStatUnsafe in Hc. destruct (tlStat_ w !! t) as [v|] eqn:Ht; [|done]. by apply (Hok t v). }
  apply se_bind_inv in E1 as (x1 & s1 & [= <- <-] & E1). apply se_bind_inv in E1 as (v & [w1 s2] & Eg & E2).
  unfold on_state in Eg. cbn in Eg. destruct (getStatSafe t (key_ w) s) as [r0 s3] eqn:Es. injection Eg as -> <- <-.
  apply se_bind_inv in E2 as ([] & s4 & [= <-] & [= <- <- <-]). cbn [fst snd].
  destruct (Hget _ t (key_ w) s v s3 Hi Es) as (Hi3 & A3 & Hx3).
  assert (Hw : forall p, with_shares w ext p <= TLStatsMapCorrect.plus v (with_shares w ext) p).
  { intros p. unfold TLStatsMapCorrect.plus. case_bool_decide; lia. }
  split; [|split; [|split; [done|split; [|done]]]].
  - apply (tinv_same (TLStatsMapCorrect.plus v (with_shares w ext))); [done|]. intros p. unfold with_shares, TLStatsMapCorrect.plus.
    rewrite (shares_put w t v p Hc). unfold owns. lia.
  - intros u v' p. cbn. rewrite lookup_insert_Some. intros [[_ <-]|[_ Hu]]; [apply Hx3|].
    apply (cached_kept w (with_shares w ext) s.2 s3.2 Hok (proj2 A3)) with (t := u) (v := v'); [|done].
    intros q. unfold with_shares. specialize (Hext q). lia.
  - apply (adds_weaken (with_shares w ext)); [|done]. intros q. unfold with_shares. pose proof (shares_nonneg w q). lia.
Qed.
Lemma on_stat_step getStatSafe t amount f :
  provides getStatSafe -> updates amount f -> (forall p, orderly (f p)) -> wstep amount (on_stat getStatSafe t f).
Proof.
  intros Hget Hup Ho ext w s w' s' Hext Hi Hok (r & [w1 s1] & E1 & E2)%se_bind_inv.
  destruct (tcStat_effect getStatSafe t ext w s w1 s1 r Hget Hext Hi Hok E1) as (Hi1 & Hok1 & K1 & A1 & Hr).
  destruct r as [p|]; [|done]. destruct (Hr p eq_refl) as (x & Hx & Hl & Hn). unfold on_state, ThreadCached.on_local in E2. cbn [fst snd] in E2.
  destruct (on_map (TLStatsMap.on_local (f p)) s1) as [r2 s2] eqn:Ef. injection E2 as -> <- <-. apply on_map_inv in Ef as [Ef E2].
  destruct (Hup _ p x s1.2 s2.2 (ti_maps _ _ Hi1) Hx Hl Ef) as [Hi2 A2].
  destruct (tidy_local (f p) (Ho p) s1.2 tt s2.2 (ti_tidy _ _ Hi1) Ef) as [Hy Hs].
  split; [by apply (tinv_maps (with_shares w1 ext) _ s1)|]. split; [|split; [done|]].
  - apply (cached_kept w1 (with_shares w1 ext) s1.2 s2.2 Hok1 (proj2 A2)). intros q. unfold with_shares. specialize (Hext q). lia.
  - apply (adds_ext ext (fun n => nothing n + amount (name x) n)); [intros n; by rewrite Hn|].
    apply (adds_trans ext _ _ s.2 s1.2); [done|]. apply (adds_weaken (with_shares w1 ext)); [|done].
    intros q. unfold with_shares. pose proof (shares_nonneg w1 q). lia.
Qed.
Lemma end_wrapper_step t : wstep untouched (end_wrapper (fun c => c) time_source t).
Proof.
  intros ext w s w' s' Hext Hi Hok. unfold end_wrapper. intros (x0 & s0 & [= <- <-] & E1)%se_bind_inv. cbn [fst] in E1.
  destruct (tlStat_ w !! t) as [v|] eqn:Ht.
  2: { injection E1 as <- <-. split; [done|]. split; [done|]. split; [done|]. by apply adds_same, counts_same_stats. }
  apply se_bind_inv in E1 as ([] & s1 & [= <-] & E2). unfold on_state in E2. cbn [fst snd] in E2.
  destruct (on_map (TLStatsMap.release (fun c => c) time_source v) s) as [r2 s2] eqn:Er. injection E2 as -> <- <-. apply on_map_inv in Er as [Er E2].
  set (w' := StatWrapper (key_ w) (delete t (tlStat_ w))) in *.
  assert (Hn : forall p, 0 <= with_shares w' ext p) by (intros p; unfold with_shares; pose proof (shares_nonneg w' p); specialize (Hext p); lia).
  assert (Hp : forall p, TLStatsMapCorrect.plus v (with_shares w' ext) p = with_shares w ext p).
  { intros p. unfold TLStatsMapCorrect.plus, with_shares, w'. rewrite (shares_delete w t v p Ht). unfold owns. lia. }
  destruct (release_effect time_source control_block (with_shares w' ext) v s.2 s2.2) as (Hi2 & C2 & S2);
    [apply (ti_maps _ _ (tinv_same _ _ _ Hi Hp))|done|done|].
  destruct (tidy_release time_source v s.2 tt s2.2 (ti_tidy _ _ Hi) Er) as [Hy Hs].
  split; [by apply (tinv_maps (with_shares w ext) _ s)|]. split; [|split; [done|]].
  - apply (cached_kept w' (with_shares w' ext) s.2 s2.2); [|apply C2|].
    + intros u v1 p1 Hu. cbn in Hu. apply lookup_delete_Some in Hu as [_ Hu]. exact (Hok u v1 p1 Hu).
    + intros q. unfold with_shares. specialize (Hext q). lia.
  - apply (adds_weaken (with_shares w' ext)); [|by apply adds_same]. intros q. unfold with_shares. pose proof (shares_nonneg w' q). lia.
Qed.
End Correct.
