(* ===== verification/ThreadCachedTheorems.v ===== *)
(** * ThreadCachedTheorems: threads, wrappers and the publisher together

    Runs of updates by name and through wrappers, from any threads, with threads
    ending and the publisher publishing at any point. *)
From S2P Require Import Prelude CountedRuns RegexUtil FlatCounters CallbackValuesMap NamedCallbacks TLStatsLockTraits ExportType Timeseries TimeseriesExporter HistogramExporter HistogramNames ExportedStatMap ExportedHistogramMap QuantileStat QuantileStatMap ServiceOptions ServiceData TLStats TLStatsConserve TLStatsRegistered TLStatsCounts StatPtr TLStatsMap TLStatsMapCorrect TLStatsMapTidy TLStatsMapSteps ThreadCached ThreadCachedCorrect.
From Stdlib Require Import ZArith Lia Ascii String.
From stdpp Require Import base gmap sets list strings.
Import TLStats TLStatsMap ThreadCached.

Open Scope Z_scope.
Open Scope fb303_scope.

Section Runs.
Context {M : Type} `{RegexMatchCache M} {TS Hg HV : Type} `{FollyHistogram TS Hg HV} `{SimpleHistogram HV}.
Context {E U US Getter Setter W : Type} (hash : string -> Z) `{LockTraits} `{TypedPtr}.
Abbreviation service := (ServiceData.state M TS Hg E U US Getter Setter W).
Abbreviation dynamic_counters := (CallbackValuesMap.cvm (counter_callback U) M).
Context (gap_stats : ExportedStatMap.statmap TS * dynamic_counters -> ExportedStatMap.statmap TS * dynamic_counters).
Context (time_source : nat -> Z) (control_block : nat -> Z) (dont_update_on_read : bool).
Hypothesis low_addresses : forall p, 0 <= control_block p < 2 ^ 59.
Abbreviation local := (tls (HV := HV) * service)%type.
Abbreviation mapstate := (maps * local)%type.
Abbreviation state := (tcd * mapstate)%type.
Abbreviation tinv := (ThreadCachedCorrect.tinv control_block).
Abbreviation step := (ThreadCachedCorrect.step control_block).
Abbreviation wstep := (ThreadCachedCorrect.wstep control_block).
Abbreviation aggregate_threads := (ThreadCached.aggregate_threads (fun c => c) time_source).
Abbreviation publishStats := (ThreadCached.publishStats hash (fun c => c) gap_stats time_source control_block dont_update_on_read).
Abbreviation series_add := (ThreadCached.series_add (Hg := Hg) (HV := HV) (E := E) (U := U) (US := US) (Getter := Getter) (Setter := Setter) (W := W) hash gap_stats control_block dont_update_on_read).
Abbreviation series_addAggregated := (ThreadCached.series_addAggregated (Hg := Hg) (HV := HV) (E := E) (U := U) (US := US) (Getter := Getter) (Setter := Setter) (W := W) hash gap_stats control_block dont_update_on_read).
Abbreviation counter_incrementValue := (ThreadCached.counter_incrementValue control_block dont_update_on_read).

(** ** All wrappers of a program *)
Fixpoint sum_shares (l : list wrapper) (p : nat) : Z := match l with [] => 0 | w :: l' => shares w p + sum_shares l' p end.
Definition winv (l : list wrapper) (s : state) : Prop := tinv (sum_shares l) s /\ Forall (fun w => cached_ok w s.2) l.
Lemma sum_shares_nonneg l p : 0 <= sum_shares l p.
Proof. induction l as [|w l IH]; [done|]. cbn. pose proof (shares_nonneg w p). lia. Qed.
Lemma winv_perm l l' s : l ≡ₚ l' -> winv l s -> winv l' s.
Proof.
  intros Hp [Hi Hok]. split; [|by rewrite <- Hp]. apply (tinv_same control_block (sum_shares l)); [done|]. intros p.
  clear Hi Hok. induction Hp; cbn; lia.
Qed.
Lemma others_ok l ext (s s' : mapstate) : Forall (fun w => cached_ok w s) l -> outside_kept ext s s' -> (forall p, sum_shares l p <= ext p) ->
  Forall (fun w => cached_ok w s') l.
Proof.
  intros Hl F He. induction l as [|w l IH]; [done|]. apply Forall_cons_1 in Hl as [Hw Hl]. apply Forall_cons_2.
  - apply (cached_kept w ext s s' Hw F). intros p. specialize (He p). cbn in He. pose proof (sum_shares_nonneg l p). lia.
  - apply IH; [done|]. intros p. specialize (He p). cbn in He. pose proof (shares_nonneg w p). lia.
Qed.
(** Work through one wrapper, and work that uses none. *)
Lemma focus amount m w l s w' s' : wstep amount m -> winv (w :: l) s -> m (w, s) = (Ret tt, (w', s')) ->
  winv (w' :: l) s' /\ key_ w' = key_ w /\ adds (sum_shares l) (amount (key_ w)) s.2 s'.2.
Proof.
  intros Hm [Hi [Hw Hl]%Forall_cons_1] Em.
  destruct (Hm (sum_shares l) w s w' s') as (Hi' & Hw' & Hk & Ha); [intros p; apply sum_shares_nonneg| |done|done|].
  { apply (tinv_same control_block (sum_shares (w :: l))); [done|]. intros p. unfold with_shares. cbn. lia. }
  split; [|done]. split.
  - apply (tinv_same control_block (with_shares w' (sum_shares l))); [done|]. intros p. unfold with_shares. cbn. lia.
  - apply Forall_cons_2; [done|]. by apply (others_ok l (sum_shares l) s.2 s'.2 Hl (proj2 Ha)).
Qed.
Lemma unfocused {A} amount (m : SE state A) l s a s' : step (sum_shares l) amount m -> winv l s -> m s = (Ret a, s') ->
  winv l s' /\ adds (sum_shares l) amount s.2 s'.2.
Proof.
  intros Hm [Hi Hl] Em. destruct (Hm s a s' Hi Em) as [Hi' Ha]. split; [|done]. split; [done|].
  by apply (others_ok l (sum_shares l) s.2 s'.2 Hl (proj2 Ha)).
Qed.

(** ** Wrappers of time series *)
Lemma provides_counter : provides control_block (counter_getStatSafe control_block dont_update_on_read : nat -> string -> SE state shared_ptr).
Proof. apply provides_in_thread; intros; [by apply gives_getCounterSafe|apply tidy_getCounterSafe]. Qed.
Lemma provides_series cls : provides control_block (series_getStatSafe hash gap_stats control_block dont_update_on_read cls : nat -> string -> SE state shared_ptr).
Proof.
  destruct cls as [template [[[b n] ds]|] u].
  - apply (provides_in_thread control_block dont_update_on_read
             (fun c key => getTimeseriesSafe_levels hash gap_stats control_block c key b n ds));
      intros; [by apply gives_getTimeseriesSafe_levels|apply tidy_getTimeseriesSafe_levels].
  - apply (provides_in_thread control_block dont_update_on_read (fun c key => getTimeseriesSafe hash gap_stats control_block c key));
      intros; [by apply gives_getTimeseriesSafe|apply tidy_getTimeseriesSafe].
Qed.
Lemma counter_step t a : wstep (fun key => only key a) (counter_incrementValue t a : SE (wrapper * state) unit).
Proof. apply on_stat_step; [apply provides_counter|apply updates_increment|intros p; apply orderly_incrementValue]. Qed.
Lemma series_step cls t v : wstep untouched (series_add cls t v).
Proof. apply on_stat_step; [apply provides_series|apply updates_quiet; intros p; apply quiet_addValue|intros p; apply orderly_addValue]. Qed.
Lemma aggregated_step cls t v n : wstep untouched (series_addAggregated cls t v n).
Proof. apply on_stat_step; [apply provides_series|apply updates_quiet; intros p; apply quiet_addValueAggregated|intros p; apply orderly_addValueAggregated]. Qed.

(** ** Publishing *)
Lemma step_aggregate_threads ext cs a b : step ext nothing (aggregate_threads cs a b : SE state (Z * Z)).
Proof.
  revert a b. induction cs as [|c cs IH]; intros a b; [apply step_ret|]. apply step_then; [|intros n; apply IH].
  apply step_map; [apply good_quiet, quiet_aggregate|apply tidy_local, orderly_aggregate].
Qed.
Definition publisher_wrappers (ps : publisher_series) : list wrapper := [publish_time_usec ps; aggregate_call_count ps; tlmaps_aggregated ps].
Lemma publish_step ps l t start stop s ps' s' :
  winv (publisher_wrappers ps ++ l) s -> publishStats t start stop (ps, s) = (Ret tt, (ps', s')) ->
  winv (publisher_wrappers ps' ++ l) s' /\ (forall k, wraps 64 (TLStatsConserve.total k s'.2.2) = wraps 64 (TLStatsConserve.total k s.2.2)).
Proof.
  destruct ps as [w1 w2 w3]. intros Hi. unfold ThreadCached.publishStats.
  intros (n & [ps1 s1] & E1 & ([] & [ps2 s2] & E2 & ([] & [ps3 s3] & E3 & E4)%se_bind_inv)%se_bind_inv)%se_bind_inv.
  assert (Hagg : ps1 = PublisherSeries w1 w2 w3 /\ winv (w1 :: w2 :: w3 :: l) s1 /\ adds (sum_shares (w1 :: w2 :: w3 :: l)) nothing s.2 s1.2).
  { unfold ThreadCached.on_state in E1. cbn [fst snd] in E1.
    match type of E1 with (let '(_, _) := ?m s in _) = _ => destruct (m s) as [r x] eqn:Em end. injection E1 as -> <- <-.
    split; [done|]. apply se_bind_inv in Em as (s0 & s0' & [= <- <-] & Em).
    by apply (unfocused nothing _ _ s n x (step_aggregate_threads _ _ 0 0) Hi Em). }
  destruct Hagg as (-> & Hi1 & A1). cbn [fst snd publish_time_usec aggregate_call_count tlmaps_aggregated] in E2.
  destruct (series_add _ t _ (w1, s1)) as [r1 [w1' x1]] eqn:F1 in E2. injection E2 as -> <- <-.
  destruct (focus _ _ _ _ _ _ _ (series_step _ _ _) Hi1 F1) as (Hi2 & _ & A2).
  cbn [fst snd publish_time_usec aggregate_call_count tlmaps_aggregated] in E3.
  destruct (series_add _ t _ (w2, x1)) as [r2 [w2' x2]] eqn:F2 in E3. injection E3 as -> <- <-.
  apply (winv_perm _ (w2 :: w1' :: w3 :: l)) in Hi2; [|apply perm_swap].
  destruct (focus _ _ _ _ _ _ _ (series_step _ _ _) Hi2 F2) as (Hi3 & _ & A3).
  cbn [fst snd publish_time_usec aggregate_call_count tlmaps_aggregated] in E4.
  destruct (series_add _ t _ (w3, x2)) as [r3 [w3' x3]] eqn:F3 in E4. injection E4 as -> <- <-.
  apply (winv_perm _ (w3 :: w2' :: w1' :: l)) in Hi3; [|etrans; [apply perm_skip, perm_swap|apply perm_swap]].
  destruct (focus _ _ _ _ _ _ _ (series_step _ _ _) Hi3 F3) as (Hi4 & _ & A4). split.
  - apply (winv_perm (w3' :: w2' :: w1' :: l)); [|done].
    etrans; [apply perm_swap|]. etrans; [apply perm_skip, perm_swap|apply perm_swap].
  - intros k. destruct A1 as [A1 _], A2 as [A2 _], A3 as [A3 _], A4 as [A4 _]. unfold untouched, nothing in *.
    rewrite A4, Z.add_0_r, A3, Z.add_0_r, A2, Z.add_0_r, A1, Z.add_0_r. done.
Qed.

(** ** Operations

    [system]: the wrappers of the program, those of the publisher, and the state. *)
Abbreviation system := ((gmap nat wrapper * publisher_series) * state)%type.
Inductive op :=
  | UIncrement (t : nat) (key : string) (amount : Z) | UAddStat (t : nat) (key : string) (value : Z)
  | UAddAggregated (t : nat) (key : string) (sum numSamples : Z) | UAddTyped (t : nat) (key : string) (value : Z) (type : ExportType)
  | UClearStat (t : nat) (key : string) (type : ExportType) | UAddHistogram (t : nat) (key : string) (value : Z)
  | NewWrapper (i : nat) (key : string)
  | WIncrement (i t : nat) (amount : Z) | WAdd (i : nat) (cls : series_class) (t : nat) (value : Z)
  | WAddAggregated (i : nat) (cls : series_class) (t : nat) (sum numSamples : Z) | WThreadEnds (i t : nat)
  | ThreadEnds (t : nat) | Publish (t : nat) (start stop : Z).
Definition through (i : nat) (m : SE (wrapper * state) unit) : SE system unit := fun s =>
  match s.1.1 !! i with
  | Some w => let '(r, (w', x)) := m (w, s.2) in (r, ((<[i := w']> s.1.1, s.1.2), x))
  | None => (Throw undefined_behaviour, s)
  end.
Definition directly (m : SE state unit) : SE system unit := fun s => let '(r, x) := m s.2 in (r, (s.1, x)).
Definition exec (o : op) : SE system unit :=
  match o with
  | UIncrement t k a => directly (ThreadCached.incrementCounter control_block dont_update_on_read t k a)
  | UAddStat t k v => directly (ThreadCached.addStatValue hash gap_stats control_block dont_update_on_read t k v)
  | UAddAggregated t k v n => directly (ThreadCached.addStatValueAggregated hash gap_stats control_block dont_update_on_read t k v n)
  | UAddTyped t k v e => directly (ThreadCached.addStatValue_typed hash gap_stats control_block dont_update_on_read t k v e)
  | UClearStat t k e => directly (ThreadCached.clearStat hash gap_stats dont_update_on_read t k e)
  | UAddHistogram t k v => directly (ThreadCached.addHistogramValue control_block dont_update_on_read t k v)
  | NewWrapper i k => fun s => (Ret tt, ((<[i := new_wrapper k]> s.1.1, s.1.2), s.2))
  | WIncrement i t a => through i (counter_incrementValue t a)
  | WAdd i cls t v => through i (series_add cls t v)
  | WAddAggregated i cls t v n => through i (series_addAggregated cls t v n)
  | WThreadEnds i t => through i (end_wrapper (fun c => c) time_source t)
  | ThreadEnds t => directly (end_thread (fun c => c) time_source t)
  | Publish t start stop => fun s =>
      let '(r, (ps, x)) := publishStats t start stop (s.1.2, s.2) in (r, ((s.1.1, ps), x))
  end.
(** A wrapper is made once. *)
Definition good (o : op) (s : system) : bool :=
  match o with NewWrapper i _ => match s.1.1 !! i with None => true | Some _ => false end | _ => true end.
Definition count (k : string) (o : op) (s : system) : Z :=
  match o with
  | UIncrement _ key a => only key a k
  | WIncrement i _ a => match s.1.1 !! i with Some w => only (key_ w) a k | None => 0 end
  | _ => 0
  end.

Definition all_wrappers (s : system) : list wrapper := publisher_wrappers s.1.2 ++ (map_to_list s.1.1).*2.
Definition sinv (s : system) : Prop := winv (all_wrappers s) s.2.
Lemma wrappers_put i w (ws : gmap nat wrapper) ps : ws !! i = None ->
  publisher_wrappers ps ++ (map_to_list (<[i := w]> ws)).*2 ≡ₚ w :: (publisher_wrappers ps ++ (map_to_list ws).*2).
Proof. intros Hi. rewrite (map_to_list_insert _ _ _ Hi). cbn [fmap list_fmap]. by rewrite Permutation_middle. Qed.
Lemma through_effect amount i m s s' : wstep amount m -> sinv s -> through i m s = (Ret tt, s') ->
  exists w, s.1.1 !! i = Some w /\ sinv s' /\
    (forall k, wraps 64 (TLStatsConserve.total k s'.2.2.2) = wraps 64 (TLStatsConserve.total k s.2.2.2 + amount (key_ w) k)).
Proof.
  destruct s as [[ws ps] x]. intros Hm Hi. unfold through. cbn [fst snd]. destruct (ws !! i) as [w|] eqn:Hw; [|done].
  destruct (m (w, x)) as [r [w' x']] eqn:Em. intros [= -> <-]. exists w. split; [done|]. cbn [fst snd].
  assert (Hd : delete i ws !! i = None) by apply lookup_delete_eq.
  unfold sinv, all_wrappers in *. cbn [fst snd] in *.
  apply (winv_perm _ (w :: (publisher_wrappers ps ++ (map_to_list (delete i ws)).*2))) in Hi.
  2: { rewrite <- (wrappers_put i w _ ps Hd), insert_delete_id; done. }
  destruct (focus amount m w _ x w' x' Hm Hi Em) as (Hi' & _ & [Ha _]). split; [|done].
  eapply winv_perm; [|exact Hi']. rewrite <- (wrappers_put i w' _ ps Hd), insert_delete_eq. done.
Qed.
Lemma directly_effect amount m s s' : (forall ext, step ext amount m) -> sinv s -> directly m s = (Ret tt, s') ->
  sinv s' /\ (forall k, wraps 64 (TLStatsConserve.total k s'.2.2.2) = wraps 64 (TLStatsConserve.total k s.2.2.2 + amount k)).
Proof.
  intros Hm Hi. unfold directly. destruct (m s.2) as [r x] eqn:Em. intros [= -> <-].
  destruct (unfocused amount m _ s.2 tt x (Hm _) Hi Em) as [Hi' [Ha _]]. done.
Qed.
Lemma exec_effect o s s' : sinv s -> good o s = true -> exec o s = (Ret tt, s') ->
  sinv s' /\ (forall k, wraps 64 (TLStatsConserve.total k s'.2.2.2) = wraps 64 (TLStatsConserve.total k s.2.2.2 + count k o s)).
Proof.
  intros Hi Hgood He.
  assert (Hd : forall m, (forall ext, step ext nothing m) -> directly m s = (Ret tt, s') -> sinv s' /\
    (forall k, wraps 64 (TLStatsConserve.total k s'.2.2.2) = wraps 64 (TLStatsConserve.total k s.2.2.2 + 0))).
  { intros m Hm Em. by apply (directly_effect nothing m). }
  assert (Ht : forall i m, wstep untouched m -> through i m s = (Ret tt, s') -> sinv s' /\
    (forall k, wraps 64 (TLStatsConserve.total k s'.2.2.2) = wraps 64 (TLStatsConserve.total k s.2.2.2 + 0))).
  { intros i m Hm Em. destruct (through_effect untouched i m s s' Hm Hi Em) as (w & _ & ? & ?). done. }
  destruct o as [t key a|t key v|t key v n|t key v e|t key e|t key v|i key|i t a|i cls t v|i cls t v n|i t|t|t start stop];
    cbn [exec count] in He |- *.
  - eapply (directly_effect (only key a)); [|done|exact He]. intros ext. by apply step_incrementCounter.
  - eapply Hd; [|exact He]. intros. by apply step_addStatValue.
  - eapply Hd; [|exact He]. intros. by apply step_addStatValueAggregated.
  - eapply Hd; [|exact He]. intros. by apply step_addStatValue_typed.
  - eapply Hd; [|exact He]. intros. by apply step_clearStat.
  - eapply Hd; [|exact He]. intros. by apply step_addHistogramValue.
  - injection He as <-. split; [|intros k; by rewrite Z.add_0_r]. destruct s as [[ws ps] x]. cbn [good fst snd] in *.
    destruct (ws !! i) eqn:Hw; [done|]. unfold sinv, all_wrappers in *. cbn [fst snd] in *.
    eapply winv_perm; [symmetry; by apply wrappers_put|]. destruct Hi as [Hi Hok]. split.
    + apply (tinv_same control_block (sum_shares (publisher_wrappers ps ++ (map_to_list ws).*2))); [done|]. intros p. cbn [sum_shares].
      unfold shares at 1. cbn [tlStat_ new_wrapper]. by rewrite map_sum_empty.
    + apply Forall_cons_2; [|done]. by intros u v p.
  - destruct (through_effect (fun key => only key a) i _ s s' (counter_step t a) Hi He) as (w & -> & ? & ?). done.
  - exact (Ht i _ (series_step cls t v) He).
  - exact (Ht i _ (aggregated_step cls t v n) He).
  - exact (Ht i _ (end_wrapper_step time_source control_block t) He).
  - eapply Hd; [|exact He]. intros. apply step_end_thread.
  - destruct s as [[ws ps] x]. cbn [fst snd] in He. destruct (publishStats t start stop (ps, x)) as [r [ps' x']] eqn:Ep. injection He as -> <-.
    destruct (publish_step ps _ t start stop x ps' x' Hi Ep) as [Hi' Ha]. split; [done|]. intros k. rewrite Z.add_0_r. exact (Ha k).
Qed.
Abbreviation runs k := (CountedRuns.runs exec good (count k)).
Lemma runs_effect k s l n s' : runs k s l n s' -> sinv s ->
  sinv s' /\ wraps 64 (TLStatsConserve.total k s'.2.2.2) = wraps 64 (TLStatsConserve.total k s.2.2.2 + n).
Proof.
  induction 1 as [s|s o s1 l n s' Hgood He Hr IH]; intros Hi; [split; [done|f_equal; lia]|].
  destruct (exec_effect o s s1 Hi Hgood He) as [Hi1 Ht1]. destruct (IH Hi1) as [Hi' ->]. split; [done|].
  rewrite <- wraps_idemp_add, Ht1, wraps_idemp_add by lia. f_equal. lia.
Qed.

(** ** The publisher's loop drains every map *)
Lemma aggregate_threads_drains ext cs a b (s : state) n (s' : state) :
  tinv ext s -> (forall c, c ∈ cs -> alive_at c s.2.2) -> aggregate_threads cs a b s = (Ret n, s') ->
  (forall c, c ∈ cs -> drained c s'.2.2) /\ (forall c, drained c s.2.2 -> drained c s'.2.2).
Proof.
  revert a b s. induction cs as [|c cs IH]; intros a b s Hi Hl; [intros [= _ <-]; split; [by intros c ?%elem_of_nil|done]|].
  intros (m & s1 & E1 & E2)%se_bind_inv.
  destruct (step_map control_block ext _ (good_quiet control_block ext _ (quiet_aggregate time_source c)) (tidy_local _ (orderly_aggregate time_source c)) s m s1 Hi E1) as [Hi1 _].
  apply on_map_inv in E1 as [E1 T1]. destruct (tidy_local _ (orderly_aggregate time_source c) s.2 m s1.2 (ti_tidy _ _ _ Hi) E1) as [_ S1].
  apply on_local_inv in E1 as [E1 _].
  destruct (aggregate_drains time_source c s.2.2 s1.2.2 m (i_local _ _ _ (ti_maps _ _ _ Hi)) (t_registered _ (ti_tidy _ _ _ Hi)) (Hl c ltac:(by left)) E1) as [Hc Ho].
  destruct (IH (wrapu 64 (a + Z.of_nat m)) (wrapu 64 (b + 1)) s1 Hi1) as [Hcs Ho1]; [|exact E2|].
  { intros d Hd. apply (t_alive _ (ti_tidy _ _ _ Hi1)), S1, (t_alive _ (ti_tidy _ _ _ Hi)), Hl. by right. }
  split; [|auto]. intros d [->|Hd]%elem_of_cons; auto.
Qed.
Lemma aggregate_threads_tcd cs a b (s : state) n (s' : state) : aggregate_threads cs a b s = (Ret n, s') -> s'.1 = s.1.
Proof.
  revert a b s. induction cs as [|c cs IH]; intros a b s; [by intros [= _ <-]|]. intros (m & s1 & E1 & E2)%se_bind_inv.
  apply on_map_inv in E1 as [_ <-]. exact (IH _ _ s1 E2).
Qed.
Lemma published_everywhere ext (s : state) n (s' : state) : tinv ext s ->
  aggregate_threads (map_to_list (threadLocalStats_ s.1)).*2 0 0 s = (Ret n, s') ->
  tinv ext s' /\ (forall c, alive_at c s'.2.2 -> drained c s'.2.2) /\
  (forall k, wraps 64 (TLStatsConserve.total k s'.2.2) = wraps 64 (TLStatsConserve.total k s.2.2)).
Proof.
  intros Hi Ea. destruct (step_aggregate_threads ext _ 0 0 s n s' Hi Ea) as [Hi' [Ht _]].
  assert (Hcs : forall c, c ∈ (map_to_list (threadLocalStats_ s.1)).*2 <-> is_Some (state_ s.2.1 !! c)).
  { intros c. rewrite (ti_threads _ _ _ Hi c), list_elem_of_fmap. split.
    - intros ([t d] & -> & Ht'%elem_of_map_to_list). by exists t.
    - intros [t Hc]. exists (t, c). split; [done|]. by apply elem_of_map_to_list. }
  destruct (aggregate_threads_drains ext (map_to_list (threadLocalStats_ s.1)).*2 0 0 s n s' Hi) as [Hd _]; [|exact Ea|].
  { intros c Hc%Hcs. by apply (t_alive _ (ti_tidy _ _ _ Hi)). }
  split; [done|]. split; [|intros k; by rewrite Ht, Z.add_0_r].
  pose proof (aggregate_threads_tcd _ 0 0 s n s' Ea) as E1.
  intros c Hc%(t_alive _ (ti_tidy _ _ _ Hi'))%(ti_threads _ _ _ Hi'). rewrite E1 in Hc. apply Hd, Hcs. by apply (ti_threads _ _ _ Hi).
Qed.
Lemma tinv_start (s : state) : owners s.2.1 = ∅ -> state_ s.2.1 = ∅ -> TLStats.stats s.2.2.1 = ∅ -> containers s.2.2.1 = ∅ ->
  threadLocalStats_ s.1 = ∅ -> tinv none s.
Proof.
  intros Ho Hs Hl Hc Ht. split.
  - by apply inv_start.
  - split; [split|].
    + intros p x. by rewrite Hl.
    + intros i c. by rewrite Hc.
    + intros i. unfold alive_at. rewrite Hc, Hs. split; [by intros (? & ? & _)|by intros [? ?]].
  - intros c. rewrite Hs, Ht. split; [by intros [? ?]|by intros [? ?]].
  - intros t t' c. by rewrite Ht.
Qed.
Lemma sinv_start s : owners s.2.2.1 = ∅ -> state_ s.2.2.1 = ∅ -> TLStats.stats s.2.2.2.1 = ∅ -> containers s.2.2.2.1 = ∅ ->
  threadLocalStats_ s.2.1 = ∅ -> Forall (fun w => tlStat_ w = ∅) (all_wrappers s) -> sinv s.
Proof.
  intros Ho Hs Hl Hc Ht Hw. split.
  2: { apply Forall_forall. intros w Hin t v p. by rewrite (proj1 (Forall_forall _ _) Hw w Hin). }
  apply (tinv_same control_block none); [by apply tinv_start|].
  intros p. induction Hw as [|w l E0 _ IH]; [done|]. cbn. rewrite IH. unfold shares, none. by rewrite E0, map_sum_empty.
Qed.

(** What a counter whose map is gone holds. *)
Definition left_behind (k : string) (s : local) (x : tlstat (HV := HV)) : Z :=
  match containers s.1 !! link_ x with Some c => if alive c then 0 else part k x | None => part k x end.

(** After the publisher's loop. *)
Lemma published_flat (k : string) (s : system) (l : list op) (n : Z) (s' : system) (r : Z * Z) (s'' : state) :
  sinv s -> TLStats.stats s.2.2.2.1 = ∅ ->
  runs k s l n s' -> aggregate_threads (map_to_list (threadLocalStats_ s'.2.1)).*2 0 0 s'.2 = (Ret r, s'') ->
  wraps 64 (flat_value k s''.2.2.2 + map_sum (left_behind k s''.2.2) (TLStats.stats s''.2.2.1)) = wraps 64 (flat_value k s.2.2.2.2 + n) /\
  ((forall p x, TLStats.stats s''.2.2.1 !! p = Some x -> alive_at (link_ x) s''.2.2) ->
     wraps 64 (flat_value k s''.2.2.2) = wraps 64 (flat_value k s.2.2.2.2 + n)).
Proof.
  intros Hi0 Hl Hr Ha. destruct (runs_effect k s l n s' Hr Hi0) as [[Hi Hok] Hn].
  destruct (published_everywhere _ s'.2 r s'' Hi Ha) as (Hi' & Hd & Hk). rewrite <- (Hk k) in Hn. unfold TLStatsConserve.total in Hn.
  rewrite Hl, map_sum_empty, Z.add_0_r in Hn.
  rewrite (map_sum_ext (part k) (left_behind k s''.2.2)) in Hn.
  2: { intros p x Hx. unfold left_behind. destruct (containers s''.2.2.1 !! link_ x) as [c|] eqn:Hcx; [|done]. destruct (alive c) eqn:Hal; [|done].
       unfold part. rewrite (Hd (link_ x) (ex_intro _ c (conj Hcx Hal)) p x Hx eq_refl). by case_bool_decide. }
  split; [done|]. intros Hall. rewrite (map_sum_ext (left_behind k s''.2.2) (fun _ => 0)) in Hn.
  - assert (E0 : forall m : gmap nat (tlstat (HV := HV)), map_sum (fun _ => 0) m = 0); [|by rewrite E0, Z.add_0_r in Hn].
    intros m. induction m as [|i x m Hm IH] using map_ind; [apply map_sum_empty|]. by rewrite map_sum_insert, IH.
  - intros p x Hx. unfold left_behind. destruct (Hall p x Hx) as (c & -> & ->). done.
Qed.

(** C2: what any thread counts, by name or through a [CounterWrapper], is in the
    flat counter of [ServiceData] once the publisher has been round, to 64 bits.
    Start with no thread, no map and wrappers nobody has used; let any threads
    update by name or through wrappers, in any order, with threads ending, wrappers
    letting go of ended threads' counters and the publisher publishing in between,
    every operation returning; then let the publisher's loop aggregate every map.
    For each name, the flat counter holds what it held plus every amount asked for,
    but for what is still in counters kept by a wrapper for a thread that has
    ended; with none of those the flat counter is exact.  And all along, what a
    wrapper caches for a thread is a living, registered counter of the wrapper's
    own key. *)
Theorem published_counts_exact (k : string) (s : system) (l : list op) (n : Z) (s' : system) (r : Z * Z) (s'' : state) :
  owners s.2.2.1 = ∅ -> state_ s.2.2.1 = ∅ -> TLStats.stats s.2.2.2.1 = ∅ -> containers s.2.2.2.1 = ∅ ->
  threadLocalStats_ s.2.1 = ∅ -> Forall (fun w => tlStat_ w = ∅) (all_wrappers s) ->
  runs k s l n s' -> aggregate_threads (map_to_list (threadLocalStats_ s'.2.1)).*2 0 0 s'.2 = (Ret r, s'') ->
  wraps 64 (flat_value k s''.2.2.2 + map_sum (left_behind k s''.2.2) (TLStats.stats s''.2.2.1)) = wraps 64 (flat_value k s.2.2.2.2 + n) /\
  ((forall p x, TLStats.stats s''.2.2.1 !! p = Some x -> alive_at (link_ x) s''.2.2) ->
     wraps 64 (flat_value k s''.2.2.2) = wraps 64 (flat_value k s.2.2.2.2 + n)) /\
  (forall i w t p, s'.1.1 !! i = Some w -> getTcStatUnsafe t w = Some p ->
     exists x, TLStats.stats s'.2.2.2.1 !! p = Some x /\ isLinked x = true /\ name x = key_ w).
Proof.
  intros Ho Hs Hl Hc Ht Hw Hr Ha. pose proof (sinv_start s Ho Hs Hl Hc Ht Hw) as Hstart.
  destruct (published_flat k s l n s' r s'' Hstart Hl Hr Ha) as [H1' H2']. split; [done|]. split; [done|].
  destruct (runs_effect k s l n s' Hr Hstart) as [[_ Hok] _].
  intros i w t p Hi0 Hc0. assert (Hwl : w ∈ all_wrappers s').
  { apply elem_of_app. right. apply list_elem_of_fmap. exists (i, w). split; [done|]. by apply elem_of_map_to_list. }
  pose proof (proj1 (Forall_forall _ _) Hok w Hwl) as Hcw. unfold getTcStatUnsafe in Hc0. destruct (tlStat_ w !! t) as [v|] eqn:Hv; [|done].
  by apply (Hcw t v p).
Qed.
End Runs.

(** ** Two threads and a publisher *)
Section Example_.
Import EventSeries CoarseHistogram SampleEstimator PrefixCache.
#[local] Existing Instance TLStatsCounts.example_histogram.
#[local] Existing Instance TLStatsCounts.example_simple.
#[local] Existing Instance TLStatsCounts.example_locks.
#[local] Existing Instance StatPtr.compress.
Definition all_alive (s : tls (HV := TLStatsCounts.simple)) : bool :=
  forallb (fun px => match containers s !! link_ px.2 with Some c => alive c | None => false end) (map_to_list (TLStats.stats s)).
Lemma all_alive_spec s : all_alive s = true -> forall p x, TLStats.stats s !! p = Some x -> exists c, containers s !! link_ x = Some c /\ alive c = true.
Proof.
  intros Ha p x Hx. apply forallb_forall with (x := (p, x)) in Ha; [|by apply list_elem_of_In, elem_of_map_to_list].
  cbn in Ha. destruct (containers s !! link_ x) as [c|]; [by exists c|done].
Qed.
(** Thread 1 counts by name and through a wrapper, then ends; thread 2 uses the
    same wrapper; thread 9 publishes. *)
Definition example_blocks (p : nat) : Z := (64 * Z.of_nat p) mod 2 ^ 59.
Definition example_publisher : publisher_series := PublisherSeries (new_wrapper "time") (new_wrapper "calls") (new_wrapper "maps").
Definition threads_start : (gmap nat wrapper * publisher_series) * (tcd * (maps * (tls (HV := TLStatsCounts.simple) * _))) :=
  ((∅, example_publisher), (initial, (Maps ∅ ∅, TLStatsCounts.example_start))).
Definition threads_ops : list op :=
  [NewWrapper 0 "hits"; UIncrement 1 "hits" 5; WIncrement 0 1 3; WIncrement 0 2 4; NewWrapper 1 "load"; WAdd 1 MinuteTimeseriesWrapper 1 30;
   Publish 9 0 1000; WIncrement 0 1 10; UAddTyped 2 "load" 7 SUM; ThreadEnds 1; WThreadEnds 0 1; WThreadEnds 1 1; WIncrement 0 2 (-1); UIncrement 2 "hits" 6].
Abbreviation example_exec := (exec TLStatsCounts.name_hash id (fun n => Z.of_nat n) example_blocks false).
Abbreviation example_publish := (ThreadCached.aggregate_threads (fun c => c) (fun n => Z.of_nat n)).
Lemma published_counts_exact_witness :
  match run_counted example_exec good (count "hits") threads_ops threads_start with
  | Some (n, s') =>
      match example_publish (map_to_list (threadLocalStats_ s'.2.1)).*2 0 0 s'.2 with
      | (Ret _, s'') => n = 27 /\ wraps 64 (flat_value "hits" s''.2.2.2) = wraps 64 (7 + n)
      | _ => False
      end
  | None => False
  end.
Proof.
  assert (Hb : forall p, 0 <= example_blocks p < 2 ^ 59) by (intros p; apply Z.mod_pos_bound; reflexivity).
  assert (Hv : match run_counted example_exec good (count "hits") threads_ops threads_start with
    | Some (n, s') =>
        match example_publish (map_to_list (threadLocalStats_ s'.2.1)).*2 0 0 s'.2 with
        | (Ret _, s'') => Some (n, all_alive s''.2.2.1) | _ => None end
    | None => None end = Some (27, true)) by (vm_compute; reflexivity).
  destruct (run_counted example_exec good (count "hits") threads_ops threads_start) as [[n s']|] eqn:Er; [|discriminate Hv].
  destruct (example_publish (map_to_list (threadLocalStats_ s'.2.1)).*2 0 0 s'.2) as [[r|e] s''] eqn:Ea; [|discriminate Hv].
  pose proof (published_counts_exact TLStatsCounts.name_hash id (fun n => Z.of_nat n) example_blocks false Hb "hits" threads_start threads_ops n s' r s''
    eq_refl eq_refl eq_refl eq_refl eq_refl ltac:(repeat constructor) (run_counted_runs _ _ _ _ _ _ _ Er) Ea) as (_ & Ht & _).
  injection Hv as Hn Hal. split; [exact Hn|]. exact (Ht (all_alive_spec _ Hal)).
Defined.
End Example_.
