(* ===== verification/HistogramWrappers.v ===== *)
(** * HistogramWrappers: when a [HistogramWrapper] has no histogram

    A [HistogramWrapper] of [ThreadCached] applies its spec once.  What [add] does
    when that failed, and when [ServiceData] has forgotten the histogram since. *)
From S2P Require Import Prelude RegexUtil FlatCounters CallbackValuesMap NamedCallbacks TLStatsLockTraits ExportType Timeseries TimeseriesExporter HistogramExporter HistogramNames ExportedStatMap ExportedHistogramMap QuantileStat QuantileStatMap ServiceOptions ServiceData TLStats TLStatsCounts StatPtr TLStatsMap TLStatsMapCorrect ThreadCached ThreadCachedTheorems.
From Stdlib Require Import ZArith Lia Ascii String.
From stdpp Require Import base gmap sets list strings.
Import TLStatsMap ThreadCached.

Open Scope Z_scope.
Open Scope fb303_scope.

Section Histograms.
Context {M : Type} `{RegexMatchCache M} {TS Hg HV : Type} `{FollyHistogram TS Hg HV} `{SimpleHistogram HV}.
Context {E U US Getter Setter W : Type} (hash : string -> Z) `{LockTraits} `{TypedPtr}.
Abbreviation service := (ServiceData.state M TS Hg E U US Getter Setter W).
Abbreviation dynamic_counters := (CallbackValuesMap.cvm (counter_callback U) M).
Abbreviation dynamic_strings := (CallbackValuesMap.cvm (string_callback US) M).
Context (gap_hists : ExportedHistogramMap.histmap TS Hg * (dynamic_counters * dynamic_strings) ->
                     ExportedHistogramMap.histmap TS Hg * (dynamic_counters * dynamic_strings)).
Context (control_block : nat -> Z) (dont_update_on_read : bool).
Abbreviation state := (tcd * (maps * (TLStats.tls (HV := HV) * service)))%type.
Abbreviation histogram_add := (ThreadCached.histogram_add hash gap_hists control_block dont_update_on_read).
Abbreviation apply_spec := (ThreadCached.apply_spec hash gap_hists).

(** Nothing in the thread's map and nothing in [ServiceData]: a null pointer. *)
Lemma no_histogram (s : maps * (TLStats.tls (HV := HV) * service)) c m name :
  state_ s.1 !! c = Some m -> get_map Histograms m !! name = None ->
  ExportedHistogramMap.histMap_ (ServiceData.histMap_ s.2.2) !! name = None ->
  exists s', getHistogramSafe control_block c name s = (Ret null, s').
Proof.
  intros Hm Hn Hg1. unfold getHistogramSafe, getHistogramLocked, tryInsertLocked, TLStatsMap.find, get_state, se_bind, se_ret. rewrite Hm, Hn.
  unfold createHistogramLocked, se_bind, TLStatsMap.on_service, ServiceData.on_hists, ServiceData.on_part,
    ExportedHistogramMapImpl.getLockableHistogram, ExportedHistogramMap.getHistogramUnlocked, se_bind, se_get, se_ret. cbn.
  rewrite Hg1. cbn. destruct (sp_make_raw) as (_ & -> & _). by eexists.
Qed.
(** Without a cached pointer [add] goes through [call_once]. *)
Lemma add_slow t v w (s : state) : (tlHistogram_ w !! t ≫= object) = None ->
  histogram_add t v (w, s) =
  (let* p := tcHistogramSlow hash gap_hists control_block dont_update_on_read t in
   match p with Some p => on_state (ThreadCached.on_local (TLStats.addValue p v)) | None => se_throw undefined_behaviour end) (w, s).
Proof. intros Hn. unfold ThreadCached.histogram_add, tcHistogram, se_bind, se_get. cbn [fst]. destruct (tlHistogram_ w !! t) as [p|]; cbn in Hn |- *; by rewrite ?Hn. Qed.

(** C33: when [add] of a [HistogramWrapper] has no histogram, in a thread that has
    none cached.  If applying the spec throws, [add] throws that exception and
    leaves the wrapper without a spec and its flag unset; such a wrapper then
    dereferences a null spec at the next [add].  And a wrapper whose spec was
    applied dereferences a null histogram when neither the thread's map nor
    [ServiceData] knows its key - as after [ServiceData]'s [resetAllData]. *)
Theorem histogram_wrapper_lost (t : nat) (v : Z) (w : histogram_wrapper) (s : state) : (tlHistogram_ w !! t ≫= object) = None ->
  (forall spec e x, once_ w = false -> spec_ w = Some spec -> apply_spec spec (h_key_ w) s.2.2.2 = (Throw e, x) ->
     histogram_add t v (w, s) = (Throw e, (HistogramWrapper false (h_key_ w) None (tlHistogram_ w), (s.1, (s.2.1, (s.2.2.1, x)))))) /\
  (once_ w = false -> spec_ w = None -> histogram_add t v (w, s) = (Throw undefined_behaviour, (w, s))) /\
  (forall c m, once_ w = true -> threadLocalStats_ s.1 !! t = Some c -> state_ s.2.1 !! c = Some m ->
     get_map Histograms m !! h_key_ w = None -> ExportedHistogramMap.histMap_ (ServiceData.histMap_ s.2.2.2) !! h_key_ w = None ->
     (histogram_add t v (w, s)).1 = Throw undefined_behaviour).
Proof.
  intros Hn. rewrite (add_slow t v w s Hn).
  split; [|split].
  - intros spec e x Hw Hs Ha. unfold tcHistogramSlow, call_once, se_bind, se_get. cbn [fst]. rewrite Hw. unfold doApplySpecLocked, se_bind, se_get, put_wrapper, on_state. cbn [fst snd]. rewrite Hs.
    destruct s as [y [z [l srv]]]. cbn [fst snd] in *. unfold ThreadCached.on_service, on_map, TLStatsMap.on_service, TLStatsMap.on_local, TLStats.on_service. cbn [fst snd]. by rewrite Ha, Hw.
  - intros Hw Hs. unfold tcHistogramSlow, call_once, se_bind, se_get. cbn [fst]. rewrite Hw. unfold doApplySpecLocked, se_bind, se_get, put_wrapper. cbn [fst snd]. rewrite Hs, Hw. destruct w. cbn in *. by subst.
  - intros c m Hw Hc Hm Hk Hg1. unfold tcHistogramSlow, call_once, se_bind, se_get. cbn [fst]. rewrite Hw. unfold se_bind, se_get, se_ret, on_state, put_wrapper, getThreadStats. cbn [fst snd].
    unfold se_bind, se_get, se_ret. cbn [fst snd]. rewrite Hc. unfold on_map.
    destruct (no_histogram s.2 c m (h_key_ w) Hm Hk Hg1) as [s' ->]. done.
Qed.
End Histograms.

(** ** A reset, and another thread adds *)
Section Example_.
Import EventSeries CoarseHistogram SampleEstimator PrefixCache.
#[local] Existing Instance TLStatsCounts.example_histogram.
#[local] Existing Instance TLStatsCounts.example_simple.
#[local] Existing Instance TLStatsCounts.example_locks.
#[local] Existing Instance StatPtr.compress.
Definition lat_levels : series := ts_make 60 (in_ticks seconds [60; 600]).
Definition latency : histogram_wrapper (TS := series) :=
  HistogramWrapper false "lat" (Some (HistogramSpec 10 0 100 [SUM] [50] lat_levels)) ∅.
Definition hash_name := TLStatsCounts.name_hash.
Definition threads_begin : tcd * (maps * (TLStats.tls (HV := TLStatsCounts.simple) * _)) := (initial, (Maps ∅ ∅, TLStatsCounts.example_start)).
Abbreviation add_to t v := (ThreadCached.histogram_add hash_name id example_blocks false t v).
(** Thread 1 adds, the service forgets everything, thread 2 has a map of its own. *)
Definition forgotten :=
  (add_to 1 55 >>> on_state (on_service ServiceData.resetAllData) >>>
   on_state (ThreadCached.incrementCounter example_blocks false 2 "hits" 1)) (latency, threads_begin).
Lemma histogram_wrapper_lost_witness :
  match forgotten with
  | (Ret tt, s) => (add_to 2 5 s).1 = Throw undefined_behaviour
  | _ => False
  end.
Proof.
  assert (Hv : match forgotten with
    | (Ret tt, (w, s)) => (bool_decide (tlHistogram_ w !! 2%nat = None), once_ w, threadLocalStats_ s.1 !! 2%nat,
        match threadLocalStats_ s.1 !! 2%nat with Some c => match state_ s.2.1 !! c with Some m => Some (size (get_map Histograms m)) | None => None end | None => None end,
        size (ExportedHistogramMap.histMap_ (ServiceData.histMap_ s.2.2.2)))
    | _ => (false, false, None, None, 1%nat) end = (true, true, Some 1%nat, Some 0%nat, 0%nat)) by (vm_compute; reflexivity).
  destruct forgotten as [[[]|x] [w s]] eqn:Ef; [|discriminate Hv]. injection Hv as Hn Ho Ht Hm Hh.
  rewrite Ht in Hm. destruct (state_ s.2.1 !! 1%nat) as [m|] eqn:Em; [|discriminate Hm]. injection Hm as Hm.
  apply map_size_empty_inv in Hm. apply map_size_empty_inv in Hh. apply bool_decide_eq_true in Hn.
  apply (histogram_wrapper_lost hash_name id example_blocks false 2 5 w s ltac:(by rewrite Hn)) with (c := 1%nat) (m := m);
    [exact Ho|exact Ht|exact Em|cbn [get_map]; rewrite Hm; apply lookup_empty|rewrite Hh; apply lookup_empty].
Defined.
End Example_.
