(* ===== verification/Publisher.v ===== *)
(** * Publisher: the publishing thread and the shapes of the wrappers

    The publisher of [ThreadCachedServiceData] against a specification that only
    knows which interval was asked for last; which levels a
    [MultiLevelTimeseriesWrapper] may be declared with. *)
From S2P Require Import Prelude RegexUtil TLStatsLockTraits ExportType Timeseries TimeseriesExporter HistogramExporter HistogramNames ExportedStatMap ExportedHistogramMap QuantileStat QuantileStatMap ServiceOptions ServiceData TLStats TLStatsCounts StatPtr TLStatsMap ThreadCached.
From Stdlib Require Import ZArith Lia Ascii String.
From stdpp Require Import base gmap sets list strings.
Import ThreadCached.

Open Scope Z_scope.
Open Scope fb303_scope.

(** ** The specification

    [wanted] is the interval the program wants published with; the singleton is
    not made yet, up, or shut down. *)
Inductive phase := Down | Up | ShutDown.
Record spec := Spec { wanted : option Z; now_in : phase }.
Inductive call := Start (interval : Z) | Stop | GetRef | Destroy | Reenable.
Definition spec_step (p : spec) (c : call) : spec :=
  match c, now_in p with
  | Destroy, _ => Spec (wanted p) ShutDown
  | Reenable, ShutDown => Spec (wanted p) Down
  | Reenable, _ => p
  | _, ShutDown => p
  | GetRef, _ => Spec (wanted p) Up
  | Stop, _ => Spec None Up
  | Start i, _ => Spec (if 0 <? i then Some i else match wanted p with Some j => Some j | None => Some 1000 end) Up
  end.

Section Publisher.
Context {M TS Hg HV E U US Getter Setter W : Type} `{LockTraits} `{TypedPtr}.
Abbreviation rest := (TLStatsMap.maps * (TLStats.tls (HV := HV) * ServiceData.state M TS Hg E U US Getter Setter W))%type.
(** The class is reached through [getRef]. *)
Definition call_op (c : call) : SE (tcd * rest) unit :=
  match c with
  | Start i => vivify >>> startPublishThread i
  | Stop => vivify >>> stopPublishThread
  | GetRef => vivify
  | Destroy => destroyInstances
  | Reenable => reenableInstances
  end.
Fixpoint calls (l : list call) : SE (tcd * rest) unit := match l with [] => se_ret tt | c :: l' => call_op c >>> calls l' end.

Record matches (p : spec) (x : tcd) : Prop := {
  m_interval : interval_ x = default 0 (wanted p);
  m_positive : forall i, wanted p = Some i -> 0 < i;
  m_manager : publisherManager x = match now_in p with Down => Unborn | Up => Living (wanted p) | ShutDown => Gone end
}.
(** The manager a singleton is made with. *)
Lemma new_manager_wanted p x : matches p x -> new_manager x = Living (wanted p).
Proof.
  intros [Ei Hp _]. unfold new_manager, publishThreadRunning, getPublisherInterval. rewrite Ei.
  destruct (wanted p) as [i|]; [|done]. cbn. destruct (Z.ltb_spec 0 i); [done|]. specialize (Hp i eq_refl). lia.
Qed.
Lemma getRef_matches p x (r : rest) : matches p x -> exists x', vivify (x, r) = (Ret tt, (x', r)) /\
  matches (spec_step p GetRef) x' /\ threadLocalStats_ x' = threadLocalStats_ x.
Proof.
  intros Hm. pose proof (new_manager_wanted p x Hm) as Hn. destruct Hm as [Ei Hp Em]. unfold vivify, try_get, se_bind, se_get, modify, se_ret.
  cbn [fst snd]. rewrite Em. destruct (now_in p) eqn:En; eexists; split; try done; (split; [|done]); split; cbn; rewrite ?En; try done.
Qed.
Lemma try_get_made (x : tcd) (r : rest) : publisherManager x <> Unborn ->
  try_get (x, r) = (Ret (match publisherManager x with Gone => false | _ => true end), (x, r)).
Proof. intros Hn. unfold try_get, se_bind, se_get, se_ret. cbn [fst]. by destruct (publisherManager x). Qed.
(** What [try_get] guards, at a manager that is made or gone. *)
Lemma guarded_step (x : tcd) (r : rest) (f : tcd -> tcd) : publisherManager x <> Unborn ->
  (let* mgr := try_get in if mgr : bool then modify f else se_ret tt) (x, r) =
  (Ret tt, (match publisherManager x with Gone => x | _ => f x end, r)).
Proof. intros Hn. unfold se_bind. rewrite (try_get_made x r Hn). by destruct (publisherManager x). Qed.
Lemma after_getRef p x : matches (spec_step p GetRef) x -> publisherManager x <> Unborn.
Proof. intros [_ _ Em]. rewrite Em. unfold spec_step. by destruct (now_in p) eqn:En; cbn; rewrite ?En. Qed.
Lemma start_matches p x (r : rest) i : matches (spec_step p GetRef) x -> exists x', startPublishThread i (x, r) = (Ret tt, (x', r)) /\
  matches (spec_step p (Start i)) x' /\ threadLocalStats_ x' = threadLocalStats_ x.
Proof.
  intros Hm. pose proof (after_getRef p x Hm) as Hn. destruct Hm as [Ei Hp Em]. unfold startPublishThread. unfold se_bind at 1, se_get at 1. cbn [fst].
  assert (Ew : wanted (spec_step p GetRef) = wanted p) by (unfold spec_step; by destruct (now_in p)). rewrite Ew in *.
  destruct (Z.leb_spec i 0) as [Hi|Hi]; cbn [andb].
  - destruct (wanted p) as [j|] eqn:Ej; cbn in Ei; rewrite Ei.
    + pose proof (Hp j eq_refl). destruct (Z.eqb_spec j 0); [lia|]. cbn [negb]. exists x. split; [done|]. split; [|done].
      unfold spec_step in *. rewrite Ej in *. destruct (Z.ltb_spec 0 i); [lia|]. by destruct (now_in p) eqn:En; split; cbn in *; rewrite ?Ej, ?En in *.
    + cbn [Z.eqb negb]. rewrite (guarded_step x r _ Hn), Em. unfold spec_step in *. rewrite Ej in *. destruct (Z.ltb_spec 0 i); [lia|].
      destruct (now_in p) eqn:En; cbn [now_in]; rewrite ?En; eexists; (split; [done|]); (split; [|done]); split; cbn; rewrite ?Ej, ?En; try done;
        [by intros k' [= <-]|by intros k' [= <-]| by rewrite Em; cbn; rewrite En].
  - rewrite (guarded_step x r _ Hn), Em. unfold spec_step in *. destruct (Z.ltb_spec 0 i); [|lia].
    destruct (now_in p) eqn:En; cbn [now_in]; rewrite ?En; eexists; (split; [done|]); (split; [|done]); split; cbn; rewrite ?En; try done;
      [by intros k' [= <-]|by intros k' [= <-]| by rewrite Em; cbn; rewrite En].
Qed.
Lemma stop_matches p x (r : rest) : matches (spec_step p GetRef) x -> exists x', stopPublishThread (x, r) = (Ret tt, (x', r)) /\
  matches (spec_step p Stop) x' /\ threadLocalStats_ x' = threadLocalStats_ x.
Proof.
  intros Hm. pose proof (after_getRef p x Hm) as Hn. destruct Hm as [Ei Hp Em]. unfold stopPublishThread. rewrite (guarded_step x r _ Hn), Em.
  unfold spec_step in *. destruct (now_in p) eqn:En; cbn [now_in]; rewrite ?En; eexists; (split; [done|]); (split; [|done]); split; cbn in *; rewrite ?En in *; done.
Qed.
Lemma call_matches p x (r : rest) c : matches p x -> exists x', call_op c (x, r) = (Ret tt, (x', r)) /\
  matches (spec_step p c) x' /\ threadLocalStats_ x' = threadLocalStats_ x.
Proof.
  intros Hm. destruct (getRef_matches p x r Hm) as (x1 & E1 & Hm1 & Et). destruct c as [i| | | |]; cbn [call_op].
  - unfold se_bind. rewrite E1. destruct (start_matches p x1 r i Hm1) as (x2 & E2 & Hm2 & Et2). exists x2. by rewrite Et2.
  - unfold se_bind. rewrite E1. destruct (stop_matches p x1 r Hm1) as (x2 & E2 & Hm2 & Et2). exists x2. by rewrite Et2.
  - by exists x1.
  - destruct Hm as [Ei Hp Em]. eexists. split; [done|]. split; [|done]. unfold spec_step. destruct (now_in p); by split.
  - destruct Hm as [Ei Hp Em]. eexists. split; [done|]. cbn. rewrite Em. unfold spec_step. destruct (now_in p) eqn:En; (split; [|done]); split; cbn; rewrite ?En; done.
Qed.

(** C24: the publisher does what was last asked for.  Whatever the calls of
    [startPublishThread], [stopPublishThread] and [getRef] and the shutdowns and
    restarts of singletons, every call returns and changes nothing but the
    publisher; [publishThreadRunning] tells whether an interval is wanted; and
    whenever the singleton is up it has a worker exactly then, at the interval
    wanted last - a start without a positive interval keeps the current one or
    takes a second - also when it had been shut down and is made again. *)
Theorem publisher_does_what_is_wanted (m : gmap nat nat) (r : rest) (l : list call) :
  let p := foldl spec_step (Spec None Down) l in
  exists x, calls l (with_threads m initial, r) = (Ret tt, (x, r)) /\ threadLocalStats_ x = m /\
    interval_ x = default 0 (wanted p) /\ publishThreadRunning x = bool_decide (is_Some (wanted p)) /\
    publisherManager x = match now_in p with Down => Unborn | Up => Living (wanted p) | ShutDown => Gone end.
Proof.
  cbv zeta. assert (Hm : matches (Spec None Down) (with_threads m initial)) by (by split). assert (Ht : threadLocalStats_ (with_threads m initial) = m) by done.
  revert Hm Ht. generalize (Spec None Down) (with_threads m initial). induction l as [|c l IH]; intros p x Hm Ht; cbn [calls foldl].
  - exists x. split; [done|]. split; [done|]. destruct Hm as [Ei Hp Em]. split; [done|]. split; [|done].
    unfold publishThreadRunning, getPublisherInterval. rewrite Ei. destruct (wanted p) as [i|]; [|reflexivity]. specialize (Hp i eq_refl). apply Z.ltb_lt in Hp. exact Hp.
  - destruct (call_matches p x r c Hm) as (x1 & E1 & Hm1 & T1). unfold se_bind. rewrite E1. apply IH; [done|congruence].
Qed.
End Publisher.

(** ** Levels of a [MultiLevelTimeseriesWrapper] *)
Lemma kDurations_strict d l : kDurations_ok (d :: l) = true -> Forall (fun e => d < e) l /\ kDurations_ok l = true.
Proof.
  revert d. induction l as [|e l IH]; intros d Hk; [done|]. unfold kDurations_ok in Hk.
  change (is_sorted (d :: e :: l)) with (negb (e <? d) && is_sorted (e :: l)) in Hk.
  change (adjacent_find (d :: e :: l)) with ((d =? e) || adjacent_find (e :: l)) in Hk.
  apply andb_prop in Hk as [[H1 H2]%andb_prop H3]. apply negb_true_iff, orb_false_iff in H3 as [H3 H4].
  apply negb_true_iff, Z.ltb_ge in H1. apply Z.eqb_neq in H3.
  assert (Hl : kDurations_ok (e :: l) = true) by (unfold kDurations_ok; by rewrite H2, H4).
  split; [|done]. constructor; [lia|]. destruct (IH e Hl) as [Hf _]. apply (Forall_impl _ _ _ Hf). lia.
Qed.
Lemma ticks_ok ds prev : kDurations_ok ds = true -> 0 <= prev -> Forall (fun e => prev < e) ds -> levels_ok (prev * milliseconds) (in_ticks milliseconds ds) = true.
Proof.
  revert prev. induction ds as [|d ds IH]; intros prev Hk Hp Hf0; [done|]. apply Forall_cons in Hf0 as [Hd Hds].
  destruct (kDurations_strict d ds Hk) as [Hf Hk']. cbn [in_ticks fmap list_fmap levels_ok]. pose proof (IH d Hk' ltac:(lia) Hf) as Hr.
  assert (Hlt : (prev * milliseconds <? d * milliseconds) = true) by (apply Z.ltb_lt; unfold milliseconds; lia).
  destruct ds as [|e ds]; [|by rewrite Hlt]. cbn. by rewrite Hlt, orb_true_r.
Qed.
(** C40: which declarations of a [MultiLevelTimeseriesWrapper] can be used.  A list
    of durations that passes the wrapper's [static_assert] is one folly accepts -
    increasing, an all-time level only at the end - exactly if all durations are
    positive, or the list is the all-time level alone; so an all-time level, which
    the class documents, cannot be declared next to others. *)
Theorem multi_level_shapes (ds : list Z) : kDurations_ok ds = true ->
  (levels_ok 0 (in_ticks milliseconds ds) = true <-> Forall (fun d => 0 < d) ds \/ ds = [0]).
Proof.
  intros Hk. split.
  - destruct ds as [|d [|e ds]]; intros Hl; [by left| |].
    + cbn in Hl. apply orb_prop in Hl as [Hl|Hl]; [right|left].
      * apply Z.eqb_eq in Hl. unfold milliseconds in Hl. f_equal. lia.
      * apply Z.ltb_lt in Hl. unfold milliseconds in Hl. constructor; [lia|done].
    + left. destruct (kDurations_strict d (e :: ds) Hk) as [Hf _]. cbn in Hl. apply andb_prop in Hl as [Hl _].
      apply Z.ltb_lt in Hl. unfold milliseconds in Hl. constructor; [lia|]. apply (Forall_impl _ _ _ Hf). lia.
  - intros [Hf| ->]; [|reflexivity]. exact (ticks_ok ds 0 Hk ltac:(lia) Hf).
Qed.
Lemma multi_level_shapes_witness :
  levels_ok 0 (in_ticks milliseconds [5; 60; 600]) = true /\ levels_ok 0 (in_ticks milliseconds [0; 60]) = false.
Proof.
  split.
  - apply (multi_level_shapes [5; 60; 600]); [reflexivity|]. left. repeat constructor.
  - destruct (levels_ok 0 (in_ticks milliseconds [0; 60])) eqn:El; [|reflexivity].
    apply (multi_level_shapes [0; 60]) in El as [Hf|Hn]; [|discriminate Hn|reflexivity]. inversion Hf; subst. discriminate.
Defined.
