(* ===== verification/DynamicStats.v ===== *)
(** * DynamicStats: statistics with subkeys

    [DynamicTimeseriesWrapper] and [DynamicHistogramWrapper] of
    [src/fb303/ThreadCachedServiceData.h]: a [FormattedKeyHolder] whose keys are
    prepared by exporting them, over the per-thread maps of [ThreadCached].  The
    time-series wrapper caches with a key the thread's [TLTimeseries]. *)
From S2P Require Import Prelude RegexUtil FlatCounters CallbackValuesMap NamedCallbacks TLStatsLockTraits ExportType Timeseries TimeseriesExporter HistogramExporter HistogramNames ExportedStatMap ExportedHistogramMap QuantileStat QuantileStatMap ServiceOptions ServiceData TLStats StatPtr TLStatsMap FormattedKey ThreadCached.
From Stdlib Require Import ZArith Lia Ascii String.
From stdpp Require Import base gmap sets list strings.

Open Scope Z_scope.
Open Scope fb303_scope.

Module DynamicStats.
Section Model.
Context {M : Type} `{RegexMatchCache M} {TS Hg HV : Type} `{FollyHistogram TS Hg HV} `{SimpleHistogram HV}.
Context {E U US Getter Setter W : Type} (hash : string -> Z) `{LockTraits} `{TypedPtr}.
Abbreviation service := (ServiceData.state M TS Hg E U US Getter Setter W).
Abbreviation dynamic_counters := (CallbackValuesMap.cvm (counter_callback U) M).
Abbreviation dynamic_strings := (CallbackValuesMap.cvm (string_callback US) M).
Context (gap_flat : RegexUtil.syncmap (M := M) (V := Z) -> RegexUtil.syncmap (M := M) (V := Z)).
Context (gap_stats : ExportedStatMap.statmap TS * dynamic_counters -> ExportedStatMap.statmap TS * dynamic_counters).
Context (gap_hists : ExportedHistogramMap.histmap TS Hg * (dynamic_counters * dynamic_strings) ->
                     ExportedHistogramMap.histmap TS Hg * (dynamic_counters * dynamic_strings)).
Context (time_source : nat -> Z) (control_block : nat -> Z) (dont_update_on_read : bool).
Context (int64_hasher : Z -> Z) (string_view_hasher : string -> Z) (fmt_format : string -> list string -> outcome string).
Abbreviation mapstate := (TLStatsMap.maps * (TLStats.tls (HV := HV) * service))%type.
Abbreviation state := (ThreadCached.tcd * mapstate)%type.
Abbreviation getThreadStats := (ThreadCached.getThreadStats dont_update_on_read).
Definition release (v : shared_ptr) : SE state unit := ThreadCached.on_map (TLStatsMap.release gap_flat time_source v).

(** ** [DynamicTimeseriesWrapper] *)
Section Timeseries.
(** What the wrapper is made with. *)
Context (keyFormat : string) (exportTypes_ : list ExportType) (prototype : option TS).
Abbreviation wrapper := (FormattedKeyHolder.holder (value := shared_ptr)).
Definition prepareKey (key : string) : SE state unit := ThreadCached.export_each hash gap_stats key exportTypes_ prototype true.
(** [GetTLTimeseriesFn] *)
Definition GetTLTimeseriesFn (t : nat) (key : string) : SE state shared_ptr :=
  let* c := getThreadStats t in ThreadCached.on_map (TLStatsMap.getTimeseriesSafe hash gap_stats control_block c key).
Definition entry_of : nat -> list view -> SE (wrapper * state) FormattedKeyHolder.local_entry :=
  FormattedKeyHolder.getFormattedEntry int64_hasher string_view_hasher fmt_format keyFormat prepareKey GetTLTimeseriesFn release.
Definition key_of (t : nat) (subkeys : list view) : SE (wrapper * state) string :=
  FormattedKeyHolder.getFormattedKey int64_hasher string_view_hasher fmt_format keyFormat prepareKey GetTLTimeseriesFn release t subkeys.
Definition on_state {A} (f : SE state A) : SE (wrapper * state) A := FormattedKeyHolder.on_world f.

Definition add (t : nat) (value : Z) (subkeys : list view) : SE (wrapper * state) unit :=
  let* entry := FormattedKeyHolder.getFormattedKeyWithExtra int64_hasher string_view_hasher fmt_format keyFormat prepareKey
                  GetTLTimeseriesFn release t subkeys in
  match object entry.2 with
  | Some p => on_state (ThreadCached.on_local (TLStats.addValue p value))
  | None => se_throw undefined_behaviour
  end.
Definition addAggregated (t : nat) (sum numSamples : Z) (subkeys : list view) : SE (wrapper * state) unit :=
  let* key := key_of t subkeys in
  on_state (ThreadCached.addStatValueAggregated hash gap_stats control_block dont_update_on_read t key sum numSamples).
Fixpoint clear_types (t : nat) (key : string) (types : list ExportType) : SE state unit :=
  match types with
  | [] => se_ret tt
  | exportType :: types' =>
      ThreadCached.vivify >>>
      ThreadCached.clearStat hash gap_stats dont_update_on_read t key exportType >>>
      clear_types t key types'
  end.
Definition clear (t : nat) (subkeys : list view) : SE (wrapper * state) unit :=
  let* key := key_of t subkeys in
  on_state (clear_types t key exportTypes_) >>>
  on_state (let* c := getThreadStats t in ThreadCached.on_map (TLStatsMap.clearTimeseriesSafe gap_flat time_source c key)) >>>
  FormattedKeyHolder.eraseFormattedKey release t subkeys.
Definition exportKey (t : nat) (subkeys : list view) : SE (wrapper * state) unit := let* _ := key_of t subkeys in se_ret tt.
Definition prepareFormattedKey (t : nat) (subkeys : list view) : SE (wrapper * state) string := key_of t subkeys.
(** The caller gets an owner of its own. *)
Definition getDynamicCounter (t : nat) (key : string) : SE (wrapper * state) shared_ptr := on_state (GetTLTimeseriesFn t key).
End Timeseries.

(** ** [DynamicHistogramWrapper]: no cached value *)
Section Histograms.
Context (keyFormat : string) (spec : ThreadCached.histogram_spec (TS := TS)).
Abbreviation wrapper := (FormattedKeyHolder.holder (value := unit)).
Definition histogram_prepareKey (key : string) : SE state unit := ThreadCached.on_service (ThreadCached.apply_spec hash gap_hists spec key).
Definition histogram_key_of (t : nat) (subkeys : list view) : SE (wrapper * state) string :=
  FormattedKeyHolder.getFormattedKey int64_hasher string_view_hasher fmt_format keyFormat histogram_prepareKey
    (fun _ _ => se_ret tt) (fun _ => se_ret tt) t subkeys.
Definition histogram_add (t : nat) (value : Z) (subkeys : list view) : SE (wrapper * state) unit :=
  let* key := histogram_key_of t subkeys in
  FormattedKeyHolder.on_world (ThreadCached.addHistogramValue control_block dont_update_on_read t key value).
Definition histogram_exportKey (t : nat) (subkeys : list view) : SE (wrapper * state) unit :=
  let* _ := histogram_key_of t subkeys in se_ret tt.
End Histograms.
End Model.
End DynamicStats.
