(* ===== verification/DynamicCorrect.v ===== *)
(** * DynamicCorrect: the pointers a dynamic wrapper caches

    A [DynamicTimeseriesWrapper] among the threads of [ThreadCached]: what its
    [FormattedKeyHolder] caches for a thread with an array of subkeys is an owner of
    a living, registered time series whose name is the formatted key - through any
    calls, clears, ends of threads and rounds of the publisher. *)
From S2P Require Import Prelude CountedRuns RegexUtil FlatCounters CallbackValuesMap NamedCallbacks TLStatsLockTraits ExportType Timeseries TimeseriesExporter HistogramExporter HistogramNames ExportedStatMap ExportedHistogramMap QuantileStat QuantileStatMap ServiceOptions ServiceData TLStats TLStatsConserve TLStatsRegistered TLStatsCounts StatPtr TLStatsMap TLStatsMapCorrect TLStatsMapTidy TLStatsMapSteps FormattedKey FormattedKeyCorrect ThreadCached ThreadCachedCorrect ThreadCachedTheorems DynamicStats.
From Stdlib Require Import ZArith Lia Ascii String.
From stdpp Require Import base gmap sets list strings.
Import FormattedKeyHolder DynamicStats.

Open Scope Z_scope.
Open Scope fb303_scope.

Section Dynamic.
Context {M : Type} `{RegexMatchCache M} {TS Hg HV : Type} `{FollyHistogram TS Hg HV} `{SimpleHistogram HV}.
Context {E U US Getter Setter W : Type} (hash : string -> Z) `{LockTraits} `{TypedPtr}.
Abbreviation service := (ServiceData.state M TS Hg E U US Getter Setter W).
Abbreviation dynamic_counters := (CallbackValuesMap.cvm (counter_callback U) M).
Context (gap_stats : ExportedStatMap.statmap TS * dynamic_counters -> ExportedStatMap.statmap TS * dynamic_counters).
Context (time_source : nat -> Z) (control_block : nat -> Z) (dont_update_on_read : bool).
Hypothesis low_addresses : forall p, 0 <= control_block p < 2 ^ 59.
Context (int64_hasher : Z -> Z) (string_view_hasher : string -> Z) (fmt_format : string -> list string -> outcome string).
Context (keyFormat : string) (exportTypes_ : list ExportType) (prototype : option TS).
Abbreviation local_state := (TLStats.tls (HV := HV) * service)%type.
Abbreviation mapstate := (TLStatsMap.maps * local_state)%type.
Abbreviation state := (ThreadCached.tcd * mapstate)%type.
Abbreviation wrapper := (holder (value := shared_ptr)).
Abbreviation make := SubkeyUtils.makeSubkeyArray.
Abbreviation format a := (SubkeyUtils.formatKey fmt_format keyFormat a).
Abbreviation tinv := (ThreadCachedCorrect.tinv control_block).
Abbreviation step := (ThreadCachedCorrect.step control_block).
Abbreviation release := (DynamicStats.release (fun c => c) time_source).
Abbreviation get_series := (GetTLTimeseriesFn hash gap_stats control_block dont_update_on_read).
Abbreviation entry_of := (DynamicStats.entry_of hash (fun c => c) gap_stats time_source control_block dont_update_on_read int64_hasher string_view_hasher fmt_format keyFormat exportTypes_ prototype).

(** ** What the caches own *)
Definition local_held (l : local_map (value := shared_ptr)) (p : nat) : Z := map_sum (fun e => owns (cached e) p) (map l).
Definition held (h : wrapper) (p : nat) : Z := map_sum (fun l => local_held l p) (localMap_ h).
Definition with_held (h : wrapper) (ext : nat -> Z) (p : nat) : Z := ext p + held h p.
Lemma local_held_nonneg l p : 0 <= local_held l p.
Proof. apply map_sum_nonneg. intros i e _. apply owns_nonneg. Qed.
Lemma caches_nonneg h p : 0 <= held h p.
Proof. apply map_sum_nonneg. intros i l _. apply local_held_nonneg. Qed.
Lemma held_with_local t l h p : held (with_local t l h) p = held h p - local_held (local t h) p + local_held l p.
Proof.
  unfold held, local, with_local. cbn [localMap_]. destruct (localMap_ h !! t) as [l0|] eqn:El.
  - by rewrite (map_sum_update _ _ _ _ _ El).
  - rewrite map_sum_insert by done. assert (E0 : local_held no_local p = 0) by apply map_sum_empty. change (default no_local None) with (no_local (value := shared_ptr)). rewrite E0. lia.
Qed.
Lemma held_cached t a e h p : map (local t h) !! a = Some e -> object (cached e) = Some p -> 1 <= held h p.
Proof.
  intros Ha Hp. unfold local in Ha. destruct (localMap_ h !! t) as [l|] eqn:El; [|by cbn in Ha; rewrite lookup_empty in Ha]. cbn in Ha.
  assert (Ho : owns (cached e) p = 1) by (unfold owns; by rewrite bool_decide_eq_true_2).
  assert (H1l : 1 <= local_held l p).
  { rewrite <- Ho. apply (map_sum_at_least (fun e => owns (cached e) p) _ a e Ha). intros i x _. apply owns_nonneg. }
  assert (Hl : local_held l p <= held h p).
  { apply (map_sum_at_least (fun l => local_held l p) _ t l El). intros i x _. apply local_held_nonneg. }
  lia.
Qed.

(** ** The invariant *)
Definition names (h : wrapper) (s : mapstate) : Prop := forall t a e p, map (local t h) !! a = Some e -> object (cached e) = Some p ->
  exists x n, TLStats.stats s.2.1 !! p = Some x /\ TLStats.isLinked x = true /\ globalMap_ h !! a = Some n /\ TLStats.name x = n.
Record dinv (ext : nat -> Z) (h : wrapper) (s : state) : Prop := {
  d_holder : holder_ok int64_hasher string_view_hasher h;
  d_state : tinv (with_held h ext) s;
  d_names : names h s.2;
  d_format : forall a n, globalMap_ h !! a = Some n -> format a = Ret n
}.
Definition dstep {A} (amount : string -> Z) (m : SE (wrapper * state) A) : Prop := forall ext h s a h' s',
  (forall p, 0 <= ext p) -> dinv ext h s -> m (h, s) = (Ret a, (h', s')) -> dinv ext h' s' /\ adds ext amount s.2 s'.2.
Lemma dstep_bind {A B} f g (m : SE (wrapper * state) A) (k : A -> SE (wrapper * state) B) :
  dstep f m -> (forall a, dstep g (k a)) -> dstep (fun n => f n + g n) (se_bind m k).
Proof.
  intros Hm Hk ext h s b h' s' He Hi (a & [h1 s1] & E1 & E2)%se_bind_inv. destruct (Hm ext h s a h1 s1 He Hi E1) as [Hi1 A1].
  destruct (Hk a ext h1 s1 b h' s' He Hi1 E2) as [Hi2 A2]. split; [done|]. by apply (adds_trans ext f g s.2 s1.2).
Qed.
Lemma dstep_then {A B} f (m : SE (wrapper * state) A) (k : A -> SE (wrapper * state) B) :
  dstep nothing m -> (forall a, dstep f (k a)) -> dstep f (se_bind m k).
Proof.
  intros Hm Hk ext h s b h' s' He Hi E1. destruct (dstep_bind nothing f m k Hm Hk ext h s b h' s' He Hi E1) as [Hi' Ha].
  split; [done|]. by apply (adds_ext ext (fun n => nothing n + f n)).
Qed.
Lemma dstep_ret {A} (a : A) : dstep nothing (se_ret a).
Proof. intros ext h s b h' s' _ Hi [= <- <- <-]. split; [done|]. by apply adds_same, counts_same_stats. Qed.
(** The caches' series stay when the world moves on and keeps what they own. *)
Lemma names_kept h ext s s' : names h s -> outside_kept (with_held h ext) s s' -> (forall p, 0 <= ext p) -> names h s'.
Proof.
  intros Hn F He t a e p Ha Hp. destruct (Hn t a e p Ha Hp) as (x & n & Hx & Hl & Hgn & Hnm). pose proof (held_cached t a e h p Ha Hp) as Hh.
  destruct (F p x) as (x' & Hx' & L & N); [unfold with_held; specialize (He p); lia|done|].
  exists x', n. split; [done|]. split; [congruence|]. split; [done|]. rewrite <- Hnm. unfold TLStats.name. by rewrite N.
Qed.
Lemma adds_outside h ext f (s s' : mapstate) : adds (with_held h ext) f s s' -> adds ext f s s'.
Proof. apply adds_weaken. intros p. unfold with_held. pose proof (caches_nonneg h p). lia. Qed.
Lemma on_world_inv {A} (f : SE state A) (h h' : wrapper) s s' a : on_world f (h, s) = (Ret a, (h', s')) -> f s = (Ret a, s') /\ h' = h.
Proof. unfold on_world. cbn. destruct (f s) as [r x]. by intros [= -> <- <-]. Qed.
Lemma dstep_world {A} f (m : SE state A) : (forall ext, step ext f m) -> dstep f (on_world m).
Proof.
  intros Hm ext h s a h' s' He Hi (E1 & ->)%on_world_inv. destruct (Hm (with_held h ext) s a s' (d_state _ _ _ Hi) E1) as [Hi' Ha].
  split; [|by apply (adds_outside h)]. split; try apply Hi; [done|]. apply (names_kept h ext s.2); [apply Hi|apply Ha|done].
Qed.

(** ** Finding an entry *)
Lemma provides_get_series : provides control_block (get_series : nat -> string -> SE state shared_ptr).
Proof.
  apply (provides_in_thread control_block dont_update_on_read (fun c key => TLStatsMap.getTimeseriesSafe hash gap_stats control_block c key));
    intros; [by apply gives_getTimeseriesSafe|apply tidy_getTimeseriesSafe].
Qed.
Lemma dinv_last ext h s t i : dinv ext h s -> holder_ok int64_hasher string_view_hasher (with_local t (LocalMapAndLast i (map (local t h))) h) ->
  dinv ext (with_local t (LocalMapAndLast i (map (local t h))) h) s.
Proof.
  intros Hi Hh. split; [done| |..].
  - apply (tinv_same control_block (with_held h ext)); [apply Hi|]. intros p. unfold with_held. rewrite held_with_local. unfold local_held. cbn. lia.
  - intros u a e p. rewrite local_with. case_decide as Hu; [subst u|]; apply (d_names _ _ _ Hi).
  - apply Hi.
Qed.
Lemma find_local_step ext h s t k r h' s' : dinv ext h s -> find_local int64_hasher string_view_hasher t k (h, s) = (r, (h', s')) ->
  r = Ret (map (local t h) !! make k) /\ s' = s /\ dinv ext h' s /\ forall u, map (local u h') = map (local u h).
Proof.
  intros Hi Ef. destruct (find_local_effect int64_hasher string_view_hasher t k (h, s) (h', s') r (d_holder _ _ _ Hi) Ef) as (Hr & Hh & _ & Hs).
  cbn [fst snd] in *. split; [done|]. split; [done|].
  assert (Hw : h' = h \/ exists i, h' = with_local t (LocalMapAndLast i (map (local t h))) h).
  { unfold find_local, se_bind, se_get in Ef. cbn [fst snd] in Ef. destruct (last_matches _ _ _ k); [injection Ef as _ <- _; by left|].
    destruct (map (local t h) !! make k); [|injection Ef as _ <- _; by left]. injection Ef as _ <- _. right. by eexists. }
  destruct Hw as [->|[i ->]]; [done|]. split; [by apply dinv_last|]. intros u. rewrite local_with. by case_decide as Hu; [subst u|].
Qed.
Lemma prepare_step ext key : step ext nothing (prepareKey hash gap_stats exportTypes_ prototype key : SE state unit).
Proof.
  unfold prepareKey. induction exportTypes_ as [|type types IH]; [apply step_ret|]. cbn [ThreadCached.export_each]. apply step_then; [|intros _; exact IH].
  apply step_map; [apply good_service, keeps_addStatExportType|apply tidy_service].
Qed.
Lemma insert_global_inv ext h s a n : dinv ext h s -> globalMap_ h !! a = None -> format a = Ret n ->
  dinv ext (with_global (<[a := n]> (globalMap_ h)) h) s.
Proof.
  intros Hi Ha Hf. split.
  - intros t. apply (global_grows int64_hasher string_view_hasher (globalMap_ h)); [|apply Hi]. intros b [m Hb]. cbn.
    destruct (decide (b = a)) as [->|Hne]; [by rewrite lookup_insert_eq|by rewrite lookup_insert_ne; [exists m|]].
  - apply Hi.
  - intros t b e p Hb Hp. destruct (d_names _ _ _ Hi t b e p Hb Hp) as (x & m & Hx & Hl & Hg1 & Hnm). exists x, m. split_and!; try done.
    cbn. rewrite lookup_insert_ne; [done|]. intros ->. congruence.
  - intros b m. cbn. rewrite lookup_insert_Some. intros [[<- <-]|[_ Hb]]; [done|by apply (d_format _ _ _ Hi)].
Qed.
Lemma global_step ext h s a h' s' : (forall p, 0 <= ext p) -> dinv ext h s ->
  getFormattedKeyGlobal fmt_format keyFormat (prepareKey hash gap_stats exportTypes_ prototype) a (h, s) = (Ret tt, (h', s')) ->
  dinv ext h' s' /\ adds ext nothing s.2 s'.2 /\ localMap_ h' = localMap_ h.
Proof.
  intros He Hi. unfold getFormattedKeyGlobal. intros (f & [h1 s1] & E1 & E2)%se_bind_inv. rewrite find_global_eq in E1. injection E1 as <- <- <-.
  cbn [fst] in E2. case_bool_decide as Hg1.
  { injection E2 as <- <-. split; [done|]. split; [by apply adds_same, counts_same_stats|done]. }
  apply se_bind_inv in E2 as (f & [h1 s1] & E1 & E2). rewrite find_global_eq in E1. injection E1 as <- <- <-.
  cbn [fst] in E2. rewrite bool_decide_eq_false_2 in E2 by done.
  apply se_bind_inv in E2 as (n & [h1 s1] & E1 & E2). unfold format_and_prepare in E1.
  destruct (format a) as [fk|] eqn:Hf; [|done]. apply se_bind_inv in E1 as ([] & [h2 s2] & E1 & [= <- <- <-]).
  destruct (dstep_world nothing _ (fun ext => prepare_step ext fk) ext h s tt h2 s2 He Hi E1) as [Hi2 A2].
  apply on_world_inv in E1 as [_ ->]. injection E2 as <- <-. cbn [fst snd]. apply eq_None_not_Some in Hg1. rewrite Hg1.
  split; [|done]. by apply insert_global_inv.
Qed.
(** A thread fills in its map. *)
Lemma remember_step ext h s t k e h' s' : (forall p, 0 <= ext p) -> dinv ext h s -> map (local t h) !! make k = None ->
  remember int64_hasher string_view_hasher get_series release t k (h, s) = (Ret e, (h', s')) ->
  dinv ext h' s' /\ adds ext nothing s.2 s'.2 /\ key e = make k /\ map (local t h') !! make k = Some e.
Proof.
  intros He Hi Hn Er. destruct (remember_effect int64_hasher string_view_hasher get_series release t k (h, s) (h', s') (Ret e) (d_holder _ _ _ Hi) Er) as (Hh & _ & Hr).
  destruct (Hr e eq_refl) as (Ek & [n Hgn] & Hm). cbn [fst snd] in *. unfold remember in Er. apply se_bind_inv in Er as (v & s0 & E0 & Er).
  unfold deref in E0. cbn [fst] in E0. rewrite Hgn in E0. injection E0 as <- <-. apply se_bind_inv in Er as (c & [h1 s1] & E1 & Er).
  apply on_world_inv in E1 as [Es ->]. apply se_bind_inv in Er as (s0 & s2 & [= <- <-] & Er). cbn [fst] in Er. rewrite Hn in Er.
  destruct (provides_get_series (with_held h ext) t n s c s1 (d_state _ _ _ Hi) Es) as (Hi1 & A1 & Hx). injection Er as Ee Eh <-.
  split; [|split; [by apply (adds_outside h)|done]].
  assert (Hl : forall u, map (local u h') = if decide (u = t) then <[make k := e]> (map (local t h)) else map (local u h)).
  { intros u. rewrite <- Eh, <- Ee, local_with. case_decide as Hu; [subst u; rewrite local_with, decide_True by done; done|]. rewrite local_with, decide_False by done. done. }
  split; [done| |..].
  - apply (tinv_same control_block (TLStatsMapCorrect.plus c (with_held h ext))); [done|]. intros p. unfold with_held, TLStatsMapCorrect.plus.
    rewrite <- Eh, !held_with_local, local_with, decide_True by done. unfold local_held. cbn [map last]. rewrite map_sum_insert by done. cbn [cached]. fold (owns c p). lia.
  - assert (Hn1 : names h s1.2) by (apply (names_kept h ext s.2); [apply Hi|apply A1|done]).
    assert (Hg1 : globalMap_ h' = globalMap_ h) by (by rewrite <- Eh).
    intros u a e' p. rewrite Hl, Hg1. case_decide as Hu; [|apply Hn1]. subst u. rewrite lookup_insert_Some. intros [[<- <-]|[_ Ha]]; [|by apply (Hn1 t)].
    intros Hp. rewrite <- Ee in Hp. destruct (Hx p Hp) as (x & Hx1 & Hl1 & Hn2). by exists x, n.
  - rewrite <- Eh. apply Hi.
Qed.
Lemma entry_step ext h s t k e h' s' : (forall p, 0 <= ext p) -> dinv ext h s -> entry_of t k (h, s) = (Ret e, (h', s')) ->
  dinv ext h' s' /\ adds ext nothing s.2 s'.2 /\ key e = make k /\ map (local t h') !! make k = Some e.
Proof.
  intros He Hi (f & [h1 s1] & E1 & E2)%se_bind_inv. destruct (find_local_step ext h s t k _ h1 s1 Hi E1) as (Ef & -> & Hi1 & Hm).
  injection Ef as ->. destruct (map (local t h) !! make k) as [e0|] eqn:Hk.
  - injection E2 as -> <- <-. split; [done|]. split; [by apply adds_same, counts_same_stats|]. rewrite Hm. split; [|done]. by apply (d_holder _ _ _ Hi t).
  - apply se_bind_inv in E2 as ([] & [h2 s2] & E2 & E3). destruct (global_step ext h1 s (make k) h2 s2 He Hi1 E2) as (Hi2 & A2 & El).
    destruct (remember_step ext h2 s2 t k e h' s' He Hi2) as (Hi3 & A3 & Hr); [|done|].
    + unfold local. rewrite El. change (map (local t h1) !! make k = None). by rewrite Hm.
    + split; [done|]. split; [|done]. apply (adds_ext ext (fun n => nothing n + nothing n)); [done|]. by apply (adds_trans ext _ _ s.2 s2.2).
Qed.
Lemma deref_inv (h h' : wrapper) (s s' : state) a n : deref a (h, s) = (Ret n, (h', s')) -> h' = h /\ s' = s /\ globalMap_ h !! a = Some n.
Proof. unfold deref. cbn [fst]. destruct (globalMap_ h !! a); [|done]. by intros [= -> <- <-]. Qed.
Abbreviation key_of := (DynamicStats.key_of hash (fun c => c) gap_stats time_source control_block dont_update_on_read int64_hasher string_view_hasher fmt_format keyFormat exportTypes_ prototype).
Lemma key_step t k : dstep nothing (key_of t k).
Proof.
  intros ext h s n h' s' He Hi (e & [h1 s1] & E1 & E2)%se_bind_inv. apply deref_inv in E2 as (-> & -> & _).
  by destruct (entry_step ext h s t k e h1 s1 He Hi E1) as (? & ? & _).
Qed.

(** ** The wrapper's operations *)
Lemma step_vivify ext : step ext nothing (ThreadCached.vivify : SE state unit).
Proof.
  intros s [] s' Hi Ev. assert (Hs : s'.2 = s.2 /\ ThreadCached.threadLocalStats_ s'.1 = ThreadCached.threadLocalStats_ s.1).
  { unfold ThreadCached.vivify, ThreadCached.try_get, se_bind, se_get, ThreadCached.modify, se_ret in Ev. destruct s as [x y]. cbn [fst snd] in Ev.
    destruct (ThreadCached.publisherManager x); by injection Ev as <-. }
  destruct Hs as [E2 E1]. split; [|by apply adds_same, counts_same_stats; rewrite E2]. destruct Hi as [I1 I2 I3 I4].
  split; rewrite ?E2, ?E1; done.
Qed.
Lemma step_clear_types ext t key types : step ext nothing (clear_types hash gap_stats dont_update_on_read t key types : SE state unit).
Proof.
  induction types as [|type types IH]; [apply step_ret|]. cbn [clear_types].
  apply step_then; [apply step_vivify|intros _]. apply step_then; [by apply step_clearStat|intros _; exact IH].
Qed.
Lemma release_step ext v (s s' : state) : (forall p, 0 <= ext p) -> tinv (TLStatsMapCorrect.plus v ext) s -> release v s = (Ret tt, s') ->
  tinv ext s' /\ adds ext nothing s.2 s'.2.
Proof.
  intros He Hi (Er & E1)%on_map_inv.
  destruct (release_effect time_source control_block ext v s.2 s'.2) as (Hi2 & C2 & S2); [apply Hi|done|done|].
  destruct (tidy_release time_source v s.2 tt s'.2 (ti_tidy _ _ _ Hi) Er) as [Hy Hs].
  split; [by apply (tinv_maps control_block (TLStatsMapCorrect.plus v ext) _ s)|by apply adds_same].
Qed.
Lemma erase_step t k : dstep nothing (eraseFormattedKey release t k).
Proof.
  intros ext h s [] h' s' He Hi Ee. destruct (erase_effect int64_hasher string_view_hasher release t k (h, s) (h', s') (Ret tt) (d_holder _ _ _ Hi) Ee) as [Hh _].
  unfold eraseFormattedKey in Ee. apply se_bind_inv in Ee as (s0 & s1 & [= <- <-] & Ee). cbn [fst] in Ee.
  apply se_bind_inv in Ee as ([] & s1 & [= <-] & Ee). cbn [fst snd] in *. set (h1 := with_local t _ h) in *.
  assert (Hm : forall u a e, map (local u h1) !! a = Some e -> map (local u h) !! a = Some e).
  { intros u a e. unfold h1. rewrite local_with. case_decide as Hu; [subst u|done]. cbn. by intros [_ ?]%lookup_delete_Some. }
  assert (Hn : names h1 s.2) by (intros u a e p Ha; exact (d_names _ _ _ Hi u a e p (Hm u a e Ha))).
  destruct (map (local t h) !! make k) as [e|] eqn:Hk.
  - apply on_world_inv in Ee as [Er ->]. cbn [fst snd] in *.
    assert (Hp : forall p, TLStatsMapCorrect.plus (cached e) (with_held h1 ext) p = with_held h ext p).
    { intros p. unfold TLStatsMapCorrect.plus, with_held, h1. rewrite held_with_local. unfold local_held. cbn [map].
      rewrite (map_sum_delete _ _ _ _ Hk). fold (owns (cached e) p). lia. }
    destruct (release_step (with_held h1 ext) (cached e) s s') as [Hi2 A2]; [|apply (tinv_same _ _ _ _ (d_state _ _ _ Hi) Hp)|done|].
    { intros p. unfold with_held. pose proof (caches_nonneg h1 p). specialize (He p). lia. }
    split; [|by apply (adds_outside h1)]. split; [done|done| |apply Hi]. by apply (names_kept h1 ext s.2); [|apply A2|].
  - injection Ee as <- <-. split; [|by apply adds_same, counts_same_stats]. split; [done| |done|apply Hi].
    apply (tinv_same control_block (with_held h ext)); [apply Hi|]. intros p. unfold with_held, h1. rewrite held_with_local.
    unfold local_held. cbn [map]. rewrite delete_id by done. lia.
Qed.
Abbreviation add := (DynamicStats.add hash (fun c => c) gap_stats time_source control_block dont_update_on_read int64_hasher string_view_hasher fmt_format keyFormat exportTypes_ prototype).
Abbreviation addAggregated := (DynamicStats.addAggregated hash (fun c => c) gap_stats time_source control_block dont_update_on_read int64_hasher string_view_hasher fmt_format keyFormat exportTypes_ prototype).
Abbreviation clear := (DynamicStats.clear hash (fun c => c) gap_stats time_source control_block dont_update_on_read int64_hasher string_view_hasher fmt_format keyFormat exportTypes_ prototype).
Abbreviation exportKey := (DynamicStats.exportKey hash (fun c => c) gap_stats time_source control_block dont_update_on_read int64_hasher string_view_hasher fmt_format keyFormat exportTypes_ prototype).
Lemma with_extra_step t k :
  dstep nothing (getFormattedKeyWithExtra int64_hasher string_view_hasher fmt_format keyFormat (prepareKey hash gap_stats exportTypes_ prototype) get_series release t k).
Proof.
  intros ext h s n h' s' He Hi (e & [h1 s1] & E1 & (n1 & [h2 s2] & E2 & [= <- <- <-])%se_bind_inv)%se_bind_inv. apply deref_inv in E2 as (-> & -> & _).
  by destruct (entry_step ext h s t k e h1 s1 He Hi E1) as (? & ? & _).
Qed.
Lemma add_step t v k : dstep nothing (add t v k).
Proof.
  apply dstep_then; [apply with_extra_step|]. intros [n c]. cbn [snd]. destruct (object c) as [p|]; [|done].
  apply dstep_world. intros ext. apply step_map; [apply good_quiet, quiet_addValue|apply tidy_local, orderly_addValue].
Qed.
Lemma addAggregated_step t v n k : dstep nothing (addAggregated t v n k).
Proof. apply dstep_then; [apply key_step|]. intros key. apply dstep_world. intros ext. by apply step_addStatValueAggregated. Qed.
Lemma exportKey_step t k : dstep nothing (exportKey t k).
Proof. apply dstep_then; [apply key_step|]. intros key. apply dstep_ret. Qed.
Lemma clear_step t k : dstep nothing (clear t k).
Proof.
  apply dstep_then; [apply key_step|]. intros key. apply dstep_then; [apply dstep_world; intros ext; apply step_clear_types|].
  intros _. apply dstep_then; [|intros _; apply erase_step]. apply dstep_world. intros ext.
  apply (step_in_thread control_block dont_update_on_read ext t (fun c => TLStatsMap.clearTimeseriesSafe (fun c => c) time_source c key));
    intros c; [by apply good_erase|apply tidy_erase].
Qed.

(** A thread's map goes with its entries. *)
Definition with_each (l : list (local_entry (value := shared_ptr))) (ext : nat -> Z) (p : nat) : Z :=
  ext p + foldr (fun e acc => owns (cached e) p + acc) 0 l.
Lemma with_each_least l ext p : ext p <= with_each l ext p.
Proof. unfold with_each. induction l as [|e l IH]; cbn; [lia|]. pose proof (owns_nonneg (cached e) p). lia. Qed.
Lemma release_each_step l ext (h h' : wrapper) (s s' : state) : (forall p, 0 <= ext p) -> tinv (with_each l ext) s ->
  release_each release l (h, s) = (Ret tt, (h', s')) -> tinv ext s' /\ adds ext nothing s.2 s'.2 /\ h' = h.
Proof.
  intros He. revert s. induction l as [|e l IH]; intros s Hi; cbn [release_each].
  - intros [= <- <-]. split; [|split; [by apply adds_same, counts_same_stats|done]].
    apply (tinv_same control_block (with_each [] ext)); [done|]. intros p. unfold with_each. cbn. lia.
  - intros ([] & [h1 s1] & E1 & E2)%se_bind_inv. apply on_world_inv in E1 as [E1 ->].
    destruct (release_step (with_each l ext) (cached e) s s1) as [Hi1 A1]; [| |done|].
    + intros p. pose proof (with_each_least l ext p). specialize (He p). lia.
    + apply (tinv_same control_block (with_each (e :: l) ext)); [done|]. intros p. unfold TLStatsMapCorrect.plus, with_each. cbn [foldr].
      fold (owns (cached e) p). lia.
    + destruct (IH s1 Hi1 E2) as (Hi2 & A2 & ->). split; [done|]. split; [|done].
      apply (adds_ext ext (fun n => nothing n + nothing n)); [done|]. apply (adds_trans ext _ _ s.2 s1.2); [|done].
      apply (adds_weaken (with_each l ext)); [apply with_each_least|done].
Qed.
Lemma local_held_each l ext p : with_each (map_to_list (map l)).*2 ext p = ext p + local_held l p.
Proof. unfold with_each, local_held, map_sum. f_equal. rewrite map_fold_foldr, foldr_fmap. by induction (map_to_list (map l)) as [|[i e] l0 IH]; cbn; [|rewrite IH]. Qed.
Lemma end_step t : dstep nothing (end_thread release t).
Proof.
  intros ext h s [] h' s' He Hi Ee. destruct (end_thread_effect int64_hasher string_view_hasher release t (h, s) (h', s') (Ret tt) (d_holder _ _ _ Hi) Ee) as [Hh _].
  unfold end_thread in Ee. apply se_bind_inv in Ee as (s0 & s1 & [= <- <-] & Ee). cbn [fst] in Ee.
  apply se_bind_inv in Ee as ([] & s1 & [= <-] & Ee). cbn [fst snd] in *. set (h1 := Holder (globalMap_ h) (delete t (localMap_ h))) in *.
  assert (Hd : forall p, held h1 p = held h p - local_held (local t h) p).
  { intros p. unfold held, h1, local. cbn [localMap_]. destruct (localMap_ h !! t) as [l|] eqn:El; [by rewrite (map_sum_delete _ _ _ _ El)|].
    rewrite delete_id by done. assert (E0 : local_held no_local p = 0) by apply map_sum_empty. change (default no_local None) with (no_local (value := shared_ptr)). lia. }
  assert (Hm : forall u a e, map (local u h1) !! a = Some e -> map (local u h) !! a = Some e).
  { intros u a e. unfold local, h1. cbn [localMap_]. destruct (decide (u = t)) as [->|Hne]; [by rewrite lookup_delete_eq|by rewrite lookup_delete_ne]. }
  destruct (release_each_step (map_to_list (map (local t h))).*2 (with_held h1 ext) h1 h' s s') as (Hi1 & A1 & ->); [| |done|].
  - intros p. unfold with_held. pose proof (caches_nonneg h1 p). specialize (He p). lia.
  - apply (tinv_same control_block (with_held h ext)); [apply Hi|]. intros p. rewrite local_held_each. unfold with_held. rewrite Hd. lia.
  - split; [|by apply (adds_outside h1)]. split; [done|done| |apply Hi].
    apply (names_kept h1 ext s.2); [|apply A1|done]. intros u a e p Ha. exact (d_names _ _ _ Hi u a e p (Hm u a e Ha)).
Qed.

(** ** Any run *)
Inductive dop :=
  | DAdd (t : nat) (value : Z) (subkeys : list view) | DAddAggregated (t : nat) (sum numSamples : Z) (subkeys : list view)
  | DClear (t : nat) (subkeys : list view) | DExport (t : nat) (subkeys : list view) | DThreadEnds (t : nat)
  | DIncrement (t : nat) (key : string) (amount : Z) | DThreadMapEnds (t : nat) | DAggregate.
Definition perform (o : dop) : SE (wrapper * state) unit :=
  match o with
  | DAdd t value subkeys => add t value subkeys
  | DAddAggregated t sum numSamples subkeys => addAggregated t sum numSamples subkeys
  | DClear t subkeys => clear t subkeys
  | DExport t subkeys => exportKey t subkeys
  | DThreadEnds t => end_thread release t
  | DIncrement t key amount => on_world (ThreadCached.incrementCounter control_block dont_update_on_read t key amount)
  | DThreadMapEnds t => on_world (ThreadCached.end_thread (fun c => c) time_source t)
  | DAggregate => on_world (let* s := se_get in
      let* _ := ThreadCached.aggregate_threads (fun c => c) time_source (map_to_list (ThreadCached.threadLocalStats_ s.1)).*2 0 0 in se_ret tt)
  end.
Fixpoint performed (l : list dop) : SE (wrapper * state) unit :=
  match l with [] => se_ret tt | o :: l' => perform o >>> performed l' end.
Fixpoint asked (l : list dop) (k : string) : Z :=
  match l with [] => 0 | o :: l' => match o with DIncrement _ key amount => only key amount k | _ => 0 end + asked l' k end.
Lemma perform_step o : dstep (fun k => match o with DIncrement _ key amount => only key amount k | _ => 0 end) (perform o).
Proof.
  destruct o as [t v k|t v n k|t k|t k|t|t key a|t|]; cbn [perform].
  - apply add_step.
  - apply addAggregated_step.
  - apply clear_step.
  - apply exportKey_step.
  - apply end_step.
  - apply dstep_world. intros ext. by apply step_incrementCounter.
  - apply dstep_world. intros ext. apply step_end_thread.
  - apply dstep_world. intros ext s [] s' Hi (s0 & s1 & [= <- <-] & E1)%se_bind_inv.
    exact (step_then control_block ext nothing _ _ (step_aggregate_threads time_source control_block ext _ 0 0) (fun _ => step_ret control_block ext tt) s tt s' Hi E1).
Qed.
Lemma performed_step l : dstep (asked l) (performed l).
Proof. induction l as [|o l IH]; [apply dstep_ret|]. cbn [performed asked]. by apply dstep_bind; [apply perform_step|]. Qed.

(** C10: a dynamic wrapper never updates a series of another name, nor one that is
    gone.  From a fresh state, let any threads add, add aggregated, clear and export
    through the wrapper with any subkeys and count by name, with threads' caches and
    maps ending and rounds of aggregation in between, every operation returning:
    whatever array of subkeys a thread then asks for, the entry it works with -
    found again as the thread's last one, in its cache, or made now - holds a living,
    registered series of the thread whose name is the formatted key, the one the
    global map has for the array.  And all of it leaves the counts of flat counters
    alone but for the increments asked for, to 64 bits. *)
Theorem dynamic_pointers_safe (s : state) (l : list dop) (h' : wrapper) (s' : state) :
  TLStatsMap.owners s.2.1 = ∅ -> TLStatsMap.state_ s.2.1 = ∅ -> TLStats.stats s.2.2.1 = ∅ -> TLStats.containers s.2.2.1 = ∅ ->
  ThreadCached.threadLocalStats_ s.1 = ∅ -> performed l (empty_holder, s) = (Ret tt, (h', s')) ->
  (forall t keytup e h2 s2, entry_of t keytup (h', s') = (Ret e, (h2, s2)) ->
     exists name, format (make keytup) = Ret name /\ globalMap_ h2 !! make keytup = Some name /\
       forall p, object (cached e) = Some p -> exists x, TLStats.stats s2.2.2.1 !! p = Some x /\ TLStats.isLinked x = true /\ TLStats.name x = name) /\
  (forall k, wraps 64 (TLStatsConserve.total k s'.2.2) = wraps 64 (TLStatsConserve.total k s.2.2 + asked l k)).
Proof.
  intros Ho Hs Hl Hc Ht Hr. assert (He : forall p, 0 <= TLStatsMapCorrect.none p) by done.
  assert (Hi : dinv TLStatsMapCorrect.none empty_holder s).
  { assert (Hnl : forall t, local t (empty_holder (value := shared_ptr)) = no_local) by (intros t; unfold local; cbn; by rewrite lookup_empty). split.
    - intros t. rewrite Hnl. by split.
    - apply (tinv_same control_block TLStatsMapCorrect.none); [by apply tinv_start|]. intros p. unfold with_held, held. cbn. by rewrite map_sum_empty.
    - intros t a e p. rewrite Hnl. cbn. by rewrite lookup_empty.
    - intros a n. cbn. by rewrite lookup_empty. }
  destruct (performed_step l TLStatsMapCorrect.none empty_holder s tt h' s' He Hi Hr) as [Hi' [Ha _]]. split; [|done].
  intros t keytup e h2 s2 Ee. destruct (entry_step TLStatsMapCorrect.none h' s' t keytup e h2 s2 He Hi' Ee) as (Hi2 & _ & Ek & Hm).
  destruct (proj1 (d_holder _ _ _ Hi2 t) _ _ Hm) as [_ [name Hname]]. exists name. split; [by apply (d_format _ _ _ Hi2)|]. split; [done|].
  intros p Hp. destruct (d_names _ _ _ Hi2 t _ e p Hm Hp) as (x & n & Hx & Hlk & Hg2 & Hnm). exists x. split; [done|]. split; [done|]. congruence.
Qed.
End Dynamic.

(** ** Two threads and one name *)
Section Example_.
Import EventSeries CoarseHistogram SampleEstimator PrefixCache.
#[local] Existing Instance TLStatsCounts.example_histogram.
#[local] Existing Instance TLStatsCounts.example_simple.
#[local] Existing Instance TLStatsCounts.example_locks.
#[local] Existing Instance StatPtr.compress.
Definition dynamic_start : ThreadCached.tcd * (TLStatsMap.maps * (TLStats.tls (HV := TLStatsCounts.simple) * _)) :=
  (ThreadCached.initial, (TLStatsMap.Maps ∅ ∅, TLStatsCounts.example_start)).
Definition red : list FormattedKey.view := [VStr "red"].
Definition blue : list FormattedKey.view := [VStr "blue"].
Definition dynamic_ops : list dop :=
  [DAdd 1 30 red; DAdd 1 4 red; DAdd 2 5 red; DAdd 1 1 blue; DIncrement 1 "hits" 5; DAggregate; DClear 1 red; DAdd 1 6 red; DAddAggregated 2 9 3 blue;
   DThreadEnds 1; DThreadMapEnds 1; DExport 2 red; DAdd 2 7 red].
Definition dynamic_run := performed TLStatsCounts.name_hash id (fun n => Z.of_nat n) example_blocks false id name_size fill "pets.{}" [AVG] None
  dynamic_ops (empty_holder, dynamic_start).
Abbreviation dynamic_entry :=
  (DynamicStats.entry_of TLStatsCounts.name_hash id id (fun n => Z.of_nat n) example_blocks false id name_size fill "pets.{}" [AVG] None 2 red).
Lemma dynamic_pointers_safe_witness :
  match dynamic_run with
  | (Ret tt, s) =>
      match dynamic_entry s with
      | (Ret e, s2) => exists p x, object (cached e) = Some p /\ TLStats.stats s2.2.2.2.1 !! p = Some x /\ TLStats.name x = "pets.red"%string /\
          wraps 64 (TLStatsConserve.total "hits" s.2.2.2) = 12
      | _ => False
      end
  | _ => False
  end.
Proof.
  assert (Hb : forall p, 0 <= example_blocks p < 2 ^ 59) by (intros p; apply Z.mod_pos_bound; reflexivity).
  assert (Hv : match dynamic_run with
    | (Ret tt, s) => match dynamic_entry s with (Ret e, s2) => Some (bool_decide (is_Some (object (cached e)))) | _ => None end
    | _ => None end = Some true) by (vm_compute; reflexivity).
  destruct dynamic_run as [[[]|x] [h s]] eqn:Er; [|discriminate Hv].
  destruct (dynamic_entry (h, s)) as [[e|x] [h2 s2]] eqn:Ee; [|discriminate Hv].
  injection Hv as Hv. apply bool_decide_eq_true in Hv as [p Hp].
  destruct (dynamic_pointers_safe TLStatsCounts.name_hash id (fun n => Z.of_nat n) example_blocks false Hb id name_size fill "pets.{}" [AVG] None
    dynamic_start dynamic_ops h s eq_refl eq_refl eq_refl eq_refl eq_refl Er) as [Hent Hk].
  destruct (Hent 2%nat red e h2 s2 Ee) as (name & Hf & _ & Hx). destruct (Hx p Hp) as (x & Hx1 & _ & Hn).
  exists p, x. split; [exact Hp|]. split; [exact Hx1|]. split; [rewrite Hn; injection Hf as <-; reflexivity|].
  rewrite Hk. vm_compute. reflexivity.
Defined.
End Example_.
