(* ===== verification/BaseService.v ===== *)
(** * BaseService: the counters a thrift client reads

    [BaseService] of [src/fb303/BaseService.h] and [BaseService.cpp], and
    [LimitUtils.h]: the handlers over [ServiceData], what they catch, the time a
    request may wait for the executor, and the limit a client puts on the number of
    counters in a reply.  A request is its context's header - absent, when thrift
    gives no context or no header - and a reply is a result or an exception. *)
From S2P Require Import Prelude RegexUtil FlatCounters CallbackValuesMap CallbackCorrect NamedCallbacks Timeseries TimeseriesExporter HistogramExporter HistogramNames ExportedStatMap ExportedHistogramMap QuantileStat QuantileStatMap QuantileCorrect QuantileTheorems ServiceOptions ServiceOptionsTheorems ServiceData ServiceReads ServiceTheorems.
From Stdlib Require Import ZArith Lia Ascii String.
From stdpp Require Import base gmap list strings pretty sorting.

Open Scope Z_scope.
Open Scope fb303_scope.
Import LegacyClock.

(** ** [LimitUtils.h] *)
Module LimitUtils.
Definition kCountersAvailableHeader : string := "fb303_counters_available".
(** [THeader]: what came with the request, and what goes with the reply. *)
Record header := Header { headers : gmap string string; write_headers : gmap string string }.
(** [Cpp2RequestContext*] and its [getHeader()], either of them null. *)
Abbreviation request_context := (option (option header)).
Section Model.
(** [folly::tryTo<int>] *)
Context (tryTo_int : string -> option Z).
Definition readThriftHeader (reqCtx : request_context) (key : string) : option Z :=
  match reqCtx with
  | None => None
  | Some None => None
  | Some (Some reqHeader) =>
      match headers reqHeader !! key with
      | None => None
      | Some val =>
          let lim := default (-1) (tryTo_int val) in
          if lim <? 0 then None else Some lim
      end
  end.
(** [emplace] keeps a header that is set. *)
Definition addCountersAvailableToResponse (reqCtx : request_context) (available : nat) : request_context :=
  match reqCtx with
  | None => None
  | Some None => Some None
  | Some (Some h) =>
      Some (Some (Header (headers h)
        (match write_headers h !! kCountersAvailableHeader with
         | Some _ => write_headers h
         | None => <[kCountersAvailableHeader := pretty (N.of_nat available)]> (write_headers h)
         end)))
  end.
End Model.
End LimitUtils.

Module BaseService.
Import LimitUtils.
Definition kCountersLimitHeader : string := "fb303_counters_read_limit".
(** [std::map] in its order; [res.erase(std::next(res.begin(), limit), res.end())]. *)
Definition in_order (m : gmap string Z) : list (string * Z) := sort_by_key (map_to_list m).
Definition erase_from (limit : Z) (res : gmap string Z) : gmap string Z := list_to_map (take (Z.to_nat limit) (in_order res)).
Inductive reply := Result (res : gmap string Z) | Timeout (msg : string) | Failed (e : exn).

Section Model.
Context {M : Type} `{RegexMatchCache M} {TS Hg HV : Type} `{FollyHistogram TS Hg HV}.
Context {E : Type} `{QuantileEstimator E} `{NumberFormat} `{TextParsers}.
Context {U US Getter Setter W : Type} `{GoogleFlags W} `{FollySplit}.
Context (hash : string -> Z).
Abbreviation service := (ServiceData.state M TS Hg E U US Getter Setter W).
Context (run_user : U -> SE service Z) (run_user_string : US -> SE service string).
Context (run_getter : Getter -> SE service string) (run_setter : Setter -> string -> SE service unit).
Context (time_source : nat -> Z) (legacy : bool).
Context (make_heap down_heap :
  (list (string * nat) -> list (string * nat) -> bool) ->
  list (list (string * nat)) -> list (list (string * nat))).
Context (gaps_flat : nat -> RegexUtil.syncmap (M := M) (V := Z) -> RegexUtil.syncmap (M := M) (V := Z)).
Context (gaps_quantiles : nat -> RegexUtil.syncmap (M := M) (V := QuantileStatMap.CounterMapEntry) ->
         RegexUtil.syncmap (M := M) (V := QuantileStatMap.CounterMapEntry)).
Context (gaps_dynamic : nat -> RegexUtil.syncmap (M := M) (V := nat) -> RegexUtil.syncmap (M := M) (V := nat)).
Context (regex_key_and_view : string -> regex) (tryTo_int : string -> option Z).
(** [THRIFT_FLAG(fb303_counters_queue_timeout_ms)] *)
Context (queue_timeout_ms : Z).

(** ** State: the members, and the process's [ServiceData] *)
Record base := Base { name_ : string; getCountersExpiration_ : option Z }.
Abbreviation state := (base * service)%type.
Definition new_service (name : string) : base := Base name None.
Definition on_service {A} (f : SE service A) : SE state A := fun s => let '(r, x) := f s.2 in (r, (s.1, x)).
(** [catch (const std::invalid_argument&)] *)
Definition catch_invalid {A} (m : SE state A) (otherwise : A) : SE state A := fun s =>
  match m s with (Throw (invalid_argument _), s') => (Ret otherwise, s') | r => r end.

(** ** The plain handlers *)
Definition getName : SE state string := let* s := se_get in se_ret (name_ s.1).
Definition getVersion : SE state string := se_ret ""%string.
Definition getStatusDetails : SE state string := se_ret ""%string.
Definition getCounters (now : Z) (out : gmap string Z) : SE state (gmap string Z) :=
  on_service (ServiceReads.getCounters run_user time_source legacy make_heap down_heap now out).
Definition getRegexCounters (regex_now : time_point) (now : Z) (regex : string) (out : gmap string Z) : SE state (gmap string Z) :=
  on_service (ServiceReads.getRegexCounters hash run_user time_source legacy gaps_flat gaps_quantiles gaps_dynamic
                (regex_key_and_view regex) regex_now now out).
Definition getSelectedCounters (now : Z) (keys : list string) (out : gmap string Z) : SE state (gmap string Z) :=
  on_service (ServiceReads.getSelectedCounters hash run_user time_source legacy now keys out).
Definition getCounter (now later : Z) (key : string) : SE state Z :=
  catch_invalid (on_service (ServiceReads.getCounter hash run_user time_source legacy now later key)) 0.
Definition getExportedValues (out : gmap string string) : SE state (gmap string string) :=
  on_service (ServiceReads.getExportedValues run_user_string time_source make_heap down_heap out).
Definition getSelectedExportedValues (keys : list string) (out : gmap string string) : SE state (gmap string string) :=
  on_service (ServiceReads.getSelectedExportedValues hash run_user_string time_source keys out).
Definition getRegexExportedValues (regex : string) (out : gmap string string) : SE state (gmap string string) :=
  on_service (ServiceReads.getRegexExportedValues run_user_string time_source make_heap down_heap regex out).
Definition getExportedValue (_return key : string) : SE state string :=
  on_service (ServiceReads.getExportedValue hash run_user_string time_source _return key).
Definition setOption (key value : string) : SE state unit :=
  let* _ := on_service (ServiceData.setOptionWithResult run_setter key value) in se_ret tt.
Definition getOption (key : string) : SE state string :=
  catch_invalid (on_service (ServiceData.getOption run_getter key)) ""%string.
Definition getOptions : SE state (gmap string string) := on_service (ServiceData.getOptions run_getter).
Definition aliveSince : SE state Z := let* s := se_get in se_ret (ServiceData.aliveSince_ s.2).

(** ** Requests through the executor *)
Definition setGetCountersExpiration (expiration : Z) : SE state unit := fun s => (Ret tt, (Base (name_ s.1) (Some expiration), s.2)).
Definition getCountersExpiration (b : base) : Z :=
  match getCountersExpiration_ b with Some e => e | None => queue_timeout_ms end.
(** [clock::now() - start > expiration], the clock counting nanoseconds; the
    comparison is in nanoseconds, where a larger value overflows. *)
Definition is_expired (start now expiration : Z) : outcome bool :=
  if expiration <=? 0 then Ret false
  else if smax 64 <? expiration * 1000000 then Throw undefined_behaviour
  else Ret (expiration * 1000000 <? now - start).
Definition saturated : string := "counters executor is saturated, request rejected.".
(** The rest of a handler's lambda, after [res] was read. *)
Definition limit_reply (reqCtx : request_context) (limit : option Z) (res : gmap string Z) : reply * request_context :=
  match limit with
  | None => (Result res, reqCtx)
  | Some limit =>
      let numAvailable := size res in
      let res := if limit <? Z.of_nat numAvailable then erase_from limit res else res in
      (Result res, addCountersAvailableToResponse reqCtx numAvailable)
  end.
(** [read] is one of the three; a [catch (...)] sees the exceptions. *)
Definition process (read : gmap string Z -> SE state (gmap string Z)) (start now : Z) (reqCtx : request_context)
    : SE state (reply * request_context) := fun s =>
  match is_expired start now (getCountersExpiration s.1) with
  | Throw e => (Throw e, s)
  | Ret true => (Ret (Timeout saturated, reqCtx), s)
  | Ret false =>
      let limit := readThriftHeader tryTo_int reqCtx kCountersLimitHeader in
      match read ∅ s with
      | (Ret res, s') => (Ret (limit_reply reqCtx limit res), s')
      | (Throw e, s') => match what e with Some _ => (Ret (Failed e, reqCtx), s') | None => (Throw e, s') end
      end
  end.
Definition async_eb_getCounters (start now read_now : Z) (reqCtx : request_context) : SE state (reply * request_context) :=
  process (getCounters read_now) start now reqCtx.
Definition async_eb_getRegexCounters (start now : Z) (regex_now : time_point) (read_now : Z) (regex : string) (reqCtx : request_context)
    : SE state (reply * request_context) :=
  process (getRegexCounters regex_now read_now regex) start now reqCtx.
Definition async_eb_getSelectedCounters (start now read_now : Z) (keys : list string) (reqCtx : request_context)
    : SE state (reply * request_context) :=
  process (getSelectedCounters read_now keys) start now reqCtx.
End Model.
End BaseService.

(** ** Theorems *)
Import LimitUtils BaseService.
Lemma in_order_perm m : in_order m ≡ₚ map_to_list m.
Proof. apply sort_by_key_Permutation. Qed.
Lemma in_order_nodup m : NoDup (in_order m).*1.
Proof. rewrite in_order_perm. apply NoDup_fst_map_to_list. Qed.
Lemma in_order_sorted m : StronglySorted key_lt (in_order m).
Proof. apply sort_by_key_sorted, NoDup_fst_map_to_list. Qed.
(** What is erased comes after what is kept. *)
Lemma erase_from_keeps limit m :
  erase_from limit m ⊆ m /\ size (erase_from limit m) = Nat.min (Z.to_nat limit) (size m) /\
  forall a b, a ∈ dom (erase_from limit m) -> b ∈ dom m -> b ∉ dom (erase_from limit m) -> str_lt a b.
Proof.
  unfold erase_from. pose proof (in_order_nodup m) as Hn. pose proof (in_order_sorted m) as Hs. pose proof (in_order_perm m) as Hp.
  set (n := Z.to_nat limit) in *. rewrite <- (take_drop n (in_order m)) in Hn, Hs. rewrite fmap_app in Hn. apply NoDup_app in Hn as (Hn & _ & _).
  assert (Hin : forall a v, list_to_map (M := gmap string Z) (take n (in_order m)) !! a = Some v <-> (a, v) ∈ take n (in_order m)).
  { intros a v. symmetry. by apply elem_of_list_to_map. }
  assert (Hm : forall a v, m !! a = Some v <-> (a, v) ∈ in_order m) by (intros a v; by rewrite Hp, elem_of_map_to_list).
  split; [|split].
  - apply map_subseteq_spec. intros a v Ha%Hin. apply Hm. rewrite <- (take_drop n (in_order m)). apply elem_of_app. by left.
  - rewrite (map_size_list_to_map _ Hn), length_take, Hp. by rewrite length_map_to_list.
  - intros a b [v Ha]%elem_of_dom [w Hb]%elem_of_dom Hnb. apply Hin in Ha. apply Hm in Hb.
    rewrite <- (take_drop n (in_order m)) in Hb. apply elem_of_app in Hb as [Hb|Hb].
    + destruct Hnb. apply elem_of_dom. exists w. by apply Hin.
    + exact (StronglySorted_app_1_elem_of key_lt _ _ _ _ Hs Ha Hb).
Qed.

Section Theorems.
Context {M : Type} `{RegexMatchCache M} {TS Hg E U US Getter Setter W : Type}.
Context (tryTo_int : string -> option Z) (queue_timeout_ms : Z).
Abbreviation state := (base * ServiceData.state M TS Hg E U US Getter Setter W)%type.

(** C20: the answer to a request for counters, whichever of the three handlers
    reads them.  A request that waited longer than the expiration - when that is
    positive - is answered with a timeout and reads nothing.  Otherwise, if the
    read returns, the reply holds values that were read; without a usable limit
    header all of them, and the reply's headers are left alone; with limit n the
    first n in the order of their names, and the header that says how many there
    were is set unless it was already.  If the read throws an exception, the client
    gets that exception and no such header. *)
Theorem counters_reply (read : gmap string Z -> SE state (gmap string Z)) (start now : Z) (ctx : request_context) (s : state) :
  let expiration := getCountersExpiration queue_timeout_ms s.1 in
  let answer := process tryTo_int queue_timeout_ms read start now ctx s in
  expiration * 1000000 <= smax 64 ->
  (0 < expiration /\ expiration * 1000000 < now - start -> answer = (Ret (Timeout saturated, ctx), s)) /\
  (expiration <= 0 \/ now - start <= expiration * 1000000 ->
    (forall res s', read ∅ s = (Ret res, s') -> exists sent ctx', answer = (Ret (Result sent, ctx'), s') /\ sent ⊆ res /\
      match readThriftHeader tryTo_int ctx kCountersLimitHeader with
      | None => sent = res /\ ctx' = ctx
      | Some limit =>
          0 <= limit /\ size sent = Nat.min (Z.to_nat limit) (size res) /\
          (forall a b, a ∈ dom sent -> b ∈ dom res -> b ∉ dom sent -> str_lt a b) /\
          exists h h', ctx = Some (Some h) /\ ctx' = Some (Some h') /\ headers h' = headers h /\
            write_headers h' = write_headers h ∪ {[ kCountersAvailableHeader := pretty (N.of_nat (size res)) ]}
      end) /\
    (forall e s', read ∅ s = (Throw e, s') ->
      answer = (match what e with Some _ => Ret (Failed e, ctx) | None => Throw e end, s'))).
Proof.
  cbv zeta. intros Hmax. unfold process, is_expired. set (e := getCountersExpiration queue_timeout_ms s.1) in *.
  replace (smax 64 <? e * 1000000) with false by (symmetry; apply Z.ltb_ge; lia). split.
  { intros [He Hl]. replace (e <=? 0) with false by (symmetry; apply Z.leb_gt; lia).
    by replace (e * 1000000 <? now - start) with true by (symmetry; apply Z.ltb_lt; lia). }
  intros Hin. assert (Hne : (if e <=? 0 then Ret false else Ret (e * 1000000 <? now - start)) = Ret false).
  { destruct (Z.leb_spec e 0); [done|]. f_equal. apply Z.ltb_ge. lia. }
  rewrite Hne. split; [|intros x s' ->; by destruct (what x)].
  intros res s' ->. unfold limit_reply. destruct (readThriftHeader tryTo_int ctx kCountersLimitHeader) as [limit|] eqn:Hl; [|by exists res, ctx].
  assert (Hh : exists h, ctx = Some (Some h) /\ 0 <= limit).
  { unfold readThriftHeader in Hl. destruct ctx as [[h|]|]; [|done|done]. exists h. split; [done|].
    destruct (headers h !! kCountersLimitHeader); [|done]. destruct (Z.ltb_spec (default (-1) (tryTo_int s0)) 0); [done|]. congruence. }
  destruct Hh as (h & -> & Hlim). eexists _, _. split; [done|].
  set (sent := if limit <? Z.of_nat (size res) then erase_from limit res else res).
  assert (Hs : sent ⊆ res /\ size sent = Nat.min (Z.to_nat limit) (size res) /\ (forall a b, a ∈ dom sent -> b ∈ dom res -> b ∉ dom sent -> str_lt a b)).
  { unfold sent. destruct (Z.ltb_spec limit (Z.of_nat (size res))); [apply erase_from_keeps|]. split; [done|]. split; [lia|done]. }
  destruct Hs as (Hsub & Hsz & Hord). split; [done|]. split; [done|]. split; [done|]. split; [done|].
  eexists h, _. split; [done|]. split; [done|]. cbn [headers write_headers]. split; [done|].
  destruct (write_headers h !! kCountersAvailableHeader) as [v|] eqn:Ew.
  - apply map_eq. intros k. rewrite lookup_union. destruct (decide (k = kCountersAvailableHeader)) as [->|Hk].
    + rewrite Ew, lookup_singleton_eq. done.
    + rewrite lookup_singleton_ne by done. by destruct (write_headers h !! k).
  - rewrite insert_union_singleton_r by done. done.
Qed.
End Theorems.

(** ** A client that asks for two counters *)
Section Example_.
Import EventSeries CoarseHistogram SampleEstimator PrefixCache TableFlags.
#[local] Existing Instance ServiceTheorems.example_format.
#[local] Existing Instance ServiceTheorems.example_parsers.
Definition example_tryTo (s : string) : option Z := if bool_decide (s = "2"%string) then Some 2 else None.
Definition example_request : request_context := Some (Some (Header {[ kCountersLimitHeader := "2"%string ]} ∅)).
Definition example_base : base * _ := (new_service "example", ServiceTheorems.example_service).
Definition example_read := getCounters ServiceTheorems.example_user (fun _ => 0) false SortedHeap.sorted_heap SortedHeap.sorted_heap (10 * nanoseconds).
Definition example_asked := async_eb_getCounters ServiceTheorems.example_user (fun _ => 0) false SortedHeap.sorted_heap SortedHeap.sorted_heap
  example_tryTo 5000 0 1000 (10 * nanoseconds) example_request example_base.
Lemma counters_reply_witness :
  match example_asked.1 with
  | Ret (Result sent, _) => size sent = 2%nat /\ (forall b, b ∉ dom sent -> b ∈ dom (match (example_read ∅ example_base).1 with Ret m => m | _ => ∅ end) -> str_lt "hits" b)
  | _ => False
  end.
Proof.
  assert (Hv : match (example_read ∅ example_base).1 with Ret m => (size m, m !! "hits"%string) | Throw _ => (0%nat, None) end = (6%nat, Some 1)) by (vm_compute; reflexivity).
  assert (Hk : match example_asked.1 with Ret (Result sent, _) => bool_decide (is_Some (sent !! "hits"%string)) | _ => false end = true) by (vm_compute; reflexivity).
  destruct (example_read ∅ example_base) as [[m|e] s'] eqn:Er; [|discriminate Hv]. cbn [fst] in *. injection Hv as Hsz _.
  destruct (counters_reply example_tryTo 5000 example_read 0 1000 example_request example_base) as [_ Hr]; [vm_compute; discriminate|].
  destruct (Hr ltac:(right; vm_compute; discriminate)) as [Hres _]. destruct (Hres m s' Er) as (sent & ctx' & Ea & _ & _ & Hs & Hord & _).
  change (example_asked = (Ret (Result sent, ctx'), s')) in Ea. rewrite Ea in *. cbn [fst] in *. rewrite Hsz in Hs.
  split; [exact Hs|]. intros b Hb Hm. apply (Hord "hits"%string b); [|exact Hm|exact Hb]. apply elem_of_dom. exact (bool_decide_unpack _ ltac:(by rewrite Hk)).
Defined.
End Example_.
