(* ===== verification/ClientReads.v ===== *)
(** * ClientReads: from a thread's increment to a client's read

    [BaseService] over what [ThreadCached] publishes: threads count in their own
    maps, the publisher aggregates into [ServiceData], a thrift client reads. *)
From S2P Require Import Prelude CountedRuns RegexUtil FlatCounters CallbackValuesMap CallbackRegistry CallbackCorrect NamedCallbacks TLStatsLockTraits ExportType Timeseries TimeseriesExporter HistogramExporter HistogramNames ExportedStatMap ExportedHistogramMap QuantileStat QuantileStatMap QuantileTheorems ServiceOptions ServiceData ServiceReads ServiceCorrect ServiceTheorems TLStats TLStatsConserve TLStatsRegistered TLStatsCounts StatPtr TLStatsMap TLStatsMapCorrect ThreadCached ThreadCachedCorrect ThreadCachedTheorems BaseService.
From Stdlib Require Import ZArith Lia Ascii String.
From stdpp Require Import base gmap sets list strings.

Open Scope Z_scope.
Open Scope fb303_scope.

Section Client.
Context {M : Type} `{RegexMatchCache M} {TS Hg HV : Type} `{FollyHistogram TS Hg HV} `{SimpleHistogram HV}.
Context {E : Type} `{QuantileEstimator E} `{NumberFormat}.
Context {U US Getter Setter W : Type} `{LockTraits} `{TypedPtr} (hash : string -> Z).
Abbreviation service := (ServiceData.state M TS Hg E U US Getter Setter W).
Abbreviation dynamic_counters := (CallbackValuesMap.cvm (counter_callback U) M).
Context (gap_stats : ExportedStatMap.statmap TS * dynamic_counters -> ExportedStatMap.statmap TS * dynamic_counters).
Context (run_user : U -> SE service Z) (time_source : nat -> Z) (legacy : bool).
Context (control_block : nat -> Z) (dont_update_on_read : bool).
Hypothesis low_addresses : forall p, 0 <= control_block p < 2 ^ 59.
Abbreviation state := (ThreadCached.tcd * (TLStatsMap.maps * (TLStats.tls (HV := HV) * service)))%type.
Abbreviation system := ((gmap nat ThreadCached.wrapper * ThreadCached.publisher_series) * state)%type.
Abbreviation exec := (ThreadCachedTheorems.exec hash gap_stats time_source control_block dont_update_on_read).
Abbreviation runs k := (CountedRuns.runs exec good (count k)).
Abbreviation publish := (ThreadCached.aggregate_threads (fun c => c) time_source).
Abbreviation getCounter := (BaseService.getCounter hash run_user time_source legacy).

(** A name that is neither dynamic nor a quantile's. *)
Definition flat_only (k : string) (d : service) : Prop :=
  CallbackRegistry.wf hash (ServiceData.dynamicCounters_ d) /\ lookup_cb hash (ServiceData.dynamicCounters_ d) k = None /\
  RegexUtil.map (QuantileStatMap.counters_ (ServiceData.quantileMap_ d)) !! k = None.
(** The handler reads the flat counter; a name nobody counted is 0. *)
Lemma getCounter_flat k (b : BaseService.base) (d : service) now later : flat_only k d ->
  getCounter now later k (b, d) = (Ret (flat_value k d), (b, d)).
Proof.
  intros (Hw & Hd & Hq). unfold BaseService.getCounter, BaseService.catch_invalid, BaseService.on_service, ServiceReads.getCounter, ServiceReads.getCounterIfExists.
  cbn [fst snd]. unfold se_bind at 1. unfold se_bind at 1. unfold ServiceReads.dynamic_value, ServiceData.on_dynamic, ServiceData.on_part at 1.
  rewrite (getValue_effect hash _ _ d k Hw), Hd. cbn [fst snd]. rewrite with_own_dynamic. unfold se_bind at 1, ServiceData.on_quantiles, ServiceData.on_part.
  unfold QuantileStatMap.getValue, se_bind at 1, se_get at 1. rewrite Hq. cbn [se_ret]. unfold se_bind, se_get, se_ret.
  assert (Eq : ServiceData.with_quantileMap (ServiceData.quantileMap_ d) d = d) by (by destruct d). rewrite Eq.
  unfold flat_value, FlatCounters.lookup_flat. by destruct (RegexUtil.map (ServiceData.counters_ d) !! k).
Qed.
(** C3: a client reads what the threads counted.  Start with no thread, no map, no
    stat, no container and wrappers nobody has used; let any threads count by name
    or through wrappers and do what else they do, with threads ending and the
    publisher running in between, every operation returning and every wrapper made
    once; let the publisher go round once more.  If then every stat there is still
    has its map ([alive_at] for its container), and the name is neither that of a
    dynamic counter nor one a quantile exports ([flat_only]) - either would be read
    in its place ([ServiceTheorems]) -, a thrift client that asks for the name gets
    what the flat counter held before plus every increment of that name, to 64 bits;
    and the read changes nothing. *)
Theorem client_reads_published (k : string) (b : BaseService.base) (s : system) (l : list op) (n : Z) (s' : system) (r : Z * Z) (s'' : state) (now later : Z) :
  TLStatsMap.owners s.2.2.1 = ∅ -> TLStatsMap.state_ s.2.2.1 = ∅ -> TLStats.stats s.2.2.2.1 = ∅ -> TLStats.containers s.2.2.2.1 = ∅ ->
  ThreadCached.threadLocalStats_ s.2.1 = ∅ -> Forall (fun w => ThreadCached.tlStat_ w = ∅) (all_wrappers s) ->
  runs k s l n s' -> publish (map_to_list (ThreadCached.threadLocalStats_ s'.2.1)).*2 0 0 s'.2 = (Ret r, s'') ->
  (forall p x, TLStats.stats s''.2.2.1 !! p = Some x -> alive_at (TLStats.link_ x) s''.2.2) -> flat_only k s''.2.2.2 ->
  exists v, getCounter now later k (b, s''.2.2.2) = (Ret v, (b, s''.2.2.2)) /\ wraps 64 v = wraps 64 (flat_value k s.2.2.2.2 + n).
Proof.
  intros Ho Hs Hl Hc Ht Hw Hr Ha Hall Hf. exists (flat_value k s''.2.2.2). split; [by apply getCounter_flat|].
  apply (published_flat hash gap_stats time_source control_block dont_update_on_read low_addresses k s l n s' r s''); [by apply sinv_start|done|done|done|done].
Qed.
End Client.

(** ** Two threads, a publisher and a client *)
Section Example_.
Import EventSeries CoarseHistogram SampleEstimator PrefixCache.
#[local] Existing Instance TLStatsCounts.example_histogram.
#[local] Existing Instance TLStatsCounts.example_simple.
#[local] Existing Instance TLStatsCounts.example_locks.
#[local] Existing Instance StatPtr.compress.
#[local] Existing Instance ServiceTheorems.example_format.
Abbreviation example_exec := (ThreadCachedTheorems.exec TLStatsCounts.name_hash id (fun n => Z.of_nat n) example_blocks false).
Abbreviation example_publish := (ThreadCached.aggregate_threads (fun c => c) (fun n => Z.of_nat n)).
Definition client_ops : list op :=
  [NewWrapper 0 "hits"; UIncrement 1 "hits" 5; WIncrement 0 1 3; WIncrement 0 2 4; Publish 9 0 1000; WIncrement 0 1 10;
   ThreadEnds 1; WThreadEnds 0 1; WIncrement 0 2 (-1); UIncrement 2 "misses" 6].
Definition client_run := run_counted example_exec good (count "hits") client_ops threads_start.
Lemma client_reads_published_witness :
  match client_run with
  | Some (n, s') =>
      match example_publish (map_to_list (ThreadCached.threadLocalStats_ s'.2.1)).*2 0 0 s'.2 with
      | (Ret _, s'') => n = 21 /\ exists v, BaseService.getCounter TLStatsCounts.name_hash se_ret (fun n => Z.of_nat n) false 0 0 "hits" (BaseService.new_service "x", s''.2.2.2) =
          (Ret v, (BaseService.new_service "x", s''.2.2.2)) /\ wraps 64 v = 28
      | _ => False
      end
  | None => False
  end.
Proof.
  assert (Hb : forall p, 0 <= example_blocks p < 2 ^ 59) by (intros p; apply Z.mod_pos_bound; reflexivity).
  assert (Hv : match client_run with
    | Some (n, s') =>
        match example_publish (map_to_list (ThreadCached.threadLocalStats_ s'.2.1)).*2 0 0 s'.2 with
        | (Ret _, s'') => Some (n, all_alive s''.2.2.1, ServiceData.dynamicCounters_ s''.2.2.2, RegexUtil.map (QuantileStatMap.counters_ (ServiceData.quantileMap_ s''.2.2.2)))
        | _ => None end
    | None => None end = Some (21, true, CallbackValuesMap.make, ∅)) by (vm_compute; reflexivity).
  unfold client_run in *. destruct (run_counted example_exec good (count "hits") client_ops threads_start) as [[n s']|] eqn:Er; [|discriminate Hv].
  destruct (example_publish (map_to_list (ThreadCached.threadLocalStats_ s'.2.1)).*2 0 0 s'.2) as [[r|e] s''] eqn:Ea; [|discriminate Hv].
  injection Hv as Hn Hal Hd Hq. split; [exact Hn|]. assert (H28 : 28 = wraps 64 (7 + n)) by (rewrite Hn; reflexivity). rewrite H28.
  apply (client_reads_published TLStatsCounts.name_hash id se_ret (fun n => Z.of_nat n) false example_blocks false Hb "hits" (BaseService.new_service "x")
    threads_start client_ops n s' r s'' 0 0 eq_refl eq_refl eq_refl eq_refl eq_refl ltac:(repeat constructor) (run_counted_runs _ _ _ _ _ _ _ Er) Ea
    (all_alive_spec _ Hal)).
  unfold flat_only. rewrite Hd, Hq. split; [apply registry_wf_make|]. split; [vm_compute; reflexivity|apply lookup_empty].
Defined.
End Example_.
