(* ===== verification/FollyLogging.v ===== *)
(** * FollyLogging: the logging options

    [registerFollyLoggingOptionHandlers] of [src/fb303/FollyLoggingHandler.cpp]:
    two dynamic options of a [ServiceData] whose getters and setters work on a
    [folly::LoggerDB].  The databases are part of the world; [LoggerDB], its
    configurations and their text are folly's. *)
From S2P Require Import Prelude RegexUtil CallbackValuesMap Timeseries HistogramExporter QuantileStat ServiceOptions ServiceData.
From Stdlib Require Import ZArith Lia Ascii String.
From stdpp Require Import base gmap list strings.

Open Scope Z_scope.
Open Scope fb303_scope.

(** [folly::LoggerDB], [parseLogConfig], [logConfigToDynamic] and
    [json::serialize(_, pretty_formatting, sort_keys)]. *)
Class LoggerDB (DB : Type) := {
  LogConfig : Type;
  dynamic : Type;
  parseLogConfig : string -> outcome LogConfig;
  getConfig : DB -> LogConfig;
  getFullConfig : DB -> LogConfig;
  updateConfig : LogConfig -> SE DB unit;
  resetConfig : LogConfig -> SE DB unit;
  logConfigToDynamic : LogConfig -> dynamic;
  serialize : dynamic -> bool -> bool -> string
}.
(** The world has databases, [LoggerDB::get()] among them. *)
Class HasLoggers (W DB : Type) := {
  the_db : nat;
  get_db : nat -> W -> DB;
  put_db : nat -> DB -> W -> W;
  get_put_db : forall i d w, get_db i (put_db i d w) = d
}.

Module FollyLogging.
Section Model.
Context {DB : Type} `{LoggerDB DB} {M TS Hg E U US W : Type} `{!HasLoggers W DB}.
(** The closures: whether of the full option, and which database. *)
Record closure := Closure { full : bool; loggerDB : nat }.
Abbreviation service := (ServiceData.state M TS Hg E U US closure closure W).
Definition configToStr (config : LogConfig) : string := serialize (logConfigToDynamic config) true true.
Definition run_getter (c : closure) : SE service string := fun s =>
  let db := get_db (loggerDB c) (ServiceData.world s) in
  (Ret (configToStr (if full c then getFullConfig db else getConfig db)), s).
Definition run_setter (c : closure) (value : string) : SE service unit := fun s =>
  match parseLogConfig value with
  | Throw e => (Throw e, s)
  | Ret config =>
      let '(r, db) := (if full c then resetConfig config else updateConfig config) (get_db (loggerDB c) (ServiceData.world s)) in
      (r, ServiceData.with_world (put_db (loggerDB c) db (ServiceData.world s)) s)
  end.
(** [serviceData] is the service given, or the process's; here the state. *)
Definition registerFollyLoggingOptionHandlers (name nameFull : string) (loggerDB : option nat) : SE service unit :=
  let db := default the_db loggerDB in
  ServiceData.on_opts (ServiceOptions.registerDynamicOption name (Some (Closure false db)) (Some (Closure false db))) >>>
  ServiceData.on_opts (ServiceOptions.registerDynamicOption nameFull (Some (Closure true db)) (Some (Closure true db))).

Context `{GoogleFlags W} `{FollySplit}.
#[local] Existing Instance ServiceData.state_flags.
(** The logging options after they are registered.  Reading an option gives the
    text of the database's configuration, full or not, as it is then; setting one to
    a text that is not a configuration throws and changes nothing; to one that is,
    it updates or replaces the database's configuration - nothing of [ServiceData] -
    and reports a dynamic option, or throws what the database throws; and a
    configuration set is the one read next.  With the same name twice, the full
    option is the one that stays. *)
Theorem logging_options (name nameFull : string) (db : option nat) (s : service) :
  let i := default the_db db in
  exists s', registerFollyLoggingOptionHandlers name nameFull db s = (Ret tt, s') /\ ServiceData.world s' = ServiceData.world s /\
  forall (key : string) (is_full : bool), key = (if is_full then nameFull else name) -> (is_full = false -> name <> nameFull) ->
  forall t : service, ServiceData.options t = ServiceData.options s' ->
    ServiceData.getOption run_getter key t =
      (Ret (configToStr ((if is_full then getFullConfig else getConfig) (get_db i (ServiceData.world t)))), t) /\
    (forall value e, parseLogConfig value = Throw e -> ServiceData.setOptionWithResult run_setter key value t = (Throw e, t)) /\
    (forall value config, parseLogConfig value = Ret config ->
      let '(r, d) := (if is_full then resetConfig else updateConfig) config (get_db i (ServiceData.world t)) in
      let t' := ServiceData.with_world (put_db i d (ServiceData.world t)) t in
      ServiceData.setOptionWithResult run_setter key value t =
        (match r with Ret _ => Ret ServiceOptions.Dynamic | Throw e => Throw e end, t') /\
      ServiceData.getOption run_getter key t' = (Ret (configToStr ((if is_full then getFullConfig else getConfig) d)), t')).
Proof.
  cbv zeta. eexists. split; [done|]. split; [done|]. intros key is_full Hk Hne t Ht. set (i := default the_db db) in *.
  assert (Hopt : forall u : service, ServiceData.options u = ServiceData.options t -> ServiceOptions.dynamicOptions_ (ServiceData.options u) !! key =
    Some (ServiceOptions.MkDynamic (Some (Closure is_full i)) (Some (Closure is_full i)))).
  { intros u ->. rewrite Ht, Hk. cbn. destruct is_full; [by rewrite lookup_insert_eq|]. rewrite lookup_insert_ne by (intros Eq; by apply Hne).
    by rewrite lookup_insert_eq. }
  assert (Hget : forall u : service, ServiceData.options u = ServiceData.options t -> ServiceData.getOption run_getter key u =
    (Ret (configToStr ((if is_full then getFullConfig else getConfig) (get_db i (ServiceData.world u)))), u)).
  { intros u Hu. unfold ServiceData.getOption, ServiceData.on_opts, ServiceData.on_part, ServiceOptions.getOption, se_bind, se_get. cbn [fst].
    rewrite (Hopt u Hu). cbn. by destruct is_full, u. }
  split; [by apply Hget|]. split.
  - intros value e Hp. unfold ServiceData.setOptionWithResult, ServiceData.on_opts, ServiceData.on_part, ServiceOptions.setOptionWithResult, se_bind, se_get.
    cbn [fst]. rewrite (Hopt t eq_refl). cbn. unfold ServiceData.in_opts, run_setter. rewrite Hp. by destruct t.
  - intros value config Hp. destruct ((if is_full then resetConfig else updateConfig) config _) as [r d] eqn:Eu. split.
    + unfold ServiceData.setOptionWithResult, ServiceData.on_opts, ServiceData.on_part, ServiceOptions.setOptionWithResult, se_bind, se_get.
      cbn [fst]. rewrite (Hopt t eq_refl). cbn. unfold ServiceData.in_opts, run_setter. rewrite Hp. cbn [full loggerDB].
      destruct is_full; cbn in Eu |- *; rewrite Eu; by destruct r, t.
    + rewrite Hget by done. cbn. by rewrite get_put_db.
Qed.
End Model.
End FollyLogging.
