(* ===== verification/QuantileStatWrappers.v ===== *)
(** * QuantileStatWrappers: quantile stats with subkeys

    [QuantileStatWrapper] and [DynamicQuantileStatWrapper] of
    [src/fb303/detail/QuantileStatWrappers.h], [QuantileStatWrappers-inl.h] and
    [QuantileStatWrappers.cpp].  A global set of entries, node-based and never
    erased from, so a pointer to an entry is named by its subkeys; per thread a set
    of such pointers with a span of it that is scanned while it is short and
    searched by hash above that.  Calls run one after the other. *)
From S2P Require Import Prelude RegexUtil ExportType Timeseries HistogramExporter HistogramNames QuantileStat QuantileStatMap QuantileTheorems ServiceOptions ServiceOptionsTheorems ServiceData ServiceTheorems FormattedKey FormattedKeyCorrect.
From Stdlib Require Import ZArith Lia Ascii String.
From stdpp Require Import base gmap list strings.

Open Scope Z_scope.
Open Scope fb303_scope.

Module QuantileStatWrappers.
Section Model.
Context {M : Type} `{RegexMatchCache M} {TS Hg E U US Getter Setter W : Type} `{QuantileEstimator E} `{NumberFormat}.
Abbreviation service := (ServiceData.state M TS Hg E U US Getter Setter W).
Context (gap_quantiles : QuantileStatMap.state E M -> QuantileStatMap.state E M).
Context (int64_hasher : Z -> Z) (string_view_hasher : string -> Z) (fmt_format : string -> list string -> outcome string).
Abbreviation hash_tuple := (SubkeyUtils.hash_tuple int64_hasher string_view_hasher).
Abbreviation hash_array := (SubkeyUtils.hash_array int64_hasher string_view_hasher).
(** [spec_] *)
Record Spec := MkSpec { stats : list ExportType; quantiles : list double; timeseriesLengths : list Z }.
Definition getQuantileStat (spec : Spec) (name : string) (created : Z) : SE service nat :=
  ServiceData.getQuantileStat gap_quantiles name (stats spec) (quantiles spec) (timeseriesLengths spec) created.
(** [stat->addValue(value, now)] *)
Definition stat_addValue (stat : nat) (value : double) (now : Z) : SE service unit :=
  ServiceData.on_quantiles (QuantileStatMap.add_to stat value now).

(** ** [QuantileStatWrapper]: its state is [stat_] *)
Definition new_wrapper (spec : Spec) (name : string) (created : Z) : SE service nat := getQuantileStat spec name created.
Definition wrapper_addValue (stat_ : nat) (value : double) (now : Z) : SE service unit := stat_addValue stat_ value now.

(** ** [DynamicQuantileStatWrapper] *)
Section Dynamic.
Context (keyFormat_ : string) (spec_ : Spec).
Record local_cache := LocalCache { set : list subkey_array; span : list subkey_array }.
Record wrapper := Wrapper { globalCache_ : gmap subkey_array nat; localCache_ : gmap nat local_cache }.
Abbreviation state := (wrapper * service)%type.
Definition new_dynamic : wrapper := Wrapper ∅ ∅.
Definition no_local : local_cache := LocalCache [] [].
Definition local (t : nat) (w : wrapper) : local_cache := default no_local (localCache_ w !! t).
Definition with_local (t : nat) (l : local_cache) (w : wrapper) : wrapper := Wrapper (globalCache_ w) (<[t := l]> (localCache_ w)).
Definition with_global (g : gmap subkey_array nat) (w : wrapper) : wrapper := Wrapper g (localCache_ w).
Definition modify (f : wrapper -> wrapper) : SE state unit := fun s => (Ret tt, (f s.1, s.2)).
Definition on_service {A} (f : SE service A) : SE state A := fun s => let '(r, x) := f s.2 in (r, (s.1, x)).
(** [*entry->stat] *)
Definition deref (entry : subkey_array) : SE state nat := fun s =>
  match globalCache_ s.1 !! entry with Some p => (Ret p, s) | None => (Throw undefined_behaviour, s) end.
Definition kLocalCacheLinearScanThreshold : nat := 8.

(** The scan of the span, and the set's [find] and [insert]. *)
Fixpoint scan (l : list subkey_array) (keytup : list view) : option subkey_array :=
  match l with [] => None | entry :: l' => if SubkeyUtils.eq keytup entry then Some entry else scan l' keytup end.
Fixpoint set_find (l : list subkey_array) (keytup : list view) : option subkey_array :=
  match l with
  | [] => None
  | entry :: l' => if Z.eqb (hash_array entry) (hash_tuple keytup) && SubkeyUtils.eq keytup entry then Some entry else set_find l' keytup
  end.
Definition set_insert (entry : subkey_array) (l : list subkey_array) : list subkey_array :=
  if existsb (fun e => Z.eqb (hash_array e) (hash_array entry) && bool_decide (e = entry)) l then l else l ++ [entry].

Definition getOrCreateGlobal (created : Z) (a : subkey_array) : SE state subkey_array :=
  let* s := se_get in
  match globalCache_ s.1 !! a with
  | Some _ => se_ret a
  | None =>
      let* s := se_get in
      match globalCache_ s.1 !! a with
      | Some _ => se_ret a
      | None =>
          match SubkeyUtils.formatKey fmt_format keyFormat_ a with
          | Throw e => se_throw e
          | Ret formattedKey =>
              let* stat := on_service (getQuantileStat spec_ formattedKey created) in
              modify (fun w => with_global (match globalCache_ w !! a with Some _ => globalCache_ w | None => <[a := stat]> (globalCache_ w) end) w) >>>
              se_ret a
          end
      end
  end.
Definition getStatEntrySlow (t : nat) (created : Z) (keytup : list view) : SE state nat :=
  let* entry := getOrCreateGlobal created (SubkeyUtils.makeSubkeyArray keytup) in
  modify (fun w => let set' := set_insert entry (set (local t w)) in with_local t (LocalCache set' set') w) >>>
  deref entry.
Definition find_local (l : local_cache) (keytup : list view) : option subkey_array :=
  if bool_decide (length (span l) <= kLocalCacheLinearScanThreshold)%nat then scan (span l) keytup else set_find (set l) keytup.
Definition getStatEntry (t : nat) (created : Z) (keytup : list view) : SE state nat :=
  let* s := se_get in
  match find_local (local t s.1) keytup with
  | Some entry => deref entry
  | None => getStatEntrySlow t created keytup
  end.
(** [created]: the clock as [getQuantileStat] reads it. *)
Definition addValue (t : nat) (created : Z) (value : double) (now : Z) (keytup : list view) : SE state unit :=
  let* stat := getStatEntry t created keytup in on_service (stat_addValue stat value now).
Definition addValue_now (t : nat) (created : Z) (coarseNow : Z) (value : double) (keytup : list view) : SE state unit :=
  addValue t created value coarseNow keytup.
Definition end_thread (t : nat) : SE state unit := modify (fun w => Wrapper (globalCache_ w) (delete t (localCache_ w))).

(** ** The caches are transparent *)

(** Without caches of the threads: a stat per array of subkeys, made when first used. *)
Abbreviation reference := (gmap subkey_array nat * service)%type.
Definition reference_stat (created : Z) (keytup : list view) : SE reference nat := fun s =>
  let a := SubkeyUtils.makeSubkeyArray keytup in
  match s.1 !! a with
  | Some p => (Ret p, s)
  | None =>
      match SubkeyUtils.formatKey fmt_format keyFormat_ a with
      | Throw e => (Throw e, s)
      | Ret name =>
          match getQuantileStat spec_ name created s.2 with
          | (Ret p, x) => (Ret p, (<[a := p]> s.1, x))
          | (Throw e, x) => (Throw e, (s.1, x))
          end
      end
  end.
Definition reference_add (created : Z) (value : double) (now : Z) (keytup : list view) : SE reference unit := fun s =>
  match reference_stat created keytup s with
  | (Ret p, s') => let '(r, x) := stat_addValue p value now s'.2 in (r, (s'.1, x))
  | (Throw e, s') => (Throw e, s')
  end.
Inductive call := Add (t : nat) (created : Z) (value : double) (now : Z) (keytup : list view) | End (t : nat).
Definition do_call (c : call) : SE state unit :=
  match c with Add t created value now keytup => addValue t created value now keytup | End t => end_thread t end.
Definition refer_call (c : call) : SE reference unit :=
  match c with Add t created value now keytup => reference_add created value now keytup | End t => se_ret tt end.
(** A caller that goes on after an exception; every result is kept. *)
Fixpoint all_calls {S} (f : call -> SE S unit) (l : list call) (s : S) : list (outcome unit) * S :=
  match l with
  | [] => ([], s)
  | c :: l' => let '(r, s1) := f c s in let '(rs, s2) := all_calls f l' s1 in (r :: rs, s2)
  end.

Definition cache_ok (w : wrapper) : Prop := forall t,
  span (local t w) = set (local t w) /\ NoDup (set (local t w)) /\ Forall (fun a => is_Some (globalCache_ w !! a)) (set (local t w)).
Lemma scan_spec l keytup : scan l keytup = if bool_decide (SubkeyUtils.makeSubkeyArray keytup ∈ l) then Some (SubkeyUtils.makeSubkeyArray keytup) else None.
Proof.
  induction l as [|a l IH]; [done|]. cbn [scan]. rewrite tuple_eq, IH. set (k := SubkeyUtils.makeSubkeyArray keytup).
  destruct (decide (k = a)) as [->|Hne].
  - rewrite (bool_decide_eq_true_2 (a = a)) by done. by rewrite (bool_decide_eq_true_2 (a ∈ a :: l)) by left.
  - rewrite (bool_decide_eq_false_2 (k = a)) by done. erewrite bool_decide_ext; [done|]. rewrite elem_of_cons. tauto.
Qed.
Lemma set_find_spec l keytup : set_find l keytup = scan l keytup.
Proof.
  induction l as [|a l IH]; [done|]. cbn [scan set_find]. rewrite IH, tuple_eq, tuple_hash.
  case_bool_decide as Hk; [subst a; by rewrite Z.eqb_refl|by rewrite andb_false_r].
Qed.
Lemma set_insert_spec a l : set_insert a l = if bool_decide (a ∈ l) then l else l ++ [a].
Proof.
  unfold set_insert. assert (Hx : existsb (fun e => Z.eqb (hash_array e) (hash_array a) && bool_decide (e = a)) l = bool_decide (a ∈ l)).
  { induction l as [|b l IH]; [done|]. cbn [existsb]. rewrite IH. destruct (decide (b = a)) as [->|Hne].
    - rewrite Z.eqb_refl, (bool_decide_eq_true_2 (a = a)) by done. by rewrite (bool_decide_eq_true_2 (a ∈ a :: l)) by left.
    - rewrite (bool_decide_eq_false_2 (b = a)), andb_false_r by done. apply bool_decide_ext. rewrite elem_of_cons.
      split; [by right|by intros [->|?]]. }
  by rewrite Hx.
Qed.
Lemma find_local_spec t w keytup : cache_ok w ->
  find_local (local t w) keytup = if bool_decide (SubkeyUtils.makeSubkeyArray keytup ∈ set (local t w)) then Some (SubkeyUtils.makeSubkeyArray keytup) else None.
Proof. intros Hok. destruct (Hok t) as (E1 & _). unfold find_local. rewrite set_find_spec, E1, scan_spec. by case_bool_decide. Qed.
Lemma cache_with t t' l w : local t (with_local t' l w) = if decide (t = t') then l else local t w.
Proof. unfold local, with_local. cbn. destruct (decide (t = t')) as [->|Hne]; [by rewrite lookup_insert_eq|by rewrite lookup_insert_ne]. Qed.
Lemma cache_ok_insert t a w : cache_ok w -> is_Some (globalCache_ w !! a) ->
  cache_ok (with_local t (LocalCache (set_insert a (set (local t w))) (set_insert a (set (local t w)))) w).
Proof.
  intros Hok Ha u. rewrite cache_with. destruct (decide (u = t)) as [->|_]; [|apply Hok]. split; [done|]. cbn [set].
  rewrite set_insert_spec. destruct (Hok t) as (_ & Hn & Hf). case_bool_decide as Hin; [done|]. split.
  - apply NoDup_app. split; [done|]. split; [by intros b Hb ->%list_elem_of_singleton|apply NoDup_singleton].
  - apply Forall_app. split; [done|]. by apply Forall_singleton.
Qed.
Lemma cache_ok_global a p w : cache_ok w -> cache_ok (with_global (<[a := p]> (globalCache_ w)) w).
Proof.
  intros Hok t. destruct (Hok t) as (E1 & Hn & Hf). split; [done|]. split; [done|]. apply (Forall_impl _ _ _ Hf). intros b Hb. cbn.
  destruct (decide (b = a)) as [->|Hne]; [by rewrite lookup_insert_eq|by rewrite lookup_insert_ne].
Qed.
Definition same (s : state) (r : reference) : Prop := cache_ok s.1 /\ globalCache_ s.1 = r.1 /\ s.2 = r.2.
(** What follows [getOrCreateGlobal]. *)
Lemma remember_same t a p (w : wrapper) (x : service) : cache_ok w -> globalCache_ w !! a = Some p ->
  exists w', (modify (fun w => let set' := set_insert a (set (local t w)) in with_local t (LocalCache set' set') w) >>> deref a) (w, x) =
    (Ret p, (w', x)) /\ same (w', x) (globalCache_ w, x).
Proof.
  intros Hok Ha. unfold se_bind, modify, deref. cbn [fst snd with_local globalCache_]. rewrite Ha. eexists. split; [done|].
  split; [|done]. by apply cache_ok_insert; [|exists p].
Qed.
Lemma getStatEntry_same t created keytup s r : same s r -> exists o s' r',
  getStatEntry t created keytup s = (o, s') /\ reference_stat created keytup r = (o, r') /\ same s' r'.
Proof.
  destruct s as [w x], r as [g x']. intros (Hok & Hgl & Hx). cbn [fst snd] in *. subst x' g. unfold getStatEntry, reference_stat, se_get. unfold se_bind at 1.
  cbn [fst snd]. rewrite (find_local_spec t w keytup Hok). set (a := SubkeyUtils.makeSubkeyArray keytup).
  case_bool_decide as Hin.
  { destruct (Hok t) as (_ & _ & Hf). destruct (proj1 (Forall_forall _ _) Hf a Hin) as [p Hp]. unfold deref. cbn [fst snd]. rewrite Hp.
    by exists (Ret p), (w, x), (globalCache_ w, x). }
  unfold getStatEntrySlow, getOrCreateGlobal, se_get. fold a. destruct (globalCache_ w !! a) as [p|] eqn:Hga.
  { destruct (remember_same t a p w x Hok Hga) as (w' & E1 & Hs). exists (Ret p), (w', x), (globalCache_ w, x).
    split; [|done]. unfold se_bind at 1. unfold se_bind at 1. cbn [fst]. rewrite Hga. exact E1. }
  unfold se_bind at 1. unfold se_bind at 1. cbn [fst]. rewrite Hga. unfold se_bind at 1. cbn [fst]. rewrite Hga.
  destruct (SubkeyUtils.formatKey fmt_format keyFormat_ a) as [name|e]; [|by exists (Throw e), (w, x), (globalCache_ w, x)].
  unfold se_bind at 1, on_service. cbn [fst snd]. destruct (getQuantileStat spec_ name created x) as [[p|e] x1];
    [|by exists (Throw e), (w, x1), (globalCache_ w, x1)].
  destruct (remember_same t a p (with_global (<[a := p]> (globalCache_ w)) w) x1) as (w' & E1 & Hs);
    [by apply cache_ok_global|apply lookup_insert_eq|].
  exists (Ret p), (w', x1), (<[a := p]> (globalCache_ w), x1). split; [|done]. rewrite <- E1. unfold se_bind, modify, se_ret. cbn [fst snd]. by rewrite Hga.
Qed.
Lemma call_same c s r : same s r -> exists o s' r', do_call c s = (o, s') /\ refer_call c r = (o, r') /\ same s' r'.
Proof.
  intros Hs. destruct c as [t created value now keytup|t]; cbn [do_call refer_call].
  - destruct (getStatEntry_same t created keytup s r Hs) as (o & s1 & r1 & E1 & E2 & Hs1).
    unfold addValue, se_bind, reference_add. rewrite E1, E2. destruct o as [p|e]; [|by exists (Throw e), s1, r1].
    destruct Hs1 as (Hok & Hgl & Hx). unfold on_service. rewrite <- Hx. destruct (stat_addValue p value now s1.2) as [o x].
    by exists o, (s1.1, x), (r1.1, x).
  - destruct Hs as (Hok & Hgl & Hx). eexists _, _, _. split; [done|]. split; [done|]. split; [|done]. intros u. unfold local. cbn.
    destruct (decide (u = t)) as [->|Hne]; [rewrite lookup_delete_eq; by split_and!; [|apply NoDup_nil|apply Forall_nil]|].
    rewrite lookup_delete_ne by done. apply Hok.
Qed.
(** C18: the caches of a [DynamicQuantileStatWrapper] are transparent.  Any calls of
    [addValue] by any threads, callers going on after exceptions and threads ending
    in between, give the results, the stats and the [ServiceData] of a wrapper that
    keeps one stat per array of subkeys, made when it is first used - whether the
    subkeys are found by scanning a thread's short span, by hash in its set, in the
    global set, or not at all, and whatever the hash functions. *)
Theorem caches_transparent (l : list call) (x : service) :
  (all_calls do_call l (new_dynamic, x)).1 = (all_calls refer_call l (∅, x)).1 /\
  (all_calls do_call l (new_dynamic, x)).2.2 = (all_calls refer_call l (∅, x)).2.2 /\
  globalCache_ (all_calls do_call l (new_dynamic, x)).2.1 = (all_calls refer_call l (∅, x)).2.1.
Proof.
  assert (Hs : same (new_dynamic, x) (∅, x)).
  { split; [|done]. intros t. unfold local. cbn. rewrite lookup_empty. by split_and!; [|apply NoDup_nil|apply Forall_nil]. }
  revert Hs. generalize (new_dynamic, x) ((∅, x) : reference). induction l as [|c l IH]; intros s r Hs; cbn [all_calls].
  - by destruct Hs as (_ & ? & ?).
  - destruct (call_same c s r Hs) as (o & s1 & r1 & -> & -> & Hs1). destruct (IH s1 r1 Hs1) as (H2 & H3 & H4).
    destruct (all_calls do_call l s1) as [rs s2], (all_calls refer_call l r1) as [rs' r2]. cbn in *. by rewrite H2.
Qed.
End Dynamic.
End Model.
End QuantileStatWrappers.

(** ** Ten subkeys: the first eight lookups scan, the later ones hash *)
Section Example_.
Import EventSeries CoarseHistogram SampleEstimator PrefixCache TableFlags QuantileStatWrappers.
#[local] Existing Instance ServiceTheorems.example_format.
Definition example_spec : Spec := MkSpec [COUNT] [] [60].
Definition subkeys_of (n : nat) : list FormattedKey.view := [VInt (Z.of_nat n)].
Definition example_calls : list call :=
  ((fun n => Add 1 0 (double_of_Z 5) (QuantileStatMap.nanoseconds) (subkeys_of n)) <$> seq 0 10) ++
  [Add 1 0 (double_of_Z 5) (QuantileStatMap.nanoseconds) (subkeys_of 3); Add 2 0 (double_of_Z 5) (QuantileStatMap.nanoseconds) (subkeys_of 9);
   Add 1 0 (double_of_Z 5) (QuantileStatMap.nanoseconds) (subkeys_of 9); End 1; Add 1 0 (double_of_Z 5) (QuantileStatMap.nanoseconds) (subkeys_of 3)].
Definition example_run := all_calls (do_call (M := cache) id (fun _ => 0) FormattedKeyCorrect.name_size FormattedKeyCorrect.fill "size.{}" example_spec)
  example_calls (new_dynamic, ServiceTheorems.example_service).
Example ten_subkeys :
  let '(rs, (w, x)) := example_run in
  rs = replicate 15 (Ret tt) /\ size (globalCache_ w) = 10%nat /\ length (set (local 1 w)) = 1%nat /\
  (fun b => length (samples (QuantileStat.estimator_ b))) <$> QuantileStatMap.stats (ServiceData.quantileMap_ x) !! (default 0%nat (globalCache_ w !! [Int64 3])) = Some 3%nat.
Proof. vm_compute. repeat split. Qed.
End Example_.
