(* ===== verification/StatLink.v ===== *)
(** * StatLink: the shared link between a container and its stats

    [TLStatLink] and [TLStatLinkPtr] of [src/fb303/ThreadLocalStats.h], and what
    [ThreadLocalStats-inl.h] does with them: a link is an object on the heap with a
    mutex, a back pointer to its container and a count of the pointers to it; a
    container and each of its stats own one pointer, a word whose low bit says
    whether the stat is registered.  Containers and stats are constructed, moved,
    used and destroyed by any number of threads.  A call is the list of the atomic
    accesses it has yet to make, so what a thread may still touch is in the state;
    [tlStats_] and the pending list, which [ThreadLocalStats] models, are one
    access to the container here. *)
From S2P Require Import Prelude.
From Stdlib Require Import ZArith Lia.
From stdpp Require Import base gmap sets list.

Open Scope Z_scope.

Module StatLink.
Abbreviation tid := nat (only parsing).

(** The object a [TLStatLinkPtr] is a member of. *)
Inductive owner := Container (c : nat) | Stat (x : nat).
#[export] Instance owner_eq_dec : EqDecision owner.
Proof. solve_decision. Defined.
#[export] Instance owner_countable : Countable owner.
Proof.
  refine (inj_countable' (fun o => match o with Container c => inl c | Stat x => inr x end)
    (fun s => match s with inl c => Container c | inr x => Stat x end) _). by intros [].
Defined.

(** ** The pointer word *)
Definition kLinked : Z := 1.
Definition get (ptr_ : Z) : Z := Z.land ptr_ (wrapu 64 (Z.lnot kLinked)).
Definition isLinked (ptr_ : Z) : bool := negb (Z.land ptr_ kLinked =? 0).
Definition setLinked (linked : bool) (ptr_ : Z) : Z :=
  if linked then Z.lor ptr_ kLinked else Z.land ptr_ (wrapu 64 (Z.lnot kLinked)).

(** ** Atomic accesses *)
Inductive instr :=
  | NewLink (c : nat) (updateGlobalStatsOnRead : bool)  (** [link_{new TLStatLink{this}}] *)
  | CopyFrom (o other : owner)               (** [ptr_ = other.ptr_ & ~kLinked] *)
  | IncRef (o : owner)
  | CheckUnlinked (o : owner)                (** [DCHECK(!isLinked())] *)
  | DecRef (o : owner)
  | Delete (l : Z)                           (** [delete this] *)
  | EndPtr (o : owner)                       (** the object that holds the pointer ends *)
  | IfLinked (b : bool) (o : owner) (body : list instr)
  | ReadFlag (o : owner)                     (** [shouldUpdateGlobalStatsOnRead] *)
  | Lock (o : owner) (body : list instr)     (** the guard of [lock] lives for [body] *)
  | TryLock (o : owner) (body deferred : list instr)
  | Unlock (l : Z)
  | ReadContainer (o : owner)                (** [if (link_->container_)] ... *)
  | Touch (c : nat)                          (** ... an access to the container *)
  | ClearContainer (o : owner)
  | SetLinked (b : bool) (o : owner).

(** ** The functions, as the accesses they make *)
Definition link (x : owner) : list instr :=
  [IfLinked false x [TryLock x [ReadContainer x; SetLinked true x] [ReadContainer x; SetLinked true x]]].
(** The final [aggregate] reads the link's flag. *)
Definition unlink (x : owner) : list instr :=
  [IfLinked true x [ReadFlag x; Lock x [ReadContainer x; SetLinked false x]]].
Definition ptr_from (o other : owner) : list instr := [CopyFrom o other; IncRef o].
Definition replaceFromOther (o other : owner) : list instr :=
  [CheckUnlinked o; DecRef o; CopyFrom o other; IncRef o].
Definition ptr_destroy (o : owner) : list instr := [CheckUnlinked o; DecRef o; EndPtr o].


Definition make_container (c : nat) (updateGlobalStatsOnRead : bool) : list instr := [NewLink c updateGlobalStatsOnRead].
(** [TLStatT(stats, name)], then [postInit]. *)
Definition make_stat (x c : nat) : list instr := ptr_from (Stat x) (Container c) ++ link (Stat x).
(** [TLStatT(SubclassMoveTag, other)], then [finishMove]. *)
Definition move_construct (x other : nat) : list instr :=
  ptr_from (Stat x) (Stat other) ++ unlink (Stat other) ++ link (Stat x).
Definition moveAssignment (x other : nat) : list instr :=
  if Nat.eqb x other then []
  else unlink (Stat x) ++ unlink (Stat other) ++ replaceFromOther (Stat x) (Stat other) ++ link (Stat x).
Definition withContainerChecked (x : nat) : list instr := [Lock (Stat x) [ReadContainer (Stat x)]].
(** Past its early return on [tlStatsEmpty_]. *)
Definition aggregate (c : nat) : list instr := [Touch c; Lock (Container c) [Touch c]].
(** [preDestroy], [~TLStatT], then the member. *)
Definition destroy_stat (x : nat) : list instr := unlink (Stat x) ++ [CheckUnlinked (Stat x)] ++ ptr_destroy (Stat x).
Definition destroy_container (c : nat) : list instr :=
  [Lock (Container c) [ClearContainer (Container c); Touch c]] ++ ptr_destroy (Container c).

Inductive call :=
  | MakeContainer (c : nat) (updateGlobalStatsOnRead : bool)
  | MakeStat (x c : nat)
  | MoveConstruct (x other : nat)
  | MoveAssign (x other : nat)
  | WithContainer (x : nat)
  | Aggregate (c : nat)
  | DestroyStat (x : nat)
  | DestroyContainer (c : nat).
Definition program (k : call) : list instr :=
  match k with
  | MakeContainer c u => make_container c u
  | MakeStat x c => make_stat x c
  | MoveConstruct x y => move_construct x y
  | MoveAssign x y => moveAssignment x y
  | WithContainer x => withContainerChecked x
  | Aggregate c => aggregate c
  | DestroyStat x => destroy_stat x
  | DestroyContainer c => destroy_container c
  end.

(** ** State *)
Record tllink := Link {
  updateGlobalStatsOnRead_ : bool;
  mutex_ : option tid;
  container_ : option nat;
  refCount_ : Z
}.
(** A call that runs, the containers it may rely on, and what it has left to do. *)
Record activity := Running { running : call; kept : gset owner; code : list instr }.
Record sys := Sys {
  heap : gmap Z tllink;                      (** the links not yet deleted *)
  ptrs : gmap owner Z;                       (** the pointer words of live objects *)
  threads : gmap tid activity
}.
Definition make : sys := Sys ∅ ∅ ∅.

Definition set_mutex (m : option tid) (L : tllink) : tllink :=
  Link (updateGlobalStatsOnRead_ L) m (container_ L) (refCount_ L).
Definition set_container (c : option nat) (L : tllink) : tllink :=
  Link (updateGlobalStatsOnRead_ L) (mutex_ L) c (refCount_ L).
Definition set_refCount (n : Z) (L : tllink) : tllink :=
  Link (updateGlobalStatsOnRead_ L) (mutex_ L) (container_ L) n.

Definition put_link (l : Z) (L : tllink) (s : sys) : sys := Sys (<[l := L]> (heap s)) (ptrs s) (threads s).
Definition put_ptr (o : owner) (w : Z) (s : sys) : sys := Sys (heap s) (<[o := w]> (ptrs s)) (threads s).
Definition free_link (l : Z) (s : sys) : sys := Sys (delete l (heap s)) (ptrs s) (threads s).
Definition end_ptr (o : owner) (s : sys) : sys := Sys (heap s) (delete o (ptrs s)) (threads s).
Definition set_code (t : tid) (k : list instr) (s : sys) : sys :=
  Sys (heap s) (ptrs s) (alter (fun a => Running (running a) (kept a) k) t (threads s)).

(** What an access does: it throws, blocks ([None]), or leaves the state and the
    code to go on with. *)
Definition effect : Type := option (outcome (sys * list instr)).
Definition next (s : sys) (k : list instr) : effect := Some (Ret (s, k)).
Definition ub : effect := Some (Throw undefined_behaviour).
(** The word of a live pointer; the link a live pointer points to, if not freed. *)
Definition with_ptr (o : owner) (s : sys) (f : Z -> effect) : effect :=
  match ptrs s !! o with Some w => f w | None => ub end.
Definition with_link (o : owner) (s : sys) (f : Z -> tllink -> effect) : effect :=
  with_ptr o s (fun w => match heap s !! get w with Some L => f (get w) L | None => ub end).
(** A locked link: [lock] completes the pending registrations of a container. *)
Definition locked (t : tid) (o : owner) (body : list instr) (l : Z) (L : tllink) (s : sys) (k : list instr) : effect :=
  next (put_link l (set_mutex (Some t) L) s) (ReadContainer o :: body ++ Unlock l :: k).

(** One access by thread [t]; [a] is the address the allocator would return. *)
Definition access (a : Z) (t : tid) (i : instr) (s : sys) (k : list instr) : effect :=
  match i with
  | NewLink c u => next (put_ptr (Container c) a (put_link a (Link u None (Some c) 1) s)) k
  | CopyFrom o other => with_ptr other s (fun w => next (put_ptr o (get w) s) k)
  | IncRef o => with_link o s (fun l L => next (put_link l (set_refCount (wrapu 64 (refCount_ L + 1)) L) s) k)
  | CheckUnlinked o => with_ptr o s (fun w => if isLinked w then Some (Throw check_failed) else next s k)
  | DecRef o => with_link o s (fun l L =>
      let before := refCount_ L in
      if before <=? 0 then Some (Throw check_failed)
      else next (put_link l (set_refCount (wrapu 64 (before - 1)) L) s) (if before =? 1 then Delete l :: k else k))
  | Delete l =>
      match heap s !! l with
      | Some L => match mutex_ L with None => next (free_link l s) k | Some _ => ub end
      | None => ub
      end
  | EndPtr o => with_ptr o s (fun _ => next (end_ptr o s) k)
  | IfLinked b o body => with_ptr o s (fun w => next s (if Bool.eqb (isLinked w) b then body ++ k else k))
  | ReadFlag o => with_link o s (fun _ _ => next s k)
  | Lock o body => with_link o s (fun l L =>
      match mutex_ L with None => locked t o body l L s k | Some _ => None end)
  | TryLock o body deferred => with_link o s (fun l L =>
      match mutex_ L with None => locked t o body l L s k | Some _ => next s (deferred ++ k) end)
  | Unlock l =>
      match heap s !! l with
      | Some L => if bool_decide (mutex_ L = Some t) then next (put_link l (set_mutex None L) s) k else ub
      | None => ub
      end
  | ReadContainer o => with_link o s (fun _ L =>
      next s (match container_ L with Some c => Touch c :: k | None => k end))
  | Touch c => with_ptr (Container c) s (fun _ => next s k)
  | ClearContainer o => with_link o s (fun l L => next (put_link l (set_container None L) s) k)
  | SetLinked b o => with_ptr o s (fun w => next (put_ptr o (setLinked b w) s) k)
  end.

(** One step of a thread; a call with nothing left to do returns. *)
Definition step (a : Z) (t : tid) (s : sys) : option (outcome sys) :=
  match threads s !! t with
  | None => None
  | Some act =>
      match code act with
      | [] => Some (Ret (Sys (heap s) (ptrs s) (delete t (threads s))))
      | i :: k =>
          match access a t i s k with
          | Some (Ret (s', k')) => Some (Ret (set_code t k' s'))
          | Some (Throw e) => Some (Throw e)
          | None => None
          end
      end
  end.

(** ** What callers must respect *)
(** The objects a call makes, moves or destroys, and those it only uses. *)
Definition makes (k : call) : gset owner :=
  match k with
  | MakeContainer c _ => {[ Container c ]}
  | MakeStat x _ | MoveConstruct x _ => {[ Stat x ]}
  | _ => ∅
  end.
Definition changes (k : call) : gset owner :=
  match k with
  | MoveConstruct _ y => {[ Stat y ]}
  | MoveAssign x y => {[ Stat x; Stat y ]}
  | DestroyStat x => {[ Stat x ]}
  | DestroyContainer c => {[ Container c ]}
  | _ => ∅
  end.
Definition uses (k : call) : gset owner :=
  match k with
  | MakeStat _ c | Aggregate c => {[ Container c ]}
  | WithContainer x => {[ Stat x ]}
  | _ => ∅
  end.
Definition owns (k : call) : gset owner := makes k ∪ changes k.
(** The container that the link of an object leads to. *)
Definition container_of (o : owner) (s : sys) : gset owner :=
  match ptrs s !! o with
  | Some w => match heap s !! get w with
              | Some (Link _ _ (Some c) _) => {[ Container c ]}
              | _ => ∅
              end
  | None => ∅
  end.
(** The stat whose container a call registers with: its caller keeps it. *)
Definition registers_with (k : call) : option owner :=
  match k with
  | MakeStat _ c => Some (Container c)
  | MoveConstruct _ y | MoveAssign _ y => Some (Stat y)
  | _ => None
  end.
(** [keep]: whether the caller of a move keeps the container alive. *)
Definition relies_on (keep : bool) (k : call) (s : sys) : gset owner :=
  uses k ∪ (if keep then match registers_with k with Some o => container_of o s | None => ∅ end else ∅).

Definition apart (k : call) (kept_k : gset owner) (a : activity) : Prop :=
  owns k ## owns (running a) /\ owns k ## kept a /\ kept_k ## owns (running a).
Definition allowed (keep : bool) (t : tid) (k : call) (s : sys) : Prop :=
  threads s !! t = None /\
  set_Forall (fun o => ptrs s !! o = None) (makes k) /\
  set_Forall (fun o => is_Some (ptrs s !! o)) (changes k ∪ uses k) /\
  map_Forall (fun _ a => apart k (relies_on keep k s) a) (threads s).
#[export] Instance allowed_dec keep t k s : Decision (allowed keep t k s).
Proof. unfold allowed, apart. apply _. Defined.
Definition start (keep : bool) (t : tid) (k : call) (s : sys) : sys :=
  Sys (heap s) (ptrs s) (<[t := Running k (relies_on keep k s) (program k)]> (threads s)).

(** The allocator: an even address of 64 bits, not in use; and memory holds fewer
    than [2 ^ 64] pointers. *)
Definition allocatable (a : Z) (s : sys) : Prop := heap s !! a = None /\ 0 < a < 2 ^ 64 /\ Z.even a = true.
Definition fits (s : sys) : Prop := Z.of_nat (size (ptrs s)) < 2 ^ 64.
#[export] Instance allocatable_dec a s : Decision (allocatable a s).
Proof. unfold allocatable. apply _. Defined.
#[export] Instance fits_dec s : Decision (fits s).
Proof. unfold fits. apply _. Defined.

Inductive reachable (keep : bool) : sys -> Prop :=
  | reach_make : reachable keep make
  | reach_call t k s : reachable keep s -> allowed keep t k s -> reachable keep (start keep t k s)
  | reach_step a t s s' :
      reachable keep s -> allocatable a s -> step a t s = Some (Ret s') -> fits s' -> reachable keep s'.

(** A schedule: calls that start, and threads that move. *)
Inductive event := Call (t : tid) (k : call) | Move (t : tid) (a : Z).
Definition exec (keep : bool) (e : event) (s : sys) : option sys :=
  match e with
  | Call t k => if bool_decide (allowed keep t k s) then Some (start keep t k s) else None
  | Move t a =>
      if bool_decide (allocatable a s) then
        match step a t s with
        | Some (Ret s') => if bool_decide (fits s') then Some s' else None
        | _ => None
        end
      else None
  end.
Fixpoint exec_all (keep : bool) (es : list event) (s : sys) : option sys :=
  match es with
  | [] => Some s
  | e :: es' => match exec keep e s with Some s' => exec_all keep es' s' | None => None end
  end.
Lemma exec_all_reachable keep es s s' : reachable keep s -> exec_all keep es s = Some s' -> reachable keep s'.
Proof.
  revert s. induction es as [|e es IH]; intros s Hs; cbn; [by intros [= <-]|].
  destruct (exec keep e s) as [s1|] eqn:He; [|done]. apply IH. destruct e as [t k|t a]; cbn in He; case_bool_decide; try done.
  - injection He as <-. by apply reach_call.
  - destruct (step a t s) as [[s2|]|] eqn:Hs2; try done. case_bool_decide; [|done]. injection He as <-. by apply (reach_step _ a t s).
Qed.
End StatLink.
