(* ===== verification/StatLinkTyping.v ===== *)
(** * StatLinkTyping: what a running call may still do

    Facts on the pointer word, and a discipline for the code a call has left: what
    it knows of the pointers it owns, of the containers it relies on and of the
    link it has locked decides which accesses may follow.  Every function of
    [StatLink] obeys it. *)
From S2P Require Import Prelude StatLink.
From Stdlib Require Import ZArith Lia.
From stdpp Require Import base gmap sets list.
Import StatLink.

Open Scope Z_scope.

(** ** The pointer word *)
Lemma get_setLinked b w : get (setLinked b w) = get w.
Proof.
  unfold get, setLinked. destruct b.
  - by rewrite Z.land_lor_distr_l, Z.lor_0_r.
  - by rewrite <- Z.land_assoc, Z.land_diag.
Qed.
Lemma isLinked_get w : isLinked (get w) = false.
Proof. unfold isLinked, get. by rewrite <- Z.land_assoc, Z.land_0_r. Qed.
Lemma isLinked_setLinked b w : isLinked (setLinked b w) = b.
Proof.
  destruct b; [|apply isLinked_get]. unfold isLinked, setLinked.
  rewrite Z.land_lor_distr_l, Z.land_diag. destruct (Z.lor (Z.land w kLinked) kLinked =? 0) eqn:E; [|done].
  apply Z.eqb_eq, Z.lor_eq_0_iff in E. by destruct E.
Qed.
Lemma get_even a : 0 <= a < 2 ^ 64 -> Z.even a = true -> get a = a.
Proof.
  intros Ha He. unfold get. rewrite <- (Z.mod_small a (2 ^ 64) Ha) at 2. rewrite <- Z.land_ones by lia.
  change (Z.ones 64) with (Z.lor (wrapu 64 (Z.lnot kLinked)) (Z.ones 1)).
  rewrite Z.land_lor_distr_r, (Z.land_ones a 1) by lia. change (2 ^ 1) with 2.
  by rewrite Zmod_even, He, Z.lor_0_r.
Qed.
Lemma get_get w : get (get w) = get w.
Proof. unfold get. by rewrite <- Z.land_assoc, Z.land_diag. Qed.
Create Rewrite HintDb word.
#[export] Hint Rewrite get_setLinked isLinked_setLinked isLinked_get get_get : word.

(** ** What a call knows *)
(** Of a pointer it owns: its object is not there; its word is stored, from that
    other pointer, but not counted; counted, with its flag; given up. *)
Inductive known := Absent | Stored (src : owner) | Counted (linked : bool) | Released.
Definition settled (p : known) : Prop := match p with Absent | Counted _ => True | _ => False end.
(** Of the access to come: the container it has just read, the link nobody else has. *)
Inductive mark := Nothing | Seen (c : nat) | Doomed (l : Z).
Record ghost := Ghost {
  own : gmap owner known;
  safe : gset owner;                  (** objects whose link leads to a kept container *)
  gone : gset nat;                    (** containers no link leads to any more *)
  held : option (Z * owner);          (** the link it has locked, through which pointer *)
  about : mark
}.
Definition readable (R : gset owner) (G : gmap owner known) (o : owner) : Prop :=
  (exists b, G !! o = Some (Counted b)) \/ o ∈ R.
Definition copied (x o : owner) (F : gset owner) : gset owner :=
  if bool_decide (o ∈ F) then {[ x ]} ∪ F else F ∖ {[ x ]}.

(** [typed R gh k]: with the containers and stats [R] kept by its caller, a call
    that knows [gh] may go on with [k]. *)
Inductive typed (R : gset owner) : ghost -> list instr -> Prop :=
  | ty_done G F K : (forall o p, G !! o = Some p -> settled p) -> typed R (Ghost G F K None Nothing) []
  | ty_new G F K c u k : G !! Container c = Some Absent -> c ∉ K ->
      typed R (Ghost (<[Container c := Counted false]> G) F K None Nothing) k ->
      typed R (Ghost G F K None Nothing) (NewLink c u :: k)
  | ty_copy G F K x o p k : G !! Stat x = Some p -> (p = Absent \/ p = Released) -> readable R G o ->
      typed R (Ghost (<[Stat x := Stored o]> G) (copied (Stat x) o F) K None Nothing) k ->
      typed R (Ghost G F K None Nothing) (CopyFrom (Stat x) o :: k)
  | ty_inc G F K x o k : G !! x = Some (Stored o) ->
      typed R (Ghost (<[x := Counted false]> G) F K None Nothing) k ->
      typed R (Ghost G F K None Nothing) (IncRef x :: k)
  | ty_check G F K h o k : G !! o = Some (Counted false) -> typed R (Ghost G F K h Nothing) k ->
      typed R (Ghost G F K h Nothing) (CheckUnlinked o :: k)
  | ty_dec G F K o k : G !! o = Some (Counted false) -> (forall x, G !! x <> Some (Stored o)) ->
      typed R (Ghost (<[o := Released]> G) (F ∖ {[ o ]}) K None Nothing) k ->
      typed R (Ghost G F K None Nothing) (DecRef o :: k)
  | ty_delete G F K l k : typed R (Ghost G F K None Nothing) k -> typed R (Ghost G F K None (Doomed l)) (Delete l :: k)
  | ty_end G F K o k : G !! o = Some Released -> (forall c, o = Container c -> c ∈ K) ->
      typed R (Ghost (<[o := Absent]> G) F K None Nothing) k ->
      typed R (Ghost G F K None Nothing) (EndPtr o :: k)
  | ty_if G F K h b o b' body k : G !! o = Some (Counted b') ->
      typed R (Ghost G F K h Nothing) (if Bool.eqb b' b then body ++ k else k) ->
      typed R (Ghost G F K h Nothing) (IfLinked b o body :: k)
  | ty_flag G F K h o k : readable R G o -> typed R (Ghost G F K h Nothing) k ->
      typed R (Ghost G F K h Nothing) (ReadFlag o :: k)
  | ty_lock G F K o body k : readable R G o ->
      (forall l, typed R (Ghost G F K (Some (l, o)) Nothing) (ReadContainer o :: body ++ Unlock l :: k)) ->
      typed R (Ghost G F K None Nothing) (Lock o body :: k)
  | ty_try G F K o body deferred k : readable R G o ->
      (forall l, typed R (Ghost G F K (Some (l, o)) Nothing) (ReadContainer o :: body ++ Unlock l :: k)) ->
      typed R (Ghost G F K None Nothing) (deferred ++ k) ->
      typed R (Ghost G F K None Nothing) (TryLock o body deferred :: k)
  | ty_unlock G F K l o k : typed R (Ghost G F K None Nothing) k ->
      typed R (Ghost G F K (Some (l, o)) Nothing) (Unlock l :: k)
  | ty_read_locked G F K l o k : typed R (Ghost G F K (Some (l, o)) Nothing) k ->
      typed R (Ghost G F K (Some (l, o)) Nothing) (ReadContainer o :: k)
  | ty_read_kept G F K h o k : o ∈ F -> readable R G o -> typed R (Ghost G F K h Nothing) k ->
      typed R (Ghost G F K h Nothing) (ReadContainer o :: k)
  | ty_touch_seen G F K h c k : typed R (Ghost G F K h Nothing) k ->
      typed R (Ghost G F K h (Seen c)) (Touch c :: k)
  | ty_touch_kept G F K h c k : readable R G (Container c) -> typed R (Ghost G F K h Nothing) k ->
      typed R (Ghost G F K h Nothing) (Touch c :: k)
  | ty_clear G F K l c b k : G !! Container c = Some (Counted b) ->
      typed R (Ghost G F ({[ c ]} ∪ K) (Some (l, Container c)) Nothing) k ->
      typed R (Ghost G F K (Some (l, Container c)) Nothing) (ClearContainer (Container c) :: k)
  | ty_set G F K h b x b' k : G !! Stat x = Some (Counted b') ->
      typed R (Ghost (<[Stat x := Counted b]> G) F K h Nothing) k ->
      typed R (Ghost G F K h Nothing) (SetLinked b (Stat x) :: k).

(** ** Every program is typed

    For any flags of the pointers it changes. *)
Lemma readable_own R G o b : G !! o = Some (Counted b) -> readable R G o.
Proof. left. by exists b. Qed.
Lemma readable_kept (R : gset owner) G o : o ∈ R -> readable R G o.
Proof. by right. Qed.
Create HintDb typed.
#[export] Hint Resolve readable_own readable_kept : typed.

Lemma typed_unlink R G F K x b k : G !! Stat x = Some (Counted b) ->
  typed R (Ghost (<[Stat x := Counted false]> G) F K None Nothing) k ->
  typed R (Ghost G F K None Nothing) (unlink (Stat x) ++ k).
Proof.
  intros Hx Hk. apply (ty_if R _ _ _ _ _ _ b); [done|]. destruct b; cbn.
  - apply ty_flag; [eauto with typed|]. apply ty_lock; [eauto with typed|]. intros l. cbn.
    apply ty_read_locked, ty_read_locked. apply (ty_set R _ _ _ _ _ _ true); [done|]. by apply ty_unlock.
  - by rewrite (insert_id G (Stat x) _ Hx) in Hk.
Qed.
Lemma typed_link R G F K x b k : G !! Stat x = Some (Counted b) -> Stat x ∈ F ->
  typed R (Ghost (<[Stat x := Counted true]> G) F K None Nothing) k ->
  typed R (Ghost G F K None Nothing) (link (Stat x) ++ k).
Proof.
  intros Hx HF Hk. apply (ty_if R _ _ _ _ _ _ b); [done|]. destruct b; cbn.
  - by rewrite (insert_id G (Stat x) _ Hx) in Hk.
  - apply ty_try; [eauto with typed| |].
    + intros l. cbn. apply ty_read_locked, ty_read_locked. apply (ty_set R _ _ _ _ _ _ false); [done|]. by apply ty_unlock.
    + apply ty_read_kept; [done|eauto with typed|]. by apply (ty_set R _ _ _ _ _ _ false).
Qed.
Lemma typed_destroy R G F K o k : G !! o = Some (Counted false) -> (forall x, G !! x <> Some (Stored o)) ->
  (forall c, o = Container c -> c ∈ K) ->
  typed R (Ghost (<[o := Absent]> G) (F ∖ {[ o ]}) K None Nothing) k ->
  typed R (Ghost G F K None Nothing) (ptr_destroy o ++ k).
Proof.
  intros Ho Hs HK Hk. apply ty_check; [done|]. apply ty_dec; [done|done|]. apply ty_end; [by rewrite lookup_insert_eq|done|].
  by rewrite insert_insert_eq.
Qed.
Lemma typed_from R G F K x o k : G !! Stat x = Some Absent -> o <> Stat x -> readable R G o -> o ∈ F ->
  typed R (Ghost (<[Stat x := Counted false]> G) ({[ Stat x ]} ∪ F) K None Nothing) k ->
  typed R (Ghost G F K None Nothing) (ptr_from (Stat x) o ++ k).
Proof.
  intros Hx Hne Ho HF Hk. apply (ty_copy R _ _ _ _ _ Absent); [done|by left|done|].
  unfold copied. rewrite bool_decide_true by done. apply (ty_inc R _ _ _ _ o); [by rewrite lookup_insert_eq|].
  by rewrite insert_insert_eq.
Qed.

Definition all_settled (G : gmap owner known) : Prop := map_Forall (fun _ p => settled p) G.
Lemma settled_insert G o p : settled p -> all_settled G -> all_settled (<[o := p]> G).
Proof. intros. by apply (map_Forall_insert_2 (fun _ q => settled q)). Qed.
Lemma settled_not_stored G x o : all_settled G -> G !! x <> Some (Stored o).
Proof. intros HG Hx. by destruct (HG _ _ Hx). Qed.
Lemma typed_done R G F K : all_settled G -> typed R (Ghost G F K None Nothing) [].
Proof. intros HG. constructor. intros o p. apply HG. Qed.

(** What a call knows when it starts. *)
Definition registering (k : call) : gset owner := match registers_with k with Some o => {[ o ]} | None => ∅ end.
Record starts (R : gset owner) (k : call) (G : gmap owner known) : Prop := {
  st_new : forall o, o ∈ makes k -> G !! o = Some Absent;
  st_old : forall o, o ∈ changes k -> exists b, G !! o = Some (Counted b);
  st_plain : forall c, Container c ∈ changes k -> G !! Container c = Some (Counted false);
  st_settled : all_settled G;
  st_kept : uses k ⊆ R
}.
Lemma typed_program R k G : makes k ## changes k -> starts R k G ->
  typed R (Ghost G (registering k) ∅ None Nothing) (program k).
Proof.
  intros Hd [Hn Ho Hp Hs Hk]. destruct k as [c u|x c|x y|x y|x|c|x|c]; unfold program, make_container, make_stat, move_construct, moveAssignment, withContainerChecked, aggregate, destroy_stat, destroy_container; cbn in *.
  - apply ty_new; [by apply Hn; set_solver|set_solver|by apply typed_done, settled_insert].
  - apply typed_from; [by apply Hn; set_solver|done|right; set_solver|set_solver|].
    rewrite <- (app_nil_r (link _)). apply (typed_link _ _ _ _ _ false); [by rewrite lookup_insert_eq|set_solver|].
    apply typed_done. by repeat apply settled_insert.
  - assert (Hne : Stat x <> Stat y) by set_solver. destruct (Ho (Stat y)) as [b Hb]; [set_solver|].
    apply typed_from; [by apply Hn; set_solver|congruence|by eapply readable_own|set_solver|].
    apply (typed_unlink _ _ _ _ _ b); [by simplify_map_eq|].
    rewrite <- (app_nil_r (link _)). apply (typed_link _ _ _ _ _ false); [by simplify_map_eq|set_solver|].
    apply typed_done. by repeat apply settled_insert.
  - destruct (Nat.eqb_spec x y) as [->|Hne]; [by apply typed_done|].
    assert (Stat x <> Stat y) by congruence. destruct (Ho (Stat x)) as [bx Hx]; [set_solver|]. destruct (Ho (Stat y)) as [b Hb]; [set_solver|].
    apply (typed_unlink _ _ _ _ _ bx); [done|]. apply (typed_unlink _ _ _ _ _ b); [by simplify_map_eq|].
    apply ty_check; [by simplify_map_eq|]. apply ty_dec; [by simplify_map_eq|intros z; apply settled_not_stored; by repeat apply settled_insert|].
    apply (ty_copy _ _ _ _ _ _ Released); [by simplify_map_eq|by right|eapply readable_own; by simplify_map_eq|].
    unfold copied. rewrite bool_decide_true by set_solver. apply (ty_inc _ _ _ _ _ (Stat y)); [by simplify_map_eq|].
    cbn [app]. rewrite <- (app_nil_r (link _)). apply (typed_link _ _ _ _ _ false); [by simplify_map_eq|set_solver|].
    rewrite !insert_insert_eq. apply typed_done. by repeat apply settled_insert.
  - apply ty_lock; [right; set_solver|]. intros l. cbn. apply ty_read_locked, ty_read_locked, ty_unlock. by apply typed_done.
  - apply ty_touch_kept; [right; set_solver|]. apply ty_lock; [right; set_solver|]. intros l. cbn.
    apply ty_read_locked, ty_touch_kept; [right; set_solver|]. by apply ty_unlock, typed_done.
  - destruct (Ho (Stat x)) as [b Hb]; [set_solver|]. apply (typed_unlink _ _ _ _ _ b); [done|].
    apply ty_check; [by simplify_map_eq|]. rewrite <- (app_nil_r (ptr_destroy _)).
    apply typed_destroy; [by simplify_map_eq|intros z; apply settled_not_stored; by repeat apply settled_insert|done|].
    apply typed_done. by repeat apply settled_insert.
  - pose proof (Hp c ltac:(set_solver)) as Hc. apply ty_lock; [by eapply readable_own|]. intros l. cbn.
    apply ty_read_locked. apply (ty_clear _ _ _ _ _ _ false); [done|]. apply ty_touch_kept; [by eapply readable_own|].
    apply ty_unlock. change [CheckUnlinked (Container c); DecRef (Container c); EndPtr (Container c)] with (ptr_destroy (Container c) ++ []).
    apply typed_destroy; [done|by intros z; apply settled_not_stored| |by apply typed_done, settled_insert].
    intros c' [= <-]. set_solver.
Qed.
