(* ===== verification/StatLinkCorrect.v ===== *)
(** * StatLinkCorrect: the links outlive every pointer to them

    The invariant: what every thread knows ([StatLinkTyping]) is true, [refCount_]
    counts the references that have been taken, and the mutex of a link, its back
    pointer and its end are where the threads say.  Every access and every call
    keeps it. *)
From S2P Require Import Prelude StatLink StatLinkTyping.
From Stdlib Require Import ZArith Lia.
From stdpp Require Import base gmap sets list.
Import StatLink.

Open Scope Z_scope.

(** ** References taken *)
(** [rv]: the link of every pointer whose reference is counted. *)
Definition refs (rv : gmap owner Z) (l : Z) : nat := size (filter (fun p => p.2 = l) rv).
Lemma refs_insert rv o l l' : rv !! o = None -> refs (<[o := l]> rv) l' = ((if bool_decide (l = l') then 1 else 0) + refs rv l')%nat.
Proof.
  intros Ho. unfold refs. case_bool_decide as Hl.
  - rewrite map_filter_insert_True by done. rewrite map_size_insert_None; [lia|]. apply map_lookup_filter_None. by left.
  - rewrite map_filter_insert_False by done. by rewrite delete_id by done.
Qed.
Lemma refs_delete rv o l l' : rv !! o = Some l -> refs rv l' = ((if bool_decide (l = l') then 1 else 0) + refs (delete o rv) l')%nat.
Proof. intros Ho. rewrite <- (insert_delete_id rv o l Ho) at 1. by rewrite refs_insert by apply lookup_delete_eq. Qed.
Lemma refs_positive rv o l : rv !! o = Some l -> refs rv l <> O.
Proof. intros Ho. rewrite (refs_delete rv o l l Ho), bool_decide_true by done. lia. Qed.
Lemma refs_zero rv l : refs rv l = O -> forall o, rv !! o <> Some l.
Proof. intros Hz o Ho. by apply (refs_positive rv o l). Qed.
Lemma refs_bound rv l (ps : gmap owner Z) : dom rv ⊆ dom ps -> (refs rv l <= size ps)%nat.
Proof.
  intros Hd. transitivity (size rv); [apply map_size_filter|]. rewrite <- !size_dom. by apply subseteq_size.
Qed.

(** ** What a thread knows is true *)
Definition matches (s : sys) (rv : gmap owner Z) (R : gset owner) (G : gmap owner known) (o : owner) (p : known) : Prop :=
  match p with
  | Absent => ptrs s !! o = None /\ rv !! o = None
  | Stored src => rv !! o = None /\ readable R G src /\ exists w, ptrs s !! o = Some w /\ isLinked w = false /\ rv !! src = Some (get w)
  | Counted b => exists w, ptrs s !! o = Some w /\ isLinked w = b /\ rv !! o = Some (get w)
  | Released => rv !! o = None /\ exists w, ptrs s !! o = Some w /\ isLinked w = false
  end.
Record true_of (s : sys) (rv : gmap owner Z) (t : tid) (R : gset owner) (gh : ghost) : Prop := {
  tr_own : forall o p, own gh !! o = Some p -> matches s rv R (own gh) o p;
  tr_kept : forall o, o ∈ R -> own gh !! o = None /\ exists w, ptrs s !! o = Some w /\ rv !! o = Some (get w);
  tr_safe : forall o, o ∈ safe gh -> (readable R (own gh) o \/ exists src, own gh !! o = Some (Stored src)) /\
    forall w L c, ptrs s !! o = Some w -> heap s !! get w = Some L -> container_ L = Some c -> Container c ∈ R;
  tr_gone : forall c, c ∈ gone gh -> is_Some (own gh !! Container c) /\ forall l L, heap s !! l = Some L -> container_ L <> Some c;
  tr_held : forall l o, held gh = Some (l, o) -> readable R (own gh) o /\ rv !! o = Some l /\
    exists L, heap s !! l = Some L /\ mutex_ L = Some t;
  tr_about : match about gh with
    | Nothing => True
    | Seen c => exists l o L, held gh = Some (l, o) /\ heap s !! l = Some L /\ container_ L = Some c
    | Doomed l => is_Some (heap s !! l) /\ refs rv l = O
    end
}.

(** What [g] says every running call knows is true, and the counts are right. *)
Record inv_with (s : sys) (g : gmap tid ghost) (rv : gmap owner Z) : Prop := {
  iv_thread : forall t a, threads s !! t = Some a -> exists gh, g !! t = Some gh /\
    dom (own gh) = owns (running a) /\ typed (kept a) gh (code a) /\ true_of s rv t (kept a) gh;
  iv_idle : forall t, threads s !! t = None -> g !! t = None;
  iv_apart : forall t t' a a', t <> t' -> threads s !! t = Some a -> threads s !! t' = Some a' ->
    owns (running a) ## owns (running a') /\ owns (running a) ## kept a';
  iv_rv : forall o l, rv !! o = Some l -> (exists w, ptrs s !! o = Some w /\ get w = l) /\ is_Some (heap s !! l);
  iv_free : forall o w, ptrs s !! o = Some w -> (forall t a, threads s !! t = Some a -> o ∉ owns (running a)) ->
    rv !! o = Some (get w);
  iv_plain : forall c w, ptrs s !! Container c = Some w -> isLinked w = false;
  iv_count : forall l L, heap s !! l = Some L -> refCount_ L = Z.of_nat (refs rv l);
  iv_mutex : forall l L t, heap s !! l = Some L -> mutex_ L = Some t -> exists gh o, g !! t = Some gh /\ held gh = Some (l, o);
  iv_back : forall l L c, heap s !! l = Some L -> container_ L = Some c ->
    exists w, ptrs s !! Container c = Some w /\ get w = l;
  iv_dead : forall l, is_Some (heap s !! l) -> refs rv l = O -> exists t gh, g !! t = Some gh /\ about gh = Doomed l;
  iv_once : forall l t t' gh gh', g !! t = Some gh -> g !! t' = Some gh' -> about gh = Doomed l -> about gh' = Doomed l -> t = t';
  iv_fits : fits s
}.
Definition inv (s : sys) : Prop := exists g rv, inv_with s g rv.

(** ** A readable pointer is counted *)
Section Knows.
Context {s : sys} {rv : gmap owner Z} {t : tid} {R : gset owner} {gh : ghost} (Htrue : true_of s rv t R gh).

Lemma readable_counted o : readable R (own gh) o -> exists w, ptrs s !! o = Some w /\ rv !! o = Some (get w).
Proof.
  intros [[b Hb]|Ho]; [|by apply (tr_kept _ _ _ _ _ Htrue)].
  destruct (tr_own _ _ _ _ _ Htrue _ _ Hb) as (w & ? & ? & ?). by exists w.
Qed.
Lemma readable_there o : readable R (own gh) o -> o ∈ R \/ o ∈ dom (own gh).
Proof. intros [[b Hb]|Ho]; [right; by apply elem_of_dom_2 in Hb|by left]. Qed.
Lemma safe_counted o : o ∈ safe gh -> exists w o', ptrs s !! o = Some w /\ rv !! o' = Some (get w) /\ (o ∈ R \/ o ∈ dom (own gh)).
Proof.
  intros Ho. destruct (tr_safe _ _ _ _ _ Htrue _ Ho) as [[Hr|[src Hs]] _].
  - destruct (readable_counted o Hr) as (w & Hw & Hc). exists w, o. split_and!; [done|done|by apply readable_there].
  - destruct (tr_own _ _ _ _ _ Htrue _ _ Hs) as (_ & _ & w & Hw & _ & Hc). exists w, src.
    split_and!; [done|done|right; by apply elem_of_dom_2 in Hs].
Qed.
End Knows.

(** ** A step of one thread, seen by the others *)
Lemma sys_eta (s : sys) : Sys (heap s) (ptrs s) (threads s) = s.
Proof. by destruct s. Qed.
Section Step.
Context {s : sys} {g : gmap tid ghost} {rv : gmap owner Z} (Hinv : inv_with s g rv).
Context {t : tid} {a : activity} {gh : ghost} (Ht : threads s !! t = Some a) (Hgh : g !! t = Some gh).

Record framed (s' : sys) (rv' : gmap owner Z) : Prop := {
  fr_ptr : forall o, o ∉ owns (running a) -> ptrs s' !! o = ptrs s !! o /\ rv' !! o = rv !! o;
  fr_heap : forall l L, heap s !! l = Some L -> (refs rv l <> O \/ about gh <> Doomed l) -> exists L', heap s' !! l = Some L' /\
    forall t', t' <> t -> mutex_ L = Some t' -> mutex_ L' = Some t' /\ container_ L' = container_ L;
  fr_container : forall l L' c, heap s' !! l = Some L' -> container_ L' = Some c ->
    (exists L, heap s !! l = Some L /\ container_ L = Some c) \/ (heap s !! l = None /\ Container c ∈ owns (running a));
  fr_refs : forall l, is_Some (heap s !! l) -> refs rv l = O -> refs rv' l = O
}.

Lemma others_framed s' rv' t' a' gh1 : framed s' rv' -> t' <> t -> threads s !! t' = Some a' -> g !! t' = Some gh1 ->
  dom (own gh1) = owns (running a') -> true_of s rv t' (kept a') gh1 -> true_of s' rv' t' (kept a') gh1.
Proof.
  intros [Hp Hh Hc Hr] Hne Ht' Hg1 Hd Htrue. destruct (iv_apart _ _ _ Hinv t' t a' a Hne Ht' Ht) as [Ha1 _].
  destruct (iv_apart _ _ _ Hinv t t' a a' (not_eq_sym Hne) Ht Ht') as [_ Ha2].
  assert (Hsame : forall o, o ∈ kept a' \/ o ∈ dom (own gh1) -> ptrs s' !! o = ptrs s !! o /\ rv' !! o = rv !! o)
    by (intros o [Ho|Ho]; apply Hp; set_solver).
  assert (Hread : forall o, readable (kept a') (own gh1) o -> rv' !! o = rv !! o)
    by (intros o Ho; by apply Hsame, (readable_there)).
  split.
  - intros o p Ho. pose proof (tr_own _ _ _ _ _ Htrue o p Ho) as Hm.
    destruct (Hsame o) as [E1 E2]; [right; by apply elem_of_dom_2 in Ho|].
    destruct p as [|src|b|]; cbn in Hm |- *; rewrite ?E1, ?E2; try done.
    destruct Hm as (? & Hs & Hw). rewrite (Hread src) by done. done.
  - intros o Ho. destruct (Hsame o) as [E1 E2]; [by left|]. rewrite E1, E2. by apply (tr_kept _ _ _ _ _ Htrue).
  - intros o Ho. split; [by apply (tr_safe _ _ _ _ _ Htrue)|]. intros w L c Hw HL HLc.
    destruct (safe_counted Htrue o Ho) as (w0 & o' & Hw0 & Ho' & Hthere). destruct (Hsame o Hthere) as [E1 _].
    rewrite E1, Hw0 in Hw. injection Hw as <-. destruct (Hc _ _ _ HL HLc) as [(L0 & HL0 & HLc0)|[Hnone _]].
    + by apply (proj2 (tr_safe _ _ _ _ _ Htrue _ Ho) w0 L0).
    + destruct (iv_rv _ _ _ Hinv _ _ Ho') as [_ [? ?]]. congruence.
  - intros c Hcg. destruct (tr_gone _ _ _ _ _ Htrue c Hcg) as [Hin Hno]. split; [done|]. intros l L HL HLc.
    destruct (Hc _ _ _ HL HLc) as [(L0 & HL0 & HLc0)|[_ Hown]]; [by apply (Hno l L0)|].
    apply elem_of_dom in Hin. set_solver.
  - intros l o Hheld. destruct (tr_held _ _ _ _ _ Htrue l o Hheld) as (Hro & Hl & L & HL & Hm).
    split_and!; [done|by rewrite Hread|]. destruct (Hh l L HL) as (L' & HL' & Hk); [left; by apply (refs_positive rv o)|].
    exists L'. split; [done|]. by apply Hk.
  - pose proof (tr_about _ _ _ _ _ Htrue) as Hab. destruct (about gh1) as [|c|l] eqn:Eab; [done| |].
    + destruct Hab as (l & o & L & Hheld & HL & HLc). destruct (tr_held _ _ _ _ _ Htrue l o Hheld) as (_ & Hl & L0 & HL0 & Hm).
      simplify_eq. destruct (Hh l L HL) as (L' & HL' & Hk); [left; by apply (refs_positive rv o)|].
      exists l, o, L'. destruct (Hk t' Hne Hm) as [_ ->]. done.
    + destruct Hab as [[L HL] Hz]. split; [|apply Hr; [by exists L|done]].
      destruct (Hh l L HL) as (L' & HL' & _); [|by exists L'].
      right. intros E. apply Hne. by apply (iv_once _ _ _ Hinv l t' t gh1 gh).
Qed.

(** What a step has to leave, for the thread and for the counts. *)
Record settles (s' : sys) (gh' : ghost) (rv' : gmap owner Z) (k' : list instr) : Prop := {
  se_threads : threads s' = threads s;
  se_dom : dom (own gh') = owns (running a);
  se_typed : typed (kept a) gh' k';
  se_true : true_of s' rv' t (kept a) gh';
  se_framed : framed s' rv';
  se_doomed : forall l, about gh' = Doomed l -> refs rv l <> O;
  se_rv : forall o l, rv' !! o = Some l -> (exists w, ptrs s' !! o = Some w /\ get w = l) /\ is_Some (heap s' !! l);
  se_plain : forall c w, ptrs s' !! Container c = Some w -> isLinked w = false;
  se_count : forall l L, heap s' !! l = Some L -> refCount_ L = Z.of_nat (refs rv' l);
  se_mutex : forall l L t', heap s' !! l = Some L -> mutex_ L = Some t' ->
    (t' = t /\ exists o, held gh' = Some (l, o)) \/ (t' <> t /\ exists L0, heap s !! l = Some L0 /\ mutex_ L0 = Some t');
  se_back : forall l L c, heap s' !! l = Some L -> container_ L = Some c -> exists w, ptrs s' !! Container c = Some w /\ get w = l;
  se_dead : forall l, is_Some (heap s' !! l) -> refs rv' l = O ->
    about gh' = Doomed l \/ (is_Some (heap s !! l) /\ refs rv l = O /\ about gh <> Doomed l);
  se_fits : fits s'
}.

Lemma inv_settles s' gh' rv' k' : settles s' gh' rv' k' -> inv_with (set_code t k' s') (<[t := gh']> g) rv'.
Proof.
  intros [Hth Hdom Hty Htr Hfr Hdo Hrv Hpl Hco Hmu Hba Hde Hfi].
  assert (Hlook : forall t' a', threads (set_code t k' s') !! t' = Some a' ->
    (t' = t /\ a' = Running (running a) (kept a) k') \/ (t' <> t /\ threads s !! t' = Some a')).
  { intros t' a'. cbn. rewrite Hth. destruct (decide (t' = t)) as [->|Hne].
    - rewrite lookup_alter_eq, Ht. cbn. intros [= <-]. by left.
    - rewrite lookup_alter_ne by done. by right. }
  split; try done.
  - intros t' a' Ha'. destruct (Hlook _ _ Ha') as [[-> ->]|[Hne Ha]].
    + exists gh'. rewrite lookup_insert_eq. split_and!; try done. by destruct Htr; split.
    + destruct (iv_thread _ _ _ Hinv t' a' Ha) as (gh1 & Hg1 & Hd1 & Hty1 & Htr1). exists gh1.
      rewrite lookup_insert_ne by done. split_and!; try done. pose proof (others_framed s' rv' t' a' gh1 Hfr Hne Ha Hg1 Hd1 Htr1) as Ho.
      by destruct Ho; split.
  - intros t' Hnone. cbn in Hnone. rewrite Hth in Hnone. destruct (decide (t' = t)) as [->|Hne].
    + rewrite lookup_alter_eq, Ht in Hnone. done.
    + rewrite lookup_alter_ne in Hnone by done. rewrite lookup_insert_ne by done. by apply (iv_idle _ _ _ Hinv).
  - intros t1 t2 a1 a2 Hne H1 H2. destruct (Hlook _ _ H1) as [[-> ->]|[Hn1 Ha1]]; destruct (Hlook _ _ H2) as [[-> ->]|[Hn2 Ha2]]; try done; cbn.
    + by apply (iv_apart _ _ _ Hinv t t2 a a2).
    + by apply (iv_apart _ _ _ Hinv t1 t a1 a).
    + by apply (iv_apart _ _ _ Hinv t1 t2 a1 a2).
  - intros o w Hw Hfree. assert (Ho : o ∉ owns (running a)).
    { apply (Hfree t (Running (running a) (kept a) k')). cbn. by rewrite Hth, lookup_alter_eq, Ht. }
    destruct (fr_ptr _ _ Hfr o Ho) as [E1 E2]. rewrite E2. cbn in Hw. rewrite E1 in Hw. apply (iv_free _ _ _ Hinv o w Hw).
    intros t' a' Ha'. destruct (decide (t' = t)) as [->|Hne]; [congruence|].
    apply (Hfree t'). cbn. by rewrite Hth, lookup_alter_ne.
  - intros l L t' HL Hm. destruct (Hmu l L t' HL Hm) as [[-> [o Ho]]|[Hne (L0 & HL0 & Hm0)]].
    + exists gh', o. by rewrite lookup_insert_eq.
    + destruct (iv_mutex _ _ _ Hinv _ _ _ HL0 Hm0) as (gh1 & o & Hg1 & Ho). exists gh1, o. by rewrite lookup_insert_ne.
  - intros l Hl Hz. destruct (Hde l Hl Hz) as [Hd|(Hs & Hz0 & Hn)].
    + exists t, gh'. by rewrite lookup_insert_eq.
    + destruct (iv_dead _ _ _ Hinv l Hs Hz0) as (t1 & gh1 & Hg1 & Hd). exists t1, gh1. rewrite lookup_insert_ne; [done|].
      intros <-. congruence.
  - assert (Hother : forall l t1 gh1, t1 <> t -> g !! t1 = Some gh1 -> about gh1 = Doomed l -> about gh' = Doomed l -> False).
    { intros l t1 gh1 Hne Hg1 Hd1 Hd'. destruct (threads s !! t1) as [a1|] eqn:Ha1.
      - destruct (iv_thread _ _ _ Hinv t1 a1 Ha1) as (gh2 & Hg2 & _ & _ & Htr2). simplify_eq.
        pose proof (tr_about _ _ _ _ _ Htr2) as Hab. rewrite Hd1 in Hab. destruct Hab as [_ Hz]. by apply (Hdo l Hd').
      - by rewrite (iv_idle _ _ _ Hinv t1 Ha1) in Hg1. }
    intros l t1 t2 gh1 gh2 Hg1 Hg2 Hd1 Hd2.
    destruct (decide (t1 = t)) as [->|Hn1]; destruct (decide (t2 = t)) as [->|Hn2]; try done.
    + rewrite lookup_insert_eq in Hg1. rewrite lookup_insert_ne in Hg2 by done. simplify_eq. destruct (Hother l t2 gh2); done.
    + rewrite lookup_insert_eq in Hg2. rewrite lookup_insert_ne in Hg1 by done. simplify_eq. destruct (Hother l t1 gh1); done.
    + rewrite lookup_insert_ne in Hg1, Hg2 by done. by apply (iv_once _ _ _ Hinv l t1 t2 gh1 gh2).
Qed.

(** *** What the thread itself knows afterwards *)
Context (Hdom : dom (own gh) = owns (running a)) (Htrue : true_of s rv t (kept a) gh).
Abbreviation R := (kept a).

(** Links keep their containers, lose them, or are new. *)
Definition keeps_containers (s' : sys) : Prop := forall l L' c, heap s' !! l = Some L' -> container_ L' = Some c ->
  (exists L, heap s !! l = Some L /\ container_ L = Some c) \/ (heap s !! l = None /\ c ∉ gone gh).

Lemma readable_insert o x p : o <> x -> readable R (own gh) o -> readable R (<[x := p]> (own gh)) o.
Proof. intros Hne [[b Hb]|Ho]; [left; exists b; by rewrite lookup_insert_ne|by right]. Qed.
Lemma readable_link o : readable R (own gh) o -> exists w L, ptrs s !! o = Some w /\ heap s !! get w = Some L /\ rv !! o = Some (get w).
Proof.
  intros Ho. destruct (readable_counted Htrue o Ho) as (w & Hw & Hc). destruct (iv_rv _ _ _ Hinv _ _ Hc) as [_ [L HL]]. by exists w, L.
Qed.
Lemma safe_shrinks s' o w L c : keeps_containers s' -> o ∈ safe gh -> ptrs s !! o = Some w -> heap s' !! get w = Some L ->
  container_ L = Some c -> Container c ∈ R.
Proof.
  intros Hk Ho Hw HL HLc. destruct (safe_counted Htrue o Ho) as (w0 & o' & Hw0 & Ho' & _). rewrite Hw0 in Hw. injection Hw as <-.
  destruct (Hk _ _ _ HL HLc) as [(L0 & HL0 & HLc0)|[Hnone _]].
  - by apply (proj2 (tr_safe _ _ _ _ _ Htrue _ Ho) w0 L0).
  - destruct (iv_rv _ _ _ Hinv _ _ Ho') as [_ [? ?]]. congruence.
Qed.
Lemma gone_shrinks s' c : keeps_containers s' -> c ∈ gone gh ->
  is_Some (own gh !! Container c) /\ forall l L, heap s' !! l = Some L -> container_ L <> Some c.
Proof.
  intros Hk Hc. destruct (tr_gone _ _ _ _ _ Htrue c Hc) as [? Hno]. split; [done|]. intros l L HL HLc.
  destruct (Hk _ _ _ HL HLc) as [(L0 & HL0 & HLc0)|[_ Hn]]; [by apply (Hno l L0)|done].
Qed.
Definition about_true (s' : sys) (rv' : gmap owner Z) (h : option (Z * owner)) (m : mark) : Prop :=
  match m with
  | Nothing => True
  | Seen c => exists l o L, h = Some (l, o) /\ heap s' !! l = Some L /\ container_ L = Some c
  | Doomed l => is_Some (heap s' !! l) /\ refs rv' l = O
  end.

(** Nothing happened to its pointers. *)
Lemma true_of_heap s' K h m : ptrs s' = ptrs s -> keeps_containers s' ->
  (forall c, c ∈ K -> is_Some (own gh !! Container c) /\ forall l L, heap s' !! l = Some L -> container_ L <> Some c) ->
  (forall l o, h = Some (l, o) -> readable R (own gh) o /\ rv !! o = Some l /\ exists L, heap s' !! l = Some L /\ mutex_ L = Some t) ->
  about_true s' rv h m -> true_of s' rv t R (Ghost (own gh) (safe gh) K h m).
Proof.
  intros Hp Hk HK Hh Hm. split; cbn [own safe gone held about]; try done.
  - intros o p Ho. pose proof (tr_own _ _ _ _ _ Htrue o p Ho) as Hmt. unfold matches in *. by rewrite Hp.
  - rewrite Hp. apply (tr_kept _ _ _ _ _ Htrue).
  - intros o Ho. split; [by apply (tr_safe _ _ _ _ _ Htrue)|]. intros w L c. rewrite Hp. by apply safe_shrinks.
Qed.

(** One of its pointers changed. *)
Lemma true_of_change s' rv' x p F K h m :
  (forall o, o <> x -> ptrs s' !! o = ptrs s !! o /\ rv' !! o = rv !! o) -> keeps_containers s' -> K = gone gh ->
  is_Some (own gh !! x) ->
  (forall y, own gh !! y = Some (Stored x) -> rv' !! x = rv !! x /\ exists b, p = Counted b) ->
  matches s' rv' R (<[x := p]> (own gh)) x p ->
  (forall o, o ∈ F -> o <> x -> o ∈ safe gh) ->
  (x ∈ F -> (readable R (<[x := p]> (own gh)) x \/ exists src, p = Stored src) /\
    forall w L c, ptrs s' !! x = Some w -> heap s' !! get w = Some L -> container_ L = Some c -> Container c ∈ R) ->
  (forall l o, h = Some (l, o) -> held gh = Some (l, o) /\ (o = x -> rv' !! x = rv !! x /\ exists b, p = Counted b) /\
    exists L, heap s' !! l = Some L /\ mutex_ L = Some t) ->
  about_true s' rv' h m -> true_of s' rv' t R (Ghost (<[x := p]> (own gh)) F K h m).
Proof.
  intros Hsame Hk -> Hx Hsrc Hmx HF HFx Hh Hm.
  assert (HxR : x ∉ R) by (intros Hin; destruct (tr_kept _ _ _ _ _ Htrue x Hin) as [E _]; rewrite E in Hx; by destruct Hx).
  split; cbn [own safe gone held about]; try done.
  - intros o q Ho. destruct (decide (o = x)) as [->|Hne]; [rewrite lookup_insert_eq in Ho; by injection Ho as <-|].
    rewrite lookup_insert_ne in Ho by done. pose proof (tr_own _ _ _ _ _ Htrue o q Ho) as Hmt. destruct (Hsame o Hne) as [E1 E2].
    destruct q as [|src|b|]; cbn in Hmt |- *; rewrite ?E1, ?E2; try done. destruct Hmt as (? & Hr & Hw). split; [done|].
    destruct (decide (src = x)) as [->|Hsx].
    + destruct (Hsrc o Ho) as [-> [b ->]]. split; [apply (readable_own _ _ _ b); by rewrite lookup_insert_eq|done].
    + split; [by apply readable_insert|]. destruct (Hsame src Hsx) as [_ ->]. done.
  - intros o Ho. assert (o <> x) by (by intros ->). rewrite lookup_insert_ne by done. destruct (Hsame o) as [-> ->]; [done|].
    by apply (tr_kept _ _ _ _ _ Htrue).
  - intros o Ho. destruct (decide (o = x)) as [->|Hne].
    + destruct (HFx Ho) as [Hc Hrest]. split; [|done]. destruct Hc as [Hc|[src ->]]; [by left|right]. exists src. by rewrite lookup_insert_eq.
    + pose proof (HF o Ho Hne) as Hs. split.
      * destruct (tr_safe _ _ _ _ _ Htrue _ Hs) as [[Hr|[src Hr]] _]; [left; by apply readable_insert|].
        right. exists src. by rewrite lookup_insert_ne.
      * intros w L c. destruct (Hsame o Hne) as [-> _]. by apply safe_shrinks.
  - intros c Hc. destruct (gone_shrinks s' c Hk Hc) as [[q Hq] Hno]. split; [|done].
    destruct (decide (Container c = x)) as [<-|Hne]; [rewrite lookup_insert_eq|rewrite lookup_insert_ne by done]; eauto.
  - intros l o Ho. destruct (Hh l o Ho) as (Hheld & Hxo & HL). destruct (tr_held _ _ _ _ _ Htrue l o Hheld) as (Hr & Hl & _).
    destruct (decide (o = x)) as [->|Hne].
    + destruct (Hxo eq_refl) as [-> [b ->]]. split_and!; [apply (readable_own _ _ _ b); by rewrite lookup_insert_eq|done|done].
    + destruct (Hsame o Hne) as [_ ->]. split_and!; [by apply readable_insert|done|done].
Qed.

(** *** The shapes of a step *)
Lemma keeps_containers_same s' : heap s' = heap s -> keeps_containers s'.
Proof. intros E l L c. rewrite E. intros HL HLc. left. by exists L. Qed.
Lemma own_dom x p : own gh !! x = Some p -> x ∈ owns (running a).
Proof. intros Hx. rewrite <- Hdom. by apply elem_of_dom_2 in Hx. Qed.
Lemma own_insert_dom x p q : own gh !! x = Some p -> dom (<[x := q]> (own gh)) = owns (running a).
Proof. intros Hx. rewrite <- Hdom. by apply dom_insert_lookup_L. Qed.
(** The mutexes it holds are those it knows of. *)
Lemma mutex_held l L : heap s !! l = Some L -> mutex_ L = Some t -> exists o, held gh = Some (l, o).
Proof. intros HL Hm. destruct (iv_mutex _ _ _ Hinv _ _ _ HL Hm) as (gh1 & o & Hg1 & Ho). simplify_eq. by exists o. Qed.

(** Pointer words change, links do not. *)
Lemma settles_ptrs ps gh' k' : (forall l, about gh <> Doomed l) -> (forall l, about gh' <> Doomed l) -> held gh' = held gh ->
  (forall o, o ∉ owns (running a) -> ps !! o = ptrs s !! o) ->
  (forall o l, rv !! o = Some l -> exists w, ps !! o = Some w /\ get w = l) ->
  (forall c, ps !! Container c = ptrs s !! Container c \/ (ps !! Container c = None /\ c ∈ gone gh)) ->
  Z.of_nat (size ps) < 2 ^ 64 ->
  dom (own gh') = owns (running a) -> typed R gh' k' -> true_of (Sys (heap s) ps (threads s)) rv t R gh' ->
  settles (Sys (heap s) ps (threads s)) gh' rv k'.
Proof.
  intros Hn Hn' Hh Hp Hrv Hc Hf Hd Hty Htr. split; cbn [heap ptrs threads]; try done.
  - split; cbn [heap ptrs]; try done; [intros o Ho; by rewrite Hp|intros l L HL _; by exists L|].
    intros l L c HL HLc. left. by exists L.
  - by intros l E%Hn'.
  - intros o l Ho. split; [by apply Hrv|]. by apply (iv_rv _ _ _ Hinv _ _ Ho).
  - intros c w Hw. destruct (Hc c) as [E|[E _]]; rewrite E in Hw; [|done]. by apply (iv_plain _ _ _ Hinv c).
  - apply (iv_count _ _ _ Hinv).
  - intros l L t' HL Hm. destruct (decide (t' = t)) as [->|Hne]; [left|right; by eauto].
    destruct (mutex_held l L HL Hm) as [o Ho]. rewrite Hh. eauto.
  - intros l L c HL HLc. destruct (iv_back _ _ _ Hinv l L c HL HLc) as (w & Hw & Hl).
    destruct (Hc c) as [E|[_ Hg]]; [exists w; by rewrite E|]. destruct (tr_gone _ _ _ _ _ Htrue c Hg) as [_ Hno]. by destruct (Hno l L).
  - intros l Hl Hz. by right.
Qed.
(** Nothing changes but what it knows. *)
Lemma settles_same gh' k' : (forall l, about gh <> Doomed l) -> (forall l, about gh' <> Doomed l) -> held gh' = held gh ->
  own gh' = own gh -> typed R gh' k' -> true_of s rv t R gh' -> settles s gh' rv k'.
Proof.
  intros Hn Hn' Hh Ho Hty Htr. rewrite <- (sys_eta s). apply settles_ptrs; try done.
  - intros o l E. by apply (iv_rv _ _ _ Hinv _ _ E).
  - by left.
  - apply (iv_fits _ _ _ Hinv).
  - by rewrite Ho.
  - by rewrite sys_eta.
Qed.
(** One link changes, and with it maybe one reference. *)
Lemma settles_link l L L' rv' gh' k' : heap s !! l = Some L -> refs rv l <> O -> (forall l0, about gh <> Doomed l0) ->
  (forall o, o ∉ owns (running a) -> rv' !! o = rv !! o) ->
  (forall o l0, rv' !! o = Some l0 -> (exists w, ptrs s !! o = Some w /\ get w = l0) /\ is_Some (heap s !! l0)) ->
  refCount_ L' = Z.of_nat (refs rv' l) -> (forall l0, l0 <> l -> refs rv' l0 = refs rv l0) ->
  (container_ L' = container_ L \/ (container_ L' = None /\ mutex_ L = Some t)) ->
  (forall t', mutex_ L' = Some t' -> (t' = t /\ exists o, held gh' = Some (l, o)) \/ (t' <> t /\ mutex_ L = Some t')) ->
  (forall t', t' <> t -> mutex_ L = Some t' -> mutex_ L' = Some t') ->
  (forall l0 o, l0 <> l -> held gh = Some (l0, o) -> held gh' = Some (l0, o)) ->
  (refs rv' l = O -> about gh' = Doomed l) -> (forall l0, about gh' = Doomed l0 -> refs rv l0 <> O) ->
  dom (own gh') = owns (running a) -> typed R gh' k' -> true_of (put_link l L' s) rv' t R gh' ->
  settles (put_link l L' s) gh' rv' k'.
Proof.
  intros HL Hpos Hn Hrv Hval Hcnt Hoth Hcon Hmu Hmu' Hheld Hz Hd Hdm Hty Htr.
  assert (Hcase : forall l0 L0, heap (put_link l L' s) !! l0 = Some L0 -> (l0 = l /\ L0 = L') \/ (l0 <> l /\ heap s !! l0 = Some L0)).
  { intros l0 L0. cbn. destruct (decide (l0 = l)) as [->|Hne]; [rewrite lookup_insert_eq; intros [= <-]; by left|].
    rewrite lookup_insert_ne by done. by right. }
  assert (Hthere : forall l0, is_Some (heap s !! l0) -> is_Some (heap (put_link l L' s) !! l0)).
  { intros l0 Hl0. cbn. destruct (decide (l0 = l)) as [->|Hne]; [rewrite lookup_insert_eq|rewrite lookup_insert_ne by done]; eauto. }
  split; cbn [ptrs threads put_link]; try done.
  - split; cbn [ptrs put_link].
    + intros o Ho. split; [done|by apply Hrv].
    + intros l0 L0 HL0 _. destruct (decide (l0 = l)) as [->|Hne].
      * rewrite HL in HL0. injection HL0 as <-. exists L'. cbn. rewrite lookup_insert_eq. split; [done|].
        intros t' Hne Hm. split; [by apply Hmu'|]. destruct Hcon as [E|[_ E]]; congruence.
      * exists L0. cbn. by rewrite lookup_insert_ne.
    + intros l0 L0 c HL0 HLc. left. destruct (Hcase _ _ HL0) as [[-> ->]|[_ HL1]]; [|by exists L0].
      exists L. split; [done|]. destruct Hcon as [E|[E _]]; congruence.
    + intros l0 _ Hz0. destruct (decide (l0 = l)) as [->|Hne]; [done|by rewrite Hoth].
  - intros o l0 Ho. destruct (Hval o l0 Ho) as [? ?]. split; [done|by apply Hthere].
  - apply (iv_plain _ _ _ Hinv).
  - intros l0 L0 HL0. destruct (Hcase _ _ HL0) as [[-> ->]|[Hne HL1]]; [done|]. rewrite Hoth by done. by apply (iv_count _ _ _ Hinv).
  - intros l0 L0 t' HL0 Hm. destruct (Hcase _ _ HL0) as [[-> ->]|[Hne HL1]].
    + destruct (Hmu t' Hm) as [?|[? ?]]; [by left|right]. eauto.
    + destruct (decide (t' = t)) as [->|Hnt]; [left|right; eauto]. split; [done|].
      destruct (mutex_held l0 L0 HL1 Hm) as [o Ho]. exists o. by apply Hheld.
  - intros l0 L0 c HL0 HLc. destruct (Hcase _ _ HL0) as [[-> ->]|[Hne HL1]]; [|by apply (iv_back _ _ _ Hinv l0 L0)].
    apply (iv_back _ _ _ Hinv l L c HL). destruct Hcon as [E|[E _]]; congruence.
  - intros l0 Hl0 Hz0. destruct (decide (l0 = l)) as [->|Hne]; [left; by apply Hz|right].
    destruct Hl0 as [L0 HL0]. destruct (Hcase _ _ HL0) as [[-> _]|[_ HL1]]; [done|].
    split_and!; [by exists L0|by rewrite <- Hoth|by apply Hn].
  - apply (iv_fits _ _ _ Hinv).
Qed.
Lemma keeps_put l L L' : heap s !! l = Some L -> (container_ L' = container_ L \/ container_ L' = None) ->
  keeps_containers (put_link l L' s).
Proof.
  intros HL Hcon l0 L0 c. cbn. destruct (decide (l0 = l)) as [->|Hne].
  - rewrite lookup_insert_eq. intros [= <-] HLc. left. exists L. split; [done|]. destruct Hcon; congruence.
  - rewrite lookup_insert_ne by done. intros. left. by exists L0.
Qed.
End Step.

(** ** Every access keeps the invariant *)
Section Access.
Context {s : sys} {g : gmap tid ghost} {rv : gmap owner Z} (Hinv : inv_with s g rv).
Context {t : tid} {a : activity} (Ht : threads s !! t = Some a) (addr : Z) (Haddr : allocatable addr s).
Abbreviation R := (kept a).

Record knows (gh : ghost) : Prop := {
  kn_ghost : g !! t = Some gh;
  kn_dom : dom (own gh) = owns (running a);
  kn_true : true_of s rv t R gh
}.
(** The access does not throw, and what it leaves is settled. *)
Definition fine (gh : ghost) (r : effect) : Prop :=
  match r with
  | None => True
  | Some (Throw _) => False
  | Some (Ret (s', k')) => fits s' -> exists gh' rv', settles (s := s) (rv := rv) (t := t) (a := a) (gh := gh) s' gh' rv' k'
  end.
Lemma fine_ptr gh o f w : ptrs s !! o = Some w -> fine gh (f w) -> fine gh (with_ptr o s f).
Proof. unfold with_ptr. by intros ->. Qed.
Lemma fine_link gh o f : knows gh -> readable R (own gh) o ->
  (forall w L, ptrs s !! o = Some w -> heap s !! get w = Some L -> rv !! o = Some (get w) -> fine gh (f (get w) L)) ->
  fine gh (with_link o s f).
Proof.
  intros Hkn Ho Hf. destruct (readable_link Hinv (kn_true _ Hkn) o Ho) as (w & L & Hw & HL & Hc).
  unfold with_link, with_ptr. rewrite Hw, HL. by apply Hf.
Qed.
Lemma own_word gh o b : knows gh -> own gh !! o = Some (Counted b) -> exists w, ptrs s !! o = Some w /\ isLinked w = b /\ rv !! o = Some (get w).
Proof. intros Hkn Ho. apply (tr_own _ _ _ _ _ (kn_true _ Hkn) _ _ Ho). Qed.
(** An access that only reads. *)
Lemma fine_reads G F K h m m' k' : knows (Ghost G F K h m) -> (forall l, m <> Doomed l) -> (forall l, m' <> Doomed l) ->
  about_true s rv h m' -> typed R (Ghost G F K h m') k' -> fine (Ghost G F K h m) (next s k').
Proof.
  intros [Hg Hd Htr] Hm Hm' Hab Hty _. exists (Ghost G F K h m'), rv.
  apply (settles_same Hinv Hg Hd Htr); try done.
  apply (true_of_heap Hinv Htr); try done; [by apply keeps_containers_same|apply (tr_gone _ _ _ _ _ Htr)|apply (tr_held _ _ _ _ _ Htr)].
Qed.

Lemma access_CheckUnlinked G F K h o k : knows (Ghost G F K h Nothing) -> G !! o = Some (Counted false) ->
  typed R (Ghost G F K h Nothing) k -> fine (Ghost G F K h Nothing) (access addr t (CheckUnlinked o) s k).
Proof.
  intros Hkn Ho Hty. destruct (own_word _ o false Hkn Ho) as (w & Hw & Hl & _). apply (fine_ptr _ _ _ w Hw). rewrite Hl.
  by apply (fine_reads _ _ _ _ _ Nothing).
Qed.
Lemma access_IfLinked G F K h b o b' body k : knows (Ghost G F K h Nothing) -> G !! o = Some (Counted b') ->
  typed R (Ghost G F K h Nothing) (if Bool.eqb b' b then body ++ k else k) ->
  fine (Ghost G F K h Nothing) (access addr t (IfLinked b o body) s k).
Proof.
  intros Hkn Ho Hty. destruct (own_word _ o b' Hkn Ho) as (w & Hw & Hl & _). apply (fine_ptr _ _ _ w Hw). rewrite Hl.
  by apply (fine_reads _ _ _ _ _ Nothing).
Qed.
Lemma access_ReadFlag G F K h o k : knows (Ghost G F K h Nothing) -> readable R G o -> typed R (Ghost G F K h Nothing) k ->
  fine (Ghost G F K h Nothing) (access addr t (ReadFlag o) s k).
Proof. intros Hkn Ho Hty. apply fine_link; [done|done|]. intros w L _ _ _. by apply (fine_reads _ _ _ _ _ Nothing). Qed.
Lemma access_Touch_seen G F K h c k : knows (Ghost G F K h (Seen c)) -> typed R (Ghost G F K h Nothing) k ->
  fine (Ghost G F K h (Seen c)) (access addr t (Touch c) s k).
Proof.
  intros Hkn Hty. destruct (tr_about _ _ _ _ _ (kn_true _ Hkn)) as (l & o & L & _ & HL & HLc).
  destruct (iv_back _ _ _ Hinv l L c HL HLc) as (w & Hw & _). apply (fine_ptr _ _ _ w Hw). by apply (fine_reads _ _ _ _ _ Nothing).
Qed.
Lemma access_Touch_kept G F K h c k : knows (Ghost G F K h Nothing) -> readable R G (Container c) ->
  typed R (Ghost G F K h Nothing) k -> fine (Ghost G F K h Nothing) (access addr t (Touch c) s k).
Proof.
  intros Hkn Hc Hty. destruct (readable_counted (kn_true _ Hkn) _ Hc) as (w & Hw & _). apply (fine_ptr _ _ _ w Hw).
  by apply (fine_reads _ _ _ _ _ Nothing).
Qed.
Lemma access_ReadContainer_locked G F K l o k : knows (Ghost G F K (Some (l, o)) Nothing) ->
  typed R (Ghost G F K (Some (l, o)) Nothing) k ->
  fine (Ghost G F K (Some (l, o)) Nothing) (access addr t (ReadContainer o) s k).
Proof.
  intros Hkn Hty. destruct (tr_held _ _ _ _ _ (kn_true _ Hkn) l o eq_refl) as (Hr & Hl & _).
  apply fine_link; [done|done|]. intros w L _ HL Hc. rewrite Hl in Hc. injection Hc as ->. destruct (container_ L) as [c|] eqn:HLc.
  - apply (fine_reads _ _ _ _ _ (Seen c)); try done; [by exists (get w), o, L|by apply ty_touch_seen].
  - by apply (fine_reads _ _ _ _ _ Nothing).
Qed.
Lemma access_ReadContainer_kept G F K h o k : knows (Ghost G F K h Nothing) -> o ∈ F -> readable R G o ->
  typed R (Ghost G F K h Nothing) k -> fine (Ghost G F K h Nothing) (access addr t (ReadContainer o) s k).
Proof.
  intros Hkn HF Hr Hty. apply fine_link; [done|done|]. intros w L Hw HL _. destruct (container_ L) as [c|] eqn:HLc.
  - apply (fine_reads _ _ _ _ _ Nothing); try done. apply ty_touch_kept; [|done]. right.
    by apply (proj2 (tr_safe _ _ _ _ _ (kn_true _ Hkn) _ HF) w L).
  - by apply (fine_reads _ _ _ _ _ Nothing).
Qed.

(** Taking and leaving the mutex, and the end of the back pointer. *)
Lemma fine_lock G F K o body w L k : knows (Ghost G F K None Nothing) -> readable R G o -> heap s !! get w = Some L ->
  rv !! o = Some (get w) -> mutex_ L = None ->
  typed R (Ghost G F K (Some (get w, o)) Nothing) (ReadContainer o :: body ++ Unlock (get w) :: k) ->
  fine (Ghost G F K None Nothing) (locked t o body (get w) L s k).
Proof.
  intros [Hg Hd Htr] Ho HL Hc Hm Hty _. exists (Ghost G F K (Some (get w, o)) Nothing), rv.
  assert (Hk : keeps_containers (s := s) (gh := Ghost G F K None Nothing) (put_link (get w) (set_mutex (Some t) L) s)) by (apply (keeps_put (get w) L); [done|by left]).
  apply (settles_link Hinv Hg (get w) L); try done; cbn.
  - by apply (refs_positive rv o).
  - apply (iv_rv _ _ _ Hinv).
  - by apply (iv_count _ _ _ Hinv).
  - by left.
  - intros t' [= <-]. left. eauto.
  - congruence.
  - intros Hz. by destruct (refs_positive rv o (get w)).
  - apply (true_of_heap Hinv Htr); try done.
    + intros c Hcg. by apply (gone_shrinks Htr).
    + intros l o' [= <- <-]. split_and!; [done|done|]. exists (set_mutex (Some t) L). cbn. by rewrite lookup_insert_eq.
Qed.
Lemma access_Lock G F K o body k : knows (Ghost G F K None Nothing) -> readable R G o ->
  (forall l, typed R (Ghost G F K (Some (l, o)) Nothing) (ReadContainer o :: body ++ Unlock l :: k)) ->
  fine (Ghost G F K None Nothing) (access addr t (Lock o body) s k).
Proof.
  intros Hkn Ho Hty. apply fine_link; [done|done|]. intros w L _ HL Hc. destruct (mutex_ L) eqn:Hm; [done|]. by apply fine_lock.
Qed.
Lemma access_TryLock G F K o body deferred k : knows (Ghost G F K None Nothing) -> readable R G o ->
  (forall l, typed R (Ghost G F K (Some (l, o)) Nothing) (ReadContainer o :: body ++ Unlock l :: k)) ->
  typed R (Ghost G F K None Nothing) (deferred ++ k) ->
  fine (Ghost G F K None Nothing) (access addr t (TryLock o body deferred) s k).
Proof.
  intros Hkn Ho Hty Hdef. apply fine_link; [done|done|]. intros w L _ HL Hc. destruct (mutex_ L) eqn:Hm; [|by apply fine_lock].
  by apply (fine_reads _ _ _ _ _ Nothing).
Qed.
Lemma access_Unlock G F K l o k : knows (Ghost G F K (Some (l, o)) Nothing) -> typed R (Ghost G F K None Nothing) k ->
  fine (Ghost G F K (Some (l, o)) Nothing) (access addr t (Unlock l) s k).
Proof.
  intros [Hg Hd Htr] Hty. destruct (tr_held _ _ _ _ _ Htr l o eq_refl) as (Ho & Hl & L & HL & Hm). cbn.
  rewrite HL, bool_decide_true by done. intros _. exists (Ghost G F K None Nothing), rv.
  assert (Hk : keeps_containers (s := s) (gh := Ghost G F K (Some (l, o)) Nothing) (put_link l (set_mutex None L) s)) by (apply (keeps_put l L); [done|by left]).
  apply (settles_link Hinv Hg l L); try done; cbn.
  - by apply (refs_positive rv o).
  - apply (iv_rv _ _ _ Hinv).
  - by apply (iv_count _ _ _ Hinv).
  - by left.
  - congruence.
  - congruence.
  - intros Hz. by destruct (refs_positive rv o l).
  - apply (true_of_heap Hinv Htr); try done. intros c Hcg. by apply (gone_shrinks Htr).
Qed.
Lemma access_ClearContainer G F K l c b k : knows (Ghost G F K (Some (l, Container c)) Nothing) -> G !! Container c = Some (Counted b) ->
  typed R (Ghost G F ({[ c ]} ∪ K) (Some (l, Container c)) Nothing) k ->
  fine (Ghost G F K (Some (l, Container c)) Nothing) (access addr t (ClearContainer (Container c)) s k).
Proof.
  intros Hkn Hc Hty. pose proof Hkn as [Hg Hd Htr]. apply fine_link; [done|by eapply readable_own|].
  intros w L Hw HL Hrc _. destruct (tr_held _ _ _ _ _ Htr _ _ eq_refl) as (_ & Hl & L0 & HL0 & Hm). rewrite Hl in Hrc. injection Hrc as ->.
  rewrite HL in HL0. injection HL0 as <-. exists (Ghost G F ({[ c ]} ∪ K) (Some (get w, Container c)) Nothing), rv.
  assert (Hk : keeps_containers (s := s) (gh := Ghost G F K (Some (get w, Container c)) Nothing) (put_link (get w) (set_container None L) s)) by (apply (keeps_put (get w) L); [done|by right]).
  apply (settles_link Hinv Hg (get w) L); try done; cbn.
  - by apply (refs_positive rv (Container c)).
  - apply (iv_rv _ _ _ Hinv).
  - by apply (iv_count _ _ _ Hinv).
  - by right.
  - intros t' Hm'. left. split; [congruence|]. by exists (Container c).
  - intros Hz. by destruct (refs_positive rv (Container c) (get w)).
  - apply (true_of_heap Hinv Htr); try done; cbn.
    + intros c' [->%elem_of_singleton|Hcg]%elem_of_union; [|by apply (gone_shrinks Htr _ c' Hk)].
      split; [by exists (Counted b)|]. intros l1 L1. destruct (decide (l1 = get w)) as [->|Hne].
      * rewrite lookup_insert_eq. by intros [= <-].
      * rewrite lookup_insert_ne by done. intros HL1 HLc. destruct (iv_back _ _ _ Hinv l1 L1 c HL1 HLc) as (w1 & Hw1 & <-). congruence.
    + intros l1 o1 [= <- <-]. split_and!; [by eapply readable_own|done|]. exists (set_container None L). by rewrite lookup_insert_eq.
Qed.

(** Writing a pointer word. *)
Lemma not_source G F K h m x p : knows (Ghost G F K h m) -> G !! x = Some p -> (forall b, p <> Counted b) ->
  forall y, G !! y <> Some (Stored x).
Proof.
  intros [_ _ Htr] Hx Hp y Hy. destruct (tr_own _ _ _ _ _ Htr _ _ Hy) as (_ & [[b Hb]|Hk] & _); [by cbn in Hb; simplify_eq; destruct (Hp b)|].
  destruct (tr_kept _ _ _ _ _ Htr _ Hk) as [E _]. cbn in E. congruence.
Qed.
Lemma access_SetLinked G F K h b x b' k : knows (Ghost G F K h Nothing) -> G !! Stat x = Some (Counted b') ->
  typed R (Ghost (<[Stat x := Counted b]> G) F K h Nothing) k ->
  fine (Ghost G F K h Nothing) (access addr t (SetLinked b (Stat x)) s k).
Proof.
  intros Hkn Hx Hty. pose proof Hkn as [Hg Hd Htr]. destruct (own_word _ _ _ Hkn Hx) as (w & Hw & _ & Hc).
  apply (fine_ptr _ _ _ w Hw). intros Hf. exists (Ghost (<[Stat x := Counted b]> G) F K h Nothing), rv.
  assert (Hone : forall o, o <> Stat x -> <[Stat x := setLinked b w]> (ptrs s) !! o = ptrs s !! o) by (intros; by apply lookup_insert_ne).
  apply (settles_ptrs Hinv Hg Htr); try done.
  - intros o Ho. apply Hone. intros ->. by apply Ho, (own_dom Hd _ _ Hx).
  - intros o l Ho. destruct (decide (o = Stat x)) as [->|Hne].
    + exists (setLinked b w). rewrite lookup_insert_eq. split; [done|]. autorewrite with word. congruence.
    + rewrite Hone by done. by apply (iv_rv _ _ _ Hinv).
  - intros c. left. by apply Hone.
  - by apply (own_insert_dom Hd _ _ _ Hx).
  - apply (true_of_change Hinv Htr _ _ (Stat x)); try done; cbn [own safe gone held ptrs].
    + split; [by apply Hone|done].
    + by apply keeps_containers_same.
    + intros y Hy. eauto.
    + exists (setLinked b w). cbn [ptrs]. rewrite lookup_insert_eq. by autorewrite with word.
    + intros HF. split; [left; apply (readable_own _ _ _ b); by rewrite lookup_insert_eq|].
      intros w0 L c. rewrite lookup_insert_eq. intros [= <-]. autorewrite with word. by apply (proj2 (tr_safe _ _ _ _ _ Htr _ HF)).
    + intros l o Hh. split_and!; [done|by eauto|]. by apply (tr_held _ _ _ _ _ Htr l o).
Qed.
Lemma access_CopyFrom G F K x o p k : knows (Ghost G F K None Nothing) -> G !! Stat x = Some p -> (p = Absent \/ p = Released) ->
  readable R G o -> typed R (Ghost (<[Stat x := Stored o]> G) (copied (Stat x) o F) K None Nothing) k ->
  fine (Ghost G F K None Nothing) (access addr t (CopyFrom (Stat x) o) s k).
Proof.
  intros Hkn Hx Hp Ho Hty. pose proof Hkn as [Hg Hd Htr]. destruct (readable_counted Htr o Ho) as (w & Hw & Hc).
  apply (fine_ptr _ _ _ w Hw). intros Hf. exists (Ghost (<[Stat x := Stored o]> G) (copied (Stat x) o F) K None Nothing), rv.
  assert (Hone : forall z, z <> Stat x -> <[Stat x := get w]> (ptrs s) !! z = ptrs s !! z) by (intros; by apply lookup_insert_ne).
  assert (Hcx : rv !! Stat x = None) by (pose proof (tr_own _ _ _ _ _ Htr _ _ Hx) as Hm; destruct Hp as [->| ->]; by apply Hm).
  assert (Hox : o <> Stat x) by (intros ->; congruence).
  apply (settles_ptrs Hinv Hg Htr); try done.
  - intros z Hz. apply Hone. intros ->. by apply Hz, (own_dom Hd _ _ Hx).
  - intros z l Hz. rewrite Hone by congruence. by apply (iv_rv _ _ _ Hinv).
  - intros c. left. by apply Hone.
  - by apply (own_insert_dom Hd _ _ _ Hx).
  - apply (true_of_change Hinv Htr _ _ (Stat x)); try done; cbn [own safe gone held ptrs].
    + split; [by apply Hone|done].
    + by apply keeps_containers_same.
    + intros y Hy. destruct (not_source _ _ _ _ _ _ _ Hkn Hx) with y; [|done]. by destruct Hp as [->| ->].
    + split_and!; [done|by apply (readable_insert (gh := Ghost G F K None Nothing))|]. exists (get w). cbn [ptrs]. rewrite lookup_insert_eq. by autorewrite with word.
    + unfold copied. intros z Hz Hne. case_bool_decide; set_solver.
    + unfold copied. intros HF. assert (HoF : o ∈ F) by (case_bool_decide; set_solver). split; [right; by exists o|].
      intros w0 L c. rewrite lookup_insert_eq. intros [= <-]. autorewrite with word. by apply (proj2 (tr_safe _ _ _ _ _ Htr _ HoF)).
Qed.
Lemma access_EndPtr G F K o k : knows (Ghost G F K None Nothing) -> G !! o = Some Released -> (forall c, o = Container c -> c ∈ K) ->
  typed R (Ghost (<[o := Absent]> G) F K None Nothing) k ->
  fine (Ghost G F K None Nothing) (access addr t (EndPtr o) s k).
Proof.
  intros Hkn Ho HK Hty. pose proof Hkn as [Hg Hd Htr]. destruct (tr_own _ _ _ _ _ Htr _ _ Ho) as (Hc & w & Hw & _).
  apply (fine_ptr _ _ _ w Hw). intros Hf. exists (Ghost (<[o := Absent]> G) F K None Nothing), rv.
  assert (Hone : forall z, z <> o -> delete o (ptrs s) !! z = ptrs s !! z) by (intros; by apply lookup_delete_ne).
  apply (settles_ptrs Hinv Hg Htr); try done.
  - intros z Hz. apply Hone. intros ->. by apply Hz, (own_dom Hd _ _ Ho).
  - intros z l Hz. rewrite Hone by congruence. by apply (iv_rv _ _ _ Hinv).
  - intros c. destruct (decide (Container c = o)) as [E|Hne]; [right|left; by apply Hone].
    rewrite E, lookup_delete_eq. split; [done|by apply HK].
  - by apply (own_insert_dom Hd _ _ _ Ho).
  - apply (true_of_change Hinv Htr _ _ o); try done; cbn [own safe gone held ptrs].
    + split; [by apply Hone|done].
    + by apply keeps_containers_same.
    + intros y Hy. by destruct (not_source _ _ _ _ _ _ _ Hkn Ho) with y.
    + split; cbn [ptrs]; [by rewrite lookup_delete_eq|done].
    + intros HF. exfalso. destruct (tr_safe _ _ _ _ _ Htr o HF) as [[Hr|[src Hs]] _]; [|cbn in Hs; congruence].
      destruct (readable_counted Htr o Hr) as (w1 & _ & Hc1). congruence.
Qed.

(** Counting. *)
Lemma refs_fit rv' l : (forall o l0, rv' !! o = Some l0 -> exists w, ptrs s !! o = Some w /\ get w = l0) -> Z.of_nat (refs rv' l) < 2 ^ 64.
Proof.
  intros Hv. pose proof (iv_fits _ _ _ Hinv) as Hf. unfold fits in Hf.
  assert (refs rv' l <= size (ptrs s))%nat; [|lia]. apply refs_bound. intros o [l0 Hl0]%elem_of_dom.
  destruct (Hv o l0 Hl0) as (w & Hw & _). by apply elem_of_dom_2 in Hw.
Qed.
Lemma access_IncRef G F K x o k : knows (Ghost G F K None Nothing) -> G !! x = Some (Stored o) ->
  typed R (Ghost (<[x := Counted false]> G) F K None Nothing) k ->
  fine (Ghost G F K None Nothing) (access addr t (IncRef x) s k).
Proof.
  intros Hkn Hx Hty. pose proof Hkn as [Hg Hd Htr]. destruct (tr_own _ _ _ _ _ Htr _ _ Hx) as (Hcx & Ho & w & Hw & Hlk & Hc).
  destruct (iv_rv _ _ _ Hinv _ _ Hc) as [_ [L HL]]. cbn. unfold with_link, with_ptr. rewrite Hw, HL. intros _.
  exists (Ghost (<[x := Counted false]> G) F K None Nothing), (<[x := get w]> rv).
  set (L' := set_refCount _ L).
  assert (Hk : keeps_containers (s := s) (gh := Ghost G F K None Nothing) (put_link (get w) L' s)) by (apply (keeps_put (get w) L); [done|by left]).
  assert (Hone : forall z, z <> x -> <[x := get w]> rv !! z = rv !! z) by (intros; by apply lookup_insert_ne).
  assert (Hval : forall z l0, <[x := get w]> rv !! z = Some l0 -> (exists w0, ptrs s !! z = Some w0 /\ get w0 = l0) /\ is_Some (heap s !! l0)).
  { intros z l0. destruct (decide (z = x)) as [->|Hne]; [rewrite lookup_insert_eq; intros [= <-]; eauto|].
    rewrite Hone by done. apply (iv_rv _ _ _ Hinv). }
  assert (Href : refs (<[x := get w]> rv) (get w) = S (refs rv (get w))) by (rewrite refs_insert, bool_decide_true by done; lia).
  apply (settles_link Hinv Hg (get w) L); try done; cbn [own held about].
  - by apply (refs_positive rv o).
  - intros z Hz. apply Hone. intros ->. by apply Hz, (own_dom Hd _ _ Hx).
  - subst L'. cbn. rewrite (iv_count _ _ _ Hinv _ _ HL), wrapu_small; [lia|].
    pose proof (refs_fit (<[x := get w]> rv) (get w) (fun z l0 Hz => proj1 (Hval z l0 Hz))). unfold in_u. lia.
  - intros l0 Hne. by rewrite refs_insert, bool_decide_false by done.
  - by left.
  - intros t' Hm. right. split; [|done]. intros ->. by destruct (mutex_held Hinv Hg _ _ HL Hm).
  - rewrite Href. lia.
  - by apply (own_insert_dom Hd _ _ _ Hx).
  - apply (true_of_change Hinv Htr _ _ x); try done; cbn [own safe gone held ptrs].
    + split; [done|by apply Hone].
    + intros y Hy. by destruct (not_source _ _ _ _ _ _ _ Hkn Hx) with y.
    + exists w. cbn [ptrs put_link]. by rewrite lookup_insert_eq.
    + intros HF. split; [left; apply (readable_own _ _ _ false); by rewrite lookup_insert_eq|].
      intros w0 L0 c. by apply (safe_shrinks Hinv Htr).
Qed.
Lemma access_DecRef G F K o k : knows (Ghost G F K None Nothing) -> G !! o = Some (Counted false) ->
  (forall x, G !! x <> Some (Stored o)) -> typed R (Ghost (<[o := Released]> G) (F ∖ {[ o ]}) K None Nothing) k ->
  fine (Ghost G F K None Nothing) (access addr t (DecRef o) s k).
Proof.
  intros Hkn Ho Hsrc Hty. pose proof Hkn as [Hg Hd Htr]. destruct (own_word _ _ _ Hkn Ho) as (w & Hw & Hlk & Hc).
  destruct (iv_rv _ _ _ Hinv _ _ Hc) as [_ [L HL]]. cbn. unfold with_link, with_ptr. rewrite Hw, HL.
  pose proof (refs_delete rv o (get w) (get w) Hc) as Href. rewrite bool_decide_true in Href by done.
  pose proof (iv_count _ _ _ Hinv _ _ HL) as Hcnt. pose proof (refs_fit rv (get w) (fun z l0 Hz => proj1 (iv_rv _ _ _ Hinv z l0 Hz))) as Hb.
  destruct (refCount_ L <=? 0) eqn:E0; [lia|]. intros _.
  set (L' := set_refCount _ L). set (m := if refCount_ L =? 1 then Doomed (get w) else Nothing).
  exists (Ghost (<[o := Released]> G) (F ∖ {[ o ]}) K None m), (delete o rv).
  assert (Hk : keeps_containers (s := s) (gh := Ghost G F K None Nothing) (put_link (get w) L' s)) by (apply (keeps_put (get w) L); [done|by left]).
  assert (Hone : forall z, z <> o -> delete o rv !! z = rv !! z) by (intros; by apply lookup_delete_ne).
  assert (Hdoom : forall l0, m = Doomed l0 -> l0 = get w /\ refs (delete o rv) (get w) = O).
  { subst m. intros l0. destruct (Z.eqb_spec (refCount_ L) 1) as [E1|]; intros [= <-]. split; [done|lia]. }
  apply (settles_link Hinv Hg (get w) L); try done; cbn [own held about].
  - by apply (refs_positive rv o).
  - intros z Hz. apply Hone. intros ->. by apply Hz, (own_dom Hd _ _ Ho).
  - intros z l0 [_ Hz]%lookup_delete_Some. by apply (iv_rv _ _ _ Hinv).
  - subst L'. cbn. rewrite wrapu_small; [lia|unfold in_u; lia].
  - intros l0 Hne. by rewrite (refs_delete rv o (get w) l0 Hc), bool_decide_false by done.
  - by left.
  - intros t' Hm. right. split; [|done]. intros ->. by destruct (mutex_held Hinv Hg _ _ HL Hm).
  - intros Hz. subst m. by rewrite (proj2 (Z.eqb_eq _ _)) by lia.
  - intros l0 Hl0. destruct (Hdoom l0 Hl0) as [-> _]. lia.
  - by apply (own_insert_dom Hd _ _ _ Ho).
  - subst m. destruct (refCount_ L =? 1); [by apply ty_delete|done].
  - apply (true_of_change Hinv Htr _ _ o); try done; cbn [own safe gone held ptrs].
    + split; [done|by apply Hone].
    + intros y Hy. by destruct (Hsrc y).
    + split; [apply lookup_delete_eq|]. exists w. done.
    + set_solver.
    + set_solver.
    + unfold about_true. subst m. destruct (Z.eqb_spec (refCount_ L) 1); [|done]. split; [|lia].
      exists L'. cbn. by rewrite lookup_insert_eq.
Qed.

(** The end of a link. *)
Lemma unreferenced_unlocked l L : heap s !! l = Some L -> refs rv l = O -> mutex_ L = None.
Proof.
  intros HL Hz. destruct (mutex_ L) as [t'|] eqn:Hm; [|done]. exfalso.
  destruct (iv_mutex _ _ _ Hinv _ _ _ HL Hm) as (gh1 & o & Hg1 & Hh).
  destruct (threads s !! t') as [a'|] eqn:Ha'; [|by rewrite (iv_idle _ _ _ Hinv t' Ha') in Hg1].
  destruct (iv_thread _ _ _ Hinv t' a' Ha') as (gh2 & Hg2 & _ & _ & Htr2). rewrite Hg1 in Hg2. injection Hg2 as <-.
  destruct (tr_held _ _ _ _ _ Htr2 l o Hh) as (_ & Hl & _). by apply (refs_zero rv l Hz o).
Qed.
Lemma access_Delete G F K l k : knows (Ghost G F K None (Doomed l)) -> typed R (Ghost G F K None Nothing) k ->
  fine (Ghost G F K None (Doomed l)) (access addr t (Delete l) s k).
Proof.
  intros [Hg Hd Htr] Hty. destruct (tr_about _ _ _ _ _ Htr) as [[L HL] Hz]. cbn. rewrite HL, (unreferenced_unlocked l L HL Hz).
  intros Hf. exists (Ghost G F K None Nothing), rv.
  assert (Hother : forall l0 L0, heap (free_link l s) !! l0 = Some L0 -> l0 <> l /\ heap s !! l0 = Some L0).
  { intros l0 L0. cbn. intros [? ?]%lookup_delete_Some. by split. }
  assert (Hk : keeps_containers (s := s) (gh := Ghost G F K None (Doomed l)) (free_link l s)).
  { intros l0 L0 c [_ H0]%Hother Hc. left. by exists L0. }
  split; try done; cbn [own held about].
  - apply (true_of_heap Hinv Htr); try done. intros c Hcg. by apply (gone_shrinks Htr _ c Hk).
  - split; cbn [ptrs about]; try done.
    + intros l0 L0 HL0 Hne. exists L0. cbn. rewrite lookup_delete_ne; [done|]. intros <-. by destruct Hne.
    + intros l0 L0 c HL0 Hc. left. exists L0. by destruct (Hother _ _ HL0).
  - intros o l0 Ho. destruct (iv_rv _ _ _ Hinv _ _ Ho) as [? ?]. split; [done|]. cbn. rewrite lookup_delete_ne; [done|].
    intros <-. by apply (refs_zero rv l Hz o).
  - apply (iv_plain _ _ _ Hinv).
  - intros l0 L0 [_ HL0]%Hother. by apply (iv_count _ _ _ Hinv).
  - intros l0 L0 t' [_ HL0]%Hother Hm. right. split; [|by eauto]. intros ->. by destruct (mutex_held Hinv Hg _ _ HL0 Hm).
  - intros l0 L0 c [_ HL0]%Hother. by apply (iv_back _ _ _ Hinv).
  - intros l0 [L0 HL0] Hz0. destruct (Hother _ _ HL0) as [Hne H0]. right. split_and!; [by exists L0|done|congruence].
Qed.
(** The start of a link. *)
Lemma access_NewLink G F K c u k : knows (Ghost G F K None Nothing) -> G !! Container c = Some Absent -> c ∉ K ->
  typed R (Ghost (<[Container c := Counted false]> G) F K None Nothing) k ->
  fine (Ghost G F K None Nothing) (access addr t (NewLink c u) s k).
Proof.
  intros Hkn Hc HK Hty. pose proof Hkn as [Hg Hd Htr]. destruct (tr_own _ _ _ _ _ Htr _ _ Hc) as [Hno Hcx].
  destruct Haddr as (Hnew & Hrange & Heven). assert (Hget : get addr = addr) by (apply get_even; [lia|done]).
  cbn. intros Hf. set (s' := put_ptr (Container c) addr _).
  exists (Ghost (<[Container c := Counted false]> G) F K None Nothing), (<[Container c := addr]> rv).
  assert (Hfresh : refs rv addr = O).
  { destruct (refs rv addr) as [|n] eqn:E; [done|]. assert (Hne : filter (fun p => p.2 = addr) rv <> ∅).
    - intros E0. unfold refs in E. by rewrite E0, map_size_empty in E.
    - apply map_choose in Hne as (o & l & [Ho Hl]%map_lookup_filter_Some). cbn in Hl. subst l.
      destruct (iv_rv _ _ _ Hinv _ _ Ho) as [_ [? ?]]. congruence. }
  assert (Hcase : forall l L, heap s' !! l = Some L -> (l = addr /\ L = Link u None (Some c) 1) \/ (l <> addr /\ heap s !! l = Some L)).
  { intros l L. cbn. destruct (decide (l = addr)) as [->|Hne]; [rewrite lookup_insert_eq; intros [= <-]; by left|].
    rewrite lookup_insert_ne by done. by right. }
  assert (Hold : forall l L, heap s !! l = Some L -> heap s' !! l = Some L) by (intros l L HL; cbn; rewrite lookup_insert_ne; [done|congruence]).
  assert (Hk : keeps_containers (s := s) (gh := Ghost G F K None Nothing) s').
  { intros l L c0 HL HLc. destruct (Hcase _ _ HL) as [[-> ->]|[_ H0]]; [right; split; [done|by injection HLc as <-]|left; by exists L]. }
  assert (Hone : forall z, z <> Container c -> ptrs s' !! z = ptrs s !! z /\ <[Container c := addr]> rv !! z = rv !! z).
  { intros z Hne. cbn. by rewrite !lookup_insert_ne by done. }
  split; try done; cbn [own held about].
  - by apply (own_insert_dom Hd _ _ _ Hc).
  - apply (true_of_change Hinv Htr _ _ (Container c)); try done; cbn [own safe gone held].
    + intros y Hy. by destruct (not_source _ _ _ _ _ _ _ Hkn Hc) with y.
    + exists addr. cbn. rewrite !lookup_insert_eq, Hget. unfold isLinked. change kLinked with (Z.ones 1).
      rewrite Z.land_ones by lia. change (2 ^ 1) with 2. by rewrite Zmod_even, Heven.
    + intros HF. exfalso. destruct (tr_safe _ _ _ _ _ Htr _ HF) as [[Hr|[src Hs]] _]; [|cbn in Hs; congruence].
      destruct (readable_counted Htr _ Hr) as (w1 & _ & Hc1). congruence.
  - split.
    + intros o Ho. apply Hone. intros ->. by apply Ho, (own_dom Hd _ _ Hc).
    + intros l L HL _. exists L. split; [by apply Hold|done].
    + intros l L c0 HL HLc. destruct (Hcase _ _ HL) as [[-> ->]|[_ H0]]; [right|left; by exists L].
      split; [done|]. injection HLc as <-. apply (own_dom Hd _ _ Hc).
    + intros l [L HL] Hz. rewrite refs_insert, bool_decide_false by (done || congruence). done.
  - intros o l. destruct (decide (o = Container c)) as [->|Hne].
    + rewrite lookup_insert_eq. intros [= <-]. cbn. rewrite !lookup_insert_eq. eauto.
    + destruct (Hone o Hne) as [-> ->]. intros Ho. destruct (iv_rv _ _ _ Hinv _ _ Ho) as [? [L HL]]. eauto.
  - intros c0 w. destruct (decide (Container c0 = Container c)) as [->|Hne]; [|destruct (Hone _ Hne) as [-> _]; apply (iv_plain _ _ _ Hinv)].
    cbn. rewrite lookup_insert_eq. intros [= <-]. rewrite <- Hget. apply isLinked_get.
  - intros l L HL. destruct (Hcase _ _ HL) as [[-> ->]|[Hne H0]]; rewrite refs_insert by done.
    + by rewrite bool_decide_true, Hfresh by done.
    + rewrite bool_decide_false by done. by apply (iv_count _ _ _ Hinv).
  - intros l L t' HL Hm. destruct (Hcase _ _ HL) as [[-> ->]|[Hne H0]]; [done|].
    right. split; [|by eauto]. intros ->. by destruct (mutex_held Hinv Hg _ _ H0 Hm).
  - intros l L c0 HL HLc. destruct (Hcase _ _ HL) as [[-> ->]|[Hne H0]].
    + injection HLc as <-. exists addr. cbn. by rewrite lookup_insert_eq.
    + destruct (iv_back _ _ _ Hinv l L c0 H0 HLc) as (w & Hw & Hl). exists w. destruct (Hone (Container c0)) as [-> _]; [congruence|done].
  - intros l [L HL] Hz. destruct (Hcase _ _ HL) as [[-> ->]|[Hne H0]]; rewrite refs_insert in Hz by done.
    + by rewrite bool_decide_true in Hz.
    + rewrite bool_decide_false in Hz by done. right. split_and!; [by exists L|done|done].
Qed.
End Access.

Lemma access_fine s g rv t a gh addr i k : inv_with s g rv -> allocatable addr s -> threads s !! t = Some a ->
  knows (s := s) (g := g) (rv := rv) (t := t) (a := a) gh -> typed (kept a) gh (i :: k) ->
  fine (s := s) (rv := rv) (t := t) (a := a) gh (access addr t i s k).
Proof.
  intros Hinv Ha Ht Hkn Hty. inversion Hty; subst.
  - by apply (access_NewLink Hinv addr Ha).
  - by eapply (access_CopyFrom Hinv).
  - by eapply (access_IncRef Hinv).
  - by apply (access_CheckUnlinked Hinv).
  - by apply (access_DecRef Hinv).
  - by apply (access_Delete Hinv).
  - by apply (access_EndPtr Hinv).
  - by eapply (access_IfLinked Hinv).
  - by apply (access_ReadFlag Hinv).
  - by apply (access_Lock Hinv).
  - by apply (access_TryLock Hinv).
  - by eapply (access_Unlock Hinv).
  - by apply (access_ReadContainer_locked Hinv).
  - by apply (access_ReadContainer_kept Hinv).
  - by apply (access_Touch_seen Hinv).
  - by apply (access_Touch_kept Hinv).
  - by eapply (access_ClearContainer Hinv).
  - by eapply (access_SetLinked Hinv).
Qed.

(** A call returns: what it owned is nobody's, and counted or gone. *)
Lemma link_inv_return s g rv t a : inv_with s g rv -> threads s !! t = Some a -> code a = [] ->
  inv_with (Sys (heap s) (ptrs s) (delete t (threads s))) (delete t g) rv.
Proof.
  intros Hinv Ht Hcode. destruct (iv_thread _ _ _ Hinv t a Ht) as (gh & Hg & Hd & Hty & Htr). rewrite Hcode in Hty.
  inversion Hty as [G F K Hset E| | | | | | | | | | | | | | | | | |]; subst gh.
  assert (Hlive : forall t' gh', g !! t' = Some gh' -> held gh' <> None \/ about gh' <> Nothing -> delete t g !! t' = Some gh').
  { intros t' gh' Hg' Hor. rewrite lookup_delete_ne; [done|]. intros <-. rewrite Hg in Hg'. injection Hg' as <-. by destruct Hor. }
  split; cbn [heap ptrs threads].
  - intros t' a' [Hne Ha']%lookup_delete_Some. destruct (iv_thread _ _ _ Hinv t' a' Ha') as (gh' & Hg' & Hd' & Hty' & Htr').
    exists gh'. rewrite lookup_delete_ne by done. split_and!; try done. by destruct Htr'; split.
  - intros t'. destruct (decide (t = t')) as [<-|Hne]; [by rewrite !lookup_delete_eq|].
    rewrite !lookup_delete_ne by done. apply (iv_idle _ _ _ Hinv).
  - intros t1 t2 a1 a2 Hne [_ H1]%lookup_delete_Some [_ H2]%lookup_delete_Some. by apply (iv_apart _ _ _ Hinv t1 t2).
  - apply (iv_rv _ _ _ Hinv).
  - intros o w Hw Hfree. destruct (decide (o ∈ owns (running a))) as [Ho|Ho].
    + rewrite <- Hd in Ho. apply elem_of_dom in Ho as [p Hp]. pose proof (tr_own _ _ _ _ _ Htr _ _ Hp) as Hm. specialize (Hset _ _ Hp).
      destruct p; cbn in Hm; try done; [by destruct Hm; congruence|]. destruct Hm as (w0 & Hw0 & _ & Hc). congruence.
    + apply (iv_free _ _ _ Hinv o w Hw). intros t' a' Ha'. destruct (decide (t = t')) as [<-|Hne]; [congruence|].
      apply (Hfree t'). by rewrite lookup_delete_ne.
  - apply (iv_plain _ _ _ Hinv).
  - apply (iv_count _ _ _ Hinv).
  - intros l L t' HL Hm. destruct (iv_mutex _ _ _ Hinv l L t' HL Hm) as (gh' & o & Hg' & Hh). exists gh', o.
    split; [|done]. apply Hlive; [done|]. left. congruence.
  - apply (iv_back _ _ _ Hinv).
  - intros l Hl Hz. destruct (iv_dead _ _ _ Hinv l Hl Hz) as (t' & gh' & Hg' & Hab). exists t', gh'.
    split; [|done]. apply Hlive; [done|]. right. congruence.
  - intros l t1 t2 gh1 gh2 [_ H1]%lookup_delete_Some [_ H2]%lookup_delete_Some. by apply (iv_once _ _ _ Hinv l t1 t2).
  - apply (iv_fits _ _ _ Hinv).
Qed.
Lemma link_inv_step s addr t : inv s -> allocatable addr s ->
  match step addr t s with Some (Ret s') => fits s' -> inv s' | Some (Throw _) => False | None => True end.
Proof.
  intros (g & rv & Hinv) Ha. unfold step. destruct (threads s !! t) as [a|] eqn:Ht; [|done].
  destruct (iv_thread _ _ _ Hinv t a Ht) as (gh & Hg & Hd & Hty & Htr). destruct (code a) as [|i k] eqn:Hcode.
  - intros _. exists (delete t g), rv. by apply (link_inv_return s g rv t a).
  - pose proof (access_fine s g rv t a gh addr i k Hinv Ha Ht (Build_knows gh Hg Hd Htr) Hty) as Hf.
    destruct (access addr t i s k) as [[[s' k']|e]|]; cbn in Hf; try done.
    intros Hfit. destruct (Hf Hfit) as (gh' & rv' & Hse). exists (<[t := gh']> g), rv'. by apply (inv_settles Hinv Ht Hg).
Qed.

(** ** A call begins *)
Definition knows_first (s : sys) (o : owner) : known := match ptrs s !! o with None => Absent | Some w => Counted (isLinked w) end.
Definition first_own (s : sys) (k : call) : gmap owner known := set_to_map (fun o => (o, knows_first s o)) (owns k).
Lemma first_own_lookup s k o p : first_own s k !! o = Some p <-> o ∈ owns k /\ p = knows_first s o.
Proof.
  unfold first_own. rewrite lookup_set_to_map by (cbn; by intros). split.
  - intros (y & Hy & E). injection E as -> <-. done.
  - intros [Ho ->]. by exists o.
Qed.
Lemma first_own_dom s k : dom (first_own s k) = owns k.
Proof.
  apply set_eq. intros o. rewrite elem_of_dom. split.
  - intros [p Hp]. by apply first_own_lookup in Hp as [? _].
  - intros Ho. exists (knows_first s o). by apply first_own_lookup.
Qed.
Lemma container_of_spec o s c : Container c ∈ container_of o s <->
  exists w L, ptrs s !! o = Some w /\ heap s !! get w = Some L /\ container_ L = Some c.
Proof.
  unfold container_of. destruct (ptrs s !! o) as [w|] eqn:Hw; [|split; [set_solver|intros (? & ? & ? & _); congruence]].
  destruct (heap s !! get w) as [[u m [c'|] n]|] eqn:HL; cbn.
  - split; [intros [= ->]%elem_of_singleton; eauto 10|]. intros (w0 & L0 & [= <-] & H0 & E). rewrite HL in H0. injection H0 as <-.
    cbn in E. injection E as ->. set_solver.
  - split; [set_solver|]. intros (w0 & L0 & [= <-] & H0 & E). rewrite HL in H0. by injection H0 as <-.
  - split; [set_solver|]. intros (w0 & L0 & [= <-] & H0 & E). congruence.
Qed.
Lemma container_of_container o s o' : o' ∈ container_of o s -> exists c, o' = Container c.
Proof. unfold container_of. destruct (ptrs s !! o) as [w|]; [|set_solver]. destruct (heap s !! get w) as [[u m [c'|] n]|]; set_solver. Qed.
(** A call owns none of what it uses, nor a container it registers with. *)
Lemma uses_not_owned k o : o ∈ uses k -> o ∉ owns k.
Proof. destruct k; unfold uses, owns, makes, changes; set_solver. Qed.
Lemma container_not_owned k o c : registers_with k = Some o -> Container c ∉ owns k.
Proof. destruct k; try done; intros _; unfold owns, makes, changes; set_solver. Qed.
Lemma registers_with_cases k o : registers_with k = Some o -> o ∈ uses k \/ o ∈ changes k.
Proof. destruct k; try done; intros [= <-]; unfold uses, changes; set_solver. Qed.
(** What its caller must respect, by sets. *)
Lemma allowed_parts keep t k s : allowed keep t k s ->
  threads s !! t = None /\ (forall o, o ∈ makes k -> ptrs s !! o = None) /\
  (forall o, o ∈ changes k -> is_Some (ptrs s !! o)) /\ (forall o, o ∈ uses k -> is_Some (ptrs s !! o)) /\
  (forall t' a, threads s !! t' = Some a -> apart k (relies_on keep k s) a).
Proof.
  intros (H1 & H2 & H3 & H4). split_and!; try done; intros o Ho; apply H3; apply elem_of_union; auto.
Qed.
(** What a call relies on is there, and it owns none of it. *)
Lemma relied_on s g rv t k o : inv_with s g rv -> allowed true t k s -> o ∈ relies_on true k s ->
  (o ∉ owns k) /\ (exists w, ptrs s !! o = Some w /\ rv !! o = Some (get w)).
Proof.
  intros Hinv (_ & _ & _ & Huse & Hap)%allowed_parts Ho.
  assert (Hthere : is_Some (ptrs s !! o) /\ o ∉ owns k).
  { unfold relies_on in Ho. apply elem_of_union in Ho as [Hu|Hc].
    - split; [by apply Huse|]. by apply uses_not_owned.
    - destruct (registers_with k) as [o'|] eqn:Hreg; [|set_solver].
      destruct (container_of_container _ _ _ Hc) as [c ->]. apply container_of_spec in Hc as (w & L & _ & HL & HLc).
      destruct (iv_back _ _ _ Hinv _ _ _ HL HLc) as (w1 & Hw1 & _). split; [by exists w1|]. by apply (container_not_owned k o'). }
  destruct Hthere as [[w Hw] Hno]. split; [done|]. exists w. split; [done|]. apply (iv_free _ _ _ Hinv o w Hw).
  intros t' a' Ha'. destruct (Hap t' a' Ha') as (_ & _ & Hd). rewrite elem_of_disjoint in Hd. intros Hin. by apply (Hd o).
Qed.
Lemma link_inv_call s t k : inv s -> allowed true t k s -> inv (start true t k s).
Proof.
  intros (g & rv & Hinv) Hal. pose proof Hal as (Hidle & Hnew & Hlive & _ & Hap)%allowed_parts.
  assert (Hrv : forall o w, o ∈ owns k -> ptrs s !! o = Some w -> rv !! o = Some (get w)).
  { intros o w Ho Hw. apply (iv_free _ _ _ Hinv o w Hw). intros t' a' Ha'. destruct (Hap t' a' Ha') as (Hd & _). rewrite elem_of_disjoint in Hd. intros Hin. by apply (Hd o). }
  assert (Hnone : forall o, ptrs s !! o = None -> rv !! o = None).
  { intros o Ho. destruct (rv !! o) as [l|] eqn:E; [|done]. destruct (iv_rv _ _ _ Hinv _ _ E) as [(? & ? & _) _]. congruence. }
  set (gh := Ghost (first_own s k) (registering k) ∅ None Nothing).
  assert (Hty : typed (relies_on true k s) gh (program k)).
  { apply typed_program; [intros o Hm Hc; specialize (Hnew o Hm); destruct (Hlive o Hc) as [w Hw]; congruence|]. split.
    - intros o Ho. apply first_own_lookup. split; [by apply elem_of_union_l|]. unfold knows_first. by rewrite (Hnew o Ho).
    - intros o Ho. destruct (Hlive o Ho) as [w Hw]. exists (isLinked w). apply first_own_lookup.
      split; [by apply elem_of_union_r|]. unfold knows_first. by rewrite Hw.
    - intros c Ho. destruct (Hlive (Container c) Ho) as [w Hw]. apply first_own_lookup. split; [by apply elem_of_union_r|].
      unfold knows_first. by rewrite Hw, (iv_plain _ _ _ Hinv c w Hw).
    - intros o p [_ ->]%first_own_lookup. unfold knows_first. by destruct (ptrs s !! o).
    - apply union_subseteq_l. }
  assert (Htr : true_of s rv t (relies_on true k s) gh).
  { split; cbn [own safe gone held about gh]; try done.
    - intros o p [Ho ->]%first_own_lookup. unfold knows_first. destruct (ptrs s !! o) as [w|] eqn:Hw; cbn; [|by auto].
      exists w. split_and!; [done|done|by apply Hrv].
    - intros o Ho. destruct (relied_on s g rv t k o Hinv Hal Ho) as [Hno Hw]. split; [|done].
      apply not_elem_of_dom. by rewrite first_own_dom.
    - intros o Ho. unfold registering in Ho. destruct (registers_with k) as [o'|] eqn:Hreg; [|set_solver].
      apply elem_of_singleton in Ho as ->. split.
      + left. destruct (registers_with_cases k o' Hreg) as [Hu|Hc]; [right; by apply elem_of_union_l|left].
        destruct (Hlive o' Hc) as [w Hw]. exists (isLinked w). apply first_own_lookup.
        split; [by apply elem_of_union_r|]. unfold knows_first. by rewrite Hw.
      + intros w L c Hw HL HLc. unfold relies_on. rewrite Hreg. apply elem_of_union_r, container_of_spec. by exists w, L. }
  exists (<[t := gh]> g), rv. split; cbn [heap ptrs threads start]; try apply Hinv.
  - intros t' a'. destruct (decide (t' = t)) as [->|Hne].
    + rewrite !lookup_insert_eq. intros [= <-]. exists gh. split_and!; [done|apply first_own_dom|done|]. by destruct Htr; split.
    + rewrite !lookup_insert_ne by done. intros Ha'. destruct (iv_thread _ _ _ Hinv t' a' Ha') as (gh' & ? & ? & ? & Htr').
      exists gh'. split_and!; try done. by destruct Htr'; split.
  - intros t'. destruct (decide (t' = t)) as [->|Hne]; [by rewrite lookup_insert_eq|]. rewrite !lookup_insert_ne by done. apply (iv_idle _ _ _ Hinv).
  - intros t1 t2 a1 a2 Hne. destruct (decide (t1 = t)) as [->|H1]; destruct (decide (t2 = t)) as [->|H2]; [done| | |].
    + rewrite lookup_insert_eq, lookup_insert_ne by done. intros [= <-] Ha2. destruct (Hap t2 a2 Ha2) as (? & ? & _). done.
    + rewrite lookup_insert_eq, lookup_insert_ne by done. intros Ha1 [= <-]. destruct (Hap t1 a1 Ha1) as (? & _ & ?). cbn. set_solver.
    + rewrite !lookup_insert_ne by done. by apply (iv_apart _ _ _ Hinv).
  - intros o w Hw Hfree. apply (iv_free _ _ _ Hinv o w Hw). intros t' a' Ha'. apply (Hfree t'). rewrite lookup_insert_ne; [done|congruence].
  - intros l L t' HL Hm. destruct (iv_mutex _ _ _ Hinv l L t' HL Hm) as (gh' & o & Hg' & Hh). exists gh', o. split; [|done].
    rewrite lookup_insert_ne; [done|]. intros <-. by rewrite (iv_idle _ _ _ Hinv t Hidle) in Hg'.
  - intros l Hl Hz. destruct (iv_dead _ _ _ Hinv l Hl Hz) as (t' & gh' & Hg' & Hab). exists t', gh'. split; [|done].
    rewrite lookup_insert_ne; [done|]. intros <-. by rewrite (iv_idle _ _ _ Hinv t Hidle) in Hg'.
  - intros l t1 t2 gh1 gh2 H1 H2 Hd1 Hd2. apply lookup_insert_Some in H1 as [[<- <-]|[_ H1]]; [done|].
    apply lookup_insert_Some in H2 as [[<- <-]|[_ H2]]; [done|]. by apply (iv_once _ _ _ Hinv l t1 t2 gh1 gh2).
Qed.
Lemma link_inv_make : inv make.
Proof.
  exists ∅, ∅. split; cbn; try (by intros; simplify_map_eq); done.
Qed.
Lemma link_reachable_inv s : reachable true s -> inv s.
Proof.
  induction 1 as [|t k s _ IH Hal|addr t s s' _ IH Ha Hs Hf]; [apply link_inv_make|by apply link_inv_call|].
  pose proof (link_inv_step s addr t IH Ha) as Hi. rewrite Hs in Hi. by apply Hi.
Qed.
