(* ===== verification/StatLinkTheorems.v ===== *)
(** * StatLinkTheorems: containers and stats destroyed by any threads

    Every schedule of constructions, moves, uses and destructions; and the one
    schedule the code does not survive. *)
From S2P Require Import Prelude StatLink StatLinkTyping StatLinkCorrect.
From Stdlib Require Import ZArith Lia.
From stdpp Require Import base gmap sets list.
Import StatLink.

Open Scope Z_scope.

(** ** What the counts are worth *)
(** How many pointers lead to a link. *)
Definition pointers (s : sys) (l : Z) : nat := size (filter (fun p => get p.2 = l) (ptrs s)).
(** What is true of a link that is (not) on the heap while no call runs. *)
Definition exactly_owned (s : sys) (l : Z) : Prop :=
  match heap s !! l with
  | Some L => refCount_ L = Z.of_nat (pointers s l) /\ (0 < pointers s l)%nat /\ mutex_ L = None /\
      forall c, container_ L = Some c -> exists w, ptrs s !! Container c = Some w /\ get w = l
  | None => pointers s l = O
  end.
(** No running call makes, changes or ends the object. *)
Definition at_rest (s : sys) (o : owner) : Prop := forall t a, threads s !! t = Some a -> o ∉ owns (running a).

Lemma rested_refs s g rv l : inv_with s g rv -> threads s = ∅ -> refs rv l = pointers s l.
Proof.
  intros Hinv Hempty. assert (E : rv = get <$> ptrs s).
  { apply map_eq. intros o. rewrite lookup_fmap. destruct (ptrs s !! o) as [w|] eqn:Hw; cbn.
    - apply (iv_free _ _ _ Hinv o w Hw). intros t a Ha. by rewrite Hempty in Ha.
    - destruct (rv !! o) as [l0|] eqn:Hr; [|done]. destruct (iv_rv _ _ _ Hinv _ _ Hr) as [(? & ? & _) _]. congruence. }
  unfold refs, pointers. rewrite E, map_filter_fmap. apply map_size_fmap.
Qed.
Lemma rested_owned s l : inv s -> threads s = ∅ -> exactly_owned s l.
Proof.
  intros (g & rv & Hinv) Hempty. assert (Hg : forall t, g !! t = None) by (intros t; apply (iv_idle _ _ _ Hinv); by rewrite Hempty).
  unfold exactly_owned. rewrite <- (rested_refs s g rv l Hinv Hempty). destruct (heap s !! l) as [L|] eqn:HL.
  - split_and!; [by apply (iv_count _ _ _ Hinv)| | |intros c; by apply (iv_back _ _ _ Hinv l L)].
    + destruct (refs rv l) as [|n] eqn:E; [|lia]. destruct (iv_dead _ _ _ Hinv l) as (t & gh & Hgt & _); [by exists L|done|].
      by rewrite Hg in Hgt.
    + destruct (mutex_ L) as [t|] eqn:Hm; [|done]. destruct (iv_mutex _ _ _ Hinv _ _ _ HL Hm) as (gh & o & Hgt & _). by rewrite Hg in Hgt.
  - destruct (refs rv l) as [|n] eqn:E; [done|]. exfalso. assert (Hne : filter (fun p => p.2 = l) rv <> ∅).
    + intros E0. unfold refs in E. by rewrite E0, map_size_empty in E.
    + apply map_choose in Hne as (o & l0 & [Ho Hl]%map_lookup_filter_Some). cbn in Hl. subst l0.
      destruct (iv_rv _ _ _ Hinv _ _ Ho) as [_ [? ?]]. congruence.
Qed.
(** Whatever the schedule, nothing throws. *)
Lemma step_safe s addr t e : inv s -> allocatable addr s -> step addr t s <> Some (Throw e).
Proof. intros Hi Ha E. pose proof (link_inv_step s addr t Hi Ha) as Hs. by rewrite E in Hs. Qed.
Lemma rested_alive s o w : inv s -> ptrs s !! o = Some w -> at_rest s o -> is_Some (heap s !! get w).
Proof. intros (g & rv & Hinv) Hw Hr. apply (iv_rv _ _ _ Hinv o). by apply (iv_free _ _ _ Hinv). Qed.
(** The pointer half of a linked word does not change. *)
Lemma linked_word_stable s addr t s' o w : inv s -> allocatable addr s -> step addr t s = Some (Ret s') ->
  ptrs s !! o = Some w -> isLinked w = true -> exists w', ptrs s' !! o = Some w' /\ get w' = get w.
Proof.
  intros (g & rv & Hinv) Ha Hs Hw Hl. unfold step in Hs. destruct (threads s !! t) as [a|] eqn:Ht; [|done].
  destruct (iv_thread _ _ _ Hinv t a Ht) as (gh & Hg & Hd & Hty & Htr). destruct (code a) as [|i k]; [injection Hs as <-; eauto|].
  destruct (access addr t i s k) as [[[s1 k1]|]|] eqn:Hacc; [|done|done]. injection Hs as <-.
  change (exists w', ptrs s1 !! o = Some w' /\ get w' = get w).
  assert (Hwrite : forall o1 w1, (o1 = o -> get w1 = get w) -> exists w', <[o1 := w1]> (ptrs s) !! o = Some w' /\ get w' = get w).
  { intros o1 w1 Ho1. destruct (decide (o1 = o)) as [->|Hne]; [exists w1; rewrite lookup_insert_eq; auto|].
    exists w. by rewrite lookup_insert_ne. }
  unfold access, with_link, with_ptr, locked, next, ub in Hacc.
  inversion Hty; subst; repeat case_match; simplify_eq; cbn [ptrs put_ptr put_link free_link end_ptr]; try by exists w.
  all: match goal with E : ?G !! _ = Some _, _ : true_of _ _ _ _ (Ghost ?G _ _ _ _) |- _ => pose proof (tr_own _ _ _ _ _ Htr _ _ E) as Hm end.
  - apply Hwrite. intros <-. destruct Hm. congruence.
  - apply Hwrite. intros <-. match goal with E : _ = Absent \/ _ = Released |- _ => destruct E as [->| ->] end.
    + destruct Hm. congruence.
    + destruct Hm as (_ & w0 & Hw0 & Hf). congruence.
  - destruct Hm as (_ & w0 & Hw0 & Hf). exists w. rewrite lookup_delete_ne by congruence. done.
  - apply Hwrite. intros <-. rewrite get_setLinked. congruence.
Qed.

(** Who holds a mutex can go on, so somebody always can. *)
Lemma held_moves s g rv t a gh addr l o : inv_with s g rv -> allocatable addr s -> threads s !! t = Some a -> g !! t = Some gh ->
  held gh = Some (l, o) -> exists s', step addr t s = Some (Ret s').
Proof.
  intros Hinv Ha Ht Hg Hh. destruct (step addr t s) as [[s'|e]|] eqn:Hs; [by exists s'| |].
  - exfalso. apply (step_safe s addr t e); [by exists g, rv|done|done].
  - exfalso. unfold step in Hs. rewrite Ht in Hs. destruct (iv_thread _ _ _ Hinv t a Ht) as (gh1 & Hg1 & _ & Hty & _).
    rewrite Hg in Hg1. injection Hg1 as <-. destruct (code a) as [|i k]; [done|].
    destruct (access addr t i s k) as [[[? ?]|]|] eqn:Hacc; try done.
    unfold access, with_link, with_ptr, locked, next, ub in Hacc. inversion Hty; subst; cbn in Hh; repeat case_match; done.
Qed.
Lemma someone_moves s addr : inv s -> allocatable addr s -> threads s <> ∅ -> exists t s', step addr t s = Some (Ret s').
Proof.
  intros Hi Ha Hne. pose proof Hi as (g & rv & Hinv). apply map_choose in Hne as (t & a & Ht).
  destruct (step addr t s) as [[s'|e]|] eqn:Hs; [by exists t, s'|by destruct (step_safe s addr t e)|].
  unfold step in Hs. rewrite Ht in Hs. destruct (code a) as [|i k]; [done|].
  destruct (access addr t i s k) as [[[? ?]|]|] eqn:Hacc; try done.
  unfold access, with_link, with_ptr, locked, next, ub in Hacc. destruct i; repeat case_match; try done.
  match goal with HL : heap s !! _ = Some ?L, Hm : mutex_ ?L = Some ?t' |- _ =>
    destruct (iv_mutex _ _ _ Hinv _ _ _ HL Hm) as (gh & o' & Hg & Hh);
    exists t'; destruct (threads s !! t') as [a'|] eqn:Ha'; [|by rewrite (iv_idle _ _ _ Hinv _ Ha') in Hg];
    by eapply (held_moves s g rv t' a' gh addr)
  end.
Qed.

(** C12: Over every schedule of threads that construct, move, use and destroy
    containers and their stats, with callers that keep the container of a stat they
    construct or move: no access reaches a link that was deleted or a container that
    is gone, no count underflows and no [DCHECK] fails; the link of every pointer
    that no call is changing is on the heap; the pointer half of a registered
    stat's word does not change; while calls run, one of them can go on; and while
    none runs, the links on the heap are exactly those some pointer leads to, each
    counts its pointers, is unlocked, and leads back to a container that leads to
    it, so none leaks. *)
Theorem links_outlive_pointers s : reachable true s ->
  (forall addr t e, allocatable addr s -> step addr t s <> Some (Throw e)) /\
  (forall o w, ptrs s !! o = Some w -> at_rest s o -> is_Some (heap s !! get w)) /\
  (forall addr t s' o w, allocatable addr s -> step addr t s = Some (Ret s') -> ptrs s !! o = Some w -> isLinked w = true ->
    exists w', ptrs s' !! o = Some w' /\ get w' = get w) /\
  (forall addr, allocatable addr s -> threads s <> ∅ -> exists t s', step addr t s = Some (Ret s')) /\
  (threads s = ∅ -> forall l, exactly_owned s l).
Proof.
  intros Hi%link_reachable_inv. split_and!.
  - intros addr t e. by apply step_safe.
  - intros o w. by apply rested_alive.
  - intros addr t s' o w. by apply linked_word_stable.
  - intros addr. by apply someone_moves.
  - intros Hempty l. by apply rested_owned.
Qed.

(** A container and its stat, made by thread 0; then thread 1 destroys the stat
    while thread 2 destroys the container. *)
Definition moves (t n : nat) : list event := repeat (Move t 32) n.
Definition stat_made : list event :=
  Call 0 (MakeContainer 0 false) :: Move 0 16 :: moves 0 1 ++ Call 0 (MakeStat 0 0) :: moves 0 11.
Definition destroyed_together : list event :=
  stat_made ++ [Call 1 (DestroyStat 0); Call 2 (DestroyContainer 0)] ++ moves 1 9 ++ moves 2 7 ++ moves 1 4 ++ moves 2 4 ++ moves 1 1.
Definition after (keep : bool) (es : list event) : sys := default make (exec_all keep es make).
Lemma after_reachable keep es s : exec_all keep es make = Some s -> reachable keep (after keep es).
Proof. unfold after. intros E. rewrite E. apply (exec_all_reachable keep es make); [constructor|done]. Qed.
Example destroyed_together_leaves_nothing : exec_all true destroyed_together make = Some make.
Proof. vm_compute. reflexivity. Qed.
Lemma stat_made_runs : exec_all true stat_made make = Some (after true stat_made).
Proof. vm_compute. reflexivity. Qed.
Lemma links_outlive_pointers_witness :
  exec_all true destroyed_together make = Some make /\
  pointers (after true stat_made) 16 = 2%nat /\ exactly_owned (after true stat_made) 16.
Proof.
  split; [exact destroyed_together_leaves_nothing|]. split; [vm_compute; reflexivity|].
  apply (links_outlive_pointers (after true stat_made)); [by apply (after_reachable true stat_made _ stat_made_runs)|vm_compute; reflexivity].
Defined.

(** Thread 1 moves the stat while thread 2 destroys its container. *)
Definition moved_while_destroyed : list event :=
  stat_made ++ [Call 1 (MoveConstruct 1 0); Call 2 (DestroyContainer 0)] ++ moves 1 11 ++ moves 2 1 ++ moves 1 3 ++ moves 2 9.

Definition moving_act : activity :=
  Running (MoveConstruct 1 0) ∅ [Touch 0; SetLinked true (Stat 1)].
Lemma moved_runs : exec_all false moved_while_destroyed make = Some (after false moved_while_destroyed).
Proof. vm_compute. reflexivity. Qed.

(** C37: Where the caller of a move does not keep the container, although nobody else
    works on either stat: [link] fails to lock the link while the destructor of the
    container holds it, reads a back pointer that is still set, and pushes the stat
    on the pending list of a container that is gone. *)
Theorem move_reaches_destroyed_container : exists s act,
  reachable false s /\ threads s !! 1%nat = Some act /\ running act = MoveConstruct 1 0 /\
  code act = [Touch 0; SetLinked true (Stat 1)] /\ ptrs s !! Container 0 = None /\
  forall addr, step addr 1 s = Some (Throw undefined_behaviour).
Proof.
  exists (after false moved_while_destroyed), moving_act. split; [by apply (after_reachable false moved_while_destroyed _ moved_runs)|].
  assert (Ha : threads (after false moved_while_destroyed) !! 1%nat = Some moving_act) by (vm_compute; reflexivity).
  assert (Hc : ptrs (after false moved_while_destroyed) !! Container 0 = None) by (vm_compute; reflexivity).
  split_and!; [done|done|done|done|]. intros addr. unfold step. rewrite Ha. cbn [code moving_act access].
  unfold with_ptr. by rewrite Hc.
Qed.
