(* ===== verification/Overloads.v ===== *)
(** * Overloads: members that only forward, and other signatures

    The members of [ThreadCachedServiceData] that hand their arguments to
    [ServiceData]: what they read leaves the maps of the threads alone, so a value a
    thread has not published yet is not seen.  Then the same operations under other
    signatures.

    Readers of [src/fb303/ServiceData.h] that answer by value; operations of
    [ExportedHistogramMapImpl.h], [ExportedHistogramMap.h] and
    [TimeseriesHistogram.h] that take a [time_t] or a single percentile; and the
    members of [ServiceData] and [ThreadCachedServiceData] that export several
    percentiles. *)
From S2P Require Import Prelude RegexUtil FlatCounters CallbackValuesMap NamedCallbacks TLStatsLockTraits ExportType Timeseries TimeseriesExporter HistogramExporter HistogramNames ExportedStatMap ExportedHistogramMap QuantileStat QuantileStatMap ServiceOptions ServiceData ServiceReads TLStats StatPtr TLStatsMap ThreadCached.
From Stdlib Require Import ZArith Lia Ascii String.
From stdpp Require Import base gmap sets list strings.

Open Scope Z_scope.
Open Scope fb303_scope.

#[local] Existing Instance ServiceData.state_flags.

(** ** [ThreadCachedServiceData], straight to [ServiceData] *)
Module ThreadCachedReads.
Section Model.
Context {M : Type} `{RegexMatchCache M} {TS Hg HV : Type} `{FollyHistogram TS Hg HV} `{SimpleHistogram HV}.
Context {E : Type} `{QuantileEstimator E} `{NumberFormat} `{TextParsers}.
Context {U US Getter Setter W : Type} `{GoogleFlags W} `{FollySplit} `{LockTraits} `{TypedPtr}.
Context (hash : string -> Z).
Abbreviation service := (ServiceData.state M TS Hg E U US Getter Setter W).
Abbreviation dynamic_counters := (CallbackValuesMap.cvm (counter_callback U) M).
Context (gap_stats : ExportedStatMap.statmap TS * dynamic_counters -> ExportedStatMap.statmap TS * dynamic_counters).
Abbreviation dynamic_strings := (CallbackValuesMap.cvm (string_callback US) M).
Context (gap_hists : ExportedHistogramMap.histmap TS Hg * (dynamic_counters * dynamic_strings) ->
                     ExportedHistogramMap.histmap TS Hg * (dynamic_counters * dynamic_strings)).
Context (gap_values : gmap string string -> gmap string string).
Context (run_user : U -> SE service Z) (run_user_string : US -> SE service string).
Context (run_getter : Getter -> SE service string) (run_setter : Setter -> string -> SE service unit).
Context (time_source : nat -> Z) (legacy : bool).
Context (make_heap down_heap :
  (list (string * nat) -> list (string * nat) -> bool) ->
  list (list (string * nat)) -> list (list (string * nat))).
Abbreviation state := (ThreadCached.tcd * (TLStatsMap.maps * (TLStats.tls (HV := HV) * service)))%type.
Abbreviation on_service := ThreadCached.on_service.

Definition getAliveSince : SE state Z := on_service (let* s := se_get in se_ret (ServiceData.aliveSince_ s)).
Definition addStatExports (key stats : string) (bucketWidth min max : Z) : SE state unit :=
  on_service (ServiceData.addStatExports hash gap_stats gap_hists key stats bucketWidth min max).
Definition getCounter (now later : Z) (key : string) : SE state Z :=
  on_service (ServiceReads.getCounter hash run_user time_source legacy now later key).
Definition getCounters (now : Z) (_return : gmap string Z) : SE state (gmap string Z) :=
  on_service (ServiceReads.getCounters run_user time_source legacy make_heap down_heap now _return).
Definition getSelectedCounters (now : Z) (keys : list string) (_return : gmap string Z) : SE state (gmap string Z) :=
  on_service (ServiceReads.getSelectedCounters hash run_user time_source legacy now keys _return).
Definition hasCounter (key : string) : SE state bool := on_service (ServiceReads.hasCounter hash key).
Definition setExportedValue (key value : string) : SE state unit := on_service (ServiceData.setExportedValue gap_values key value).
Definition getExportedValue (_return key : string) : SE state string :=
  on_service (ServiceReads.getExportedValue hash run_user_string time_source _return key).
Definition getExportedValues (_return : gmap string string) : SE state (gmap string string) :=
  on_service (ServiceReads.getExportedValues run_user_string time_source make_heap down_heap _return).
Definition getSelectedExportedValues (keys : list string) (_return : gmap string string) : SE state (gmap string string) :=
  on_service (ServiceReads.getSelectedExportedValues hash run_user_string time_source keys _return).
Definition setUseOptionsAsFlags (b : bool) : SE state unit := on_service (ServiceData.on_opts (ServiceOptions.setUseOptionsAsFlags b)).
Definition getUseOptionsAsFlags : SE state bool :=
  on_service (let* s := se_get in se_ret (ServiceOptions.useOptionsAsFlags_ (ServiceData.options s))).
Definition setOption (key value : string) : SE state unit :=
  let* _ := on_service (ServiceData.setOptionWithResult run_setter key value) in se_ret tt.
Definition setVModuleOption (value : string) : SE state unit := on_service (ServiceData.on_opts (ServiceOptions.setVModuleOption value)).
Definition getOption (key : string) : SE state string := on_service (ServiceData.getOption run_getter key).
Definition getOptions : SE state (gmap string string) := on_service (ServiceData.getOptions run_getter).
Definition registerDynamicOption (name : string) (getter : Getter) (setter : Setter) : SE state unit :=
  on_service (ServiceData.on_opts (ServiceOptions.registerDynamicOption name (Some getter) (Some setter))).
End Model.
End ThreadCachedReads.

(** ** Readers that answer by value *)
Module ServiceValues.
Section Model.
Context {M : Type} `{RegexMatchCache M} {TS Hg HV : Type} `{FollyHistogram TS Hg HV}.
Context {E : Type} `{QuantileEstimator E} `{NumberFormat} `{TextParsers}.
Context {U US Getter Setter W : Type} `{GoogleFlags W} `{FollySplit}.
Context (hash : string -> Z).
Abbreviation state := (ServiceData.state M TS Hg E U US Getter Setter W).
Context (run_user : U -> SE state Z) (run_user_string : US -> SE state string) (run_getter : Getter -> SE state string).
Context (time_source : nat -> Z) (legacy : bool).
Context (make_heap down_heap :
  (list (string * nat) -> list (string * nat) -> bool) ->
  list (list (string * nat)) -> list (list (string * nat))).
Context (gaps_flat : nat -> RegexUtil.syncmap (M := M) (V := Z) -> RegexUtil.syncmap (M := M) (V := Z)).
Context (gaps_quantiles : nat -> RegexUtil.syncmap (M := M) (V := QuantileStatMap.CounterMapEntry) ->
         RegexUtil.syncmap (M := M) (V := QuantileStatMap.CounterMapEntry)).
Context (gaps_dynamic : nat -> RegexUtil.syncmap (M := M) (V := nat) -> RegexUtil.syncmap (M := M) (V := nat)).

Definition getCounters (now : Z) : SE state (gmap string Z) :=
  ServiceReads.getCounters run_user time_source legacy make_heap down_heap now ∅.
Definition getSelectedCounters (now : Z) (keys : list string) : SE state (gmap string Z) :=
  ServiceReads.getSelectedCounters hash run_user time_source legacy now keys ∅.
Definition getRegexCounters (r : regex) (regex_now : time_point) (now : Z) : SE state (gmap string Z) :=
  ServiceReads.getRegexCounters hash run_user time_source legacy gaps_flat gaps_quantiles gaps_dynamic r regex_now now ∅.
Definition getExportedValue (key : string) : SE state string :=
  ServiceReads.getExportedValue hash run_user_string time_source "" key.
Definition getExportedValues : SE state (gmap string string) :=
  ServiceReads.getExportedValues run_user_string time_source make_heap down_heap ∅.
Definition getSelectedExportedValues (keys : list string) : SE state (gmap string string) :=
  ServiceReads.getSelectedExportedValues hash run_user_string time_source keys ∅.
Definition getRegexExportedValues (regex : string) : SE state (gmap string string) :=
  ServiceReads.getRegexExportedValues run_user_string time_source make_heap down_heap regex ∅.
Definition getOptions : SE state (gmap string string) := ServiceData.getOptions run_getter.

(** [exportHistogramPercentile] with several percentiles, exported one by one. *)
Fixpoint exportHistogramPercentile (key : string) (pct : Z) (args : list Z) : SE state unit :=
  ServiceData.exportHistogramPercentile hash key pct >>>
  match args with [] => se_ret tt | arg :: args' => exportHistogramPercentile key arg args' end.
End Model.
End ServiceValues.

Module ThreadCachedOverloads.
Section Model.
Context {M : Type} `{RegexMatchCache M} {TS Hg HV : Type} `{FollyHistogram TS Hg HV} `{SimpleHistogram HV}.
Context {E U US Getter Setter W : Type} `{LockTraits} `{TypedPtr} (hash : string -> Z).
Abbreviation state := (ThreadCached.tcd * (TLStatsMap.maps * (TLStats.tls (HV := HV) * ServiceData.state M TS Hg E U US Getter Setter W)))%type.
Definition exportHistogramPercentile (key : string) (pct : Z) (args : list Z) : SE state unit :=
  ThreadCached.on_service (ServiceValues.exportHistogramPercentile hash key pct args).
End Model.
End ThreadCachedOverloads.

(** ** Times in seconds

    The clock of the histograms ticks once per second, so that a [time_t] is its own
    [TimePoint]. *)
Definition from_time_t (now : Z) : Z := now * seconds.

Module TimeseriesHistogram.
Section Model.
Context {TS Hg HV : Type} `{FollyHistogram TS Hg HV}.
(** The constructors; the second converts the clock of its container. *)
Definition make (bucketSize min max : Z) (defaultContainer : option TS) : outcome Hg :=
  match defaultContainer with
  | Some c => th_make bucketSize min max c
  | None => match construct HistogramMinuteTenMinuteHourTimeSeries with Ret c => th_make bucketSize min max c | Throw e => Throw e end
  end.
Definition make_from_milliseconds (bucketSize min max : Z) (defaultContainer : TS) : outcome Hg :=
  match convert milliseconds seconds defaultContainer with Ret c => th_make bucketSize min max c | Throw e => Throw e end.
Definition update (now : Z) (h : Hg) : Hg := th_update (from_time_t now) h.
Definition addValue (now value : Z) (h : Hg) : Hg := th_addValue (from_time_t now) value 1 h.
Definition addValue_times (now value times : Z) (h : Hg) : Hg := th_addValue (from_time_t now) value times h.
Definition addValues (now : Z) (values : HV) (h : Hg) : Hg := th_addValues (from_time_t now) values h.

(** Constructed from the millisecond table of the same levels or from the default of
    its own clock, a histogram has the same levels. *)
Lemma make_agree bucketSize min max t h h' :
  construct MinuteTenMinuteHourTimeSeries = Ret t ->
  make bucketSize min max None = Ret h -> make_from_milliseconds bucketSize min max t = Ret h' ->
  ts_durations (th_getBucket h 0) = ts_durations (th_getBucket h' 0) /\ th_getMin h = th_getMin h' /\ th_getMax h = th_getMax h' /\
  th_getBucketSize h = th_getBucketSize h'.
Proof.
  change (construct MinuteTenMinuteHourTimeSeries) with (Ret (ts_make (TS := TS) 60 (in_ticks milliseconds [60; 600; 3600; 0]))).
  change (make bucketSize min max None) with (th_make bucketSize min max (ts_make 60 (in_ticks seconds [60; 600; 3600; 0]))).
  intros Et E1. assert (E0 : t = ts_make 60 (in_ticks milliseconds [60; 600; 3600; 0])) by congruence. subst t.
  unfold make_from_milliseconds, convert, getDurations.
  destruct (ts_make_levels (TS := TS) 60 (in_ticks milliseconds [60; 600; 3600; 0])) as [-> ->]. rewrite cast_all_seconds by done.
  intros E2. apply th_make_spec in E1 as (-> & -> & -> & ->). by apply th_make_spec in E2 as (-> & -> & -> & ->).
Qed.
End Model.
End TimeseriesHistogram.

Module HistogramMapOverloads.
Import ExportedHistogramMap.
Section Model.
Context {TS Hg HV : Type} `{FollyHistogram TS Hg HV}.
Context {CM Cb : Type} `{NamedCallbacks CM Cb} (callback : HistogramExporter.hist_value -> Cb).
Context {SM Sb : Type} `{NamedCallbacks SM Sb} (string_callback : HistogramExporter.hist_buckets -> Sb).
Abbreviation state := (histmap TS Hg * (CM * SM))%type.
Context (gap : state -> state).
Definition addValue_time_t (name : string) (now value times : Z) : SE state unit :=
  ExportedHistogramMap.addValue name (from_time_t now) value times.
Definition addValues_time_t (name : string) (now : Z) (values : HV) : SE state unit :=
  ExportedHistogramMap.addValues name (from_time_t now) values.
(** [ExportedHistogramMap::addValues] with one percentile. *)
Definition addValues_percentile (name : string) (now : Z) (values : HV) (hist : option Hg) (percentile : Z) : SE state unit :=
  ExportedHistogramMap.addValues_create callback string_callback gap name now values hist [percentile].
Definition addValues_percentile_time_t (name : string) (now : Z) (values : HV) (hist : option Hg) (percentile : Z) : SE state unit :=
  addValues_percentile name (from_time_t now) values hist percentile.
Definition addValues_percentiles_time_t (name : string) (now : Z) (values : HV) (hist : option Hg) (percentiles : list Z) : SE state unit :=
  ExportedHistogramMap.addValues_create callback string_callback gap name (from_time_t now) values hist percentiles.
End Model.
End HistogramMapOverloads.
